(* ===== verification/_CoqProject ===== *)
-Q . S2P
Prelude.v
Mem.v
KernelEnv.v
SlobPage.v
Slob.v
SlobProofs.v
SlobSpec.v
SlobRefine.v
SlobRuns.v
SlobConc.v
SlobConcRuns.v
SlobCache.v
Mt19937.v
Binary64.v
MtReal.v
ProduceConsume.v
KList.v
Sstf.v
Con3.v
Con3Races.v
Con3Spec.v
Sbd.v
SbdDisk.v
SbdModule.v
Philosophers.v
