(* ===== verification/Prelude.v ===== *)
(** * Verification of the programs of the CS444-23 repository

    The repository holds the projects of an operating-systems course: six
    programs in C and one in Java, independent of each other (but for the
    Mersenne Twister, which the producer and consumer include), each modelled
    by its own file or files:

    - [kernel/project4/code/slob.c], the SLOB memory allocator of Linux changed
      to look for the page that fits best and to keep statistics for two new
      system calls;
    - [kernel/project2/code/sstf-iosched.c], an I/O scheduler;
    - [kernel/project3/code/sbd.c], an encrypted RAM disk;
    - [concurrency/concurrency1/mt19937ar.c], the Mersenne Twister;
    - [concurrency/concurrency1/produce_consume.c], a producer and a consumer
      that share a bounded stack;
    - [concurrency/concurrency3/con3.c], threads that search, insert into and
      delete from a linked list;
    - [concurrency/concurrency2/philosophers.java], dining philosophers.

    ** The files

    [Prelude] (this file): results of code that can fail ([res]), machine
    integers ([wrap_u], [wrap_s]), tactics, lemmas used everywhere.
    [Mem]: byte-addressed memory with little-endian loads and stores.

    slob.c.  [KernelEnv]: the kernel around it as classes (configuration and
    macros, the lists of pages, the page allocator) with their laws, and an
    i386 instance.  [SlobPage]: the block headers in memory ([set_slob],
    [slob_units], [slob_next], [slob_last]), the scan of [slob_page_alloc] and
    the reinsertion of [slob_free], with the list of blocks they implement
    ([chain], [fit], [give_back]).  [Slob]: the allocator's state and every
    function of slob.c above the page level, and the invariant [slob_inv].
    [SlobProofs]: the effect of each operation and that it keeps the invariant.
    [SlobSpec]: the allocator driven by clients ([client_step], [reachable]), with
    any [sp_alt] that is [sp_alt_ok], and what holds in every reachable state: free list, blocks and objects tile
    each page, objects are disjoint and aligned, calls return, the counters
    are exact; headers and allocation round-trip; kmalloc, kfree and ksize for
    every size (none, below a page, whole pages).
    [SlobRefine]: the allocator without bytes ([spec], [spec_alloc],
    [spec_free]): best page, first fit, coalescing; the code implements it to
    the address.
    [SlobRuns]: concrete states, on which the theorems are instantiated, and
    runs that show the effect of the best-page choice.
    [SlobConc]: any number of threads inside [slob_alloc] and [slob_free] at
    once, one shared access at a time ([alloc_step], [free_step],
    [machine_step]); the invariant of [Slob], with the objects and pages that
    are on their way, holds in every interleaving; the lock excludes and nothing
    deadlocks; calls that do not overlap behave as in [Slob].  [SlobConcRuns]:
    overlapping calls that make the statistics wrong.  [SlobCache]: the
    kmem_cache functions of [Slob] driven by clients and by the ends of RCU
    grace periods in any order ([cache_step]), for objects below a page.

    mt19937ar.c.  [Mt19937]: seeding and generation on the array [mt]; the
    code implements the recurrence one word at a time; independence of the
    width of unsigned long; 624 outputs in a row determine the state and so
    everything that follows; the state stays well formed and, seeded by an
    array, never becomes zero.
    [Binary64]: doubles as the [spec_float] of the Standard Library, and the
    lemmas that say when an operation is exact.  [MtReal]: the four functions
    that return a double, their values and intervals.

    produce_consume.c.  [ProduceConsume]: the threads [produce] and [consume] as
    a step relation; the history of pushes and pops is one of a stack, and the
    output tells it line by line; mutual exclusion; no deadlock, and every entry
    can still be consumed; the ranges of the random numbers.

    sstf-iosched.c.  [KList]: linux/list.h as a class with laws on circular
    doubly linked lists, and the instance with the pointer assignments.
    [Sstf]: the elevator's operations on these lists; [add_req] implements
    [place]; no request is lost; where the queue is in sector order and where
    it is not; a request that later ones overtake for ever; when [add_req]
    returns.

    con3.c.  [Con3]: nine threads as functions that make one shared access at a
    time, interleaved by [step]; the locks protect every locked access; mutual
    exclusion.  [Con3Races]: the list that stays empty, the mutex that is never
    released and the races of the unlocked size test, by which the list grows
    beyond any bound.  [Con3Spec]: the list as a history of appends and
    removals, and what a search prints.

    sbd.c.  [Sbd]: transfers over a cipher and a block layer that are classes
    with laws; bounds check, the key set for each transfer, encryption on write,
    decryption on read, the print-outs and the addresses they need; the request
    function and how it fails; init and exit as acquisition and release of resources.
    [SbdDisk]: a disk without a cipher ([disk_transfer]), which the device
    implements unless a print-out faults; a read gives what was last written.  [SbdModule]: the module's
    parameters, and the loaded module as the disk that it announces to the
    kernel; what a block size above the kernel's sector size does.

    philosophers.java.  [Philosophers]: chopsticks as monitors with a semaphore,
    philosophers as threads; neighbours do not eat together; the two deadlocks
    and that there is no other; what the printed lines say of the table, and
    how far they lag behind.

    ** Conventions

    An integer of a C type is a [Z], with [wrap_u] or [wrap_s] where the code
    can wrap.  An address is a [Z].  A loop that is not structural takes fuel;
    [Fuel] as a result means that the bound was too small and is never a
    result of the program.  The bounds inside definitions are proved enough:
    [SlobPage.page_fuel] (a page has no more blocks than units), by
    [SlobSpec.slob_reachable_inv]; one round per byte in [Sbd.transfer_data], by
    [Sbd.transfer_data_ok].  Where the bound is an argument ([Sstf.add_req],
    [Sbd.sbd_crypt_request], [Con3.linked_list_size]) the theorems say which
    bound is enough, or that none is.

    The code that the repository does not contain is a class or an argument,
    with its documented behaviour as laws, and each class has an instance on
    which the theorems are instantiated.  Concurrency is interleaving of steps:
    in [ProduceConsume], [Con3], [SlobConc] and [Philosophers] one step is one
    access to shared memory, to a mutex or to a counter, except that in
    [SlobConc] the work on pages between a lock and its unlock is one step (the
    invariant of the lock says that no other thread is there).  In [Slob] and
    [SlobCache] a call is one step; [SlobConc.conc_sequential] says that such
    runs are among those of the interleaved machine.  Memory is sequentially
    consistent.

    ** Not modelled

    The older draft [kernel/project2/sstf-iosched.c], which does not compile;
    [kernel/project2/submission/sstf-iosched.c], a copy of the file in
    [project2/code]; the prototypes of [kernel/project4/code/syscalls.h],
    tables, build files, patches and reports; [sleep] and the time it takes;
    the excess precision that an x87 unit may give to the double arithmetic of
    mt19937ar.c; interrupts of the Java threads, which nothing sends.
    Caches whose objects are a page or larger have only the lemma
    [SlobCache.kmem_cache_big].

    ** What the theorems assume of the code's own defects

    [slob_alloc] does not initialise [sp_alt].  Its value is an argument of the
    model, and the theorems on the allocator hold for every value that is NULL
    or points to a page on one of the three lists when the search begins
    ([Slob.sp_alt_ok]), which the source does not ensure:
    [SlobRuns.slob_alloc_page_choice] shows what happens otherwise.
    [sbd_crypt_transfer] prints from an address below 256 and sets the key anew
    from parameters that can change: the theorems of [SbdDisk] and [SbdModule]
    say what happens whether these addresses are mapped or not, for parameters
    that keep setting the same key; [Sbd.sbd_request_function] that without the
    first page nothing is served. *)

From Stdlib Require Export ZArith Lia Zquot.
From stdpp Require Export base tactics list list_numbers relations gmap sorting.

#[global] Open Scope Z_scope.

(** ** Results of code that can fail

    [Ok a] is a normal return.  [Bug] is a failed [BUG_ON] (the kernel stops).
    [Fault] is an access to memory that the running code may not access (a
    kernel oops, or undefined behaviour of the C program).  [Fuel] is never a
    behaviour of the program: it says that the bound given to a loop of the
    model was too small; theorems about loops prove that it does not occur
    for the bounds the definitions choose. *)

Inductive res (A : Type) : Type :=
| Ok (a : A)
| Bug
| Fault
| Fuel.
Arguments Ok {A} a.
Arguments Bug {A}.
Arguments Fault {A}.
Arguments Fuel {A}.

Definition res_bind {A B : Type} (r : res A) (f : A -> res B) : res B :=
  match r with
  | Ok a => f a
  | Bug => Bug
  | Fault => Fault
  | Fuel => Fuel
  end.

Definition is_ok {A : Type} (r : res A) : bool :=
  match r with Ok _ => true | _ => false end.

Declare Scope res_scope.
Delimit Scope res_scope with res.
Notation "'let!' x ':=' r 'in' k" := (res_bind r (fun x => k))
  (at level 10, x pattern, r at level 100, k at level 200)
  : res_scope.
#[global] Open Scope res_scope.

(** ** Machine integers

    A [w]-bit unsigned value is a [Z] in [0, 2^w); a [w]-bit signed value a
    [Z] in [-2^(w-1), 2^(w-1)).  [wrap_u] and [wrap_s] are the conversions
    to these types. *)

Definition wrap_u (w : Z) (x : Z) : Z := x mod 2 ^ w.

Definition wrap_s (w : Z) (x : Z) : Z :=
  (x + 2 ^ (w - 1)) mod 2 ^ w - 2 ^ (w - 1).

Definition in_u (w : Z) (x : Z) : Prop := 0 <= x < 2 ^ w.

Definition in_s (w : Z) (x : Z) : Prop := - 2 ^ (w - 1) <= x < 2 ^ (w - 1).

(** ** Automation *)

Create HintDb cs444.

(** Split every conjunction and existential of the context. *)
Ltac dec_hyps :=
  repeat match goal with
  | H : _ /\ _ |- _ => destruct H
  | H : exists _, _ |- _ => destruct H
  end.

(** Turn the boolean comparisons of the context into propositions. *)
Ltac bool_hyps :=
  repeat match goal with
  | H : (_ && _)%bool = true |- _ => apply andb_true_iff in H; destruct H
  | H : (_ || _)%bool = false |- _ => apply orb_false_iff in H; destruct H
  | H : negb _ = true |- _ => apply negb_true_iff in H
  | H : negb _ = false |- _ => apply negb_false_iff in H
  | H : (_ <? _) = true |- _ => apply Z.ltb_lt in H
  | H : (_ <? _) = false |- _ => apply Z.ltb_ge in H
  | H : (_ <=? _) = true |- _ => apply Z.leb_le in H
  | H : (_ <=? _) = false |- _ => apply Z.leb_gt in H
  | H : (_ =? _) = true |- _ => apply Z.eqb_eq in H
  | H : (_ =? _) = false |- _ => apply Z.eqb_neq in H
  end.

(** Case analysis on the boolean tests that the goal is stuck on. *)
Ltac case_tests :=
  repeat match goal with
  | |- context [if ?b then _ else _] => destruct b eqn:?
  end; bool_hyps.

(** ** Lemmas on machine integers *)

Lemma pow2_pos w : 0 <= w -> 0 < 2 ^ w.
Proof. intros. apply Z.pow_pos_nonneg; lia. Qed.

Lemma wrap_u_small w x : in_u w x -> wrap_u w x = x.
Proof. intros H. apply Z.mod_small, H. Qed.

Lemma wrap_u_range w x : 0 <= w -> in_u w (wrap_u w x).
Proof. intros H. apply Z.mod_pos_bound, pow2_pos, H. Qed.

Lemma pow2_half w : 0 < w -> 2 ^ w = 2 * 2 ^ (w - 1).
Proof. intros H. rewrite <- Z.pow_succ_r by lia. f_equal. lia. Qed.

Lemma wrap_s_small w x : 0 < w -> in_s w x -> wrap_s w x = x.
Proof.
  intros Hw H. unfold wrap_s, in_s in *. pose proof (pow2_half w Hw).
  rewrite Z.mod_small; lia.
Qed.

Lemma wrap_s_range w x : 0 < w -> in_s w (wrap_s w x).
Proof.
  intros Hw. unfold wrap_s, in_s. pose proof (pow2_half w Hw).
  pose proof (Z.mod_pos_bound (x + 2 ^ (w - 1)) (2 ^ w) (pow2_pos w ltac:(lia))). lia.
Qed.

Lemma wrap_s_mod w x : 0 < w -> wrap_s w x mod 2 ^ w = x mod 2 ^ w.
Proof.
  intros Hw. unfold wrap_s. rewrite Zminus_mod_idemp_l. f_equal. lia.
Qed.

Lemma wrap_s_wrap_mod w x : 0 < w -> wrap_s w (x mod 2 ^ w) = wrap_s w x.
Proof. intros Hw. unfold wrap_s. rewrite Zplus_mod_idemp_l. done. Qed.

Lemma wrap_s_add_l w x y : 0 < w -> wrap_s w (wrap_s w x + y) = wrap_s w (x + y).
Proof.
  intros Hw. unfold wrap_s. f_equal.
  replace ((x + 2 ^ (w - 1)) mod 2 ^ w - 2 ^ (w - 1) + y + 2 ^ (w - 1))
    with ((x + 2 ^ (w - 1)) mod 2 ^ w + y) by lia.
  rewrite Zplus_mod_idemp_l. f_equal. lia.
Qed.

Lemma wrap_u_add_l w x y : wrap_u w (wrap_u w x + y) = wrap_u w (x + y).
Proof. apply Zplus_mod_idemp_l. Qed.

#[export] Hint Resolve wrap_u_range wrap_s_range pow2_pos : cs444.

(** ** Reachability

    State machines are step relations; [rtc] is stdpp's reflexive and
    transitive closure. *)

Lemma rtc_invariant {A : Type} (R : A -> A -> Prop) (I : A -> Prop) :
  (forall s t, I s -> R s t -> I t) ->
  forall s t, rtc R s t -> I s -> I t.
Proof. intros HR s t. induction 1; eauto. Qed.

(** ** Lists *)

Lemma snoc_cases {A : Type} (l : list A) : l = [] \/ exists l' x, l = l' ++ [x].
Proof. induction l as [|x l _] using rev_ind; eauto. Qed.
