(* ===== verification/Mem.v ===== *)
(** * Byte-addressed memory

    The kernel code of [kernel/project4/code/slob.c] reads and writes the same
    bytes at several types ([slobidx_t] block headers, the [unsigned int]
    header of a kmalloc block, [memset]).  Memory is therefore a function from
    addresses to bytes, with little-endian accesses of [n] bytes (the
    programs are built for i386, [kernel/project3/proj3_writeup.tex]). *)

From S2P Require Import Prelude.

Definition mem : Type := Z -> Z.

(** The unsigned value of the [n] bytes at [a], least significant first. *)
Fixpoint load (n : nat) (m : mem) (a : Z) : Z :=
  match n with
  | O => 0
  | S n' => m a mod 256 + 256 * load n' m (a + 1)
  end.

(** Write the [n] low bytes of [v] at [a]. *)
Definition store (n : nat) (m : mem) (a v : Z) : mem :=
  fun x => if (a <=? x) && (x <? a + Z.of_nat n)
           then (v / 256 ^ (x - a)) mod 256 else m x.

(** C's [memset (a, v, n)]. *)
Definition memset (m : mem) (a v n : Z) : mem :=
  fun x => if (a <=? x) && (x <? a + n) then v mod 256 else m x.

(** The bytes of [m] and [m'] agree on the addresses [lo <= x < hi]. *)
Definition agree (m m' : mem) (lo hi : Z) : Prop :=
  forall x, lo <= x < hi -> m' x = m x.

Lemma agree_refl m lo hi : agree m m lo hi.
Proof. intros ??. done. Qed.

Lemma agree_trans m1 m2 m3 lo hi :
  agree m1 m2 lo hi -> agree m2 m3 lo hi -> agree m1 m3 lo hi.
Proof. intros H1 H2 x Hx. rewrite H2, H1; done. Qed.

Lemma agree_sub m m' lo hi lo' hi' :
  agree m m' lo hi -> lo <= lo' -> hi' <= hi -> agree m m' lo' hi'.
Proof. intros H ?? x Hx. apply H. lia. Qed.

Lemma store_out n m a v x :
  x < a \/ a + Z.of_nat n <= x -> store n m a v x = m x.
Proof.
  intros H. unfold store. destruct (_ && _) eqn:E; [|done]. bool_hyps. lia.
Qed.

Lemma store_in n m a v x :
  a <= x < a + Z.of_nat n -> store n m a v x = (v / 256 ^ (x - a)) mod 256.
Proof.
  intros H. unfold store. destruct (_ && _) eqn:E; [done|].
  apply andb_false_iff in E as [E|E]; bool_hyps; lia.
Qed.

Lemma memset_out m a v n x : x < a \/ a + n <= x -> memset m a v n x = m x.
Proof.
  intros H. unfold memset. destruct (_ && _) eqn:E; [|done]. bool_hyps. lia.
Qed.

Lemma memset_in m a v n x : a <= x < a + n -> memset m a v n x = v mod 256.
Proof.
  intros H. unfold memset. destruct (_ && _) eqn:E; [done|].
  apply andb_false_iff in E as [E|E]; bool_hyps; lia.
Qed.

Lemma load_agree n m m' a :
  agree m m' a (a + Z.of_nat n) -> load n m' a = load n m a.
Proof.
  revert a. induction n as [|n IH]; intros a H; cbn [load]; [done|].
  rewrite (H a) by lia. rewrite IH; [done|]. intros x Hx. apply H. lia.
Qed.

(** A load of the bytes just stored gives the value stored, truncated. *)
Lemma load_store_eq n m a v : load n (store n m a v) a = v mod 256 ^ Z.of_nat n.
Proof.
  enough (forall k a', load n (fun x => (v / 256 ^ (x - a')) mod 256) (a' + Z.of_nat k)
                       = (v / 256 ^ Z.of_nat k) mod 256 ^ Z.of_nat n) as H.
  { specialize (H O a). rewrite Z.add_0_r in H. cbn [Z.of_nat] in H.
    rewrite Z.pow_0_r, Z.div_1_r in H. rewrite <- H. apply load_agree.
    intros x Hx. by apply store_in. }
  induction n as [|n IH]; intros k a'; cbn [load].
  - by rewrite Z.pow_0_r, Z.mod_1_r.
  - replace (a' + Z.of_nat k + 1) with (a' + Z.of_nat (S k)) by lia.
    rewrite IH. replace (a' + Z.of_nat k - a') with (Z.of_nat k) by lia.
    rewrite Z.mod_mod by lia.
    rewrite !Nat2Z.inj_succ, !Z.pow_succ_r by lia.
    rewrite (Z.mul_comm 256 (256 ^ Z.of_nat k)), <- Z.div_div by lia.
    rewrite <- Z.rem_mul_r by lia. done.
Qed.

Lemma load_store_ne n k m a b v :
  b + Z.of_nat k <= a \/ a + Z.of_nat n <= b ->
  load k (store n m a v) b = load k m b.
Proof. intros H. apply load_agree. intros x Hx. apply store_out. lia. Qed.

Lemma load_range n m a : 0 <= load n m a < 256 ^ Z.of_nat n.
Proof.
  revert a. induction n as [|n IH]; intros a; cbn [load]; [done|].
  rewrite Nat2Z.inj_succ, Z.pow_succ_r by lia. specialize (IH (a + 1)).
  pose proof (Z.mod_pos_bound (m a) 256). lia.
Qed.
