(* ===== verification/KernelEnv.v ===== *)
(** * The kernel around slob.c

    [slob.c] is compiled inside a Linux 3.19 tree that is not part of the
    repository.  What it uses of that tree is a parameter of the model: the
    configuration constants, the arithmetic macros of [linux/kernel.h], the
    lists of [linux/list.h] that link the partially free pages, and the page
    allocator.  [KernelEnv], [ListApi] and [PageApi] hold the operations,
    [KernelEnvLaws], [ListApiLaws] and [PageApiLaws] the documented behaviour
    that [slob.c] relies on.  [I386] below is a concrete instance of all of
    them, on which the definitions evaluate. *)

From S2P Require Import Prelude.

(** ** Configuration and arithmetic macros *)

Class KernelEnv := {
  PAGE_SHIFT : Z;
  BITS_PER_LONG : Z;
  ALIGN : Z -> Z -> Z;
  DIV_ROUND_UP : Z -> Z -> Z;
  get_order : Z -> Z;
  ARCH_KMALLOC_MINALIGN : Z;
  ARCH_SLAB_MINALIGN : Z;
  CONFIG_NUMA : bool;
  GFP_ZERO : Z;
  GFP_COMP : Z;
  gfp_allowed_mask : Z;
  SLAB_DESTROY_BY_RCU : Z;
  SLAB_PANIC : Z;
  ZERO_SIZE_PTR : Z;
  sizeof_rcu_head : Z;
  (** [page_mapcount_reset] writes [page->_mapcount], which shares its storage
      with [page->units]: what becomes of the units. *)
  page_mapcount_reset : Z -> Z
}.

Definition is_pow2 (a : Z) : Prop := exists k, 0 <= k /\ a = 2 ^ k.

Definition PAGE_SIZE `{KernelEnv} : Z := 2 ^ PAGE_SHIFT.

Class KernelEnvLaws (K : KernelEnv) : Prop := {
  PAGE_SHIFT_range : 12 <= PAGE_SHIFT <= 18;
  BITS_PER_LONG_range : 32 <= BITS_PER_LONG;
  (** [ALIGN (x, a)]: the least multiple of [a] that is not below [x]. *)
  ALIGN_ge x a : is_pow2 a -> x <= ALIGN x a < x + a;
  ALIGN_divide x a : is_pow2 a -> (a | ALIGN x a);
  (** [DIV_ROUND_UP (n, d)]: the quotient rounded towards infinity. *)
  DIV_ROUND_UP_spec n d :
    0 <= n -> 0 < d -> d * (DIV_ROUND_UP n d - 1) < n <= d * DIV_ROUND_UP n d;
  (** [get_order (n)]: the least order whose pages hold [n] bytes. *)
  get_order_spec n :
    1 <= n -> 0 <= get_order n /\ n <= PAGE_SIZE * 2 ^ get_order n;
  KMALLOC_MINALIGN_pow2 : is_pow2 ARCH_KMALLOC_MINALIGN;
  SLAB_MINALIGN_pow2 : is_pow2 ARCH_SLAB_MINALIGN;
  KMALLOC_MINALIGN_range : 4 <= ARCH_KMALLOC_MINALIGN <= 256;
  SLAB_MINALIGN_range : 1 <= ARCH_SLAB_MINALIGN <= 256;
  ZERO_SIZE_PTR_range : 0 < ZERO_SIZE_PTR < 4096;
  GFP_COMP_pos : 0 < GFP_COMP;
  (** A word is a power of two of bytes; [struct rcu_head] has a size. *)
  word_pow2 : is_pow2 (BITS_PER_LONG / 8);
  rcu_head_nonneg : 0 <= sizeof_rcu_head
}.

(** ** The lists of partially free pages

    [slob.c] keeps every partially free page on one of three lists, linked
    through [page->lru].  A page is named by the address of its first byte. *)

Inductive slob_list : Type := free_slob_small | free_slob_medium | free_slob_large.

#[export] Instance slob_list_eq_dec : EqDecision slob_list.
Proof. solve_decision. Defined.

Class ListApi := {
  lists : Type;
  list_add : lists -> Z -> slob_list -> lists;
  list_del : lists -> Z -> lists;
  (** The pages that [list_for_each_entry (sp, head, lru)] visits, in order. *)
  list_elems : lists -> slob_list -> list Z;
  (** The pages that [list_for_each_entry (sp, head, list)] visits, in order. *)
  list_elems_list : lists -> slob_list -> list Z
}.

(** Every page is on at most one list, once. *)
Definition lists_ok `{ListApi} (l : lists) : Prop :=
  NoDup (list_elems l free_slob_small ++ list_elems l free_slob_medium
         ++ list_elems l free_slob_large).

Definition on_list `{ListApi} (l : lists) (p : Z) : Prop :=
  exists h, p ∈ list_elems l h.

Class ListApiLaws (L : ListApi) : Prop := {
  (** "Insert a new entry after the specified head." *)
  list_add_head l p h :
    ~ on_list l p -> list_elems (list_add l p h) h = p :: list_elems l h;
  list_add_other l p h h' :
    ~ on_list l p -> h' <> h -> list_elems (list_add l p h) h' = list_elems l h';
  (** "Deletes entry from list." *)
  list_del_elems l p h :
    lists_ok l -> on_list l p ->
    list_elems (list_del l p) h = filter (fun q => q <> p) (list_elems l h);
  (** [struct page]: [list] ("slobs list of pages") and [lru] are members of one
      union, so that a walk through either visits the same pages. *)
  list_is_lru l h : list_elems_list l h = list_elems l h
}.

(** ** The page allocator *)

Class PageApi := {
  pagealloc : Type;
  (** [alloc_pages_node node gfp order]: the address of a free block of
      [2^order] pages, or [None]; [node] is [None] for [alloc_pages]. *)
  alloc_pages_node : pagealloc -> option Z -> Z -> Z -> option Z * pagealloc;
  free_pages : pagealloc -> Z -> Z -> pagealloc;
  compound_order : pagealloc -> Z -> Z;
  page_to_nid : Z -> Z;
  (** The page at this address is handed out. *)
  page_used : pagealloc -> Z -> bool
}.

Class PageApiLaws (K : KernelEnv) (P : PageApi) : Prop := {
  alloc_pages_fresh a node gfp order p a' :
    alloc_pages_node a node gfp order = (Some p, a') ->
    0 < p /\ (PAGE_SIZE | p) /\ page_used a p = false /\ page_used a' p = true;
  alloc_pages_keeps a node gfp order r a' q :
    alloc_pages_node a node gfp order = (r, a') ->
    page_used a q = true -> page_used a' q = true;
  (** All the pages of the block are handed out, and were not before. *)
  alloc_pages_block a node gfp order p a' q :
    alloc_pages_node a node gfp order = (Some p, a') -> 0 <= order ->
    (PAGE_SIZE | q) -> p <= q < p + PAGE_SIZE * 2 ^ order ->
    page_used a q = false /\ page_used a' q = true;
  (** A compound page remembers its order; a single page has order 0. *)
  compound_order_block a node gfp order p a' :
    alloc_pages_node a node gfp order = (Some p, a') ->
    order = 0 \/ 0 <= order /\ Z.land gfp GFP_COMP <> 0 -> compound_order a' p = order;
  free_pages_0 a p q :
    page_used (free_pages a p 0) q = if decide (q = p) then false else page_used a q;
  free_pages_out a p order q :
    0 <= order -> q < p \/ p + PAGE_SIZE * 2 ^ order <= q ->
    page_used (free_pages a p order) q = page_used a q
}.

(** ** A concrete environment: i386 with 4 KiB pages *)

Module I386.

#[export] Instance env : KernelEnv := {
  PAGE_SHIFT := 12;
  BITS_PER_LONG := 32;
  ALIGN x a := (x + (a - 1)) / a * a;
  DIV_ROUND_UP n d := (n + d - 1) / d;
  get_order n := Z.log2_up ((n + 4095) / 4096);
  ARCH_KMALLOC_MINALIGN := 8;
  ARCH_SLAB_MINALIGN := 8;
  CONFIG_NUMA := false;
  GFP_ZERO := 0x8000;
  GFP_COMP := 0x4000;
  gfp_allowed_mask := 0x1ffffff;
  SLAB_DESTROY_BY_RCU := 0x80000;
  SLAB_PANIC := 0x40000;
  ZERO_SIZE_PTR := 16;
  sizeof_rcu_head := 8;
  page_mapcount_reset _ := -1
}.

#[export] Instance lists_api : ListApi := {
  lists := list Z * list Z * list Z;
  list_add l p h :=
    let '(s, m, g) := l in
    match h with
    | free_slob_small => (p :: s, m, g)
    | free_slob_medium => (s, p :: m, g)
    | free_slob_large => (s, m, p :: g)
    end;
  list_del l p :=
    let '(s, m, g) := l in
    let rm := filter (fun q => q <> p) in (rm s, rm m, rm g);
  list_elems l h :=
    let '(s, m, g) := l in
    match h with
    | free_slob_small => s
    | free_slob_medium => m
    | free_slob_large => g
    end;
  list_elems_list l h :=
    let '(s, m, g) := l in
    match h with
    | free_slob_small => s
    | free_slob_medium => m
    | free_slob_large => g
    end
}.

(** The page allocator of the instance hands out single pages, each above all
    the pages in use, up to a number of pages; it has no larger blocks. *)
Record pool : Type := { pool_max : nat; pool_used : list Z }.

Definition pool_next (a : pool) : Z :=
  4096 * (1 + foldr Z.max 0 (map (fun p => p / 4096) (pool_used a))).

#[export] Instance page_api : PageApi := {
  pagealloc := pool;
  alloc_pages_node a _ _ order :=
    if (order =? 0) && (length (pool_used a) <? pool_max a)%nat then
      (Some (pool_next a),
       {| pool_max := pool_max a; pool_used := pool_next a :: pool_used a |})
    else (None, a);
  free_pages a p _ :=
    {| pool_max := pool_max a; pool_used := filter (fun q => q <> p) (pool_used a) |};
  compound_order _ _ := 0;
  page_to_nid _ := 0;
  page_used a p := bool_decide (p ∈ pool_used a)
}.

Lemma pool_next_above a p : p ∈ pool_used a -> p < pool_next a.
Proof.
  unfold pool_next. induction (pool_used a) as [|q l IH]; [by inversion 1|].
  intros H. cbn. pose proof (Z.div_mod q 4096). pose proof (Z.mod_pos_bound q 4096).
  apply elem_of_cons in H as [->|H]; [|specialize (IH H)]; lia.
Qed.

Lemma pool_next_pos a : 0 < pool_next a.
Proof.
  unfold pool_next. induction (pool_used a) as [|q l IH]; cbn; lia.
Qed.

#[export] Instance page_laws : PageApiLaws env page_api.
Proof.
  split.
  - intros a node gfp order p a' H. cbn in H. destruct (_ && _); [|done].
    injection H as <- <-. split; [apply pool_next_pos|].
    split; [apply (Z.divide_factor_l 4096)|]. cbn.
    rewrite bool_decide_eq_false, bool_decide_eq_true. split; [|set_solver].
    intros Hin%pool_next_above. lia.
  - intros a node gfp order r a' q H. cbn in *.
    rewrite !bool_decide_eq_true. destruct (_ && _); injection H as <- <-; set_solver.
  - intros a node gfp order p a' q H _ Hq Hr. cbn in H.
    destruct (Z.eqb_spec order 0) as [->|]; cbn [andb] in H; [|done].
    match type of H with context [if ?b then _ else _] => destruct b end; [|done].
    injection H as <- <-. change (PAGE_SIZE * 2 ^ 0) with 4096 in Hr.
    change PAGE_SIZE with 4096 in Hq. assert (q = pool_next a) as ->.
    { destruct Hq as [x ->]. unfold pool_next in *. lia. }
    cbn. rewrite bool_decide_eq_false, bool_decide_eq_true. split; [|set_solver].
    intros Hin%pool_next_above. lia.
  - intros a node gfp order p a' H _. cbn in *. by destruct (Z.eqb_spec order 0) as [->|].
  - intros a p q. cbn. case_decide as E.
    + apply bool_decide_eq_false. rewrite list_elem_of_filter. set_solver.
    + apply bool_decide_ext. rewrite list_elem_of_filter. set_solver.
  - intros a p order q Ho Hq. cbn. apply bool_decide_ext. rewrite list_elem_of_filter.
    assert (0 < 2 ^ order) by (by apply pow2_pos). assert (q <> p); [|tauto].
    change PAGE_SIZE with 4096 in Hq. lia.
Qed.

#[export] Instance list_laws : ListApiLaws lists_api.
Proof.
  split.
  - intros [[s m] g] p [] _; done.
  - intros [[s m] g] p [] [] _ Hne; done.
  - intros [[s m] g] p [] _ _; done.
  - intros [[s m] g] []; done.
Qed.

Lemma align_up x a : 0 < a -> x <= (x + (a - 1)) / a * a < x + a.
Proof.
  intros Ha. pose proof (Z.div_mod (x + (a - 1)) a).
  pose proof (Z.mod_pos_bound (x + (a - 1)) a). lia.
Qed.

Lemma is_pow2_pos a : is_pow2 a -> 0 < a.
Proof. intros (k & Hk & ->). by apply pow2_pos. Qed.

#[export] Instance env_laws : KernelEnvLaws env.
Proof.
  split; cbn; try lia.
  - intros x a H%is_pow2_pos. by apply align_up.
  - intros x a _. apply Z.divide_factor_r.
  - intros n d Hn Hd. pose proof (Z.div_mod (n + d - 1) d).
    pose proof (Z.mod_pos_bound (n + d - 1) d). nia.
  - intros n Hn. change PAGE_SIZE with 4096. split; [apply Z.log2_up_nonneg|].
    pose proof (Z.log2_log2_up_spec ((n + 4095) / 4096)).
    pose proof (Z.div_mod (n + 4095) 4096). pose proof (Z.mod_pos_bound (n + 4095) 4096).
    lia.
  - by exists 3.
  - by exists 3.
  - by exists 2.
Qed.

End I386.
