(* ===== verification/SlobPage.v ===== *)
(** * slob.c, inside one page: block headers, first-fit allocation, free

    [kernel/project4/code/slob.c] keeps in every partially free page a list of
    free blocks, threaded through the free memory itself.  This file models
    the header codec ([set_slob], [slob_units], [slob_next], [slob_last]), the
    scan of [slob_page_alloc] and the reinsertion part of [slob_free], all on
    bytes; and proves that they implement a list of blocks: [chain] says that
    the memory of a page holds a given list, [fit] is first fit with
    alignment on such a list, [give_back] the reinsertion with coalescing. *)

From S2P Require Import Prelude Mem KernelEnv.

Abbreviation block := (Z * Z)%type.

Section Defs.
Context `{K : KernelEnv}.

(** [typedef s16 slobidx_t] or [s32], chosen by the page size. *)
Definition slobidx_bits : Z := if PAGE_SIZE <=? 32767 * 2 then 16 else 32.

Definition slobidx (x : Z) : Z := wrap_s slobidx_bits x.

Definition SLOB_UNIT : Z := slobidx_bits / 8.

Definition SLOB_UNITS (size : Z) : Z := DIV_ROUND_UP size SLOB_UNIT.

Definition PAGE_MASK : Z := - PAGE_SIZE.

Definition SLOB_BREAK1 : Z := 256.
Definition SLOB_BREAK2 : Z := 1024.

(** [s[i].units], read and written. *)
Definition get_units (m : mem) (s i : Z) : Z :=
  slobidx (load (Z.to_nat SLOB_UNIT) m (s + i * SLOB_UNIT)).

Definition put_units (m : mem) (s i v : Z) : mem :=
  store (Z.to_nat SLOB_UNIT) m (s + i * SLOB_UNIT) v.

(** Encode the given size and next info into a free slob block s. *)
Definition set_slob (m : mem) (s size next : Z) : mem :=
  let base := Z.land s PAGE_MASK in
  let offset := slobidx ((next - base) / SLOB_UNIT) in
  if 1 <? slobidx size then put_units (put_units m s 0 (slobidx size)) s 1 offset
  else put_units m s 0 (- offset).

(** Return the size of a slob block. *)
Definition slob_units (m : mem) (s : Z) : Z :=
  if 0 <? get_units m s 0 then get_units m s 0 else 1.

(** Return the next free slob block pointer after this one. *)
Definition slob_next (m : mem) (s : Z) : Z :=
  let base := Z.land s PAGE_MASK in
  let next := if get_units m s 0 <? 0 then slobidx (- get_units m s 0)
              else get_units m s 1 in
  base + next * SLOB_UNIT.

(** Returns true if s is the last free block in its page. *)
Definition slob_last (m : mem) (s : Z) : bool :=
  Z.land (slob_next m s) (Z.lnot PAGE_MASK) =? 0.

(** [if (delta)]: fragment the head of the block [cur] to align. *)
Definition slob_page_split (m : mem) (avail delta aligned : Z) (prev : option Z) (cur : Z)
  : mem * option Z * Z * Z :=
  if delta =? 0 then (m, prev, cur, avail)
  else
    let next := slob_next m cur in
    let m := set_slob m aligned (avail - delta) next in
    let m := set_slob m cur delta aligned in
    (m, Some cur, aligned, slob_units m aligned).

(** [if (avail == units)]: unlink the block, or shrink it.  The result is the
    memory, the new [sp->freelist] and the block handed out. *)
Definition slob_page_unlink (m : mem) (freelist units avail : Z) (prev : option Z) (cur : Z)
  : mem * Z * Z :=
  let next := slob_next m cur in
  if avail =? units then
    match prev with
    | Some p => (set_slob m p (slob_units m p) next, freelist, cur)
    | None => (m, next, cur)
    end
  else
    let rest := cur + units * SLOB_UNIT in
    let '(m, freelist) :=
      match prev with
      | Some p => (set_slob m p (slob_units m p) rest, freelist)
      | None => (m, rest)
      end in
    (set_slob m rest (avail - units) next, freelist, cur).

(** The [for (prev = NULL, cur = sp->freelist; ; ...)] loop of
    [slob_page_alloc]; [None] is its [return NULL]. *)
Fixpoint slob_page_scan (fuel : nat) (m : mem) (freelist units align : Z)
    (prev : option Z) (cur : Z) : res (option (mem * Z * Z)) :=
  match fuel with
  | O => Fuel
  | S fuel =>
    let avail := slob_units m cur in
    let aligned := if align =? 0 then 0 else ALIGN cur align in
    let delta := if align =? 0 then 0 else (aligned - cur) / SLOB_UNIT in
    if units + delta <=? avail then
      let '(m, prev, cur, avail) := slob_page_split m avail delta aligned prev cur in
      Ok (Some (slob_page_unlink m freelist units avail prev cur))
    else if slob_last m cur then Ok None
    else slob_page_scan fuel m freelist units align (Some cur) (slob_next m cur)
  end.

(** No page holds more blocks than units. *)
Definition page_fuel : nat := S (Z.to_nat (SLOB_UNITS PAGE_SIZE)).

(** The [while (b > next)] loop of [slob_free]: the neighbours of [b]. *)
Fixpoint slob_free_find (fuel : nat) (m : mem) (b prev next : Z) : res (Z * Z) :=
  match fuel with
  | O => Fuel
  | S fuel =>
    if next <? b then slob_free_find fuel m b next (slob_next m next)
    else Ok (prev, next)
  end.

(** The reinsertion part of [slob_free], for a page that is already partially
    free: the memory and the new [sp->freelist]. *)
Definition slob_free_insert (m : mem) (freelist b units : Z) : res (mem * Z) :=
  if b <? freelist then
    let '(units, freelist) :=
      if b + units * SLOB_UNIT =? freelist
      then (slobidx (units + slob_units m freelist), slob_next m freelist)
      else (units, freelist) in
    Ok (set_slob m b units freelist, b)
  else
    let! (prev, next) := slob_free_find page_fuel m b freelist (slob_next m freelist) in
    let m :=
      if negb (slob_last m prev) && (b + units * SLOB_UNIT =? next) then
        set_slob m b (slobidx (units + slob_units m next)) (slob_next m next)
      else set_slob m b units next in
    let m :=
      if prev + slob_units m prev * SLOB_UNIT =? b then
        set_slob m prev (slobidx (slob_units m b + slob_units m prev)) (slob_next m b)
      else set_slob m prev (slob_units m prev) b in
    Ok (m, freelist).

(** ** Specification: a page as a list of free blocks

    A [block] is its offset and its size, in units of [SLOB_UNIT]. *)

Definition page_units : Z := SLOB_UNITS PAGE_SIZE.

(** The address of unit [o] of the page at [base]. *)
Definition at_unit (base o : Z) : Z := base + o * SLOB_UNIT.

(** Offset of the first block of a list that is followed by [n]. *)
Definition first_off (bl : list block) (n : Z) : Z :=
  match bl with [] => n | (o, _) :: _ => o end.

(** The header of a free block, as the comment on [struct slob_block] words it. *)
Definition header (m : mem) (base o s n : Z) : Prop :=
  if s =? 1 then get_units m (at_unit base o) 0 = - n
  else get_units m (at_unit base o) 0 = s /\ get_units m (at_unit base o) 1 = n.

(** The blocks [bl], linked in this order, the last one pointing to [n]. *)
Fixpoint segment (m : mem) (base : Z) (bl : list block) (n : Z) : Prop :=
  match bl with
  | [] => True
  | (o, s) :: r => header m base o s (first_off r n) /\ segment m base r n
  end.

(** The free list of a page: it ends at the end of the page. *)
Definition chain (m : mem) (base : Z) (bl : list block) : Prop :=
  segment m base bl page_units.

(** Address order, no overlap, no two adjacent blocks (fully coalesced). *)
Fixpoint blocks_ok (lo : Z) (bl : list block) : Prop :=
  match bl with
  | [] => True
  | (o, s) :: r => lo <= o /\ 1 <= s /\ o + s <= page_units /\ blocks_ok (o + s + 1) r
  end.

(** Address order and no overlap; adjacent blocks are allowed. *)
Fixpoint ordered (lo : Z) (bl : list block) : Prop :=
  match bl with
  | [] => True
  | (o, s) :: r => lo <= o /\ 1 <= s /\ o + s <= page_units /\ ordered (o + s) r
  end.

(** The byte at [a] belongs to none of the blocks. *)
Definition outside (base : Z) (bl : list block) (a : Z) : Prop :=
  forall b, b ∈ bl -> a < at_unit base b.1 \/ at_unit base (b.1 + b.2) <= a.

(** The block before the rest of the list, as the C code's [prev]. *)
Definition prev_of (base : Z) (bl : list block) : option Z :=
  match last bl with Some b => Some (at_unit base b.1) | None => None end.

Fixpoint total (bl : list block) : Z :=
  match bl with [] => 0 | b :: r => b.2 + total r end.

(** Units to skip at the head of the block at [o] to align it. *)
Definition skip (base align o : Z) : Z :=
  if align =? 0 then 0 else (ALIGN (at_unit base o) align - at_unit base o) / SLOB_UNIT.

(** First fit: the offset handed out and the blocks that remain free. *)
Fixpoint fit (base units align : Z) (bl : list block) : option (Z * list block) :=
  match bl with
  | [] => None
  | (o, s) :: r =>
    let d := skip base align o in
    if units + d <=? s then
      Some (o + d,
            (if d =? 0 then [] else [(o, d)])
            ++ (if s - d =? units then [] else [(o + d + units, s - d - units)]) ++ r)
    else
      match fit base units align r with
      | None => None
      | Some (x, r') => Some (x, (o, s) :: r')
      end
  end.

(** A block followed by its successors, joined with the first if they touch. *)
Definition join (o s : Z) (r : list block) : list block :=
  match r with
  | (o', s') :: r' => if o + s =? o' then (o, s + s') :: r' else (o, s) :: r
  | [] => [(o, s)]
  end.

(** Give the block [(o, s)] back to the list, in address order, joined with
    the neighbours it touches. *)
Fixpoint give_back (o s : Z) (bl : list block) : list block :=
  match bl with
  | [] => [(o, s)]
  | (o', s') :: r =>
    if o <? o' then join o s bl
    else if o' + s' =? o then join o' (s' + s) r
    else (o', s') :: give_back o s r
  end.

(** Two blocks have no unit in common. *)
Definition apart (b c : block) : Prop := b.1 + b.2 <= c.1 \/ c.1 + c.2 <= b.1.

End Defs.

Section Theory.
Context `{K : KernelEnv} {KL : KernelEnvLaws K}.

(** ** Units and pages *)

Lemma PAGE_SIZE_pos : 0 < PAGE_SIZE.
Proof. apply pow2_pos. pose proof PAGE_SHIFT_range. lia. Qed.

Lemma slob_unit_cases :
  (SLOB_UNIT = 2 /\ slobidx_bits = 16 /\ PAGE_SIZE <= 65534) \/
  (SLOB_UNIT = 4 /\ slobidx_bits = 32).
Proof.
  unfold SLOB_UNIT, slobidx_bits. destruct (_ <=? _) eqn:E; bool_hyps; [left|right]; auto.
Qed.

Lemma page_size_units : PAGE_SIZE = page_units * SLOB_UNIT.
Proof.
  assert (exists q, PAGE_SIZE = q * SLOB_UNIT) as [q Hq].
  { unfold PAGE_SIZE. pose proof PAGE_SHIFT_range.
    destruct slob_unit_cases as [(-> & _)|(-> & _)].
    - exists (2 ^ (PAGE_SHIFT - 1)). rewrite Z.mul_comm, <- Z.pow_succ_r by lia.
      f_equal; lia.
    - exists (2 ^ (PAGE_SHIFT - 2)). change 4 with (2 ^ 2).
      rewrite <- Z.pow_add_r by lia. f_equal; lia. }
  unfold page_units, SLOB_UNITS. pose proof PAGE_SIZE_pos.
  assert (0 < SLOB_UNIT) by (destruct slob_unit_cases; lia).
  destruct (DIV_ROUND_UP_spec PAGE_SIZE SLOB_UNIT); [lia|lia|].
  set (d := DIV_ROUND_UP PAGE_SIZE SLOB_UNIT) in *. rewrite Hq in *.
  destruct (Z.lt_trichotomy d q) as [?|[->|?]]; nia.
Qed.

Lemma page_units_range : 1024 <= page_units < 2 ^ (slobidx_bits - 1).
Proof.
  pose proof page_size_units as H. pose proof PAGE_SHIFT_range as HS.
  assert (2 ^ 12 <= PAGE_SIZE <= 2 ^ 18) by
    (split; apply Z.pow_le_mono_r; lia).
  destruct slob_unit_cases as [(E & -> & ?)|(E & ->)]; rewrite E in H; lia.
Qed.

Lemma SLOB_UNIT_pos : 0 < SLOB_UNIT.
Proof. destruct slob_unit_cases; lia. Qed.

Lemma slobidx_small x : - page_units <= x <= page_units -> slobidx x = x.
Proof.
  intros H. pose proof page_units_range. apply wrap_s_small.
  - destruct slob_unit_cases as [(_ & -> & _)|(_ & ->)]; lia.
  - unfold in_s. lia.
Qed.

Lemma land_mask a : Z.land a PAGE_MASK = a - a mod PAGE_SIZE.
Proof.
  unfold PAGE_MASK, PAGE_SIZE. pose proof PAGE_SHIFT_range.
  replace (- 2 ^ PAGE_SHIFT) with (Z.lnot (Z.ones PAGE_SHIFT))
    by (unfold Z.lnot; rewrite Z.ones_equiv; lia).
  rewrite <- Z.ldiff_land, Z.ldiff_ones_r, Z.shiftl_mul_pow2, Z.shiftr_div_pow2 by lia.
  assert (0 < 2 ^ PAGE_SHIFT) by (apply pow2_pos; lia).
  assert (2 ^ PAGE_SHIFT <> 0) as N by lia.
  pose proof (Z.div_mod a _ N). lia.
Qed.

Lemma land_not_mask a : Z.land a (Z.lnot PAGE_MASK) = a mod PAGE_SIZE.
Proof.
  unfold PAGE_MASK, PAGE_SIZE. pose proof PAGE_SHIFT_range.
  replace (Z.lnot (- 2 ^ PAGE_SHIFT)) with (Z.ones PAGE_SHIFT)
    by (unfold Z.lnot; rewrite Z.ones_equiv; lia).
  by rewrite Z.land_ones by lia.
Qed.

Lemma page_of_unit base o :
  (PAGE_SIZE | base) -> 0 <= o < page_units -> Z.land (at_unit base o) PAGE_MASK = base.
Proof.
  intros [q ->] H. rewrite land_mask. unfold at_unit.
  rewrite Z.add_comm, Z_mod_plus_full.
  pose proof page_size_units. pose proof SLOB_UNIT_pos.
  rewrite Z.mod_small by nia. lia.
Qed.

Lemma at_unit_inj base o o' : at_unit base o = at_unit base o' -> o = o'.
Proof. unfold at_unit. pose proof SLOB_UNIT_pos. nia. Qed.

Lemma at_unit_add base o n : at_unit base o + n * SLOB_UNIT = at_unit base (o + n).
Proof. unfold at_unit. lia. Qed.

Lemma at_unit_ltb base o o' : (at_unit base o <? at_unit base o') = (o <? o').
Proof.
  unfold at_unit. pose proof SLOB_UNIT_pos.
  destruct (Z.ltb_spec o o'); [apply Z.ltb_lt|apply Z.ltb_ge]; nia.
Qed.

Lemma at_unit_eqb base o o' : (at_unit base o =? at_unit base o') = (o =? o').
Proof.
  destruct (Z.eqb_spec o o') as [->|N]; [apply Z.eqb_refl|].
  apply Z.eqb_neq. intros E%at_unit_inj. done.
Qed.

(** ** The header codec *)

Lemma unit_bytes : Z.of_nat (Z.to_nat SLOB_UNIT) = SLOB_UNIT.
Proof. pose proof SLOB_UNIT_pos. lia. Qed.

Lemma slobidx_mod v : slobidx (v mod 256 ^ SLOB_UNIT) = slobidx v.
Proof.
  unfold slobidx.
  destruct slob_unit_cases as [(-> & -> & _)|(-> & ->)];
    [change (256 ^ 2) with (2 ^ 16)|change (256 ^ 4) with (2 ^ 32)];
    by apply wrap_s_wrap_mod.
Qed.

Lemma get_put_eq m s i v : get_units (put_units m s i v) s i = slobidx v.
Proof. unfold get_units, put_units. by rewrite load_store_eq, unit_bytes, slobidx_mod. Qed.

Lemma get_agree m m' s i :
  agree m m' (s + i * SLOB_UNIT) (s + (i + 1) * SLOB_UNIT) ->
  get_units m' s i = get_units m s i.
Proof.
  intros H. unfold get_units. f_equal. apply load_agree. rewrite unit_bytes.
  replace (s + i * SLOB_UNIT + SLOB_UNIT) with (s + (i + 1) * SLOB_UNIT) by lia. done.
Qed.

Lemma put_units_out m s i v x :
  x < s + i * SLOB_UNIT \/ s + (i + 1) * SLOB_UNIT <= x -> put_units m s i v x = m x.
Proof. intros H. apply store_out. rewrite unit_bytes. lia. Qed.

(** [set_slob] writes only inside the block it describes. *)
Lemma set_slob_out m a s next x :
  1 <= s <= page_units -> x < a \/ a + s * SLOB_UNIT <= x -> set_slob m a s next x = m x.
Proof.
  intros Hs Hx. unfold set_slob. pose proof SLOB_UNIT_pos.
  rewrite (slobidx_small s) by lia. case_tests; rewrite !put_units_out; (done || nia).
Qed.

Lemma set_slob_header m base o s n :
  (PAGE_SIZE | base) -> 0 <= o -> 1 <= s -> o + s <= page_units -> 0 < n <= page_units ->
  header (set_slob m (at_unit base o) s (at_unit base n)) base o s n.
Proof.
  intros Hb Ho Hs Hos Hn. unfold header, set_slob. pose proof SLOB_UNIT_pos.
  rewrite page_of_unit by (done || lia).
  replace ((at_unit base n - base) / SLOB_UNIT) with n
    by (unfold at_unit; rewrite Z.add_simpl_l, Z.div_mul; lia).
  rewrite !slobidx_small by lia.
  destruct (Z.eqb_spec s 1) as [->|N]; cbn [Z.ltb Z.compare Pos.compare Pos.compare_cont].
  - rewrite get_put_eq. apply slobidx_small. lia.
  - destruct (Z.ltb_spec 1 s); [|lia]. split.
    + rewrite (get_agree (put_units m (at_unit base o) 0 s)).
      * rewrite get_put_eq. apply slobidx_small. lia.
      * intros x Hx. apply put_units_out. lia.
    + rewrite get_put_eq. apply slobidx_small. lia.
Qed.

Lemma header_agree m m' base o s n :
  1 <= s -> agree m m' (at_unit base o) (at_unit base (o + s)) ->
  header m base o s n -> header m' base o s n.
Proof.
  intros Hs Ha. pose proof SLOB_UNIT_pos. unfold header, at_unit in *.
  destruct (Z.eqb_spec s 1); rewrite !(get_agree m m'); try done;
    eapply agree_sub; (done || nia).
Qed.

Section Decode.
Context (m : mem) (base o s n : Z).
Context (Hbase : (PAGE_SIZE | base)).
Context (Ho : 0 <= o) (Hs : 1 <= s) (Hos : o + s <= page_units) (Hn : 0 < n <= page_units).
Context (Hh : header m base o s n).

Lemma header_units : slob_units m (at_unit base o) = s.
Proof using All.
  unfold slob_units, header in *. destruct (Z.eqb_spec s 1) as [->|N].
  - rewrite Hh. destruct (Z.ltb_spec 0 (- n)); [lia|done].
  - destruct Hh as [-> _]. destruct (Z.ltb_spec 0 s); [done|lia].
Qed.

Lemma header_next : slob_next m (at_unit base o) = at_unit base n.
Proof using All.
  unfold slob_next. rewrite page_of_unit by (done || lia).
  change (at_unit base n) with (base + n * SLOB_UNIT). do 2 f_equal. unfold header in Hh.
  destruct (Z.eqb_spec s 1) as [->|N].
  - rewrite Hh. destruct (Z.ltb_spec (- n) 0); [|lia].
    rewrite slobidx_small; lia.
  - destruct Hh as [-> ->]. destruct (Z.ltb_spec s 0); [lia|done].
Qed.

Lemma header_last : slob_last m (at_unit base o) = (n =? page_units).
Proof using All.
  unfold slob_last. rewrite header_next, land_not_mask. unfold at_unit.
  destruct Hbase as [q ->]. rewrite Z.add_comm, Z_mod_plus_full.
  pose proof page_size_units as E. pose proof SLOB_UNIT_pos.
  destruct (Z.eqb_spec n page_units) as [->|N].
  - rewrite <- E, Z_mod_same_full. done.
  - rewrite Z.mod_small by nia. apply Z.eqb_neq. nia.
Qed.

End Decode.

(** ** Segments *)

Lemma segment_app m base l1 l2 n :
  segment m base (l1 ++ l2) n <->
  segment m base l1 (first_off l2 n) /\ segment m base l2 n.
Proof.
  induction l1 as [|[o s] r IH]; cbn [segment app]; [tauto|].
  rewrite IH. destruct r as [|[o' s'] r']; cbn [first_off app]; tauto.
Qed.

Lemma first_off_app l1 l2 n : first_off (l1 ++ l2) n = first_off l1 (first_off l2 n).
Proof. by destruct l1 as [|[]]. Qed.

Lemma ordered_elem lo bl b :
  ordered lo bl -> b ∈ bl -> lo <= b.1 /\ 1 <= b.2 /\ b.1 + b.2 <= page_units.
Proof.
  revert lo. induction bl as [|[o s] r IH]; intros lo H Hb; [set_solver|].
  cbn in H. apply elem_of_cons in Hb as [->|Hb]; cbn; [lia|].
  destruct (IH _ (proj2 (proj2 (proj2 H))) Hb). lia.
Qed.

Lemma ordered_weaken lo lo' bl : lo' <= lo -> ordered lo bl -> ordered lo' bl.
Proof. destruct bl as [|[]]; cbn; intuition lia. Qed.

Lemma ordered_app lo l1 l2 :
  ordered lo (l1 ++ l2) <->
  ordered lo l1 /\ ordered lo l2 /\ forall b c, b ∈ l1 -> c ∈ l2 -> b.1 + b.2 <= c.1.
Proof.
  revert lo. induction l1 as [|[o s] r IH]; intros lo; cbn.
  { split; [|tauto]. intros H. split; [done|]. split; [done|]. intros b c Hb. set_solver. }
  rewrite IH. split.
  - intros (Hlo & Hs & Hos & H1 & H2 & H3). split; [done|].
    split; [eapply ordered_weaken; [|done]; lia|].
    intros b c Hb Hc. apply elem_of_cons in Hb as [->|Hb]; cbn; [|auto].
    destruct (ordered_elem _ _ _ H2 Hc). lia.
  - intros ((Hlo & Hs & Hos & H1) & H2 & H3). repeat split; try done.
    + destruct l2 as [|[o2 s2] l2]; cbn in *; [done|].
      specialize (H3 (o, s) (o2, s2) ltac:(set_solver) ltac:(set_solver)). cbn in H3. intuition lia.
    + intros b c Hb Hc. apply H3; set_solver.
Qed.

Lemma blocks_ok_ordered lo bl : blocks_ok lo bl -> ordered lo bl.
Proof.
  revert lo. induction bl as [|[o s] r IH]; intros lo; cbn; [done|].
  intros (? & ? & ? & H). repeat split; try done. eapply ordered_weaken; [|by apply IH]. lia.
Qed.

Lemma ordered_length lo bl :
  ordered lo bl -> bl = [] \/ Z.of_nat (length bl) <= page_units - lo.
Proof.
  revert lo. induction bl as [|[o s] r IH]; intros lo H; [by left|]. right.
  cbn in H. destruct (IH (o + s)) as [->|]; [tauto|cbn; lia|cbn; lia].
Qed.

(** The bound of the scans is enough for every page. *)
Lemma ordered_fuel bl : ordered 0 bl -> (length bl <= page_fuel)%nat.
Proof.
  intros H. unfold page_fuel. change (SLOB_UNITS PAGE_SIZE) with page_units.
  destruct (ordered_length _ _ H) as [->|Hlen]; [cbn|]; lia.
Qed.

Lemma first_off_range lo bl n :
  ordered lo bl -> 0 <= lo <= n -> n <= page_units -> lo <= first_off bl n <= page_units.
Proof. destruct bl as [|[]]; cbn; intuition lia. Qed.

(** A segment only depends on the bytes of its blocks. *)
Lemma segment_agree m m' base bl n :
  (forall b, b ∈ bl -> 1 <= b.2 /\ agree m m' (at_unit base b.1) (at_unit base (b.1 + b.2))) ->
  segment m base bl n -> segment m' base bl n.
Proof.
  induction bl as [|[o s] r IH]; intros H; cbn [segment]; [done|].
  intros [H1 H2]. split; [|apply IH; [set_solver|done]].
  destruct (H (o, s)) as [Hs Ha]; [set_solver|]. eapply header_agree; done.
Qed.

Lemma set_slob_agree m base o s next b :
  1 <= s <= page_units -> apart (o, s) b ->
  agree m (set_slob m (at_unit base o) s next) (at_unit base b.1) (at_unit base (b.1 + b.2)).
Proof.
  intros Hs Hb x Hx. pose proof SLOB_UNIT_pos. apply set_slob_out; [done|].
  unfold apart, at_unit in *. cbn in *. nia.
Qed.

(** Writing the header of one block leaves the segments apart from it alone. *)
Lemma set_slob_segment m base o s next lo bl n :
  1 <= s <= page_units -> ordered lo bl -> (forall b, b ∈ bl -> apart (o, s) b) ->
  segment m base bl n -> segment (set_slob m (at_unit base o) s next) base bl n.
Proof.
  intros Hs Ho Ha. apply segment_agree. intros b Hb.
  split; [eapply ordered_elem in Ho as (_ & ? & _); done|].
  apply set_slob_agree; auto.
Qed.

Lemma set_slob_outside m base o s next bl a :
  1 <= s <= page_units -> (o, s) ∈ bl -> outside base bl a ->
  set_slob m (at_unit base o) s next a = m a.
Proof.
  intros Hs Hin Ho. apply set_slob_out; [done|].
  specialize (Ho _ Hin). cbn in Ho. rewrite at_unit_add. done.
Qed.

(** Redirect the last block of a segment. *)
Lemma relink m base l po ps n n' :
  (PAGE_SIZE | base) -> ordered 0 (l ++ [(po, ps)]) -> 0 < n' <= page_units ->
  segment m base (l ++ [(po, ps)]) n ->
  segment (set_slob m (at_unit base po) ps (at_unit base n')) base (l ++ [(po, ps)]) n'.
Proof.
  intros Hb Ho Hn. rewrite !segment_app. cbn [segment first_off].
  apply ordered_app in Ho as (H1 & H2 & H3). cbn in H2. intros [S1 _].
  split; [|split; [apply set_slob_header; (done || lia)|done]].
  eapply set_slob_segment; [lia|done| |done].
  intros b Hb'. right. cbn. apply (H3 _ (po, ps)); set_solver.
Qed.

Lemma prev_of_snoc base l po ps : prev_of base (l ++ [(po, ps)]) = Some (at_unit base po).
Proof. unfold prev_of. by rewrite last_snoc. Qed.

(** Write a block in front of the rest of a segment. *)
Lemma cons_block m base o s post lo :
  (PAGE_SIZE | base) -> 0 <= o -> 1 <= s -> o + s <= lo -> lo <= page_units -> ordered lo post ->
  segment m base post page_units ->
  segment (set_slob m (at_unit base o) s (at_unit base (first_off post page_units))) base
    ((o, s) :: post) page_units.
Proof.
  intros Hb Ho Hs Hlo Hpu Hpost HS. cbn [segment].
  pose proof (first_off_range _ _ page_units Hpost).
  split; [apply set_slob_header; (done || lia)|].
  eapply set_slob_segment; [lia|done| |done]. intros b Hb'. left. cbn.
  destruct (ordered_elem _ _ _ Hpost Hb'). lia.
Qed.

Section Unlink.
Context (base : Z) (pre : list block) (o s : Z) (post : list block) (units : Z) (m : mem).
Context (Hbase : (PAGE_SIZE | base)).
Context (Hord : ordered 0 (pre ++ (o, s) :: post)).
Context (Hchain : chain m base (pre ++ (o, s) :: post)).
Context (Hunits : 1 <= units <= s).

Let rem : list block := if s =? units then [] else [(o + units, s - units)].

(** What [slob_page_alloc] leaves of the list once it has found the block. *)
Lemma unlink_spec freelist :
  freelist = at_unit base (first_off (pre ++ (o, s) :: post) page_units) ->
  exists m',
    slob_page_unlink m freelist units s (prev_of base pre) (at_unit base o)
    = (m', at_unit base (first_off (pre ++ rem ++ post) page_units), at_unit base o) /\
    chain m' base (pre ++ rem ++ post) /\
    (forall a, outside base (pre ++ (o, s) :: post) a -> m' a = m a).
Proof using All.
  intros ->. unfold chain in *.
  pose proof Hord as Hord'. apply ordered_app in Hord' as (Hpre & Hcur & Hpc).
  pose proof Hchain as Hc. apply segment_app in Hc as [Spre Scur].
  cbn [ordered segment first_off] in *. destruct Hcur as (Ho & Hs & Hos & Hpost).
  destruct Scur as [Sh Spost].
  pose proof page_units_range as HPU.
  assert (0 < first_off post page_units <= page_units) as Hn.
  { pose proof (first_off_range _ _ page_units Hpost). lia. }
  unfold slob_page_unlink.
  rewrite (header_next m base o s (first_off post page_units)) by (done || lia).
  rewrite at_unit_add. subst rem.
  destruct (snoc_cases pre) as [->|(l & [po ps] & ->)]; cbn [app first_off].
  - unfold prev_of; cbn [last]. destruct (Z.eqb_spec s units) as [->|N]; cbn [app first_off].
    + eexists; split; [done|]. split; [done|]. done.
    + eexists; split; [done|]. split; [apply (cons_block _ _ _ _ _ (o + s)); (done || lia)|].
      intros a Ha. apply set_slob_out; [lia|]. specialize (Ha (o, s) ltac:(set_solver)).
      cbn in Ha. pose proof SLOB_UNIT_pos. unfold at_unit in *. nia.
  - rewrite prev_of_snoc. pose proof (proj1 (segment_app _ _ _ _ _) Spre) as [_ [Hh _]].
    cbn [first_off] in Hh. apply ordered_app in Hpre as Hpre'. destruct Hpre' as (_ & Hp & _).
    cbn in Hp. pose proof (Hpc (po, ps) (o, s) ltac:(set_solver) ltac:(set_solver)) as Hpo. cbn in Hpo.
    rewrite (header_units m base po ps o) by (done || lia).
    assert (forall n', segment (set_slob m (at_unit base po) ps n') base post page_units) as Hpost'.
    { intros n'. eapply set_slob_segment; [lia|done| |done].
      intros b Hb. left. apply (Hpc (po, ps)); set_solver. }
    assert (forall n' a, outside base ((l ++ [(po, ps)]) ++ (o, s) :: post) a ->
              set_slob m (at_unit base po) ps n' a = m a) as Hout.
    { intros n' a. apply set_slob_outside; [lia|set_solver]. }
    destruct (Z.eqb_spec s units) as [->|N]; cbn [app first_off].
    + eexists; split; [by rewrite !first_off_app|]. split; [|auto].
      apply segment_app. split; [eapply relink; (done || lia)|auto].
    + eexists; split; [by rewrite !first_off_app|]. split.
      * apply segment_app. split; [|apply (cons_block _ _ _ _ _ (o + s)); (done || lia || auto)].
        eapply set_slob_segment; [lia|done| |eapply relink; (done || cbn; lia)].
        intros b Hb. right. specialize (Hpc b (o, s) Hb ltac:(set_solver)). cbn in *. lia.
      * intros a Ha. rewrite set_slob_out; [auto|lia|].
        specialize (Ha (o, s) ltac:(set_solver)).
        cbn in Ha. pose proof SLOB_UNIT_pos. unfold at_unit in *. nia.
Qed.
End Unlink.
(** ** Alignment *)

Definition valid_align (align : Z) : Prop := align = 0 \/ is_pow2 align.

Lemma pow2_divide a b : is_pow2 a -> is_pow2 b -> a <= b -> (a | b).
Proof.
  intros (i & Hi & ->) (j & Hj & ->) Hle.
  apply Z.pow_le_mono_r_iff in Hle; [|lia|lia].
  exists (2 ^ (j - i)). rewrite <- Z.pow_add_r by lia. f_equal. lia.
Qed.

Lemma SLOB_UNIT_pow2 : is_pow2 SLOB_UNIT.
Proof. destruct slob_unit_cases as [(-> & _)|(-> & _)]; [exists 1|exists 2]; done. Qed.

Lemma unit_divide base o : (PAGE_SIZE | base) -> (SLOB_UNIT | at_unit base o).
Proof.
  intros [q ->]. unfold at_unit. rewrite page_size_units.
  exists (q * page_units + o). lia.
Qed.

Lemma pow2_pos' a : is_pow2 a -> 0 < a.
Proof. intros (k & Hk & ->). by apply pow2_pos. Qed.

Lemma skip_spec base align o :
  (PAGE_SIZE | base) -> valid_align align ->
  0 <= skip base align o /\
  (align <> 0 -> ALIGN (at_unit base o) align = at_unit base (o + skip base align o)).
Proof.
  intros Hb Hal. unfold skip. destruct (Z.eqb_spec align 0) as [->|N]; [lia|].
  destruct Hal as [|Hal]; [done|]. pose proof (ALIGN_ge (at_unit base o) align Hal) as Hge.
  pose proof (ALIGN_divide (at_unit base o) align Hal) as Hd. pose proof SLOB_UNIT_pos.
  pose proof (unit_divide base o Hb) as Hu.
  assert (SLOB_UNIT | ALIGN (at_unit base o) align - at_unit base o) as [q Hq].
  { destruct (Z.le_gt_cases SLOB_UNIT align) as [Hle|Hgt].
    - apply Z.divide_sub_r; [|done]. etrans; [|exact Hd].
      by apply pow2_divide; [apply SLOB_UNIT_pow2|..].
    - assert (align | at_unit base o) as Hau.
      { etrans; [|exact Hu]. apply pow2_divide; [done|apply SLOB_UNIT_pow2|lia]. }
      destruct Hau as [x Hx], Hd as [y Hy]. pose proof (pow2_pos' _ Hal).
      assert (y = x) by nia. subst. exists 0. lia. }
  rewrite Hq, Z.div_mul by lia. split; [nia|]. intros _. unfold at_unit in *. lia.
Qed.

(** After [if (delta)], the head of the block is a block of its own. *)
Lemma split_spec base pre o s post m align :
  (PAGE_SIZE | base) -> valid_align align ->
  ordered 0 (pre ++ (o, s) :: post) -> chain m base (pre ++ (o, s) :: post) ->
  let d := skip base align o in
  let aligned := if align =? 0 then 0 else ALIGN (at_unit base o) align in
  d < s ->
  exists m' pre',
    slob_page_split m s d aligned (prev_of base pre) (at_unit base o)
    = (m', prev_of base pre', at_unit base (o + d), s - d) /\
    pre' = pre ++ (if d =? 0 then [] else [(o, d)]) /\
    ordered 0 (pre' ++ (o + d, s - d) :: post) /\
    chain m' base (pre' ++ (o + d, s - d) :: post) /\
    (forall a, outside base (pre ++ (o, s) :: post) a -> m' a = m a).
Proof.
  intros Hb Hal Hord Hch d aligned Hds. unfold slob_page_split.
  destruct (skip_spec base align o Hb Hal) as [Hd0 HA]. fold d in Hd0, HA.
  destruct (Z.eqb_spec d 0) as [Hd|Hd].
  { exists m, pre. rewrite Hd, app_nil_r, Z.add_0_r, Z.sub_0_r. done. }
  assert (aligned = at_unit base (o + d)) as ->.
  { unfold aligned. destruct (Z.eqb_spec align 0) as [->|]; [done|auto]. }
  apply ordered_app in Hord as (Hpre & Hcur & Hpc). cbn in Hcur.
  unfold chain in *. apply segment_app in Hch as [Spre [Sh Spost]]. cbn [first_off] in Spre.
  pose proof page_units_range.
  pose proof (first_off_range _ _ page_units (proj2 (proj2 (proj2 Hcur)))).
  rewrite (header_next m base o s (first_off post page_units)) by (done || lia).
  set (m1 := set_slob m _ _ _).
  assert (segment m1 base ((o + d, s - d) :: post) page_units) as S1
    by (apply (cons_block _ _ _ _ _ (o + s)); (done || lia || apply Hcur)).
  set (m2 := set_slob m1 _ _ _).
  assert (ordered (o + d) ((o + d, s - d) :: post)) as Hord1.
  { cbn. replace (o + d + (s - d)) with (o + s) by lia. intuition lia. }
  assert (segment m2 base ((o, d) :: (o + d, s - d) :: post) page_units) as S2
    by (apply (cons_block m1 base o d ((o + d, s - d) :: post) (o + d)); (done || lia)).
  exists m2, (pre ++ [(o, d)]). rewrite prev_of_snoc.
  rewrite (header_units m2 base (o + d) (s - d) (first_off post page_units))
    by (done || lia || apply S2).
  split; [done|]. split; [done|]. rewrite <- app_assoc. cbn [app]. split; [|split].
  - apply ordered_app. split; [done|]. split; [cbn in *; intuition lia|].
    intros b c Hb' Hc. specialize (Hpc b (o, s) Hb' ltac:(set_solver)). cbn in Hpc.
    apply elem_of_cons in Hc as [->|Hc]; [done|].
    pose proof (ordered_elem _ _ _ Hord1 Hc). lia.
  - apply segment_app. split; [|done]. cbn [first_off].
    assert (forall o' s' b, o <= o' -> b ∈ pre -> apart (o', s') b) as Hap.
    { intros o' s' b Ho' Hb'. right. specialize (Hpc b (o, s) Hb' ltac:(set_solver)).
      cbn in *. lia. }
    unfold m2, m1. eapply set_slob_segment; [lia|done| |].
    { intros. apply Hap; (done || lia). }
    eapply set_slob_segment; [lia|done| |done].
    intros. apply Hap; (done || lia).
  - intros a Ha. specialize (Ha (o, s) ltac:(set_solver)). cbn in Ha.
    pose proof SLOB_UNIT_pos. unfold m2, m1. rewrite !set_slob_out; (done || lia || idtac);
      unfold at_unit in *; nia.
Qed.

(** ** The scan of [slob_page_alloc] is first fit *)

Lemma delta_skip base align o :
  (if align =? 0 then 0
   else ((if align =? 0 then 0 else ALIGN (at_unit base o) align) - at_unit base o) / SLOB_UNIT)
  = skip base align o.
Proof. unfold skip. by destruct (align =? 0). Qed.

Lemma scan_fit base units align r :
  (PAGE_SIZE | base) -> valid_align align -> 1 <= units -> r <> [] ->
  forall pre fuel m,
  ordered 0 (pre ++ r) -> chain m base (pre ++ r) -> (length r <= fuel)%nat ->
  let freelist := at_unit base (first_off (pre ++ r) page_units) in
  let scan := slob_page_scan fuel m freelist units align (prev_of base pre)
                (at_unit base (first_off r page_units)) in
  match fit base units align r with
  | None => scan = Ok None
  | Some (x, r') =>
    exists m',
      scan = Ok (Some (m', at_unit base (first_off (pre ++ r') page_units), at_unit base x)) /\
      chain m' base (pre ++ r') /\
      (forall a, outside base (pre ++ r) a -> m' a = m a)
  end.
Proof.
  intros Hb Hal Hu. induction r as [|[o s] post IH]; [done|]. intros _ pre fuel m Hord Hch Hf.
  destruct fuel as [|fuel]; [cbn in Hf; lia|]. cbn zeta in *. cbn [slob_page_scan first_off fit].
  pose proof Hord as Hord'. apply ordered_app in Hord' as (_ & Hcur & _). cbn in Hcur.
  destruct Hcur as (Ho & Hs & Hos & Hpost).
  pose proof Hch as Hch'. apply segment_app in Hch' as [_ [Sh _]]. pose proof page_units_range.
  pose proof (first_off_range _ _ page_units Hpost).
  rewrite (header_units m base o s (first_off post page_units)) by (done || lia).
  rewrite delta_skip. destruct (Z.leb_spec (units + skip base align o) s) as [Hfit|Hno].
  - destruct (split_spec base pre o s post m align) as (m1 & pre' & -> & -> & Hord1 & Hch1 & Hout1);
      [done..|lia|]. cbv beta iota.
    destruct (unlink_spec base _ _ _ _ units m1 Hb Hord1 Hch1 ltac:(lia)
                (at_unit base (first_off (pre ++ (o, s) :: post) page_units)))
      as (m2 & E2 & Hch2 & Hout2).
    { rewrite !first_off_app. by destruct (Z.eqb_spec (skip base align o) 0) as [->|];
        cbn [first_off app]; rewrite ?Z.add_0_r. }
    rewrite E2. rewrite <- !app_assoc in *. exists m2. split; [done|]. split; [done|].
    intros a Ha. rewrite Hout2; [by apply Hout1|]. intros b Hb'.
    apply elem_of_app in Hb' as [Hb'|Hb']; [apply Ha; set_solver|].
    specialize (Ha (o, s) ltac:(set_solver)) as Ha0. cbn in Ha0. pose proof SLOB_UNIT_pos.
    destruct (skip_spec base align o Hb Hal) as [Hd0 _].
    apply elem_of_app in Hb' as [Hb'|[->|Hb']%elem_of_cons]; [| |apply Ha; set_solver].
    + destruct (_ =? 0); [set_solver|]. apply list_elem_of_singleton in Hb' as ->.
      unfold at_unit in *. cbn. nia.
    + unfold at_unit in *. cbn. nia.
  - rewrite (header_last m base o s (first_off post page_units)) by (done || lia).
    rewrite (header_next m base o s (first_off post page_units)) by (done || lia).
    destruct (decide (post = [])) as [->|Hne].
    { cbn. by rewrite Z.eqb_refl. }
    assert ((first_off post page_units =? page_units) = false) as ->.
    { apply Z.eqb_neq. destruct post as [|[]]; [done|]. cbn in *. lia. }
    specialize (IH Hne (pre ++ [(o, s)]) fuel m). rewrite <- !app_assoc in IH. cbn [app] in IH.
    rewrite prev_of_snoc in IH. specialize (IH Hord Hch ltac:(cbn in Hf; lia)).
    destruct (fit base units align post) as [[x r']|]; [|exact IH].
    rewrite <- !app_assoc in IH. exact IH.
Qed.

(** ** The reinsertion of [slob_free] is [give_back] *)

Lemma join_ordered o u post :
  1 <= u -> o + u <= page_units -> ordered (o + u) post ->
  exists u' post', join o u post = (o, u') :: post' /\ u <= u' /\
    o + u' <= page_units /\ ordered (o + u') post'.
Proof.
  intros Hu Ho Hp. destruct post as [|[o' s'] r]; cbn.
  - exists u, []. cbn. intuition lia.
  - cbn in Hp. destruct (Z.eqb_spec (o + u) o') as [E|N].
    + exists (u + s'), r. rewrite Z.add_assoc, E. cbn. intuition lia.
    + exists u, ((o', s') :: r). cbn. intuition lia.
Qed.

(** Write the block [(o, u)] in front of [post], joined with it if they touch. *)
Lemma join_spec m base o u post :
  (PAGE_SIZE | base) -> 0 <= o -> 1 <= u -> o + u <= page_units ->
  ordered (o + u) post -> segment m base post page_units ->
  let next := first_off post page_units in
  let m' :=
    if negb (next =? page_units) && (o + u =? next)
    then set_slob m (at_unit base o) (slobidx (u + slob_units m (at_unit base next)))
           (slob_next m (at_unit base next))
    else set_slob m (at_unit base o) u (at_unit base next) in
  segment m' base (join o u post) page_units /\
  (forall a, outside base ((o, u) :: post) a -> m' a = m a).
Proof.
  intros Hb Ho Hu Hou Hord HS. cbn zeta. pose proof SLOB_UNIT_pos. pose proof page_units_range.
  destruct post as [|[o' s'] r]; cbn [first_off join].
  - rewrite Z.eqb_refl. cbn [negb andb]. split.
    + apply (cons_block _ _ _ _ [] (o + u)); (done || lia).
    + intros a Ha. eapply set_slob_outside; [lia| |done]. set_solver.
  - cbn in Hord. assert ((o' =? page_units) = false) as -> by (apply Z.eqb_neq; lia).
    cbn [negb andb]. destruct (Z.eqb_spec (o + u) o') as [E|N].
    + destruct HS as [Sh Sr]. pose proof (first_off_range _ _ page_units (proj2 (proj2 (proj2 Hord)))).
      rewrite (header_units m base o' s' (first_off r page_units)) by (done || lia).
      rewrite (header_next m base o' s' (first_off r page_units)) by (done || lia).
      rewrite slobidx_small by lia. split.
      * apply (cons_block _ _ _ _ _ (o' + s')); (done || lia || apply Hord).
      * intros a Ha. apply set_slob_out; [lia|].
        specialize (Ha (o, u) ltac:(set_solver)) as Ha1.
        specialize (Ha (o', s') ltac:(set_solver)) as Ha2. unfold at_unit in *. cbn in *. nia.
    + split.
      * apply (cons_block _ _ _ _ ((o', s') :: r) o'); (done || lia || cbn; intuition lia).
      * intros a Ha. eapply set_slob_outside; [lia| |done]. set_solver.
Qed.

Lemma join_outside base o u post a :
  outside base ((o, u) :: post) a -> outside base (join o u post) a.
Proof.
  intros Ha. destruct post as [|[o' s'] r]; cbn [join]; [done|].
  destruct (Z.eqb_spec (o + u) o') as [E|N]; [|done].
  intros c [->|Hc]%elem_of_cons; [|apply Ha; set_solver].
  specialize (Ha (o, u) ltac:(set_solver)) as Ha1.
  specialize (Ha (o', s') ltac:(set_solver)) as Ha2. pose proof SLOB_UNIT_pos.
  unfold at_unit in *. cbn in *. nia.
Qed.

Lemma give_back_app o u pre po ps post :
  ordered 0 (pre ++ (po, ps) :: post) -> po + ps <= o ->
  give_back o u (pre ++ (po, ps) :: post) = pre ++ give_back o u ((po, ps) :: post).
Proof.
  intros Hord Hpo. induction pre as [|[o' s'] pre IH]; [done|]. cbn [app].
  apply ordered_app in Hord as (H1 & H2 & H3). cbn in H1, H2.
  specialize (H3 (o', s') (po, ps) ltac:(set_solver) ltac:(set_solver)) as H4. cbn in H4.
  change (give_back o u ((o', s') :: ?l)) with
    (if o <? o' then join o u ((o', s') :: l)
     else if o' + s' =? o then join o' (s' + u) l else (o', s') :: give_back o u l).
  destruct (Z.ltb_spec o o'); [lia|]. destruct (Z.eqb_spec (o' + s') o); [lia|].
  f_equal. apply IH. apply ordered_app. split.
  { eapply ordered_weaken; [|apply H1]. lia. }
  split; [done|]. intros b c Hb Hc. apply H3; set_solver.
Qed.

Lemma give_back_front o u post :
  (forall c, c ∈ post -> o < c.1) -> give_back o u post = join o u post.
Proof.
  destruct post as [|[o' s'] r]; intros H; [done|]. cbn [give_back].
  specialize (H (o', s') ltac:(set_solver)). cbn in H. by destruct (Z.ltb_spec o o'); [|lia].
Qed.

(** The loop of [slob_free] stops between the neighbours of the block. *)
Lemma find_spec base m o post :
  (PAGE_SIZE | base) -> o <= page_units ->
  forall pre po ps fuel,
  ordered 0 (pre ++ (po, ps) :: post) -> chain m base (pre ++ (po, ps) :: post) ->
  po + ps <= o -> (forall b, b ∈ post -> b.1 + b.2 <= o \/ o < b.1) ->
  (length post < fuel)%nat ->
  exists pre' po' ps' post',
    pre ++ (po, ps) :: post = pre' ++ (po', ps') :: post' /\
    slob_free_find fuel m (at_unit base o) (at_unit base po)
      (at_unit base (first_off post page_units))
    = Ok (at_unit base po', at_unit base (first_off post' page_units)) /\
    po' + ps' <= o /\ (forall b, b ∈ post' -> o < b.1).
Proof.
  intros Hb Ho. induction post as [|[o1 s1] post IH]; intros pre po ps fuel Hord Hch Hpo Hap Hf.
  - exists pre, po, ps, []. split; [done|]. destruct fuel; [cbn in Hf; lia|].
    cbn [slob_free_find first_off]. rewrite at_unit_ltb.
    destruct (Z.ltb_spec page_units o); [lia|]. split; [done|]. split; [done|]. set_solver.
  - destruct fuel as [|fuel]; [cbn in Hf; lia|]. cbn [slob_free_find first_off].
    rewrite at_unit_ltb. apply ordered_app in Hord as Hord'. destruct Hord' as (_ & Hc & _).
    cbn in Hc. destruct (Hap (o1, s1) ltac:(set_solver)) as [H1|H1]; cbn in H1.
    + destruct (Z.ltb_spec o1 o); [|lia].
      assert (pre ++ (po, ps) :: (o1, s1) :: post = (pre ++ [(po, ps)]) ++ (o1, s1) :: post) as E
        by (by rewrite <- app_assoc).
      rewrite E in *. apply segment_app in Hch as Hch'. destruct Hch' as [_ [Sh _]].
      pose proof (first_off_range (o1 + s1) post page_units ltac:(tauto)).
      rewrite (header_next m base o1 s1 (first_off post page_units)) by (done || lia).
      apply IH; (done || (cbn in Hf; lia) || set_solver).
    + destruct (Z.ltb_spec o1 o); [lia|].
      exists pre, po, ps, ((o1, s1) :: post). split; [done|]. split; [done|]. split; [done|].
      intros b [->|Hb']%elem_of_cons; [done|].
      destruct (ordered_elem (o1 + s1) post b); [tauto|done|lia].
Qed.

(** The last update: join the block with the one before it, or link it. *)
Lemma close_prev m base pre po ps n o u post :
  (PAGE_SIZE | base) -> ordered 0 (pre ++ [(po, ps)]) -> po + ps <= o ->
  ordered o ((o, u) :: post) ->
  segment m base (pre ++ [(po, ps)]) n -> 0 < n <= page_units ->
  segment m base ((o, u) :: post) page_units ->
  let prev := at_unit base po in
  let b := at_unit base o in
  let m' :=
    if prev + slob_units m prev * SLOB_UNIT =? b
    then set_slob m prev (slobidx (slob_units m b + slob_units m prev)) (slob_next m b)
    else set_slob m prev (slob_units m prev) b in
  chain m' base
    (pre ++ if po + ps =? o then (po, ps + u) :: post else (po, ps) :: (o, u) :: post) /\
  (forall a, outside base ((o, u) :: pre ++ [(po, ps)]) a -> m' a = m a).
Proof.
  intros Hb Hpre Hpo Hord Spre Hn [Sh Spost]. cbn zeta. unfold chain.
  pose proof page_units_range. pose proof SLOB_UNIT_pos. cbn in Hord.
  pose proof (first_off_range (o + u) post page_units ltac:(tauto)) as Hfo.
  pose proof (proj1 (ordered_app _ _ _) Hpre) as (Hpre1 & Hp & Hpp). cbn in Hp.
  pose proof (proj1 (segment_app _ _ _ _ _) Spre) as [Spre1 [Shp _]]. cbn [first_off] in *.
  rewrite (header_units m base po ps n) by (done || lia).
  rewrite (header_units m base o u (first_off post page_units)) by (done || lia).
  rewrite (header_next m base o u (first_off post page_units)) by (done || lia).
  rewrite at_unit_add, at_unit_eqb. destruct (Z.eqb_spec (po + ps) o) as [E|N].
  - rewrite slobidx_small, (Z.add_comm u ps) by lia. split.
    + apply segment_app. split; [|apply (cons_block _ _ _ _ _ (o + u)); (done || lia || tauto)].
      eapply set_slob_segment; [lia|done| |done].
      intros b Hb'. right. cbn. apply (Hpp b (po, ps)); set_solver.
    + intros a Ha. apply set_slob_out; [lia|].
      specialize (Ha (o, u) ltac:(set_solver)) as Ha1.
      specialize (Ha (po, ps) ltac:(set_solver)) as Ha2. unfold at_unit in *. cbn in *. nia.
  - split.
    + change ((po, ps) :: (o, u) :: post) with ([(po, ps)] ++ (o, u) :: post).
      rewrite app_assoc. apply segment_app. cbn [first_off].
      split; [eapply relink; (done || lia)|]. eapply set_slob_segment; [lia| | |by split].
      * cbn. instantiate (1 := o). tauto.
      * intros b Hb'. left. cbn. apply elem_of_cons in Hb' as [->|Hb']; [done|].
        destruct (ordered_elem (o + u) post b); [tauto|done|lia].
    + intros a Ha. eapply set_slob_outside; [lia| |exact Ha]. set_solver.
Qed.

Lemma join_shift po ps o u post u' post' :
  po + ps = o -> join o u post = (o, u') :: post' -> join po (ps + u) post = (po, ps + u') :: post'.
Proof.
  intros <-. unfold join. destruct post as [|[o1 s1] r]; [by intros [= -> ->]|].
  replace (po + (ps + u)) with (po + ps + u) by lia.
  destruct (_ =? o1); intros [= <- <-]; [do 2 f_equal; lia|done].
Qed.

(** The two updates around the neighbours [(po, ps)] and [post]. *)
Lemma insert_between m base pre po ps post o u :
  (PAGE_SIZE | base) -> ordered 0 (pre ++ (po, ps) :: post) ->
  chain m base (pre ++ (po, ps) :: post) ->
  po + ps <= o -> 1 <= u -> o + u <= page_units -> ordered (o + u) post ->
  let prev := at_unit base po in
  let b := at_unit base o in
  let next := at_unit base (first_off post page_units) in
  let m1 :=
    if negb (slob_last m prev) && (b + u * SLOB_UNIT =? next)
    then set_slob m b (slobidx (u + slob_units m next)) (slob_next m next)
    else set_slob m b u next in
  let m2 :=
    if prev + slob_units m1 prev * SLOB_UNIT =? b
    then set_slob m1 prev (slobidx (slob_units m1 b + slob_units m1 prev)) (slob_next m1 b)
    else set_slob m1 prev (slob_units m1 prev) b in
  chain m2 base (pre ++ give_back o u ((po, ps) :: post)) /\
  (forall a, outside base ((o, u) :: pre ++ (po, ps) :: post) a -> m2 a = m a).
Proof.
  intros Hb Hord Hch Hpo Hu Hou Hpost. cbn zeta. unfold chain in *.
  apply ordered_app in Hord as (Hpre & Hcur & Hpc). cbn in Hcur.
  apply segment_app in Hch as [Spre [Sh Spost]]. cbn [first_off] in Spre.
  pose proof page_units_range. pose proof SLOB_UNIT_pos.
  pose proof (first_off_range _ _ page_units Hpost) as Hfo.
  rewrite (header_last m base po ps (first_off post page_units)) by (done || lia).
  rewrite (at_unit_add base o u), (at_unit_eqb base (o + u)).
  destruct (join_spec m base o u post) as [S1 Hout1]; [done || lia..|].
  destruct (join_ordered o u post) as (u' & post' & Ej & Hu' & Hou' & Hpost'); [done || lia..|].
  set (m1 := if _ && _ then _ else _) in *.
  assert (header m1 base po ps (first_off post page_units)) as Sh1.
  { eapply header_agree; [lia| |exact Sh]. intros x Hx. apply Hout1.
    intros c [->|Hc]%elem_of_cons; left; [|destruct (ordered_elem _ _ _ Hpost Hc)];
      unfold at_unit in *; cbn; nia. }
  assert (segment m1 base pre po) as Spre1.
  { eapply segment_agree; [|exact Spre]. intros c Hc.
    destruct (ordered_elem _ _ _ Hpre Hc). specialize (Hpc c (po, ps) Hc ltac:(set_solver)).
    cbn in Hpc. split; [lia|]. intros x Hx. apply Hout1.
    intros d [->|Hd]%elem_of_cons; left; [|destruct (ordered_elem _ _ _ Hpost Hd)];
      unfold at_unit in *; cbn; nia. }
  rewrite Ej in S1. pose proof (first_off_range _ _ page_units Hpost') as Hfo'.
  destruct (close_prev m1 base pre po ps (first_off post page_units) o u' post')
    as [Hc Hout2]; [done| |done| |by apply segment_app|lia|exact S1|].
  { apply ordered_app. split; [done|]. split; [cbn; lia|].
    intros c d Hc Hd. apply Hpc; [done|]. set_solver. }
  { cbn. intuition lia. }
  split.
  - replace (give_back o u ((po, ps) :: post)) with
      (if po + ps =? o then (po, ps + u') :: post' else (po, ps) :: (o, u') :: post'); [exact Hc|].
    cbn [give_back]. destruct (Z.ltb_spec o po); [lia|].
    destruct (Z.eqb_spec (po + ps) o) as [E|N]; [by rewrite (join_shift po ps o u post u' post')|].
    rewrite give_back_front, Ej; [done|]. intros c Hc'.
    destruct (ordered_elem _ _ _ Hpost Hc'). lia.
  - intros a Ha. rewrite Hout2, Hout1; [done| |].
    + intros c Hc'. apply Ha. set_solver.
    + intros c [->|Hc']%elem_of_cons; [|apply Ha; set_solver].
      apply (join_outside base o u post a); [|rewrite Ej; set_solver].
      intros d Hd. apply Ha. set_solver.
Qed.

(** On a partially free page, [slob_free] gives the block back. *)
Lemma insert_spec m base bl o u :
  (PAGE_SIZE | base) -> bl <> [] -> ordered 0 bl -> chain m base bl ->
  0 <= o -> 1 <= u -> o + u <= page_units -> (forall b, b ∈ bl -> apart (o, u) b) ->
  exists m',
    slob_free_insert m (at_unit base (first_off bl page_units)) (at_unit base o) u
    = Ok (m', at_unit base (first_off (give_back o u bl) page_units)) /\
    chain m' base (give_back o u bl) /\
    (forall a, outside base ((o, u) :: bl) a -> m' a = m a).
Proof.
  intros Hb Hne Hord Hch Ho Hu Hou Hap. destruct bl as [|[o1 s1] r]; [done|].
  cbn [first_off]. unfold slob_free_insert. rewrite at_unit_ltb.
  specialize (Hap (o1, s1) ltac:(set_solver)) as Hap1. unfold apart in Hap1. cbn in Hap1.
  pose proof Hord as Hord1. cbn in Hord1. destruct (Z.ltb_spec o o1) as [Hlt|Hge].
  - destruct (join_spec m base o u ((o1, s1) :: r)) as [S1 Hout]; [done || lia..| |done|].
    { cbn. intuition lia. }
    rewrite give_back_front.
    2:{ intros c Hc. destruct (ordered_elem o1 ((o1, s1) :: r) c); [cbn; intuition lia|done|lia]. }
    cbn [first_off] in S1, Hout.
    assert ((o1 =? page_units) = false) as E1 by (apply Z.eqb_neq; lia).
    rewrite E1 in S1, Hout. cbn [negb andb] in S1, Hout. rewrite at_unit_add, at_unit_eqb.
    eexists. split; [|split; [exact S1|exact Hout]]. unfold join.
    destruct (o + u =? o1); done.
  - pose proof Hch as [Sh _]. pose proof (first_off_range (o1 + s1) r page_units ltac:(tauto)).
    rewrite (header_next m base o1 s1 (first_off r page_units)) by (done || lia).
    destruct (find_spec base m o r Hb ltac:(lia) [] o1 s1 page_fuel) as
      (pre & po & ps & post & E & -> & Hpo & Hpost); [done|done|lia| | |].
    + intros b Hb'. destruct (Hap b ltac:(set_solver)) as [H1|H1]; cbn in H1; lia.
    + unfold page_fuel. change (SLOB_UNITS PAGE_SIZE) with page_units.
      destruct (ordered_length 0 _ Hord) as [|Hlen]; [done|]. cbn in Hlen. lia.
    + cbn [app] in E. cbn [res_bind].
      assert (1 <= ps /\ ordered (o + u) post) as [Hps Hpost'].
      { rewrite E in Hord. apply ordered_app in Hord as (_ & Hc & _). cbn in Hc.
        destruct Hc as (_ & Hps & _ & Hc). split; [done|]. destruct post as [|[o2 s2] post]; [done|].
        cbn in Hc. specialize (Hpost (o2, s2) ltac:(set_solver)). cbn in Hpost.
        destruct (Hap (o2, s2)) as [|]; [rewrite E; set_solver|..]; cbn in *; intuition lia. }
      rewrite E in *. destruct (insert_between m base pre po ps post o u) as [Hc Hout];
        [done || lia..|].
      rewrite give_back_app by done. eexists. split; [|split; [exact Hc|exact Hout]].
      do 3 f_equal. transitivity (first_off (pre ++ (po, ps) :: post) page_units);
        [by rewrite <- E|]. rewrite !first_off_app. destruct pre as [|[]]; [|done].
      cbn [first_off give_back]. destruct (Z.ltb_spec o po); [lia|].
      destruct (po + ps =? o); [|reflexivity]. unfold join. destruct post as [|[o2 s2]]; [done|].
      by destruct (po + (ps + u) =? o2).
Qed.

(** ** First fit and reinsertion on lists of blocks *)

Lemma blocks_ok_weaken lo lo' bl : lo' <= lo -> blocks_ok lo bl -> blocks_ok lo' bl.
Proof. destruct bl as [|[]]; cbn; intuition lia. Qed.

Lemma total_cons b bl : total (b :: bl) = b.2 + total bl.
Proof. done. Qed.

Lemma total_app l1 l2 : total (l1 ++ l2) = total l1 + total l2.
Proof. induction l1 as [|b l1 IH]; [done|]. cbn [app]. rewrite !total_cons. lia. Qed.

Lemma total_bound lo bl : ordered lo bl -> lo <= page_units -> 0 <= total bl <= page_units - lo.
Proof.
  revert lo. induction bl as [|[o s] r IH]; intros lo H Hlo; cbn in H; [cbn; lia|].
  specialize (IH (o + s) ltac:(tauto) ltac:(lia)). rewrite total_cons. cbn. lia.
Qed.

Lemma total_zero lo bl : ordered lo bl -> lo <= page_units -> total bl = 0 <-> bl = [].
Proof.
  intros H Hlo. split; [|by intros ->]. destruct bl as [|[o s] r]; [done|]. cbn in *.
  pose proof (total_bound (o + s) r). intuition lia.
Qed.

(** The block handed out is free before, within the page, apart from what is
    free afterwards; what is free afterwards is coalesced and smaller by it. *)
Lemma fit_ok base units align lo bl x bl' :
  (PAGE_SIZE | base) -> valid_align align -> 1 <= units -> blocks_ok lo bl ->
  fit base units align bl = Some (x, bl') ->
  blocks_ok lo bl' /\ total bl' = total bl - units /\
  (exists b, b ∈ bl /\ b.1 <= x /\ x + units <= b.1 + b.2) /\
  (forall c, c ∈ bl' -> apart (x, units) c).
Proof.
  intros Hb Hal Hu. revert lo x bl'. induction bl as [|[o s] r IH]; intros lo x bl' Hok Hfit; [done|].
  cbn [fit] in Hfit. cbn in Hok. destruct (skip_spec base align o Hb Hal) as [Hd _].
  set (d := skip base align o) in *. destruct (Z.leb_spec (units + d) s) as [Hle|Hgt].
  - injection Hfit as <- <-.
    assert (forall c, c ∈ r -> o + s < c.1) as Hr.
    { intros c Hc. destruct Hok as (_ & _ & _ & Hok). apply blocks_ok_ordered in Hok.
      destruct (ordered_elem _ _ _ Hok Hc). lia. }
    split; [|split; [|split]].
    + destruct Hok as (Hlo & Hs & Hos & Hok).
      destruct (Z.eqb_spec d 0), (Z.eqb_spec (s - d) units); cbn;
        repeat split; try lia; (eapply blocks_ok_weaken; [|exact Hok]; lia).
    + rewrite !total_app, total_cons. destruct (Z.eqb_spec d 0), (Z.eqb_spec (s - d) units); cbn; lia.
    + exists (o, s). split; [set_solver|]. cbn. lia.
    + intros c Hc. unfold apart. cbn.
      apply elem_of_app in Hc as [Hc|[Hc|Hc]%elem_of_app]; [| |specialize (Hr c Hc); lia].
      * destruct (Z.eqb_spec d 0); [set_solver|]. apply list_elem_of_singleton in Hc as ->. cbn. lia.
      * destruct (Z.eqb_spec (s - d) units); [set_solver|].
        apply list_elem_of_singleton in Hc as ->. cbn. lia.
  - destruct (fit base units align r) as [[x' r']|] eqn:E; [|done]. injection Hfit as <- <-.
    destruct (IH (o + s + 1) x' r') as (H1 & H2 & (b & Hb1 & Hb2) & H4); [tauto|done|].
    split; [cbn; intuition lia|]. split; [rewrite !total_cons; lia|].
    assert (o + s < b.1).
    { destruct Hok as (_ & _ & _ & Hok). apply blocks_ok_ordered in Hok.
      destruct (ordered_elem _ _ _ Hok Hb1). lia. }
    split; [exists b; split; [set_solver|done]|].
    intros c [->|Hc]%elem_of_cons; [|auto]. right. cbn. lia.
Qed.

(** What is free afterwards was free before. *)
Lemma fit_sub base units align bl x bl' :
  (PAGE_SIZE | base) -> valid_align align -> 0 <= units ->
  fit base units align bl = Some (x, bl') ->
  forall c, c ∈ bl' -> exists b, b ∈ bl /\ b.1 <= c.1 /\ c.1 + c.2 <= b.1 + b.2.
Proof.
  intros Hb Hal Hu. revert x bl'. induction bl as [|[o s] r IH]; intros x bl'; [done|].
  cbn [fit]. destruct (skip_spec base align o Hb Hal) as [Hd _].
  destruct (Z.leb_spec (units + skip base align o) s) as [Hle|Hgt].
  - intros [= <- <-] c [Hc|[Hc|Hc]%elem_of_app]%elem_of_app.
    + destruct (_ =? 0); [set_solver|]. apply list_elem_of_singleton in Hc as ->.
      exists (o, s). split; [set_solver|]. cbn. lia.
    + destruct (_ =? units); [set_solver|]. apply list_elem_of_singleton in Hc as ->.
      exists (o, s). split; [set_solver|]. cbn. lia.
    + exists c. split; [set_solver|]. lia.
  - destruct (fit base units align r) as [[x' r']|] eqn:E; [|done].
    intros [= <- <-] c [->|Hc]%elem_of_cons.
    + exists (o, s). split; [set_solver|]. lia.
    + destruct (IH _ _ eq_refl c Hc) as (b & Hb' & ?). exists b. split; [set_solver|done].
Qed.

Lemma fit_aligned base units align bl x bl' :
  (PAGE_SIZE | base) -> valid_align align -> align <> 0 ->
  fit base units align bl = Some (x, bl') -> (align | at_unit base x).
Proof.
  intros Hb Hal Hne. revert x bl'. induction bl as [|[o s] r IH]; intros x bl'; [done|].
  cbn [fit]. destruct (_ <=? s).
  - intros [= <- _]. rewrite <- (proj2 (skip_spec base align o Hb Hal) Hne).
    destruct Hal as [|Hal]; [done|]. by apply ALIGN_divide.
  - destruct (fit base units align r) as [[x' r']|] eqn:E; [|done].
    intros [= <- _]. eauto.
Qed.

(** First fit fails only when no block has room. *)
Lemma fit_none base units align bl b :
  fit base units align bl = None -> b ∈ bl -> b.2 < units + skip base align b.1.
Proof.
  induction bl as [|[o s] r IH]; [set_solver|]. cbn [fit].
  destruct (Z.leb_spec (units + skip base align o) s); [done|].
  destruct (fit base units align r) as [[]|] eqn:E; [done|].
  intros _ [->|Hb]%elem_of_cons; [cbn; lia|auto].
Qed.

Lemma join_ok lo o u bl :
  1 <= u -> lo <= o -> o + u <= page_units -> ordered (o + u) bl -> blocks_ok (o + u) bl ->
  blocks_ok lo (join o u bl) /\ total (join o u bl) = u + total bl.
Proof.
  intros Hu Hlo Hou Hord Hok. destruct bl as [|[o' s'] r]; cbn in *; [lia|].
  destruct (Z.eqb_spec (o + u) o') as [E|N]; rewrite !total_cons; cbn.
  - split; [|lia]. replace (o + (u + s') + 1) with (o' + s' + 1) by lia. intuition lia.
  - intuition lia.
Qed.

(** The page stays coalesced, and has the freed units more. *)
Lemma give_back_ok lo o u bl :
  1 <= u -> lo <= o -> o + u <= page_units -> blocks_ok lo bl ->
  (forall c, c ∈ bl -> apart (o, u) c) ->
  blocks_ok lo (give_back o u bl) /\ total (give_back o u bl) = u + total bl.
Proof.
  intros Hu. revert lo. induction bl as [|[o' s'] r IH]; intros lo Hlo Hou Hok Hap; [cbn; lia|].
  specialize (Hap (o', s') ltac:(set_solver)) as Hap1. unfold apart in Hap1. cbn in Hap1, Hok.
  cbn [give_back]. destruct (Z.ltb_spec o o') as [Hlt|Hge].
  - apply join_ok; [done..| |cbn; intuition lia].
    apply blocks_ok_ordered. cbn. intuition lia.
  - destruct (Z.eqb_spec (o' + s') o) as [E|N].
    + assert (blocks_ok (o' + (s' + u)) r) as Hr.
      { destruct r as [|[o2 s2] r]; cbn in *; [done|].
        destruct (Hap (o2, s2)) as [H|H]; [set_solver|..]; cbn in H; intuition lia. }
      destruct (join_ok lo o' (s' + u) r) as [H1 H2]; [lia..|by apply blocks_ok_ordered|done|].
      split; [done|]. rewrite total_cons. cbn. lia.
    + destruct (IH (o' + s' + 1)) as [H1 H2]; [lia|done|tauto|set_solver|].
      split; [cbn; intuition lia|]. rewrite !total_cons. cbn. lia.
Qed.

Lemma join_far o s r : blocks_ok (o + s + 1) r -> join o s r = (o, s) :: r.
Proof.
  destruct r as [|[o' s'] r]; [done|]. cbn. destruct (Z.eqb_spec (o + s) o'); [lia|done].
Qed.

(** What first fit takes, reinsertion puts back: the list is the same. *)
Lemma give_back_fit base units align lo bl x bl' :
  (PAGE_SIZE | base) -> valid_align align -> 1 <= units -> blocks_ok lo bl ->
  fit base units align bl = Some (x, bl') -> give_back x units bl' = bl.
Proof.
  intros Hb Hal Hu. revert lo x bl'.
  induction bl as [|[o s] r IH]; intros lo x bl' Hok Hfit; [done|].
  cbn [fit] in Hfit. cbn in Hok. destruct (skip_spec base align o Hb Hal) as [Hd _].
  set (d := skip base align o) in *. destruct (Z.leb_spec (units + d) s) as [Hle|Hgt].
  - injection Hfit as <- <-. destruct Hok as (_ & _ & _ & Hok).
    clearbody d. destruct (Z.eqb_spec d 0) as [->|N]; rewrite ?Z.add_0_r, ?Z.sub_0_r;
      [destruct (Z.eqb_spec s units) as [->|N']|destruct (Z.eqb_spec (s - d) units) as [E'|N']];
      cbn [app give_back join].
    + rewrite give_back_front, join_far; [done..|].
      intros c Hc. apply blocks_ok_ordered in Hok. destruct (ordered_elem _ _ _ Hok Hc). lia.
    + destruct (Z.ltb_spec o (o + units)); [|lia]. rewrite Z.eqb_refl. do 2 f_equal. lia.
    + destruct (Z.ltb_spec (o + d) o); [lia|]. rewrite Z.eqb_refl.
      replace (d + units) with s by lia. by apply join_far.
    + destruct (Z.ltb_spec (o + d) o); [lia|]. rewrite Z.eqb_refl.
      destruct (Z.eqb_spec (o + (d + units)) (o + d + units)); [|lia]. do 2 f_equal. lia.
  - destruct (fit base units align r) as [[x' r']|] eqn:E; [|done]. injection Hfit as <- <-.
    destruct (fit_ok base units align (o + s + 1) r x' r') as (_ & _ & (b & Hb1 & Hb2) & _);
      [tauto..|]. destruct Hok as (_ & Hs & _ & Hok).
    assert (o + s < b.1).
    { apply blocks_ok_ordered in Hok. destruct (ordered_elem _ _ _ Hok Hb1). lia. }
    cbn [give_back]. destruct (Z.ltb_spec x' o); [lia|]. destruct (Z.eqb_spec (o + s) x'); [lia|].
    f_equal. by apply (IH (o + s + 1)).
Qed.

(** A block apart from the freed block and from the free blocks stays apart. *)
Lemma join_apart o u bl c :
  1 <= c.2 -> apart c (o, u) -> (forall b, b ∈ bl -> apart c b) ->
  forall b, b ∈ join o u bl -> apart c b.
Proof.
  intros Hc Ho Hbl b. destruct bl as [|[o' s'] r]; cbn [join]; [set_solver|].
  destruct (Z.eqb_spec (o + u) o') as [<-|N]; [|set_solver].
  intros [->|Hb]%elem_of_cons; [|set_solver].
  specialize (Hbl (o + u, s') ltac:(set_solver)). unfold apart in *. cbn in *. lia.
Qed.

Lemma give_back_apart o u bl c :
  1 <= c.2 -> apart c (o, u) -> (forall b, b ∈ bl -> apart c b) ->
  forall b, b ∈ give_back o u bl -> apart c b.
Proof.
  intros Hc Ho. induction bl as [|[o' s'] r IH]; intros Hbl b; [set_solver|]. cbn [give_back].
  destruct (o <? o'); [by apply join_apart|].
  destruct (Z.eqb_spec (o' + s') o) as [<-|N].
  - apply join_apart; [done| |set_solver]. specialize (Hbl (o', s') ltac:(set_solver)).
    unfold apart in *. cbn in *. lia.
  - intros [->|Hb]%elem_of_cons; [set_solver|]. apply IH; set_solver.
Qed.

End Theory.
