(* ===== verification/Slob.v ===== *)
(** * slob.c: the allocator and its kmalloc and kmem_cache front ends

    The state of [kernel/project4/code/slob.c] (the [struct page] fields it
    uses, the three lists, its global counters) and every function above the
    page level, composed as in the source.  Here a call runs from its start to its
    end; [SlobConc.v] interleaves the same functions under [slob_lock].  The
    kernel functions that only observe ([trace_*], [kmemleak_*],
    [lockdep_trace_alloc], [printk]) change none of this state and are left
    out. *)

From S2P Require Import Prelude Mem KernelEnv SlobPage.

(** The fields of [struct page] that slob.c reads and writes, and the two page
    flags [PG_slob_free] and [PG_slab]. *)
Record page : Type := {
  pg_units : Z;
  pg_freelist : Z;
  PageSlobFree : bool;
  PageSlab : bool
}.

Section Defs.
Context `{K : KernelEnv} `{L : ListApi} `{P : PageApi}.

Record slob : Type := {
  memory : mem;
  pages : Z -> page;             (* struct page of the page at this address *)
  free_lists : lists;
  page_allocator : pagealloc;
  reclaim_state : option Z;      (* current->reclaim_state->reclaimed_slab *)
  rcu_queue : list Z;            (* rcu heads passed to call_rcu *)
  pcount : Z;
  free : Z;
  used_m : Z;
  claimed_m : Z
}.

Definition set_memory (st : slob) (m : mem) : slob :=
  {| memory := m; pages := pages st; free_lists := free_lists st;
     page_allocator := page_allocator st; reclaim_state := reclaim_state st;
     rcu_queue := rcu_queue st; pcount := pcount st; free := free st;
     used_m := used_m st; claimed_m := claimed_m st |}.

Definition set_page (st : slob) (sp : Z) (pg : page) : slob :=
  {| memory := memory st; pages := fun q => if q =? sp then pg else pages st q;
     free_lists := free_lists st;
     page_allocator := page_allocator st; reclaim_state := reclaim_state st;
     rcu_queue := rcu_queue st; pcount := pcount st; free := free st;
     used_m := used_m st; claimed_m := claimed_m st |}.

Definition set_lists (st : slob) (l : lists) : slob :=
  {| memory := memory st; pages := pages st; free_lists := l;
     page_allocator := page_allocator st; reclaim_state := reclaim_state st;
     rcu_queue := rcu_queue st; pcount := pcount st; free := free st;
     used_m := used_m st; claimed_m := claimed_m st |}.

Definition set_allocator (st : slob) (a : pagealloc) (r : option Z) : slob :=
  {| memory := memory st; pages := pages st; free_lists := free_lists st;
     page_allocator := a; reclaim_state := r;
     rcu_queue := rcu_queue st; pcount := pcount st; free := free st;
     used_m := used_m st; claimed_m := claimed_m st |}.

Definition set_counters (st : slob) (pc fr us cl : Z) : slob :=
  {| memory := memory st; pages := pages st; free_lists := free_lists st;
     page_allocator := page_allocator st; reclaim_state := reclaim_state st;
     rcu_queue := rcu_queue st; pcount := pc; free := fr; used_m := us; claimed_m := cl |}.

Definition set_rcu (st : slob) (q : list Z) : slob :=
  {| memory := memory st; pages := pages st; free_lists := free_lists st;
     page_allocator := page_allocator st; reclaim_state := reclaim_state st;
     rcu_queue := q; pcount := pcount st; free := free st;
     used_m := used_m st; claimed_m := claimed_m st |}.

(** The C types of the counters and of the sizes. *)
Definition int (x : Z) : Z := wrap_s 32 x.
Definition ulong (x : Z) : Z := wrap_u BITS_PER_LONG x.

Definition NUMA_NO_NODE : Z := -1.

(** [virt_to_page]: a [struct page] is named by the address of its page. *)
Definition virt_to_page (a : Z) : Z := Z.land a PAGE_MASK.

(** ** Page flags and lists *)

Definition slob_page_free (st : slob) (sp : Z) : bool := PageSlobFree (pages st sp).

Definition set_flag (pg : page) (b : bool) : page :=
  {| pg_units := pg_units pg; pg_freelist := pg_freelist pg;
     PageSlobFree := b; PageSlab := PageSlab pg |}.

Definition set_slab (pg : page) (b : bool) : page :=
  {| pg_units := pg_units pg; pg_freelist := pg_freelist pg;
     PageSlobFree := PageSlobFree pg; PageSlab := b |}.

Definition mapcount_reset (pg : page) : page :=
  {| pg_units := page_mapcount_reset (pg_units pg); pg_freelist := pg_freelist pg;
     PageSlobFree := PageSlobFree pg; PageSlab := PageSlab pg |}.

Definition set_free (pg : page) (units freelist : Z) : page :=
  {| pg_units := units; pg_freelist := freelist;
     PageSlobFree := PageSlobFree pg; PageSlab := PageSlab pg |}.

Definition set_slob_page_free (st : slob) (sp : Z) (l : slob_list) : slob :=
  let st := set_lists st (list_add (free_lists st) sp l) in
  set_page st sp (set_flag (pages st sp) true).

Definition clear_slob_page_free (st : slob) (sp : Z) : slob :=
  let st := set_lists st (list_del (free_lists st) sp) in
  set_page st sp (set_flag (pages st sp) false).

(** ** The page allocator *)

Definition slob_new_pages (st : slob) (gfp order node : Z) : option Z * slob :=
  let nid := if CONFIG_NUMA && negb (node =? NUMA_NO_NODE) then Some node else None in
  let '(p, a) := alloc_pages_node (page_allocator st) nid gfp order in
  (p, set_allocator st a (reclaim_state st)).

Definition slob_free_pages (st : slob) (b order : Z) : slob :=
  let r := match reclaim_state st with
           | Some n => Some (n + Z.shiftl 1 order)
           | None => None
           end in
  set_allocator st (free_pages (page_allocator st) (virt_to_page b) order) r.

(** ** Allocate a slob block within a given slob_page sp *)

Definition slob_page_alloc (st : slob) (sp size align : Z) : res (slob * option Z) :=
  let units := int (SLOB_UNITS size) in
  let pg := pages st sp in
  let! r := slob_page_scan page_fuel (memory st) (pg_freelist pg) units align None
              (pg_freelist pg) in
  match r with
  | None => Ok (st, None)
  | Some (m, freelist, cur) =>
    let st := set_memory st m in
    let left := int (pg_units pg - units) in
    let st := set_page st sp (set_free pg left freelist) in
    let st := if left =? 0 then clear_slob_page_free st sp else st in
    Ok (st, Some cur)
  end.

(** ** slob_alloc *)

Definition slob_list_for (size : Z) : slob_list :=
  if size <? SLOB_BREAK1 then free_slob_small
  else if size <? SLOB_BREAK2 then free_slob_medium
  else free_slob_large.

(** The loop over the pages of the list.  [sp_alt] is the page chosen so far;
    its value before the loop is an argument because the source does not
    initialise it. *)
Fixpoint slob_pick (st : slob) (size node : Z) (sp_alt : option Z) (l : list Z) : option Z :=
  match l with
  | [] => sp_alt
  | sp :: r =>
    if CONFIG_NUMA && negb (node =? NUMA_NO_NODE) && negb (page_to_nid sp =? node)
    then slob_pick st size node sp_alt r
    else if ulong (pg_units (pages st sp)) <? SLOB_UNITS size
    then slob_pick st size node sp_alt r
    else
      let alt := match sp_alt with None => sp | Some q => q end in
      let alt := if pg_units (pages st sp) <? pg_units (pages st alt) then sp else alt in
      slob_pick st size node (Some alt) r
  end.

(** The three loops [free += sp->units], over the member [list] of the pages. *)
Definition slob_count_free (st : slob) : Z :=
  fold_left (fun f sp => ulong (f + pg_units (pages st sp)))
    (list_elems_list (free_lists st) free_slob_small
     ++ list_elems_list (free_lists st) free_slob_medium
     ++ list_elems_list (free_lists st) free_slob_large) 0.

(** The first section under [slob_lock]: choose a page and allocate from it. *)
Definition slob_alloc_search (st : slob) (sp_alt : option Z) (size align node : Z)
  : res (slob * option Z) :=
  match slob_pick st size node sp_alt (list_elems (free_lists st) (slob_list_for size)) with
  | Some sp => slob_page_alloc st sp size align
  | None => Ok (st, None)
  end.

(** The second section under [slob_lock]: the new page [sp], at the address
    [b], becomes one free block and goes on the list. *)
Definition slob_fill_page (st : slob) (sp b : Z) (l : slob_list) : slob :=
  let st := set_page st sp (set_free (pages st sp) (SLOB_UNITS PAGE_SIZE) b) in
  let st := set_memory st (set_slob (memory st) b (SLOB_UNITS PAGE_SIZE)
                             (b + SLOB_UNITS PAGE_SIZE * SLOB_UNIT)) in
  set_slob_page_free st sp l.

(** The part of [slob_alloc] that takes a new page. *)
Definition slob_alloc_new_page (st : slob) (l : slob_list) (size gfp align node : Z)
  : res (slob * option Z) :=
  let '(b, st) := slob_new_pages st (Z.land gfp (Z.lnot GFP_ZERO)) 0 node in
  match b with
  | None => Ok (st, None)
  | Some b =>
    let sp := virt_to_page b in
    let st := set_page st sp (set_slab (pages st sp) true) in
    let st := slob_fill_page st sp b l in
    let! (st, b) := slob_page_alloc st sp size align in
    match b with
    | None => Bug
    | Some b =>
      Ok (set_counters st (ulong (pcount st + 1)) (free st) (used_m st)
            (int (claimed_m st + PAGE_SIZE)), Some b)
    end
  end.

(** The end of [slob_alloc]: clear the block if asked to, and count it. *)
Definition slob_alloc_finish (st : slob) (b size gfp : Z) : slob :=
  let st := if Z.land gfp GFP_ZERO =? 0 then st
            else set_memory st (memset (memory st) b 0 size) in
  set_counters st (pcount st) (free st) (int (used_m st + size)) (claimed_m st).

Definition slob_alloc (st : slob) (sp_alt : option Z) (size gfp align node : Z)
  : res (slob * option Z) :=
  let l := slob_list_for size in
  let! (st, b) := slob_alloc_search st sp_alt size align node in
  let st := set_counters st (pcount st) (slob_count_free st) (used_m st) (claimed_m st) in
  let! (st, b) := match b with
                  | Some b => Ok (st, Some b)
                  | None => slob_alloc_new_page st l size gfp align node
                  end in
  match b with
  | None => Ok (st, None)
  | Some b => Ok (slob_alloc_finish st b size gfp, Some b)
  end.

(** ** slob_free *)

Definition ZERO_OR_NULL_PTR (p : Z) : bool := p <=? ZERO_SIZE_PTR.

(** The section under [slob_lock]; the result says whether the whole page
    became free and is to be given back. *)
Definition slob_free_locked (st : slob) (block size units : Z) : res (slob * bool) :=
  let sp := virt_to_page block in
  let pg := pages st sp in
  if ulong (pg_units pg + units) =? SLOB_UNITS PAGE_SIZE then
    Ok (if slob_page_free st sp then clear_slob_page_free st sp else st, true)
  else if negb (slob_page_free st sp) then
    let st := set_page st sp (set_free pg units block) in
    let st := set_memory st (set_slob (memory st) block units
                (Z.land (block + SLOB_UNITS PAGE_SIZE * SLOB_UNIT) PAGE_MASK)) in
    Ok (set_slob_page_free st sp (slob_list_for size), false)
  else
    let! (m, freelist) := slob_free_insert (memory st) (pg_freelist pg) block units in
    let st := set_memory st m in
    Ok (set_page st sp (set_free pg (int (pg_units pg + units)) freelist), false).

Definition slob_free (st : slob) (block size : Z) : res slob :=
  if ZERO_OR_NULL_PTR block then Ok st
  else if size =? 0 then Bug
  else
    let sp := virt_to_page block in
    let units := slobidx (SLOB_UNITS (ulong size)) in
    let st := set_counters st (pcount st) (free st) (int (used_m st - size)) (claimed_m st) in
    let! (st, last) := slob_free_locked st block size units in
    if (last : bool) then
      let st := set_page st sp (set_slab (pages st sp) false) in
      let st := set_page st sp (mapcount_reset (pages st sp)) in
      let st := slob_free_pages st block 0 in
      Ok (set_counters st (ulong (pcount st - 1)) (free st) (used_m st) (claimed_m st))
    else Ok st.

(** ** kmalloc and kfree *)

Definition kmalloc_align : Z := Z.max ARCH_KMALLOC_MINALIGN ARCH_SLAB_MINALIGN.

(** The pointer [NULL]. *)
Definition NULL : Z := 0.

Definition do_kmalloc_node (st : slob) (sp_alt : option Z) (size gfp node : Z)
  : res (slob * Z) :=
  let align := kmalloc_align in
  let gfp := Z.land gfp gfp_allowed_mask in
  if size <? PAGE_SIZE - align then
    if size =? 0 then Ok (st, ZERO_SIZE_PTR)
    else
      let! (st, m) := slob_alloc st sp_alt (size + align) gfp align node in
      match m with
      | None => Ok (st, NULL)
      | Some m => Ok (set_memory st (store 4 (memory st) m size), m + align)
      end
  else
    let order := get_order size in
    let gfp := if order =? 0 then gfp else Z.lor gfp GFP_COMP in
    let '(p, st) := slob_new_pages st gfp order node in
    Ok (st, match p with Some p => p | None => NULL end).

Definition kmalloc (st : slob) (sp_alt : option Z) (size gfp : Z) : res (slob * Z) :=
  do_kmalloc_node st sp_alt size gfp NUMA_NO_NODE.

(** [__kmalloc_track_caller]: the caller's address goes to the trace only. *)
Definition kmalloc_track_caller (st : slob) (sp_alt : option Z) (size gfp caller : Z)
  : res (slob * Z) :=
  do_kmalloc_node st sp_alt size gfp NUMA_NO_NODE.

Definition kmalloc_node_track_caller (st : slob) (sp_alt : option Z)
    (size gfp node caller : Z) : res (slob * Z) :=
  do_kmalloc_node st sp_alt size gfp node.

Definition kmalloc_node (st : slob) (sp_alt : option Z) (size gfp node : Z)
  : res (slob * Z) :=
  do_kmalloc_node st sp_alt size gfp node.

Definition kfree (st : slob) (block : Z) : res slob :=
  if ZERO_OR_NULL_PTR block then Ok st
  else
    let sp := virt_to_page block in
    if PageSlab (pages st sp) then
      let m := block - kmalloc_align in
      slob_free st m (int (load 4 (memory st) m + kmalloc_align))
    else
      Ok (set_allocator st
            (free_pages (page_allocator st) sp (compound_order (page_allocator st) sp))
            (reclaim_state st)).

Definition ksize (st : slob) (block : Z) : res Z :=
  if block =? NULL then Bug
  else if block =? ZERO_SIZE_PTR then Ok 0
  else
    let sp := virt_to_page block in
    if negb (PageSlab (pages st sp)) then
      Ok (Z.shiftl PAGE_SIZE (compound_order (page_allocator st) sp))
    else
      let m := block - kmalloc_align in
      Ok (SLOB_UNITS (load 4 (memory st) m) * SLOB_UNIT).

(** ** kmem_cache *)

(** The fields of [struct kmem_cache] that slob.c uses. *)
Record kmem_cache : Type := {
  c_size : Z;
  c_align : Z;
  c_flags : Z;
  c_ctor : option (mem -> Z -> mem)
}.

(** [struct slob_rcu]: an [rcu_head] and an [int], padded to a word. *)
Definition sizeof_slob_rcu : Z := ALIGN (sizeof_rcu_head + 4) (BITS_PER_LONG / 8).

Definition kmem_cache_create (c : kmem_cache) (flags : Z) : kmem_cache :=
  {| c_size := if Z.land flags SLAB_DESTROY_BY_RCU =? 0 then c_size c
               else c_size c + sizeof_slob_rcu;
     c_align := c_align c; c_flags := flags; c_ctor := c_ctor c |}.

Definition slob_alloc_node (st : slob) (sp_alt : option Z) (c : kmem_cache) (flags node : Z)
  : res (slob * Z) :=
  let flags := Z.land flags gfp_allowed_mask in
  let! (st, b) :=
    if c_size c <? PAGE_SIZE
    then slob_alloc st sp_alt (c_size c) flags (c_align c) node
    else let '(p, st) := slob_new_pages st flags (get_order (c_size c)) node in Ok (st, p) in
  match b with
  | None => Ok (st, NULL)
  | Some b =>
    match c_ctor c with
    | Some ctor => Ok (set_memory st (ctor (memory st) b), b)
    | None => Ok (st, b)
    end
  end.

Definition kmem_cache_alloc (st : slob) (sp_alt : option Z) (c : kmem_cache) (flags : Z)
  : res (slob * Z) :=
  slob_alloc_node st sp_alt c flags NUMA_NO_NODE.

Definition kmem_cache_alloc_node (st : slob) (sp_alt : option Z) (c : kmem_cache)
    (gfp node : Z) : res (slob * Z) :=
  slob_alloc_node st sp_alt c gfp node.

(** [__kmem_cache_free]. *)
Definition kmem_cache_free_block (st : slob) (b size : Z) : res slob :=
  if ulong size <? PAGE_SIZE then slob_free st b size
  else Ok (slob_free_pages st b (get_order (ulong size))).

Definition kmem_rcu_free (st : slob) (head : Z) : res slob :=
  let size := int (load 4 (memory st) (head + sizeof_rcu_head)) in
  let b := head - (size - sizeof_slob_rcu) in
  kmem_cache_free_block st b size.

Definition kmem_cache_free (st : slob) (c : kmem_cache) (b : Z) : res slob :=
  if Z.land (c_flags c) SLAB_DESTROY_BY_RCU =? 0
  then kmem_cache_free_block st b (int (c_size c))
  else
    let slob_rcu := b + (c_size c - sizeof_slob_rcu) in
    let st := set_memory st (store 4 (memory st) (slob_rcu + sizeof_rcu_head) (c_size c)) in
    Ok (set_rcu st (rcu_queue st ++ [slob_rcu])).

(** After its grace period a callback passed to [call_rcu] runs; in which order
    callbacks run is not up to this code, so any of them may be next. *)
Definition rcu_run (st : slob) (i : nat) : res slob :=
  match rcu_queue st !! i with
  | None => Ok st
  | Some head => kmem_rcu_free (set_rcu st (delete i (rcu_queue st))) head
  end.

Definition kmem_cache_shutdown (c : kmem_cache) : Z := 0.
Definition kmem_cache_shrink (d : kmem_cache) : Z := 0.

(** [kmem_cache_boot], and the two globals that the init functions set. *)
Inductive slab_state : Type := DOWN | UP | FULL.

Definition kmem_cache_boot (sizeof_kmem_cache : Z) : kmem_cache :=
  {| c_size := sizeof_kmem_cache; c_align := ARCH_KMALLOC_MINALIGN;
     c_flags := SLAB_PANIC; c_ctor := None |}.

Definition kmem_cache_init (sizeof_kmem_cache : Z) (g : option kmem_cache * slab_state)
  : option kmem_cache * slab_state :=
  (Some (kmem_cache_boot sizeof_kmem_cache), UP).

Definition kmem_cache_init_late (g : option kmem_cache * slab_state)
  : option kmem_cache * slab_state :=
  (g.1, FULL).

(** ** The two system calls *)

Definition sys_slob_free (st : slob) : Z := int (claimed_m st - used_m st).
Definition sys_slob_used (st : slob) : Z := claimed_m st.

(** The state at boot, on arbitrary memory contents. *)
Definition boot (m : mem) (pg : Z -> page) (l : lists) (a : pagealloc) : slob :=
  {| memory := m; pages := pg; free_lists := l; page_allocator := a;
     reclaim_state := None; rcu_queue := []; pcount := 0; free := 0; used_m := 0;
     claimed_m := 0 |}.

(** ** The allocator's invariant

    [ps] are the pages the allocator holds, [live] the objects handed out and
    not yet freed, as address and size in bytes. *)

Definition obj_block (p : Z) (x : Z * Z) : block := ((x.1 - p) / SLOB_UNIT, SLOB_UNITS x.2).

Definition live_on (p : Z) (live : list (Z * Z)) : list block :=
  map (obj_block p) (filter (fun x => virt_to_page x.1 = p) live).

Fixpoint pairwise_apart (l : list block) : Prop :=
  match l with
  | [] => True
  | b :: r => (forall c, c ∈ r -> apart b c) /\ pairwise_apart r
  end.

(** What the theorems below assume of [sp_alt], which [slob_alloc] leaves
    uninitialised: when the search begins it is [NULL] or points to a page that
    is on one of the three lists at that moment. *)
Definition sp_alt_ok (st : slob) (sp_alt : option Z) : Prop :=
  match sp_alt with
  | None => True
  | Some q => on_list (free_lists st) q
  end.

(** One page: its free list is [bl], its objects are [lv], and together they
    tile the page. *)
Record page_inv (m : mem) (pg : page) (p : Z) (bl lv : list block) : Prop := {
  pi_ok : blocks_ok 0 bl;
  pi_chain : chain m p bl;
  pi_units : pg_units pg = total bl;
  pi_freelist : bl <> [] -> pg_freelist pg = at_unit p (first_off bl page_units);
  pi_flag : PageSlobFree pg = bool_decide (bl <> []);
  pi_live : forall c, c ∈ lv -> 0 <= c.1 /\ 1 <= c.2 /\ c.1 + c.2 <= page_units;
  pi_apart : pairwise_apart lv;
  pi_disjoint : forall c b, c ∈ lv -> b ∈ bl -> apart c b;
  pi_total : total bl + total lv = page_units
}.

(** An object: on a page of the allocator, at a unit boundary. *)
Definition obj_ok (ps : gset Z) (x : Z * Z) : Prop :=
  virt_to_page x.1 ∈ ps /\ 1 <= x.2 <= PAGE_SIZE /\ (SLOB_UNIT | x.1).

(** What the lock protects: the pages of the allocator, their free lists and
    the page lists. *)
Record slob_core (st : slob) (ps : gset Z) (live : list (Z * Z)) : Prop := {
  ss_pages : forall p, p ∈ ps ->
    exists bl, page_inv (memory st) (pages st p) p bl (live_on p live);
  ss_addr : forall p, p ∈ ps ->
    0 < p /\ (PAGE_SIZE | p) /\ page_used (page_allocator st) p = true;
  ss_live : forall x, x ∈ live -> obj_ok ps x;
  ss_lists : lists_ok (free_lists st);
  ss_on : forall p, on_list (free_lists st) p <-> p ∈ ps /\ PageSlobFree (pages st p) = true
}.

(** Between two calls, moreover, the [PG_slab] pages are those of the
    allocator. *)
Record slob_str (st : slob) (ps : gset Z) (live : list (Z * Z)) : Prop := {
  ss_core :> slob_core st ps live;
  ss_slab : forall p, PageSlab (pages st p) = bool_decide (p ∈ ps)
}.

Definition live_bytes (live : list (Z * Z)) : Z := foldr (fun x t => x.2 + t) 0 live.

Record slob_inv (st : slob) (ps : gset Z) (live : list (Z * Z)) : Prop := {
  si_str : slob_str st ps live;
  (** Every page the allocator holds has an object on it. *)
  si_used_page : forall p, p ∈ ps -> live_on p live <> [];
  si_pcount : pcount st = ulong (Z.of_nat (size ps));
  si_used : used_m st = int (live_bytes live)
}.

End Defs.
