(* ===== verification/SlobProofs.v ===== *)
(** * slob.c: the allocator keeps its invariant

    [slob_alloc] and [slob_free] of [Slob.v] preserve [slob_inv]: the free
    lists of the pages stay well formed and coalesced, free blocks and live
    objects tile every page, and the page lists hold exactly the partially
    free pages. *)

From S2P Require Import Prelude Mem KernelEnv SlobPage Slob.

Section Proofs.
Context `{K : KernelEnv} {KL : KernelEnvLaws K}.
Context `{L : ListApi} {LL : ListApiLaws L}.
Context `{P : PageApi} {PL : PageApiLaws K P}.

(** ** Arithmetic of the C types *)

Lemma units_of_size n : 1 <= n <= PAGE_SIZE -> 1 <= SLOB_UNITS n <= page_units.
Proof.
  intros Hn. unfold SLOB_UNITS. pose proof SLOB_UNIT_pos. pose proof page_size_units.
  destruct (DIV_ROUND_UP_spec n SLOB_UNIT); [lia..|]. nia.
Qed.

Lemma units_cover n : 1 <= n <= PAGE_SIZE -> n <= SLOB_UNITS n * SLOB_UNIT < n + SLOB_UNIT.
Proof.
  intros Hn. unfold SLOB_UNITS. pose proof SLOB_UNIT_pos.
  destruct (DIV_ROUND_UP_spec n SLOB_UNIT); [lia..|]. nia.
Qed.

Lemma PAGE_SIZE_bound : 4096 <= PAGE_SIZE <= 262144.
Proof.
  pose proof PAGE_SHIFT_range. unfold PAGE_SIZE.
  split; [change 4096 with (2 ^ 12)|change 262144 with (2 ^ 18)]; apply Z.pow_le_mono_r; lia.
Qed.

Lemma page_units_bound : page_units <= PAGE_SIZE.
Proof. pose proof page_size_units. pose proof page_units_range.
  destruct slob_unit_cases; nia. Qed.

Lemma int_small x : - 262144 <= x <= 262144 -> int x = x.
Proof. intros H. apply wrap_s_small; [lia|]. unfold in_s. lia. Qed.

Lemma ulong_small x : 0 <= x <= 262144 -> ulong x = x.
Proof.
  intros H. apply wrap_u_small. split; [lia|]. pose proof BITS_PER_LONG_range.
  apply Z.lt_le_trans with (2 ^ 32); [lia|]. apply Z.pow_le_mono_r; lia.
Qed.

Lemma virt_to_page_unit p o :
  (PAGE_SIZE | p) -> 0 <= o < page_units -> virt_to_page (at_unit p o) = p.
Proof. apply page_of_unit. Qed.

Lemma virt_to_page_spec a :
  (PAGE_SIZE | virt_to_page a) /\ virt_to_page a <= a < virt_to_page a + PAGE_SIZE.
Proof.
  unfold virt_to_page. rewrite land_mask. pose proof PAGE_SIZE_pos.
  pose proof (Z.mod_pos_bound a PAGE_SIZE). split; [|lia].
  exists (a / PAGE_SIZE). pose proof (Z.div_mod a PAGE_SIZE). lia.
Qed.

(** ** Objects as blocks *)

Lemma obj_at_unit p x :
  (PAGE_SIZE | p) -> (SLOB_UNIT | x.1) -> at_unit p (obj_block p x).1 = x.1.
Proof.
  intros Hp Hx. unfold at_unit, obj_block. cbn.
  assert (SLOB_UNIT | x.1 - p) as [q Hq].
  { apply Z.divide_sub_r; [done|]. etrans; [|exact Hp].
    exists page_units. apply page_size_units. }
  pose proof SLOB_UNIT_pos. rewrite Hq, Z.div_mul by lia. lia.
Qed.

Lemma live_on_cons_eq p x live :
  virt_to_page x.1 = p -> live_on p (x :: live) = obj_block p x :: live_on p live.
Proof. intros H. unfold live_on. by rewrite filter_cons_True. Qed.

Lemma live_on_cons_ne p x live :
  virt_to_page x.1 <> p -> live_on p (x :: live) = live_on p live.
Proof. intros H. unfold live_on. by rewrite filter_cons_False. Qed.

Lemma live_on_nil (ps : gset Z) p live :
  (forall x, x ∈ live -> obj_ok ps x) -> p ∉ ps -> live_on p live = [].
Proof.
  intros H Hp. induction live as [|x live IH]; [done|].
  rewrite live_on_cons_ne; [apply IH; set_solver|].
  intros <-. destruct (H x) as [Hx _]; [set_solver|done].
Qed.

Lemma live_on_elem p x live :
  x ∈ live -> virt_to_page x.1 = p -> obj_block p x ∈ live_on p live.
Proof.
  intros Hx Hp. unfold live_on. apply list_elem_of_fmap. exists x. split; [done|].
  by apply list_elem_of_filter.
Qed.

(** ** Permutations of the live objects *)

Lemma apart_sym b c : apart b c -> apart c b.
Proof. unfold apart. lia. Qed.

#[export] Instance pairwise_apart_perm : Proper ((≡ₚ) ==> iff) pairwise_apart.
Proof.
  assert (forall l l', l ≡ₚ l' -> pairwise_apart l -> pairwise_apart l') as H.
  { intros l l'. induction 1 as [|b l l' HP IH|b c l|l l' l'' H1 IH1 H2 IH2]; cbn; auto.
    - intros [Hb Hl]. split; [|auto]. intros c Hc. apply Hb. by rewrite HP.
    - intros (Hb & Hc & Hl). split; [|split; [set_solver|done]].
      intros d [->|Hd]%elem_of_cons; [apply apart_sym, Hb; set_solver|auto]. }
  intros l l' HP. split; apply H; [done|by symmetry].
Qed.

#[export] Instance total_perm : Proper ((≡ₚ) ==> (=)) total.
Proof. intros l l'. induction 1; cbn; lia. Qed.

#[export] Instance live_on_perm p : Proper ((≡ₚ) ==> (≡ₚ)) (live_on p).
Proof. intros l l' H. unfold live_on. by rewrite H. Qed.

#[export] Instance live_bytes_perm : Proper ((≡ₚ) ==> (=)) live_bytes.
Proof. intros l l'. unfold live_bytes. induction 1; cbn; lia. Qed.

#[export] Instance page_inv_perm m pg p bl : Proper ((≡ₚ) ==> iff) (page_inv m pg p bl).
Proof.
  assert (forall l l', l ≡ₚ l' -> page_inv m pg p bl l -> page_inv m pg p bl l') as H.
  { intros l l' HP []. split; try done.
    - intros c. rewrite <- HP. auto.
    - by rewrite <- HP.
    - intros c b. rewrite <- HP. auto.
    - by rewrite <- HP. }
  intros l l' HP. split; apply H; [done|by symmetry].
Qed.

#[export] Instance slob_core_perm st ps : Proper ((≡ₚ) ==> iff) (slob_core st ps).
Proof.
  assert (forall l l', l ≡ₚ l' -> slob_core st ps l -> slob_core st ps l') as H.
  { intros l l' HP [Hpg Had Hlv Hli Hon]. split; try done.
    - intros p Hp. destruct (Hpg p Hp) as [bl Hbl]. exists bl. by rewrite <- HP.
    - intros x. rewrite <- HP. auto. }
  intros l l' HP. split; apply H; [done|by symmetry].
Qed.

(** Every page of the allocator has an object on it. *)
Definition held (ps : gset Z) (live : list (Z * Z)) : Prop :=
  forall p, p ∈ ps -> live_on p live <> [].

#[export] Instance held_perm ps : Proper ((≡ₚ) ==> iff) (held ps).
Proof.
  assert (forall l l', l ≡ₚ l' -> held ps l -> held ps l') as H.
  { intros l l' HP Hl p Hp E. apply (Hl p Hp). apply Permutation_nil_r. by rewrite HP, E. }
  intros l l' HP. split; apply H; [done|by symmetry].
Qed.

#[export] Instance slob_inv_perm st ps : Proper ((≡ₚ) ==> iff) (slob_inv st ps).
Proof.
  assert (forall l l', l ≡ₚ l' -> slob_inv st ps l -> slob_inv st ps l') as H.
  { intros l l' HP [[Hc Hsl] HU Hpc Hus]. split; [split; [by rewrite <- HP|done]| |done|].
    - revert HU. change (held ps l -> held ps l'). by rewrite HP.
    - by rewrite <- HP. }
  intros l l' HP. split; apply H; [done|by symmetry].
Qed.

(** ** Frames *)

(** A page's invariant only depends on its own bytes and its own [struct page]. *)
Lemma page_inv_agree m m' pg p bl lv :
  agree m m' p (p + PAGE_SIZE) -> page_inv m pg p bl lv -> page_inv m' pg p bl lv.
Proof.
  intros Ha [Hok Hch Hun Hfl Hfg Hlv Hap Hdj Htot]. split; try done. eapply segment_agree; [|done].
  intros b Hb. apply blocks_ok_ordered in Hok.
  destruct (ordered_elem _ _ _ Hok Hb) as (Hb1 & Hb2 & Hb3). split; [done|].
  eapply agree_sub; [done|..]; unfold at_unit; rewrite ?page_size_units;
    pose proof SLOB_UNIT_pos; nia.
Qed.

(** Bytes of live objects may change freely. *)
Lemma page_inv_live_bytes m m' pg p bl lv c :
  c ∈ lv -> (forall a, a < at_unit p c.1 \/ at_unit p (c.1 + c.2) <= a -> m' a = m a) ->
  page_inv m pg p bl lv -> page_inv m' pg p bl lv.
Proof.
  intros Hc Ha [Hok Hch Hun Hfl Hfg Hlv Hap Hdj Htot]. split; try done. eapply segment_agree; [|done].
  intros b Hb. apply blocks_ok_ordered in Hok.
  destruct (ordered_elem _ _ _ Hok Hb) as (Hb1 & Hb2 & Hb3). split; [done|].
  intros x Hx. apply Ha. specialize (Hdj c b Hc Hb). unfold apart, at_unit in *.
  pose proof SLOB_UNIT_pos. nia.
Qed.

Lemma pages_apart p q a :
  (PAGE_SIZE | p) -> (PAGE_SIZE | q) -> p <> q -> p <= a < p + PAGE_SIZE ->
  a < q \/ q + PAGE_SIZE <= a.
Proof.
  intros [i ->] [j ->] Hne Ha. pose proof PAGE_SIZE_pos.
  destruct (Z.lt_trichotomy i j) as [Hlt|[->|Hlt]]; [left|done|right].
  - pose proof (Z.mul_le_mono_nonneg_r (i + 1) j PAGE_SIZE). lia.
  - pose proof (Z.mul_le_mono_nonneg_r (j + 1) i PAGE_SIZE). lia.
Qed.

(** ** The lists of partially free pages *)

Lemma on_list_add l p h q :
  ~ on_list l p -> on_list (list_add l p h) q <-> q = p \/ on_list l q.
Proof.
  intros Hp. unfold on_list. split.
  - intros [h' Hq]. destruct (decide (h' = h)) as [->|Hne].
    + rewrite list_add_head in Hq by done. apply elem_of_cons in Hq as [->|Hq]; eauto.
    + rewrite list_add_other in Hq by done. eauto.
  - intros [->|[h' Hq]].
    + exists h. rewrite list_add_head by done. set_solver.
    + exists h'. destruct (decide (h' = h)) as [->|Hne];
        [rewrite list_add_head by done; set_solver|by rewrite list_add_other].
Qed.

Lemma lists_ok_add l p h : ~ on_list l p -> lists_ok l -> lists_ok (list_add l p h).
Proof.
  intros Hp Hok. unfold lists_ok in *.
  assert (forall h', p ∉ list_elems l h') as Hn by (intros h' Hin; apply Hp; by exists h').
  assert (NoDup (p :: list_elems l free_slob_small ++ list_elems l free_slob_medium
                   ++ list_elems l free_slob_large)) as HN.
  { apply NoDup_cons. split; [rewrite !elem_of_app; firstorder|done]. }
  destruct h; rewrite list_add_head by done; rewrite !list_add_other by done; [done|..];
    (eapply NoDup_Permutation_proper; [|exact HN]); cbn [app].
  - symmetry. apply Permutation_middle.
  - rewrite !app_assoc. symmetry. apply Permutation_middle.
Qed.

Lemma on_list_del l p q :
  lists_ok l -> on_list l p -> on_list (list_del l p) q <-> q <> p /\ on_list l q.
Proof.
  intros Hok Hp. unfold on_list at 1. split.
  - intros [h Hq]. rewrite list_del_elems in Hq by done.
    apply list_elem_of_filter in Hq as [? ?]. split; [done|]. by exists h.
  - intros [Hne [h Hq]]. exists h. rewrite list_del_elems by done.
    by apply list_elem_of_filter.
Qed.

Lemma lists_ok_del l p : lists_ok l -> on_list l p -> lists_ok (list_del l p).
Proof.
  intros Hok Hp. unfold lists_ok. rewrite !list_del_elems by done.
  rewrite <- !filter_app. by apply NoDup_filter.
Qed.

(** ** Updating one page *)

(** The parts of the state that are not under the allocator's invariant. *)
Definition counters (st : slob) : Z * Z * Z * Z := (pcount st, free st, used_m st, claimed_m st).

Record page_step (st st' : slob) (sp : Z) : Prop := {
  ps_pages : forall q, q <> sp -> pages st' q = pages st q;
  ps_slab : PageSlab (pages st' sp) = PageSlab (pages st sp);
  ps_memory : forall a, a < sp \/ sp + PAGE_SIZE <= a -> memory st' a = memory st a;
  ps_alloc : page_allocator st' = page_allocator st;
  ps_counters : counters st' = counters st
}.

Lemma page_step_slab st st' sp q :
  page_step st st' sp -> PageSlab (pages st' q) = PageSlab (pages st q).
Proof.
  intros [Hpq Hps _ _ _]. destruct (decide (q = sp)) as [->|Hne]; [done|by rewrite Hpq].
Qed.

Lemma core_page_step st st' ps live live' sp bl' :
  slob_core st ps live -> sp ∈ ps -> page_step st st' sp ->
  page_inv (memory st') (pages st' sp) sp bl' (live_on sp live') ->
  (forall q, q <> sp -> live_on q live' ≡ₚ live_on q live) ->
  (forall x, x ∈ live' -> obj_ok ps x) ->
  lists_ok (free_lists st') ->
  (forall q, on_list (free_lists st') q <-> q ∈ ps /\ PageSlobFree (pages st' q) = true) ->
  slob_core st' ps live'.
Proof.
  intros [Hpg Had Hlv Hli Hon] Hsp [Hpq Hps Hm Ha _] Hinv Hoth Hlv' Hli' Hon'.
  split; try done.
  - intros q Hq. destruct (decide (q = sp)) as [->|Hne]; [by exists bl'|].
    destruct (Hpg q Hq) as [bl Hbl]. exists bl. rewrite Hpq, (Hoth q Hne) by done.
    eapply page_inv_agree; [|done]. intros a Ha'. apply Hm.
    destruct (Had q Hq) as (_ & Hdq & _), (Had sp Hsp) as (_ & Hdsp & _).
    by apply (pages_apart q sp a).
  - intros q Hq. rewrite Ha. auto.
Qed.

(** ** The contents of the objects *)

(** The bytes of the objects [live] are the same in [m'] as in [m]. *)
Definition keeps (live : list (Z * Z)) (m m' : mem) : Prop :=
  forall x a, x ∈ live -> x.1 <= a < x.1 + x.2 -> m' a = m a.

Lemma keeps_trans live m1 m2 m3 : keeps live m1 m2 -> keeps live m2 m3 -> keeps live m1 m3.
Proof. intros H1 H2 x a Hx Ha. by rewrite (H2 x), (H1 x). Qed.

(** The bytes of an object are in its page, in the units of its block. *)
Lemma obj_bytes st ps live x a :
  slob_core st ps live -> x ∈ live -> x.1 <= a < x.1 + x.2 ->
  let p := virt_to_page x.1 in
  p ∈ ps /\ (PAGE_SIZE | p) /\ p <= a < p + PAGE_SIZE /\
  at_unit p (obj_block p x).1 <= a < at_unit p ((obj_block p x).1 + (obj_block p x).2).
Proof.
  intros [Hpg Had Hlv _ _] Hx Ha p. destruct (Hlv x Hx) as (Hp & Hn & Hu). fold p in Hp.
  destruct (Had p Hp) as (_ & Hdiv & _). destruct (Hpg p Hp) as [bl Hbl].
  destruct (pi_live _ _ _ _ _ Hbl (obj_block p x) (live_on_elem p x live Hx eq_refl)) as (A1 & A2 & A3).
  pose proof (obj_at_unit p x Hdiv Hu) as Ex. pose proof (units_cover _ Hn).
  pose proof page_size_units. pose proof SLOB_UNIT_pos. unfold at_unit in *. cbn [obj_block fst snd] in *.
  split; [done|]. split; [done|]. nia.
Qed.

(** Writing only to blocks of one page that no object overlaps. *)
Lemma core_keeps st m' ps live0 live sp bl :
  slob_core st ps live0 -> live ⊆ live0 -> (PAGE_SIZE | sp) ->
  (forall b, b ∈ bl -> 0 <= b.1 /\ b.1 + b.2 <= page_units) ->
  (forall c b, c ∈ live_on sp live -> b ∈ bl -> apart c b) ->
  (forall a, outside sp bl a -> m' a = memory st a) -> keeps live (memory st) m'.
Proof.
  intros Hc Hsub Hsp Hbl Hap Hout x a Hx Ha. apply Hout. intros b Hb.
  destruct (obj_bytes st ps live0 x a Hc (Hsub x Hx) Ha) as (Hp & Hdiv & Hr & Ho).
  destruct (Hbl b Hb) as [Hb1 Hb2]. pose proof SLOB_UNIT_pos. pose proof page_size_units.
  destruct (decide (virt_to_page x.1 = sp)) as [E|Hne].
  - rewrite E in *. specialize (Hap _ b (live_on_elem sp x live Hx E) Hb).
    unfold apart, at_unit in *. nia.
  - pose proof (pages_apart _ sp a Hdiv Hsp Hne Hr). unfold at_unit. nia.
Qed.

(** ** Objects do not overlap *)

Lemma inv_disjoint st ps x y live :
  slob_core st ps (x :: y :: live) -> x.1 + x.2 <= y.1 \/ y.1 + y.2 <= x.1.
Proof.
  intros Hstr. pose proof Hstr as [Hpg Had Hlv _ _].
  destruct (Hlv x ltac:(set_solver)) as (Hx1 & Hx2 & Hx3).
  destruct (Hlv y ltac:(set_solver)) as (Hy1 & Hy2 & Hy3).
  pose proof (units_cover _ Hx2). pose proof (units_cover _ Hy2). pose proof SLOB_UNIT_pos.
  set (p := virt_to_page x.1) in *. set (q := virt_to_page y.1) in *.
  destruct (Had p Hx1) as (_ & Hdp & _), (Had q Hy1) as (_ & Hdq & _).
  pose proof (obj_at_unit p x Hdp Hx3) as Ex. pose proof (obj_at_unit q y Hdq Hy3) as Ey.
  destruct (Hpg p Hx1) as [bl Hbl], (Hpg q Hy1) as [bl' Hbl'].
  rewrite live_on_cons_eq in Hbl by done. destruct (decide (q = p)) as [E|Hne].
  - rewrite live_on_cons_eq in Hbl by done. destruct (pi_apart _ _ _ _ _ Hbl) as [Hap _].
    specialize (Hap (obj_block p y) ltac:(set_solver)). rewrite E in Ey.
    unfold apart, at_unit, obj_block in *. cbn [fst snd] in *. nia.
  - destruct (pi_live _ _ _ _ _ Hbl (obj_block p x)) as (A1 & A2 & A3); [set_solver|].
    destruct (pi_live _ _ _ _ _ Hbl' (obj_block q y)) as (B1 & B2 & B3).
    { apply live_on_elem; [set_solver|done]. }
    pose proof page_size_units. unfold at_unit, obj_block in *. cbn [fst snd] in *.
    pose proof (pages_apart p q p Hdp Hdq ltac:(done) ltac:(lia)).
    destruct Hdp as [i Hi], Hdq as [j Hj].
    destruct (Z.lt_trichotomy i j) as [Hlt|[->|Hlt]]; [left|congruence|right]; nia.
Qed.

Lemma core_disjoint st ps x y live :
  slob_core st ps (x :: live) -> y ∈ live -> x.1 + x.2 <= y.1 \/ y.1 + y.2 <= x.1.
Proof.
  intros H [l HP]%elem_of_Permutation. rewrite HP in H. by eapply inv_disjoint.
Qed.

(** Writing inside one object does not touch the others. *)
Lemma write_keeps st ps a n live m :
  slob_core st ps ((a, n) :: live) -> (forall x, x < a \/ a + n <= x -> m x = memory st x) ->
  keeps live (memory st) m.
Proof.
  intros Hc Hm y x Hy Hx. apply Hm.
  destruct (core_disjoint st ps (a, n) y live) as [?|?]; [done|done|..]; cbn [fst snd] in *; lia.
Qed.

(** ** slob_page_alloc *)

(** [slob_page_alloc] on a page with free blocks [bl] is first fit. *)
Lemma page_alloc_fit st sp bl n align :
  (PAGE_SIZE | sp) -> valid_align align -> 1 <= n <= PAGE_SIZE -> bl <> [] ->
  blocks_ok 0 bl -> chain (memory st) sp bl ->
  pg_freelist (pages st sp) = at_unit sp (first_off bl page_units) ->
  pg_units (pages st sp) = total bl ->
  match fit sp (SLOB_UNITS n) align bl with
  | None => slob_page_alloc st sp n align = Ok (st, None)
  | Some (x, bl') =>
    exists m',
      let st1 := set_page (set_memory st m') sp
                   (set_free (pages st sp) (total bl') (at_unit sp (first_off bl' page_units))) in
      slob_page_alloc st sp n align
      = Ok (if total bl' =? 0 then clear_slob_page_free st1 sp else st1, Some (at_unit sp x)) /\
      chain m' sp bl' /\
      (forall a, outside sp bl a -> m' a = memory st a)
  end.
Proof.
  intros Hsp Hal Hn Hne Hok Hch Hfl Hun. pose proof (units_of_size n Hn) as [Hu1 Hu2].
  assert (0 <= page_units) as Hpu by (pose proof page_units_range; lia).
  pose proof page_units_bound. pose proof PAGE_SIZE_bound.
  unfold slob_page_alloc. rewrite (int_small (SLOB_UNITS n)) by lia. rewrite Hfl, Hun.
  pose proof (blocks_ok_ordered _ _ Hok) as Hord.
  pose proof (scan_fit sp (SLOB_UNITS n) align bl Hsp Hal Hu1 Hne [] page_fuel (memory st)
                Hord Hch) as Hscan.
  assert (length bl <= page_fuel)%nat as Hf by (by apply ordered_fuel).
  specialize (Hscan Hf). cbn zeta in Hscan. cbn [app] in Hscan.
  change (prev_of sp []) with (@None Z) in Hscan.
  destruct (fit sp (SLOB_UNITS n) align bl) as [[x bl']|] eqn:Efit; [|by rewrite Hscan].
  destruct Hscan as (m' & -> & Hch' & Hout). exists m'. cbn [res_bind].
  destruct (fit_ok _ _ _ _ _ _ _ Hsp Hal Hu1 Hok Efit) as (Hok' & Htot & _ & _).
  pose proof (total_bound 0 bl Hord Hpu).
  pose proof (total_bound 0 bl' (blocks_ok_ordered _ _ Hok') Hpu).
  rewrite (int_small (total bl - SLOB_UNITS n)) by lia. rewrite <- Htot.
  split; [done|]. split; [done|]. done.
Qed.

Lemma page_fill_inv m pg p bl lv x u bl' m' pg' :
  page_inv m pg p bl lv -> blocks_ok 0 bl' -> chain m' p bl' -> 1 <= u ->
  total bl' = total bl - u ->
  (exists b, b ∈ bl /\ b.1 <= x /\ x + u <= b.1 + b.2) ->
  (forall c, c ∈ bl' -> exists b, b ∈ bl /\ b.1 <= c.1 /\ c.1 + c.2 <= b.1 + b.2) ->
  (forall c, c ∈ bl' -> apart (x, u) c) ->
  pg_units pg' = total bl' -> pg_freelist pg' = at_unit p (first_off bl' page_units) ->
  PageSlobFree pg' = bool_decide (bl' <> []) ->
  page_inv m' pg' p bl' ((x, u) :: lv).
Proof.
  intros [Hok Hch Hun Hfl Hfg Hlv Hap Hdj Htot] Hok' Hch' Hu Ht (b & Hb & Hb1 & Hb2) Hsub Hax
    Hun' Hfl' Hfg'.
  destruct (ordered_elem _ _ _ (blocks_ok_ordered _ _ Hok) Hb) as (Hb3 & Hb4 & Hb5).
  split; try done.
  - intros c [->|Hc]%elem_of_cons; [cbn; lia|auto].
  - split; [|done]. intros c Hc. specialize (Hdj c b Hc Hb). unfold apart in *. cbn. lia.
  - intros c d [->|Hc]%elem_of_cons Hd; [auto|].
    destruct (Hsub d Hd) as (e & He & ? & ?). specialize (Hdj c e Hc He). unfold apart in *. lia.
  - cbn. lia.
Qed.

Lemma obj_block_unit p x n : obj_block p (at_unit p x, n) = (x, SLOB_UNITS n).
Proof.
  unfold obj_block, at_unit. cbn. rewrite Z.add_simpl_l, Z.div_mul; [done|].
  pose proof SLOB_UNIT_pos. lia.
Qed.

(** The state after [slob_page_alloc] has left [bl'] of the page's free list. *)
Definition taken (st : slob) (sp : Z) (m' : mem) (bl' : list (Z * Z)) : slob :=
  let st1 := set_page (set_memory st m') sp
               (set_free (pages st sp) (total bl') (at_unit sp (first_off bl' page_units))) in
  if total bl' =? 0 then clear_slob_page_free st1 sp else st1.

Lemma taken_fields st sp m' bl' :
  let st' := taken st sp m' bl' in
  memory st' = m' /\ page_allocator st' = page_allocator st /\ counters st' = counters st /\
  (forall q, q <> sp -> pages st' q = pages st q) /\
  pg_units (pages st' sp) = total bl' /\
  pg_freelist (pages st' sp) = at_unit sp (first_off bl' page_units) /\
  PageSlab (pages st' sp) = PageSlab (pages st sp).
Proof.
  unfold taken. destruct (total bl' =? 0); cbn; rewrite !Z.eqb_refl; repeat (split; [done|]);
    (split; [|done]); intros q Hq%Z.eqb_neq; by rewrite !Hq.
Qed.

Lemma taken_flag st sp m' bl' :
  PageSlobFree (pages st sp) = true -> (total bl' = 0 <-> bl' = []) ->
  PageSlobFree (pages (taken st sp m' bl') sp) = bool_decide (bl' <> []).
Proof.
  intros Hflag Hz. unfold taken.
  destruct (Z.eqb_spec (total bl') 0) as [E|E]; cbn; rewrite !Z.eqb_refl; cbn; symmetry.
  - apply bool_decide_eq_false. intros []. by apply Hz.
  - rewrite Hflag. apply bool_decide_eq_true. intros H. by apply E, Hz.
Qed.

Lemma taken_step st sp m' bl bl' :
  blocks_ok 0 bl -> (forall a, outside sp bl a -> m' a = memory st a) ->
  page_step st (taken st sp m' bl') sp.
Proof.
  intros Hok Hout. destruct (taken_fields st sp m' bl') as (Em & Ea & Ec & Eq & _ & _ & Es).
  split; [done..| |done|done]. intros a Ha. rewrite Em. apply Hout. intros b Hb.
  destruct (ordered_elem _ _ _ (blocks_ok_ordered _ _ Hok) Hb) as (? & ? & ?).
  pose proof SLOB_UNIT_pos. rewrite page_size_units in Ha. unfold at_unit. nia.
Qed.

(** The page leaves its list exactly when it has become full. *)
Lemma taken_lists st ps live sp m' bl' :
  slob_core st ps live -> sp ∈ ps -> PageSlobFree (pages st sp) = true ->
  (total bl' = 0 <-> bl' = []) ->
  let st' := taken st sp m' bl' in
  lists_ok (free_lists st') /\
  forall q, on_list (free_lists st') q <-> q ∈ ps /\ PageSlobFree (pages st' q) = true.
Proof.
  intros [_ _ _ Hli Hon] Hsp Hflag Hz st'.
  assert (on_list (free_lists st) sp) as Hin by (by apply Hon).
  assert (free_lists st' = if total bl' =? 0 then list_del (free_lists st) sp else free_lists st)
    as El by (unfold st', taken; by destruct (_ =? 0)).
  rewrite El. split; [destruct (_ =? 0); [by apply lists_ok_del|done]|].
  intros q. destruct (decide (q = sp)) as [->|Hq].
  - unfold st'. rewrite (taken_flag _ _ _ _ Hflag Hz), bool_decide_eq_true.
    destruct (Z.eqb_spec (total bl') 0) as [E|E].
    + rewrite on_list_del by done. apply Hz in E. naive_solver.
    + assert (bl' <> []) by (intros H; by apply E, Hz). naive_solver.
  - destruct (taken_fields st sp m' bl') as (_ & _ & _ & Ep & _). unfold st'.
    rewrite (Ep q Hq), <- Hon. destruct (_ =? 0); [|done]. rewrite on_list_del by done. tauto.
Qed.

Lemma page_alloc_core st ps live sp n align :
  slob_core st ps live -> sp ∈ ps -> PageSlobFree (pages st sp) = true ->
  1 <= n <= PAGE_SIZE -> valid_align align ->
  exists st' r, slob_page_alloc st sp n align = Ok (st', r) /\
    match r with
    | None => st' = st
    | Some a =>
      slob_core st' ps ((a, n) :: live) /\ page_step st st' sp /\
      virt_to_page a = sp /\ (align <> 0 -> (align | a)) /\
      keeps live (memory st) (memory st')
    end.
Proof.
  intros Hstr Hsp Hflag Hn Hal. destruct (ss_pages _ _ _ Hstr sp Hsp) as [bl Hinv].
  pose proof Hinv as [Hok Hch Hun Hfl Hfg _ _ _ _].
  destruct (ss_addr _ _ _ Hstr sp Hsp) as (_ & Hdiv & _).
  rewrite Hflag in Hfg. symmetry in Hfg. apply bool_decide_eq_true in Hfg.
  pose proof (units_of_size n Hn) as [Hu1 Hu2]. assert (0 <= SLOB_UNITS n) as Hu0 by lia.
  pose proof (page_alloc_fit st sp bl n align Hdiv Hal Hn Hfg Hok Hch (Hfl Hfg) Hun) as Hfit.
  destruct (fit sp (SLOB_UNITS n) align bl) as [[x bl']|] eqn:Efit; [|by exists st, None].
  destruct Hfit as (m' & Heq & Hch' & Hout).
  exists (taken st sp m' bl'), (Some (at_unit sp x)). split; [exact Heq|]. clear Heq.
  destruct (fit_ok _ _ _ _ _ _ _ Hdiv Hal Hu1 Hok Efit) as (Hok' & Htot & Hin & Hap).
  pose proof (fit_sub _ _ _ _ _ _ Hdiv Hal Hu0 Efit) as Hsub.
  pose proof (total_zero 0 bl' (blocks_ok_ordered _ _ Hok') ltac:(lia)) as Hz.
  assert (0 <= x /\ x + SLOB_UNITS n <= page_units) as [Hx0 Hx1].
  { destruct Hin as (b & Hb & ? & ?).
    destruct (ordered_elem _ _ _ (blocks_ok_ordered _ _ Hok) Hb). lia. }
  assert (virt_to_page (at_unit sp x) = sp) as Evp by (apply virt_to_page_unit; [done|lia]).
  pose proof (taken_step st sp m' bl bl' Hok Hout) as Hstep.
  destruct (taken_fields st sp m' bl') as (Em & _ & _ & _ & Eu & Ef & _).
  destruct (taken_lists st ps live sp m' bl' Hstr Hsp Hflag Hz) as [Hli Hon].
  split; [|split; [done|split; [done|split; [intros Hne; by eapply fit_aligned|]]]].
  2:{ rewrite Em. eapply (core_keeps st _ ps live live sp bl); [done..| |apply Hinv|done].
      intros b Hb. destruct (ordered_elem _ _ _ (blocks_ok_ordered _ _ Hok) Hb). lia. }
  eapply (core_page_step st _ ps live); [done..| | | |done|done].
  - rewrite live_on_cons_eq, obj_block_unit, Em by done.
    eapply page_fill_inv; [exact Hinv|done..|by apply taken_flag].
  - intros q Hq. rewrite live_on_cons_ne; [done|]. cbn. congruence.
  - intros y [->|Hy]%elem_of_cons; [|by apply Hstr].
    split; [cbn [fst]; by rewrite Evp|]. split; [done|]. by apply unit_divide.
Qed.

(** ** slob_alloc *)

(** The pages that the loop of [slob_alloc] does not skip. *)
Definition eligible (st : slob) (n node sp : Z) : bool :=
  negb (CONFIG_NUMA && negb (node =? NUMA_NO_NODE) && negb (page_to_nid sp =? node))
  && (SLOB_UNITS n <=? ulong (pg_units (pages st sp))).

Lemma pick_some st n node l q0 :
  exists q, slob_pick st n node (Some q0) l = Some q /\
    (q = q0 \/ (q ∈ l /\ eligible st n node q = true)) /\
    pg_units (pages st q) <= pg_units (pages st q0) /\
    forall q', q' ∈ l -> eligible st n node q' = true -> pg_units (pages st q) <= pg_units (pages st q').
Proof.
  revert q0. induction l as [|sp l IH]; intros q0.
  { exists q0. split; [done|]. split; [by left|]. split; [lia|]. set_solver. }
  cbn [slob_pick]. unfold eligible.
  destruct (CONFIG_NUMA && _ && _) eqn:E1; cbn [negb andb].
  { destruct (IH q0) as (q & H1 & H2 & H3 & H4). exists q. split; [done|].
    split; [set_solver|]. split; [done|]. intros q' [->|Hq']%elem_of_cons; [|by apply H4].
    by rewrite E1. }
  destruct (Z.ltb_spec (ulong (pg_units (pages st sp))) (SLOB_UNITS n)) as [E2|E2].
  { destruct (IH q0) as (q & H1 & H2 & H3 & H4). exists q. split; [done|].
    split; [set_solver|]. split; [done|]. intros q' [->|Hq']%elem_of_cons; [|by apply H4].
    rewrite andb_true_iff. intros [_ ?%Z.leb_le]. lia. }
  set (q1 := if _ <? _ then sp else q0).
  assert (pg_units (pages st q1) <= pg_units (pages st q0) /\
          pg_units (pages st q1) <= pg_units (pages st sp) /\ (q1 = q0 \/ q1 = sp)) as (A & B & C).
  { unfold q1. destruct (Z.ltb_spec (pg_units (pages st sp)) (pg_units (pages st q0))); lia || auto with lia. }
  destruct (IH q1) as (q & H1 & H2 & H3 & H4). exists q. split; [done|]. split; [|split; [lia|]].
  - destruct H2 as [->|[H2 ?]]; [|set_solver]. destruct C as [C|C]; [by left|right].
    rewrite C, E1. split; [set_solver|]. cbn. by apply Z.leb_le.
  - intros q' [->|Hq']%elem_of_cons; [intros _; lia|by apply H4].
Qed.

(** The best fit among the pages [l]: one with enough free units, such that
    none with enough has fewer; none at all if no page has enough. *)
Definition best_page (st : slob) (n node : Z) (l : list Z) (r : option Z) : Prop :=
  match r with
  | None => forall q, q ∈ l -> eligible st n node q = false
  | Some q => q ∈ l /\ eligible st n node q = true /\
      forall q', q' ∈ l -> eligible st n node q' = true ->
        pg_units (pages st q) <= pg_units (pages st q')
  end.

Lemma best_page_skip st n node sp l r :
  eligible st n node sp = false -> best_page st n node l r -> best_page st n node (sp :: l) r.
Proof.
  intros E. destruct r as [q|]; cbn.
  - intros (H1 & H2 & H3). split; [set_solver|]. split; [done|].
    intros q' [->|Hq']%elem_of_cons; [congruence|auto].
  - intros H q [->|Hq]%elem_of_cons; auto.
Qed.

(** With [sp_alt] null before the loop, [slob_alloc] chooses the best page. *)
Lemma pick_none st n node l : best_page st n node l (slob_pick st n node None l).
Proof.
  induction l as [|sp l IH]; [intros q; set_solver|]. cbn [slob_pick].
  destruct (CONFIG_NUMA && _ && _) eqn:E1.
  { apply best_page_skip; [unfold eligible; by rewrite E1|done]. }
  destruct (Z.ltb_spec (ulong (pg_units (pages st sp))) (SLOB_UNITS n)) as [E2|E2].
  { apply best_page_skip; [unfold eligible; rewrite E1; by apply Z.leb_gt|done]. }
  assert (eligible st n node sp = true) as E.
  { unfold eligible. rewrite E1. by apply Z.leb_le. }
  rewrite Z.ltb_irrefl. destruct (pick_some st n node l sp) as (q & -> & H2 & H3 & H4).
  split; [set_solver|]. split; [destruct H2 as [->|[]]; done|].
  intros q' [->|Hq']%elem_of_cons; auto.
Qed.

(** Whatever the loop started with, the page it chooses is that one or one of
    the list. *)
Lemma pick_elem st n node l alt q :
  slob_pick st n node alt l = Some q -> alt = Some q \/ q ∈ l.
Proof.
  intros E. destruct alt as [q0|].
  - destruct (pick_some st n node l q0) as (q' & E' & H & _). rewrite E in E'.
    injection E' as <-. naive_solver.
  - pose proof (pick_none st n node l) as H. rewrite E in H. right. apply H.
Qed.

Lemma pick_on_list st n node alt h q :
  sp_alt_ok st alt -> slob_pick st n node alt (list_elems (free_lists st) h) = Some q ->
  on_list (free_lists st) q.
Proof. intros Hok [->|H]%pick_elem; [done|by exists h]. Qed.

(** What no section under the lock touches: the [PG_slab] flags, the page
    allocator and the counters. *)
Record locked_step (st st' : slob) : Prop := {
  lk_slab : forall q, PageSlab (pages st' q) = PageSlab (pages st q);
  lk_alloc : page_allocator st' = page_allocator st;
  lk_counters : counters st' = counters st
}.

Lemma page_step_locked st st' sp : page_step st st' sp -> locked_step st st'.
Proof. intros H. split; [intros q; by eapply page_step_slab|apply H..]. Qed.

Lemma locked_step_trans st1 st2 st3 :
  locked_step st1 st2 -> locked_step st2 st3 -> locked_step st1 st3.
Proof. intros [A1 A2 A3] [B1 B2 B3]. split; [intros q; by rewrite B1|congruence..]. Qed.

Lemma str_locked st st' ps live live' :
  slob_str st ps live -> locked_step st st' -> slob_core st' ps live' -> slob_str st' ps live'.
Proof. intros [_ Hsl] [Hs _ _] H. split; [done|]. intros q. by rewrite Hs. Qed.

(** ** A new page *)

Lemma fresh_page_inv m pg b :
  (PAGE_SIZE | b) -> pg_units pg = page_units -> pg_freelist pg = b -> PageSlobFree pg = true ->
  page_inv (set_slob m b page_units (b + page_units * SLOB_UNIT)) pg b [(0, page_units)] [].
Proof.
  intros Hb Hu Hf Hfg. pose proof page_units_range.
  assert (at_unit b 0 = b) as E0 by (unfold at_unit; lia). split.
  - cbn. lia.
  - split; [|done]. cbn [first_off]. rewrite <- E0 at 1.
    change (b + page_units * SLOB_UNIT) with (at_unit b page_units).
    apply set_slob_header; (done || lia).
  - cbn. lia.
  - intros _. cbn. by rewrite E0.
  - by rewrite Hfg.
  - set_solver.
  - done.
  - set_solver.
  - cbn. lia.
Qed.

Lemma fill_page_at st b l :
  pages (slob_fill_page st b b l) b =
  {| pg_units := page_units; pg_freelist := b; PageSlobFree := true;
     PageSlab := PageSlab (pages st b) |}.
Proof. unfold slob_fill_page. cbn. by rewrite !Z.eqb_refl. Qed.

(** A page that the caller took from the page allocator. *)
Definition own_page (st : slob) (b : Z) : Prop :=
  0 < b /\ (PAGE_SIZE | b) /\ page_used (page_allocator st) b = true.

Lemma fill_core st ps live b l :
  slob_core st ps live -> b ∉ ps -> own_page st b ->
  let st' := slob_fill_page st b b l in
  slob_core st' ({[b]} ∪ ps) live /\ locked_step st st' /\
  page_inv (memory st') (pages st' b) b [(0, page_units)] [] /\
  keeps live (memory st) (memory st').
Proof.
  intros [Hpg Had Hlv Hli Hon] Hnb (Hb0 & Hdiv & Hused) st'.
  assert (~ on_list (free_lists st) b) as Hnl by (rewrite Hon; tauto).
  assert (live_on b live = []) as Hlb by (by eapply live_on_nil).
  assert (page_inv (memory st') (pages st' b) b [(0, page_units)] []) as Hpb.
  { apply fresh_page_inv; unfold st'; by rewrite ?fill_page_at. }
  assert (forall q, q <> b -> pages st' q = pages st q) as Hpq.
  { intros q Hq. apply Z.eqb_neq in Hq. unfold st', slob_fill_page. cbn. by rewrite !Hq. }
  assert (forall q, q ∈ ps -> q <> b) as Hqb by (intros q Hq ->; done).
  split; [|split; [|split; [done|]]].
  - split.
    + intros q [->%elem_of_singleton|Hq]%elem_of_union; [exists [(0, page_units)]; by rewrite Hlb|].
      destruct (Hpg q Hq) as [bl Hbl]. exists bl. rewrite Hpq by auto.
      eapply page_inv_agree; [|done]. intros x Hx.
      destruct (Had q Hq) as (_ & Hdq & _). pose proof page_units_range.
      pose proof (pages_apart q b x Hdq Hdiv (Hqb q Hq) Hx) as Hap.
      change (memory st') with (set_slob (memory st) b page_units (b + page_units * SLOB_UNIT)).
      apply set_slob_out; [lia|]. rewrite page_size_units in Hap. lia.
    + intros q [->%elem_of_singleton|Hq]%elem_of_union; [done|]. by apply Had.
    + intros x Hx. destruct (Hlv x Hx) as (? & ? & ?). split; [set_solver|done].
    + by apply lists_ok_add.
    + intros q. change (free_lists st') with (list_add (free_lists st) b l).
      rewrite on_list_add by done. destruct (decide (q = b)) as [->|Hq].
      * unfold st'. rewrite fill_page_at. set_solver.
      * rewrite Hpq, Hon by done. set_solver.
  - split; [|done..]. intros q. destruct (decide (q = b)) as [->|Hq]; [|by rewrite Hpq].
    unfold st'. by rewrite fill_page_at.
  - pose proof page_units_range.
    eapply (core_keeps st _ ps live live b [(0, page_units)]); [by split|done|done| | |].
    + intros c ->%list_elem_of_singleton. cbn. lia.
    + rewrite Hlb. set_solver.
    + intros x Hx. specialize (Hx (0, page_units) ltac:(set_solver)). cbn in Hx.
      change (memory st') with (set_slob (memory st) b page_units (b + page_units * SLOB_UNIT)).
      apply set_slob_out; [lia|]. unfold at_unit in Hx. lia.
Qed.

Lemma virt_to_page_page p : (PAGE_SIZE | p) -> virt_to_page p = p.
Proof.
  intros H. pose proof page_units_range.
  rewrite <- (virt_to_page_unit p 0) at 2; [|done|lia]. f_equal. unfold at_unit. lia.
Qed.

Lemma skip_page p align :
  (PAGE_SIZE | p) -> valid_align align -> align <= PAGE_SIZE -> skip p align 0 = 0.
Proof.
  intros Hp Hal Hle. unfold skip. destruct (Z.eqb_spec align 0) as [|Hne]; [done|].
  destruct Hal as [|Hal]; [done|]. replace (at_unit p 0) with p by (unfold at_unit; lia).
  assert (align | p) as [x Hx].
  { etrans; [|exact Hp]. apply pow2_divide; [done| |done].
    exists PAGE_SHIFT. pose proof PAGE_SHIFT_range. split; [lia|done]. }
  destruct (ALIGN_ge p align Hal) as [H1 H2]. destruct (ALIGN_divide p align Hal) as [y Hy].
  pose proof (pow2_pos' _ Hal). assert (y = x) by nia. subst y.
  rewrite Hy, Hx, Z.sub_diag, Z.div_0_l; [done|]. pose proof SLOB_UNIT_pos. lia.
Qed.

(** The second section under the lock: the request is served from the new
    page. *)
Lemma fill_alloc_core st ps live b l n align :
  slob_core st ps live -> b ∉ ps -> own_page st b ->
  1 <= n <= PAGE_SIZE -> valid_align align -> align <= PAGE_SIZE ->
  exists st' a, slob_page_alloc (slob_fill_page st b b l) b n align = Ok (st', Some a) /\
    virt_to_page a = b /\ slob_core st' ({[b]} ∪ ps) ((a, n) :: live) /\
    locked_step st st' /\ (align <> 0 -> (align | a)) /\ keeps live (memory st) (memory st').
Proof.
  intros Hc Hnb Hown Hn Hal Hle. pose proof Hown as (_ & Hdiv & _).
  destruct (fill_core st ps live b l Hc Hnb Hown) as (Hc1 & Hlk & Hpb & Hk1).
  set (st1 := slob_fill_page st b b l) in *.
  assert (PageSlobFree (pages st1 b) = true) as Hfg by (unfold st1; by rewrite fill_page_at).
  destruct (page_alloc_core st1 ({[b]} ∪ ps) live b n align) as (st2 & r & Heq & Hr);
    [done|set_solver|done..|].
  destruct Hpb as [Hok Hch Hun Hfl _ _ _ _ _].
  pose proof (page_alloc_fit st1 b [(0, page_units)] n align Hdiv Hal Hn ltac:(done) Hok Hch
                (Hfl ltac:(done)) Hun) as Hfit.
  cbn [fit] in Hfit. rewrite skip_page in Hfit by done.
  pose proof (units_of_size n Hn). destruct (Z.leb_spec (SLOB_UNITS n + 0) page_units); [|lia].
  destruct Hfit as (m' & Heq' & _). rewrite Heq in Heq'.
  destruct r as [p|]; [|done]. destruct Hr as (Hc2 & Hstep & Hp & Hpal & Hk2).
  exists st2, p. split; [done|]. split; [done|]. split; [done|].
  split; [|split; [done|by eapply keeps_trans]].
  eapply locked_step_trans; [done|]. by eapply page_step_locked.
Qed.

(** Changing the page allocator's private state is harmless as long as our
    pages stay ours. *)
Lemma core_set_allocator st ps live a r :
  slob_core st ps live -> (forall p, p ∈ ps -> page_used a p = true) ->
  slob_core (set_allocator st a r) ps live.
Proof.
  intros [Hpg Had Hlv Hli Hon] Ha. split; try done.
  intros p Hp. destruct (Had p Hp) as (? & ? & _). auto.
Qed.

(** Only the [PG_slab] flag of a page changes. *)
Lemma core_set_slab st ps live p b :
  slob_core st ps live -> slob_core (set_page st p (set_slab (pages st p) b)) ps live.
Proof.
  intros [Hpg Had Hlv Hli Hon]. set (st' := set_page _ _ _).
  assert (forall q, pg_units (pages st' q) = pg_units (pages st q) /\
            pg_freelist (pages st' q) = pg_freelist (pages st q) /\
            PageSlobFree (pages st' q) = PageSlobFree (pages st q)) as Hq.
  { intros q. unfold st'. cbn. by destruct (Z.eqb_spec q p) as [->|]. }
  split; try done.
  - intros q Hin. destruct (Hpg q Hin) as [bl Hbl]. exists bl. destruct (Hq q) as (E1 & E2 & E3).
    destruct Hbl. split; try done; by rewrite ?E1, ?E2, ?E3.
  - intros q. destruct (Hq q) as (_ & _ & ->). apply Hon.
Qed.

(** A page that the allocator does not hold may become anything. *)
Lemma core_set_outside st ps live p pg :
  slob_core st ps live -> p ∉ ps -> slob_core (set_page st p pg) ps live.
Proof.
  intros [Hpg Had Hlv Hli Hon] Hp.
  assert (forall q, q ∈ ps -> pages (set_page st p pg) q = pages st q) as Hq.
  { intros q Hin. cbn. rewrite (proj2 (Z.eqb_neq q p)) by set_solver. done. }
  split; try done.
  - intros q Hin. rewrite Hq by done. by apply Hpg.
  - intros q. change (free_lists (set_page st p pg)) with (free_lists st). rewrite Hon.
    split; intros [Hin H]; (split; [done|]); by rewrite Hq in * by done.
Qed.

Lemma core_set_counters st ps live pc fr us cl :
  slob_core st ps live -> slob_core (set_counters st pc fr us cl) ps live.
Proof. intros []. by split. Qed.

Lemma alloc_new_page_str st ps live l n gfp align node :
  slob_str st ps live -> 1 <= n <= PAGE_SIZE -> valid_align align -> align <= PAGE_SIZE ->
  exists st' r, slob_alloc_new_page st l n gfp align node = Ok (st', r) /\
    match r with
    | None => slob_str st' ps live /\ counters st' = counters st /\ memory st' = memory st
    | Some a =>
      (virt_to_page a ∉ ps) /\ slob_str st' ({[virt_to_page a]} ∪ ps) ((a, n) :: live) /\
      counters st' = (ulong (pcount st + 1), free st, used_m st, int (claimed_m st + PAGE_SIZE)) /\
      (align <> 0 -> (align | a)) /\ keeps live (memory st) (memory st')
    end.
Proof.
  intros [Hcore Hsl] Hn Hal Hle. unfold slob_alloc_new_page, slob_new_pages.
  set (nid := if _ && _ then _ else _).
  destruct (alloc_pages_node (page_allocator st) nid (Z.land gfp (Z.lnot GFP_ZERO)) 0)
    as [r a] eqn:Ha.
  assert (slob_core (set_allocator st a (reclaim_state st)) ps live) as H1.
  { apply core_set_allocator; [done|]. intros p Hp.
    eapply alloc_pages_keeps; [exact Ha|]. by apply Hcore. }
  destruct r as [b|]; [|by eexists _, None].
  destruct (alloc_pages_fresh _ _ _ _ _ _ Ha) as (Hb0 & Hdiv & Hfresh & Hused).
  rewrite (virt_to_page_page b Hdiv).
  assert (b ∉ ps) as Hnb.
  { intros Hb. destruct (ss_addr _ _ _ Hcore b Hb) as (_ & _ & ?). congruence. }
  set (st1 := set_allocator st a (reclaim_state st)) in *.
  set (st2 := set_page st1 b (set_slab (pages st1 b) true)).
  assert (slob_core st2 ps live) as H2 by by apply core_set_slab.
  destruct (fill_alloc_core st2 ps live b l n align H2 Hnb)
    as (st3 & p & -> & Ep & H3 & [Hlk1 Hlk2 Hlk3] & Hpal & Hk); [done..|].
  cbn [res_bind]. eexists _, (Some p). split; [done|]. rewrite Ep. split; [done|].
  injection Hlk3 as C1 C2 C3 C4. split; [|split; [|split; [done|exact Hk]]].
  - split; [by apply core_set_counters|]. intros q. cbn. rewrite Hlk1. unfold st2. cbn.
    destruct (Z.eqb_spec q b) as [->|Hq]; cbn.
    + symmetry. apply bool_decide_eq_true. set_solver.
    + rewrite Hsl. apply bool_decide_ext. set_solver.
  - unfold counters. cbn. by rewrite C1, C2, C3, C4.
Qed.

(** ** The client's bytes *)

(** Writing inside a live object, as its owner may, breaks nothing: every page
    keeps its free list. *)
Lemma page_write_live st ps live a n m' p bl :
  slob_core st ps live -> (a, n) ∈ live ->
  (forall x, x < a \/ a + n <= x -> m' x = memory st x) -> p ∈ ps ->
  page_inv (memory st) (pages st p) p bl (live_on p live) ->
  page_inv m' (pages st p) p bl (live_on p live).
Proof.
  intros Hstr Hin Hm Hp Hbl. pose proof Hstr as [Hpg Had Hlv Hli Hon].
  destruct (Hlv _ Hin) as (Hap & Hn & Hu). cbn [fst snd] in *.
  destruct (Had p Hp) as (_ & Hdp & _). destruct (virt_to_page_spec a) as [Hd Hr].
  destruct (decide (virt_to_page a = p)) as [E|Hne].
  - eapply page_inv_live_bytes; [|
      |exact Hbl].
    { unfold live_on. apply list_elem_of_fmap. exists (a, n). split; [done|].
      by apply list_elem_of_filter. }
    intros x Hx. apply Hm. pose proof (obj_at_unit p (a, n) Hdp Hu) as Ea. cbn [fst] in Ea.
    pose proof (units_cover n Hn). rewrite Ea in Hx.
    rewrite <- at_unit_add, Ea in Hx. cbn [snd obj_block] in Hx. lia.
  - eapply page_inv_agree; [|exact Hbl]. intros x Hx. apply Hm.
    pose proof (pages_apart p (virt_to_page a) x Hdp Hd ltac:(done) Hx) as Hx'.
    destruct (Hpg _ Hap) as [bl' [_ _ _ _ _ Hlive _ _ _]].
    assert (obj_block (virt_to_page a) (a, n) ∈ live_on (virt_to_page a) live) as Hob.
    { unfold live_on. apply list_elem_of_fmap. exists (a, n). split; [done|].
      by apply list_elem_of_filter. }
    destruct (Hlive _ Hob) as (Hl1 & Hl2 & Hl3).
    pose proof (obj_at_unit (virt_to_page a) (a, n) Hd Hu) as Ea. cbn [fst] in Ea.
    pose proof (units_cover n Hn). unfold at_unit in Ea. cbn [snd obj_block fst] in *.
    pose proof page_size_units. pose proof SLOB_UNIT_pos. nia.
Qed.

Lemma core_write_live st ps live a n m' :
  slob_core st ps live -> (a, n) ∈ live ->
  (forall x, x < a \/ a + n <= x -> m' x = memory st x) ->
  slob_core (set_memory st m') ps live.
Proof.
  intros Hstr Hin Hm. pose proof Hstr as [Hpg Had Hlv Hli Hon]. split; try done.
  intros p Hp. destruct (Hpg p Hp) as [bl Hbl]. exists bl.
  exact (page_write_live st ps live a n m' p bl Hstr Hin Hm Hp Hbl).
Qed.

Lemma str_write_live st ps live a n m' :
  slob_str st ps live -> (a, n) ∈ live ->
  (forall x, x < a \/ a + n <= x -> m' x = memory st x) ->
  slob_str (set_memory st m') ps live.
Proof. intros [Hc Hsl] ??. split; [by eapply core_write_live|done]. Qed.

Lemma str_set_counters st ps live pc fr us cl :
  slob_str st ps live -> slob_str (set_counters st pc fr us cl) ps live.
Proof. intros [? ?]. split; [by apply core_set_counters|done]. Qed.

Lemma live_on_cons_nonempty p x live : live_on p live <> [] -> live_on p (x :: live) <> [].
Proof.
  intros H. destruct (decide (virt_to_page x.1 = p)).
  - by rewrite live_on_cons_eq.
  - by rewrite live_on_cons_ne.
Qed.

(** ** slob_alloc as a whole *)

(** How the page counters move with the set of pages. *)
Definition pages_step (st st' : slob) (ps ps' : gset Z) (p : Z) : Prop :=
  (p ∈ ps /\ ps' = ps /\ pcount st' = pcount st /\ claimed_m st' = claimed_m st) \/
  ((p ∉ ps) /\ ps' = {[p]} ∪ ps /\ pcount st' = ulong (pcount st + 1) /\
   claimed_m st' = int (claimed_m st + PAGE_SIZE)).

(** The outcome of [slob_alloc] on a state with the pages [ps]. *)
Definition alloc_post (st : slob) (ps : gset Z) (live : list (Z * Z)) (n align : Z)
    (st' : slob) (r : option Z) : Prop :=
  match r with
  | None =>
    slob_str st' ps live /\ pcount st' = pcount st /\ used_m st' = used_m st /\
    claimed_m st' = claimed_m st /\ memory st' = memory st
  | Some a => exists ps',
    slob_str st' ps' ((a, n) :: live) /\ used_m st' = int (used_m st + n) /\
    pages_step st st' ps ps' (virt_to_page a) /\ (align <> 0 -> (align | a)) /\
    keeps live (memory st) (memory st')
  end.

Lemma alloc_finish_str st ps live a n gfp :
  slob_str st ps ((a, n) :: live) ->
  let st' := slob_alloc_finish st a n gfp in
  slob_str st' ps ((a, n) :: live) /\ pcount st' = pcount st /\
  used_m st' = int (used_m st + n) /\ claimed_m st' = claimed_m st /\
  keeps live (memory st) (memory st').
Proof.
  intros H st'. assert (keeps live (memory st) (memory st')) as Hk.
  { unfold st', slob_alloc_finish. destruct (_ =? 0); [done|].
    apply (write_keeps st ps a n); [apply H|]. intros x Hx. by apply memset_out. }
  unfold st', slob_alloc_finish in *. destruct (_ =? 0); (split; [|done]);
    apply str_set_counters; [done|].
  apply (str_write_live _ _ _ a n); [done|set_solver|]. intros x Hx. by apply memset_out.
Qed.

Lemma alloc_grow_str st st1 ps live n gfp align node :
  slob_str st1 ps live -> 1 <= n <= PAGE_SIZE -> valid_align align -> align <= PAGE_SIZE ->
  counters st1 = (pcount st, free st1, used_m st, claimed_m st) -> memory st1 = memory st ->
  exists st' r,
    (let! (st, b) := slob_alloc_new_page st1 (slob_list_for n) n gfp align node in
     match b with
     | None => Ok (st, None)
     | Some b => Ok (slob_alloc_finish st b n gfp, Some b)
     end) = Ok (st', r) /\ alloc_post st ps live n align st' r.
Proof.
  intros H1 Hn Hal Hle Ec Em. injection Ec as E1 E2 E3.
  destruct (alloc_new_page_str st1 ps live (slob_list_for n) n gfp align node H1 Hn Hal Hle)
    as (st2 & r & -> & Hr). cbn [res_bind]. destruct r as [a|].
  - destruct Hr as (Hna & H2 & Hc & Hd & Hk). injection Hc as C1 C2 C3 C4.
    destruct (alloc_finish_str st2 _ _ a n gfp H2) as (F1 & F2 & F3 & F4 & F5).
    eexists _, (Some a). split; [done|]. eexists. split; [exact F1|]. split; [congruence|].
    split; [|split; [done|rewrite <- Em; by eapply keeps_trans]].
    right. split; [done|]. split; [done|]. split; congruence.
  - destruct Hr as (H2 & Hc & Hm). injection Hc as C1 C2 C3 C4. exists st2, None.
    split; [done|]. split; [done|]. split; [congruence|]. split; [congruence|]. split; congruence.
Qed.

(** The first section under the lock. *)
Lemma search_core st ps live alt n align node :
  slob_core st ps live -> sp_alt_ok st alt -> 1 <= n <= PAGE_SIZE -> valid_align align ->
  exists st' r, slob_alloc_search st alt n align node = Ok (st', r) /\ locked_step st st' /\
    match r with
    | None => st' = st
    | Some a => slob_core st' ps ((a, n) :: live) /\ virt_to_page a ∈ ps /\
        (align <> 0 -> (align | a)) /\ keeps live (memory st) (memory st')
    end.
Proof.
  intros Hcore Halt Hn Hal. unfold slob_alloc_search.
  destruct (slob_pick st n node alt _) as [sp|] eqn:Epick; [|by exists st, None].
  pose proof (proj1 (ss_on _ _ _ Hcore sp) (pick_on_list _ _ _ _ _ _ Halt Epick)) as [Hsp Hfg].
  destruct (page_alloc_core st ps live sp n align Hcore Hsp Hfg Hn Hal) as (st1 & r & -> & Hr).
  exists st1, r. split; [done|]. destruct r as [a|]; [|by subst].
  destruct Hr as (H1 & Hstep & <- & Hd). split; [by eapply page_step_locked|done].
Qed.

Lemma slob_alloc_str st ps live alt n gfp align node :
  slob_str st ps live -> sp_alt_ok st alt -> 1 <= n <= PAGE_SIZE -> valid_align align -> align <= PAGE_SIZE ->
  exists st' r, slob_alloc st alt n gfp align node = Ok (st', r) /\
    alloc_post st ps live n align st' r.
Proof.
  intros Hstr Halt Hn Hal Hle. unfold slob_alloc.
  destruct (search_core st ps live alt n align node Hstr Halt Hn Hal) as (st1 & r & -> & Hlk & Hr).
  cbn [res_bind]. destruct r as [a|].
  - destruct Hr as (H1 & Hpa & Hd & Hk). cbn [res_bind]. set (st2 := set_counters st1 _ _ _ _).
    assert (slob_str st2 ps ((a, n) :: live)) as H2.
    { apply str_set_counters. by eapply str_locked. }
    destruct (alloc_finish_str st2 ps _ a n gfp H2) as (F1 & F2 & F3 & F4 & F5).
    eexists _, (Some a). split; [done|].
    pose proof (lk_counters _ _ Hlk) as Hc. injection Hc as C1 C2 C3 C4.
    exists ps. split; [done|]. split; [rewrite F3; cbn; congruence|].
    split; [|split; [done|by eapply keeps_trans]]. left. split; [done|]. split; [done|]. rewrite F2, F4. cbn. split; congruence.
  - subst st1. apply alloc_grow_str; (done || by apply str_set_counters).
Qed.

(** ** slob_free *)

Lemma join_nonempty o u bl : join o u bl <> [].
Proof. destruct bl as [|[o' s'] r]; cbn; [done|]. by destruct (_ =? _). Qed.

Lemma give_back_nonempty o u bl : give_back o u bl <> [].
Proof.
  destruct bl as [|[o' s'] r]; cbn [give_back]; [done|].
  destruct (o <? o'); [apply join_nonempty|]. destruct (_ =? _); [apply join_nonempty|done].
Qed.

Lemma page_give_inv m pg p bl lv o u m' pg' :
  page_inv m pg p bl ((o, u) :: lv) -> chain m' p (give_back o u bl) ->
  pg_units pg' = total bl + u -> pg_freelist pg' = at_unit p (first_off (give_back o u bl) page_units) ->
  PageSlobFree pg' = true -> page_inv m' pg' p (give_back o u bl) lv.
Proof.
  intros [Hok Hch Hun Hfl Hfg Hlv [Hap1 Hap] Hdj Htot] Hch' Hun' Hfl' Hfg'.
  destruct (Hlv (o, u) ltac:(set_solver)) as (Ho & Hu & Hou). cbn in Ho, Hu, Hou.
  destruct (give_back_ok 0 o u bl) as [Hok' Htot']; [done..| |].
  { intros c Hc. apply Hdj; [set_solver|done]. }
  split; try done.
  - lia.
  - rewrite Hfg'. symmetry. apply bool_decide_eq_true, give_back_nonempty.
  - intros c Hc. apply Hlv. set_solver.
  - intros c b Hc. destruct (Hlv c ltac:(set_solver)) as (_ & Hc2 & _).
    apply give_back_apart; [done|apply apart_sym; auto|].
    intros d Hd. apply Hdj; [set_solver|done].
  - cbn in Htot. lia.
Qed.

Lemma total_pos lv : (forall c, c ∈ lv -> 1 <= c.2) -> 0 <= total lv /\ (total lv = 0 -> lv = []).
Proof.
  induction lv as [|c r IH]; intros H; [done|]. cbn [total].
  destruct IH as [IH _]; [set_solver|]. specialize (H c ltac:(set_solver)). split; lia.
Qed.

(** The three outcomes of [slob_free], on a page [p] that holds the block
    [(o, u)], as C updates of the state. *)
Section Free.
Context (st : slob) (ps : gset Z) (live : list (Z * Z)) (a n : Z).
Context (Hstr : slob_core st ps ((a, n) :: live)).

Let p : Z := virt_to_page a.
Let o : Z := (obj_block p (a, n)).1.
Let u : Z := SLOB_UNITS n.

Lemma free_facts :
  p ∈ ps /\ 0 < p /\ (PAGE_SIZE | p) /\ 1 <= n <= PAGE_SIZE /\ a = at_unit p o /\
  1 <= u <= page_units /\ 0 <= o /\ o + u <= page_units /\
  (forall q, q <> p -> live_on q ((a, n) :: live) = live_on q live) /\
  live_on p ((a, n) :: live) = (o, u) :: live_on p live.
Proof using All.
  destruct Hstr as [Hpg Had Hlv Hli Hon].
  destruct (Hlv (a, n) ltac:(set_solver)) as (Hp & Hn & Hu). cbn [fst snd] in *. fold p in Hp.
  destruct (Had p Hp) as (Hp0 & Hdiv & _).
  assert (live_on p ((a, n) :: live) = (o, u) :: live_on p live) as El by (by apply live_on_cons_eq).
  destruct (Hpg p Hp) as [bl Hinv]. rewrite El in Hinv.
  destruct (pi_live _ _ _ _ _ Hinv (o, u)) as (Ho & Hu1 & Hou); [set_solver|].
  cbn [fst snd] in Ho, Hu1, Hou. split; [done|]. split; [done|]. split; [done|]. split; [done|].
  split; [symmetry; by apply (obj_at_unit p (a, n))|].
  split; [lia|]. split; [done|]. split; [done|]. split; [|done].
  intros q Hq. by apply live_on_cons_ne.
Qed.

(** Giving the block back writes only to it and to the free blocks. *)
Lemma free_keeps bl m' :
  page_inv (memory st) (pages st p) p bl ((o, u) :: live_on p live) ->
  (forall x, outside p ((o, u) :: bl) x -> m' x = memory st x) -> keeps live (memory st) m'.
Proof using All.
  intros Hinv Hout. destruct free_facts as (Hp & Hp0 & Hdiv & Hn & Ea & Hu & Ho & Hou & _).
  destruct Hinv as [Hok _ _ _ _ _ [Hap _] Hdj _].
  eapply (core_keeps st _ ps ((a, n) :: live) live p ((o, u) :: bl)); [done| |done| | |done].
  - intros x Hx. set_solver.
  - intros b [->|Hb]%elem_of_cons; [cbn [fst snd]; lia|].
    destruct (ordered_elem _ _ _ (blocks_ok_ordered _ _ Hok) Hb). lia.
  - intros c b Hc [->|Hb]%elem_of_cons; [apply apart_sym; auto|apply Hdj; [set_solver|done]].
Qed.

(** The last object of a page: the page leaves the allocator. *)
Lemma free_release_core bl :
  page_inv (memory st) (pages st p) p bl ((o, u) :: live_on p live) ->
  total bl + u = page_units ->
  let st1 := if PageSlobFree (pages st p) then clear_slob_page_free st p else st in
  slob_core st1 (ps ∖ {[p]}) live /\ locked_step st st1 /\ live_on p live = [].
Proof using All.
  intros Hinv Htot st1.
  destruct free_facts as (Hp & Hp0 & Hdiv & Hn & Ea & Hu & Ho & Hou & Hoth & El).
  destruct Hstr as [Hpg Had Hlv Hli Hon].
  assert (live_on p live = []) as Hnil.
  { destruct (total_pos (live_on p live)) as [_ Hz].
    { intros c Hc. apply (pi_live _ _ _ _ _ Hinv). set_solver. }
    apply Hz. pose proof (pi_total _ _ _ _ _ Hinv) as H. cbn in H. lia. }
  assert (forall q, q <> p -> pages st1 q = pages st q) as Hpq.
  { intros q Hq. apply Z.eqb_neq in Hq. unfold st1. destruct (PageSlobFree _); cbn; by rewrite ?Hq. }
  assert (forall q, on_list (free_lists st1) q <-> q <> p /\ on_list (free_lists st) q) as Hon1.
  { intros q. unfold st1. destruct (PageSlobFree (pages st p)) eqn:E; cbn.
    - apply on_list_del; [done|]. by apply Hon.
    - split; [|tauto]. intros H. split; [|done]. intros Eq. rewrite Eq in H.
      apply Hon in H as [_ H]. congruence. }
  split; [|split; [|done]].
  - split.
    + intros q [Hq Hqp]%elem_of_difference. assert (q <> p) as Hne by set_solver.
      destruct (Hpg q Hq) as [bl' Hbl']. exists bl'. rewrite (Hoth q Hne) in Hbl'.
      replace (memory st1) with (memory st) by (unfold st1; by destruct (PageSlobFree _)).
      by rewrite Hpq.
    + intros q [Hq _]%elem_of_difference. unfold st1. destruct (PageSlobFree _); by apply Had.
    + intros x Hx. destruct (Hlv x ltac:(set_solver)) as (? & ? & ?). split; [|done].
      apply elem_of_difference. split; [done|]. intros Hxp%elem_of_singleton.
      pose proof (live_on_elem p x live Hx Hxp) as H'. rewrite Hnil in H'. set_solver.
    + unfold st1. destruct (PageSlobFree (pages st p)) eqn:E; [|done].
      apply lists_ok_del; [done|]. by apply Hon.
    + intros q. rewrite Hon1, Hon.
      destruct (decide (q = p)) as [->|Hne]; [set_solver|]. rewrite Hpq by done. set_solver.
  - unfold st1. destruct (PageSlobFree _); [|done]. split; [|done..]. intros q. cbn.
    by destruct (Z.eqb_spec q p) as [->|].
Qed.

(** A block of a full page: the page becomes partially free. *)
Lemma free_first_str l :
  page_inv (memory st) (pages st p) p [] ((o, u) :: live_on p live) ->
  let st1 := set_page st p (set_free (pages st p) u a) in
  let st2 := set_memory st1 (set_slob (memory st1) a u
               (Z.land (a + SLOB_UNITS PAGE_SIZE * SLOB_UNIT) PAGE_MASK)) in
  let st' := set_slob_page_free st2 p l in
  slob_core st' ps live /\ page_step st st' p /\
  page_inv (memory st') (pages st' p) p [(o, u)] (live_on p live) /\
  keeps live (memory st) (memory st').
Proof using All.
  intros Hinv st1 st2 st'.
  destruct free_facts as (Hp & Hp0 & Hdiv & Hn & Ea & Hu & Ho & Hou & Hoth & El).
  pose proof (pi_flag _ _ _ _ _ Hinv) as Hfg. rewrite bool_decide_eq_false_2 in Hfg by auto.
  assert (~ on_list (free_lists st) p) as Hnl.
  { intros [_ H]%(ss_on _ _ _ Hstr). congruence. }
  assert (Z.land (a + SLOB_UNITS PAGE_SIZE * SLOB_UNIT) PAGE_MASK = at_unit p page_units) as Eend.
  { rewrite Ea. change (SLOB_UNITS PAGE_SIZE) with page_units. unfold at_unit.
    replace (p + o * SLOB_UNIT + page_units * SLOB_UNIT) with (at_unit (p + PAGE_SIZE) o)
      by (unfold at_unit; rewrite page_size_units; lia).
    rewrite page_of_unit; [rewrite page_size_units; lia| |lia].
    apply Z.divide_add_r; [done|]. apply Z.divide_refl. }
  assert (pages st' p = {| pg_units := u; pg_freelist := a; PageSlobFree := true;
                           PageSlab := PageSlab (pages st p) |}) as Epg.
  { unfold st', st2, st1. cbn. rewrite !Z.eqb_refl. done. }
  assert (memory st' = set_slob (memory st) (at_unit p o) u (at_unit p page_units)) as Em.
  { rewrite <- Ea, <- Eend. done. }
  assert (page_step st st' p) as Hstep.
  { split; [|by rewrite Epg| |done|done].
    - intros q Hq. apply Z.eqb_neq in Hq. unfold st', st2, st1. cbn. by rewrite !Hq.
    - intros x Hx. rewrite Em. apply set_slob_out; [done|]. rewrite page_size_units in Hx.
      pose proof SLOB_UNIT_pos. unfold at_unit. nia. }
  assert (page_inv (memory st') (pages st' p) p (give_back o u []) (live_on p live)) as Hinv'.
  { eapply page_give_inv; [exact Hinv|..]; rewrite ?Epg, ?Em; cbn [give_back first_off total]; try done.
    split; [|done]. pose proof page_units_range. apply set_slob_header; [done|done|apply Hu|done|cbn; lia]. }
  split; [|split; [done|split; [done|]]].
  2:{ apply (free_keeps [] _ Hinv). intros x Hx. rewrite Em.
      specialize (Hx (o, u) ltac:(set_solver)). cbn in Hx. apply set_slob_out; [lia|].
      by rewrite at_unit_add. }
  eapply (core_page_step st st' ps ((a, n) :: live)); [done..| | | |].
  - intros q Hq. by rewrite Hoth.
  - intros x Hx. apply Hstr. set_solver.
  - apply lists_ok_add; [done|]. apply Hstr.
  - intros q. change (free_lists st') with (list_add (free_lists st) p l).
    rewrite on_list_add by done. rewrite (ss_on _ _ _ Hstr). destruct (decide (q = p)) as [->|Hq].
    + rewrite Epg. naive_solver.
    + rewrite (ps_pages _ _ _ Hstep q Hq). naive_solver.
Qed.

(** A block of a partially free page. *)
Lemma free_again_str bl :
  page_inv (memory st) (pages st p) p bl ((o, u) :: live_on p live) -> bl <> [] ->
  exists m fl,
    slob_free_insert (memory st) (pg_freelist (pages st p)) a u = Ok (m, fl) /\
    let st' := set_page (set_memory st m) p
                 (set_free (pages st p) (int (pg_units (pages st p) + u)) fl) in
    slob_core st' ps live /\ page_step st st' p /\
    page_inv (memory st') (pages st' p) p (give_back o u bl) (live_on p live) /\
    keeps live (memory st) (memory st').
Proof using All.
  intros Hinv Hne. pose proof Hinv as [Hok Hch Hun Hfl Hfg Hlv Hap Hdj Htot].
  destruct free_facts as (Hp & Hp0 & Hdiv & Hn & Ea & Hu & Ho & Hou & Hoth & El).
  pose proof (blocks_ok_ordered _ _ Hok) as Hord.
  destruct (insert_spec (memory st) p bl o u) as (m & Heq & Hch' & Hout); [done..|lia|done| |].
  { intros b Hb. apply Hdj; [set_solver|done]. }
  rewrite <- Ea, <- (Hfl Hne) in Heq. rewrite bool_decide_eq_true_2 in Hfg by done.
  eexists _, _. split; [exact Heq|]. intros st'.
  assert (pages st' p = set_free (pages st p) (int (pg_units (pages st p) + u))
            (at_unit p (first_off (give_back o u bl) page_units))) as Epg
    by (unfold st'; cbn; by rewrite Z.eqb_refl).
  assert (page_step st st' p) as Hstep.
  { split; [|by rewrite Epg| |done|done].
    - intros q Hq. apply Z.eqb_neq in Hq. unfold st'. cbn. by rewrite !Hq.
    - intros x Hx. apply Hout. rewrite page_size_units in Hx. pose proof SLOB_UNIT_pos.
      intros b [->|Hb]%elem_of_cons; unfold at_unit; [cbn [fst snd]; nia|].
      destruct (ordered_elem _ _ _ Hord Hb) as (? & ? & ?). nia. }
  assert (page_inv (memory st') (pages st' p) p (give_back o u bl) (live_on p live)) as Hinv'.
  { eapply page_give_inv; [exact Hinv|exact Hch'|..]; rewrite Epg; cbn [pg_units pg_freelist PageSlobFree set_free]; try done.
    rewrite Hun. pose proof (total_bound 0 bl Hord). pose proof page_units_bound.
    pose proof PAGE_SIZE_bound. apply int_small. cbn [total snd] in Htot.
    destruct (total_pos (live_on p live)) as [Hlt _]; [|lia].
    intros c Hc. apply Hlv. set_solver. }
  split; [|split; [done|split; [done|by eapply free_keeps]]].
  eapply (core_page_step st st' ps ((a, n) :: live)); [done..| | | |].
  - intros q Hq. by rewrite Hoth.
  - intros x Hx. apply Hstr. set_solver.
  - apply Hstr.
  - intros q. change (free_lists st') with (free_lists st). rewrite (ss_on _ _ _ Hstr).
    destruct (decide (q = p)) as [->|Hq]; [by rewrite Epg|by rewrite (ps_pages _ _ _ Hstep q Hq)].
Qed.

End Free.

(** The section of [slob_free] under the lock. *)
Lemma free_locked_core st ps live a n :
  slob_core st ps ((a, n) :: live) ->
  exists st' (last : bool), slob_free_locked st a n (slobidx (SLOB_UNITS (ulong n))) = Ok (st', last) /\
    locked_step st st' /\ virt_to_page a ∈ ps /\ keeps live (memory st) (memory st') /\
    if last then slob_core st' (ps ∖ {[virt_to_page a]}) live /\ live_on (virt_to_page a) live = []
    else slob_core st' ps live /\ live_on (virt_to_page a) live <> [].
Proof.
  intros Hstr.
  destruct (free_facts st ps live a n Hstr)
    as (Hp & Hp0 & Hdiv & Hn & Ea & Hu & Ho & Hou & Hoth & El).
  pose proof PAGE_SIZE_bound. pose proof page_units_bound. unfold slob_free_locked.
  rewrite (ulong_small n), slobidx_small by lia.
  set (p := virt_to_page a) in *. set (u := SLOB_UNITS n) in *.
  set (o := (obj_block p (a, n)).1) in *.
  destruct (ss_pages _ _ _ Hstr p Hp) as [bl Hinv]. rewrite El in Hinv.
  pose proof (pi_units _ _ _ _ _ Hinv) as Hun. pose proof (pi_total _ _ _ _ _ Hinv) as Htot.
  cbn [total snd] in Htot.
  pose proof (total_bound 0 bl (blocks_ok_ordered _ _ (pi_ok _ _ _ _ _ Hinv))) as Hb.
  destruct (total_pos (live_on p live)) as [Hlt Hlz].
  { intros c Hc. apply (pi_live _ _ _ _ _ Hinv). set_solver. }
  rewrite Hun, ulong_small by lia. change (SLOB_UNITS PAGE_SIZE) with page_units at 1.
  change (slob_page_free st p) with (PageSlobFree (pages st p)).
  rewrite (pi_flag _ _ _ _ _ Hinv).
  destruct (Z.eqb_spec (total bl + u) page_units) as [E|E].
  - destruct (free_release_core st ps live a n Hstr bl Hinv E) as (H1 & H2 & H3).
    fold p in H1, H2, H3. rewrite (pi_flag _ _ _ _ _ Hinv) in H1, H2.
    eexists _, true. split; [done|]. split; [done|]. split; [done|]. split; [|done].
    by destruct (bool_decide _).
  - assert (live_on p live <> []) as Hne.
    { intros Hnil. rewrite Hnil in Htot. cbn in Htot. lia. }
    destruct (decide (bl = [])) as [->|Hbl].
    + rewrite bool_decide_eq_false_2 by auto. cbn [negb].
      destruct (free_first_str st ps live a n Hstr (slob_list_for n) Hinv) as (H1 & H2 & _ & H3).
      eexists _, false. split; [done|]. apply page_step_locked in H2. done.
    + rewrite bool_decide_eq_true_2 by auto. cbn [negb].
      destruct (free_again_str st ps live a n Hstr bl Hinv Hbl) as (m & fl & Heq & H1 & H2 & _ & H3).
      fold p u in Heq, H1, H2, H3. rewrite Heq. cbn [res_bind]. apply page_step_locked in H2.
      eexists _, false. split; [done|]. rewrite <- Hun. done.
Qed.

(** Objects are above the null and zero-size pointers, and not empty. *)
Lemma free_args st ps live a n :
  slob_core st ps ((a, n) :: live) -> ZERO_OR_NULL_PTR a = false /\ (n =? 0) = false.
Proof.
  intros Hstr. destruct (free_facts st ps live a n Hstr) as (Hp & Hp0 & Hdiv & Hn & _).
  pose proof PAGE_SIZE_bound. pose proof ZERO_SIZE_PTR_range.
  split; [|by apply Z.eqb_neq; lia]. apply Z.leb_gt. destruct (virt_to_page_spec a) as [_ ?].
  pose proof (Z.divide_pos_le _ _ Hp0 Hdiv). lia.
Qed.

Lemma core_free_pages st ps live a :
  slob_core st ps live -> virt_to_page a ∉ ps -> slob_core (slob_free_pages st a 0) ps live.
Proof.
  intros H Hna. unfold slob_free_pages. apply core_set_allocator; [done|]. intros p Hp.
  rewrite free_pages_0. destruct (decide _) as [->|]; [done|]. by apply H.
Qed.

Lemma slob_free_str st ps live a n :
  slob_str st ps ((a, n) :: live) ->
  exists st' ps', slob_free st a n = Ok st' /\ slob_str st' ps' live /\
    used_m st' = int (used_m st - n) /\ claimed_m st' = claimed_m st /\
    keeps live (memory st) (memory st') /\
    ((ps' = ps /\ live_on (virt_to_page a) live <> [] /\ pcount st' = pcount st) \/
     (ps' = ps ∖ {[virt_to_page a]} /\ live_on (virt_to_page a) live = [] /\
      virt_to_page a ∈ ps /\ pcount st' = ulong (pcount st - 1))).
Proof.
  intros [Hcore0 Hsl]. unfold slob_free. destruct (free_args st ps live a n Hcore0) as [-> ->].
  set (st0 := set_counters st (pcount st) (free st) (int (used_m st - n)) (claimed_m st)).
  assert (slob_core st0 ps ((a, n) :: live)) as Hcore by (by apply core_set_counters).
  destruct (free_locked_core st0 ps live a n Hcore) as (st1 & last & -> & [L1 L2 L3] & Hp & Hk & Hpost).
  cbn [res_bind]. injection L3 as C1 C2 C3 C4. destruct last, Hpost as [H1 H2].
  - eexists _, _. split; [done|]. split.
    { split; [apply core_set_counters, core_free_pages;
                [apply core_set_outside; [by apply core_set_slab|set_solver]|set_solver]|].
      intros q. cbn. destruct (Z.eqb_spec q (virt_to_page a)) as [->|Hq]; cbn.
      - rewrite Z.eqb_refl. symmetry. apply bool_decide_eq_false. set_solver.
      - rewrite L1. cbn. rewrite Hsl. apply bool_decide_ext. set_solver. }
    split; [done|]. split; [done|]. split; [exact Hk|]. right.
    split; [done|]. split; [done|]. split; [done|]. cbn. by rewrite C1.
  - eexists _, ps. split; [done|]. split.
    { split; [done|]. intros q. rewrite L1. apply Hsl. }
    split; [done|]. split; [done|]. split; [exact Hk|]. by left.
Qed.

(** ** The other objects *)

Lemma slob_alloc_keeps st ps live alt n gfp align node st' r :
  slob_str st ps live -> sp_alt_ok st alt -> 1 <= n <= PAGE_SIZE -> valid_align align -> align <= PAGE_SIZE ->
  slob_alloc st alt n gfp align node = Ok (st', r) -> keeps live (memory st) (memory st').
Proof.
  intros Hstr Halt Hn Hal Hle E.
  destruct (slob_alloc_str st ps live alt n gfp align node Hstr Halt Hn Hal Hle) as (s & b & E' & Hp).
  rewrite E in E'. injection E' as <- <-. destruct r as [a|].
  - by destruct Hp as (ps' & _ & _ & _ & _ & Hk).
  - destruct Hp as (_ & _ & _ & _ & ->). done.
Qed.

Lemma slob_free_keeps st ps live a n st' :
  slob_str st ps ((a, n) :: live) -> slob_free st a n = Ok st' ->
  keeps live (memory st) (memory st').
Proof.
  intros Hstr E. destruct (slob_free_str st ps live a n Hstr) as (s & ps' & E' & _ & _ & _ & Hk & _).
  rewrite E in E'. by injection E' as <-.
Qed.

(** ** The invariant over alloc and free *)

Lemma slob_alloc_inv st ps live alt n gfp align node :
  slob_inv st ps live -> sp_alt_ok st alt -> 1 <= n <= PAGE_SIZE -> valid_align align -> align <= PAGE_SIZE ->
  exists st' r, slob_alloc st alt n gfp align node = Ok (st', r) /\
    match r with
    | None => slob_inv st' ps live
    | Some a => (align <> 0 -> (align | a)) /\ exists ps', slob_inv st' ps' ((a, n) :: live)
    end.
Proof.
  intros [Hstr Hpg Hpc Hus] Halt Hn Hal Hle.
  destruct (slob_alloc_str st ps live alt n gfp align node Hstr Halt Hn Hal Hle) as (st' & r & -> & Hr).
  exists st', r. split; [done|]. destruct r as [a|].
  - destruct Hr as (ps' & H1 & H2 & H3 & H4 & H5). split; [done|]. exists ps'. split; [done|..].
    + intros p Hp. destruct (decide (virt_to_page a = p)) as [E|Hne].
      { by rewrite live_on_cons_eq. }
      apply live_on_cons_nonempty, Hpg. destruct H3 as [(? & -> & _)|(? & -> & _)]; set_solver.
    + destruct H3 as [(? & -> & -> & _)|(Hna & -> & -> & _)]; [done|].
      rewrite Hpc. unfold ulong. rewrite wrap_u_add_l. f_equal.
      rewrite size_union by set_solver. rewrite size_singleton. lia.
    + rewrite H2, Hus. unfold int. rewrite wrap_s_add_l by lia. f_equal.
      unfold live_bytes. cbn. lia.
  - destruct Hr as (H1 & H2 & H3 & _). split; [done|done|congruence..].
Qed.

Lemma slob_free_inv st ps live a n :
  slob_inv st ps ((a, n) :: live) ->
  exists st' ps', slob_free st a n = Ok st' /\ slob_inv st' ps' live.
Proof.
  intros [Hstr Hpg Hpc Hus].
  destruct (slob_free_str st ps live a n Hstr) as (st' & ps' & -> & H1 & H2 & _ & _ & H3).
  exists st', ps'. split; [done|]. split; [done|..].
  - intros p Hp. specialize (Hpg p). destruct (decide (virt_to_page a = p)) as [<-|Hne].
    + destruct H3 as [(_ & ? & _)|(-> & _)]; [done|set_solver].
    + rewrite live_on_cons_ne in Hpg by done. apply Hpg.
      destruct H3 as [(-> & _)|(-> & _)]; set_solver.
  - destruct H3 as [(-> & _ & ->)|(-> & _ & Hin & ->)]; [done|].
    rewrite Hpc. unfold ulong. unfold Z.sub. rewrite wrap_u_add_l. f_equal.
    rewrite size_difference by set_solver. rewrite size_singleton.
    assert (1 <= size ps)%nat; [|lia].
    rewrite <- (size_singleton (C:=gset Z) (virt_to_page a)). apply subseteq_size. set_solver.
  - rewrite H2, Hus. unfold int, Z.sub. rewrite wrap_s_add_l by lia. f_equal.
      unfold live_bytes. cbn. lia.
Qed.

End Proofs.
