(* ===== verification/SlobSpec.v ===== *)
(** * slob.c: what the allocator guarantees

    The allocator as a state machine driven by its clients ([client_step]), the
    properties of every reachable state, the round trips of the page level, the
    kmalloc layer, and what an uninitialised [sp_alt] does.  [slob_alloc] does
    not initialise [sp_alt]; the value it finds there is an argument of every
    call below, arbitrary but for [sp_alt_ok]: [NULL], or a page that is on a
    list when the search begins.  [slob_alloc_garbage] shows what happens
    otherwise. *)

From S2P Require Import Prelude Mem KernelEnv SlobPage Slob SlobProofs.

(** ** The allocator driven by its clients *)

Section Client.
Context `{K : KernelEnv} `{L : ListApi} `{P : PageApi}.

(** One action of a client: allocate, with any value [alt] of [sp_alt] that is
    [sp_alt_ok], free an object that is live, or write inside a live object. *)
Inductive client_step : slob * list (Z * Z) -> slob * list (Z * Z) -> Prop :=
| client_alloc st live alt n gfp align node st' a :
    sp_alt_ok st alt -> 1 <= n <= PAGE_SIZE -> valid_align align -> align <= PAGE_SIZE ->
    slob_alloc st alt n gfp align node = Ok (st', Some a) ->
    client_step (st, live) (st', (a, n) :: live)
| client_alloc_null st live alt n gfp align node st' :
    sp_alt_ok st alt -> 1 <= n <= PAGE_SIZE -> valid_align align -> align <= PAGE_SIZE ->
    slob_alloc st alt n gfp align node = Ok (st', None) ->
    client_step (st, live) (st', live)
| client_free st live live' a n st' :
    live ≡ₚ (a, n) :: live' -> slob_free st a n = Ok st' ->
    client_step (st, live) (st', live')
| client_write st live a n m :
    (a, n) ∈ live -> (forall x, x < a \/ a + n <= x -> m x = memory st x) ->
    client_step (st, live) (set_memory st m, live).

(** No page belongs to the allocator yet. *)
Definition at_boot (st : slob) : Prop :=
  (forall p, PageSlab (pages st p) = false) /\
  (forall h, list_elems (free_lists st) h = []) /\
  pcount st = 0 /\ used_m st = 0.

Definition reachable (st : slob) (live : list (Z * Z)) : Prop :=
  exists st0, at_boot st0 /\ rtc client_step (st0, []) (st, live).

End Client.

Section Theory.
Context `{K : KernelEnv} {KL : KernelEnvLaws K}.
Context `{L : ListApi} {LL : ListApiLaws L}.
Context `{P : PageApi} {PL : PageApiLaws K P}.

Lemma boot_inv st : at_boot st -> slob_inv st ∅ [].
Proof.
  intros (Hs & Hl & Hp & Hu). split; [split; [split|]|..].
  - set_solver.
  - set_solver.
  - set_solver.
  - unfold lists_ok. rewrite !Hl. constructor.
  - intros p. unfold on_list. setoid_rewrite Hl. set_solver.
  - intros p. rewrite Hs. by rewrite bool_decide_eq_false_2 by set_solver.
  - set_solver.
  - rewrite Hp, size_empty. symmetry. apply ulong_small. lia.
  - rewrite Hu. done.
Qed.

Lemma client_step_inv s t :
  (exists ps, slob_inv s.1 ps s.2) -> client_step s t -> exists ps, slob_inv t.1 ps t.2.
Proof.
  intros [ps Hinv] Hstep.
  destruct Hstep as [st live alt n gfp align node st' a Halt Hn Hal Hle Heq
                    |st live alt n gfp align node st' Halt Hn Hal Hle Heq
                    |st live live' a n st' HP Heq
                    |st live a n m Hin Hm]; cbn [fst snd] in *.
  - destruct (slob_alloc_inv st ps live alt n gfp align node Hinv Halt Hn Hal Hle) as (s' & r & E & Hr).
    rewrite Heq in E. injection E as <- <-. apply Hr.
  - destruct (slob_alloc_inv st ps live alt n gfp align node Hinv Halt Hn Hal Hle) as (s' & r & E & Hr).
    rewrite Heq in E. injection E as <- <-. eauto.
  - rewrite HP in Hinv. destruct (slob_free_inv st ps live' a n Hinv) as (s' & ps' & E & H').
    rewrite Heq in E. injection E as <-. eauto.
  - exists ps. destruct Hinv as [Hstr Hpg Hpc Hus]. split; try done. by eapply str_write_live.
Qed.

Lemma reachable_inv st live : reachable st live -> exists ps, slob_inv st ps live.
Proof.
  intros (st0 & Hb & Hr).
  apply (rtc_invariant client_step (fun s => exists ps, slob_inv s.1 ps s.2) client_step_inv _ _ Hr).
  exists ∅. by apply boot_inv.
Qed.

(** ** Every reachable state *)

Lemma calls_return st live alt n gfp align node :
  reachable st live -> sp_alt_ok st alt ->
  1 <= n <= PAGE_SIZE -> valid_align align -> align <= PAGE_SIZE ->
  is_ok (slob_alloc st alt n gfp align node) = true.
Proof.
  intros [ps Hinv]%reachable_inv Halt Hn Hal Hle.
  by destruct (slob_alloc_inv st ps live alt n gfp align node Hinv Halt Hn Hal Hle) as (s' & r & -> & _).
Qed.

Lemma free_returns st live a k live' :
  reachable st live -> live ≡ₚ (a, k) :: live' -> is_ok (slob_free st a k) = true.
Proof.
  intros [ps Hinv]%reachable_inv HP. rewrite HP in Hinv.
  by destruct (slob_free_inv st ps live' a k Hinv) as (s' & ps' & -> & _).
Qed.

(** C2: provided the [sp_alt] that [slob_alloc] does not initialise is, at the
    start of every search, [NULL] or a page on one of the three lists
    ([sp_alt_ok]): whatever a client does (allocate, free its objects, write
    inside them), the allocator's invariant holds: on every page it holds, the free
    list read from memory is in address order, coalesced and within the page,
    free blocks and live objects tile the page, the page's unit count is the
    number of free units, the three lists hold exactly the partially free
    pages, and a page without live objects is not held.  And the calls return:
    [slob_alloc] for every such [sp_alt], every size up to a page and every
    power-of-two alignment up to a page, [slob_free] for every live object; no [BUG_ON] fires, no loop
    runs out of the bound the model gives it. *)
Theorem slob_reachable_inv st live :
  reachable st live ->
  (exists ps, slob_inv st ps live) /\
  (forall alt n gfp align node, sp_alt_ok st alt ->
     1 <= n <= PAGE_SIZE -> valid_align align -> align <= PAGE_SIZE ->
     is_ok (slob_alloc st alt n gfp align node) = true) /\
  (forall a k live', live ≡ₚ (a, k) :: live' -> is_ok (slob_free st a k) = true).
Proof.
  intros Hr. split; [by apply reachable_inv|]. split; intros.
  - by eapply calls_return.
  - by eapply free_returns.
Qed.

(** In every reachable state two live objects share no byte. *)
Lemma slob_live_disjoint st live x y live' :
  reachable st live -> live ≡ₚ x :: y :: live' -> x.1 + x.2 <= y.1 \/ y.1 + y.2 <= x.1.
Proof.
  intros [ps Hinv]%reachable_inv HP. rewrite HP in Hinv. destruct Hinv as [[Hcore _] _ _ _].
  by eapply inv_disjoint.
Qed.

(** C15: provided the uninitialised [sp_alt] is [NULL] or a page on a list, now
    and in the calls before: an object that [slob_alloc] hands out is aligned as
    asked, lies in one page that the allocator holds, and overlaps no live
    object. *)
Theorem slob_alloc_fresh st live alt n gfp align node st' a :
  reachable st live -> sp_alt_ok st alt ->
  1 <= n <= PAGE_SIZE -> valid_align align -> align <= PAGE_SIZE ->
  slob_alloc st alt n gfp align node = Ok (st', Some a) ->
  (align <> 0 -> (align | a)) /\
  PageSlab (pages st' (virt_to_page a)) = true /\
  virt_to_page a <= a /\ a + n <= virt_to_page a + PAGE_SIZE /\
  forall x, x ∈ live -> a + n <= x.1 \/ x.1 + x.2 <= a.
Proof.
  intros [ps Hinv]%reachable_inv Halt Hn Hal Hle Heq.
  destruct (slob_alloc_inv st ps live alt n gfp align node Hinv Halt Hn Hal Hle) as (s' & r & E & Hr).
  rewrite Heq in E. injection E as <- <-. destruct Hr as [Hd [ps' Hinv']].
  pose proof (si_str _ _ _ Hinv') as Hstr. pose proof Hstr as [[Hpg Had Hlv _ _] Hsl].
  destruct (Hlv (a, n) ltac:(set_solver)) as (Hp & _ & Hu).
  cbn [fst snd] in *. split; [done|]. split; [rewrite Hsl; by apply bool_decide_eq_true|].
  destruct (virt_to_page_spec a) as [Hdp Hr]. split; [lia|]. split.
  - destruct (Hpg _ Hp) as [bl Hbl].
    destruct (pi_live _ _ _ _ _ Hbl (obj_block (virt_to_page a) (a, n))) as (A1 & A2 & A3).
    { apply live_on_elem; [set_solver|done]. }
    pose proof (obj_at_unit (virt_to_page a) (a, n) Hdp Hu) as Ea. pose proof (units_cover n Hn).
    pose proof page_size_units. pose proof SLOB_UNIT_pos.
    unfold at_unit, obj_block in *. cbn [fst snd] in *. nia.
  - intros x Hx. apply elem_of_Permutation in Hx as [live' HP].
    rewrite HP in Hinv'. destruct Hinv' as [[Hcore' _] _ _ _].
    apply (inv_disjoint st' ps' (a, n) x live' Hcore').
Qed.

(** C14: provided the uninitialised [sp_alt] is [NULL] or a page on a list, now
    and in the calls before: allocating and freeing never touch the contents of
    the objects that stay live. *)
Theorem slob_keeps_contents st live :
  reachable st live ->
  (forall alt n gfp align node st' r, sp_alt_ok st alt ->
     1 <= n <= PAGE_SIZE -> valid_align align -> align <= PAGE_SIZE ->
     slob_alloc st alt n gfp align node = Ok (st', r) -> keeps live (memory st) (memory st')) /\
  (forall a n live' st',
     live ≡ₚ (a, n) :: live' -> slob_free st a n = Ok st' -> keeps live' (memory st) (memory st')).
Proof.
  intros [ps [Hstr _ _ _]]%reachable_inv. split.
  - intros alt n gfp align node st' r Halt Hn Hal Hle E. by eapply slob_alloc_keeps.
  - intros a n live' st' HP E. destruct Hstr as [Hc Hsl]. rewrite HP in Hc.
    eapply slob_free_keeps; [by split|done].
Qed.

(** The counters [used_m] and [pcount] are exact. *)
Lemma counters_exact st live :
  reachable st live ->
  used_m st = int (live_bytes live) /\
  exists ps : gset Z, pcount st = ulong (Z.of_nat (size ps)) /\
    forall p, (p ∈ ps <-> PageSlab (pages st p) = true) /\
      (p ∈ ps -> exists x, x ∈ live /\ virt_to_page x.1 = p).
Proof.
  intros [ps [Hstr Hpg Hpc Hus]]%reachable_inv. split; [done|]. exists ps. split; [done|].
  intros p. split.
  - rewrite (ss_slab _ _ _ Hstr). by rewrite bool_decide_eq_true.
  - intros Hp. specialize (Hpg p Hp). unfold live_on in Hpg.
    destruct (filter _ live) as [|x l] eqn:E; [done|]. exists x.
    assert (x ∈ filter (fun x => virt_to_page x.1 = p) live) as Hx by (rewrite E; set_solver).
    by apply list_elem_of_filter in Hx as [? ?].
Qed.

(** A free never changes [claimed_m]. *)
Lemma free_claimed st live live' a n :
  reachable st live -> live ≡ₚ (a, n) :: live' ->
  exists st', slob_free st a n = Ok st' /\ sys_slob_used st' = sys_slob_used st /\
    (pcount st' = pcount st \/
     pcount st' = ulong (pcount st - 1) /\ PageSlab (pages st' (virt_to_page a)) = false).
Proof.
  intros [ps Hinv]%reachable_inv HP. rewrite HP in Hinv. destruct Hinv as [Hstr _ _ _].
  destruct (slob_free_str st ps live' a n Hstr) as (st' & ps' & -> & Hstr' & _ & Hcl & _ & Hps).
  exists st'. split; [done|]. split; [done|].
  destruct Hps as [(_ & _ & ?)|(-> & _ & _ & ?)]; [by left|right]. split; [done|].
  rewrite (ss_slab _ _ _ Hstr'). apply bool_decide_eq_false. set_solver.
Qed.

(** An allocation leaves [claimed_m] and [pcount] alone or adds a page to both. *)
Lemma alloc_claimed st live alt n gfp align node :
  reachable st live -> sp_alt_ok st alt ->
  1 <= n <= PAGE_SIZE -> valid_align align -> align <= PAGE_SIZE ->
  exists st' r, slob_alloc st alt n gfp align node = Ok (st', r) /\
    (pcount st' = pcount st /\ sys_slob_used st' = sys_slob_used st \/
     r <> None /\ pcount st' = ulong (pcount st + 1) /\
     sys_slob_used st' = int (sys_slob_used st + PAGE_SIZE)).
Proof.
  intros [ps Hinv]%reachable_inv Halt Hn Hal Hle.
  destruct (slob_alloc_str st ps live alt n gfp align node (si_str _ _ _ Hinv) Halt Hn Hal Hle)
    as (st' & r & -> & Hr).
  exists st', r. split; [done|]. unfold sys_slob_used. destruct r as [a|].
  - destruct Hr as (ps' & _ & _ & [(_ & _ & ? & ?)|(_ & _ & ? & ?)] & _); [by left|by right].
  - destruct Hr as (_ & ? & _ & ? & _). by left.
Qed.

(** C31: provided the uninitialised [sp_alt] is [NULL] or a page on a list in
    every call: the counters [used_m] and [pcount] are exact: the bytes of the
    live objects (as a 32-bit int) and the number of pages held, which are the
    pages whose [PG_slab] flag is set, each with at least one live object on it.
    [claimed_m], the value of [sys_slob_used], does not follow them: a free
    leaves it as it is, also when the page goes back to the page allocator and
    [pcount] drops by one; an allocation that takes a new page adds
    [PAGE_SIZE] to it, as a 32-bit int that can wrap around, and one to
    [pcount]; any other allocation leaves both. *)
Theorem slob_accounting st live :
  reachable st live ->
  (used_m st = int (live_bytes live) /\
   exists ps : gset Z, pcount st = ulong (Z.of_nat (size ps)) /\
     forall p, (p ∈ ps <-> PageSlab (pages st p) = true) /\
       (p ∈ ps -> exists x, x ∈ live /\ virt_to_page x.1 = p)) /\
  (forall live' a n, live ≡ₚ (a, n) :: live' ->
   exists st', slob_free st a n = Ok st' /\ sys_slob_used st' = sys_slob_used st /\
     (pcount st' = pcount st \/
      pcount st' = ulong (pcount st - 1) /\ PageSlab (pages st' (virt_to_page a)) = false)) /\
  (forall alt n gfp align node, sp_alt_ok st alt ->
   1 <= n <= PAGE_SIZE -> valid_align align -> align <= PAGE_SIZE ->
   exists st' r, slob_alloc st alt n gfp align node = Ok (st', r) /\
     (pcount st' = pcount st /\ sys_slob_used st' = sys_slob_used st \/
      r <> None /\ pcount st' = ulong (pcount st + 1) /\
      sys_slob_used st' = int (sys_slob_used st + PAGE_SIZE))).
Proof.
  intros Hr. split; [by apply counters_exact|]. split; intros.
  - by eapply free_claimed.
  - by eapply alloc_claimed.
Qed.

(** ** The page level *)

(** C30: [set_slob] followed by [slob_units], [slob_next] and [slob_last] reads
    back the size, the next pointer and whether it is the end of the page, for
    every block of a page, one-unit blocks included. *)
Theorem set_slob_roundtrip m base o s n :
  (PAGE_SIZE | base) -> 0 <= o -> 1 <= s -> o + s <= page_units -> 0 < n <= page_units ->
  let m' := set_slob m (at_unit base o) s (at_unit base n) in
  slob_units m' (at_unit base o) = s /\
  slob_next m' (at_unit base o) = at_unit base n /\
  slob_last m' (at_unit base o) = (n =? page_units) /\
  (forall x, x < at_unit base o \/ at_unit base (o + s) <= x -> m' x = m x).
Proof.
  intros Hb Ho Hs Hos Hn m'. pose proof (set_slob_header m base o s n Hb Ho Hs Hos Hn) as Hh.
  split; [by eapply header_units|]. split; [by eapply header_next|].
  split; [by eapply header_last|]. intros x Hx. apply set_slob_out; [lia|].
  by rewrite at_unit_add.
Qed.

(** C4: [slob_page_alloc] is address-ordered first fit with alignment: on a
    page whose free list is [bl] it returns NULL and changes nothing exactly
    when no block has room, and otherwise hands out the aligned start of the
    first block with room, leaves the rest of [bl] free, and lowers the page's
    unit count, taking the page off its list when it becomes full. *)
Theorem slob_page_alloc_first_fit st sp bl n align :
  (PAGE_SIZE | sp) -> valid_align align -> 1 <= n <= PAGE_SIZE -> bl <> [] ->
  blocks_ok 0 bl -> chain (memory st) sp bl ->
  pg_freelist (pages st sp) = at_unit sp (first_off bl page_units) ->
  pg_units (pages st sp) = total bl ->
  match fit sp (SLOB_UNITS n) align bl with
  | None => slob_page_alloc st sp n align = Ok (st, None)
  | Some (x, bl') =>
    exists m',
      let st1 := set_page (set_memory st m') sp
                   (set_free (pages st sp) (total bl') (at_unit sp (first_off bl' page_units))) in
      slob_page_alloc st sp n align
      = Ok (if total bl' =? 0 then clear_slob_page_free st1 sp else st1, Some (at_unit sp x)) /\
      chain m' sp bl' /\ blocks_ok 0 bl' /\ total bl' = total bl - SLOB_UNITS n /\
      (forall a, outside sp bl a -> m' a = memory st a)
  end.
Proof.
  intros Hsp Hal Hn Hne Hok Hch Hfl Hun.
  pose proof (page_alloc_fit st sp bl n align Hsp Hal Hn Hne Hok Hch Hfl Hun) as H.
  destruct (fit sp (SLOB_UNITS n) align bl) as [[x bl']|] eqn:E; [|done].
  destruct (units_of_size n Hn) as [Hu _].
  destruct (fit_ok _ _ _ _ _ _ _ Hsp Hal Hu Hok E) as (Hok' & Htot & _).
  destruct H as (m' & H1 & H2 & H3). exists m'. done.
Qed.

(** C16: what the scan of [slob_page_alloc] takes from a partially free page,
    the reinsertion of [slob_free] gives back: the free list in memory and the
    page's [freelist] are again what they were. *)
Theorem slob_page_alloc_free_roundtrip m base bl units align m1 fl1 b :
  (PAGE_SIZE | base) -> valid_align align -> 1 <= units -> bl <> [] ->
  blocks_ok 0 bl -> chain m base bl ->
  let freelist := at_unit base (first_off bl page_units) in
  slob_page_scan page_fuel m freelist units align None freelist = Ok (Some (m1, fl1, b)) ->
  fl1 <> at_unit base page_units ->
  exists m2, slob_free_insert m1 fl1 b units = Ok (m2, freelist) /\ chain m2 base bl.
Proof.
  intros Hb Hal Hu Hne Hok Hch freelist Heq Hfl.
  pose proof (blocks_ok_ordered _ _ Hok) as Hord.
  assert (length bl <= page_fuel)%nat as Hf by (by apply ordered_fuel).
  pose proof (scan_fit base units align bl Hb Hal Hu Hne [] page_fuel m Hord Hch Hf) as Hscan.
  cbn zeta in Hscan. cbn [app] in Hscan. fold freelist in Hscan.
  change (prev_of base []) with (@None Z) in Hscan. rewrite Heq in Hscan.
  destruct (fit base units align bl) as [[x bl']|] eqn:E; [|done].
  destruct Hscan as (m' & Eq & Hch' & _). injection Eq as -> -> ->.
  destruct (fit_ok _ _ _ _ _ _ _ Hb Hal Hu Hok E) as (Hok' & _ & (c & Hc & Hc1 & Hc2) & Hap).
  destruct (ordered_elem _ _ _ Hord Hc) as (? & ? & ?).
  destruct (insert_spec m' base bl' x units) as (m2 & Hins & Hch2 & _); [done| | |done|lia..|done|].
  { intros ->. by apply Hfl. }
  { by apply blocks_ok_ordered. }
  rewrite (give_back_fit base units align 0 bl x bl' Hb Hal Hu Hok E) in Hins, Hch2. eauto.
Qed.

(** ** kmalloc, kfree and ksize *)

Lemma kmalloc_align_ok :
  is_pow2 kmalloc_align /\ 4 <= kmalloc_align <= 256 /\ (SLOB_UNIT | kmalloc_align).
Proof.
  pose proof KMALLOC_MINALIGN_range. pose proof SLAB_MINALIGN_range.
  assert (is_pow2 kmalloc_align) as Hp.
  { unfold kmalloc_align. destruct (Z.max_spec ARCH_KMALLOC_MINALIGN ARCH_SLAB_MINALIGN) as
      [[_ ->]|[_ ->]]; [apply SLAB_MINALIGN_pow2|apply KMALLOC_MINALIGN_pow2]. }
  assert (4 <= kmalloc_align <= 256) by (unfold kmalloc_align; lia).
  split; [done|]. split; [done|]. apply pow2_divide; [apply SLOB_UNIT_pow2|done|].
  destruct slob_unit_cases; lia.
Qed.

Lemma kmalloc_align_valid : valid_align kmalloc_align /\ kmalloc_align <= PAGE_SIZE.
Proof.
  destruct kmalloc_align_ok as (Hp & Hr & _). pose proof PAGE_SIZE_bound.
  split; [by right|lia].
Qed.

(** The header of a kmalloc block holds the size that was asked for. *)
Definition kmalloc_block (st : slob) (p k : Z) : Prop :=
  load 4 (memory st) (p - kmalloc_align) = k /\ 1 <= k < PAGE_SIZE - kmalloc_align.

Lemma header_fits k : 1 <= k < PAGE_SIZE - kmalloc_align -> k mod 256 ^ Z.of_nat 4 = k.
Proof.
  intros Hk. destruct kmalloc_align_ok as (_ & Hr & _). pose proof PAGE_SIZE_bound.
  apply Z.mod_small. change (256 ^ Z.of_nat 4) with (2 ^ 32). lia.
Qed.

Lemma reachable_step st live s : reachable st live -> client_step (st, live) s -> reachable s.1 s.2.
Proof.
  intros (st0 & Hb & Hr) Hs. exists st0. split; [done|]. destruct s. by eapply rtc_r.
Qed.

Lemma kmalloc_returns st live alt size gfp :
  reachable st live -> sp_alt_ok st alt -> 1 <= size < PAGE_SIZE - kmalloc_align ->
  exists st' p, kmalloc st alt size gfp = Ok (st', p) /\
    ((p = NULL /\ reachable st' live) \/
     (p <> NULL /\ (kmalloc_align | p) /\ kmalloc_block st' p size /\
      reachable st' ((p - kmalloc_align, size + kmalloc_align) :: live))).
Proof.
  intros Hr Halt Hs. destruct kmalloc_align_ok as (Hp & Har & _). destruct kmalloc_align_valid as [Hv Hle].
  unfold kmalloc, do_kmalloc_node. destruct (Z.ltb_spec size (PAGE_SIZE - kmalloc_align)); [|lia].
  destruct (Z.eqb_spec size 0); [lia|].
  set (g := Z.land gfp gfp_allowed_mask). set (k := size + kmalloc_align).
  assert (1 <= k <= PAGE_SIZE) as Hn by (unfold k; lia).
  destruct (reachable_inv st live Hr) as [ps Hinv].
  destruct (slob_alloc_inv st ps live alt k g kmalloc_align NUMA_NO_NODE Hinv Halt Hn Hv Hle)
    as (st1 & r & Heq & Hpost). rewrite Heq. cbn [res_bind]. destruct r as [m|].
  - destruct Hpost as [Hdiv [ps' [Hstr _ _ _]]].
    eexists _, _. split; [done|]. right.
    destruct (ss_live _ _ _ Hstr (m, k)) as (Hps & _ & _); [set_solver|]. cbn [fst] in Hps.
    destruct (ss_addr _ _ _ Hstr _ Hps) as (Hp0 & _ & _). destruct (virt_to_page_spec m) as [_ Hm].
    split; [unfold NULL; lia|]. rewrite Z.add_simpl_r. split.
    { apply Z.divide_add_r; [apply Hdiv; lia|apply Z.divide_refl]. }
    split.
    { split; [|done]. rewrite Z.add_simpl_r. cbn [memory set_memory].
      rewrite load_store_eq. by apply header_fits. }
    eapply (reachable_step st1 _ (set_memory st1 _, _)).
    + eapply (reachable_step st live (st1, _)); [done|]. by eapply client_alloc.
    + eapply (client_write st1 _ m k); [set_solver|].
      intros x Hx. apply store_out. unfold k in Hx. lia.
  - eexists _, _. split; [done|]. left. split; [done|].
    eapply (reachable_step st live (st1, live)); [done|]. by eapply client_alloc_null.
Qed.

Lemma virt_to_page_unique q a :
  (PAGE_SIZE | q) -> q <= a < q + PAGE_SIZE -> virt_to_page a = q.
Proof.
  intros [i ->] Ha. unfold virt_to_page. rewrite land_mask.
  rewrite <- (Z.mod_unique_pos a PAGE_SIZE i (a - i * PAGE_SIZE)) by lia. lia.
Qed.

(** Facts about the pointer [p] of a live kmalloc block. *)
Lemma kmalloc_ptr st ps live p size :
  slob_str st ps ((p - kmalloc_align, size + kmalloc_align) :: live) -> 1 <= size ->
  virt_to_page p = virt_to_page (p - kmalloc_align) /\ ZERO_OR_NULL_PTR p = false /\
  PageSlab (pages st (virt_to_page p)) = true /\ 0 < p.
Proof.
  intros Hstr Hs. destruct kmalloc_align_ok as (_ & Har & _). set (m := p - kmalloc_align) in *.
  destruct (free_facts st ps live m (size + kmalloc_align) Hstr)
    as (Hps & Hp0 & Hdiv & Hn & Ea & Hu & Ho & Hou & _).
  destruct (virt_to_page_spec m) as [_ Hm]. pose proof (Z.divide_pos_le _ _ Hp0 Hdiv).
  pose proof ZERO_SIZE_PTR_range. pose proof PAGE_SIZE_bound.
  assert (virt_to_page p = virt_to_page m) as Ep.
  { apply virt_to_page_unique; [done|]. pose proof (units_cover _ Hn). pose proof page_size_units.
    pose proof SLOB_UNIT_pos. unfold at_unit, m in *. nia. }
  split; [done|]. split; [apply Z.leb_gt; unfold m in *; lia|].
  split; [|unfold m in *; lia].
  rewrite Ep, (ss_slab _ _ _ Hstr). by apply bool_decide_eq_true.
Qed.

Lemma units_add n k : 0 <= n -> 0 <= k -> (SLOB_UNIT | k) ->
  SLOB_UNITS (n + k) * SLOB_UNIT = SLOB_UNITS n * SLOB_UNIT + k.
Proof.
  intros Hn Hk [q ->]. pose proof SLOB_UNIT_pos. unfold SLOB_UNITS.
  destruct (DIV_ROUND_UP_spec n SLOB_UNIT); [lia..|].
  destruct (DIV_ROUND_UP_spec (n + q * SLOB_UNIT) SLOB_UNIT); [lia..|].
  set (x := DIV_ROUND_UP n SLOB_UNIT) in *. set (y := DIV_ROUND_UP (n + _) SLOB_UNIT) in *.
  assert (y = x + q) by nia. nia.
Qed.

(** kfree of a pointer from kmalloc frees exactly the object that kmalloc
    allocated, header included, provided the header was not overwritten. *)
Lemma kfree_small st live live' p size :
  reachable st live -> live ≡ₚ (p - kmalloc_align, size + kmalloc_align) :: live' ->
  kmalloc_block st p size ->
  exists st', kfree st p = Ok st' /\ reachable st' live' /\
    used_m st' = int (used_m st - (size + kmalloc_align)).
Proof.
  intros Hr HP [Hh Hs]. destruct kmalloc_align_ok as (_ & Har & _). pose proof PAGE_SIZE_bound.
  destruct (reachable_inv st live Hr) as [ps Hinv]. rewrite HP in Hinv.
  pose proof (si_str _ _ _ Hinv) as Hstr.
  destruct (kmalloc_ptr st ps live' p size Hstr ltac:(lia)) as (Ep & Hz & Hsl & _).
  unfold kfree. rewrite Hz, Hsl, Hh, int_small by lia.
  destruct (slob_free_str st ps live' _ _ Hstr) as (st' & ps' & Heq & _ & Hus & _).
  exists st'. split; [done|]. split; [|done].
  eapply (reachable_step st live (st', live')); [done|]. by eapply client_free.
Qed.

(** ksize of a pointer from kmalloc is at least the size asked for, and is
    exactly the room from the pointer to the end of the block's last unit. *)
Lemma ksize_small st live live' p size :
  reachable st live -> live ≡ₚ (p - kmalloc_align, size + kmalloc_align) :: live' ->
  kmalloc_block st p size ->
  exists k, ksize st p = Ok k /\ size <= k < size + SLOB_UNIT /\
    p + k = p - kmalloc_align + SLOB_UNITS (size + kmalloc_align) * SLOB_UNIT.
Proof.
  intros Hr HP [Hh Hs]. destruct (reachable_inv st live Hr) as [ps Hinv]. rewrite HP in Hinv.
  destruct kmalloc_align_ok as (_ & Har & Hd).
  destruct (kmalloc_ptr st ps live' p size (si_str _ _ _ Hinv) ltac:(lia)) as (Ep & Hz & Hsl & Hp).
  exists (SLOB_UNITS size * SLOB_UNIT). unfold ksize, NULL.
  destruct (Z.eqb_spec p 0); [lia|]. apply Z.leb_gt in Hz.
  destruct (Z.eqb_spec p ZERO_SIZE_PTR); [lia|]. rewrite Hsl. cbn [negb]. rewrite Hh.
  split; [done|]. split; [apply units_cover; lia|]. rewrite units_add by (done || lia). lia.
Qed.

(** ** kmalloc without slob_alloc: nothing, or whole pages *)

(** The page allocator may change as long as the allocator's pages stay its
    own. *)
Lemma inv_set_allocator st ps live a r :
  slob_inv st ps live -> (forall p, p ∈ ps -> page_used a p = true) ->
  slob_inv (set_allocator st a r) ps live.
Proof. intros [[Hc Hsl] Hh Hp Hu] Ha. split; [split; [by apply core_set_allocator|done]|done..]. Qed.

(** The pages of a new block are none of the allocator's. *)
Lemma block_apart st ps live node gfp order p a q :
  slob_inv st ps live -> alloc_pages_node (page_allocator st) node gfp order = (Some p, a) ->
  0 <= order -> q ∈ ps -> q + PAGE_SIZE <= p \/ p + PAGE_SIZE * 2 ^ order <= q.
Proof.
  intros Hinv E Ho Hq. destruct (ss_addr _ _ _ (si_str _ _ _ Hinv) q Hq) as (_ & Hdq & Huq).
  destruct (alloc_pages_fresh _ _ _ _ _ _ E) as (_ & Hdp & _).
  destruct (Z.lt_ge_cases q p) as [Hlt|Hge].
  - left. destruct Hdq as [i ->], Hdp as [j ->]. pose proof PAGE_SIZE_pos.
    assert (i < j) by nia. pose proof (Z.mul_le_mono_nonneg_r (i + 1) j PAGE_SIZE). lia.
  - right. destruct (Z.lt_ge_cases q (p + PAGE_SIZE * 2 ^ order)) as [Hlt|]; [|done].
    destruct (alloc_pages_block _ _ _ _ _ _ q E Ho Hdq ltac:(lia)). congruence.
Qed.

(** An object lies in its page. *)
Lemma obj_in_page st ps live x :
  slob_inv st ps live -> x ∈ live ->
  virt_to_page x.1 ∈ ps /\ virt_to_page x.1 <= x.1 /\ x.1 + x.2 <= virt_to_page x.1 + PAGE_SIZE.
Proof.
  intros [[Hc _] _ _ _] Hx. destruct (ss_live _ _ _ Hc x Hx) as (Hp & Hn & _).
  destruct (obj_bytes st ps live x (x.1 + x.2 - 1) Hc Hx ltac:(lia)) as (_ & _ & H & _).
  split; [done|]. destruct (virt_to_page_spec x.1). lia.
Qed.

Lemma comp_flag g : Z.land (Z.lor g GFP_COMP) GFP_COMP <> 0.
Proof.
  pose proof GFP_COMP_pos. replace (Z.land (Z.lor g GFP_COMP) GFP_COMP) with GFP_COMP; [lia|].
  apply Z.bits_inj'. intros i Hi. rewrite Z.land_spec, Z.lor_spec.
  by destruct (Z.testbit g i), (Z.testbit GFP_COMP i).
Qed.

(** What [kmalloc] hands out when it takes whole pages. *)
Definition kmalloc_pages (st st' : slob) (ps : gset Z) (live : list (Z * Z)) (size p : Z) : Prop :=
  let bytes := PAGE_SIZE * 2 ^ get_order size in
  p <> NULL /\ (PAGE_SIZE | p) /\ size <= bytes /\
  (forall x, x ∈ live -> x.1 + x.2 <= p \/ p + bytes <= x.1) /\
  ksize st' p = Ok bytes /\
  exists st'', kfree st' p = Ok st'' /\ slob_inv st'' ps live /\ memory st'' = memory st /\
    page_allocator st'' = free_pages (page_allocator st') p (get_order size).

Lemma kmalloc_whole_pages st ps live alt size gfp :
  slob_inv st ps live -> PAGE_SIZE - kmalloc_align <= size ->
  exists st' p, kmalloc st alt size gfp = Ok (st', p) /\ slob_inv st' ps live /\
    memory st' = memory st /\ counters st' = counters st /\
    (p = NULL \/ kmalloc_pages st st' ps live size p).
Proof.
  intros Hinv Hs. destruct kmalloc_align_ok as (_ & Har & _). pose proof PAGE_SIZE_bound.
  destruct (get_order_spec size ltac:(lia)) as [Ho Hsz].
  unfold kmalloc, do_kmalloc_node. destruct (Z.ltb_spec size (PAGE_SIZE - kmalloc_align)); [lia|].
  unfold slob_new_pages. set (g := if get_order size =? 0 then _ else _).
  set (nid := if _ && _ then _ else _).
  destruct (alloc_pages_node (page_allocator st) nid g (get_order size)) as [r a] eqn:E.
  assert (slob_inv (set_allocator st a (reclaim_state st)) ps live) as Hinv'.
  { apply inv_set_allocator; [done|]. intros q Hq. eapply alloc_pages_keeps; [exact E|].
    by destruct (ss_addr _ _ _ (si_str _ _ _ Hinv) q Hq) as (_ & _ & ?). }
  eexists _, _. split; [done|]. split; [done|]. split; [done|]. split; [done|].
  destruct r as [p|]; [right|by left]. destruct (alloc_pages_fresh _ _ _ _ _ _ E) as (Hp0 & Hd & Hf & _).
  pose proof (Z.divide_pos_le _ _ Hp0 Hd) as Hpp. pose proof ZERO_SIZE_PTR_range as Hz.
  assert (forall q, q ∈ ps -> q + PAGE_SIZE <= p \/ p + PAGE_SIZE * 2 ^ get_order size <= q) as Hap
    by (intros q Hq; exact (block_apart st ps live _ _ _ p a q Hinv E Ho Hq)).
  assert (compound_order a p = get_order size) as Hco.
  { eapply compound_order_block; [exact E|]. unfold g.
    destruct (Z.eqb_spec (get_order size) 0); [by left|right]. split; [done|apply comp_flag]. }
  assert (PageSlab (pages st p) = false) as Hsl.
  { rewrite (ss_slab _ _ _ (si_str _ _ _ Hinv)). apply bool_decide_eq_false. intros Hin.
    assert (0 < 2 ^ get_order size) by (by apply pow2_pos). specialize (Hap p Hin). nia. }
  unfold kmalloc_pages, NULL. split; [lia|]. split; [done|]. split; [done|]. split; [|split].
  - intros x Hx. destruct (obj_in_page st ps live x Hinv Hx) as (Hq & H1 & H2). specialize (Hap _ Hq). lia.
  - unfold ksize, NULL. destruct (Z.eqb_spec p 0); [lia|]. destruct (Z.eqb_spec p ZERO_SIZE_PTR); [lia|].
    rewrite (virt_to_page_page p Hd). cbn [pages page_allocator set_allocator]. rewrite Hsl, Hco. cbn [negb].
    by rewrite Z.shiftl_mul_pow2.
  - unfold kfree, ZERO_OR_NULL_PTR. destruct (Z.leb_spec p ZERO_SIZE_PTR); [lia|].
    rewrite (virt_to_page_page p Hd). cbn [pages page_allocator set_allocator]. rewrite Hsl, Hco.
    eexists. split; [done|]. split; [|done]. apply inv_set_allocator; [done|]. intros q Hq.
    rewrite free_pages_out; [|done|]. 2:{ pose proof PAGE_SIZE_pos. specialize (Hap q Hq). lia. }
    by destruct (ss_addr _ _ _ (si_str _ _ _ Hinv') q Hq) as (_ & _ & ?).
Qed.

(** The pointers that are no block. *)
Lemma kmalloc_special st alt gfp :
  kmalloc st alt 0 gfp = Ok (st, ZERO_SIZE_PTR) /\
  kfree st ZERO_SIZE_PTR = Ok st /\ kfree st NULL = Ok st /\
  ksize st ZERO_SIZE_PTR = Ok 0 /\ ksize st NULL = Bug.
Proof.
  destruct kmalloc_align_ok as (_ & Har & _). pose proof PAGE_SIZE_bound.
  pose proof ZERO_SIZE_PTR_range. split; [|split; [|split; [|split; [|done]]]].
  - unfold kmalloc, do_kmalloc_node. by destruct (Z.ltb_spec 0 (PAGE_SIZE - kmalloc_align)); [|lia].
  - unfold kfree, ZERO_OR_NULL_PTR. by rewrite Z.leb_refl.
  - unfold kfree, ZERO_OR_NULL_PTR, NULL. by destruct (Z.leb_spec 0 ZERO_SIZE_PTR); [|lia].
  - unfold ksize, NULL. destruct (Z.eqb_spec ZERO_SIZE_PTR 0); [lia|]. by rewrite Z.eqb_refl.
Qed.

(** C32: the kmalloc front end, for every size.  (The state is one that calls
    with [sp_alt] [NULL] or a page on a list lead to.)
    For size 0 [kmalloc] returns [ZERO_SIZE_PTR], which [kfree] ignores as it
    does NULL, and of which [ksize] is 0; [ksize] of NULL stops the kernel.
    For sizes below a page less the header, provided the uninitialised [sp_alt]
    of [slob_alloc] is [NULL] or a page on a list, it returns; if the pointer is not
    NULL it is aligned, the [size] bytes after it belong to a new live object
    whose header holds the size, and the state is again one the allocator can
    reach; for such a pointer, if the header was not overwritten, [kfree] frees
    exactly the object that kmalloc allocated, header included, and [ksize] is
    at least the size asked for, less than a unit more, and exactly the room
    from the pointer to the end of the block's last unit.
    For larger sizes it takes a block of pages: it returns NULL, or the start of
    pages that hold the size and no live object; the contents of memory, the
    counters and the allocator's invariant do not change, [ksize] is the size
    of the pages, and [kfree] gives back exactly these pages. *)
Theorem kmalloc_kfree st live :
  reachable st live ->
  (forall alt gfp, kmalloc st alt 0 gfp = Ok (st, ZERO_SIZE_PTR) /\
   kfree st ZERO_SIZE_PTR = Ok st /\ kfree st NULL = Ok st /\
   ksize st ZERO_SIZE_PTR = Ok 0 /\ ksize st NULL = Bug) /\
  (forall alt size gfp, sp_alt_ok st alt -> 1 <= size < PAGE_SIZE - kmalloc_align ->
   exists st' p, kmalloc st alt size gfp = Ok (st', p) /\
     ((p = NULL /\ reachable st' live) \/
      (p <> NULL /\ (kmalloc_align | p) /\ kmalloc_block st' p size /\
       reachable st' ((p - kmalloc_align, size + kmalloc_align) :: live)))) /\
  (forall live' p size,
   live ≡ₚ (p - kmalloc_align, size + kmalloc_align) :: live' -> kmalloc_block st p size ->
   (exists st', kfree st p = Ok st' /\ reachable st' live' /\
      used_m st' = int (used_m st - (size + kmalloc_align))) /\
   (exists k, ksize st p = Ok k /\ size <= k < size + SLOB_UNIT /\
      p + k = p - kmalloc_align + SLOB_UNITS (size + kmalloc_align) * SLOB_UNIT)) /\
  (exists ps, slob_inv st ps live /\
   forall alt size gfp, PAGE_SIZE - kmalloc_align <= size ->
   exists st' p, kmalloc st alt size gfp = Ok (st', p) /\ slob_inv st' ps live /\
     memory st' = memory st /\ counters st' = counters st /\
     (p = NULL \/ kmalloc_pages st st' ps live size p)).
Proof.
  intros Hr. split; [intros alt gfp; apply kmalloc_special|]. split; [intros; by apply kmalloc_returns|].
  split; [intros; split; [by eapply kfree_small|by eapply ksize_small]|].
  destruct (reachable_inv st live Hr) as [ps Hinv]. exists ps. split; [done|].
  intros alt size gfp. by apply kmalloc_whole_pages.
Qed.

(** ** The uninitialised [sp_alt] *)

Lemma page_alloc_slab st sp n align st' r :
  slob_page_alloc st sp n align = Ok (st', r) ->
  forall p, PageSlab (pages st' p) = PageSlab (pages st p).
Proof.
  unfold slob_page_alloc. destruct (slob_page_scan _ _ _ _ _ _ _) as [[[[m fl] cur]|]| | |];
    cbn [res_bind]; try done; intros H p; injection H as <- _; [|done].
  case_tests; cbn; case_tests; by subst.
Qed.

(** What the loop starts with stays chosen unless a page of the list with
    enough free units has fewer. *)
Lemma pick_stays st n node l q :
  (forall q', q' ∈ l -> eligible st n node q' = true ->
     pg_units (pages st q) <= pg_units (pages st q')) ->
  slob_pick st n node (Some q) l = Some q.
Proof.
  unfold eligible. induction l as [|sp l IH]; intros H; [done|]. cbn [slob_pick].
  assert (slob_pick st n node (Some q) l = Some q) as Hl by (apply IH; set_solver).
  specialize (H sp ltac:(set_solver)). destruct (_ && _ && _); [done|]. cbn [negb andb] in H.
  destruct (Z.ltb_spec (ulong (pg_units (pages st sp))) (SLOB_UNITS n)); [done|].
  rewrite (proj2 (Z.ltb_ge (pg_units (pages st sp)) _)); [done|]. by apply H, Z.leb_le.
Qed.

(** [sp_alt] is not initialised.  If no page of the list that has enough free
    units has fewer than the garbage page [q], the loop leaves [q] in it, and
    when the free-list fields of that [struct page] can serve the request,
    [slob_alloc] hands out memory of that page: nothing checks that it is one
    of the allocator's pages, and its [PG_slab] flag stays as it was. *)
Lemma slob_alloc_garbage st q n gfp align node st1 a :
  (forall q', q' ∈ list_elems (free_lists st) (slob_list_for n) ->
     eligible st n node q' = true -> pg_units (pages st q) <= pg_units (pages st q')) ->
  slob_page_alloc st q n align = Ok (st1, Some a) ->
  exists st', slob_alloc st (Some q) n gfp align node = Ok (st', Some a) /\
    PageSlab (pages st' q) = PageSlab (pages st q).
Proof.
  intros Hl Heq. unfold slob_alloc, slob_alloc_search. rewrite pick_stays by done. rewrite Heq. cbn [res_bind].
  eexists. split; [done|]. rewrite <- (page_alloc_slab _ _ _ _ _ _ Heq q).
  unfold slob_alloc_finish. by destruct (_ =? 0).
Qed.

End Theory.
