(* ===== verification/SlobRefine.v ===== *)
(** * slob.c: the abstract allocator that it implements

    [spec] is the allocator without bytes: for each page it holds the list of
    its free blocks, and beside it the page lists, the page allocator and the
    statistics.  [spec_alloc] and [spec_free] are what [slob_alloc] and
    [slob_free] do to it: the best page of the list, first fit on that page,
    else a new page; coalescing on free, and giving back a page without
    objects.  The search starts from the page [alt] that the uninitialised
    [sp_alt] may point to, if it is one on a list.  [slob_refines_spec] shows that the code, with its headers in
    memory and its fields in [struct page], implements them to the address. *)

From S2P Require Import Prelude Mem KernelEnv SlobPage Slob SlobProofs SlobSpec.

Section Defs.
Context `{K : KernelEnv} `{L : ListApi} `{P : PageApi}.

Record spec : Type := {
  blocks : gmap Z (list block);
  s_lists : lists;
  s_alloc : pagealloc;
  s_counters : Z * Z * Z * Z          (* pcount, free, used_m, claimed_m *)
}.

Definition blocks_of (a : spec) (p : Z) : list block := default [] (blocks a !! p).
Definition units_of (a : spec) (p : Z) : Z := total (blocks_of a p).

(** The best page of [l] for [n] bytes; [best] is the best one so far. *)
Fixpoint spec_pick (a : spec) (n node : Z) (best : option Z) (l : list Z) : option Z :=
  match l with
  | [] => best
  | p :: r =>
    if (CONFIG_NUMA && negb (node =? NUMA_NO_NODE) && negb (page_to_nid p =? node))
       || (units_of a p <? SLOB_UNITS n)
    then spec_pick a n node best r
    else
      let q := default p best in
      spec_pick a n node (Some (if units_of a p <? units_of a q then p else q)) r
  end.

(** What the search may start from: nothing, or a page that is on a list. *)
Definition alt_listed (a : spec) (alt : option Z) : Prop :=
  match alt with None => True | Some q => on_list (s_lists a) q end.

(** The page, the block on it and the free blocks that remain. *)
Definition spec_search (a : spec) (alt : option Z) (n align node : Z) : option (Z * Z * list block) :=
  match spec_pick a n node alt (list_elems (s_lists a) (slob_list_for n)) with
  | None => None
  | Some p =>
    match fit p (SLOB_UNITS n) align (blocks_of a p) with
    | None => None
    | Some (x, bl) => Some (p, x, bl)
    end
  end.

(** The page [p] keeps the free blocks [bl]; a full page is on no list. *)
Definition spec_take (a : spec) (p : Z) (bl : list block) : spec :=
  {| blocks := <[p := bl]> (blocks a);
     s_lists := if decide (bl = []) then list_del (s_lists a) p else s_lists a;
     s_alloc := s_alloc a; s_counters := s_counters a |}.

Definition spec_count (a : spec) : spec :=
  let '(pc, _, us, cl) := s_counters a in
  let f := fold_left (fun f p => ulong (f + units_of a p))
             (list_elems (s_lists a) free_slob_small
              ++ list_elems (s_lists a) free_slob_medium
              ++ list_elems (s_lists a) free_slob_large) 0 in
  {| blocks := blocks a; s_lists := s_lists a; s_alloc := s_alloc a; s_counters := (pc, f, us, cl) |}.

Definition spec_used (a : spec) (n : Z) : spec :=
  let '(pc, f, us, cl) := s_counters a in
  {| blocks := blocks a; s_lists := s_lists a; s_alloc := s_alloc a;
     s_counters := (pc, f, int (us + n), cl) |}.

Definition spec_set_alloc (a : spec) (pa : pagealloc) : spec :=
  {| blocks := blocks a; s_lists := s_lists a; s_alloc := pa; s_counters := s_counters a |}.

(** A new page with one free block, on the list [l]. *)
Definition spec_add_page (a : spec) (p : Z) (l : slob_list) : spec :=
  {| blocks := <[p := [(0, page_units)]]> (blocks a); s_lists := list_add (s_lists a) p l;
     s_alloc := s_alloc a; s_counters := s_counters a |}.

Definition spec_paged (a : spec) : spec :=
  let '(pc, f, us, cl) := s_counters a in
  {| blocks := blocks a; s_lists := s_lists a; s_alloc := s_alloc a;
     s_counters := (ulong (pc + 1), f, us, int (cl + PAGE_SIZE)) |}.

(** Serve the request from a new page. *)
Definition spec_grow (a : spec) (n gfp align node : Z) : spec * option Z :=
  let nid := if CONFIG_NUMA && negb (node =? NUMA_NO_NODE) then Some node else None in
  match alloc_pages_node (s_alloc a) nid (Z.land gfp (Z.lnot GFP_ZERO)) 0 with
  | (None, pa) => (spec_set_alloc a pa, None)
  | (Some p, pa) =>
    let a := spec_add_page (spec_set_alloc a pa) p (slob_list_for n) in
    match fit p (SLOB_UNITS n) align [(0, page_units)] with
    | None => (a, None)
    | Some (x, bl) => (spec_used (spec_paged (spec_take a p bl)) n, Some (at_unit p x))
    end
  end.

Definition spec_alloc (a : spec) (alt : option Z) (n gfp align node : Z) : spec * option Z :=
  match spec_search a alt n align node with
  | Some (p, x, bl) => (spec_used (spec_count (spec_take a p bl)) n, Some (at_unit p x))
  | None => spec_grow (spec_count a) n gfp align node
  end.

(** The block [(o, u)] of the page [p] is free again: a page without objects
    leaves the allocator (the result is [true]), a full one goes on [l]. *)
Definition spec_give (a : spec) (p o u : Z) (l : slob_list) : spec * bool :=
  let bl := blocks_of a p in
  if total bl + u =? page_units then
    ({| blocks := delete p (blocks a);
        s_lists := if decide (bl = []) then s_lists a else list_del (s_lists a) p;
        s_alloc := s_alloc a; s_counters := s_counters a |}, true)
  else
    ({| blocks := <[p := give_back o u bl]> (blocks a);
        s_lists := if decide (bl = []) then list_add (s_lists a) p l else s_lists a;
        s_alloc := s_alloc a; s_counters := s_counters a |}, false).

Definition spec_unpaged (a : spec) : spec :=
  let '(pc, f, us, cl) := s_counters a in
  {| blocks := blocks a; s_lists := s_lists a; s_alloc := s_alloc a;
     s_counters := (ulong (pc - 1), f, us, cl) |}.

Definition spec_free (a : spec) (b n : Z) : spec :=
  let p := virt_to_page b in
  let '(a, last) :=
    spec_give (spec_used a (- n)) p ((b - p) / SLOB_UNIT) (SLOB_UNITS n) (slob_list_for n) in
  if (last : bool) then spec_unpaged (spec_set_alloc a (free_pages (s_alloc a) p 0)) else a.

(** The abstract allocator driven by its clients, with the objects they hold. *)
Inductive spec_step : spec * list (Z * Z) -> spec * list (Z * Z) -> Prop :=
| spec_step_alloc a live alt n gfp align node :
    alt_listed a alt -> 1 <= n <= PAGE_SIZE -> valid_align align -> align <= PAGE_SIZE ->
    spec_step (a, live)
      ((spec_alloc a alt n gfp align node).1,
       match (spec_alloc a alt n gfp align node).2 with Some p => (p, n) :: live | None => live end)
| spec_step_free a live live' p n :
    live ≡ₚ (p, n) :: live' -> spec_step (a, live) (spec_free a p n, live').

(** The abstract state at boot. *)
Definition spec_boot (st : slob) : spec :=
  {| blocks := ∅; s_lists := free_lists st; s_alloc := page_allocator st;
     s_counters := (pcount st, free st, used_m st, claimed_m st) |}.

(** ** The refinement relation *)

(** The headers in memory and the [struct page] fields represent the list [bl]. *)
Record page_shape (m : mem) (pg : page) (p : Z) (bl : list block) : Prop := {
  sp_ok : blocks_ok 0 bl;
  sp_chain : chain m p bl;
  sp_units : pg_units pg = total bl;
  sp_freelist : bl <> [] -> pg_freelist pg = at_unit p (first_off bl page_units);
  sp_flag : PageSlobFree pg = bool_decide (bl <> [])
}.

Definition shape (st : slob) (bs : gmap Z (list block)) : Prop :=
  forall p bl, bs !! p = Some bl -> page_shape (memory st) (pages st p) p bl.

(** What holds inside a call. *)
Record matches (st : slob) (a : spec) (live : list (Z * Z)) : Prop := {
  mt_core : slob_core st (dom (blocks a)) live;
  mt_shape : shape st (blocks a);
  mt_lists : free_lists st = s_lists a;
  mt_alloc : page_allocator st = s_alloc a;
  mt_counters : counters st = s_counters a
}.

Record refines (st : slob) (a : spec) (live : list (Z * Z)) : Prop := {
  rf_inv : slob_inv st (dom (blocks a)) live;
  rf_matches :> matches st a live
}.

End Defs.

Section Theory.
Context `{K : KernelEnv} {KL : KernelEnvLaws K}.
Context `{L : ListApi} {LL : ListApiLaws L}.
Context `{P : PageApi} {PL : PageApiLaws K P}.

(** ** Shapes of pages *)

Lemma page_inv_shape m pg p bl lv : page_inv m pg p bl lv -> page_shape m pg p bl.
Proof. intros []. by split. Qed.

Lemma page_shape_agree m m' pg p bl :
  agree m m' p (p + PAGE_SIZE) -> page_shape m pg p bl -> page_shape m' pg p bl.
Proof.
  intros Ha [Hok Hch Hun Hfl Hfg]. split; try done. eapply segment_agree; [|done].
  intros b Hb. apply blocks_ok_ordered in Hok.
  destruct (ordered_elem _ _ _ Hok Hb) as (Hb1 & Hb2 & Hb3). split; [done|].
  eapply agree_sub; [done|..]; unfold at_unit; rewrite ?page_size_units;
    pose proof SLOB_UNIT_pos; nia.
Qed.

Lemma page_shape_total m pg p bl : page_shape m pg p bl -> 0 <= total bl <= page_units.
Proof.
  intros [Hok _ _ _ _]. pose proof page_units_range.
  pose proof (total_bound 0 bl (blocks_ok_ordered _ _ Hok)). lia.
Qed.

Lemma page_shape_nil m pg p bl : page_shape m pg p bl -> total bl = 0 <-> bl = [].
Proof.
  intros [Hok _ _ _ _]. pose proof page_units_range.
  apply (total_zero 0); [by apply blocks_ok_ordered|lia].
Qed.

(** A step that works on one page. *)
Lemma shape_step st st' bs p bl :
  shape st bs -> (forall q, q ∈ dom bs -> (PAGE_SIZE | q)) -> (PAGE_SIZE | p) -> page_step st st' p ->
  page_shape (memory st') (pages st' p) p bl -> shape st' (<[p := bl]> bs).
Proof.
  intros Hs Hd Hp Hst Hbl q bl'. destruct (decide (q = p)) as [->|Hq].
  - rewrite lookup_insert_eq. by intros [= <-].
  - rewrite lookup_insert_ne by done. intros Hbl'. rewrite (ps_pages _ _ _ Hst q Hq).
    eapply page_shape_agree; [|by apply Hs]. intros x Hx. apply (ps_memory _ _ _ Hst).
    apply (pages_apart q p x); [|done..]. apply Hd. by apply elem_of_dom_2 in Hbl'.
Qed.

(** The flags [PG_slab] say which pages are held. *)
Lemma slab_unique st ps ps' live live' : slob_str st ps live -> slob_str st ps' live' -> ps = ps'.
Proof.
  intros [_ H1] [_ H2]. apply set_eq. intros p. specialize (H1 p). rewrite H2 in H1.
  destruct (decide (p ∈ ps)) as [Hp|Hp].
  - rewrite (bool_decide_eq_true_2 (p ∈ ps)) in H1 by done. apply bool_decide_eq_true in H1. tauto.
  - rewrite (bool_decide_eq_false_2 (p ∈ ps)) in H1 by done. apply bool_decide_eq_false in H1. tauto.
Qed.

(** ** Choosing a page and counting *)

Lemma units_of_shape st a p :
  shape st (blocks a) -> p ∈ dom (blocks a) ->
  pg_units (pages st p) = units_of a p /\ 0 <= units_of a p <= page_units.
Proof.
  intros Hs [bl Hp]%elem_of_dom. unfold units_of, blocks_of. rewrite Hp. cbn.
  pose proof (Hs p bl Hp) as Hsh. split; [apply Hsh|by eapply page_shape_total].
Qed.

Lemma pick_refines st a n node l best :
  shape st (blocks a) -> (forall p, p ∈ l -> p ∈ dom (blocks a)) ->
  (forall p, best = Some p -> p ∈ dom (blocks a)) ->
  slob_pick st n node best l = spec_pick a n node best l.
Proof.
  intros Hs. pose proof page_units_bound. pose proof PAGE_SIZE_bound. revert best.
  induction l as [|p l IH]; intros best Hl Hb; [done|]. cbn [slob_pick spec_pick].
  destruct (units_of_shape st a p Hs) as [Ep Hp]; [apply Hl; set_solver|].
  rewrite Ep, ulong_small by lia.
  assert (forall q, q ∈ l -> q ∈ dom (blocks a)) as Hl' by (intros q Hq; apply Hl; set_solver).
  destruct (CONFIG_NUMA && _ && _); cbn [orb]; [by apply IH|].
  destruct (_ <? _); [by apply IH|].
  assert (default p best ∈ dom (blocks a)) as Hq.
  { destruct best as [q|]; cbn; [by apply Hb|apply Hl; set_solver]. }
  destruct (units_of_shape st a _ Hs Hq) as [Eq _].
  replace (match best with Some q => q | None => p end) with (default p best) by (by destruct best).
  rewrite Eq. apply IH; [done|]. intros q [= <-]. destruct (_ <? _); [apply Hl; set_solver|done].
Qed.

Lemma matches_aligned st a live q : matches st a live -> q ∈ dom (blocks a) -> (PAGE_SIZE | q).
Proof. intros [Hc _ _ _ _] Hq. by destruct (ss_addr _ _ _ Hc q Hq) as (_ & H & _). Qed.

Lemma matches_listed st a live h p :
  matches st a live -> p ∈ list_elems (s_lists a) h -> p ∈ dom (blocks a).
Proof. intros [Hc _ <- _ _] Hp. apply (ss_on _ _ _ Hc p). by exists h. Qed.

Lemma count_matches st a live :
  matches st a live ->
  matches (set_counters st (pcount st) (slob_count_free st) (used_m st) (claimed_m st))
    (spec_count a) live.
Proof.
  intros Hm. pose proof Hm as [Hc Hs El Ea Ec]. unfold spec_count. rewrite <- Ec.
  unfold counters at 1. cbn iota. split; cbn [blocks s_lists s_alloc s_counters]; [|done..|].
  { by apply core_set_counters. }
  unfold counters, slob_count_free. cbn [pcount free used_m claimed_m set_counters].
  rewrite !list_is_lru, El.
  do 3 f_equal.
  set (l := list_elems (s_lists a) free_slob_small ++ _).
  assert (forall p, p ∈ l -> p ∈ dom (blocks a)) as Hl.
  { intros p. unfold l. rewrite !elem_of_app. intros [|[|]]; by eapply matches_listed. }
  clearbody l. generalize 0. induction l as [|p l IH]; intros f; [done|]. cbn [fold_left].
  destruct (units_of_shape st a p Hs) as [-> _]; [apply Hl; set_solver|].
  apply IH. intros q Hq. apply Hl. set_solver.
Qed.

(** ** Allocating on a page *)

Lemma taken_shape st p m' bl bl' :
  page_shape (memory st) (pages st p) p bl -> bl <> [] -> blocks_ok 0 bl' -> chain m' p bl' ->
  page_shape (memory (taken st p m' bl')) (pages (taken st p m' bl') p) p bl'.
Proof.
  intros [Hok Hch Hun Hfl Hfg] Hne Hok' Hch'. rewrite bool_decide_eq_true_2 in Hfg by done.
  destruct (taken_fields st p m' bl') as (Em & _ & _ & _ & Eu & Ef & _). rewrite Em.
  split; [done|done|done|done|]. apply taken_flag; [done|]. pose proof page_units_range.
  apply (total_zero 0); [by apply blocks_ok_ordered|lia].
Qed.

(** [slob_page_alloc] on a page with free blocks. *)
Lemma page_alloc_matches st a live p bl n align :
  matches st a live -> blocks a !! p = Some bl -> bl <> [] ->
  1 <= n <= PAGE_SIZE -> valid_align align ->
  match fit p (SLOB_UNITS n) align bl with
  | None => slob_page_alloc st p n align = Ok (st, None)
  | Some (x, bl') =>
    exists st', slob_page_alloc st p n align = Ok (st', Some (at_unit p x)) /\
      matches st' (spec_take a p bl') ((at_unit p x, n) :: live) /\
      virt_to_page (at_unit p x) = p
  end.
Proof.
  intros Hm Hbl Hne Hn Hal. pose proof Hm as [Hc Hs El Ea Ec]. pose proof (Hs p bl Hbl) as Hsh.
  pose proof Hsh as [Hok Hch Hun Hfl Hfg]. rewrite bool_decide_eq_true_2 in Hfg by done.
  assert (p ∈ dom (blocks a)) as Hp by (by apply elem_of_dom_2 in Hbl).
  pose proof (matches_aligned _ _ _ _ Hm Hp) as Hdiv.
  pose proof (page_alloc_fit st p bl n align Hdiv Hal Hn Hne Hok Hch (Hfl Hne) Hun) as H.
  destruct (fit p (SLOB_UNITS n) align bl) as [[x bl']|] eqn:Efit; [|done].
  destruct H as (m' & E & Hch' & Hout). destruct (units_of_size n Hn) as [Hu _].
  destruct (fit_ok _ _ _ _ _ _ _ Hdiv Hal Hu Hok Efit) as (Hok' & _).
  pose proof (taken_shape st p m' bl bl' Hsh Hne Hok' Hch') as Hsh'.
  destruct (page_alloc_core st _ live p n align Hc Hp Hfg Hn Hal) as (st' & r & E' & Hr).
  rewrite E in E'. injection E' as Est <-. subst st'. destruct Hr as (Hc' & Hstep & Hv & _).
  fold (taken st p m' bl') in *. exists (taken st p m' bl'). split; [exact E|]. split; [|done].
  pose proof (page_shape_nil _ _ _ _ Hsh') as Hz. split; cbn [blocks s_lists s_alloc s_counters spec_take].
  - replace (dom (<[p := bl']> (blocks a))) with (dom (blocks a)); [done|].
    rewrite dom_insert_L. apply set_eq. set_solver.
  - apply (shape_step st); [done| |done|done|done]. intros q Hq. by eapply matches_aligned.
  - unfold taken. destruct (Z.eqb_spec (total bl') 0) as [E0|E0]; cbn.
    + rewrite decide_True by (by apply Hz). by rewrite El.
    + rewrite decide_False by (intros H'; by apply E0, Hz). done.
  - by rewrite (ps_alloc _ _ _ Hstep).
  - by rewrite (ps_counters _ _ _ Hstep).
Qed.

Lemma alt_matches st a live alt : matches st a live -> sp_alt_ok st alt -> alt_listed a alt.
Proof. intros [_ _ El _ _]. unfold sp_alt_ok, alt_listed. by rewrite El. Qed.

Lemma on_list_held st a live p :
  matches st a live -> on_list (free_lists st) p ->
  exists bl, blocks a !! p = Some bl /\ bl <> [].
Proof.
  intros [Hc Hs _ _ _] [Hp Hf]%(ss_on _ _ _ Hc). apply elem_of_dom in Hp as [bl Hbl].
  exists bl. split; [done|]. rewrite (sp_flag _ _ _ _ (Hs p bl Hbl)) in Hf.
  by apply bool_decide_eq_true in Hf.
Qed.

(** The first section under the lock. *)
Lemma search_matches st a live alt n align node :
  matches st a live -> sp_alt_ok st alt -> 1 <= n <= PAGE_SIZE -> valid_align align ->
  match spec_search a alt n align node with
  | None => slob_alloc_search st alt n align node = Ok (st, None)
  | Some (p, x, bl) =>
    exists st', slob_alloc_search st alt n align node = Ok (st', Some (at_unit p x)) /\
      matches st' (spec_take a p bl) ((at_unit p x, n) :: live) /\
      virt_to_page (at_unit p x) = p
  end.
Proof.
  intros Hm Halt Hn Hal. pose proof Hm as [Hc Hs El Ea Ec]. unfold spec_search, slob_alloc_search.
  assert (slob_pick st n node alt (list_elems (free_lists st) (slob_list_for n))
          = spec_pick a n node alt (list_elems (s_lists a) (slob_list_for n))) as Epick.
  { rewrite El. apply pick_refines; [done| |].
    - intros q. by eapply matches_listed.
    - intros q ->. by apply (ss_on _ _ _ Hc). }
  rewrite <- Epick.
  destruct (slob_pick st n node alt _) as [p|] eqn:Ep; [|done].
  destruct (on_list_held _ _ _ _ Hm (pick_on_list _ _ _ _ _ _ Halt Ep)) as (bl & Hbl & Hne).
  unfold blocks_of. rewrite Hbl. cbn.
  pose proof (page_alloc_matches st a live p bl n align Hm Hbl Hne Hn Hal) as H.
  by destruct (fit p (SLOB_UNITS n) align bl) as [[x bl']|].
Qed.

(** The new page joins the list. *)
Lemma fill_matches st a live p l :
  matches st a live -> (p ∉ dom (blocks a)) -> own_page st p ->
  matches (slob_fill_page st p p l) (spec_add_page a p l) live.
Proof.
  intros Hm Hp Hown. pose proof Hm as [Hc Hs El Ea Ec]. pose proof Hown as (_ & Hdiv & _).
  pose proof page_units_range. destruct (fill_core st _ live p l Hc Hp Hown) as (Hc' & _ & Hinv & _).
  split; cbn [blocks s_lists s_alloc s_counters spec_add_page].
  - by rewrite dom_insert_L.
  - apply (shape_step st); [done| |done| |by eapply page_inv_shape].
    { intros q Hq. by eapply matches_aligned. }
    split; [|by rewrite fill_page_at| |done|done].
    + intros q Hq%Z.eqb_neq. unfold slob_fill_page. cbn. by rewrite !Hq.
    + intros x Hx. change (memory (slob_fill_page st p p l))
        with (set_slob (memory st) p page_units (p + page_units * SLOB_UNIT)).
      apply set_slob_out; [lia|]. by rewrite <- page_size_units.
  - cbn. by rewrite El.
  - exact Ea.
  - exact Ec.
Qed.


(** ** The free list of a page is determined by its bytes *)

Lemma segment_unique m base bl : forall bl' lo,
  (PAGE_SIZE | base) -> ordered lo bl -> ordered lo bl' -> 0 <= lo ->
  segment m base bl page_units -> segment m base bl' page_units ->
  first_off bl page_units = first_off bl' page_units -> bl = bl'.
Proof.
  pose proof page_units_range.
  induction bl as [|[o s] r IH]; intros bl' lo Hb Ho Ho' Hlo Hs Hs' E;
    destruct bl' as [|[o' s'] r']; cbn [first_off ordered segment] in *; [done|lia..|].
  subst o'. destruct Ho as (Ho1 & Ho2 & Ho3 & Ho4), Ho' as (Ho1' & Ho2' & Ho3' & Ho4').
  destruct Hs as [Hh Hs], Hs' as [Hh' Hs'].
  assert (forall r s, ordered (o + s) r -> 1 <= s -> o + s <= page_units ->
            0 < first_off r page_units <= page_units) as Hn.
  { intros [|[]] s0 H0 ?; cbn in *; lia. }
  assert (s = s') as <-.
  { rewrite <- (header_units m base o s (first_off r page_units)); [|done|lia|lia|lia|by eapply Hn|done].
    apply (header_units m base o s' (first_off r' page_units)); [done|lia|lia|lia|by eapply Hn|done]. }
  f_equal. apply (IH r' (o + s)); [done..|lia|done|done|]. apply (at_unit_inj base).
  rewrite <- (header_next m base o s (first_off r page_units)); [|done|lia|lia|lia|by eapply Hn|done].
  apply (header_next m base o s (first_off r' page_units)); [done|lia|lia|lia|by eapply Hn|done].
Qed.

Lemma page_shape_unique m pg p bl bl' :
  (PAGE_SIZE | p) -> page_shape m pg p bl -> page_shape m pg p bl' -> bl = bl'.
Proof.
  intros Hd [Hok Hch _ Hfl Hfg] [Hok' Hch' _ Hfl' Hfg']. rewrite Hfg in Hfg'.
  destruct (decide (bl = [])) as [->|Hne].
  - rewrite bool_decide_eq_false_2 in Hfg' by auto. symmetry in Hfg'.
    apply bool_decide_eq_false in Hfg'. by apply dec_stable in Hfg'.
  - rewrite bool_decide_eq_true_2 in Hfg' by done. symmetry in Hfg'.
    apply bool_decide_eq_true in Hfg'.
    apply (segment_unique m p bl bl' 0); [done|by apply blocks_ok_ordered..|lia|done|done|].
    apply (at_unit_inj p). by rewrite <- Hfl, <- Hfl'.
Qed.

Lemma shape_inv st bs live p bl :
  slob_core st (dom bs) live -> shape st bs -> bs !! p = Some bl ->
  page_inv (memory st) (pages st p) p bl (live_on p live).
Proof.
  intros Hc Hs Hbl. assert (p ∈ dom bs) as Hp by (by apply elem_of_dom_2 in Hbl).
  destruct (ss_pages _ _ _ Hc p Hp) as [bl' Hinv].
  destruct (ss_addr _ _ _ Hc p Hp) as (_ & Hd & _).
  by rewrite (page_shape_unique _ _ _ _ _ Hd (Hs p bl Hbl) (page_inv_shape _ _ _ _ _ Hinv)).
Qed.

(** Clients may write in their objects. *)
Lemma shape_write_live st bs live a n m' :
  slob_core st (dom bs) live -> (a, n) ∈ live ->
  (forall x, x < a \/ a + n <= x -> m' x = memory st x) -> shape st bs -> shape (set_memory st m') bs.
Proof.
  intros Hc Hin Hm Hs p bl Hbl. pose proof (shape_inv _ _ _ _ _ Hc Hs Hbl) as Hinv.
  apply (page_inv_shape _ _ _ _ (live_on p live)). cbn.
  apply (page_write_live st (dom bs) live a n); [done..|by apply elem_of_dom_2 in Hbl|done].
Qed.


(** ** slob_alloc *)

Lemma matches_set_counters st a live pc f us cl :
  matches st a live ->
  matches (set_counters st pc f us cl)
    {| blocks := blocks a; s_lists := s_lists a; s_alloc := s_alloc a;
       s_counters := (pc, f, us, cl) |} live.
Proof. intros [Hc Hs El Ea Ec]. split; [by apply core_set_counters|done..]. Qed.

(** The end of [slob_alloc]: the block is cleared if asked, and counted. *)
Lemma finish_matches st a live n gfp b :
  matches st a ((b, n) :: live) ->
  matches (slob_alloc_finish st b n gfp) (spec_used a n) ((b, n) :: live).
Proof.
  intros Hm. unfold spec_used. rewrite <- (mt_counters _ _ _ Hm). unfold counters, slob_alloc_finish.
  destruct (_ =? 0); apply matches_set_counters; [done|]. destruct Hm as [Hc Hs El Ea Ec].
  assert (forall x, x < b \/ b + n <= x -> memset (memory st) b 0 n x = memory st x) as Hx
    by (intros x; apply memset_out).
  split; [|by eapply shape_write_live; [|apply list_elem_of_here| |]|done..].
  eapply core_write_live; [done|apply list_elem_of_here|done].
Qed.

(** Every page of the abstract state has an object, so it is a page of the
    allocator, and conversely. *)
Lemma held_subset st ps ps' live : held ps live -> slob_core st ps' live -> ps ⊆ ps'.
Proof.
  intros Hh Hc p Hp. specialize (Hh p Hp). unfold live_on in Hh.
  destruct (filter _ live) as [|x r] eqn:E; [done|].
  assert (x ∈ filter (fun x => virt_to_page x.1 = p) live) as Hx by (rewrite E; apply list_elem_of_here).
  apply list_elem_of_filter in Hx as [<- Hx]. by destruct (ss_live _ _ _ Hc x Hx).
Qed.

Lemma matches_refines st ps a live :
  slob_inv st ps live -> matches st a live -> held (dom (blocks a)) live -> refines st a live.
Proof.
  intros Hinv Hm Hh. split; [|done]. replace (dom (blocks a)) with ps; [done|].
  pose proof Hinv as [[Hc _] Hh' _ _]. apply set_eq. intros p. split.
  - by apply (held_subset st _ _ live Hh' (mt_core _ _ _ Hm)).
  - by apply (held_subset st _ _ live Hh Hc).
Qed.

(** A new object on the page [p]. *)
Lemma held_insert ps p b n live :
  held ps live -> virt_to_page b = p -> held ({[p]} ∪ ps) ((b, n) :: live).
Proof.
  intros Hh Hv q Hq. destruct (decide (virt_to_page b = q)) as [E|Hne].
  - by rewrite live_on_cons_eq.
  - apply live_on_cons_nonempty, Hh. set_solver.
Qed.

Lemma blocks_used a n : blocks (spec_used a n) = blocks a.
Proof. unfold spec_used. by destruct (s_counters a) as [[[]]]. Qed.

Lemma blocks_count a : blocks (spec_count a) = blocks a.
Proof. unfold spec_count. by destruct (s_counters a) as [[[]]]. Qed.

Lemma blocks_paged a : blocks (spec_paged a) = blocks a.
Proof. unfold spec_paged. by destruct (s_counters a) as [[[]]]. Qed.

Lemma shape_set_outside st bs p pg :
  p ∉ dom bs -> shape st bs -> shape (set_page st p pg) bs.
Proof.
  intros Hp Hs q bl Hq. cbn. destruct (Z.eqb_spec q p) as [->|_]; [|by apply Hs].
  destruct Hp. by apply elem_of_dom_2 in Hq.
Qed.

(** Served from a new page, or not at all. *)
Lemma grow_matches st a live n gfp align node :
  matches st a live -> 1 <= n <= PAGE_SIZE -> valid_align align -> align <= PAGE_SIZE ->
  exists st1 r, slob_alloc_new_page st (slob_list_for n) n gfp align node = Ok (st1, r) /\
    (spec_grow a n gfp align node).2 = r /\
    match r with
    | None => matches st1 (spec_grow a n gfp align node).1 live /\
        dom (blocks (spec_grow a n gfp align node).1) = dom (blocks a)
    | Some b => matches (slob_alloc_finish st1 b n gfp) (spec_grow a n gfp align node).1 ((b, n) :: live) /\
        dom (blocks (spec_grow a n gfp align node).1) = {[virt_to_page b]} ∪ dom (blocks a)
    end.
Proof.
  intros Hm Hn Hal Hle. pose proof Hm as [Hc Hs El Ea Ec].
  unfold slob_alloc_new_page, slob_new_pages, spec_grow. rewrite Ea.
  set (nid := if _ && _ then _ else _).
  destruct (alloc_pages_node (s_alloc a) nid _ 0) as [r pa] eqn:Ep. rewrite <- Ea in Ep.
  assert (matches (set_allocator st pa (reclaim_state st)) (spec_set_alloc a pa) live) as Hm1.
  { split; [|done..]. apply core_set_allocator; [done|]. intros p Hp.
    eapply alloc_pages_keeps; [exact Ep|]. by apply Hc. }
  destruct r as [p|]; [|by eexists _, None].
  destruct (alloc_pages_fresh _ _ _ _ _ _ Ep) as (Hp0 & Hdiv & Hfresh & Hused).
  rewrite (virt_to_page_page p Hdiv).
  assert (p ∉ dom (blocks a)) as Hnp.
  { intros Hp. destruct (ss_addr _ _ _ Hc p Hp) as (_ & _ & ?). congruence. }
  set (st1 := set_allocator st pa (reclaim_state st)) in *.
  set (st2 := set_page st1 p (set_slab (pages st1 p) true)).
  assert (matches st2 (spec_set_alloc a pa) live) as Hm2.
  { destruct Hm1 as [H1 H2 H3 H4 H5]. split; [by apply core_set_slab|by apply shape_set_outside|done..]. }
  pose proof (fill_matches st2 _ live p (slob_list_for n) Hm2 Hnp ltac:(done)) as Hm3.
  pose proof (page_alloc_matches _ _ live p [(0, page_units)] n align Hm3
    (lookup_insert_eq _ _ _) ltac:(done) Hn Hal) as H.
  destruct (fill_alloc_core st2 _ live p (slob_list_for n) n align (mt_core _ _ _ Hm2) Hnp)
    as (st3 & b & E & _); [done..|].
  destruct (fit p _ align _) as [[x bl]|] eqn:Ef; [|congruence].
  destruct H as (st4 & E' & Hm4 & Hv). rewrite E in E'. injection E' as <- ->. rewrite E.
  cbn [res_bind fst snd]. eexists _, (Some (at_unit p x)). split; [done|]. split; [done|].
  rewrite blocks_used, blocks_paged. split.
  - apply finish_matches. unfold spec_paged. rewrite <- (mt_counters _ _ _ Hm4).
    by apply matches_set_counters.
  - cbn [blocks spec_take spec_add_page spec_set_alloc]. by rewrite Hv, insert_insert_eq, dom_insert_L.
Qed.

Lemma alloc_refines st a live alt n gfp align node :
  refines st a live -> sp_alt_ok st alt -> 1 <= n <= PAGE_SIZE -> valid_align align -> align <= PAGE_SIZE ->
  exists st', slob_alloc st alt n gfp align node = Ok (st', (spec_alloc a alt n gfp align node).2) /\
    refines st' (spec_alloc a alt n gfp align node).1
      (match (spec_alloc a alt n gfp align node).2 with Some b => (b, n) :: live | None => live end).
Proof.
  intros [Hinv Hm] Halt Hn Hal Hle. pose proof (si_used_page _ _ _ Hinv) as Hh.
  destruct (slob_alloc_inv st _ live alt n gfp align node Hinv Halt Hn Hal Hle) as (st' & r & Eal & Hr).
  exists st'. revert Eal. unfold slob_alloc, spec_alloc.
  pose proof (search_matches st a live alt n align node Hm Halt Hn Hal) as H.
  destruct (spec_search a alt n align node) as [[[p x] bl]|]; cbn [fst snd].
  - destruct H as (st1 & -> & Hm1 & Hv). cbn [res_bind]. intros [= <- <-]. split; [done|].
    destruct Hr as [_ [ps' Hinv']]. eapply matches_refines; [exact Hinv'| |].
    + by apply finish_matches, count_matches.
    + rewrite blocks_used, blocks_count. cbn [blocks spec_take]. rewrite dom_insert_L.
      by apply held_insert.
  - rewrite H. cbn [res_bind].
    destruct (grow_matches _ _ live n gfp align node (count_matches _ _ _ Hm) Hn Hal Hle)
      as (st1 & r1 & -> & -> & Hg). cbn [res_bind]. rewrite blocks_count in Hg.
    destruct r1 as [b|]; intros [= <- <-]; (split; [done|]); destruct Hg as [Hm1 Hd].
    + destruct Hr as [_ [ps' Hinv']]. eapply matches_refines; [exact Hinv'|done|].
      rewrite Hd. by apply held_insert.
    + eapply matches_refines; [exact Hr|done|]. by rewrite Hd.
Qed.

(** ** slob_free *)

Lemma matches_perm st a live live' : live ≡ₚ live' -> matches st a live -> matches st a live'.
Proof. intros HP [Hc Hs El Ea Ec]. split; [by rewrite <- HP|done..]. Qed.

Lemma refines_perm st a live live' : live ≡ₚ live' -> refines st a live -> refines st a live'.
Proof. intros HP [Hinv Hm]. split; [by rewrite <- HP|by eapply matches_perm]. Qed.

(** The last object of its page. *)
Lemma release_matches st a live b n bl :
  matches st a ((b, n) :: live) -> blocks a !! virt_to_page b = Some bl ->
  total bl + SLOB_UNITS n = page_units ->
  matches (if PageSlobFree (pages st (virt_to_page b)) then clear_slob_page_free st (virt_to_page b) else st)
    (spec_give a (virt_to_page b) ((b - virt_to_page b) / SLOB_UNIT) (SLOB_UNITS n) (slob_list_for n)).1
    live.
Proof.
  intros Hm Hbl Etot. pose proof Hm as [Hc Hs El Ea Ec]. set (p := virt_to_page b) in *.
  unfold spec_give, blocks_of. rewrite Hbl. cbn [default from_option id]. rewrite (proj2 (Z.eqb_eq _ _) Etot). cbn [fst].
  pose proof (shape_inv _ _ _ _ _ Hc Hs Hbl) as Hinv.
  destruct (free_facts st _ live b n Hc) as (_ & _ & _ & _ & _ & _ & _ & _ & _ & Eon).
  unfold p in Hinv. rewrite Eon in Hinv.
  destruct (free_release_core st _ live b n Hc bl Hinv Etot) as (H1 & H2 & _). fold p in H1, H2, Hinv.
  rewrite (pi_flag _ _ _ _ _ Hinv) in *.
  split; cbn [blocks s_lists s_alloc s_counters].
  - by rewrite dom_delete_L.
  - intros q bl' [Hq Hbl']%lookup_delete_Some. specialize (Hs q bl' Hbl'). case_bool_decide; [|done].
    cbn. by rewrite (proj2 (Z.eqb_neq q p) (not_eq_sym Hq)).
  - rewrite <- El. case_bool_decide; [by rewrite decide_False|]. by rewrite decide_True.
  - by case_bool_decide.
  - by case_bool_decide.
Qed.

(** The block joins the free list of its page, which stays with the
    allocator. *)
Lemma give_back_matches st st' a live b n bl :
  matches st a ((b, n) :: live) -> blocks a !! virt_to_page b = Some bl ->
  total bl + SLOB_UNITS n <> page_units ->
  slob_core st' (dom (blocks a)) live -> page_step st st' (virt_to_page b) ->
  page_inv (memory st') (pages st' (virt_to_page b)) (virt_to_page b)
    (give_back (obj_block (virt_to_page b) (b, n)).1 (SLOB_UNITS n) bl)
    (live_on (virt_to_page b) live) ->
  free_lists st' = (if decide (bl = []) then list_add (free_lists st) (virt_to_page b) (slob_list_for n)
                    else free_lists st) ->
  matches st' (spec_give a (virt_to_page b) ((b - virt_to_page b) / SLOB_UNIT)
                 (SLOB_UNITS n) (slob_list_for n)).1 live.
Proof.
  intros Hm Hbl Etot Hc' Hst Hinv' El'. pose proof Hm as [Hc Hs El Ea Ec].
  set (p := virt_to_page b) in *. unfold spec_give, blocks_of.
  rewrite Hbl. cbn [default from_option id]. rewrite (proj2 (Z.eqb_neq _ _) Etot). cbn [fst].
  assert (p ∈ dom (blocks a)) as Hp by (by apply elem_of_dom_2 in Hbl).
  split; cbn [blocks s_lists s_alloc s_counters].
  - rewrite dom_insert_L. by replace ({[p]} ∪ dom (blocks a)) with (dom (blocks a)) by set_solver.
  - apply (shape_step st); [done| | |done|by eapply page_inv_shape].
    + intros q Hq. by eapply matches_aligned.
    + by eapply matches_aligned.
  - by rewrite El', El.
  - by rewrite (ps_alloc _ _ _ Hst).
  - by rewrite (ps_counters _ _ _ Hst).
Qed.

(** The section of [slob_free] under the lock. *)
Lemma give_matches st a live b n :
  matches st a ((b, n) :: live) ->
  exists st' bl, slob_free_locked st b n (slobidx (SLOB_UNITS (ulong n)))
    = Ok (st', (total bl + SLOB_UNITS n =? page_units)) /\
    blocks a !! virt_to_page b = Some bl /\
    matches st' (spec_give a (virt_to_page b) ((b - virt_to_page b) / SLOB_UNIT)
                   (SLOB_UNITS n) (slob_list_for n)).1 live.
Proof.
  intros Hm. pose proof Hm as [Hc Hs El Ea Ec].
  destruct (free_facts st _ live b n Hc) as (Hp & Hp0 & Hdiv & Hn & Eb & Hu & Ho & Hou & Hoth & Eon).
  pose proof PAGE_SIZE_bound. pose proof page_units_bound. unfold slob_free_locked.
  rewrite (ulong_small n), slobidx_small by lia. pose proof Hp as [bl Hbl]%elem_of_dom.
  pose proof (shape_inv _ _ _ _ _ Hc Hs Hbl) as Hinv. rewrite Eon in Hinv.
  pose proof (page_shape_total _ _ _ _ (Hs _ _ Hbl)) as Hb.
  assert (2 * page_units <= PAGE_SIZE).
  { pose proof page_size_units. pose proof page_units_range. destruct slob_unit_cases as [(?&_)|(?&_)]; nia. }
  rewrite (pi_units _ _ _ _ _ Hinv), ulong_small by lia. change (SLOB_UNITS PAGE_SIZE) with page_units at 1.
  change (slob_page_free st (virt_to_page b)) with (PageSlobFree (pages st (virt_to_page b))).
  destruct (Z.eqb_spec (total bl + SLOB_UNITS n) page_units) as [E|E].
  - eexists _, bl. rewrite (proj2 (Z.eqb_eq _ _) E). split; [done|]. split; [done|].
    by eapply release_matches.
  - pose proof (pi_flag _ _ _ _ _ Hinv) as Hfg. destruct (decide (bl = [])) as [Ebl|Hne].
    + rewrite bool_decide_eq_false_2 in Hfg by auto. rewrite Hfg. cbn [negb]. subst bl.
      destruct (free_first_str st _ live b n Hc (slob_list_for n) Hinv) as (F1 & F2 & F3 & _).
      eexists _, []. rewrite (proj2 (Z.eqb_neq _ _) E). split; [done|]. split; [done|].
      eapply give_back_matches; [exact Hm|done..].
    + rewrite bool_decide_eq_true_2 in Hfg by auto. rewrite Hfg. cbn [negb].
      destruct (free_again_str st _ live b n Hc bl Hinv Hne) as (m & fl & -> & F1 & F2 & F3 & _).
      eexists _, bl. cbn [res_bind]. rewrite (proj2 (Z.eqb_neq _ _) E).
      rewrite <- (pi_units _ _ _ _ _ Hinv). split; [done|]. split; [done|].
      eapply give_back_matches; [exact Hm|done..|]. by rewrite decide_False.
Qed.

Lemma used_matches st a live n :
  matches st a live ->
  matches (set_counters st (pcount st) (free st) (int (used_m st + n)) (claimed_m st)) (spec_used a n) live.
Proof.
  intros Hm. unfold spec_used. rewrite <- (mt_counters _ _ _ Hm). by apply matches_set_counters.
Qed.

Lemma blocks_unpaged a : blocks (spec_unpaged a) = blocks a.
Proof. unfold spec_unpaged. by destruct (s_counters a) as [[[]]]. Qed.

(** The empty page goes back to the page allocator. *)
Lemma release_page_matches st a live b :
  matches st a live -> (virt_to_page b ∉ dom (blocks a)) ->
  let st0 := set_page st (virt_to_page b) (set_slab (pages st (virt_to_page b)) false) in
  let st1 := slob_free_pages
    (set_page st0 (virt_to_page b) (mapcount_reset (pages st0 (virt_to_page b)))) b 0 in
  matches (set_counters st1 (ulong (pcount st1 - 1)) (free st1) (used_m st1) (claimed_m st1))
    (spec_unpaged (spec_set_alloc a (free_pages (s_alloc a) (virt_to_page b) 0))) live.
Proof.
  intros Hm Hp st0 st1. pose proof Hm as [Hc Hs El Ea Ec].
  assert (matches st1 (spec_set_alloc a (free_pages (s_alloc a) (virt_to_page b) 0)) live) as Hm1.
  { split; [|by do 2 (apply shape_set_outside; [done|])|done| |done].
    - by apply core_free_pages; [apply core_set_outside; [apply core_set_slab|]|].
    - cbn. by rewrite Ea. }
  unfold spec_unpaged. rewrite <- (mt_counters _ _ _ Hm1). by apply matches_set_counters.
Qed.

Lemma free_refines st a live b n :
  refines st a ((b, n) :: live) ->
  exists st', slob_free st b n = Ok st' /\ refines st' (spec_free a b n) live.
Proof.
  intros [Hinv Hm]. destruct (slob_free_inv st _ live b n Hinv) as (st' & ps' & E & Hinv').
  exists st'. split; [done|]. pose proof (free_args _ _ _ _ _ (mt_core _ _ _ Hm)) as [E1 E2].
  pose proof (used_matches _ _ _ (- n) Hm) as Hm0.
  destruct (give_matches _ _ _ _ _ Hm0) as (st1 & bl & El & Hbl & Hm1).
  unfold slob_free in E. rewrite E1, E2 in E.
  change (int (used_m st - n)) with (int (used_m st + - n)) in E. rewrite El in E. cbn [res_bind] in E.
  destruct (free_locked_core _ _ _ _ _ (mt_core _ _ _ Hm0)) as (st1' & last & El' & _ & Hp & _ & Hheld).
  rewrite El in El'. injection El' as <- Elast.
  unfold spec_free. destruct (spec_give _ _ _ _ _) as [a1 last'] eqn:Eg. cbn [fst] in Hm1.
  assert (last' = last /\ dom (blocks a1) =
            if last then dom (blocks (spec_used a (- n))) ∖ {[virt_to_page b]}
            else dom (blocks (spec_used a (- n)))) as [-> Ed].
  { unfold spec_give, blocks_of in Eg. rewrite Hbl in Eg. cbn [default from_option id] in Eg. rewrite Elast in Eg.
    destruct last; injection Eg as <- <-; (split; [done|]); cbn [blocks].
    - by rewrite dom_delete_L.
    - rewrite dom_insert_L. set_solver. }
  rewrite Elast in E. rewrite blocks_used in *. pose proof (si_used_page _ _ _ Hinv) as Hh.
  destruct last; injection E as <-; (eapply matches_refines; [exact Hinv'|..]).
  - apply release_page_matches; [done|]. rewrite Ed. set_solver.
  - rewrite blocks_unpaged. cbn [blocks spec_set_alloc]. rewrite Ed.
    intros q [Hq Hne]%elem_of_difference. specialize (Hh q Hq).
    rewrite live_on_cons_ne in Hh by (cbn; set_solver). done.
  - done.
  - rewrite Ed. destruct Hheld as [_ Hpl]. intros q Hq. specialize (Hh q Hq).
    destruct (decide (virt_to_page b = q)) as [<-|Hne]; [done|].
    by rewrite live_on_cons_ne in Hh.
Qed.

(** ** Every run of the code is a run of the specification *)

Lemma boot_refines st : at_boot st -> refines st (spec_boot st) [].
Proof.
  intros Hb. pose proof (boot_inv st Hb) as Hinv.
  assert (dom (blocks (spec_boot st)) = ∅) as Ed by (cbn; apply dom_empty_L).
  split; [by rewrite Ed|]. split; [rewrite Ed; by destruct Hinv as [[]]|done..].
Qed.

Lemma write_refines st a live b n m :
  refines st a live -> (b, n) ∈ live -> (forall x, x < b \/ b + n <= x -> m x = memory st x) ->
  refines (set_memory st m) a live.
Proof.
  intros [[Hstr Hpg Hpc Hus] [Hc Hs El Ea Ec]] Hin Hout. split.
  - split; [by eapply str_write_live|done..].
  - split; [by eapply core_write_live|by eapply shape_write_live|done..].
Qed.

(** A step of a client of the code is a step of the specification, or one
    that it does not see. *)
Lemma client_step_refines s t a :
  refines s.1 a s.2 -> client_step s t ->
  exists a', rtc spec_step (a, s.2) (a', t.2) /\ refines t.1 a' t.2.
Proof.
  intros Hr Hstep.
  destruct Hstep as [st live alt n gfp align node st' b Halt Hn Hal Hle Heq
                    |st live alt n gfp align node st' Halt Hn Hal Hle Heq
                    |st live live' b n st' HP Heq
                    |st live b n m Hin Hm]; cbn [fst snd] in *.
  - destruct (alloc_refines st a live alt n gfp align node Hr Halt Hn Hal Hle) as (s' & E & Hr').
    rewrite Heq in E. injection E as <- E. rewrite <- E in Hr'. eexists. split; [|exact Hr'].
    apply rtc_once. pose proof (spec_step_alloc a live alt n gfp align node (alt_matches _ _ _ _ Hr Halt) Hn Hal Hle) as H.
    by rewrite <- E in H.
  - destruct (alloc_refines st a live alt n gfp align node Hr Halt Hn Hal Hle) as (s' & E & Hr').
    rewrite Heq in E. injection E as <- E. rewrite <- E in Hr'. eexists. split; [|exact Hr'].
    apply rtc_once. pose proof (spec_step_alloc a live alt n gfp align node (alt_matches _ _ _ _ Hr Halt) Hn Hal Hle) as H.
    by rewrite <- E in H.
  - apply (refines_perm _ _ _ _ HP) in Hr. destruct (free_refines st a live' b n Hr) as (s' & E & Hr').
    rewrite Heq in E. injection E as <-. eexists. split; [|exact Hr']. apply rtc_once. by constructor.
  - exists a. split; [done|]. by eapply write_refines.
Qed.

Lemma client_run_refines s t a :
  refines s.1 a s.2 -> rtc client_step s t ->
  exists a', rtc spec_step (a, s.2) (a', t.2) /\ refines t.1 a' t.2.
Proof.
  intros Hr Hrun. revert a Hr. induction Hrun as [s|s u t Hs Hrun IH]; intros a Hr; [by exists a|].
  destruct (client_step_refines s u a Hr Hs) as (a1 & H1 & Hr1).
  destruct (IH a1 Hr1) as (a2 & H2 & Hr2). exists a2. split; [by etrans|done].
Qed.

(** C1: the allocator implements the abstract one, provided the [sp_alt] that
    [slob_alloc] does not initialise is, at the start of every search, [NULL] or
    a page on one of the three lists ([sp_alt_ok]).  Whatever a client has done
    since boot, the abstract allocator, driven by the same calls, is in a state
    that the code's represents: the free lists that the headers in memory hold,
    the unit counts, the three page lists, the page allocator and the counters
    are those of the abstract state.  And from there every call does what the
    abstract one says: [slob_alloc] returns, to the address, the block that
    first fit finds on the page with fewest free units among those of the list
    for its size that have enough and, if it is not [NULL], [sp_alt], else on a
    new page, else NULL, and [slob_free] gives the block back, coalesced with its
    neighbours, and the page when it is empty. *)
Theorem slob_refines_spec st0 st live :
  at_boot st0 -> rtc client_step (st0, []) (st, live) ->
  exists a, rtc spec_step (spec_boot st0, []) (a, live) /\ refines st a live /\
    (forall alt n gfp align node, sp_alt_ok st alt -> 1 <= n <= PAGE_SIZE -> valid_align align -> align <= PAGE_SIZE ->
     exists st', slob_alloc st alt n gfp align node = Ok (st', (spec_alloc a alt n gfp align node).2) /\
       refines st' (spec_alloc a alt n gfp align node).1
         (match (spec_alloc a alt n gfp align node).2 with Some b => (b, n) :: live | None => live end)) /\
    (forall live' b n, live ≡ₚ (b, n) :: live' ->
     exists st', slob_free st b n = Ok st' /\ refines st' (spec_free a b n) live').
Proof.
  intros Hb Hrun.
  destruct (client_run_refines (st0, []) (st, live) _ (boot_refines st0 Hb) Hrun) as (a & Ha & Hr). cbn [fst snd] in *.
  exists a. split; [done|]. split; [done|]. split.
  - intros alt n gfp align node. by apply alloc_refines.
  - intros live' b n HP. by apply free_refines, (refines_perm _ _ live).
Qed.

End Theory.
