(* ===== verification/SlobRuns.v ===== *)
(** * slob.c: concrete runs

    Executions of the model of [slob.c] on the i386 instance of [KernelEnv.v]:
    the states used to instantiate the theorems of [SlobSpec.v], and two
    behaviours of this repository's [slob_alloc] worth knowing about. *)

From S2P Require Import Prelude Mem KernelEnv SlobPage Slob SlobProofs SlobSpec SlobRefine.
Import I386.

Definition page0 : page :=
  {| pg_units := 0; pg_freelist := 0; PageSlobFree := false; PageSlab := false |}.

(** Zeroed memory and a pool of eight pages. *)
Definition boot0 : slob :=
  boot (fun _ => 0) (fun _ => page0) ([], [], []) {| pool_max := 8; pool_used := [] |}.

(** A script of client actions: allocate [n] bytes aligned to 8, free the
    [i]-th most recent live object, or write the word [v] at its start. *)
Inductive action : Type := Alloc (n : Z) | Free (i : nat) | Header (i : nat) (v : Z).

Definition act (s : slob * list (Z * Z)) (x : action) : slob * list (Z * Z) :=
  match x with
  | Alloc n =>
    if (1 <=? n) && (n <=? PAGE_SIZE) then
      match slob_alloc s.1 None n 0 8 NUMA_NO_NODE with
      | Ok (st, Some a) => (st, (a, n) :: s.2)
      | Ok (st, None) => (st, s.2)
      | _ => s
      end
    else s
  | Free i =>
    match s.2 !! i with
    | Some (a, n) =>
      match slob_free s.1 a n with
      | Ok st => (st, delete i s.2)
      | _ => s
      end
    | None => s
    end
  | Header i v =>
    match s.2 !! i with
    | Some (a, n) =>
      if 4 <=? n then (set_memory s.1 (store 4 (memory s.1) a v), s.2) else s
    | None => s
    end
  end.

Definition after (l : list action) : slob * list (Z * Z) := fold_left act l (boot0, []).

(** What a script shows of the state. *)
Definition view (st : slob) : Z * Z * Z * Z * (list Z * list Z * list Z) :=
  (pcount st, free st, used_m st, claimed_m st, free_lists st).

Lemma align8_valid : valid_align 8.
Proof. right. by exists 3. Qed.

Lemma act_run s x : rtc client_step s (act s x).
Proof.
  destruct s as [st live], x as [n|i|i v]; cbn [act fst snd].
  - destruct (Z.leb_spec 1 n); [|done]. destruct (Z.leb_spec n PAGE_SIZE); [|done]. cbn [andb].
    pose proof align8_valid. assert (8 <= PAGE_SIZE) by (by vm_compute).
    destruct (slob_alloc st None n 0 8 NUMA_NO_NODE) as [[st' [a|]]| | |] eqn:E; try done;
      apply rtc_once.
    + by apply (client_alloc st live None n 0 8 NUMA_NO_NODE).
    + by apply (client_alloc_null st live None n 0 8 NUMA_NO_NODE).
  - destruct (live !! i) as [[a n]|] eqn:Ei; [|done].
    destruct (slob_free st a n) as [st'| | |] eqn:E; try done.
    apply rtc_once. eapply client_free; [|done]. by apply delete_Permutation.
  - destruct (live !! i) as [[a n]|] eqn:Ei; [|done]. destruct (Z.leb_spec 4 n); [|done].
    apply rtc_once, (client_write _ _ a n).
    + by eapply list_elem_of_lookup_2.
    + intros x Hx. apply store_out. lia.
Qed.

Lemma after_run l : rtc client_step (boot0, []) ((after l).1, (after l).2).
Proof.
  rewrite <- surjective_pairing. unfold after. generalize (boot0, @nil (Z * Z)).
  induction l as [|x l IH]; intros s; [done|]. cbn [fold_left]. etrans; [apply act_run|apply IH].
Qed.

Lemma boot0_at_boot : at_boot boot0.
Proof. repeat split. by intros []. Qed.

Lemma after_reachable l : reachable (after l).1 (after l).2.
Proof. exists boot0. split; [apply boot0_at_boot|apply after_run]. Qed.

(** ** The theorems of [SlobSpec.v] on concrete states *)

(** Three objects on two pages, one already freed. *)
Abbreviation run1 := (after [Alloc 100; Alloc 200; Alloc 2000; Free 1]).

Lemma run1_live : run1.2 = [(8192, 2000); (4096, 100)].
Proof. vm_compute. reflexivity. Qed.

(** The page of the 2000 bytes is on a list: [sp_alt] may point to it. *)
Lemma run1_alt : sp_alt_ok run1.1 (Some 8192).
Proof. exists free_slob_large. vm_compute. constructor. Qed.

Lemma slob_reachable_inv_witness :
  (exists ps, slob_inv run1.1 ps run1.2) /\
  is_ok (slob_alloc run1.1 (Some 8192) 300 0 8 NUMA_NO_NODE) = true /\
  is_ok (slob_free run1.1 8192 2000) = true.
Proof.
  destruct (slob_reachable_inv run1.1 run1.2 (after_reachable _)) as (H1 & H2 & H3).
  split; [exact H1|]. split.
  - apply H2; [apply run1_alt|by split; vm_compute|apply align8_valid|by vm_compute].
  - apply (H3 8192 2000 [(4096, 100)]). by rewrite run1_live.
Defined.

(** The abstract allocator on the calls of [run1]: 100, 200 and 2000 bytes, and
    the free of the second object. *)
Example spec_run1 :
  let a1 := spec_alloc (spec_boot boot0) None 100 0 8 NUMA_NO_NODE in
  let a2 := spec_alloc a1.1 None 200 0 8 NUMA_NO_NODE in
  let a3 := spec_alloc a2.1 None 2000 0 8 NUMA_NO_NODE in
  let a4 := spec_free a3.1 4200 200 in
  a1.2 = Some 4096 /\ a2.2 = Some 4200 /\ a3.2 = Some 8192 /\
  blocks_of a3.1 4096 = [(50, 2); (152, 1896)] /\ blocks_of a4 4096 = [(50, 1998)] /\
  s_lists a4 = ([4096], [], [8192]) /\ s_counters a4 = counters run1.1.
Proof. vm_compute. repeat split. Qed.

Lemma slob_refines_spec_witness :
  exists a, rtc spec_step (spec_boot boot0, []) (a, run1.2) /\ refines run1.1 a run1.2 /\
    (exists st', slob_alloc run1.1 (Some 8192) 300 0 8 NUMA_NO_NODE
       = Ok (st', (spec_alloc a (Some 8192) 300 0 8 NUMA_NO_NODE).2)) /\
    (exists st', slob_free run1.1 8192 2000 = Ok st' /\ refines st' (spec_free a 8192 2000) [(4096, 100)]).
Proof.
  destruct (slob_refines_spec boot0 run1.1 run1.2 boot0_at_boot (after_run _)) as (a & H1 & H2 & Ha & Hf).
  exists a. split; [exact H1|]. split; [exact H2|]. split.
  - destruct (Ha (Some 8192) 300 0 8 NUMA_NO_NODE) as (st' & H & _);
      [apply run1_alt|by split; vm_compute|apply align8_valid|by vm_compute|]. exists st'. exact H.
  - apply Hf. by rewrite run1_live.
Defined.

Lemma slob_keeps_contents_witness :
  exists st', slob_free run1.1 8192 2000 = Ok st' /\ keeps [(4096, 100)] (memory run1.1) (memory st').
Proof.
  destruct (slob_keeps_contents run1.1 run1.2 (after_reachable _)) as [_ H].
  pose proof (free_returns run1.1 run1.2 8192 2000 [(4096, 100)] (after_reachable _)
    ltac:(by rewrite run1_live)) as Hr.
  destruct (slob_free run1.1 8192 2000) as [st'| | |] eqn:E; try discriminate Hr.
  exists st'. split; [done|]. apply (H 8192 2000); [by rewrite run1_live|exact E].
Defined.

Lemma slob_alloc_fresh_witness :
  exists st', slob_alloc run1.1 (Some 8192) 300 0 8 NUMA_NO_NODE = Ok (st', Some 10192) /\
    (8 | 10192) /\ PageSlab (pages st' (virt_to_page 10192)) = true.
Proof.
  destruct (slob_alloc run1.1 (Some 8192) 300 0 8 NUMA_NO_NODE) as [[st' r]| | |] eqn:E.
  - assert (r = Some 10192) as ->.
    { apply (f_equal (fun x => match x with Ok (_, r) => r | _ => None end)) in E.
      vm_compute in E. by symmetry. }
    exists st'. split; [done|].
    destruct (slob_alloc_fresh run1.1 run1.2 (Some 8192) 300 0 8 NUMA_NO_NODE st' 10192) as (H1 & H2 & _).
    + apply after_reachable.
    + apply run1_alt.
    + by split; vm_compute.
    + apply align8_valid.
    + by vm_compute.
    + exact E.
    + split; [by apply H1|]. exact H2.
  - apply (f_equal is_ok) in E. vm_compute in E. done.
  - apply (f_equal is_ok) in E. vm_compute in E. done.
  - apply (f_equal is_ok) in E. vm_compute in E. done.
Defined.

Lemma slob_accounting_witness :
  used_m run1.1 = 2100 /\ pcount run1.1 = 2 /\
  exists st', slob_free run1.1 8192 2000 = Ok st' /\
    sys_slob_used st' = sys_slob_used run1.1 /\ sys_slob_used run1.1 = 8192.
Proof.
  destruct (slob_accounting run1.1 run1.2 (after_reachable _)) as ([H _] & Hf & _).
  destruct (Hf [(4096, 100)] 8192 2000) as (st' & H1 & H2 & _); [by rewrite run1_live|].
  split; [rewrite H, run1_live; by vm_compute|]. split; [by vm_compute|].
  exists st'. split; [exact H1|]. split; [exact H2|by vm_compute].
Defined.

Lemma set_slob_roundtrip_witness :
  slob_units (set_slob (fun _ => 0) 8196 3 8292) 8196 = 3 /\
  slob_next (set_slob (fun _ => 0) 8196 3 8292) 8196 = 8292.
Proof.
  destruct (set_slob_roundtrip (fun _ => 0) 8192 2 3 50) as (H1 & H2 & _).
  - by exists 2.
  - lia.
  - lia.
  - by vm_compute.
  - by split; vm_compute.
  - split; [exact H1|exact H2].
Defined.

(** The free list [(50, 10); (100, 1948)] of the page at 8192, in memory. *)
Definition mem1 : mem := set_slob (set_slob (fun _ => 0) 8292 10 8392) 8392 1948 12288.

Lemma mem1_chain : chain mem1 8192 [(50, 10); (100, 1948)].
Proof. by repeat split; vm_compute. Qed.

Lemma bl1_ok : blocks_ok 0 [(50, 10); (100, 1948)].
Proof. by repeat split; vm_compute. Qed.

Definition page1_st : slob :=
  boot mem1 (fun _ => {| pg_units := 1958; pg_freelist := 8292;
                         PageSlobFree := true; PageSlab := true |})
    ([], [], [8192]) {| pool_max := 8; pool_used := [8192] |}.

(** 24 bytes do not fit in the first block: the second one is used. *)
Lemma slob_page_alloc_first_fit_witness :
  exists st', slob_page_alloc page1_st 8192 24 8 = Ok (st', Some 8392).
Proof.
  pose proof (slob_page_alloc_first_fit page1_st 8192 [(50, 10); (100, 1948)] 24 8) as H.
  assert (fit 8192 (SLOB_UNITS 24) 8 [(50, 10); (100, 1948)] = Some (100, [(50, 10); (112, 1936)]))
    as E by by vm_compute.
  rewrite E in H. destruct H as (m' & H & _).
  - by exists 2.
  - apply align8_valid.
  - by split; vm_compute.
  - done.
  - apply bl1_ok.
  - apply mem1_chain.
  - by vm_compute.
  - by vm_compute.
  - eexists. exact H.
Defined.

Lemma slob_page_alloc_free_roundtrip_witness :
  exists m1 m2, slob_page_scan page_fuel mem1 8292 12 8 None 8292 = Ok (Some (m1, 8292, 8392)) /\
    slob_free_insert m1 8292 8392 12 = Ok (m2, 8292) /\
    chain m2 8192 [(50, 10); (100, 1948)].
Proof.
  destruct (slob_page_scan page_fuel mem1 8292 12 8 None 8292) as [[[[m1 fl] b]|]| | |] eqn:E;
    pose proof (f_equal (fun r => match r with Ok (Some (_, fl, b)) => Some (fl, b) | _ => None end) E)
      as E'; vm_compute in E'; try discriminate E'.
  injection E' as <- <-. exists m1.
  destruct (slob_page_alloc_free_roundtrip mem1 8192 [(50, 10); (100, 1948)] 12 8 m1 8292 8392)
    as (m2 & H1 & H2).
  - by exists 2.
  - apply align8_valid.
  - lia.
  - done.
  - apply bl1_ok.
  - apply mem1_chain.
  - exact E.
  - by vm_compute.
  - exists m2. split; [done|]. split; [exact H1|exact H2].
Defined.

(** A kmalloc block of 40 bytes: an object of 48 whose header holds 40. *)
Abbreviation run2 := (after [Alloc 100; Alloc 48; Header 0 40]).

Lemma run2_live : run2.2 = [(4200 - kmalloc_align + kmalloc_align, 40 + kmalloc_align); (4096, 100)].
Proof. vm_compute. reflexivity. Qed.

Lemma run2_kmalloc_null : forall st', kmalloc run2.1 None 40 0 <> Ok (st', NULL).
Proof.
  intros st' E. apply (f_equal (fun r => match r with Ok (_, p) => p | _ => 0 end)) in E.
  vm_compute in E. discriminate E.
Qed.

Lemma kmalloc_kfree_witness :
  (exists st' p, kmalloc run2.1 None 40 0 = Ok (st', p) /\ p <> NULL /\ (kmalloc_align | p)) /\
  (exists st', kfree run2.1 4208 = Ok st' /\ used_m st' = 100) /\
  (exists k, ksize run2.1 4208 = Ok k /\ 40 <= k < 42) /\
  (exists st' st'', kmalloc run2.1 None 4090 0 = Ok (st', 8192) /\ ksize st' 8192 = Ok 4096 /\
     kfree st' 8192 = Ok st'').
Proof.
  destruct (kmalloc_kfree run2.1 run2.2 (after_reachable _)) as (_ & Ha & Hf & ps & _ & Hl).
  split; [|split; [|split]].
  - destruct (Ha None 40 0) as (st' & p & E & H); [done|by split; vm_compute|].
    destruct H as [[-> _]|(H1 & H2 & _)].
    + destruct (run2_kmalloc_null st' E).
    + exists st', p. split; [exact E|]. split; [exact H1|exact H2].
  - destruct (Hf [(4096, 100)] 4208 40) as [(st' & H1 & _ & H2) _].
    + rewrite run2_live. by vm_compute.
    + split; [by vm_compute|by split; vm_compute].
    + exists st'. split; [exact H1|]. rewrite H2. by vm_compute.
  - destruct (Hf [(4096, 100)] 4208 40) as [_ (k & H3 & H4 & _)].
    + rewrite run2_live. by vm_compute.
    + split; [by vm_compute|by split; vm_compute].
    + exists k. split; [exact H3|exact H4].
  - destruct (Hl None 4090 0) as (st' & p & E & _ & _ & _ & Hp); [by vm_compute|].
    pose proof (f_equal (fun r => match r with Ok (_, p) => p | _ => 0 end) E) as Ep.
    vm_compute in Ep. subst p.
    destruct Hp as [Hp|(_ & _ & _ & _ & H5 & st'' & H6 & _)]; [discriminate Hp|].
    exists st', st''. split; [exact E|]. split; [exact H5|exact H6].
Defined.

(** ** What the changes to [slob_alloc] do *)

(** The page at 8192 is nobody's slob page, but its [struct page] fields look
    like a partially free page. *)
Definition garbage_st : slob :=
  set_page (after [Alloc 100]).1 8192 {| pg_units := 1958; pg_freelist := 8292;
    PageSlobFree := false; PageSlab := false |}.

Definition garbage_mem_st : slob :=
  set_memory garbage_st
    (set_slob (set_slob (memory garbage_st) 8292 10 8392) 8392 1948 12288).

Lemma garbage_served :
  exists st', slob_alloc garbage_mem_st (Some 8192) 64 0 8 NUMA_NO_NODE = Ok (st', Some 8392) /\
    PageSlab (pages st' 8192) = false.
Proof.
  destruct (slob_page_alloc garbage_mem_st 8192 64 8) as [[st1 r]| | |] eqn:E;
    pose proof (f_equal (fun x => match x with Ok (_, r) => r | _ => None end) E) as E';
    vm_compute in E'; try discriminate E'. subst r.
  destruct (slob_alloc_garbage garbage_mem_st 8192 64 0 8 NUMA_NO_NODE st1 8392) as (st' & H1 & H2).
  - assert (list_elems (free_lists garbage_mem_st) (slob_list_for 64) = [4096]) as -> by by vm_compute.
    intros q' ->%list_elem_of_singleton _. by vm_compute.
  - exact E.
  - exists st'. split; [exact H1|]. rewrite H2. by vm_compute.
Qed.

Abbreviation run3 :=
  (after [Alloc 1024; Alloc 1024; Alloc 1024; Alloc 1024; Alloc 1024; Free 4; Free 2]).

(** C40: how [slob_alloc] chooses a page.
    If [sp_alt], which is not initialised, happens to be null before the loop, it
    tries a page of the list with enough free units such that no page with enough
    has fewer, and tries none only if no page of the list has enough; no other
    page is tried.  If it points to a [struct page] [q0], the page tried is [q0]
    or a page of the list with enough free units, and none of these has fewer
    units than it: so [q0] is tried, whether the list is empty or not, unless a
    page of the list with enough has fewer units.  When the free-list fields of
    [q0] can serve the request, [slob_alloc] then hands out memory of [q0]
    without checking that it is one of the allocator's pages; a run does so,
    with a page on the list that could serve the request, for a [q0] that is
    nobody's slob page.
    And, [sp_alt] being null, the units need not be in one block: five objects of 1024 bytes are
    allocated on two pages and two that are not adjacent are freed; the first
    page is then the best for 2000 bytes but has no block that large, so
    [slob_alloc] takes a third page, although the second page, on the same
    list, has the room. *)
Theorem slob_alloc_page_choice :
  (forall st n node l, best_page st n node l (slob_pick st n node None l)) /\
  (forall st n node l q0,
     exists q, slob_pick st n node (Some q0) l = Some q /\
       (q = q0 \/ q ∈ l /\ eligible st n node q = true) /\
       pg_units (pages st q) <= pg_units (pages st q0) /\
       forall q', q' ∈ l -> eligible st n node q' = true ->
         pg_units (pages st q) <= pg_units (pages st q')) /\
  (forall st q n gfp align node st1 a,
     (forall q', q' ∈ list_elems (free_lists st) (slob_list_for n) ->
        eligible st n node q' = true -> pg_units (pages st q) <= pg_units (pages st q')) ->
     slob_page_alloc st q n align = Ok (st1, Some a) ->
     exists st', slob_alloc st (Some q) n gfp align node = Ok (st', Some a) /\
       PageSlab (pages st' q) = PageSlab (pages st q)) /\
  list_elems (free_lists garbage_mem_st) (slob_list_for 64) = [4096] /\
  (exists st', slob_alloc garbage_mem_st (Some 8192) 64 0 8 NUMA_NO_NODE = Ok (st', Some 8392) /\
     PageSlab (pages st' 8192) = false) /\
  list_elems (free_lists run3.1) (slob_list_for 2000) = [4096; 8192] /\
  slob_pick run3.1 2000 NUMA_NO_NODE None [4096; 8192] = Some 4096 /\
  match slob_page_alloc run3.1 8192 2000 8, slob_alloc run3.1 None 2000 0 8 NUMA_NO_NODE with
  | Ok (_, room), Ok (st', a) =>
    room = Some 9216 /\ a = Some 12288 /\ pcount run3.1 = 2 /\ pcount st' = 3
  | _, _ => False
  end.
Proof.
  split; [intros; apply pick_none|]. split; [intros; apply pick_some|].
  split; [intros; by eapply slob_alloc_garbage|]. split; [by vm_compute|].
  split; [apply garbage_served|]. vm_compute. done.
Qed.
