(* ===== verification/SlobConc.v ===== *)
(** * slob.c: concurrent callers

    [slob_alloc] and [slob_free] of [kernel/project4/code/slob.c] as they run on
    several CPUs at once.  A thread makes one shared access at a time, except
    that a section under [slob_lock] that works on pages is one step: the lock
    is taken and released by steps of its own, and the statistics counters,
    which the source updates outside the lock, are read and written by separate
    steps.  The functions of the sections are those of [Slob.v].  The clients
    may at any time write inside the objects they hold.  The uninitialised
    [sp_alt] of a search is an input of the step: any value that is
    [sp_alt_ok] at that moment. *)

From S2P Require Import Prelude Mem KernelEnv SlobPage Slob SlobProofs SlobSpec.

Section Defs.
Context `{K : KernelEnv} `{L : ListApi} `{P : PageApi}.

(** The arguments of a call of [slob_alloc]. *)
Record request : Type := { r_size : Z; r_gfp : Z; r_align : Z; r_node : Z }.

(** Where a thread is in [slob_alloc].  [b] is the local variable of that name;
    [v] is the value of the counter that the thread has read and is about to
    write back changed. *)
Inductive alloc_pc : Type :=
| A_free                                     (* free = 0 *)
| A_lock                                     (* spin_lock_irqsave *)
| A_search                                   (* the loop and slob_page_alloc *)
| A_count (b : option Z) (todo : list Z) (v : option Z)     (* free += sp->units *)
| A_unlock (b : option Z)                    (* spin_unlock_irqrestore *)
| A_new_pages                                (* slob_new_pages *)
| A_set_slab (b : Z)                         (* __SetPageSlab *)
| A_lock_new (b : Z)
| A_fill (b : Z)                             (* the new page, slob_page_alloc *)
| A_unlock_new (b : Z)
| A_pcount (b : Z) (v : option Z)            (* pcount++ *)
| A_claimed (b : Z) (v : option Z)           (* claimed_m += PAGE_SIZE *)
| A_clear (b : Z)                            (* memset *)
| A_used (b : Z) (v : option Z).             (* used_m += size *)

(** Where a thread is in [slob_free]. *)
Inductive free_pc : Type :=
| F_enter
| F_used (v : option Z)                      (* used_m -= size *)
| F_lock
| F_body
| F_unlock (last : bool)
| F_clear_slab                               (* __ClearPageSlab *)
| F_mapcount                                 (* page_mapcount_reset *)
| F_free_pages                               (* slob_free_pages *)
| F_pcount (v : option Z).                   (* pcount-- *)

Inductive thread : Type :=
| T_idle
| T_alloc (r : request) (c : alloc_pc)
| T_free (block size : Z) (c : free_pc).

(** The outcome of a step: the thread spins, or it moves on, and may hand
    objects to its client. *)
Inductive outcome : Type :=
| Blocked
| Step (lk : option nat) (st : slob) (t : thread) (given : list (Z * Z)).

(** A step that leaves the lock alone and hands out nothing. *)
Definition goto (lk : option nat) (st : slob) (t : thread) : res outcome :=
  Ok (Step lk st t []).

Definition put_pcount (st : slob) (v : Z) : slob :=
  set_counters st (ulong v) (free st) (used_m st) (claimed_m st).
Definition put_free (st : slob) (v : Z) : slob :=
  set_counters st (pcount st) (ulong v) (used_m st) (claimed_m st).
Definition put_used (st : slob) (v : Z) : slob :=
  set_counters st (pcount st) (free st) (int v) (claimed_m st).
Definition put_claimed (st : slob) (v : Z) : slob :=
  set_counters st (pcount st) (free st) (used_m st) (int v).

(** The pages that the three loops [free += sp->units] visit. *)
Definition pages_to_count (st : slob) : list Z :=
  list_elems_list (free_lists st) free_slob_small
  ++ list_elems_list (free_lists st) free_slob_medium
  ++ list_elems_list (free_lists st) free_slob_large.

(** [spin_lock_irqsave] by thread [i]. *)
Definition spin_lock (i : nat) (lk : option nat) (st : slob) (t : thread) : res outcome :=
  match lk with
  | Some _ => Ok Blocked
  | None => goto (Some i) st t
  end.

(** [sp_alt] is what the variable of that name holds when the search begins. *)
Definition alloc_step (i : nat) (lk : option nat) (st : slob) (sp_alt : option Z)
    (r : request) (c : alloc_pc) : res outcome :=
  let go st c := goto lk st (T_alloc r c) in
  match c with
  | A_free => go (put_free st 0) A_lock
  | A_lock => spin_lock i lk st (T_alloc r A_search)
  | A_search =>
    let! (st, b) := slob_alloc_search st sp_alt (r_size r) (r_align r) (r_node r) in
    go st (A_count b (pages_to_count st) None)
  | A_count b [] _ => go st (A_unlock b)
  | A_count b todo None => go st (A_count b todo (Some (free st)))
  | A_count b (sp :: todo) (Some v) =>
    go (put_free st (v + pg_units (pages st sp))) (A_count b todo None)
  | A_unlock b =>
    goto None st (T_alloc r (match b with
                             | None => A_new_pages
                             | Some b => A_clear b
                             end))
  | A_new_pages =>
    let '(b, st) := slob_new_pages st (Z.land (r_gfp r) (Z.lnot GFP_ZERO)) 0 (r_node r) in
    match b with
    | None => goto lk st T_idle
    | Some b => go st (A_set_slab b)
    end
  | A_set_slab b =>
    let sp := virt_to_page b in
    go (set_page st sp (set_slab (pages st sp) true)) (A_lock_new b)
  | A_lock_new b => spin_lock i lk st (T_alloc r (A_fill b))
  | A_fill b =>
    let sp := virt_to_page b in
    let st := slob_fill_page st sp b (slob_list_for (r_size r)) in
    let! (st, b) := slob_page_alloc st sp (r_size r) (r_align r) in
    match b with
    | None => Bug
    | Some b => go st (A_unlock_new b)
    end
  | A_unlock_new b => goto None st (T_alloc r (A_pcount b None))
  | A_pcount b None => go st (A_pcount b (Some (pcount st)))
  | A_pcount b (Some v) => go (put_pcount st (v + 1)) (A_claimed b None)
  | A_claimed b None => go st (A_claimed b (Some (claimed_m st)))
  | A_claimed b (Some v) => go (put_claimed st (v + PAGE_SIZE)) (A_clear b)
  | A_clear b =>
    go (if Z.land (r_gfp r) GFP_ZERO =? 0 then st
        else set_memory st (memset (memory st) b 0 (r_size r))) (A_used b None)
  | A_used b None => go st (A_used b (Some (used_m st)))
  | A_used b (Some v) =>
    Ok (Step lk (put_used st (v + r_size r)) T_idle [(b, r_size r)])
  end.

Definition free_step (i : nat) (lk : option nat) (st : slob) (block size : Z) (c : free_pc)
  : res outcome :=
  let go st c := goto lk st (T_free block size c) in
  let sp := virt_to_page block in
  match c with
  | F_enter =>
    if ZERO_OR_NULL_PTR block then goto lk st T_idle
    else if size =? 0 then Bug
    else go st (F_used None)
  | F_used None => go st (F_used (Some (used_m st)))
  | F_used (Some v) => go (put_used st (v - size)) F_lock
  | F_lock => spin_lock i lk st (T_free block size F_body)
  | F_body =>
    let! (st, last) := slob_free_locked st block size (slobidx (SLOB_UNITS (ulong size))) in
    go st (F_unlock last)
  | F_unlock last =>
    goto None st (if (last : bool) then T_free block size F_clear_slab else T_idle)
  | F_clear_slab => go (set_page st sp (set_slab (pages st sp) false)) F_mapcount
  | F_mapcount => go (set_page st sp (mapcount_reset (pages st sp))) F_free_pages
  | F_free_pages => go (slob_free_pages st block 0) (F_pcount None)
  | F_pcount None => go st (F_pcount (Some (pcount st)))
  | F_pcount (Some v) => goto lk (put_pcount st (v - 1)) T_idle
  end.

Definition thread_step (i : nat) (lk : option nat) (st : slob) (sp_alt : option Z) (t : thread)
  : res outcome :=
  match t with
  | T_idle => Ok Blocked
  | T_alloc r c => alloc_step i lk st sp_alt r c
  | T_free block size c => free_step i lk st block size c
  end.

(** ** The machine

    [live] are the objects that the clients hold. *)
Record machine : Type := Mk {
  shared : slob;
  slob_lock : option nat;
  threads : list thread;
  live : list (Z * Z)
}.

Definition request_ok (r : request) : Prop :=
  1 <= r_size r <= PAGE_SIZE /\ valid_align (r_align r) /\ r_align r <= PAGE_SIZE.

Inductive machine_step : machine -> machine -> Prop :=
| call_alloc st lk ths lv i r :
    ths !! i = Some T_idle -> request_ok r ->
    machine_step (Mk st lk ths lv) (Mk st lk (<[i := T_alloc r A_free]> ths) lv)
| call_free st lk ths lv lv' i a n :
    ths !! i = Some T_idle -> lv ≡ₚ (a, n) :: lv' ->
    machine_step (Mk st lk ths lv) (Mk st lk (<[i := T_free a n F_enter]> ths) lv')
| owner_write st lk ths lv a n m :
    (a, n) ∈ lv -> (forall x, x < a \/ a + n <= x -> m x = memory st x) ->
    machine_step (Mk st lk ths lv) (Mk (set_memory st m) lk ths lv)
| run st lk ths lv i t alt st' lk' t' given :
    ths !! i = Some t -> sp_alt_ok st alt ->
    thread_step i lk st alt t = Ok (Step lk' st' t' given) ->
    machine_step (Mk st lk ths lv) (Mk st' lk' (<[i := t']> ths) (given ++ lv)).

(** [n] threads, none of them in a call, on an allocator without pages. *)
Definition start (st : slob) (n : nat) : machine := Mk st None (replicate n T_idle) [].

Definition reached (m : machine) : Prop :=
  exists st n, at_boot st /\ rtc machine_step (start st n) m.

(** ** What each thread holds *)

(** Objects handed out by the page-level code and not yet returned to the
    client, or given up by the client and not yet freed. *)
Definition objects_of (t : thread) : list (Z * Z) :=
  match t with
  | T_idle => []
  | T_alloc r c =>
    match c with
    | A_count (Some b) _ _ | A_unlock (Some b) | A_unlock_new b | A_pcount b _
    | A_claimed b _ | A_clear b | A_used b _ => [(b, r_size r)]
    | _ => []
    end
  | T_free a n c =>
    match c with
    | F_enter | F_used _ | F_lock | F_body => [(a, n)]
    | _ => []
    end
  end.

(** Pages between the page allocator and the lists, with their [PG_slab] flag. *)
Definition pages_of (t : thread) : list (Z * bool) :=
  match t with
  | T_idle => []
  | T_alloc _ (A_set_slab b) => [(b, false)]
  | T_alloc _ (A_lock_new b) | T_alloc _ (A_fill b) => [(b, true)]
  | T_alloc _ _ => []
  | T_free a _ (F_unlock true) | T_free a _ F_clear_slab => [(virt_to_page a, true)]
  | T_free a _ F_mapcount | T_free a _ F_free_pages => [(virt_to_page a, false)]
  | T_free _ _ _ => []
  end.

(** The thread is between its lock and its unlock. *)
Definition in_section (t : thread) : bool :=
  match t with
  | T_idle => false
  | T_alloc _ c =>
    match c with
    | A_search | A_count _ _ _ | A_unlock _ | A_fill _ | A_unlock_new _ => true
    | _ => false
    end
  | T_free _ _ c => match c with F_body | F_unlock _ => true | _ => false end
  end.

Definition in_flight (m : machine) : list (Z * Z) := threads m ≫= objects_of.
Definition limbo (m : machine) : list (Z * bool) := threads m ≫= pages_of.

(** ** The invariant *)

(** [lv] are all the objects, [lim] the pages in limbo. *)
Record shared_inv (st : slob) (ps : gset Z) (lv : list (Z * Z)) (lim : list (Z * bool))
  : Prop := {
  sh_core : slob_core st ps lv;
  sh_held : held ps lv;
  sh_limbo : forall x, x ∈ lim -> own_page st x.1 /\ x.1 ∉ ps;
  sh_nodup : NoDup lim.*1;
  sh_slab : forall p, PageSlab (pages st p) = bool_decide (p ∈ ps \/ (p, true) ∈ lim)
}.

Definition thread_ok (t : thread) : Prop :=
  match t with T_alloc r _ => request_ok r | _ => True end.

(** The lock is held by the thread inside its section, and only by it. *)
Definition lock_ok (lk : option nat) (ths : list thread) : Prop :=
  forall i, lk = Some i <-> exists t, ths !! i = Some t /\ in_section t = true.

Record machine_inv (m : machine) (ps : gset Z) : Prop := {
  mi_shared : shared_inv (shared m) ps (live m ++ in_flight m) (limbo m);
  mi_threads : forall i t, threads m !! i = Some t -> thread_ok t;
  mi_lock : lock_ok (slob_lock m) (threads m)
}.

End Defs.

Section Theory.
Context `{K : KernelEnv} {KL : KernelEnvLaws K}.
Context `{L : ListApi} {LL : ListApiLaws L}.
Context `{P : PageApi} {PL : PageApiLaws K P}.

(** ** What the threads hold together *)

(** Replacing one thread replaces what it contributes. *)
Lemma bind_insert {A B : Type} (f : A -> list B) (l : list A) i t :
  l !! i = Some t -> exists rest, l ≫= f ≡ₚ f t ++ rest /\
    forall t', <[i := t']> l ≫= f ≡ₚ f t' ++ rest.
Proof.
  intros H. exists ((take i l ≫= f) ++ (drop (S i) l ≫= f)).
  pose proof (lookup_lt_Some _ _ _ H) as Hi. split; [|intros t'].
  - rewrite <- (take_drop_middle l i t H) at 1. rewrite bind_app, bind_cons.
    apply Permutation_app_swap_app.
  - rewrite insert_take_drop by done. rewrite bind_app, bind_cons.
    apply Permutation_app_swap_app.
Qed.

Lemma shared_inv_perm st ps lv lv' lim lim' :
  lv ≡ₚ lv' -> lim ≡ₚ lim' -> shared_inv st ps lv lim -> shared_inv st ps lv' lim'.
Proof.
  intros Hl Hm [H1 H2 H3 H4 H5]. split.
  - by rewrite <- Hl.
  - by rewrite <- Hl.
  - intros x. rewrite <- Hm. auto.
  - by rewrite <- Hm.
  - intros p. rewrite H5. apply bool_decide_ext. by rewrite Hm.
Qed.

Lemma sh_set_counters st ps lv lim pc fr us cl :
  shared_inv st ps lv lim -> shared_inv (set_counters st pc fr us cl) ps lv lim.
Proof. intros []. split; try done. by apply core_set_counters. Qed.

(** A section under the lock moves pages between the allocator and a thread,
    but changes no flag. *)
Lemma sh_locked st st' ps ps' lv lv' lim lim' :
  shared_inv st ps lv lim -> locked_step st st' -> slob_core st' ps' lv' ->
  held ps' lv' -> NoDup lim'.*1 ->
  (forall x, x ∈ lim' -> own_page st x.1 /\ x.1 ∉ ps') ->
  (forall p, p ∈ ps' \/ (p, true) ∈ lim' <-> p ∈ ps \/ (p, true) ∈ lim) ->
  shared_inv st' ps' lv' lim'.
Proof.
  intros [H1 H2 H3 H4 H5] [L1 L2 L3] Hc Hh Hn Hl Hiff. split; try done.
  - intros x Hx. unfold own_page. rewrite L2. by apply Hl.
  - intros p. rewrite L1, H5. apply bool_decide_ext. by rewrite Hiff.
Qed.

Lemma held_cons ps lv x :
  held ps lv -> held ps (x :: lv).
Proof. intros H p Hp. by apply live_on_cons_nonempty, H. Qed.

(** ** Steps under the lock *)

Lemma sh_search st ps lv lim alt r :
  shared_inv st ps lv lim -> sp_alt_ok st alt -> request_ok r ->
  exists st' b, slob_alloc_search st alt (r_size r) (r_align r) (r_node r) = Ok (st', b) /\
    shared_inv st' ps (match b with Some a => (a, r_size r) :: lv | None => lv end) lim /\
    keeps lv (memory st) (memory st').
Proof.
  intros H Halt (Hn & Hal & _). pose proof H as [H1 H2 H3 H4 H5].
  destruct (search_core st ps lv alt _ _ (r_node r) H1 Halt Hn Hal) as (st' & b & -> & Hlk & Hr).
  exists st', b. split; [done|]. destruct b as [a|]; [|by subst st'].
  destruct Hr as (Hc & _ & _ & Hk). split; [|done]. eapply sh_locked; try done. by apply held_cons.
Qed.

Lemma sh_fill st ps lv lim r b :
  shared_inv st ps lv ((b, true) :: lim) -> request_ok r ->
  exists st' a ps',
    slob_page_alloc (slob_fill_page st (virt_to_page b) b (slob_list_for (r_size r)))
      (virt_to_page b) (r_size r) (r_align r) = Ok (st', Some a) /\
    shared_inv st' ps' ((a, r_size r) :: lv) lim /\ keeps lv (memory st) (memory st').
Proof.
  intros H (Hn & Hal & Hle). pose proof H as [H1 H2 H3 H4 H5].
  destruct (H3 (b, true)) as [Hown Hnb]; [set_solver|]. cbn in Hown, Hnb.
  rewrite (virt_to_page_page b) by apply Hown.
  destruct (fill_alloc_core st ps lv b (slob_list_for (r_size r)) _ _ H1 Hnb Hown Hn Hal Hle)
    as (st' & a & -> & Ea & Hc & Hlk & _ & Hk).
  apply NoDup_cons in H4 as [Hb H4].
  exists st', a, ({[b]} ∪ ps). split; [done|]. split; [|done]. eapply sh_locked; try done.
  - intros p [->%elem_of_singleton|Hp]%elem_of_union.
    + by rewrite live_on_cons_eq.
    + by apply live_on_cons_nonempty, H2.
  - intros x Hx. destruct (H3 x) as [Hx1 Hx2]; [set_solver|]. split; [done|].
    intros [E%elem_of_singleton|Hp]%elem_of_union; [|done].
    apply Hb, list_elem_of_fmap. by exists x.
  - intros p. rewrite elem_of_cons, elem_of_union, elem_of_singleton. naive_solver.
Qed.

Lemma sh_free st ps lv lim a n :
  shared_inv st ps ((a, n) :: lv) lim ->
  exists st' (last : bool) ps',
    slob_free_locked st a n (slobidx (SLOB_UNITS (ulong n))) = Ok (st', last) /\
    shared_inv st' ps' lv (if last then (virt_to_page a, true) :: lim else lim) /\
    keeps lv (memory st) (memory st').
Proof.
  intros H. pose proof H as [H1 H2 H3 H4 H5].
  destruct (free_locked_core st ps lv a n H1) as (st' & last & -> & Hlk & Hp & Hk & Hpost).
  assert (forall p, p ∈ ps -> p <> virt_to_page a -> live_on p lv <> []) as Hne.
  { intros p Hpp Hq. specialize (H2 p Hpp). by rewrite live_on_cons_ne in H2 by done. }
  destruct last, Hpost as [Hc Hl].
  - exists st', true, (ps ∖ {[virt_to_page a]}). split; [done|]. split; [|done].
    eapply sh_locked; try done.
    + intros p Hpp. apply Hne; set_solver.
    + apply NoDup_cons. split; [|done]. intros (x & Ex & Hx)%list_elem_of_fmap. cbn in Ex.
      apply (H3 x Hx). by rewrite <- Ex.
    + intros x [->|Hx]%elem_of_cons.
      * split; [|set_solver]. by apply H1.
      * destruct (H3 x Hx). split; [done|set_solver].
    + intros p. rewrite elem_of_cons, elem_of_difference, elem_of_singleton.
      destruct (decide (p = virt_to_page a)); naive_solver.
  - exists st', false, ps. split; [done|]. split; [|done]. eapply sh_locked; try done.
    intros p Hpp. destruct (decide (p = virt_to_page a)) as [->|]; [done|by apply Hne].
Qed.

(** ** Steps on pages in limbo *)

Lemma sh_new_pages st ps lv lim gfp node r st' :
  shared_inv st ps lv lim -> slob_new_pages st gfp 0 node = (r, st') ->
  shared_inv st' ps lv (match r with Some b => (b, false) :: lim | None => lim end) /\
  memory st' = memory st.
Proof.
  intros [H1 H2 H3 H4 H5] E. unfold slob_new_pages in E.
  destruct (alloc_pages_node _ _ _ _) as [q a] eqn:Ha. injection E as <- <-. split; [|done].
  assert (forall p, own_page st p -> page_used a p = true) as Hk.
  { intros p (_ & _ & Hp). by eapply alloc_pages_keeps. }
  assert (slob_core (set_allocator st a (reclaim_state st)) ps lv) as Hc.
  { apply core_set_allocator; [done|]. intros p Hp. apply Hk. by apply H1. }
  assert (forall x, x ∈ lim -> own_page (set_allocator st a (reclaim_state st)) x.1 /\ x.1 ∉ ps) as Hl.
  { intros x Hx. destruct (H3 x Hx) as [Ho ?]. split; [|done]. pose proof Ho as (? & ? & _).
    split; [done|]. split; [done|]. by apply Hk. }
  destruct q as [b|]; [|by split].
  destruct (alloc_pages_fresh _ _ _ _ _ _ Ha) as (Hb0 & Hdiv & Hfresh & Hused).
  assert (~ own_page st b) as Hno by (intros (_ & _ & Hu); congruence).
  split; try done.
  - intros x [->|Hx]%elem_of_cons; [|by apply Hl]. split; [done|]. intros Hb. by apply Hno, H1.
  - apply NoDup_cons. split; [|done]. intros (x & Ex & Hx)%list_elem_of_fmap. cbn in Ex.
    apply Hno. rewrite Ex. by apply H3.
  - intros p. change (pages (set_allocator st a (reclaim_state st)) p) with (pages st p).
    rewrite H5. apply bool_decide_ext. rewrite elem_of_cons. naive_solver.
Qed.

(** [__SetPageSlab] and [__ClearPageSlab] on a page in limbo. *)
Lemma sh_set_slab st ps lv lim p c b :
  shared_inv st ps lv ((p, c) :: lim) ->
  shared_inv (set_page st p (set_slab (pages st p) b)) ps lv ((p, b) :: lim).
Proof.
  intros [H1 H2 H3 H4 H5]. apply NoDup_cons in H4 as [Hn H4].
  destruct (H3 (p, c)) as [Hown Hp]; [set_solver|]. cbn [fst] in *. split.
  - by apply core_set_slab.
  - done.
  - intros x [->|Hx]%elem_of_cons; [done|apply H3; set_solver].
  - by apply NoDup_cons.
  - intros q. cbn. destruct (Z.eqb_spec q p) as [->|Hq]; cbn.
    + assert ((p, true) ∉ lim) as Hnl.
      { intros Hx. apply Hn, list_elem_of_fmap. by exists (p, true). }
      symmetry. destruct b; [apply bool_decide_eq_true|apply bool_decide_eq_false];
        rewrite elem_of_cons; naive_solver.
    + rewrite H5. apply bool_decide_ext. rewrite !elem_of_cons. naive_solver.
Qed.

(** [page_mapcount_reset] on a page in limbo. *)
Lemma sh_mapcount st ps lv lim p c :
  shared_inv st ps lv ((p, c) :: lim) ->
  shared_inv (set_page st p (mapcount_reset (pages st p))) ps lv ((p, c) :: lim).
Proof.
  intros [H1 H2 H3 H4 H5]. destruct (H3 (p, c)) as [_ Hp]; [set_solver|]. cbn [fst] in Hp.
  split; try done; [by apply core_set_outside|].
  intros q. rewrite <- H5. cbn. by destruct (Z.eqb_spec q p) as [->|].
Qed.

Lemma sh_free_pages st ps lv lim a :
  shared_inv st ps lv ((virt_to_page a, false) :: lim) ->
  shared_inv (slob_free_pages st a 0) ps lv lim.
Proof.
  intros [H1 H2 H3 H4 H5]. apply NoDup_cons in H4 as [Hn H4].
  destruct (H3 (virt_to_page a, false)) as [Hown Hp]; [set_solver|]. cbn [fst] in *.
  split; try done.
  - by apply core_free_pages.
  - intros x Hx. destruct (H3 x) as [(? & ? & ?) ?]; [set_solver|]. split; [|done].
    split; [done|]. split; [done|]. cbn. rewrite free_pages_0.
    destruct (decide (x.1 = virt_to_page a)) as [E|]; [|done].
    exfalso. apply Hn, list_elem_of_fmap. by exists x.
  - intros p. change (pages (slob_free_pages st a 0) p) with (pages st p).
    rewrite H5. apply bool_decide_ext. rewrite elem_of_cons. naive_solver.
Qed.

Lemma sh_write_live st ps lv lim a n m :
  shared_inv st ps lv lim -> (a, n) ∈ lv ->
  (forall x, x < a \/ a + n <= x -> m x = memory st x) ->
  shared_inv (set_memory st m) ps lv lim.
Proof. intros [H1 H2 H3 H4 H5] ??. split; try done. by eapply core_write_live. Qed.

(** ** One step of one thread *)

(** What a step of thread [i] does to the lock. *)
Definition lock_step (i : nat) (lk lk' : option nat) (t t' : thread) : Prop :=
  (lk' = lk /\ in_section t' = in_section t) \/
  (lk = None /\ lk' = Some i /\ in_section t = false /\ in_section t' = true) \/
  (in_section t = true /\ lk' = None /\ in_section t' = false).

(** The outcome of a step of thread [i], with the objects [lv] and the pages
    [lim] of all the others. *)
Definition step_post (i : nat) (lk : option nat) (st : slob) (t : thread) (lv : list (Z * Z))
    (lim : list (Z * bool)) (o : outcome) : Prop :=
  match o with
  | Blocked => t = T_idle \/ lk <> None /\ in_section t = false
  | Step lk' st' t' given =>
    (exists ps', shared_inv st' ps' (given ++ objects_of t' ++ lv) (pages_of t' ++ lim)) /\
    thread_ok t' /\ lock_step i lk lk' t t' /\ keeps lv (memory st) (memory st')
  end.

Lemma spin_lock_ok i lk st ps lv lim t t' :
  shared_inv st ps (objects_of t' ++ lv) (pages_of t' ++ lim) -> thread_ok t' ->
  in_section t = false -> in_section t' = true ->
  exists o, spin_lock i lk st t' = Ok o /\ step_post i lk st t lv lim o.
Proof.
  intros H Hok E E'. unfold spin_lock. destruct lk as [j|]; eexists; (split; [done|]).
  - by right.
  - split; [by exists ps|]. split; [done|]. split; [|done]. right. by left.
Qed.

Lemma goto_ok i lk st st' ps lv lim t t' :
  shared_inv st' ps (objects_of t' ++ lv) (pages_of t' ++ lim) -> thread_ok t' ->
  in_section t' = in_section t -> keeps lv (memory st) (memory st') ->
  exists o, goto lk st' t' = Ok o /\ step_post i lk st t lv lim o.
Proof.
  intros H Hok E Hk. eexists. split; [done|]. split; [by exists ps|]. split; [done|].
  split; [by left|done].
Qed.

Lemma unlock_ok i lk st ps lv lim t t' :
  shared_inv st ps (objects_of t' ++ lv) (pages_of t' ++ lim) -> thread_ok t' ->
  in_section t = true -> in_section t' = false ->
  exists o, goto None st t' = Ok o /\ step_post i lk st t lv lim o.
Proof.
  intros H Hok E E'. eexists. split; [done|]. split; [by exists ps|]. split; [done|].
  split; [|done]. right. by right.
Qed.

Lemma alloc_step_ok i lk st ps alt r c lv lim :
  shared_inv st ps (objects_of (T_alloc r c) ++ lv) (pages_of (T_alloc r c) ++ lim) ->
  sp_alt_ok st alt -> request_ok r ->
  exists o, alloc_step i lk st alt r c = Ok o /\ step_post i lk st (T_alloc r c) lv lim o.
Proof.
  intros H Halt Hr.
  destruct c as [| | |b [|sp todo] [v|]|[b|]| |b|b|b|b|b [v|]|b [v|]|b|b [v|]];
    cbn [alloc_step];
    try (by apply (goto_ok i lk st _ ps); (done || by apply sh_set_counters));
    try (by apply (spin_lock_ok i lk st ps));
    try (by apply (unlock_ok i lk _ ps)).
  - destruct (sh_search st ps lv lim alt r H Halt Hr) as (st' & b & -> & H' & Hk).
    cbn [res_bind]. apply (goto_ok i lk st st' ps); [|done..]. by destruct b.
  - destruct (slob_new_pages _ _ _ _) as [b st'] eqn:E.
    destruct (sh_new_pages st ps lv lim _ _ b st' H E) as [H' Em].
    destruct b as [b|]; (apply (goto_ok i lk st st' ps); [done..|by rewrite Em]).
  - pose proof (sh_limbo _ _ _ _ H (b, false) ltac:(set_solver)) as [(_ & Hdiv & _) _].
    rewrite (virt_to_page_page b Hdiv).
    apply (goto_ok i lk st _ ps); [|done..]. apply (sh_set_slab st ps lv lim b false true H).
  - destruct (sh_fill st ps lv lim r b H Hr) as (st' & a & ps' & -> & H' & Hk).
    cbn [res_bind]. by apply (goto_ok i lk st st' ps').
  - apply (goto_ok i lk st _ ps); [|done..|].
    + destruct (_ =? 0); [done|].
      apply (sh_write_live _ _ _ _ b (r_size r)); [done|set_solver|].
      intros x Hx. by apply memset_out.
    + destruct (_ =? 0); [done|]. apply (write_keeps st ps b (r_size r)); [apply H|].
      intros x Hx. by apply memset_out.
  - eexists. split; [done|]. split; [exists ps; by apply sh_set_counters|].
    split; [done|]. split; [by left|done].
Qed.

Lemma free_step_ok i lk st ps a n c lv lim :
  shared_inv st ps (objects_of (T_free a n c) ++ lv) (pages_of (T_free a n c) ++ lim) ->
  exists o, free_step i lk st a n c = Ok o /\ step_post i lk st (T_free a n c) lv lim o.
Proof.
  intros H. destruct c as [|[v|]| | |[]| | | |[v|]]; cbn [free_step];
    try (by apply (goto_ok i lk st _ ps); (done || by apply sh_set_counters));
    try (by apply (spin_lock_ok i lk st ps));
    try (by apply (unlock_ok i lk _ ps)).
  - destruct (free_args st ps lv a n (sh_core _ _ _ _ H)) as [-> ->].
    by apply (goto_ok i lk st _ ps).
  - destruct (sh_free st ps lv lim a n H) as (st' & last & ps' & -> & H' & Hk).
    cbn [res_bind]. apply (goto_ok i lk st st' ps'); [|done..]. by destruct last.
  - apply (goto_ok i lk st _ ps); [|done..].
    apply (sh_set_slab st ps lv lim (virt_to_page a) true false H).
  - apply (goto_ok i lk st _ ps); [|done..].
    apply (sh_mapcount st ps lv lim (virt_to_page a) false H).
  - apply (goto_ok i lk st _ ps); [|done..]. by apply sh_free_pages.
Qed.

Lemma thread_step_ok i lk st ps alt t lv lim :
  shared_inv st ps (objects_of t ++ lv) (pages_of t ++ lim) -> sp_alt_ok st alt -> thread_ok t ->
  exists o, thread_step i lk st alt t = Ok o /\ step_post i lk st t lv lim o.
Proof.
  intros H Halt Hok. destruct t as [|r c|a n c]; cbn [thread_step].
  - exists Blocked. split; [done|]. by left.
  - by eapply alloc_step_ok.
  - by eapply free_step_ok.
Qed.

(** ** Every step keeps the invariant *)

Lemma lock_step_ok i lk lk' ths t t' :
  lock_ok lk ths -> ths !! i = Some t -> lock_step i lk lk' t t' -> lock_ok lk' (<[i := t']> ths).
Proof.
  intros Hlk Hi Hs j. pose proof (lookup_lt_Some _ _ _ Hi) as Hlt.
  assert (in_section t = true -> lk = Some i) as Hown by (intros E; apply Hlk; eauto).
  destruct (decide (j = i)) as [->|Hne].
  - rewrite list_lookup_insert_eq by done. destruct Hs as [[-> E]|[(-> & -> & _ & E)|(E & -> & E')]].
    + rewrite (Hlk i). naive_solver congruence.
    + split; [eauto|done].
    + split; [done|]. naive_solver congruence.
  - rewrite list_lookup_insert_ne by done.
    destruct Hs as [[-> E]|[(-> & -> & _ & E)|(E & -> & E')]]; [apply Hlk|..].
    + rewrite <- (Hlk j). naive_solver congruence.
    + rewrite <- (Hlk j), Hown by done. naive_solver congruence.
Qed.

Lemma threads_ok_insert (ths : list thread) i t' :
  (forall j t, ths !! j = Some t -> thread_ok t) -> thread_ok t' ->
  forall j t, <[i := t']> ths !! j = Some t -> thread_ok t.
Proof. intros H Ht j t [(-> & -> & _)|[_ ?]]%list_lookup_insert_Some; eauto. Qed.

(** A client's call: thread [i], so far idle, starts one. *)
Lemma call_inv st lk ths lv lv' i ps t :
  machine_inv (Mk st lk ths lv) ps -> ths !! i = Some T_idle ->
  lv ≡ₚ objects_of t ++ lv' -> pages_of t = [] -> in_section t = false -> thread_ok t ->
  machine_inv (Mk st lk (<[i := t]> ths) lv') ps.
Proof.
  intros [Hsh Hth Hlk] Hi HP Hpg Hse Hok. cbn in *.
  destruct (bind_insert objects_of ths i T_idle Hi) as (r1 & E1 & F1).
  destruct (bind_insert pages_of ths i T_idle Hi) as (r2 & E2 & F2). split; cbn.
  - eapply shared_inv_perm; [| |exact Hsh]; unfold in_flight, limbo; cbn.
    + rewrite E1, (F1 t), HP. cbn. solve_Permutation.
    + by rewrite E2, (F2 t), Hpg.
  - by apply threads_ok_insert.
  - eapply lock_step_ok; [exact Hlk|exact Hi|]. by left.
Qed.

(** Thread [i] can always take a step, unless it is idle or waits for the
    lock; the step keeps the invariant. *)
Lemma run_inv st lk ths lv ps alt i t :
  machine_inv (Mk st lk ths lv) ps -> ths !! i = Some t -> sp_alt_ok st alt ->
  exists o, thread_step i lk st alt t = Ok o /\
    match o with
    | Blocked => t = T_idle \/ lk <> None /\ in_section t = false
    | Step lk' st' t' given => lock_step i lk lk' t t' /\ keeps lv (memory st) (memory st') /\
        exists ps', machine_inv (Mk st' lk' (<[i := t']> ths) (given ++ lv)) ps'
    end.
Proof.
  intros [Hsh Hth Hlk] Hi Halt. cbn [shared slob_lock threads live] in *.
  destruct (bind_insert objects_of ths i t Hi) as (r1 & E1 & F1).
  destruct (bind_insert pages_of ths i t Hi) as (r2 & E2 & F2).
  destruct (thread_step_ok i lk st ps alt t (lv ++ r1) r2) as (o & E & Hpost).
  { eapply shared_inv_perm; [| |exact Hsh]; unfold in_flight, limbo; cbn; [|by rewrite E2].
    rewrite E1. solve_Permutation. }
  { done. }
  { by eapply Hth. }
  exists o. split; [done|]. destruct o as [|lk' st' t' given]; [done|].
  destruct Hpost as ((ps' & Hsh') & Hok & Hls & Hk). split; [done|].
  split; [intros x a Hx; apply Hk; set_solver|]. exists ps'. split; cbn.
  - eapply shared_inv_perm; [| |exact Hsh']; unfold in_flight, limbo; cbn; [|by rewrite F2].
    rewrite F1. solve_Permutation.
  - by apply threads_ok_insert.
  - by eapply lock_step_ok.
Qed.

Lemma machine_step_inv m m' :
  (exists ps, machine_inv m ps) -> machine_step m m' -> exists ps, machine_inv m' ps.
Proof.
  intros [ps Hinv] Hstep.
  destruct Hstep as [st lk ths lv i r Hi Hr|st lk ths lv lv' i a n Hi HP
                    |st lk ths lv a n m Hin Hm|st lk ths lv i t alt st' lk' t' given Hi Halt Heq].
  - exists ps. by eapply call_inv.
  - exists ps. by eapply call_inv.
  - exists ps. destruct Hinv as [Hsh Hth Hlk]. split; [|done..]. cbn in *.
    eapply sh_write_live; [exact Hsh| |exact Hm]. set_solver.
  - destruct (run_inv st lk ths lv ps alt i t Hinv Hi Halt) as (o & E & Hpost).
    rewrite Heq in E. injection E as <-. apply Hpost.
Qed.

Lemma bind_replicate_nil {A B : Type} (f : A -> list B) x n :
  f x = [] -> replicate n x ≫= f = [].
Proof. intros H. induction n as [|n IH]; [done|]. cbn. by rewrite H. Qed.

Lemma start_inv st n : at_boot st -> machine_inv (start st n) ∅.
Proof.
  intros Hb. pose proof (boot_inv st Hb) as [[Hc Hs] _ _ _]. split; cbn.
  - unfold in_flight, limbo. cbn. rewrite !bind_replicate_nil by done. split; [done|..].
    + intros p. set_solver.
    + set_solver.
    + constructor.
    + intros p. rewrite Hs. apply bool_decide_ext. set_solver.
  - by intros i t [-> _]%lookup_replicate.
  - intros i. split; [done|]. by intros (t & [-> _]%lookup_replicate & ?).
Qed.

Lemma reached_inv m : reached m -> exists ps, machine_inv m ps.
Proof.
  intros (st & n & Hb & Hr).
  apply (rtc_invariant machine_step (fun m => exists ps, machine_inv m ps) machine_step_inv _ _ Hr).
  exists ∅. by apply start_inv.
Qed.

(** ** Every call can be finished *)

(** How far a thread is from the end of its call; the second number counts the
    steps at one place of the code. *)
Definition reading (v : option Z) : nat := match v with None => 1%nat | Some _ => 0%nat end.

Definition rank (t : thread) : nat * nat :=
  match t with
  | T_idle => (0, 0)%nat
  | T_alloc _ c =>
    match c with
    | A_free => (14, 0)%nat
    | A_lock => (13, 0)%nat
    | A_search => (12, 0)%nat
    | A_count _ todo v => (11%nat, (2 * length todo + reading v)%nat)
    | A_unlock _ => (10, 0)%nat
    | A_new_pages => (9, 0)%nat
    | A_set_slab _ => (8, 0)%nat
    | A_lock_new _ => (7, 0)%nat
    | A_fill _ => (6, 0)%nat
    | A_unlock_new _ => (5, 0)%nat
    | A_pcount _ v => (4%nat, reading v)
    | A_claimed _ v => (3%nat, reading v)
    | A_clear _ => (2, 0)%nat
    | A_used _ v => (1%nat, reading v)
    end
  | T_free _ _ c =>
    match c with
    | F_enter => (9, 0)%nat
    | F_used v => (8%nat, reading v)
    | F_lock => (7, 0)%nat
    | F_body => (6, 0)%nat
    | F_unlock _ => (5, 0)%nat
    | F_clear_slab => (4, 0)%nat
    | F_mapcount => (3, 0)%nat
    | F_free_pages => (2, 0)%nat
    | F_pcount v => (1%nat, reading v)
    end
  end.

Definition closer (t' t : thread) : Prop :=
  ((rank t').1 < (rank t).1 \/ (rank t').1 = (rank t).1 /\ (rank t').2 < (rank t).2)%nat.

Lemma closer_wf : well_founded closer.
Proof.
  assert (forall a b t, rank t = (a, b) -> Acc closer t) as H; [|intros t; by eapply H, surjective_pairing].
  induction a as [a IHa] using lt_wf_ind. induction b as [b IHb] using lt_wf_ind.
  intros t Ht. constructor. intros t' Hc. unfold closer in Hc. rewrite Ht in Hc. cbn in Hc.
  destruct (rank t') as [a' b'] eqn:E. cbn in Hc. destruct Hc as [Hc|[-> Hc]].
  - apply (IHa a' ltac:(lia) b' t' E).
  - apply (IHb b' ltac:(lia) t' E).
Qed.

Lemma step_closer i lk st alt t lk' st' t' given :
  thread_step i lk st alt t = Ok (Step lk' st' t' given) -> closer t' t.
Proof.
  destruct t as [|r c|a n c]; cbn [thread_step]; [done|..]; intros H;
    destruct c; cbn [alloc_step free_step] in H; unfold spin_lock, goto in H;
    repeat match type of H with
    | context [match ?x with _ => _ end] => destruct x eqn:?; cbn [res_bind] in H; try discriminate H
    | context [res_bind ?x _] => destruct x as [[? ?]| | |] eqn:?; cbn [res_bind] in H; try discriminate H
    end;
    injection H as <- <- <- <-; unfold closer; cbn; lia.
Qed.

(** A thread in a call moves on, unless another one holds the lock. *)
Lemma step_nearer m ps alt i t :
  machine_inv m ps -> threads m !! i = Some t -> sp_alt_ok (shared m) alt ->
  exists o, thread_step i (slob_lock m) (shared m) alt t = Ok o /\
    match o with
    | Blocked => t = T_idle \/ exists j, slob_lock m = Some j /\ j <> i
    | Step _ _ t' _ => closer t' t
    end.
Proof.
  intros Hinv Hi Halt. destruct m as [st lk ths lv]. cbn [shared slob_lock threads] in *.
  destruct (run_inv st lk ths lv ps alt i t Hinv Hi Halt) as (o & E & Hpost). exists o.
  split; [done|]. destruct o as [|lk' st' t' given]; [|by eapply step_closer].
  destruct Hpost as [->|[Hlk Hs]]; [by left|right]. destruct lk as [j|]; [|done].
  exists j. split; [done|]. intros ->.
  destruct (proj1 (mi_lock _ _ Hinv i) eq_refl) as (t0 & E0 & Hs'). cbn in E0. congruence.
Qed.

(** Thread [i] may run: the lock is free or its own. *)
Definition may_run (m : machine) (i : nat) : Prop :=
  slob_lock m = None \/ slob_lock m = Some i.

(** A thread that may run finishes its call if it runs alone. *)
Lemma run_alone t : forall m ps i,
  machine_inv m ps -> threads m !! i = Some t -> may_run m i ->
  exists m' ps', rtc machine_step m m' /\ machine_inv m' ps' /\
    threads m' = <[i := T_idle]> (threads m) /\ slob_lock m' = None.
Proof.
  induction t as [t IH] using (well_founded_induction closer_wf). intros m ps i Hinv Hi Hrun.
  destruct m as [st lk ths lv]. pose proof (mi_lock _ _ Hinv) as Hlk.
  unfold may_run in Hrun. cbn [slob_lock threads] in *.
  destruct (run_inv st lk ths lv ps None i t Hinv Hi I) as (o & E & Hpost).
  assert (lk = Some i -> in_section t = true) as Hown.
  { intros (t0 & E0 & Hs)%Hlk. congruence. }
  destruct o as [|lk' st' t' given].
  - assert (t = T_idle) as -> by (destruct Hpost as [?|[]], Hrun; naive_solver congruence).
    exists (Mk st lk ths lv), ps. split; [done|]. split; [done|]. cbn.
    split; [by rewrite list_insert_id|]. destruct Hrun as [?|E']; [done|by apply Hown in E'].
  - destruct Hpost as (Hls & _ & ps1 & Hinv1).
    pose proof (lookup_lt_Some _ _ _ Hi) as Hlt.
    destruct (IH t' (step_closer _ _ _ _ _ _ _ _ _ E) _ ps1 i Hinv1) as (m' & ps' & H1 & H2 & H3 & H4).
    { by apply list_lookup_insert_eq. }
    { destruct Hls as [[-> _]|[(_ & -> & _)|(_ & -> & _)]]; [done|by right|by left]. }
    exists m', ps'. split; [|split; [done|split; [|done]]].
    + eapply rtc_l; [|exact H1]. by apply (run st lk ths lv i t None).
    + rewrite H3. cbn. by rewrite list_insert_insert_eq.
Qed.

(** ** Sequential calls are runs of the machine *)

(** Thread [i] alone. *)
Inductive solo (i : nat) :
  option nat * slob * thread * list (Z * Z) -> option nat * slob * thread * list (Z * Z) -> Prop :=
| solo_run lk st alt t lv lk' st' t' given :
    sp_alt_ok st alt ->
    thread_step i lk st alt t = Ok (Step lk' st' t' given) ->
    solo i (lk, st, t, lv) (lk', st', t', given ++ lv).

Lemma solo_machine i s s' :
  rtc (solo i) s s' -> forall ths, ths !! i = Some s.1.2 ->
  rtc machine_step (Mk s.1.1.2 s.1.1.1 ths s.2) (Mk s'.1.1.2 s'.1.1.1 (<[i := s'.1.2]> ths) s'.2).
Proof.
  induction 1 as [[[[lk st] t] lv]|x y z Hxy Hyz IH]; intros ths Hi; cbn in *.
  - by rewrite list_insert_id.
  - destruct Hxy as [lk st alt t lv lk' st' t' given Halt E]. cbn in *.
    pose proof (lookup_lt_Some _ _ _ Hi). eapply rtc_l; [by eapply (run _ _ _ _ _ _ alt)|].
    rewrite <- (list_insert_insert_eq ths i z.1.2 t'). apply IH. by apply list_lookup_insert_eq.
Qed.

Lemma solo_l i lk st alt t lv lk' st' t' given z :
  sp_alt_ok st alt ->
  thread_step i lk st alt t = Ok (Step lk' st' t' given) ->
  rtc (solo i) (lk', st', t', given ++ lv) z -> rtc (solo i) (lk, st, t, lv) z.
Proof. intros Halt H Hz. eapply rtc_l; [by eapply (solo_run _ _ _ alt)|done]. Qed.

(** The next step of the thread, by evaluation. *)
Ltac solo_next := eapply (solo_l _ _ _ None); [exact I|reflexivity|cbn [app]].

(** The page-level code neither reads nor writes the counters. *)
Lemma page_alloc_counters st sp n align pc fr us cl :
  slob_page_alloc (set_counters st pc fr us cl) sp n align =
  let! (st', b) := slob_page_alloc st sp n align in Ok (set_counters st' pc fr us cl, b).
Proof.
  unfold slob_page_alloc. cbn [pages memory set_counters].
  destruct (slob_page_scan _ _ _ _ _ _ _) as [[[[m fl] cur]|]| | |]; try done.
  cbn [res_bind]. by destruct (_ =? 0).
Qed.

Lemma pick_counters st n node sp l pc fr us cl :
  slob_pick (set_counters st pc fr us cl) n node sp l = slob_pick st n node sp l.
Proof.
  revert sp. induction l as [|q l IH]; intros sp; [done|]. cbn [slob_pick pages set_counters].
  by rewrite !IH.
Qed.

Lemma search_counters st alt n align node pc fr us cl :
  slob_alloc_search (set_counters st pc fr us cl) alt n align node =
  let! (st', b) := slob_alloc_search st alt n align node in Ok (set_counters st' pc fr us cl, b).
Proof.
  unfold slob_alloc_search. rewrite pick_counters. cbn [free_lists set_counters].
  destruct (slob_pick _ _ _ _ _); [apply page_alloc_counters|done].
Qed.

Lemma search_keeps_counters st alt n align node st' b :
  slob_alloc_search st alt n align node = Ok (st', b) -> counters st' = counters st.
Proof.
  unfold slob_alloc_search. destruct (slob_pick _ _ _ _ _) as [sp|]; [|by intros [= <- _]].
  unfold slob_page_alloc.
  destruct (slob_page_scan _ _ _ _ _ _ _) as [[[[m fl] cur]|]| | |]; cbn [res_bind]; try done.
  - intros [= <- _]. by destruct (_ =? 0).
  - by intros [= <- _].
Qed.

(** The three loops. *)
Lemma solo_count i lk r b todo : forall st lv,
  rtc (solo i) (lk, st, T_alloc r (A_count b todo None), lv)
    (lk, set_counters st (pcount st)
           (fold_left (fun f sp => ulong (f + pg_units (pages st sp))) todo (free st))
           (used_m st) (claimed_m st),
     T_alloc r (A_count b [] None), lv).
Proof.
  induction todo as [|sp todo IH]; intros st lv; cbn [fold_left].
  - destruct st. done.
  - solo_next. solo_next. apply IH.
Qed.

Lemma solo_alloc i st alt r st' b lv :
  sp_alt_ok st alt ->
  slob_alloc st alt (r_size r) (r_gfp r) (r_align r) (r_node r) = Ok (st', b) ->
  rtc (solo i) (None, st, T_alloc r A_free, lv)
    (None, st', T_idle, match b with Some a => [(a, r_size r)] | None => [] end ++ lv).
Proof.
  unfold slob_alloc. intros Halt H.
  destruct (slob_alloc_search st alt (r_size r) (r_align r) (r_node r)) as [[st1 b1]| | |] eqn:E;
    try discriminate H. cbn [res_bind] in H.
  pose proof (search_keeps_counters _ _ _ _ _ _ _ E) as Hc. injection Hc as C1 C2 C3 C4.
  set (st2 := set_counters st1 (pcount st1) (slob_count_free st1) (used_m st1) (claimed_m st1)) in *.
  solo_next. solo_next.
  assert (rtc (solo i) (Some i, put_free st 0, T_alloc r A_search, lv)
            (None, st2, T_alloc r (match b1 with Some b => A_clear b | None => A_new_pages end), lv))
    as Hcrit.
  { eapply (solo_l _ _ _ alt); [done|..].
    { cbn [thread_step alloc_step]. unfold put_free. rewrite search_counters, E. cbn [res_bind]. reflexivity. }
    etrans; [apply solo_count|].
    solo_next. solo_next. unfold st2. rewrite C1, C3, C4. by destruct b1. }
  etrans; [exact Hcrit|]. clear Hcrit.
  destruct b1 as [a|]; cbn [res_bind] in H.
  - injection H as <- <-. do 3 solo_next. done.
  - unfold slob_alloc_new_page in H.
    destruct (slob_new_pages st2 _ 0 _) as [[p|] st3] eqn:Ep; cbn [res_bind] in H.
    2:{ injection H as <- <-. eapply (solo_l _ _ _ None); [done| |done]. cbn [thread_step alloc_step]. by rewrite Ep. }
    destruct (slob_page_alloc _ _ _ _) as [[st4 [a|]]| | |] eqn:Ea; try discriminate H.
    cbn [res_bind] in H. injection H as <- <-.
    eapply (solo_l _ _ _ None); [done|..].
    { cbn [thread_step alloc_step]. rewrite Ep. reflexivity. }
    solo_next. solo_next. eapply (solo_l _ _ _ None); [done|..].
    { cbn [thread_step alloc_step]. rewrite Ea. reflexivity. }
    do 8 solo_next. done.
Qed.

Lemma solo_free i st a n st' lv :
  slob_free st a n = Ok st' ->
  rtc (solo i) (None, st, T_free a n F_enter, lv) (None, st', T_idle, lv).
Proof.
  unfold slob_free. intros H. destruct (ZERO_OR_NULL_PTR a) eqn:Ez.
  { injection H as <-. eapply (solo_l i _ _ None _ _ _ _ _ []); [done| |done]. cbn [thread_step free_step]. by rewrite Ez. }
  destruct (n =? 0) eqn:En; [done|].
  destruct (slob_free_locked _ _ _ _) as [[st1 last]| | |] eqn:Ef; try discriminate H.
  cbn [res_bind] in H. eapply (solo_l _ _ _ None); [done|..].
  { cbn [thread_step free_step]. rewrite Ez, En. reflexivity. }
  do 3 solo_next. eapply (solo_l _ _ _ None); [done|..].
  { cbn [thread_step free_step]. unfold put_used. rewrite Ef. reflexivity. }
  destruct last; injection H as <-; solo_next; [do 5 solo_next|]; done.
Qed.

(** One action of a sequential client, as a run of the machine. *)
Lemma client_step_machine i ths s s' :
  client_step s s' -> ths !! i = Some T_idle ->
  rtc machine_step (Mk s.1 None ths s.2) (Mk s'.1 None ths s'.2).
Proof.
  intros Hs Hi. pose proof (lookup_lt_Some _ _ _ Hi) as Hlt.
  assert (forall t st0 st1 lv0 lv1,
    rtc (solo i) (None, st0, t, lv0) (None, st1, T_idle, lv1) ->
    rtc machine_step (Mk st0 None (<[i := t]> ths) lv0) (Mk st1 None ths lv1)) as Hsolo.
  { intros t st0 st1 lv0 lv1 H.
    rewrite <- (list_insert_id ths i T_idle) at 2 by done.
    rewrite <- (list_insert_insert_eq ths i T_idle t).
    apply (solo_machine i _ _ H). by apply list_lookup_insert_eq. }
  destruct Hs as [st live alt n gfp align node st' a Halt Hn Hal Hle Heq
                 |st live alt n gfp align node st' Halt Hn Hal Hle Heq
                 |st live live' a n st' HP Heq|st live a n m Hin Hm]; cbn [fst snd].
  - eapply rtc_l; [by apply (call_alloc _ _ _ _ i {| r_size := n; r_gfp := gfp; r_align := align; r_node := node |})|].
    by apply Hsolo, (solo_alloc i _ alt {| r_size := n |} _ (Some a)).
  - eapply rtc_l; [by apply (call_alloc _ _ _ _ i {| r_size := n; r_gfp := gfp; r_align := align; r_node := node |})|].
    by apply Hsolo, (solo_alloc i _ alt {| r_size := n |} _ None).
  - eapply rtc_l; [by apply (call_free _ _ _ _ live' i a n)|].
    by apply Hsolo, solo_free.
  - apply rtc_once. by eapply owner_write.
Qed.

(** ** The theorems *)

(** C3: slob_alloc and slob_free are safe under concurrency, provided the
    [sp_alt] that [slob_alloc] does not initialise is, whenever a thread begins
    its search, [NULL] or a page that is then on one of the lists.  In every
    interleaving of any number of threads and of clients that write into their
    objects, the invariant holds: free blocks, objects held by clients and
    objects on their way in or out tile every page, the page lists hold exactly
    the partially free pages, and [PG_slab] is set exactly on the allocator's
    pages and those on their way in or out; no two objects share a byte; no
    thread can run into a [BUG_ON], a bad access or the bound of a loop; and no
    step of a thread changes a byte of an object that a client holds. *)
Theorem conc_safe m :
  reached m -> exists ps,
    machine_inv m ps /\
    (forall x y rest, live m ++ in_flight m ≡ₚ x :: y :: rest ->
       x.1 + x.2 <= y.1 \/ y.1 + y.2 <= x.1) /\
    (forall x, x ∈ live m ++ in_flight m ->
       PageSlab (pages (shared m) (virt_to_page x.1)) = true) /\
    (forall i t alt, threads m !! i = Some t -> sp_alt_ok (shared m) alt ->
       exists o, thread_step i (slob_lock m) (shared m) alt t = Ok o /\
         match o with
         | Blocked => True
         | Step _ st' _ _ => keeps (live m) (memory (shared m)) (memory st')
         end).
Proof.
  intros [ps Hinv]%reached_inv. pose proof (mi_shared _ _ Hinv) as [Hc Hh Hl Hn Hs].
  exists ps. split; [done|]. split; [|split].
  - intros x y rest HP. rewrite HP in Hc. by eapply inv_disjoint.
  - intros x Hx. rewrite Hs. apply bool_decide_eq_true. left. by apply Hc.
  - intros i t alt Hi Halt. destruct m as [st lk ths lv].
    destruct (run_inv st lk ths lv ps alt i t Hinv Hi Halt) as (o & E & Hpost). exists o. split; [done|].
    by destruct o as [|lk' st' t' given]; [|destruct Hpost as (_ & Hk & _)].
Qed.

(** C17: [slob_lock] does its job, provided the uninitialised [sp_alt] is, at
    the start of every search, [NULL] or a page on a list.  Two threads are
    never both inside a section it protects.  A thread in a call can take a
    step unless another one holds the lock, and every step, whatever such
    [sp_alt] it finds, brings it nearer to the end of its call, by a measure
    that cannot decrease forever.  So from every reachable state every thread
    can finish its call (the holder first, then the thread itself, without the
    help of others), and nothing deadlocks. *)
Theorem conc_lock m :
  reached m ->
  (forall i j ti tj, threads m !! i = Some ti -> threads m !! j = Some tj ->
     in_section ti = true -> in_section tj = true -> i = j) /\
  well_founded closer /\
  (forall i t alt, threads m !! i = Some t -> sp_alt_ok (shared m) alt ->
     exists o, thread_step i (slob_lock m) (shared m) alt t = Ok o /\
       match o with
       | Blocked => t = T_idle \/ exists j, slob_lock m = Some j /\ j <> i
       | Step _ _ t' _ => closer t' t
       end) /\
  (forall i t, threads m !! i = Some t ->
     exists m', rtc machine_step m m' /\ threads m' !! i = Some T_idle).
Proof.
  intros [ps Hinv]%reached_inv. split; [|split; [apply closer_wf|split]].
  - intros i j ti tj Hi Hj Si Sj.
    assert (slob_lock m = Some i) as E1 by (apply (mi_lock _ _ Hinv); eauto).
    assert (slob_lock m = Some j) as E2 by (apply (mi_lock _ _ Hinv); eauto). congruence.
  - intros i t alt Hi Halt. by eapply step_nearer.
  - assert (forall m ps i t, machine_inv m ps -> threads m !! i = Some t -> may_run m i ->
      exists m', rtc machine_step m m' /\ threads m' !! i = Some T_idle) as Hrun.
    { intros m0 ps0 i t H0 Hi Hm. destruct (run_alone t m0 ps0 i H0 Hi Hm) as (m' & _ & H1 & _ & H2 & _).
      exists m'. split; [done|]. rewrite H2. apply list_lookup_insert_eq. by eapply lookup_lt_Some. }
    intros i t Hi. destruct (slob_lock m) as [j|] eqn:Hlk; [|by eapply Hrun; [..|left]].
    destruct (decide (j = i)) as [->|Hne]; [by eapply Hrun; [..|right]|].
    pose proof (proj1 (mi_lock _ _ Hinv j) Hlk) as (tj & Hj & _).
    destruct (run_alone tj m ps j Hinv Hj) as (m1 & ps1 & R1 & Hinv1 & Ht & Hlk1); [by right|].
    destruct (Hrun m1 ps1 i t Hinv1) as (m2 & R2 & H2); [|by left|].
    { rewrite Ht. by rewrite list_lookup_insert_ne. }
    exists m2. split; [by etrans|done].
Qed.

(** Running one call after another is a special case: whatever the
    allocator of [Slob.v], whose calls are one step each, does for its clients,
    the machine does with the calls made by any one of its threads, down to the
    last counter. *)
Lemma conc_sequential s s' i ths :
  rtc client_step s s' -> ths !! i = Some T_idle ->
  rtc machine_step (Mk s.1 None ths s.2) (Mk s'.1 None ths s'.2).
Proof.
  intros H Hi. induction H as [s|s1 s2 s3 Hs _ IH]; [done|].
  etrans; [by eapply client_step_machine|done].
Qed.

End Theory.
