(* ===== verification/SlobConcRuns.v ===== *)
(** * slob.c: concurrent runs

    Interleavings of the machine of [SlobConc.v] on the i386 instance: the
    states used to instantiate its theorems, and what the updates of the
    statistics outside [slob_lock] do to the counters. *)

From S2P Require Import Prelude Mem KernelEnv SlobPage Slob SlobProofs SlobSpec SlobRuns SlobConc.
Import I386.

(** What the scheduler does next: thread [i] starts to allocate [n] bytes or to
    free the [k]-th object of the clients, or takes [n] steps. *)
Inductive event : Type := CallAlloc (i : nat) (n : Z) | CallFree (i k : nat) | Run (i n : nat).

(** The [sp_alt] of these runs is [NULL]. *)
Definition advance (i : nat) (m : machine) : machine :=
  match threads m !! i with
  | Some t =>
    match thread_step i (slob_lock m) (shared m) None t with
    | Ok (Step lk st t' given) => Mk st lk (<[i := t']> (threads m)) (given ++ live m)
    | _ => m
    end
  | None => m
  end.

Definition idle (m : machine) (i : nat) : bool :=
  match threads m !! i with Some T_idle => true | _ => false end.

Definition exec1 (m : machine) (e : event) : machine :=
  match e with
  | CallAlloc i n =>
    if idle m i && (1 <=? n) && (n <=? PAGE_SIZE) then
      Mk (shared m) (slob_lock m)
        (<[i := T_alloc {| r_size := n; r_gfp := 0; r_align := 8; r_node := NUMA_NO_NODE |} A_free]>
           (threads m)) (live m)
    else m
  | CallFree i k =>
    match live m !! k with
    | Some (a, n) =>
      if idle m i then
        Mk (shared m) (slob_lock m) (<[i := T_free a n F_enter]> (threads m)) (delete k (live m))
      else m
    | None => m
    end
  | Run i n => Nat.iter n (advance i) m
  end.

Definition exec (l : list event) : machine := fold_left exec1 l (start boot0 2).

Lemma reached_step m m' : reached m -> machine_step m m' -> reached m'.
Proof. intros (st & n & Hb & Hr) Hs. exists st, n. split; [done|]. by eapply rtc_r. Qed.

Lemma idle_true m i : idle m i = true -> threads m !! i = Some T_idle.
Proof. unfold idle. by destruct (_ !! i) as [[]|]. Qed.

Lemma advance_reached i m : reached m -> reached (advance i m).
Proof.
  intros H. unfold advance. destruct (threads m !! i) as [t|] eqn:Hi; [|done].
  destruct (thread_step _ _ _ _ _) as [[|lk st t' g]| | |] eqn:E; try done.
  eapply reached_step; [done|]. destruct m. by apply (run _ _ _ _ _ t None).
Qed.

Lemma exec1_reached m e : reached m -> reached (exec1 m e).
Proof.
  intros H. destruct e as [i n|i k|i n]; cbn [exec1].
  - destruct (idle m i) eqn:Hi; [apply idle_true in Hi|done].
    destruct (Z.leb_spec 1 n); [|done]. destruct (Z.leb_spec n PAGE_SIZE); [|done].
    eapply reached_step; [done|]. destruct m. apply call_alloc; [done|].
    split; [done|]. split; [apply align8_valid|by vm_compute].
  - destruct (live m !! k) as [[a n]|] eqn:Hk; [|done]. destruct (idle m i) eqn:Hi; [apply idle_true in Hi|done].
    eapply reached_step; [done|]. destruct m. eapply call_free; [done|]. by apply delete_Permutation.
  - induction n as [|n IH]; [done|]. by apply advance_reached.
Qed.

Lemma exec_reached l : reached (exec l).
Proof.
  unfold exec. assert (reached (start boot0 2)) as H.
  { exists boot0, 2%nat. split; [|done]. repeat split. by intros []. }
  revert H. generalize (start boot0 2). induction l as [|e l IH]; intros m Hm; [done|].
  cbn [fold_left]. by apply IH, exec1_reached.
Qed.

(** Two threads allocate 100 bytes each.  Both find no page with room, both
    take a new page, and both read each counter before either writes it. *)
Definition race : list event :=
  [CallAlloc 0 100; CallAlloc 1 100; Run 0 5; Run 1 5; Run 0 5; Run 1 5;
   Run 0 1; Run 1 1; Run 0 1; Run 1 1; Run 0 1; Run 1 1; Run 0 1; Run 1 1;
   Run 0 1; Run 1 1; Run 0 1; Run 1 1; Run 0 1; Run 1 1].

(** Then both objects are freed, one after the other. *)
Definition race_free : list event := race ++ [CallFree 0 0; Run 0 12; CallFree 0 0; Run 0 12].

Definition show (m : machine) : list bool * list (Z * Z) * list bool * (Z * Z * Z) :=
  (map (fun t => match t with T_idle => true | _ => false end) (threads m), live m,
   map (fun p => PageSlab (pages (shared m) p)) [4096; 8192],
   (pcount (shared m), used_m (shared m), claimed_m (shared m))).

(** C37: the statistics are wrong once calls overlap, because they are updated
    outside [slob_lock].  After the two calls of [race] the clients hold two
    objects of 100 bytes on two pages, but the counters say 100 bytes, one page
    and 4096 bytes claimed; when both objects are freed, [used_m] is -100 and
    [pcount] has wrapped below zero, so the system call for the free memory
    reports more than was ever claimed. *)
Theorem conc_lost_updates :
  let m := exec race in
  let m' := exec race_free in
  reached m /\ reached m' /\ threads m = [T_idle; T_idle] /\ threads m' = [T_idle; T_idle] /\
  live m = [(8192, 100); (4096, 100)] /\ live m' = [] /\
  map (fun p => PageSlab (pages (shared m) p)) [4096; 8192] = [true; true] /\
  (pcount (shared m), used_m (shared m), claimed_m (shared m)) = (1, 100, PAGE_SIZE) /\
  map (fun p => PageSlab (pages (shared m') p)) [4096; 8192] = [false; false] /\
  (pcount (shared m'), used_m (shared m')) = (2 ^ 32 - 1, -100) /\
  sys_slob_free (shared m') = PAGE_SIZE + 100.
Proof. split; [apply exec_reached|]. split; [apply exec_reached|]. vm_compute. done. Qed.

(** The count of free units suffers too: both threads reset it before either
    counts, so each page is counted twice. *)
Lemma conc_free_twice :
  let m := exec [CallAlloc 0 100; Run 0 25; CallAlloc 0 50; CallAlloc 1 50; Run 0 1; Run 1 1;
                 Run 0 7; Run 1 7] in
  reached m /\ list_elems (free_lists (shared m)) free_slob_small = [4096] /\
  free (shared m) = pg_units (pages (shared m) 4096) + (pg_units (pages (shared m) 4096) + 25).
Proof. split; [apply exec_reached|]. vm_compute. done. Qed.

(** ** The theorems of [SlobConc.v] on this run *)

(** In the middle of [race], both threads hold a new page and an object. *)
Definition race_mid : machine :=
  exec [CallAlloc 0 100; CallAlloc 1 100; Run 0 5; Run 1 5; Run 0 5; Run 1 4].

Lemma race_mid_view :
  in_flight race_mid = [(4096, 100); (8192, 100)] /\ live race_mid = [] /\
  slob_lock race_mid = Some 1%nat.
Proof. vm_compute. done. Qed.

Lemma conc_safe_witness :
  100 + 4096 <= 8192 \/ 8192 + 100 <= 4096.
Proof.
  destruct (conc_safe race_mid) as (ps & _ & H & _); [apply exec_reached|].
  destruct race_mid_view as (E1 & E2 & _). rewrite E1, E2 in H.
  destruct (H (4096, 100) (8192, 100) []) as [H'|H'];
    [done|left; cbn in H'; lia|right; cbn in H'; lia].
Defined.

Lemma conc_lock_witness :
  exists m, rtc machine_step race_mid m /\ threads m !! 0%nat = Some T_idle.
Proof.
  destruct (conc_lock race_mid) as (_ & _ & _ & H); [apply exec_reached|].
  destruct (threads race_mid !! 0%nat) as [t|] eqn:E; [exact (H 0%nat t E)|vm_compute in E; discriminate E].
Defined.
