(* ===== verification/SlobCache.v ===== *)
(** * slob.c: the kmem_cache front end

    Caches of [kernel/project4/code/slob.c] under clients, those with
    [SLAB_DESTROY_BY_RCU] included: [kmem_cache_free] of such a cache leaves the
    object allocated and queues it through a footer at the object's end, and
    [kmem_rcu_free] frees it after the grace period.  [cache_step] interleaves
    the calls on caches, the ends of grace periods, in any order, and the other
    clients of the allocator, with any [sp_alt] that is [sp_alt_ok].  The caches
    are those whose objects are smaller than a page; [kmem_cache_big] says what
    happens with larger ones. *)

From S2P Require Import Prelude Mem KernelEnv SlobPage Slob SlobProofs SlobSpec SlobRuns.

Section Defs.
Context `{K : KernelEnv} `{L : ListApi} `{P : PageApi}.

Definition is_rcu (c : kmem_cache) : bool := negb (Z.land (c_flags c) SLAB_DESTROY_BY_RCU =? 0).

(** A cache whose objects come from [slob_alloc], as [kmem_cache_create] leaves
    it: there is room for the footer, and the constructor writes only to the
    object. *)
Record cache_ok (c : kmem_cache) : Prop := {
  co_size : 1 <= c_size c < PAGE_SIZE;
  co_rcu : is_rcu c = true -> sizeof_slob_rcu <= c_size c;
  co_align : valid_align (c_align c) /\ c_align c <= PAGE_SIZE;
  co_ctor : forall f m b, c_ctor c = Some f ->
    forall x, x < b \/ b + c_size c <= x -> f m b x = m x
}.

(** The allocator, the objects that clients hold, and the objects freed through
    RCU whose callback has not run, in the order of the calls of [call_rcu]. *)
Record cache_state : Type := Cs {
  cs : slob;
  held_objs : list (Z * Z);
  deferred : list (Z * Z)
}.

(** Where the footer of a deferred object starts. *)
Definition footer (x : Z * Z) : Z := x.1 + (x.2 - sizeof_slob_rcu).

(** [call_rcu] links the queue through the [rcu_head] of the footer. *)
Definition link_only (x : Z * Z) (m m' : mem) : Prop :=
  forall a, a < footer x \/ footer x + sizeof_rcu_head <= a -> m' a = m a.

Inductive cache_step : cache_state -> cache_state -> Prop :=
| other_client st live live' df st' :
    client_step (st, live) (st', live') ->
    cache_step (Cs st live df) (Cs st' live' df)
| cache_alloc st live df alt c flags node st' b :
    sp_alt_ok st alt -> cache_ok c -> slob_alloc_node st alt c flags node = Ok (st', b) ->
    cache_step (Cs st live df)
      (Cs st' (if b =? NULL then live else (b, c_size c) :: live) df)
| cache_free st live live' df c b st' :
    cache_ok c -> live ≡ₚ (b, c_size c) :: live' -> kmem_cache_free st c b = Ok st' ->
    cache_step (Cs st live df)
      (Cs st' live' (if is_rcu c then df ++ [(b, c_size c)] else df))
| rcu_link st live df x m :
    x ∈ df -> link_only x (memory st) m ->
    cache_step (Cs st live df) (Cs (set_memory st m) live df)
| grace_period st live df i x st' :
    df !! i = Some x -> rcu_run st i = Ok st' ->
    cache_step (Cs st live df) (Cs st' live (delete i df)).

Definition cache_reachable (s : cache_state) : Prop :=
  exists st0, at_boot st0 /\ rcu_queue st0 = [] /\ rtc cache_step (Cs st0 [] []) s.

(** A deferred object has its size in its footer, where [kmem_rcu_free] will
    read it. *)
Definition deferred_ok (m : mem) (x : Z * Z) : Prop :=
  load 4 m (footer x + sizeof_rcu_head) = x.2 /\ sizeof_slob_rcu <= x.2 < PAGE_SIZE.

Record cache_inv (s : cache_state) (ps : gset Z) : Prop := {
  ci_slob : slob_inv (cs s) ps (held_objs s ++ deferred s);
  ci_queue : rcu_queue (cs s) = map footer (deferred s);
  ci_deferred : forall x, x ∈ deferred s -> deferred_ok (memory (cs s)) x
}.

End Defs.

Section Theory.
Context `{K : KernelEnv} {KL : KernelEnvLaws K}.
Context `{L : ListApi} {LL : ListApiLaws L}.
Context `{P : PageApi} {PL : PageApiLaws K P}.

(** ** The footer *)

Lemma footer_room : sizeof_rcu_head + 4 <= sizeof_slob_rcu.
Proof. apply ALIGN_ge, word_pow2. Qed.

Lemma load_keeps live m m' x o n :
  keeps live m m' -> x ∈ live -> 0 <= o -> o + Z.of_nat n <= x.2 ->
  load n m' (x.1 + o) = load n m (x.1 + o).
Proof. intros Hk Hx Ho Hn. apply load_agree. intros a Ha. apply (Hk x); [done|lia]. Qed.

Lemma deferred_keeps df m m' x :
  keeps df m m' -> x ∈ df -> deferred_ok m x -> deferred_ok m' x.
Proof.
  intros Hk Hx [Hl Hs]. split; [|done]. rewrite <- Hl. unfold footer.
  replace (x.1 + (x.2 - sizeof_slob_rcu) + sizeof_rcu_head)
    with (x.1 + (x.2 - sizeof_slob_rcu + sizeof_rcu_head)) by lia.
  pose proof footer_room. pose proof rcu_head_nonneg. apply (load_keeps df); (done || lia).
Qed.

(** ** The allocator leaves the RCU queue alone *)

Lemma page_alloc_rcu st sp n align st' r :
  slob_page_alloc st sp n align = Ok (st', r) -> rcu_queue st' = rcu_queue st.
Proof.
  unfold slob_page_alloc.
  destruct (slob_page_scan _ _ _ _ _ _ _) as [[[[m fl] cur]|]| | |]; cbn [res_bind]; try done;
    intros [= <- _]; [|done]. by destruct (_ =? 0).
Qed.

Lemma search_rcu st alt n align node st' r :
  slob_alloc_search st alt n align node = Ok (st', r) -> rcu_queue st' = rcu_queue st.
Proof.
  unfold slob_alloc_search. destruct (slob_pick _ _ _ _ _) as [sp|]; [apply page_alloc_rcu|].
  by intros [= <- _].
Qed.

Lemma new_page_rcu st l n gfp align node st' r :
  slob_alloc_new_page st l n gfp align node = Ok (st', r) -> rcu_queue st' = rcu_queue st.
Proof.
  unfold slob_alloc_new_page, slob_new_pages.
  destruct (alloc_pages_node _ _ _ _) as [[b|] a]; [|by intros [= <- _]].
  destruct (slob_page_alloc _ _ _ _) as [[s [c|]]| | |] eqn:E; cbn [res_bind]; try done.
  intros [= <- _]. apply page_alloc_rcu in E. done.
Qed.

Lemma slob_alloc_rcu st alt n gfp align node st' r :
  slob_alloc st alt n gfp align node = Ok (st', r) -> rcu_queue st' = rcu_queue st.
Proof.
  assert (forall s b, rcu_queue (slob_alloc_finish s b n gfp) = rcu_queue s) as Hf.
  { intros s b. unfold slob_alloc_finish. by destruct (_ =? 0). }
  unfold slob_alloc.
  destruct (slob_alloc_search _ _ _ _ _) as [[s [b|]]| | |] eqn:E; cbn [res_bind]; try done;
    apply search_rcu in E.
  - intros [= <- _]. rewrite Hf. done.
  - destruct (slob_alloc_new_page _ _ _ _ _ _) as [[s' [b|]]| | |] eqn:E'; cbn [res_bind]; try done;
      apply new_page_rcu in E'; cbn in E'; intros [= <- _]; [rewrite Hf|]; congruence.
Qed.

Lemma slob_free_rcu st a n st' : slob_free st a n = Ok st' -> rcu_queue st' = rcu_queue st.
Proof.
  unfold slob_free. destruct (ZERO_OR_NULL_PTR a); [by intros [= <-]|].
  destruct (n =? 0); [done|]. unfold slob_free_locked.
  destruct (_ =? SLOB_UNITS PAGE_SIZE); cbn [res_bind].
  { intros [= <-]. cbn. by destruct (slob_page_free _ _). }
  destruct (negb _); cbn [res_bind]; [by intros [= <-]|].
  destruct (slob_free_insert _ _ _ _) as [[m fl]| | |]; cbn [res_bind]; try done.
  by intros [= <-].
Qed.

(** ** The other clients *)

Lemma client_step_frame st live st' live' df :
  client_step (st, live) (st', live') -> client_step (st, live ++ df) (st', live' ++ df).
Proof.
  inversion 1 as [? ? ? ? ? ? ? ? ? Hok ? ? ? E|? ? ? ? ? ? ? ? Hok ? ? ? E|? ? ? ? ? ? HP E|? ? ? ? ? Hin Hm]; subst.
  - by eapply client_alloc.
  - by eapply client_alloc_null.
  - eapply client_free; [|exact E]. by rewrite HP.
  - eapply client_write; [|exact Hm]. set_solver.
Qed.

Lemma client_step_keeps st live st' live' df ps :
  slob_str st ps (live ++ df) -> client_step (st, live) (st', live') ->
  keeps df (memory st) (memory st') /\ rcu_queue st' = rcu_queue st.
Proof.
  intros Hstr. assert (forall m m' l, keeps (l ++ df) m m' -> keeps df m m') as Hsub.
  { intros m m' l Hk x a Hx. apply Hk. set_solver. }
  inversion 1 as [? ? ? ? ? ? ? ? ? Hok ? ? ? E|? ? ? ? ? ? ? ? Hok ? ? ? E|? ? ? a n ? HP E|? ? a n m Hin Hm]; subst.
  - split; [|by eapply slob_alloc_rcu]. by eapply Hsub, slob_alloc_keeps.
  - split; [|by eapply slob_alloc_rcu]. by eapply Hsub, slob_alloc_keeps.
  - split; [|by eapply slob_free_rcu]. eapply (Hsub _ _ live'), slob_free_keeps; [|exact E].
    destruct Hstr as [Hc Hs]. rewrite HP in Hc. by split.
  - split; [|done]. apply elem_of_Permutation in Hin as [l HP]. destruct Hstr as [Hc _].
    rewrite HP in Hc. eapply (Hsub _ _ l), write_keeps; [exact Hc|exact Hm].
Qed.

(** ** The calls on a cache *)

Lemma inv_set_memory st ps live a n m :
  slob_inv st ps live -> (a, n) ∈ live -> (forall x, x < a \/ a + n <= x -> m x = memory st x) ->
  slob_inv (set_memory st m) ps live.
Proof. intros [Hs Hh Hp Hu] Hin Hm. split; [by eapply str_write_live|done..]. Qed.

Lemma inv_set_rcu st ps live q : slob_inv st ps live -> slob_inv (set_rcu st q) ps live.
Proof. intros [[[] Hs] Hh Hp Hu]. split; [split; [by split|done]|done..]. Qed.

Lemma object_pos st ps live a n : slob_core st ps ((a, n) :: live) -> 0 < a.
Proof.
  intros Hc. destruct (free_facts st ps live a n Hc) as (_ & Hp & _).
  destruct (virt_to_page_spec a). lia.
Qed.

Lemma alloc_node_ok st ps live alt c flags node :
  slob_inv st ps live -> sp_alt_ok st alt -> cache_ok c ->
  exists st' b, slob_alloc_node st alt c flags node = Ok (st', b) /\
    rcu_queue st' = rcu_queue st /\ keeps live (memory st) (memory st') /\
    exists ps', slob_inv st' ps' (if b =? NULL then live else (b, c_size c) :: live) /\
      (b <> NULL -> c_align c <> 0 -> (c_align c | b)).
Proof.
  intros Hinv Halt Hc. pose proof (co_size c Hc) as Hsz. destruct (co_align c Hc) as [Hal Hle].
  unfold slob_alloc_node. destruct (Z.ltb_spec (c_size c) PAGE_SIZE); [|lia].
  set (g := Z.land flags gfp_allowed_mask).
  destruct (slob_alloc_inv st ps live alt (c_size c) g (c_align c) node) as (st1 & r & E & Hr);
    [done|done|lia|done..|].
  pose proof (slob_alloc_rcu _ _ _ _ _ _ _ _ E) as Hq.
  assert (keeps live (memory st) (memory st1)) as Hk.
  { eapply slob_alloc_keeps; [apply Hinv| | | | |exact E]; (done || lia). }
  rewrite E. cbn [res_bind]. destruct r as [b|].
  2:{ exists st1, NULL. rewrite Z.eqb_refl. split; [done|]. split; [done|]. split; [done|].
      exists ps. split; [exact Hr|done]. }
  destruct Hr as [Hdiv [ps' Hinv']].
  pose proof (object_pos st1 ps' live b _ (si_str _ _ _ Hinv')) as Hb.
  assert ((b =? NULL) = false) as En by (apply Z.eqb_neq; unfold NULL; lia).
  destruct (c_ctor c) as [f|] eqn:Ef.
  - eexists _, b. split; [done|]. rewrite En. split; [done|].
    pose proof (co_ctor c Hc f (memory st1) b Ef) as Hf.
    split; [|exists ps'; split; [|done]].
    + eapply keeps_trans; [exact Hk|]. by eapply write_keeps; [apply Hinv'|].
    + eapply (inv_set_memory _ _ _ b (c_size c)); [done|set_solver|done].
  - exists st1, b. rewrite En. split; [done|]. split; [done|]. split; [done|]. by exists ps'.
Qed.

Lemma free_block_ok st ps live b n :
  slob_inv st ps ((b, n) :: live) -> 1 <= n < PAGE_SIZE ->
  exists st' ps', kmem_cache_free_block st b n = Ok st' /\ slob_inv st' ps' live /\
    rcu_queue st' = rcu_queue st /\ keeps live (memory st) (memory st').
Proof.
  intros Hinv Hn. pose proof PAGE_SIZE_bound. unfold kmem_cache_free_block.
  rewrite ulong_small by lia. destruct (Z.ltb_spec n PAGE_SIZE); [|lia].
  destruct (slob_free_inv st ps live b n Hinv) as (st' & ps' & E & Hinv').
  exists st', ps'. split; [done|]. split; [done|]. split; [by eapply slob_free_rcu|].
  eapply slob_free_keeps; [apply Hinv|exact E].
Qed.

(** [kmem_cache_free] of an object of a cache: freed at once, or queued with its
    size in the footer and its bytes below the footer as they were. *)
Lemma cache_free_ok st ps live c b :
  slob_inv st ps ((b, c_size c) :: live) -> cache_ok c ->
  exists st' ps', kmem_cache_free st c b = Ok st' /\ keeps live (memory st) (memory st') /\
    if is_rcu c then
      let x := (b, c_size c) in
      slob_inv st' ps' (x :: live) /\ rcu_queue st' = rcu_queue st ++ [footer x] /\
      deferred_ok (memory st') x /\
      forall a, b <= a < footer x -> memory st' a = memory st a
    else slob_inv st' ps' live /\ rcu_queue st' = rcu_queue st.
Proof.
  intros Hinv Hc. pose proof (co_size c Hc) as Hsz. pose proof PAGE_SIZE_bound.
  unfold kmem_cache_free, is_rcu. pose proof (co_rcu c Hc) as Hr. unfold is_rcu in Hr.
  destruct (_ =? 0); cbn [negb].
  { rewrite int_small by lia.
    destruct (free_block_ok st ps live b (c_size c) Hinv) as (st' & ps' & E & H1 & H2 & H3); [lia|].
    exists st', ps'. done. }
  specialize (Hr eq_refl). pose proof footer_room. pose proof rcu_head_nonneg.
  set (m := store 4 (memory st) (b + (c_size c - sizeof_slob_rcu) + sizeof_rcu_head) (c_size c)).
  assert (forall x, x < b \/ b + c_size c <= x -> m x = memory st x) as Hm.
  { intros x Hx. apply store_out. lia. }
  eexists _, ps. split; [done|]. split; [by eapply write_keeps; [apply Hinv|]|].
  split; [apply inv_set_rcu; eapply (inv_set_memory _ _ _ b (c_size c)); [done|set_solver|done]|].
  split; [done|]. split.
  - split; [|cbn [snd]; lia].
    change (load 4 m (b + (c_size c - sizeof_slob_rcu) + sizeof_rcu_head) = c_size c).
    unfold m. rewrite load_store_eq.
    apply Z.mod_small. change (256 ^ Z.of_nat 4) with (2 ^ 32). lia.
  - intros a Ha. apply store_out. unfold footer in Ha. cbn [fst snd] in Ha. lia.
Qed.

(** The end of a grace period frees its deferred object, no other. *)
Lemma rcu_run_ok st ps live x df i :
  slob_inv st ps (x :: live) -> rcu_queue st = map footer df -> df !! i = Some x ->
  deferred_ok (memory st) x ->
  exists st' ps', rcu_run st i = Ok st' /\ slob_inv st' ps' live /\
    rcu_queue st' = map footer (delete i df) /\ keeps live (memory st) (memory st').
Proof.
  intros Hinv Hq Hi [Hl Hs]. pose proof PAGE_SIZE_bound. pose proof footer_room. pose proof rcu_head_nonneg as H0'.
  unfold rcu_run. rewrite Hq, list_lookup_fmap, Hi. cbn [fmap option_fmap option_map].
  rewrite <- list_fmap_delete. unfold kmem_rcu_free. cbn [memory set_rcu].
  rewrite Hl, int_small by lia.
  replace (footer x - (x.2 - sizeof_slob_rcu)) with x.1 by (unfold footer; lia).
  destruct (free_block_ok (set_rcu st (map footer (delete i df))) ps live x.1 x.2)
    as (st' & ps' & E & R1 & R2 & R3); [apply inv_set_rcu; by destruct x|lia|].
  exists st', ps'. done.
Qed.

(** ** Every reachable state *)

Lemma map_app_footer df x : map footer (df ++ [x]) = map footer df ++ [footer x].
Proof. by rewrite map_app. Qed.

(** The object whose callback runs, beside all the others. *)
Lemma deferred_apart st ps live df i x :
  slob_inv st ps (live ++ df) -> df !! i = Some x -> slob_inv st ps (x :: live ++ delete i df).
Proof.
  intros Hinv Hi. eapply slob_inv_perm; [|exact Hinv].
  etrans; [apply Permutation_middle|].
  symmetry. apply Permutation_app_head, (delete_Permutation df i x Hi).
Qed.

(** Linking the queue of callbacks through the footers. *)
Lemma rcu_link_inv st live df x m ps :
  cache_inv (Cs st live df) ps -> x ∈ df -> link_only x (memory st) m ->
  cache_inv (Cs (set_memory st m) live df) ps.
Proof.
  intros [Hinv Hq Hd] Hin Hl. cbn [cs held_objs deferred] in *.
  pose proof (Hd x Hin) as [Hl1 Hs1]. pose proof footer_room. pose proof rcu_head_nonneg.
  apply elem_of_Permutation in Hin as [df' HP].
  assert (slob_inv st ps (x :: live ++ df')) as Hinv1.
  { eapply slob_inv_perm; [|exact Hinv]. rewrite HP. solve_Permutation. }
  assert (forall a, a < x.1 \/ x.1 + x.2 <= a -> m a = memory st a) as Hm.
  { intros a Ha. apply Hl. unfold footer. lia. }
  destruct x as [a n]. cbn [fst snd] in *. split; cbn [cs held_objs deferred].
  - eapply (inv_set_memory _ _ _ a n); [done|rewrite HP; set_solver|done].
  - done.
  - intros y. rewrite HP. intros [->|Hy]%elem_of_cons.
    + split; [|done]. etrans; [|exact Hl1]. apply load_agree. intros z Hz. apply Hl. right. lia.
    + eapply (deferred_keeps (live ++ df')); [|set_solver|apply Hd; rewrite HP; set_solver].
      by eapply write_keeps; [apply Hinv1|].
Qed.

Lemma cache_step_inv s s' :
  (exists ps, cache_inv s ps) -> cache_step s s' -> exists ps, cache_inv s' ps.
Proof.
  intros [ps [Hinv Hq Hd]] Hstep.
  destruct Hstep as [st live live' df st' Hs|st live df alt c flags node st' b Halt Hc E
                    |st live live' df c b st' Hc HP E|st live df x m Hin Hl|st live df i x st' Hi E];
    cbn [cs held_objs deferred] in *.
  - pose proof (client_step_frame _ _ _ _ df Hs) as Hs'.
    destruct (client_step_inv (st, live ++ df) (st', live' ++ df)) as [ps' Hinv']; [by exists ps|done|].
    destruct (client_step_keeps _ _ _ _ df ps (si_str _ _ _ Hinv) Hs) as [Hk Hq'].
    exists ps'. split; cbn; [done|congruence|]. intros x Hx. by eapply deferred_keeps; [..|apply Hd].
  - destruct (alloc_node_ok st ps _ alt c flags node Hinv Halt Hc) as (s & r & E' & Hq' & Hk & ps' & Hinv' & _).
    rewrite E in E'. injection E' as <- <-. exists ps'. split; cbn.
    + by destruct (b =? NULL).
    + congruence.
    + intros x Hx. eapply (deferred_keeps (live ++ df)); [done|set_solver|by apply Hd].
  - assert (slob_inv st ps ((b, c_size c) :: live' ++ df)) as Hinv1 by (by rewrite HP in Hinv).
    destruct (cache_free_ok st ps _ c b Hinv1 Hc) as (s & ps' & E' & Hk & Hpost).
    rewrite E in E'. injection E' as <-.
    assert (forall x, x ∈ df -> deferred_ok (memory st') x) as Hd'.
    { intros x Hx. eapply (deferred_keeps (live' ++ df)); [done|set_solver|by apply Hd]. }
    exists ps'. destruct (is_rcu c).
    + destruct Hpost as (H1 & H2 & H3 & _). split; cbn.
      * eapply slob_inv_perm; [|exact H1]. solve_Permutation.
      * rewrite map_app_footer. congruence.
      * intros x [Hx| ->%list_elem_of_singleton]%elem_of_app; [by apply Hd'|done].
    + destruct Hpost as [H1 H2]. split; cbn; [done|congruence|done].
  - exists ps. by apply rcu_link_inv with x.
  - pose proof (deferred_apart st ps live df i x Hinv Hi) as Hinv1.
    pose proof (list_elem_of_lookup_2 _ _ _ Hi) as Hx.
    destruct (rcu_run_ok st ps _ x df i Hinv1 Hq Hi (Hd x Hx)) as (s & ps' & E' & H1 & H2 & Hk).
    rewrite E in E'. injection E' as <-. exists ps'. split; cbn; [done|done|].
    intros y Hy. eapply (deferred_keeps (live ++ delete i df)); [done|set_solver|].
    by eapply Hd, list_elem_of_delete_inv.
Qed.

Lemma cache_reachable_inv s : cache_reachable s -> exists ps, cache_inv s ps.
Proof.
  intros (st0 & Hb & Hq & Hr).
  apply (rtc_invariant cache_step (fun s => exists ps, cache_inv s ps) cache_step_inv _ _ Hr).
  exists ∅. split; cbn; [by apply boot_inv|done|set_solver].
Qed.

(** The link of one footer does not touch what is below another. *)
Lemma rcu_link_keeps st live df x y m ps :
  cache_inv (Cs st live df) ps -> x ∈ df -> y ∈ df -> link_only y (memory st) m ->
  forall a, x.1 <= a < footer x -> m a = memory st a.
Proof.
  intros [Hinv _ Hd] Hx Hy Hl a Ha. cbn [cs held_objs deferred] in *. apply Hl.
  pose proof (Hd x Hx) as [_ ?]. pose proof (Hd y Hy) as [_ ?].
  pose proof footer_room. pose proof rcu_head_nonneg. unfold footer in *.
  destruct (decide (x = y)) as [->|Hne]; [lia|]. apply elem_of_Permutation in Hy as [df' HP].
  assert (slob_inv st ps (y :: live ++ df')) as [[Hc _] _ _ _].
  { eapply slob_inv_perm; [|exact Hinv]. rewrite HP. solve_Permutation. }
  destruct (core_disjoint st ps y x (live ++ df') Hc) as [?|?]; [rewrite HP in Hx; set_solver|lia..].
Qed.

(** ** The theorems *)

(** C5: kmem_cache is safe for its clients, for caches whose objects (the RCU
    footer included) are smaller than a page and whose constructor writes only
    to the object, and provided the [sp_alt] that [slob_alloc] does not
    initialise is, at the start of every search, [NULL] or a page on a list.
    Whatever calls on caches, ends of grace periods, in any order, and other
    uses of the allocator are interleaved, the objects
    held by clients and the objects waiting for their grace period together
    satisfy the allocator's invariant (so none of their memory is reused); the
    queue of RCU callbacks is exactly the footers of the waiting objects and
    each footer still holds the object's size; an allocation returns NULL or an
    aligned object that overlaps no other; freeing an object and ending the
    grace period of any of the waiting objects return. *)
Theorem kmem_cache_safe s :
  cache_reachable s ->
  (exists ps, cache_inv s ps) /\
  (forall alt c flags node, sp_alt_ok (cs s) alt -> cache_ok c -> exists st' b,
     slob_alloc_node (cs s) alt c flags node = Ok (st', b) /\
     (b <> NULL -> (c_align c <> 0 -> (c_align c | b)) /\
        forall x, x ∈ held_objs s ++ deferred s -> b + c_size c <= x.1 \/ x.1 + x.2 <= b)) /\
  (forall c b live', cache_ok c -> held_objs s ≡ₚ (b, c_size c) :: live' ->
     is_ok (kmem_cache_free (cs s) c b) = true) /\
  (forall i x, deferred s !! i = Some x -> is_ok (rcu_run (cs s) i) = true).
Proof.
  intros [ps Hci]%cache_reachable_inv. pose proof Hci as [Hinv Hq Hd].
  split; [by exists ps|]. split; [|split].
  - intros alt c flags node Halt Hc.
    destruct (alloc_node_ok _ ps _ alt c flags node Hinv Halt Hc) as (st' & b & E & _ & _ & ps' & Hinv' & Hal).
    exists st', b. split; [done|]. intros Hb. split; [by apply Hal|]. intros x Hx.
    apply Z.eqb_neq in Hb. rewrite Hb in Hinv'.
    apply (core_disjoint st' ps' (b, c_size c) x _ (si_str _ _ _ Hinv') Hx).
  - intros c b live' Hc HP. rewrite HP in Hinv.
    destruct (cache_free_ok _ ps _ c b Hinv Hc) as (st' & _ & -> & _). done.
  - intros i x Hi. pose proof (list_elem_of_lookup_2 _ _ _ Hi) as Hx.
    by destruct (rcu_run_ok (cs s) ps _ x _ i (deferred_apart _ _ _ _ _ _ Hinv Hi) Hq Hi (Hd x Hx))
      as (st' & _ & -> & _).
Qed.

(** C18: the guarantee of [SLAB_DESTROY_BY_RCU], for caches whose objects are
    smaller than a page and provided the uninitialised [sp_alt] of every search
    is [NULL] or a page on a list; RCU callbacks may run in any order.  An object that was freed into
    such a cache keeps its contents below the footer, through the call of
    kmem_cache_free that queues it and through every later step of anybody,
    until the step that runs its callback, and that step frees exactly this
    object. *)
Theorem kmem_cache_rcu_grace s s' x :
  cache_reachable s -> cache_step s s' ->
  (x ∈ deferred s' -> x ∈ held_objs s ++ deferred s /\
     forall a, x.1 <= a < footer x -> memory (cs s') a = memory (cs s) a) /\
  (x ∈ deferred s -> x ∉ deferred s' ->
     exists i, deferred s !! i = Some x /\ deferred s' = delete i (deferred s) /\
       rcu_run (cs s) i = Ok (cs s')).
Proof.
  intros [ps Hci]%cache_reachable_inv Hstep. pose proof Hci as [Hinv Hq Hd].
  assert (forall m, keeps (deferred s) (memory (cs s)) m -> x ∈ deferred s ->
    forall a, x.1 <= a < footer x -> m a = memory (cs s) a) as Hkeep.
  { intros m Hk Hx a Ha. apply (Hk x a Hx). unfold footer in Ha. pose proof footer_room.
    pose proof rcu_head_nonneg. lia. }
  destruct Hstep as [st live live' df st' Hs|st live df alt c flags node st' b Halt Hc E
                    |st live live' df c b st' Hc HP E|st live df y m Hin Hl|st live df i y st' Hi E];
    cbn [cs held_objs deferred] in *.
  - split; [|done]. intros Hx. split; [set_solver|]. apply Hkeep; [|done].
    by eapply client_step_keeps; [apply Hinv|].
  - split; [|done]. intros Hx. split; [set_solver|]. apply Hkeep; [|done].
    destruct (alloc_node_ok st ps _ alt c flags node Hinv Halt Hc) as (s & r & E' & _ & Hk & _).
    rewrite E in E'. injection E' as <- <-. intros z a Hz. apply Hk. set_solver.
  - assert (slob_inv st ps ((b, c_size c) :: live' ++ df)) as Hinv1 by (by rewrite HP in Hinv).
    destruct (cache_free_ok st ps _ c b Hinv1 Hc) as (s & ps' & E' & Hk & Hpost).
    rewrite E in E'. injection E' as <-.
    assert (keeps df (memory st) (memory st')) as Hk' by (intros z a Hz; apply Hk; set_solver).
    destruct (is_rcu c); [|split; [|done]; intros Hx; split; [set_solver|by apply Hkeep]].
    destruct Hpost as (_ & _ & _ & Hb). split; [|intros Hx []; set_solver].
    intros [Hx| ->%list_elem_of_singleton]%elem_of_app.
    + split; [set_solver|by apply Hkeep].
    + split; [rewrite HP; set_solver|done].
  - split; [|done]. intros Hx. split; [set_solver|].
    by apply (rcu_link_keeps st live df x y m ps).
  - pose proof (deferred_apart st ps live df i y Hinv Hi) as Hinv1.
    pose proof (list_elem_of_lookup_2 _ _ _ Hi) as Hy.
    destruct (rcu_run_ok st ps _ y df i Hinv1 Hq Hi (Hd y Hy)) as (s & ps' & E' & _ & _ & Hk).
    rewrite E in E'. injection E' as <-. split.
    + intros Hx. split; [apply elem_of_app; right; by eapply list_elem_of_delete_inv|].
      intros a Ha. apply (Hk x a); [set_solver|].
      unfold footer in Ha. pose proof footer_room. pose proof rcu_head_nonneg. lia.
    + intros Hx Hnx. apply (elem_of_Permutation_proper x _ _ (delete_Permutation df i y Hi)) in Hx.
      apply elem_of_cons in Hx as [->|Hx]; [|done]. by exists i.
Qed.

(** The size that [kmem_cache_create] leaves in a cache has room for the footer. *)
Lemma kmem_cache_create_ok c flags :
  1 <= c_size c -> c_size (kmem_cache_create c flags) < PAGE_SIZE ->
  valid_align (c_align c) -> c_align c <= PAGE_SIZE ->
  (forall f m b, c_ctor c = Some f ->
     forall x, x < b \/ b + c_size c <= x -> f m b x = m x) ->
  cache_ok (kmem_cache_create c flags).
Proof.
  intros Hs Hp Hal Hle Hf. pose proof footer_room. pose proof rcu_head_nonneg.
  unfold kmem_cache_create in *. cbn [c_size] in Hp. split; cbn [c_size c_align c_ctor].
  - destruct (_ =? 0); lia.
  - unfold is_rcu. cbn [c_flags]. destruct (_ =? 0); [done|]. lia.
  - done.
  - intros f m b E x Hx. apply (Hf f m b E). destruct (_ =? 0); lia.
Qed.

(** Objects of a page or more bypass [slob_alloc]: free pages of one order are
    taken, and pages of the same order are given back. *)
Lemma kmem_cache_big st alt c flags node st' b :
  PAGE_SIZE <= c_size c < 2 ^ 31 -> c_ctor c = None -> is_rcu c = false ->
  slob_alloc_node st alt c flags node = Ok (st', b) ->
  (exists r, slob_new_pages st (Z.land flags gfp_allowed_mask) (get_order (c_size c)) node = (r, st') /\
     b = match r with Some p => p | None => NULL end) /\
  kmem_cache_free st' c b = Ok (slob_free_pages st' b (get_order (c_size c))).
Proof.
  intros Hs Hf Hr. unfold slob_alloc_node. rewrite Hf.
  destruct (Z.ltb_spec (c_size c) PAGE_SIZE); [lia|].
  destruct (slob_new_pages _ _ _ _) as [r st1] eqn:E. cbn [res_bind]. intros H1. split.
  - exists r. by destruct r; injection H1 as <- <-.
  - unfold kmem_cache_free. unfold is_rcu in Hr. apply negb_false_iff in Hr. rewrite Hr.
    pose proof PAGE_SIZE_bound. pose proof BITS_PER_LONG_range.
    unfold kmem_cache_free_block, int, ulong. rewrite wrap_s_small by (unfold in_s; lia).
    rewrite wrap_u_small.
    + by destruct (Z.ltb_spec (c_size c) PAGE_SIZE); [lia|].
    + split; [lia|]. apply Z.lt_le_trans with (2 ^ 32); [lia|]. apply Z.pow_le_mono_r; lia.
Qed.

End Theory.

(** ** A concrete run on i386 *)

Module Runs.
Import I386.

(** A cache of objects of 40 bytes with [SLAB_DESTROY_BY_RCU]. *)
Definition cache : kmem_cache :=
  kmem_cache_create {| c_size := 40; c_align := 8; c_flags := 0; c_ctor := None |}
    SLAB_DESTROY_BY_RCU.

Lemma cache_is_ok : cache_ok cache.
Proof.
  apply kmem_cache_create_ok; cbn [c_size c_align c_ctor]; try done.
  - apply align8_valid.
Qed.

Definition get {A : Type} (d : A) (r : res A) : A := match r with Ok a => a | _ => d end.

(** One object is allocated, a word is written into it, and it is freed. *)
Definition st1 : slob := (get (boot0, 0) (slob_alloc_node boot0 None cache 0 NUMA_NO_NODE)).1.
Definition st2 : slob := set_memory st1 (store 4 (memory st1) 4096 0x12345678).
Definition st3 : slob := get st2 (kmem_cache_free st2 cache 4096).
Definition st4 : slob := get st3 (rcu_run st3 0).

Lemma st1_alloc : slob_alloc_node boot0 None cache 0 NUMA_NO_NODE = Ok (st1, 4096).
Proof.
  unfold st1. destruct (slob_alloc_node boot0 None cache 0 NUMA_NO_NODE) as [[s b]| | |] eqn:E;
    pose proof (f_equal (fun r => match r with Ok (_, b) => Some b | _ => None end) E) as E';
    vm_compute in E'; try discriminate E'. by injection E' as <-.
Qed.

Lemma st3_free : kmem_cache_free st2 cache 4096 = Ok st3.
Proof. reflexivity. Qed.

Lemma st4_run : rcu_run st3 0 = Ok st4.
Proof.
  unfold st4. destruct (rcu_run st3 0) as [s| | |] eqn:E; [done|..];
    pose proof (f_equal is_ok E) as E'; vm_compute in E'; discriminate E'.
Qed.

Lemma s1_reachable : cache_reachable (Cs st1 [(4096, 52)] []).
Proof.
  exists boot0. split; [|split; [done|]]. { repeat split. by intros []. }
  apply rtc_once. apply (cache_alloc boot0 [] [] None cache 0 NUMA_NO_NODE st1 4096 I cache_is_ok st1_alloc).
Qed.

Lemma s2_reachable : cache_reachable (Cs st2 [(4096, 52)] []).
Proof.
  destruct s1_reachable as (st0 & H1 & H2 & H3). exists st0. split; [done|]. split; [done|].
  eapply rtc_r; [exact H3|]. apply other_client. eapply (client_write _ _ 4096 52); [set_solver|].
  intros x Hx. apply store_out. lia.
Qed.

Lemma s3_step : cache_step (Cs st2 [(4096, 52)] []) (Cs st3 [] [(4096, 52)]).
Proof.
  apply (cache_free st2 [(4096, 52)] [] [] cache 4096 st3 cache_is_ok); [done|apply st3_free].
Qed.

Lemma s3_reachable : cache_reachable (Cs st3 [] [(4096, 52)]).
Proof.
  destruct s2_reachable as (st0 & H1 & H2 & H3). exists st0. split; [done|]. split; [done|].
  eapply rtc_r; [exact H3|apply s3_step].
Qed.

(** While the object waits, its word is still there and its page is held; when
    the grace period ends the page goes back. *)
Lemma run_view :
  load 4 (memory st3) 4096 = 0x12345678 /\ rcu_queue st3 = [4136] /\
  used_m st3 = 52 /\ used_m st4 = 0 /\ pcount st4 = 0 /\ rcu_queue st4 = [].
Proof. vm_compute. done. Qed.

(** Conversion compares these states by name. *)
#[local] Strategy opaque [st1 st2 st3 st4].

Lemma kmem_cache_safe_witness :
  is_ok (rcu_run st3 0) = true /\ is_ok (kmem_cache_free st2 cache 4096) = true.
Proof.
  split.
  - destruct (kmem_cache_safe (Cs st3 [] [(4096, 52)]) s3_reachable) as (_ & _ & _ & H).
    exact (H 0%nat (4096, 52) eq_refl).
  - destruct (kmem_cache_safe (Cs st2 [(4096, 52)] []) s2_reachable) as (_ & _ & H & _).
    apply (H cache 4096 [] cache_is_ok). done.
Defined.

Lemma kmem_cache_rcu_grace_witness :
  (forall a, 4096 <= a < 4136 -> memory st3 a = memory st2 a) /\ rcu_run st3 0 = Ok st4.
Proof.
  split.
  - destruct (kmem_cache_rcu_grace (Cs st2 [(4096, 52)] []) (Cs st3 [] [(4096, 52)]) (4096, 52))
      as [H _]; [apply s2_reachable|apply s3_step|].
    destruct H as [_ H]; [apply list_elem_of_here|]. exact H.
  - destruct (kmem_cache_rcu_grace (Cs st3 [] [(4096, 52)]) (Cs st4 [] []) (4096, 52))
      as [_ H]; [apply s3_reachable|exact (grace_period st3 [] [(4096, 52)] 0 (4096, 52) st4 eq_refl st4_run)|].
    cbn [cs deferred] in H. destruct (H (list_elem_of_here _ _) (not_elem_of_nil _)) as (i & Hi & _ & E).
    destruct i as [|i]; [exact E|discriminate Hi].
Defined.

End Runs.
