(* ===== verification/Mt19937.v ===== *)
(** * mt19937ar.c: the Mersenne Twister

    The generator of [concurrency/concurrency1/mt19937ar.c], which
    [produce_consume.c] includes: seeding by a number and by an array, and the
    generation of 32-bit words, on the static array [mt] and the index [mti].
    [W] is the width of [unsigned long] (the comments of the source speak of
    machines of 32 and of more bits).

    [sliding] is the reference: the recurrence of the Mersenne Twister, one
    word at a time, on a window of the last [624] words.  The theorems show
    that the batch-wise, in-place code implements it, that the width of
    [unsigned long] makes no difference, that the tempering loses nothing and
    that a generator seeded by an array never reaches the all-zero state. *)

From S2P Require Import Prelude.

(** ** The program *)

Definition mtN : nat := 624.
Definition mtM : nat := 397.
Definition MATRIX_A : Z := 0x9908b0df.
Definition UPPER_MASK : Z := 0x80000000.
Definition LOWER_MASK : Z := 0x7fffffff.
Definition MASK32 : Z := 0xffffffff.

(** The two static variables. *)
Record generator : Type := { mt : list Z; mti : Z }.

Definition static_generator : generator :=
  {| mt := replicate mtN 0; mti := Z.of_nat mtN + 1 |}.

Section Defs.
Context (W : Z).

(** A value of type [unsigned long]. *)
Definition ul (x : Z) : Z := wrap_u W x.

Definition init_word (prev i : Z) : Z :=
  Z.land (ul (1812433253 * Z.lxor prev (Z.shiftr prev 30) + i)) MASK32.

(** The body of the loop of [init_genrand]. *)
Definition init_genrand_step (a : list Z) (i : nat) : list Z :=
  <[i := init_word (a !!! (i - 1)%nat) (Z.of_nat i)]> a.

Definition init_genrand (g : generator) (s : Z) : generator :=
  {| mt := fold_left init_genrand_step (seq 1 (mtN - 1)) (<[0%nat := Z.land s MASK32]> (mt g));
     mti := Z.of_nat mtN |}.

(** [i++; if (i>=N) { mt[0] = mt[N-1]; i=1; }] *)
Definition next_index (a : list Z) (i : nat) : list Z * nat :=
  if (mtN <=? i + 1)%nat then (<[0%nat := a !!! (mtN - 1)%nat]> a, 1%nat) else (a, (i + 1)%nat).

Definition mix (a : list Z) (i : nat) (mult : Z) : Z :=
  Z.lxor (a !!! i) (ul (Z.lxor (a !!! (i - 1)%nat) (Z.shiftr (a !!! (i - 1)%nat) 30) * mult)).

(** The two loops of [init_by_array], [k] iterations each.  A read of
    [init_key] outside the array is a fault. *)
Fixpoint init_by_array_1 (k : nat) (init_key : list Z) (key_length : Z)
    (a : list Z) (i j : nat) : res (list Z * nat) :=
  match k with
  | O => Ok (a, i)
  | S k =>
    match init_key !! j with
    | None => Fault
    | Some key =>
      let a := <[i := Z.land (ul (mix a i 1664525 + key + Z.of_nat j)) MASK32]> a in
      let '(a, i) := next_index a i in
      let j := if key_length <=? Z.of_nat (j + 1) then 0%nat else (j + 1)%nat in
      init_by_array_1 k init_key key_length a i j
    end
  end.

Fixpoint init_by_array_2 (k : nat) (a : list Z) (i : nat) : list Z * nat :=
  match k with
  | O => (a, i)
  | S k =>
    let a := <[i := Z.land (ul (mix a i 1566083941 - Z.of_nat i)) MASK32]> a in
    let '(a, i) := next_index a i in
    init_by_array_2 k a i
  end.

Definition init_by_array (g : generator) (init_key : list Z) (key_length : Z) : res generator :=
  let g := init_genrand g 19650218 in
  let k := if key_length <? Z.of_nat mtN then mtN else Z.to_nat key_length in
  let! (a, i) := init_by_array_1 k init_key key_length (mt g) 1 0 in
  let '(a, i) := init_by_array_2 (mtN - 1) a i in
  Ok {| mt := <[0%nat := 0x80000000]> a; mti := mti g |}.

(** [mag01[y & 0x1UL]] *)
Definition mag01 (y : Z) : Z := if Z.land y 1 =? 0 then 0 else MATRIX_A.

Definition twist (u v m : Z) : Z :=
  let y := Z.lor (Z.land u UPPER_MASK) (Z.land v LOWER_MASK) in
  Z.lxor (Z.lxor m (Z.shiftr y 1)) (mag01 y).

(** [mt[kk] = mt[km] ^ (y >> 1) ^ mag01[y & 0x1UL]], with [y] from [mt[kk]] and
    [mt[k1]]. *)
Definition twist_at (a : list Z) (kk k1 km : nat) : list Z :=
  <[kk := twist (a !!! kk) (a !!! k1) (a !!! km)]> a.

(** Generate N words at one time. *)
Definition regenerate (a : list Z) : list Z :=
  let a := fold_left (fun a kk => twist_at a kk (kk + 1) (kk + mtM)) (seq 0 (mtN - mtM)) a in
  let a := fold_left (fun a kk => twist_at a kk (kk + 1) (kk + mtM - mtN))
             (seq (mtN - mtM) (mtM - 1)) a in
  twist_at a (mtN - 1) 0 (mtM - 1).

Definition temper (y : Z) : Z :=
  let y := Z.lxor y (Z.shiftr y 11) in
  let y := Z.lxor y (Z.land (ul (Z.shiftl y 7)) 0x9d2c5680) in
  let y := Z.lxor y (Z.land (ul (Z.shiftl y 15)) 0xefc60000) in
  Z.lxor y (Z.shiftr y 18).

(** The [if (mti >= N)] of [genrand_int32]. *)
Definition refill (g : generator) : generator :=
  if Z.of_nat mtN <=? mti g then
    let g := if mti g =? Z.of_nat mtN + 1 then init_genrand g 5489 else g in
    {| mt := regenerate (mt g); mti := 0 |}
  else g.

Definition genrand_int32 (g : generator) : Z * generator :=
  let g := refill g in
  (temper (mt g !!! Z.to_nat (mti g)), {| mt := mt g; mti := mti g + 1 |}).

Definition genrand_int31 (g : generator) : Z * generator :=
  let '(y, g) := genrand_int32 g in (wrap_s W (Z.shiftr y 1), g).

(** The results of [n] calls. *)
Fixpoint outputs (n : nat) (g : generator) : list Z :=
  match n with
  | O => []
  | S n => let '(y, g) := genrand_int32 g in y :: outputs n g
  end.

End Defs.

(** ** Specification *)

Definition word (x : Z) : Prop := in_u 32 x.

(** The state of the static variables at any time: [mti] is [N + 1] until a
    seeding function runs. *)
Record gen_ok (g : generator) : Prop := {
  gen_length : length (mt g) = mtN;
  gen_words : Forall word (mt g);
  gen_index : 0 <= mti g <= Z.of_nat mtN + 1
}.

(** The recurrence: the window of the last [N] words moves by one word. *)
Definition sliding (w : list Z) : list Z :=
  tail w ++ [twist (w !!! 0%nat) (w !!! 1%nat) (w !!! mtM)].

Definition newest (w : list Z) : Z := w !!! (mtN - 1)%nat.

(** [n] words of the recurrence after the window [w]. *)
Fixpoint recurrence (n : nat) (w : list Z) : list Z :=
  match n with
  | O => []
  | S n => newest (sliding w) :: recurrence n (sliding w)
  end.

(** The generator [g] is about to output the word that follows the window [w]:
    [mti] words of its array have been used, the others are yet to come. *)
Definition tracks (g : generator) (w : list Z) : Prop :=
  length w = mtN /\ 0 <= mti g <= Z.of_nat mtN /\
  mt g = Nat.iter (mtN - Z.to_nat (mti g)) sliding w.

(** A window from which the recurrence is not all zeros: the [31] low bits of
    its first word do not matter. *)
Definition window_nonzero (w : list Z) : Prop :=
  Z.land (w !!! 0%nat) UPPER_MASK <> 0 \/ exists i, (1 <= i < mtN)%nat /\ w !!! i <> 0.

(** ** Words and bits *)

Lemma word_spec x : word x <-> 0 <= x /\ forall i, 32 <= i -> Z.testbit x i = false.
Proof.
  unfold word, in_u. split.
  - intros Hx. split; [lia|]. intros i Hi. apply Z.testbit_false; [lia|].
    rewrite Z.div_small; [done|]. split; [lia|].
    apply Z.lt_le_trans with (2 ^ 32); [lia|]. apply Z.pow_le_mono_r; lia.
  - intros [H0 Hb]. replace x with (x mod 2 ^ 32); [apply Z.mod_pos_bound; lia|].
    apply Z.bits_inj'. intros i Hi. destruct (Z.lt_ge_cases i 32).
    + by rewrite Z.mod_pow2_bits_low by lia.
    + rewrite Z.mod_pow2_bits_high by lia. by rewrite Hb.
Qed.

Lemma word_lxor x y : word x -> word y -> word (Z.lxor x y).
Proof.
  rewrite !word_spec. intros [? Hx] [? Hy]. split; [by apply Z.lxor_nonneg|].
  intros i Hi. by rewrite Z.lxor_spec, Hx, Hy.
Qed.

Lemma word_lor x y : word x -> word y -> word (Z.lor x y).
Proof.
  rewrite !word_spec. intros [? Hx] [? Hy]. split; [by apply Z.lor_nonneg|].
  intros i Hi. by rewrite Z.lor_spec, Hx, Hy.
Qed.

Lemma word_land x y : word y -> word (Z.land x y).
Proof.
  rewrite !word_spec. intros [? Hy]. split; [apply Z.land_nonneg; by right|].
  intros i Hi. by rewrite Z.land_spec, Hy, andb_false_r.
Qed.

Lemma word_shiftr x k : 0 <= k -> word x -> word (Z.shiftr x k).
Proof.
  rewrite !word_spec. intros Hk [? Hx]. split; [by apply Z.shiftr_nonneg|].
  intros i Hi. rewrite Z.shiftr_spec by lia. apply Hx. lia.
Qed.

Lemma word_mag01 y : word (mag01 y).
Proof. unfold mag01. destruct (_ =? _); by split; apply Z.leb_le || apply Z.ltb_lt. Qed.

Lemma word_mod x : word (x mod 2 ^ 32).
Proof. apply Z.mod_pos_bound. lia. Qed.

#[export] Hint Resolve word_lxor word_lor word_land word_shiftr word_mag01 word_mod : cs444.

Lemma word_const x : (0 <=? x) && (x <? 2 ^ 32) = true -> word x.
Proof. intros ?. bool_hyps. done. Qed.

Lemma word_masks :
  word MASK32 /\ word UPPER_MASK /\ word LOWER_MASK /\ word MATRIX_A /\
  word 0x9d2c5680 /\ word 0xefc60000.
Proof. repeat split; (by apply Z.ltb_lt) || (by apply Z.leb_le). Qed.

(** The width of [unsigned long] disappears under a 32-bit mask. *)
Lemma land_ul W x m : 32 <= W -> word m -> Z.land (ul W x) m = Z.land x m.
Proof.
  rewrite word_spec. intros HW [_ Hm]. apply Z.bits_inj'. intros i Hi. rewrite !Z.land_spec.
  destruct (Z.lt_ge_cases i 32); [|by rewrite Hm, !andb_false_r].
  unfold ul, wrap_u. by rewrite Z.mod_pow2_bits_low by lia.
Qed.

Lemma land_mask32 x : Z.land x MASK32 = x mod 2 ^ 32.
Proof. apply (Z.land_ones x 32). lia. Qed.

Lemma land_ul32 W x : 32 <= W -> Z.land (ul W x) MASK32 = x mod 2 ^ 32.
Proof. intros HW. rewrite land_ul by (done || apply word_masks). apply land_mask32. Qed.

Lemma mod32_ul W x : 32 <= W -> ul W x mod 2 ^ 32 = x mod 2 ^ 32.
Proof. intros HW. rewrite <- land_mask32. by apply land_ul32. Qed.

Lemma mod32_lxor x y : Z.lxor x y mod 2 ^ 32 = Z.lxor (x mod 2 ^ 32) (y mod 2 ^ 32).
Proof.
  apply Z.bits_inj'. intros i Hi. rewrite Z.lxor_spec. destruct (Z.lt_ge_cases i 32).
  - by rewrite !Z.mod_pow2_bits_low, Z.lxor_spec by lia.
  - by rewrite !Z.mod_pow2_bits_high by lia.
Qed.

(** ** The width of unsigned long makes no difference *)

Lemma init_word_width W prev i : 32 <= W -> init_word W prev i = init_word 32 prev i.
Proof. intros HW. unfold init_word. by rewrite !land_ul32 by lia. Qed.

Lemma mix_width W a i c k : 32 <= W ->
  Z.land (ul W (mix W a i c + k)) MASK32 = Z.land (ul 32 (mix 32 a i c + k)) MASK32.
Proof.
  intros HW. rewrite !land_ul32 by lia. rewrite <- (Zplus_mod_idemp_l (mix W a i c)).
  rewrite <- (Zplus_mod_idemp_l (mix 32 a i c)). do 2 f_equal. unfold mix.
  by rewrite !mod32_lxor, !mod32_ul by lia.
Qed.

Lemma temper_width W y : 32 <= W -> temper W y = temper 32 y.
Proof. intros HW. unfold temper. by rewrite !land_ul by (lia || apply word_masks). Qed.

Lemma init_loop_width W l a : 32 <= W ->
  fold_left (init_genrand_step W) l a = fold_left (init_genrand_step 32) l a.
Proof.
  intros HW. revert a. induction l as [|i l IH]; intros a; [done|].
  cbn [fold_left]. rewrite IH. unfold init_genrand_step at 2 4. by rewrite init_word_width.
Qed.

Lemma init_genrand_width W g s : 32 <= W -> init_genrand W g s = init_genrand 32 g s.
Proof. intros HW. unfold init_genrand. by rewrite init_loop_width. Qed.

Lemma init_by_array_1_width W k key len a i j :
  32 <= W -> init_by_array_1 W k key len a i j = init_by_array_1 32 k key len a i j.
Proof.
  intros HW. revert a i j. induction k as [|k IH]; intros a i j; [done|].
  cbn [init_by_array_1]. destruct (key !! j) as [x|]; [|done].
  rewrite <- !Z.add_assoc, mix_width by done. destruct (next_index _ _). apply IH.
Qed.

Lemma init_by_array_2_width W k a i :
  32 <= W -> init_by_array_2 W k a i = init_by_array_2 32 k a i.
Proof.
  intros HW. revert a i. induction k as [|k IH]; intros a i; [done|].
  cbn [init_by_array_2]. rewrite <- !Z.add_opp_r, mix_width by done.
  destruct (next_index _ _). apply IH.
Qed.

Lemma genrand_int32_width W g : 32 <= W -> genrand_int32 W g = genrand_int32 32 g.
Proof.
  intros HW. unfold genrand_int32, refill. by rewrite temper_width, init_genrand_width.
Qed.

(** On every machine whose [unsigned long] has at least 32 bits the
    seeding functions leave the same state and the generator returns the same
    numbers: the masks in the source do what their comments say. *)
Theorem mt_width_independent W g :
  32 <= W ->
  (forall s, init_genrand W g s = init_genrand 32 g s) /\
  (forall key len, init_by_array W g key len = init_by_array 32 g key len) /\
  (forall n, outputs W n g = outputs 32 n g).
Proof.
  intros HW. split; [|split].
  - intros s. by apply init_genrand_width.
  - intros key len. unfold init_by_array. rewrite init_genrand_width by done.
    rewrite init_by_array_1_width by done. destruct (init_by_array_1 _ _ _ _ _ _ _) as [[a i]| | |];
      cbn [res_bind]; [|reflexivity..]. rewrite init_by_array_2_width by exact HW. reflexivity.
  - intros n. revert g. induction n as [|n IH]; intros g; [done|]. cbn [outputs].
    rewrite genrand_int32_width by done. destruct (genrand_int32 32 g). by rewrite IH.
Qed.

Lemma mt_width_independent_witness :
  outputs 64 3 static_generator = [3499211612; 581869302; 3890346734].
Proof.
  rewrite (proj2 (proj2 (mt_width_independent 64 static_generator ltac:(lia)))).
  vm_compute. reflexivity.
Defined.

(** ** The batch of N words is N steps of the recurrence *)

Lemma mt_sizes : (1 < mtM /\ mtM < mtN)%nat.
Proof. unfold mtN, mtM. lia. Qed.

#[local] Opaque mtN mtM.

Lemma fold_left_ext_in {A B : Type} (f g : A -> B -> A) l a :
  (forall a b, b ∈ l -> f a b = g a b) -> fold_left f l a = fold_left g l a.
Proof.
  revert a. induction l as [|b l IH]; intros a H; [done|]. cbn [fold_left].
  rewrite H by set_solver. apply IH. set_solver.
Qed.

(** The three loops of [genrand_int32] are one loop with indices modulo N. *)
Definition twist_step (a : list Z) (kk : nat) : list Z :=
  twist_at a kk ((kk + 1) mod mtN)%nat ((kk + mtM) mod mtN)%nat.

Lemma mod_wrap n m : (m <= n < 2 * m)%nat -> (n mod m = n - m)%nat.
Proof. intros H. symmetry. apply (Nat.mod_unique _ _ 1); lia. Qed.

Lemma regenerate_loop a : regenerate a = fold_left twist_step (seq 0 mtN) a.
Proof.
  pose proof mt_sizes. unfold regenerate.
  replace (seq 0 mtN) with (seq 0 (mtN - mtM) ++ seq (mtN - mtM) (mtM - 1) ++ [(mtN - 1)%nat]).
  - rewrite !fold_left_app. cbn [fold_left].
    rewrite (fold_left_ext_in _ twist_step (seq (mtN - mtM) _)) by
      (intros c k Hk%elem_of_seq; unfold twist_step; rewrite Nat.mod_small, mod_wrap by lia;
       reflexivity).
    rewrite (fold_left_ext_in _ twist_step (seq 0 (mtN - mtM))) by
      (intros c k Hk%elem_of_seq; unfold twist_step; rewrite !Nat.mod_small by lia; reflexivity).
    unfold twist_step at 3. rewrite !mod_wrap by lia.
    replace (mtN - 1 + 1 - mtN)%nat with 0%nat by lia.
    replace (mtN - 1 + mtM - mtN)%nat with (mtM - 1)%nat by lia. reflexivity.
  - change [(mtN - 1)%nat] with (seq (mtN - 1) 1).
    replace (mtN - 1)%nat with (mtN - mtM + (mtM - 1))%nat at 1 by lia.
    rewrite <- seq_app. change (mtN - mtM)%nat with (0 + (mtN - mtM))%nat at 2.
    rewrite <- seq_app. by replace (mtN - mtM + (mtM - 1 + 1))%nat with mtN by lia.
Qed.

Definition rot (k : nat) (a : list Z) : list Z := drop k a ++ take k a.

Lemma rot_lookup k i a :
  length a = mtN -> (k < mtN)%nat -> (i < mtN)%nat -> rot k a !!! i = a !!! ((k + i) mod mtN)%nat.
Proof.
  intros Ha Hk Hi. unfold rot. destruct (Nat.lt_ge_cases (k + i) mtN).
  - rewrite Nat.mod_small by done. rewrite lookup_total_app_l by (rewrite length_drop; lia).
    apply lookup_total_drop.
  - rewrite mod_wrap by lia. rewrite lookup_total_app_r by (rewrite length_drop; lia).
    rewrite length_drop, Ha. rewrite lookup_total_take, decide_True by lia.
    by replace (i - (mtN - k))%nat with (k + i - mtN)%nat by lia.
Qed.

Lemma twist_step_rot a k :
  length a = mtN -> (k < mtN)%nat -> rot (S k) (twist_step a k) = sliding (rot k a).
Proof.
  intros Ha Hk. pose proof mt_sizes. unfold sliding. rewrite !rot_lookup by lia.
  rewrite Nat.add_0_r, (Nat.mod_small k) by done. unfold twist_step, twist_at.
  set (v := twist _ _ _). unfold rot.
  assert (a !! k = Some (a !!! k)) as Hl by (apply list_lookup_lookup_total_lt; lia).
  rewrite drop_insert_lt by lia. rewrite (take_S_r _ _ v) by (apply list_lookup_insert_eq; lia).
  rewrite take_insert_ge by lia. rewrite (drop_S _ _ _ Hl). cbn [tail app]. by rewrite app_assoc.
Qed.

Lemma twist_step_length a k : length (twist_step a k) = length a.
Proof. apply length_insert. Qed.

Lemma twist_loop_rot a k :
  length a = mtN -> (k <= mtN)%nat ->
  length (fold_left twist_step (seq 0 k) a) = mtN /\
  rot k (fold_left twist_step (seq 0 k) a) = Nat.iter k sliding a.
Proof.
  intros Ha. induction k as [|k IH]; intros Hk.
  - split; [done|]. unfold rot. cbn. by rewrite drop_0, app_nil_r.
  - destruct IH as [IH1 IH2]; [lia|]. rewrite seq_S, fold_left_app. cbn [fold_left Nat.add].
    split; [by rewrite twist_step_length|]. rewrite twist_step_rot by (done || lia).
    by rewrite IH2.
Qed.

Lemma regenerate_iter a : length a = mtN -> regenerate a = Nat.iter mtN sliding a.
Proof.
  intros Ha. rewrite regenerate_loop. destruct (twist_loop_rot a mtN Ha ltac:(lia)) as [Hl <-].
  unfold rot. rewrite drop_ge, take_ge by lia. done.
Qed.

Lemma sliding_length w : length w = mtN -> length (sliding w) = mtN.
Proof.
  intros Hw. pose proof mt_sizes. unfold sliding. rewrite length_app, length_tl.
  cbn [length]. lia.
Qed.

Lemma iter_sliding_length n w : length w = mtN -> length (Nat.iter n sliding w) = mtN.
Proof. intros Hw. induction n; [done|]. cbn [Nat.iter]. by apply sliding_length. Qed.

Lemma sliding_lookup w i :
  length w = mtN -> (i + 1 < mtN)%nat -> sliding w !!! i = w !!! (i + 1)%nat.
Proof.
  intros Hw Hi. unfold sliding. rewrite lookup_total_app_l by (rewrite length_tl; lia).
  destruct w as [|x w]; cbn [length tail] in *; [lia|]. by rewrite Nat.add_1_r.
Qed.

Lemma iter_0 {A : Type} (f : A -> A) x : Nat.iter 0 f x = x.
Proof. done. Qed.

Lemma iter_S {A : Type} (f : A -> A) n x : Nat.iter (S n) f x = f (Nat.iter n f x).
Proof. done. Qed.

(** A word stays in the window and moves to the left. *)
Lemma iter_sliding_lookup n w :
  length w = mtN -> (n < mtN)%nat -> Nat.iter n sliding w !!! (mtN - 1 - n)%nat = newest w.
Proof.
  intros Hw. induction n as [|n IH]; intros Hn.
  - cbn [Nat.iter]. by rewrite Nat.sub_0_r.
  - rewrite iter_S, sliding_lookup by (try apply iter_sliding_length; lia).
    rewrite <- IH by lia. f_equal. lia.
Qed.

Lemma iter_succ_inner {A : Type} (f : A -> A) n x : Nat.iter n f (f x) = f (Nat.iter n f x).
Proof. induction n as [|n IH]; [done|]. by rewrite !iter_S, IH. Qed.

(** The next word of the array is the next word of the recurrence. *)
Lemma array_word i w :
  length w = mtN -> (i < mtN)%nat ->
  Nat.iter (mtN - i) sliding w !!! i = newest (sliding w).
Proof.
  intros Hw Hi. replace (mtN - i)%nat with (S (mtN - 1 - i)) by lia.
  rewrite iter_S, <- iter_succ_inner.
  rewrite <- (iter_sliding_lookup (mtN - 1 - i)) by (try apply sliding_length; lia).
  f_equal. lia.
Qed.

Lemma refill_tracks W g w :
  tracks g w -> exists i, (i < mtN)%nat /\
    refill W g = {| mt := Nat.iter (mtN - i) sliding w; mti := Z.of_nat i |}.
Proof.
  intros (Hw & Hi & Hmt). pose proof mt_sizes. unfold refill.
  destruct (Z.leb_spec (Z.of_nat mtN) (mti g)).
  - exists 0%nat. split; [lia|].
    assert ((mti g =? Z.of_nat mtN + 1) = false) as -> by (apply Z.eqb_neq; lia).
    rewrite Hmt. replace (mtN - Z.to_nat (mti g))%nat with 0%nat by lia.
    rewrite Nat.sub_0_r. cbn [Nat.iter nat_rect]. by rewrite regenerate_iter.
  - exists (Z.to_nat (mti g)). split; [lia|]. rewrite <- Hmt, Z2Nat.id by lia. by destruct g.
Qed.

Lemma genrand_tracks W g w :
  tracks g w ->
  exists g', genrand_int32 W g = (temper W (newest (sliding w)), g') /\ tracks g' (sliding w).
Proof.
  intros Ht. pose proof Ht as (Hw & _ & _). destruct (refill_tracks W g w Ht) as (i & Hi & E).
  unfold genrand_int32. rewrite E. cbn [mt mti]. rewrite Nat2Z.id, array_word by done.
  eexists. split; [done|]. split; [by apply sliding_length|]. cbn [mt mti]. split; [lia|].
  replace (Z.to_nat (Z.of_nat i + 1)) with (S i) by lia.
  replace (mtN - i)%nat with (S (mtN - S i)) by lia. by rewrite iter_S, <- iter_succ_inner.
Qed.

Lemma outputs_tracks W n g w : tracks g w -> outputs W n g = map (temper W) (recurrence n w).
Proof.
  revert g w. induction n as [|n IH]; intros g w Ht; [done|].
  destruct (genrand_tracks W g w Ht) as (g' & E & Ht'). cbn [outputs recurrence map].
  by rewrite E, (IH _ _ Ht').
Qed.

Lemma fold_insert_length (f : list Z -> nat -> Z) l a :
  length (fold_left (fun a i => <[i := f a i]> a) l a) = length a.
Proof.
  revert a. induction l as [|i l IH]; intros a; [done|]. cbn [fold_left].
  by rewrite IH, length_insert.
Qed.

Lemma init_genrand_tracks W g s :
  length (mt g) = mtN -> tracks (init_genrand W g s) (mt (init_genrand W g s)).
Proof.
  intros Hg. split; [|split].
  - unfold init_genrand. cbn [mt].
    etrans; [apply (fold_insert_length (fun a i => init_word W (a !!! (i - 1)%nat) (Z.of_nat i)))|].
    by rewrite length_insert.
  - cbn [init_genrand mti]. lia.
  - cbn [init_genrand mti]. by rewrite Nat2Z.id, Nat.sub_diag.
Qed.

(** C8: the code, which regenerates its array in place 624 words at a time,
    implements the recurrence x(k+624) = x(k+397) ^ twist (x(k), x(k+1)): after
    [init_genrand (s)] any number of calls of [genrand_int32] returns the
    tempered words of the recurrence that starts with the seeded array, and so
    do the calls of a program that never seeds it, with the seed 5489. *)
Theorem genrand_int32_recurrence W g n :
  length (mt g) = mtN ->
  (forall s, let g' := init_genrand W g s in
     outputs W n g' = map (temper W) (recurrence n (mt g'))) /\
  (mti g = Z.of_nat mtN + 1 -> outputs W n g = outputs W n (init_genrand W g 5489)).
Proof.
  intros Hg. split.
  - intros s. apply outputs_tracks. by apply init_genrand_tracks.
  - intros Hi. destruct n as [|n]; [done|]. cbn [outputs].
    enough (genrand_int32 W g = genrand_int32 W (init_genrand W g 5489)) as -> by done.
    unfold genrand_int32. enough (refill W g = refill W (init_genrand W g 5489)) as -> by done.
    unfold refill. rewrite Hi. cbn [mti init_genrand].
    rewrite Z.eqb_refl, Z.leb_refl. destruct (Z.leb_spec (Z.of_nat mtN) (Z.of_nat mtN + 1)); [|lia].
    destruct (Z.eqb_spec (Z.of_nat mtN) (Z.of_nat mtN + 1)); [lia|]. done.
Qed.

Lemma genrand_int32_recurrence_witness :
  map (temper 32) (recurrence 2 (mt (init_genrand 32 static_generator 5489)))
  = [3499211612; 581869302] /\
  outputs 32 2 static_generator = outputs 32 2 (init_genrand 32 static_generator 5489).
Proof.
  destruct (genrand_int32_recurrence 32 static_generator 2) as [H1 H2].
  - apply length_replicate.
  - split; [|by apply H2]. rewrite <- H1. vm_compute. reflexivity.
Defined.

(** ** Tempering can be undone *)

(** [z = y ^ ((y << s) & m)], solved for [y]: each round gets [s] more bits. *)
Definition undo_left (s m : Z) (n : nat) (z : Z) : Z :=
  Nat.iter n (fun t => Z.lxor z (Z.land (Z.shiftl t s) m)) z.

(** [z = y ^ (y >> s)], solved for [y], from the high bits down. *)
Definition undo_right (s : Z) (n : nat) (z : Z) : Z :=
  Nat.iter n (fun t => Z.lxor z (Z.shiftr t s)) z.

Definition untemper (y : Z) : Z :=
  let y := undo_right 18 1 y in
  let y := undo_left 15 0xefc60000 2 y in
  let y := undo_left 7 0x9d2c5680 4 y in
  undo_right 11 2 y.

Lemma undo_left_bits s m n y i :
  0 < s -> 0 <= i < s * Z.of_nat (S n) ->
  Z.testbit (undo_left s m n (Z.lxor y (Z.land (Z.shiftl y s) m))) i = Z.testbit y i.
Proof.
  intros Hs. revert i. induction n as [|n IH]; intros i Hi.
  - cbn [undo_left Nat.iter nat_rect]. unfold undo_left. cbn.
    rewrite Z.lxor_spec, Z.land_spec, Z.shiftl_spec_low by lia. apply xorb_false_r.
  - unfold undo_left. rewrite iter_S. fold (undo_left s m n (Z.lxor y (Z.land (Z.shiftl y s) m))).
    rewrite !Z.lxor_spec, !Z.land_spec, !Z.shiftl_spec by lia.
    destruct (Z.lt_ge_cases i s).
    + rewrite !(Z.testbit_neg_r _ (i - s)) by lia. by rewrite !xorb_false_r.
    + rewrite IH by lia. rewrite xorb_assoc, xorb_nilpotent. apply xorb_false_r.
Qed.

Lemma undo_right_bits s n y i :
  0 < s -> word y -> 32 - s * Z.of_nat (S n) <= i -> 0 <= i ->
  Z.testbit (undo_right s n (Z.lxor y (Z.shiftr y s))) i = Z.testbit y i.
Proof.
  intros Hs [_ Hy]%word_spec. revert i. induction n as [|n IH]; intros i Hi Hi0.
  - unfold undo_right. cbn. rewrite Z.lxor_spec, Z.shiftr_spec by lia.
    rewrite (Hy (i + s)) by lia. apply xorb_false_r.
  - unfold undo_right. rewrite iter_S. fold (undo_right s n (Z.lxor y (Z.shiftr y s))).
    rewrite !Z.lxor_spec, !Z.shiftr_spec by lia. rewrite IH by lia.
    rewrite xorb_assoc, xorb_nilpotent. apply xorb_false_r.
Qed.

Lemma word_undo_left s m n z : word m -> word z -> word (undo_left s m n z).
Proof.
  intros Hm Hz. destruct n; [done|]. unfold undo_left. rewrite iter_S. eauto with cs444.
Qed.

Lemma word_eq x y :
  word x -> word y -> (forall i, 0 <= i < 32 -> Z.testbit x i = Z.testbit y i) -> x = y.
Proof.
  intros [_ Hx]%word_spec [_ Hy]%word_spec H. apply Z.bits_inj'. intros i Hi.
  destruct (Z.lt_ge_cases i 32); [apply H; lia|]. by rewrite Hx, Hy.
Qed.

Lemma undo_left_ok s m n y :
  0 < s -> 32 <= s * Z.of_nat (S n) -> word m -> word y ->
  undo_left s m n (Z.lxor y (Z.land (Z.shiftl y s) m)) = y.
Proof.
  intros Hs Hn Hm Hy. apply word_eq; [|done|].
  - apply word_undo_left; eauto with cs444.
  - intros i Hi. apply undo_left_bits; lia.
Qed.

Lemma undo_right_ok s n y :
  0 < s -> 32 <= s * Z.of_nat (S n) -> word y ->
  undo_right s n (Z.lxor y (Z.shiftr y s)) = y.
Proof.
  intros Hs Hn Hy. apply Z.bits_inj'. intros i Hi. apply undo_right_bits; (done || lia).
Qed.

Ltac words :=
  repeat first [ assumption | apply word_lxor | apply word_land; assumption
               | apply word_shiftr; [lia|] | apply word_mag01 ].

Lemma word_temper W y : 32 <= W -> word y -> word (temper W y).
Proof.
  intros HW Hy. unfold temper. pose proof word_masks as (_ & _ & _ & _ & ? & ?).
  words.
Qed.

(** The tempering is invertible on 32-bit words. *)
Lemma untemper_temper W y : 32 <= W -> word y -> untemper (temper W y) = y.
Proof.
  intros HW Hy. pose proof word_masks as (_ & _ & _ & _ & ? & ?).
  unfold temper, untemper. rewrite !land_ul by (done || apply word_masks).
  rewrite undo_right_ok by (lia || words).
  rewrite undo_left_ok by (lia || words).
  rewrite undo_left_ok by (lia || words).
  by apply undo_right_ok.
Qed.

(** ** The state stays an array of 624 words *)

Definition array_ok (a : list Z) : Prop := length a = mtN /\ Forall word a.

Lemma array_word_ok a i : array_ok a -> (i < mtN)%nat -> word (a !!! i).
Proof.
  intros [Hl Ha] Hi. rewrite <- Hl in Hi.
  apply list_lookup_lookup_total_lt in Hi. by eapply Forall_lookup_1.
Qed.

Lemma insert_ok a i v : array_ok a -> word v -> array_ok (<[i := v]> a).
Proof. intros [Hl Ha] Hv. split; [by rewrite length_insert|by apply Forall_insert]. Qed.

Lemma fold_left_inv {A B : Type} (I : A -> Prop) (f : A -> B -> A) l a :
  (forall a b, I a -> b ∈ l -> I (f a b)) -> I a -> I (fold_left f l a).
Proof.
  revert a. induction l as [|b l IH]; intros a Hf Ha; [done|]. cbn [fold_left].
  apply IH; [set_solver|]. apply Hf; [done|set_solver].
Qed.

Lemma word_twist u v m : word m -> word (twist u v m).
Proof.
  intros Hm. unfold twist. apply word_lxor; [|apply word_mag01]. apply word_lxor; [done|].
  apply word_shiftr; [lia|]. apply word_lor; apply word_land, word_masks.
Qed.

Lemma regenerate_ok a : array_ok a -> array_ok (regenerate a).
Proof.
  intros Ha. rewrite regenerate_loop. apply (fold_left_inv array_ok); [|done]. pose proof mt_sizes.
  intros b k Hb Hk%elem_of_seq. apply insert_ok; [done|]. apply word_twist.
  apply array_word_ok; [done|]. apply Nat.mod_upper_bound. lia.
Qed.

Lemma init_genrand_ok W g s : length (mt g) = mtN -> Forall word (mt g) ->
  array_ok (mt (init_genrand W g s)).
Proof.
  intros Hl Ha. unfold init_genrand. cbn [mt]. apply (fold_left_inv array_ok).
  - intros b k Hb _. apply insert_ok; [done|]. apply word_land, word_masks.
  - apply insert_ok; [done|]. apply word_land, word_masks.
Qed.

Lemma next_index_ok a i :
  array_ok a -> (1 <= i < mtN)%nat ->
  array_ok (next_index a i).1 /\ (1 <= (next_index a i).2 < mtN)%nat.
Proof.
  intros Ha Hi. pose proof mt_sizes. unfold next_index.
  destruct (Nat.leb_spec mtN (i + 1)); cbn [fst snd]; [|split; [done|lia]].
  split; [|lia]. apply insert_ok; [done|]. apply array_word_ok; [done|lia].
Qed.

Lemma init_by_array_1_ok W key len k a i j :
  array_ok a -> (1 <= i < mtN)%nat -> 0 < len <= Z.of_nat (length key) -> Z.of_nat j < len ->
  exists a' i', init_by_array_1 W k key len a i j = Ok (a', i') /\
    array_ok a' /\ (1 <= i' < mtN)%nat.
Proof.
  revert a i j. induction k as [|k IH]; intros a i j Ha Hi Hlen Hj; cbn [init_by_array_1].
  - exists a, i. done.
  - destruct (lookup_lt_is_Some_2 key j) as [x ->]; [lia|].
    assert (array_ok (<[i:=Z.land (ul W (mix W a i 1664525 + x + Z.of_nat j)) MASK32]> a)) as Hb
      by (apply insert_ok; [done|apply word_land, word_masks]).
    destruct (next_index_ok _ i Hb Hi). destruct (next_index _ i) as [b i1]. cbn [fst snd] in *.
    apply IH; try done. destruct (Z.leb_spec len (Z.of_nat (j + 1))); lia.
Qed.

Lemma init_by_array_2_ok W k a i :
  array_ok a -> (1 <= i < mtN)%nat ->
  array_ok (init_by_array_2 W k a i).1 /\ (1 <= (init_by_array_2 W k a i).2 < mtN)%nat.
Proof.
  revert a i. induction k as [|k IH]; intros a i Ha Hi; cbn [init_by_array_2]; [done|].
  assert (array_ok (<[i:=Z.land (ul W (mix W a i 1566083941 - Z.of_nat i)) MASK32]> a)) as Hb
    by (apply insert_ok; [done|apply word_land, word_masks]).
  destruct (next_index_ok _ i Hb Hi). destruct (next_index _ i) as [b i1]. by apply IH.
Qed.

Lemma init_by_array_ok W g key len :
  gen_ok g -> 0 < len <= Z.of_nat (length key) ->
  exists g', init_by_array W g key len = Ok g' /\ gen_ok g' /\
    mti g' = Z.of_nat mtN /\ mt g' !!! 0%nat = 0x80000000.
Proof.
  intros [Hl Ha Hi] Hlen. pose proof mt_sizes. unfold init_by_array.
  pose proof (init_genrand_ok W g 19650218 Hl Ha) as Hg.
  destruct (init_by_array_1_ok W key len
              (if len <? Z.of_nat mtN then mtN else Z.to_nat len)
              (mt (init_genrand W g 19650218)) 1 0) as (a & i & -> & Hok & Hi1); [done|lia..|].
  cbn [res_bind]. pose proof (init_by_array_2_ok W (mtN - 1) a i Hok Hi1) as [Hok2 _].
  destruct (init_by_array_2 W (mtN - 1) a i) as [b i2]. cbn [fst] in Hok2.
  destruct (insert_ok b 0 0x80000000 Hok2) as [Hl' Hw']; [by apply word_const|].
  eexists. split; [reflexivity|]. cbn [mt mti init_genrand]. split; [|split; [done|]].
  - split; cbn [mt mti]; [done|done|lia].
  - apply list_lookup_total_insert_eq. destruct Hok2 as [-> _]. lia.
Qed.

Lemma genrand_int32_ok W g :
  32 <= W -> gen_ok g -> word (genrand_int32 W g).1 /\ gen_ok (genrand_int32 W g).2.
Proof.
  intros HW [Hl Ha Hi]. pose proof mt_sizes.
  assert (array_ok (mt (refill W g)) /\ 0 <= mti (refill W g) < Z.of_nat mtN) as [Hr Hri].
  { unfold refill. destruct (Z.leb_spec (Z.of_nat mtN) (mti g)); [|split; [done|lia]].
    cbn [mt mti]. split; [|lia]. apply regenerate_ok.
    destruct (_ =? _); [by apply init_genrand_ok|done]. }
  unfold genrand_int32. cbn [fst snd]. split.
  - apply word_temper; [done|]. apply array_word_ok; [done|lia].
  - destruct Hr. split; cbn [mt mti]; [done|done|lia].
Qed.

Lemma static_ok : gen_ok static_generator.
Proof.
  split; [apply length_replicate| |cbn [mti static_generator]; lia].
  apply Forall_replicate. by apply word_const.
Qed.

(** The results are in the intervals that the comments name. *)
Lemma genrand_ranges W g :
  32 <= W -> gen_ok g ->
  0 <= (genrand_int32 W g).1 <= 0xffffffff /\ 0 <= (genrand_int31 W g).1 <= 0x7fffffff.
Proof.
  intros HW Hg. destruct (genrand_int32_ok W g HW Hg) as [Hw _]. unfold word, in_u in Hw.
  split; [lia|]. unfold genrand_int31. destruct (genrand_int32 W g) as [y g']. cbn [fst] in *.
  rewrite Z.shiftr_div_pow2 by lia.
  assert (0 <= y / 2 ^ 1 <= 2147483647) by (pose proof (Z.div_mod y 2); pose proof (Z.mod_pos_bound y 2); change (2 ^ 1) with 2; lia).
  assert (2 ^ 31 <= 2 ^ (W - 1)) by (apply Z.pow_le_mono_r; lia).
  rewrite wrap_s_small; [lia|lia|]. unfold in_s. lia.
Qed.

(** ** A generator seeded by an array never reaches the zero state *)

Lemma testbit_31 x : word x -> Z.testbit x 31 = negb (Z.land x UPPER_MASK =? 0).
Proof.
  intros Hx. destruct (Z.eqb_spec (Z.land x UPPER_MASK) 0) as [E|E]; cbn [negb].
  - apply (f_equal (fun z => Z.testbit z 31)) in E. rewrite Z.land_spec, Z.bits_0 in E.
    change (Z.testbit UPPER_MASK 31) with true in E. by rewrite andb_true_r in E.
  - destruct (Z.testbit x 31) eqn:Hb; [done|]. exfalso. apply E. apply Z.bits_inj'.
    intros i Hi. rewrite Z.land_spec, Z.bits_0. change UPPER_MASK with (2 ^ 31).
    rewrite Z.pow2_bits_eqb by lia. destruct (Z.eqb_spec 31 i) as [<-|]; [by rewrite Hb|].
    apply andb_false_r.
Qed.

(** The twist of a nonzero [y] is nonzero: the shift clears bit 31, which
    [MATRIX_A] has. *)
Lemma twist_nonzero y : word y -> y <> 0 -> Z.lxor (Z.shiftr y 1) (mag01 y) <> 0.
Proof.
  intros Hy Hne E. unfold mag01 in E. destruct (Z.eqb_spec (Z.land y 1) 0) as [E1|E1].
  - rewrite Z.lxor_0_r, Z.shiftr_div_pow2 in E by lia.
    change 1 with (Z.ones 1) in E1. rewrite Z.land_ones in E1 by lia. pose proof (Z.div_mod y (2 ^ 1)). lia.
  - apply (f_equal (fun z => Z.testbit z 31)) in E.
    rewrite Z.lxor_spec, Z.shiftr_spec, Z.bits_0 in E by lia.
    apply word_spec in Hy as [_ Hy]. rewrite Hy in E by lia.
    by change (Z.testbit MATRIX_A 31) with true in E.
Qed.

Lemma high_bit_or u v :
  Z.lor (Z.land u UPPER_MASK) (Z.land v LOWER_MASK) = 0 ->
  Z.land u UPPER_MASK = 0 /\ Z.land v LOWER_MASK = 0.
Proof. apply Z.lor_eq_0_iff. Qed.

Lemma low_nonzero v : word v -> v <> 0 -> Z.land v UPPER_MASK = 0 -> Z.land v LOWER_MASK <> 0.
Proof.
  intros Hv Hne Hu Hl. apply Hne. apply word_eq; [done|by apply word_const|].
  intros i Hi. rewrite Z.bits_0. destruct (Z.lt_ge_cases i 31).
  - apply (f_equal (fun z => Z.testbit z i)) in Hl. rewrite Z.land_spec, Z.bits_0 in Hl.
    change LOWER_MASK with (Z.ones 31) in Hl. rewrite Z.ones_spec_low in Hl by lia.
    by rewrite andb_true_r in Hl.
  - replace i with 31 by lia. rewrite testbit_31 by done. by rewrite Hu.
Qed.

Lemma sliding_newest w :
  length w = mtN -> newest (sliding w) = twist (w !!! 0%nat) (w !!! 1%nat) (w !!! mtM).
Proof.
  intros Hw. pose proof mt_sizes. unfold newest, sliding.
  rewrite lookup_total_app_r by (rewrite length_tl; lia). rewrite length_tl, Hw, Nat.sub_diag. done.
Qed.

Lemma sliding_nonzero w : array_ok w -> window_nonzero w -> window_nonzero (sliding w).
Proof.
  intros Hok Hnz. pose proof mt_sizes. pose proof Hok as [Hl _].
  destruct (decide (Exists (fun i => w !!! i <> 0) (seq 2 (mtN - 2)))) as [He|He].
  { apply Exists_exists in He as (i & Hi%elem_of_seq & Hx). right.
    exists (i - 1)%nat. split; [lia|]. rewrite sliding_lookup by lia.
    by replace (i - 1 + 1)%nat with i by lia. }
  assert (forall i, (2 <= i < mtN)%nat -> w !!! i = 0) as Hz.
  { intros i Hi. destruct (decide (w !!! i = 0)) as [|Hne]; [done|]. destruct He.
    apply Exists_exists. exists i. split; [apply elem_of_seq; lia|done]. }
  pose proof (array_word_ok w 1 Hok ltac:(lia)) as H1.
  destruct (decide (Z.land (w !!! 1%nat) UPPER_MASK = 0)) as [Hu|Hu].
  2: { left. by rewrite sliding_lookup by lia. }
  right. exists (mtN - 1)%nat. split; [lia|]. fold (newest (sliding w)).
  rewrite sliding_newest by done. unfold twist. rewrite (Hz mtM) by lia. rewrite Z.lxor_0_l.
  apply twist_nonzero; [apply word_lor; apply word_land, word_masks|].
  intros [E0 E1]%high_bit_or. destruct Hnz as [Hn|(i & Hi & Hx)]; [done|].
  destruct (decide (i = 1%nat)) as [->|]; [|apply Hx, Hz; lia].
  by apply (low_nonzero _ H1 Hx Hu).
Qed.

Lemma sliding_ok w : array_ok w -> array_ok (sliding w).
Proof.
  intros Hok. pose proof mt_sizes. destruct Hok as [Hl Hw]. split; [by apply sliding_length|].
  apply Forall_app. split; [by destruct Hw|]. apply Forall_singleton, word_twist.
  apply array_word_ok; [done|lia].
Qed.

Lemma init_by_array_nonzero W g key len g' n :
  gen_ok g -> 0 < len <= Z.of_nat (length key) -> init_by_array W g key len = Ok g' ->
  window_nonzero (Nat.iter n sliding (mt g')).
Proof.
  intros Hg Hlen Heq. destruct (init_by_array_ok W g key len Hg Hlen) as (g1 & E & [Hl Hw _] & Hi & H0).
  rewrite Heq in E. injection E as <-.
  enough (array_ok (Nat.iter n sliding (mt g')) /\ window_nonzero (Nat.iter n sliding (mt g')))
    as [_ H] by exact H.
  induction n as [|n [IH1 IH2]]; [|rewrite iter_S; split; [by apply sliding_ok|by apply sliding_nonzero]].
  split; [done|]. left. cbn [Nat.iter nat_rect]. by rewrite H0.
Qed.

(** C21: the static state is always an array of 624 words of 32 bits with an
    index in range (no access of the code is outside [mt]): initially, after
    seeding by a number or by a non-empty array, and after every call of
    [genrand_int32], whose result is in [0,0xffffffff] as its comment says; the
    result of [genrand_int31] is in [0,0x7fffffff].  And a generator seeded by an
    array is never in the all-zero state from which all outputs are zero
    ("assuring non-zero initial array"): after any number of outputs the window
    of the last 624 words has a nonzero bit among the 19937 that the recurrence
    uses. *)
Theorem mt_state_ok W g :
  32 <= W -> gen_ok g ->
  gen_ok static_generator /\
  (forall s, gen_ok (init_genrand W g s)) /\
  (forall key len, 0 < len <= Z.of_nat (length key) ->
     exists g', init_by_array W g key len = Ok g' /\ gen_ok g' /\ tracks g' (mt g') /\
       forall n, window_nonzero (Nat.iter n sliding (mt g'))) /\
  (gen_ok (genrand_int32 W g).2 /\ 0 <= (genrand_int32 W g).1 <= 0xffffffff) /\
  0 <= (genrand_int31 W g).1 <= 0x7fffffff.
Proof.
  intros HW Hg. destruct (genrand_int32_ok W g HW Hg) as [_ Hok].
  destruct (genrand_ranges W g HW Hg) as [H32 H31]. split; [apply static_ok|].
  split; [|split; [|by split]].
  - intros s. destruct Hg as [Hl Ha _]. destruct (init_genrand_ok W g s Hl Ha).
    split; [done|done|]. cbn [mti init_genrand]. lia.
  - intros key len Hlen. destruct (init_by_array_ok W g key len Hg Hlen) as (g' & E & Hok' & Hi & _).
    exists g'. split; [exact E|]. split; [exact Hok'|].
    split; [|intros n; exact (init_by_array_nonzero W g key len g' n Hg Hlen E)].
    destruct Hok' as [Hl _ _]. split; [done|]. rewrite Hi. split; [lia|]. by rewrite Nat2Z.id, Nat.sub_diag.
Qed.

(** The key of the example in the comment at the end of the source. *)
Lemma mt_state_ok_witness :
  0 <= (genrand_int32 64 static_generator).1 <= 0xffffffff /\
  exists g', init_by_array 64 static_generator [0x123; 0x234; 0x345; 0x456] 4 = Ok g' /\
    window_nonzero (Nat.iter 1000 sliding (mt g')).
Proof.
  destruct (mt_state_ok 64 static_generator) as (_ & _ & H1 & [_ H2] & _); [lia|apply static_ok|].
  split; [exact H2|].
  destruct (H1 [0x123; 0x234; 0x345; 0x456] 4) as (g' & E & _ & _ & Hz); [cbn [length]; lia|].
  exists g'. split; [exact E|exact (Hz 1000%nat)].
Defined.

(** ** The outputs determine the state *)

(** The generator whose last [N] outputs were [l]. *)
Definition clone (l : list Z) : generator := {| mt := map untemper l; mti := Z.of_nat mtN |}.

Lemma recurrence_app k n w :
  recurrence (k + n) w = recurrence k w ++ recurrence n (Nat.iter k sliding w).
Proof.
  revert w. induction k as [|k IH]; intros w; [done|]. cbn [Nat.add recurrence app].
  by rewrite IH, iter_succ_inner, <- iter_S.
Qed.

Lemma recurrence_length n w : length (recurrence n w) = n.
Proof. revert w. induction n as [|n IH]; intros w; [done|]. cbn [recurrence length]. by rewrite IH. Qed.

Lemma recurrence_lookup n w i : (i < n)%nat -> recurrence n w !!! i = newest (Nat.iter (S i) sliding w).
Proof.
  revert w i. induction n as [|n IH]; intros w i Hi; [lia|]. destruct i as [|i]; [done|].
  cbn [recurrence]. change ((_ :: ?l) !!! S i) with (l !!! i).
  rewrite IH by lia. by rewrite !iter_S, iter_succ_inner.
Qed.

(** [N] words of the recurrence are the window they leave. *)
Lemma recurrence_window w : length w = mtN -> recurrence mtN w = Nat.iter mtN sliding w.
Proof.
  intros Hw. apply (list_eq_same_length _ _ mtN);
    [by rewrite iter_sliding_length|apply recurrence_length|].
  intros i x y Hi Hx Hy. apply list_lookup_total_correct in Hx, Hy. rewrite <- Hx, <- Hy.
  rewrite recurrence_lookup by done.
  rewrite <- (iter_sliding_lookup (mtN - 1 - i)) by (try apply iter_sliding_length; lia).
  rewrite <- Nat.iter_add. f_equal; [lia|]. f_equal. lia.
Qed.

Lemma recurrence_words n w : array_ok w -> Forall word (recurrence n w).
Proof.
  pose proof mt_sizes. revert w. induction n as [|n IH]; intros w Hw; [constructor|]. cbn [recurrence].
  apply sliding_ok in Hw. constructor; [apply array_word_ok; [done|lia]|by apply IH].
Qed.

Lemma clone_tracks W w : 32 <= W -> array_ok w ->
  tracks (clone (map (temper W) (recurrence mtN w))) (Nat.iter mtN sliding w).
Proof.
  intros HW Hw. pose proof Hw as [Hl _]. split; [by apply iter_sliding_length|]. cbn [mti mt clone].
  split; [lia|]. rewrite Nat2Z.id, Nat.sub_diag, iter_0. rewrite <- recurrence_window by done.
  rewrite map_map. rewrite <- (map_id (recurrence mtN w)) at 2. apply map_ext_in.
  intros x Hx%list_elem_of_In. apply untemper_temper; [done|].
  pose proof (recurrence_words mtN w Hw) as HF. rewrite Forall_forall in HF. by apply HF.
Qed.

(** What the two seeding functions leave. *)
Lemma seeded_tracks W g g' s key len :
  gen_ok g -> (g' = init_genrand W g s \/ 0 < len <= Z.of_nat (length key) /\ init_by_array W g key len = Ok g') ->
  tracks g' (mt g') /\ array_ok (mt g').
Proof.
  intros Hg [->|[Hlen E]].
  - destruct Hg as [Hl Hw _]. split; [by apply init_genrand_tracks|by apply init_genrand_ok].
  - destruct (init_by_array_ok W g key len Hg Hlen) as (g1 & E1 & [Hl Hw _] & Hi & _).
    rewrite E in E1. injection E1 as <-. split; [|by split]. split; [done|]. rewrite Hi. split; [lia|].
    by rewrite Nat2Z.id, Nat.sub_diag.
Qed.

(** C20: the generator is predictable.  Tempering loses nothing, so whatever
    seed or array it was seeded with, 624 consecutive outputs, from any point
    on, determine the state: the generator whose array is the untempered
    outputs gives every later output. *)
Theorem mt_clone W g g' s key len k n :
  32 <= W -> gen_ok g ->
  (g' = init_genrand W g s \/ 0 < len <= Z.of_nat (length key) /\ init_by_array W g key len = Ok g') ->
  outputs W n (clone (drop k (outputs W (k + mtN) g'))) = drop (k + mtN) (outputs W (k + mtN + n) g').
Proof.
  intros HW Hg Hseed. destruct (seeded_tracks W g g' s key len Hg Hseed) as [Ht Hok].
  rewrite !(outputs_tracks W _ g' (mt g') Ht). rewrite (recurrence_app (k + mtN) n), map_app.
  rewrite (drop_app_length' _ _ (k + mtN)) by (by rewrite length_map, recurrence_length).
  rewrite (recurrence_app k mtN), map_app, (drop_app_length' _ _ k) by (by rewrite length_map, recurrence_length).
  set (w := Nat.iter k sliding (mt g')).
  assert (array_ok w) as Hw by (unfold w; clear -Hok; induction k; [done|by apply sliding_ok]).
  rewrite (outputs_tracks W n _ _ (clone_tracks W w HW Hw)). unfold w.
  by rewrite <- Nat.iter_add, (Nat.add_comm mtN k).
Qed.

(** After the key of the example, the outputs 11 to 634 predict number 635. *)
Lemma mt_clone_witness :
  exists g', init_by_array 32 static_generator [0x123; 0x234; 0x345; 0x456] 4 = Ok g' /\
    outputs 32 1 (clone (drop 10 (outputs 32 634 g'))) = drop 634 (outputs 32 635 g').
Proof.
  pose proof static_ok as Hg.
  destruct (init_by_array_ok 32 static_generator [0x123; 0x234; 0x345; 0x456] 4 Hg)
    as (g' & E & _); [cbn [length]; lia|].
  exists g'. split; [exact E|].
  apply (mt_clone 32 static_generator g' 0 [0x123; 0x234; 0x345; 0x456] 4 10 1); [lia|exact Hg|].
  right. split; [cbn [length]; lia|exact E].
Defined.

(** The numbers that Matsumoto and Nishimura publish for this generator:
    the first five outputs after [init_by_array] with the key of the example
    program, and the 10000th output of a generator that was never seeded. *)
Theorem mt_known_answers :
  match init_by_array 32 static_generator [0x123; 0x234; 0x345; 0x456] 4 with
  | Ok g => outputs 32 5 g = [1067595299; 955945823; 477289528; 4107218783; 4228976476]
  | _ => False
  end /\
  last (outputs 64 (Z.to_nat 10000) static_generator) = Some 4123659995.
Proof. split; vm_compute; reflexivity. Qed.
