(* ===== verification/Binary64.v ===== *)
(** * Doubles

    The C type [double] as IEEE 754 binary64, with the operations of
    [SpecFloat] (round to nearest, ties to even), and the facts about it that
    the real-valued generators of [mt19937ar.c] need: a product or a sum whose
    exact value has at most 53 significant bits is exact, and rounding never
    passes a power of two.  Every operation is rounded to a double, as SSE2 does;
    an x87 that keeps wider intermediate results is not modelled. *)

From S2P Require Import Prelude.
From Stdlib Require Import SpecFloat QArith Qpower.
#[local] Open Scope Z_scope.

Definition double : Type := spec_float.
Definition dmul : double -> double -> double := SFmul 53 1024.
Definition dadd : double -> double -> double := SFadd 53 1024.
Definition ddiv : double -> double -> double := SFdiv 53 1024.

(** The conversion of an integer, and a literal [m * 2^e]. *)
Definition double_of (m : Z) : double := binary_normalize 53 1024 m 0 false.
Definition lit (m e : Z) : double := binary_normalize 53 1024 m e false.

(** The value of a finite double. *)
Definition val (x : double) : Q :=
  match x with
  | S754_finite s m e => inject_Z (if s then Zneg m else Zpos m) * (2 ^ e)%Q
  | _ => 0
  end.

(** ** Shifting right *)

Definition digits (m : Z) : Z := Zdigits2 m.

Lemma digits_log2 m : 0 < m -> digits m = Z.log2 m + 1.
Proof.
  destruct m as [|p|p]; [lia| |lia]. intros _. unfold digits, Zdigits2.
  induction p as [p IH|p IH|]; cbn [digits2_pos]; [| |done]; rewrite Pos2Z.inj_succ, IH.
  - rewrite (Pos2Z.inj_xI p), Z.log2_succ_double by lia. lia.
  - rewrite (Pos2Z.inj_xO p), Z.log2_double by lia. lia.
Qed.

Lemma digits_bounds m : 0 < m -> 1 <= digits m /\ 2 ^ (digits m - 1) <= m < 2 ^ digits m.
Proof.
  intros Hm. rewrite digits_log2 by done. pose proof (Z.log2_nonneg m).
  pose proof (Z.log2_spec m Hm). replace (Z.log2 m + 1 - 1) with (Z.log2 m) by lia.
  rewrite Z.add_1_r. lia.
Qed.

Lemma digits_unique m d : 0 < m -> 2 ^ (d - 1) <= m < 2 ^ d -> digits m = d.
Proof.
  intros Hm Hd. rewrite digits_log2 by done.
  assert (1 <= d).
  { destruct (Z.le_gt_cases 1 d); [done|]. assert (2 ^ d <= 1); [|lia].
    destruct (Z.eq_dec d 0) as [->|]; [done|]. rewrite Z.pow_neg_r; lia. }
  rewrite (Z.log2_unique m (d - 1)); [lia|lia|]. by replace (Z.succ (d - 1)) with d by lia.
Qed.

Lemma digits_shift m k : 0 < m -> 0 <= k -> digits (m * 2 ^ k) = digits m + k.
Proof.
  intros Hm Hk. pose proof (pow2_pos k Hk). destruct (digits_bounds m Hm) as [Hd Hb].
  apply digits_unique; [nia|].
  replace (digits m + k - 1) with (digits m - 1 + k) by lia.
  rewrite !Z.pow_add_r by lia. nia.
Qed.

Lemma shr_1_spec m r s :
  0 <= m -> shr_1 (Build_shr_record m r s) = Build_shr_record (m / 2) (Z.odd m) (r || s).
Proof. intros Hm. rewrite <- Z.div2_div. by destruct m as [|[]|]. Qed.

(** The record after [n + 1] shifts of [m]: the quotient, the last bit shifted
    out, and whether any other bit was shifted out. *)
Lemma shr_iter m n :
  0 <= m ->
  Nat.iter (S n) shr_1 (Build_shr_record m false false) =
  Build_shr_record (m / 2 ^ (Z.of_nat n + 1)) (Z.odd (m / 2 ^ Z.of_nat n))
    (negb (m mod 2 ^ Z.of_nat n =? 0)).
Proof.
  intros Hm. induction n as [|n IH].
  - cbn [Nat.iter]. rewrite shr_1_spec by done. cbn [Z.of_nat].
    rewrite Z.pow_0_r, Z.div_1_r, Z.mod_1_r. done.
  - change (Nat.iter (S (S n)) shr_1 _) with (shr_1 (Nat.iter (S n) shr_1 (Build_shr_record m false false))).
    pose proof (pow2_pos (Z.of_nat n) ltac:(lia)) as Hp.
    rewrite IH, shr_1_spec by (apply Z.div_pos; [done|]; apply pow2_pos; lia).
    rewrite Z.div_div by (try apply Z.pow_nonzero; lia).
    replace (Z.of_nat (S n)) with (Z.of_nat n + 1) by lia.
    rewrite (Z.pow_add_r 2 (Z.of_nat n + 1) 1), Z.pow_1_r by lia. f_equal.
    rewrite (Z.pow_add_r 2 (Z.of_nat n) 1), Z.pow_1_r, Z.rem_mul_r by lia.
    pose proof (Z.mod_pos_bound m (2 ^ Z.of_nat n) Hp).
    rewrite Zmod_odd. destruct (Z.odd (m / 2 ^ Z.of_nat n)); cbn [orb].
    + symmetry. apply negb_true_iff, Z.eqb_neq. nia.
    + f_equal. f_equal. lia.
Qed.

Lemma iter_pos_nat {A : Type} (f : A -> A) p x : SpecFloat.iter_pos f p x = Nat.iter (Pos.to_nat p) f x.
Proof.
  revert x. induction p as [p IH|p IH|]; intros x; cbn [SpecFloat.iter_pos]; [| |done]; rewrite !IH.
  - rewrite <- Nat.iter_add, <- Nat.iter_succ_r. f_equal. lia.
  - rewrite <- Nat.iter_add. f_equal. lia.
Qed.

(** ** Rounding *)

(** [m] divided by [2^k], to the nearest, ties to even. *)
Definition rne (m k : Z) : Z :=
  let q := m / 2 ^ k in
  match 2 * (m mod 2 ^ k) ?= 2 ^ k with
  | Lt => q
  | Gt => q + 1
  | Eq => if Z.even q then q else q + 1
  end.

Lemma round_shr m p :
  0 <= m ->
  let mrs := SpecFloat.iter_pos shr_1 p (Build_shr_record m false false) in
  round_nearest_even (shr_m mrs) (loc_of_shr_record mrs) = rne m (Zpos p).
Proof.
  intros Hm mrs. unfold mrs. rewrite iter_pos_nat.
  destruct (Pos2Nat.is_succ p) as [n Hn]. rewrite Hn, shr_iter by done.
  assert (Zpos p = Z.of_nat n + 1) as -> by lia. unfold rne. cbn [shr_m].
  set (q := m / 2 ^ (Z.of_nat n + 1)).
  pose proof (pow2_pos (Z.of_nat n) ltac:(lia)) as Hp.
  assert (m mod 2 ^ (Z.of_nat n + 1) =
    m mod 2 ^ Z.of_nat n + 2 ^ Z.of_nat n * (if Z.odd (m / 2 ^ Z.of_nat n) then 1 else 0)) as ->.
  { rewrite Z.add_1_r, Z.pow_succ_r, (Z.mul_comm 2 (2 ^ Z.of_nat n)), Z.rem_mul_r by lia.
    by rewrite Zmod_odd. }
  rewrite Z.add_1_r, Z.pow_succ_r by lia.
  pose proof (Z.mod_pos_bound m (2 ^ Z.of_nat n) Hp).
  destruct (Z.odd (m / 2 ^ Z.of_nat n)), (Z.eqb_spec (m mod 2 ^ Z.of_nat n) 0) as [E|E];
    cbn [loc_of_shr_record negb round_nearest_even].
  - rewrite E. replace (2 * _ ?= _) with Eq by (symmetry; apply Z.compare_eq_iff; lia). done.
  - replace (2 * _ ?= _) with Gt by (symmetry; apply Z.compare_gt_iff; lia). done.
  - rewrite E. replace (2 * _ ?= _) with Lt by (symmetry; apply Z.compare_lt_iff; lia). done.
  - replace (2 * _ ?= _) with Lt by (symmetry; apply Z.compare_lt_iff; lia). done.
Qed.

Lemma rne_bounds m k : 0 <= k -> 2 * m - 2 ^ k <= 2 * (rne m k * 2 ^ k) <= 2 * m + 2 ^ k.
Proof.
  intros Hk. pose proof (pow2_pos k Hk). pose proof (Z.div_mod m (2 ^ k) ltac:(lia)) as E.
  pose proof (Z.mod_pos_bound m (2 ^ k) ltac:(lia)). unfold rne.
  destruct (Z.compare_spec (2 * (m mod 2 ^ k)) (2 ^ k)); [destruct (Z.even _)|..]; nia.
Qed.

Lemma rne_exact q k : 0 <= k -> rne (q * 2 ^ k) k = q.
Proof.
  intros Hk. pose proof (pow2_pos k Hk). unfold rne.
  rewrite Z.mod_mul, Z.div_mul by lia. rewrite (proj2 (Z.compare_lt_iff _ _)) by lia. done.
Qed.

Lemma rne_floor m k : rne m k = m / 2 ^ k \/ rne m k = m / 2 ^ k + 1.
Proof. unfold rne. destruct (_ ?= _); [destruct (Z.even _)|..]; auto. Qed.

Lemma rne_range m k d :
  0 <= k -> 0 <= d -> 2 ^ (d + k) <= m < 2 ^ (d + 1 + k) -> 2 ^ d <= rne m k <= 2 ^ (d + 1).
Proof.
  intros Hk Hd Hm. pose proof (pow2_pos k Hk). rewrite !Z.pow_add_r in Hm by lia.
  assert (2 ^ d <= m / 2 ^ k) by (apply Z.div_le_lower_bound; lia).
  assert (m / 2 ^ k < 2 ^ (d + 1)) by (rewrite Z.pow_add_r by lia; apply Z.div_lt_upper_bound; lia).
  destruct (rne_floor m k); lia.
Qed.

(** A mantissa that fits is kept. *)
Lemma round_aux_small s p e :
  digits (Zpos p) <= 53 -> -1074 <= e <= 971 ->
  binary_round_aux 53 1024 s (Zpos p) e loc_Exact = S754_finite s p e.
Proof.
  intros Hd He. unfold digits in Hd.
  assert (forall q, digits (Zpos q) <= 53 -> exists k, fexp 53 1024 (Zdigits2 (Zpos q) + e) - e = k /\ k <= 0)
    as Hk.
  { intros q Hq. eexists. split; [reflexivity|]. unfold fexp, emin. unfold digits in Hq. lia. }
  assert (shr_fexp 53 1024 (Zpos p) e loc_Exact = (Build_shr_record (Zpos p) false false, e)) as E.
  { unfold shr_fexp. destruct (Hk p Hd) as (k & -> & Hk0). by destruct k. }
  unfold binary_round_aux. rewrite E. cbn [shr_m loc_of_shr_record round_nearest_even].
  rewrite E. cbn [shr_m]. destruct (Z.leb_spec e (1024 - 53)); [done|lia].
Qed.

(** A mantissa that is too long is rounded to 53 bits. *)
Lemma round_aux_big s m e :
  0 < m -> 53 < digits m -> -1074 <= e -> digits m + e <= 1023 ->
  let k := digits m - 53 in
  exists q c, binary_round_aux 53 1024 s m e loc_Exact = S754_finite s q c /\
    2 ^ 52 <= Zpos q < 2 ^ 53 /\ e < c <= e + k + 1 /\
    (val (S754_finite false q c) == inject_Z (rne m k * 2 ^ k) * 2 ^ e)%Q.
Proof.
  intros Hm Hd He Hmax k. destruct (digits_bounds m Hm) as [_ Hb].
  pose proof (rne_range m k 52 ltac:(lia) ltac:(lia)) as Hq. unfold k in Hq at 1 2.
  replace (52 + (digits m - 53)) with (digits m - 1) in Hq by lia.
  replace (52 + 1 + (digits m - 53)) with (digits m) in Hq by lia.
  specialize (Hq Hb). replace (52 + 1) with 53 in Hq by done.
  unfold binary_round_aux, shr_fexp at 1.
  assert (fexp 53 1024 (Zdigits2 m + e) - e = k) as ->.
  { unfold fexp, emin, k, digits. unfold digits in Hd. lia. }
  destruct k as [|p|p] eqn:Ek; [lia| |lia]. cbn [shr shr_record_of_loc].
  rewrite round_shr by lia. set (q := rne m (Zpos p)) in *.
  assert (Hval : forall x c, (inject_Z x * 2 ^ c == inject_Z (q * 2 ^ Zpos p) * 2 ^ e)%Q <->
                            (inject_Z x * 2 ^ c == inject_Z q * 2 ^ (e + Zpos p))%Q).
  { intros x c. rewrite inject_Z_mult, Zpower_Qpower by lia.
    rewrite (Qpower_plus 2 e (Zpos p)) by discriminate.
    assert (inject_Z q * inject_Z 2 ^ Zpos p * 2 ^ e == inject_Z q * (2 ^ e * 2 ^ Zpos p))%Q as ->
      by (change (inject_Z 2) with 2%Q; ring). done. }
  unfold shr_fexp. destruct (Z.eq_dec q (2 ^ 53)) as [E|E].
  - rewrite E in Hval |- *. assert (fexp 53 1024 (Zdigits2 (2 ^ 53) + (e + Zpos p)) - (e + Zpos p) = 1) as ->.
    { change (Zdigits2 (2 ^ 53)) with 54. unfold fexp, emin. lia. }
    cbn [shr shr_record_of_loc SpecFloat.iter_pos]. change (shr_1 _) with (Build_shr_record (2 ^ 52) false false).
    cbn [shr_m]. change (2 ^ 52) with (Zpos 4503599627370496) at 1.
    destruct (Z.leb_spec (e + Zpos p + 1) (1024 - 53)); [|lia].
    eexists _, _. split; [reflexivity|]. split; [done|]. split; [lia|].
    unfold val. apply (Hval 4503599627370496). rewrite (Qpower_plus 2 (e + Zpos p) 1) by discriminate.
    change (inject_Z (2 ^ 53)) with (inject_Z (2 ^ 52) * 2)%Q.
    change (inject_Z 4503599627370496) with (inject_Z (2 ^ 52)). rewrite Qpower_1_r. ring.
  - assert (digits q = 53) as Ed by (apply digits_unique; [lia|change (53 - 1) with 52; lia]).
    assert (fexp 53 1024 (Zdigits2 q + (e + Zpos p)) - (e + Zpos p) = 0) as ->.
    { unfold digits in Ed. rewrite Ed. unfold fexp, emin. lia. }
    cbn [shr shr_record_of_loc shr_m]. destruct q as [|r|r] eqn:Er; [lia| |lia].
    destruct (Z.leb_spec (e + Zpos p) (1024 - 53)); [|lia].
    exists r, (e + Zpos p). split; [done|]. split; [lia|]. split; [lia|]. unfold val. by apply (Hval (Zpos r)).
Qed.

(** ** Exact results *)

(** A positive double with a full mantissa and an exponent of at most [n] in
    absolute value; all the doubles met below are of this kind or zero. *)
Definition normal (n : Z) (x : double) : Prop :=
  exists q c, x = S754_finite false q c /\ 2 ^ 52 <= Zpos q < 2 ^ 53 /\ - n <= c <= n.

Lemma digits_full q : 2 ^ 52 <= q < 2 ^ 53 -> digits q = 53.
Proof. intros H. apply digits_unique; [lia|done]. Qed.

Lemma pow2_scale (m e j : Z) : 0 <= j -> (inject_Z (m * 2 ^ j) * 2 ^ e == inject_Z m * 2 ^ (e + j))%Q.
Proof.
  intros Hj. rewrite inject_Z_mult, Zpower_Qpower by done.
  rewrite (Qpower_plus 2 e j) by discriminate. change (inject_Z 2) with 2%Q. ring.
Qed.

(** Rounding keeps a value of at most 53 significant bits. *)
Lemma round_aux_exact M j e n :
  0 < M < 2 ^ 53 -> 0 <= j -> 53 <= digits (M * 2 ^ j) <= 110 -> - n <= e <= n -> 0 <= n <= 800 ->
  exists z, M * 2 ^ j = Zpos z /\
  normal (n + 60) (binary_round_aux 53 1024 false (Zpos z) e loc_Exact) /\
  (val (binary_round_aux 53 1024 false (Zpos z) e loc_Exact) == inject_Z M * 2 ^ (e + j))%Q.
Proof.
  intros HM Hj Hd He Hn. pose proof (pow2_pos j Hj).
  assert (exists z, M * 2 ^ j = Zpos z) as [z Ez].
  { destruct (M * 2 ^ j) as [|z|z] eqn:E; [nia|eauto|nia]. }
  exists z. split; [done|]. rewrite <- (pow2_scale M e j Hj), Ez. rewrite Ez in Hd.
  destruct (Z.eq_dec (digits (Zpos z)) 53) as [E|E].
  - rewrite round_aux_small by lia. split; [|done]. exists z, e. split; [done|].
    destruct (digits_bounds (Zpos z)) as [_ Hb]; [lia|]. rewrite E in Hb. split; [exact Hb|lia].
  - destruct (round_aux_big false (Zpos z) e) as (q & c & Hr & Hq & Hc & Hv); [lia..|].
    rewrite Hr. pose proof (digits_bounds M ltac:(lia)) as [HdM HbM].
    assert (digits M <= 53).
    { rewrite digits_log2 by lia. pose proof (Z.log2_lt_pow2 M 53). lia. }
    assert (digits (Zpos z) = digits M + j) as Ed by (rewrite <- Ez; apply digits_shift; lia).
    set (k := digits (Zpos z) - 53) in *.
    assert (Zpos z = M * 2 ^ (j - k) * 2 ^ k) as Ek.
    { rewrite <- Ez, <- Z.mul_assoc, <- Z.pow_add_r by lia. do 2 f_equal. lia. }
    rewrite Ek, rne_exact, <- Ek in Hv by lia. split; [|done].
    exists q, c. split; [done|]. split; [done|lia].
Qed.

Lemma Pos_iter_xO p n : Zpos (Pos.iter xO p n) = Zpos p * 2 ^ Zpos n.
Proof.
  induction n as [|n IH] using Pos.peano_ind; [cbn; lia|].
  rewrite Pos.iter_succ, Pos2Z.inj_xO, IH, Pos2Z.inj_succ, Z.pow_succ_r; lia.
Qed.

(** A literal or a sum with at most 53 significant bits. *)
Lemma normalize_exact M j e n :
  0 < M < 2 ^ 53 -> 0 <= j -> digits (M * 2 ^ j) <= 110 -> - n <= e <= n -> 0 <= n <= 600 ->
  normal (n + 160) (binary_normalize 53 1024 (M * 2 ^ j) e false) /\
  (val (binary_normalize 53 1024 (M * 2 ^ j) e false) == inject_Z M * 2 ^ (e + j))%Q.
Proof.
  intros HM Hj Hd He Hn. pose proof (pow2_pos j Hj).
  assert (exists z, M * 2 ^ j = Zpos z) as [z Ez].
  { destruct (M * 2 ^ j) as [|z|z] eqn:E; [nia|eauto|nia]. }
  rewrite <- (pow2_scale M e j Hj), Ez. rewrite Ez in Hd. unfold binary_normalize, binary_round, shl_align.
  destruct (digits_bounds (Zpos z)) as [Hd1 Hb]; [lia|].
  change (Zpos (digits2_pos z)) with (digits (Zpos z)). unfold fexp, emin.
  replace (Z.max (digits (Zpos z) + e - 53) (3 - 1024 - 53) - e) with (digits (Zpos z) - 53) by lia.
  replace (Z.max (digits (Zpos z) + e - 53) (3 - 1024 - 53)) with (e + (digits (Zpos z) - 53)) by lia.
  destruct (digits (Zpos z) - 53) as [|k|k] eqn:Ek.
  - rewrite round_aux_small by lia. split; [|done]. exists z, e. split; [done|].
    replace (digits (Zpos z)) with 53 in Hb by lia. split; [exact Hb|lia].
  - destruct (round_aux_exact M j e n) as (z' & Ez' & H1 & H2); [lia|lia|rewrite Ez; lia|lia..|].
    rewrite Ez in Ez'. injection Ez' as <-. split.
    + destruct H1 as (q & c & E1 & E2 & E3). exists q, c. split; [done|]. split; [done|lia].
    + rewrite H2, <- (pow2_scale M e j Hj), Ez. done.
  - assert (digits (Zpos (Pos.iter xO z k)) = 53) as Ed.
    { rewrite Pos_iter_xO, digits_shift by lia. lia. }
    rewrite round_aux_small by lia. split.
    + exists (Pos.iter xO z k), (e + Zneg k). split; [done|].
      destruct (digits_bounds (Zpos (Pos.iter xO z k))) as [_ Hb']; [lia|]. rewrite Ed in Hb'.
      split; [exact Hb'|lia].
    + unfold val. rewrite Pos_iter_xO, pow2_scale by lia. by replace (e + Zneg k + Zpos k) with e by lia.
Qed.

(** [x] is the double with the value [M * 2^e], with [n] a bound for its
    exponent. *)
Definition is_dyadic (n : Z) (x : double) (M e : Z) : Prop :=
  0 <= M < 2 ^ 53 /\
  (M = 0 /\ x = S754_zero false \/
   0 < M /\ normal n x /\ (val x == inject_Z M * 2 ^ e)%Q).

Lemma is_dyadic_weaken n n' x M e : n <= n' -> is_dyadic n x M e -> is_dyadic n' x M e.
Proof.
  intros Hn [HM H]. split; [done|]. destruct H as [?|(? & (q & c & ? & ? & ?) & ?)]; [by left|right].
  split; [done|]. split; [|done]. exists q, c. split; [done|]. split; [done|lia].
Qed.

Lemma is_dyadic_val n x M e : is_dyadic n x M e -> (val x == inject_Z M * 2 ^ e)%Q.
Proof. intros [_ [[-> ->]|(_ & _ & H)]]; [cbn; ring|done]. Qed.

(** The mantissa of a full double from its value. *)
Lemma full_mantissa q c M e :
  2 ^ 52 <= q < 2 ^ 53 -> 0 < M < 2 ^ 53 -> (inject_Z q * 2 ^ c == inject_Z M * 2 ^ e)%Q ->
  0 <= e - c <= 52 /\ q = M * 2 ^ (e - c).
Proof.
  intros Hq HM Hv. destruct (Z.le_gt_cases c e) as [Hle|Hgt].
  - replace e with (c + (e - c)) in Hv by lia. rewrite <- pow2_scale in Hv by lia.
    apply Qmult_inj_r in Hv; [|apply Qpower_not_0; discriminate]. apply (proj1 (inject_Z_injective _ _)) in Hv.
    split; [|done]. split; [lia|]. destruct (Z.le_gt_cases (e - c) 52) as [|Hgt]; [done|exfalso].
    assert (2 ^ 53 <= 2 ^ (e - c)) by (apply Z.pow_le_mono_r; lia). nia.
  - replace c with (e + (c - e)) in Hv by lia. rewrite <- pow2_scale in Hv by lia.
    apply Qmult_inj_r in Hv; [|apply Qpower_not_0; discriminate]. apply (proj1 (inject_Z_injective _ _)) in Hv.
    assert (2 ^ 1 <= 2 ^ (c - e)) by (apply Z.pow_le_mono_r; lia). nia.
Qed.

Lemma dmul_exact n1 n2 x y M1 M2 e1 e2 :
  is_dyadic n1 x M1 e1 -> is_dyadic n2 y M2 e2 -> M1 * M2 < 2 ^ 53 ->
  0 <= n1 -> 0 <= n2 -> n1 + n2 <= 800 ->
  is_dyadic (n1 + n2 + 60) (dmul x y) (M1 * M2) (e1 + e2).
Proof.
  intros [R1 H1] [R2 H2] Hlt Hn1 Hn2 Hn. split; [nia|].
  destruct H1 as [[-> ->]|(P1 & (q1 & c1 & -> & Hq1 & Hc1) & V1)].
  { left. split; [done|]. destruct H2 as [[-> ->]|(_ & (q & c & -> & _) & _)]; done. }
  destruct H2 as [[-> ->]|(P2 & (q2 & c2 & -> & Hq2 & Hc2) & V2)].
  { left. split; [lia|done]. }
  right. split; [nia|]. unfold val in V1, V2.
  destruct (full_mantissa (Zpos q1) c1 M1 _ Hq1 ltac:(lia) V1) as [Hj1 E1].
  destruct (full_mantissa (Zpos q2) c2 M2 _ Hq2 ltac:(lia) V2) as [Hj2 E2].
  assert (M1 * M2 * 2 ^ ((e1 - c1) + (e2 - c2)) = Zpos (q1 * q2)) as E.
  { rewrite Pos2Z.inj_mul, E1, E2, Z.pow_add_r by lia. ring. }
  destruct (round_aux_exact (M1 * M2) ((e1 - c1) + (e2 - c2)) (c1 + c2) (n1 + n2))
    as (z & Ez & Hz & Hv); [nia|lia| |lia|lia|].
  { rewrite E. assert (2 ^ 104 <= Zpos (q1 * q2) < 2 ^ 106) as Hb.
    { rewrite Pos2Z.inj_mul. assert (2 ^ 104 = 2 ^ 52 * 2 ^ 52) by done.
      assert (2 ^ 106 = 2 ^ 53 * 2 ^ 53) by done. nia. }
    rewrite digits_log2 by lia. pose proof (Z.log2_le_mono (2 ^ 104) (Zpos (q1 * q2)) ltac:(lia)).
    pose proof (Z.log2_lt_pow2 (Zpos (q1 * q2)) 106 ltac:(lia)).
    rewrite Z.log2_pow2 in * by lia. lia. }
  rewrite E in Ez. injection Ez as <-. split; [exact Hz|].
  etrans; [exact Hv|]. by replace (c1 + c2 + (e1 - c1 + (e2 - c2))) with (e1 + e2) by lia.
Qed.

Lemma shl_align_fst p e e' :
  e' <= e -> Zpos (fst (shl_align p e e')) = Zpos p * 2 ^ (e - e').
Proof.
  intros He. unfold shl_align. destruct (e' - e) as [|d|d] eqn:E; cbn [fst].
  - replace (e - e') with 0 by lia. lia.
  - lia.
  - rewrite Pos_iter_xO. do 2 f_equal. lia.
Qed.

Lemma dadd_exact n x y M1 M2 e :
  is_dyadic n x M1 e -> is_dyadic n y M2 e -> M1 + M2 < 2 ^ 53 -> 0 <= n <= 600 ->
  is_dyadic (n + 160) (dadd x y) (M1 + M2) e.
Proof.
  intros [R1 H1] [R2 H2] Hlt Hn. split; [lia|].
  assert (forall z, normal n z -> normal (n + 160) z) as Hw.
  { intros z (q & c & -> & ? & ?). exists q, c. split; [done|]. split; [done|lia]. }
  destruct H1 as [[-> ->]|(P1 & N1 & V1)].
  { destruct H2 as [[-> ->]|(P2 & N2 & V2)]; [by left|right].
    split; [lia|]. destruct N2 as (q & c & -> & ?). split; [apply Hw; by exists q, c|done]. }
  right. split; [lia|]. destruct N1 as (q1 & c1 & -> & Hq1 & Hc1).
  destruct H2 as [[-> ->]|(P2 & (q2 & c2 & -> & Hq2 & Hc2) & V2)].
  { rewrite Z.add_0_r. split; [apply Hw; by exists q1, c1|done]. }
  unfold val in V1, V2.
  destruct (full_mantissa (Zpos q1) c1 M1 _ Hq1 ltac:(lia) V1) as [Hj1 E1].
  destruct (full_mantissa (Zpos q2) c2 M2 _ Hq2 ltac:(lia) V2) as [Hj2 E2].
  unfold dadd, SFadd. set (ez := Z.min c1 c2). cbn [cond_Zopp].
  rewrite !shl_align_fst by (unfold ez; lia). rewrite E1, E2.
  assert (forall M c, 0 <= e - c -> ez <= c -> M * 2 ^ (e - c) * 2 ^ (c - ez) = M * 2 ^ (e - ez)) as Hs.
  { intros M c Hc Hz. rewrite <- Z.mul_assoc, <- Z.pow_add_r by lia. do 2 f_equal. lia. }
  rewrite !Hs, <- Z.mul_add_distr_r by (unfold ez; lia).
  destruct (normalize_exact (M1 + M2) (e - ez) ez n) as [Hz Hv]; [lia|unfold ez; lia| |unfold ez; lia|lia|].
  { rewrite digits_shift by (unfold ez; lia). rewrite digits_log2 by lia.
    pose proof (Z.log2_lt_pow2 (M1 + M2) 53 ltac:(lia)). unfold ez. lia. }
  split; [exact Hz|]. etrans; [exact Hv|]. by replace (ez + (e - ez)) with e by lia.
Qed.

Lemma lit_exact M e n :
  0 <= M < 2 ^ 53 -> - n <= e <= n -> 0 <= n <= 600 -> is_dyadic (n + 160) (lit M e) M e.
Proof.
  intros HM He Hn. split; [done|]. destruct (Z.eq_dec M 0) as [->|Hne]; [by left|right].
  split; [lia|]. destruct (normalize_exact M 0 e n) as [Hz Hv]; [lia|done| |done|done|].
  { rewrite Z.mul_1_r, digits_log2 by lia. pose proof (Z.log2_lt_pow2 M 53 ltac:(lia)). lia. }
  rewrite Z.mul_1_r, Z.add_0_r in *. done.
Qed.

Lemma double_of_exact M : 0 <= M < 2 ^ 53 -> is_dyadic 160 (double_of M) M 0.
Proof. intros HM. by apply (lit_exact M 0 0). Qed.

(** ** Rounding stays below a power of two *)

Lemma rne_le_pow2 m k j : 0 <= k <= j -> m <= 2 ^ j -> rne m k * 2 ^ k <= 2 ^ j.
Proof.
  intros Hk Hm. pose proof (rne_bounds m k ltac:(lia)). pose proof (pow2_pos k ltac:(lia)).
  replace j with ((j - k) + k) in * by lia. rewrite Z.pow_add_r in * by lia.
  enough (rne m k <= 2 ^ (j - k)) by nia. nia.
Qed.
