(* ===== verification/MtReal.v ===== *)
(** * mt19937ar.c: the generators of real numbers

    [genrand_real1], [genrand_real2], [genrand_real3] and [genrand_res53] of
    [concurrency/concurrency1/mt19937ar.c], on the doubles of [Binary64.v].  The
    intervals in the comments of the source are proved for the values that the
    double arithmetic gives, not for the real quotients. *)

From S2P Require Import Prelude Mt19937 Binary64.
From Stdlib Require Import SpecFloat QArith Qpower.
#[local] Open Scope Z_scope.

Section Defs.
Context (W : Z).

(** [genrand_int32 () * (1.0 / 4294967295.0)]. *)
Definition genrand_real1 (g : generator) : double * generator :=
  let '(y, g) := genrand_int32 W g in
  (dmul (double_of y) (ddiv (lit 1 0) (lit 4294967295 0)), g).

(** [genrand_int32 () * (1.0 / 4294967296.0)]. *)
Definition genrand_real2 (g : generator) : double * generator :=
  let '(y, g) := genrand_int32 W g in
  (dmul (double_of y) (ddiv (lit 1 0) (lit 4294967296 0)), g).

(** [((double) genrand_int32 () + 0.5) * (1.0 / 4294967296.0)]. *)
Definition genrand_real3 (g : generator) : double * generator :=
  let '(y, g) := genrand_int32 W g in
  (dmul (dadd (double_of y) (lit 1 (-1))) (ddiv (lit 1 0) (lit 4294967296 0)), g).

(** [a = genrand_int32 () >> 5, b = genrand_int32 () >> 6], and
    [(a * 67108864.0 + b) * (1.0 / 9007199254740992.0)]. *)
Definition genrand_res53 (g : generator) : double * generator :=
  let '(y, g) := genrand_int32 W g in
  let a := Z.shiftr y 5 in
  let '(y, g) := genrand_int32 W g in
  let b := Z.shiftr y 6 in
  (dmul (dadd (dmul (double_of a) (lit 67108864 0)) (double_of b))
     (ddiv (lit 1 0) (lit 9007199254740992 0)), g).

End Defs.

(** ** The constants *)

Lemma inv_2_32 : is_dyadic 100 (ddiv (lit 1 0) (lit 4294967296 0)) 1 (-32).
Proof.
  split; [done|]. right. split; [done|].
  replace (ddiv _ _) with (S754_finite false 4503599627370496 (-84)) by (by vm_compute).
  split; [|by vm_compute]. eexists _, _. split; [reflexivity|]. split; [done|lia].
Qed.

Lemma inv_2_53 : is_dyadic 110 (ddiv (lit 1 0) (lit 9007199254740992 0)) 1 (-53).
Proof.
  split; [done|]. right. split; [done|].
  replace (ddiv _ _) with (S754_finite false 4503599627370496 (-105)) by (by vm_compute).
  split; [|by vm_compute]. eexists _, _. split; [reflexivity|]. split; [done|lia].
Qed.

Lemma dyadic_scale n x M e j :
  is_dyadic n x M e -> 0 <= j -> M * 2 ^ j < 2 ^ 53 -> is_dyadic n x (M * 2 ^ j) (e - j).
Proof.
  intros [HM H] Hj Hlt. pose proof (pow2_pos j Hj). split; [nia|].
  destruct H as [[-> ->]|(Hp & Hn & Hv)]; [by left|right].
  split; [nia|]. split; [done|]. rewrite pow2_scale by done. by replace (e - j + j) with e by lia.
Qed.

(** ** The values *)

(** Values of a dyadic in [0, 1). *)
Lemma dyadic_unit n x M k :
  is_dyadic n x M (- k) -> 0 <= k -> M < 2 ^ k ->
  (0 <= val x /\ val x < 1)%Q /\ (0 < M -> (0 < val x)%Q).
Proof.
  intros Hx Hk Hlt. pose proof (is_dyadic_val _ _ _ _ Hx) as ->. destruct Hx as [HM _].
  assert (0 < 2 ^ (- k))%Q as Hp by (apply Qpower_0_lt; done).
  assert (inject_Z (2 ^ k) * 2 ^ (- k) == 1)%Q as E1.
  { rewrite Zpower_Qpower by done. change (inject_Z 2) with 2%Q.
    rewrite <- Qpower_plus by discriminate. by replace (k + - k) with 0 by lia. }
  split; [split|].
  - apply Qmult_le_0_compat; [|by apply Qlt_le_weak].
    change 0%Q with (inject_Z 0). rewrite <- Zle_Qle. lia.
  - rewrite <- E1. apply Qmult_lt_r; [done|]. by rewrite <- Zlt_Qlt.
  - intros H0. apply Qmult_lt_0_compat; [|done].
    change 0%Q with (inject_Z 0). by rewrite <- Zlt_Qlt.
Qed.

Lemma real2_dyadic y :
  word y -> is_dyadic 320 (dmul (double_of y) (ddiv (lit 1 0) (lit 4294967296 0))) y (- 32).
Proof.
  intros Hy. unfold word, in_u in Hy.
  pose proof (dmul_exact _ _ _ _ _ _ _ _ (double_of_exact y ltac:(lia)) inv_2_32) as H.
  rewrite Z.mul_1_r in H. apply H; lia.
Qed.

Lemma real3_dyadic y :
  word y ->
  is_dyadic 600 (dmul (dadd (double_of y) (lit 1 (-1))) (ddiv (lit 1 0) (lit 4294967296 0)))
    (2 * y + 1) (- 33).
Proof.
  intros Hy. unfold word, in_u in Hy.
  assert (is_dyadic 170 (double_of y) (y * 2 ^ 1) (0 - 1)) as H1.
  { apply dyadic_scale; [|done|lia]. apply (is_dyadic_weaken 160); [lia|]. apply double_of_exact. lia. }
  assert (is_dyadic 170 (lit 1 (-1)) 1 (0 - 1)) as H2 by (apply (lit_exact 1 (-1) 10); lia).
  pose proof (dadd_exact _ _ _ _ _ _ H1 H2 ltac:(lia) ltac:(lia)) as H3.
  pose proof (dmul_exact _ _ _ _ _ _ _ _ H3 inv_2_32) as H4.
  rewrite Z.mul_1_r in H4. replace (2 * y + 1) with (y * 2 ^ 1 + 1) by lia.
  eapply is_dyadic_weaken; [|apply H4]; lia.
Qed.

Lemma res53_dyadic a b :
  0 <= a < 2 ^ 27 -> 0 <= b < 2 ^ 26 ->
  is_dyadic 800
    (dmul (dadd (dmul (double_of a) (lit 67108864 0)) (double_of b))
       (ddiv (lit 1 0) (lit 9007199254740992 0)))
    (a * 67108864 + b) (- 53).
Proof.
  intros Ha Hb.
  pose proof (lit_exact 67108864 0 0 ltac:(lia) ltac:(lia) ltac:(lia)) as H1.
  pose proof (dmul_exact _ _ _ _ _ _ _ _ (double_of_exact a ltac:(lia)) H1 ltac:(lia)
                ltac:(lia) ltac:(lia) ltac:(lia)) as H2.
  pose proof (is_dyadic_weaken 160 (160 + (0 + 160) + 60) _ b 0 ltac:(lia)
                (double_of_exact b ltac:(lia))) as H3.
  pose proof (dadd_exact _ _ _ _ _ _ H2 H3 ltac:(lia) ltac:(lia)) as H4.
  pose proof (dmul_exact _ _ _ _ _ _ _ _ H4 inv_2_53) as H5.
  rewrite Z.mul_1_r in H5. eapply is_dyadic_weaken; [|apply H5]; lia.
Qed.

(** [1.0 / 4294967295.0] is rounded down, to [(2^32 + 1) / 2^64]. *)
Lemma inv_2_32_1 :
  ddiv (lit 1 0) (lit 4294967295 0) = S754_finite false 4503599628419072 (-84) /\
  4503599628419072 = (2 ^ 32 + 1) * 2 ^ 20.
Proof. by vm_compute. Qed.

Lemma real1_range y :
  word y -> 0 < y ->
  let x := dmul (double_of y) (ddiv (lit 1 0) (lit 4294967295 0)) in (0 < val x /\ val x <= 1)%Q.
Proof.
  intros Hy Hp x. unfold word, in_u in Hy.
  destruct (double_of_exact y) as [_ [[? _]|(_ & (q & c & Eq & Hq & _) & Hv)]]; [lia|lia|].
  unfold x. rewrite Eq in Hv |- *. unfold val in Hv.
  destruct (full_mantissa (Zpos q) c y 0 Hq ltac:(lia) Hv) as [Hc Em].
  destruct inv_2_32_1 as [-> E1]. unfold dmul, SFmul. cbn [xorb].
  set (P := (q * 4503599628419072)%positive).
  assert (Zpos P = y * (2 ^ 32 + 1) * 2 ^ (20 - c)) as EP.
  { unfold P. rewrite Pos2Z.inj_mul, Em, E1. replace (20 - c) with (0 - c + 20) by lia.
    rewrite Z.pow_add_r by lia. ring. }
  assert (2 ^ 104 <= Zpos P < 2 ^ 106) as HP.
  { unfold P. rewrite Pos2Z.inj_mul. assert (2 ^ 104 = 2 ^ 52 * 2 ^ 52) by done.
    assert (2 ^ 106 = 2 ^ 53 * 2 ^ 53) by done. nia. }
  assert (105 <= digits (Zpos P) <= 106) as Hd.
  { rewrite digits_log2 by lia. pose proof (Z.log2_le_mono (2 ^ 104) (Zpos P) ltac:(lia)).
    pose proof (Z.log2_lt_pow2 (Zpos P) 106 ltac:(lia)). rewrite Z.log2_pow2 in * by lia. lia. }
  destruct (round_aux_big false (Zpos P) (c + -84)) as (r & e & -> & _ & _ & Hr); [lia..|].
  set (k := digits (Zpos P) - 53) in *.
  assert (0 < 2 ^ (c + -84))%Q as Hpos by (apply Qpower_0_lt; done). split.
  - unfold val. apply Qmult_lt_0_compat; [done|]. by apply Qpower_0_lt.
  - rewrite Hr.
    assert (1 == inject_Z (2 ^ (84 - c)) * 2 ^ (c + -84))%Q as ->.
    { rewrite Zpower_Qpower by lia. change (inject_Z 2) with 2%Q.
      rewrite <- Qpower_plus by discriminate. by replace (84 - c + (c + -84)) with 0 by lia. }
    apply Qmult_le_compat_r; [|by apply Qlt_le_weak]. rewrite <- Zle_Qle.
    apply rne_le_pow2; [lia|]. rewrite EP. replace (84 - c) with (64 + (20 - c)) by lia.
    rewrite (Z.pow_add_r 2 64) by lia. apply Z.mul_le_mono_nonneg_r; [lia|].
    change (2 ^ 64) with ((2 ^ 32 - 1) * (2 ^ 32 + 1) + 1). lia.
Qed.

(** ** The generators *)

Lemma reals_exact W g :
  32 <= W -> gen_ok g ->
  let '(y, g1) := genrand_int32 W g in
  let '(y', g2) := genrand_int32 W g1 in
  (genrand_real2 W g).2 = g1 /\ (genrand_real3 W g).2 = g1 /\ (genrand_res53 W g).2 = g2 /\
  let x2 := (genrand_real2 W g).1 in
  let x3 := (genrand_real3 W g).1 in
  let x53 := (genrand_res53 W g).1 in
  (val x2 == inject_Z y * 2 ^ (-32) /\ 0 <= val x2 /\ val x2 < 1)%Q /\
  (val x3 == inject_Z (2 * y + 1) * 2 ^ (-33) /\ 0 < val x3 /\ val x3 < 1)%Q /\
  (val x53 == inject_Z (y / 32 * 2 ^ 26 + y' / 64) * 2 ^ (-53) /\ 0 <= val x53 /\ val x53 < 1)%Q.
Proof.
  intros HW Hg. destruct (genrand_int32_ok W g HW Hg) as [Hy Hg1].
  unfold genrand_real2, genrand_real3, genrand_res53.
  destruct (genrand_int32 W g) as [y g1]. cbn [fst snd] in *.
  destruct (genrand_int32_ok W g1 HW Hg1) as [Hy' Hg2].
  destruct (genrand_int32 W g1) as [y' g2]. cbn [fst snd] in *.
  do 3 (split; [done|]).
  pose proof (real2_dyadic y Hy) as D2. pose proof (real3_dyadic y Hy) as D3.
  unfold word, in_u in Hy, Hy'.
  assert (0 <= y / 32 < 2 ^ 27) as Ha by (split; [apply Z.div_pos|apply Z.div_lt_upper_bound]; lia).
  assert (0 <= y' / 64 < 2 ^ 26) as Hb by (split; [apply Z.div_pos|apply Z.div_lt_upper_bound]; lia).
  rewrite !Z.shiftr_div_pow2 by lia. change (2 ^ 5) with 32. change (2 ^ 6) with 64.
  pose proof (res53_dyadic _ _ Ha Hb) as D53. change 67108864 with (2 ^ 26) in D53 at 2.
  split; [|split].
  - split; [by eapply is_dyadic_val|]. by destruct (dyadic_unit _ _ _ 32 D2) as [H _]; [lia..|].
  - split; [by eapply is_dyadic_val|].
    destruct (dyadic_unit _ _ _ 33 D3) as [[_ H1] H2]; [lia..|]. split; [apply H2; lia|done].
  - split; [by eapply is_dyadic_val|]. by destruct (dyadic_unit _ _ _ 53 D53) as [H _]; [lia..|].
Qed.

(** [genrand_real1] rounds both its constant and its product. *)
Lemma real1_closed W g :
  32 <= W -> gen_ok g ->
  let y := (genrand_int32 W g).1 in
  let x := val (genrand_real1 W g).1 in
  (0 <= x /\ x <= 1)%Q /\ ((x == 0)%Q <-> y = 0) /\ (y = 0xffffffff -> (x == 1)%Q).
Proof.
  intros HW Hg. destruct (genrand_int32_ok W g HW Hg) as [Hy _]. unfold genrand_real1.
  destruct (genrand_int32 W g) as [y g1]. cbn [fst snd] in *.
  destruct (Z.eq_dec y 0) as [->|Hne].
  { split; [done|]. split; [done|]. by intros. }
  destruct (real1_range y Hy) as [H0 H1]; [unfold word, in_u in Hy; lia|].
  split; [split; [by apply Qlt_le_weak|done]|]. split.
  - split; [|done]. intros E. rewrite E in H0. by apply Qlt_irrefl in H0.
  - intros ->. by vm_compute.
Qed.

(** C13: the double arithmetic of [genrand_real2], [genrand_real3] and
    [genrand_res53] never rounds: for the words [y] (and [y']) that the calls of
    [genrand_int32] return, the results are exactly [y / 2^32], [(y + 1/2) / 2^32]
    and [(floor (y / 32) * 2^26 + floor (y' / 64)) / 2^53], so they lie in the
    intervals that the comments give, [0,1), (0,1) and [0,1); each advances the
    generator by one call, [genrand_res53] by two.  [genrand_real1] is in the
    closed interval [0,1] of its comment although its constant and its product
    are rounded: the result is 0 exactly for the word 0, and exactly 1 for the
    largest word. *)
Theorem genrand_reals W g :
  32 <= W -> gen_ok g ->
  (let '(y, g1) := genrand_int32 W g in
   let '(y', g2) := genrand_int32 W g1 in
   (genrand_real2 W g).2 = g1 /\ (genrand_real3 W g).2 = g1 /\ (genrand_res53 W g).2 = g2 /\
   let x2 := (genrand_real2 W g).1 in
   let x3 := (genrand_real3 W g).1 in
   let x53 := (genrand_res53 W g).1 in
   (val x2 == inject_Z y * 2 ^ (-32) /\ 0 <= val x2 /\ val x2 < 1)%Q /\
   (val x3 == inject_Z (2 * y + 1) * 2 ^ (-33) /\ 0 < val x3 /\ val x3 < 1)%Q /\
   (val x53 == inject_Z (y / 32 * 2 ^ 26 + y' / 64) * 2 ^ (-53) /\ 0 <= val x53 /\ val x53 < 1)%Q) /\
  (let y := (genrand_int32 W g).1 in
   let x := val (genrand_real1 W g).1 in
   (0 <= x /\ x <= 1)%Q /\ ((x == 0)%Q <-> y = 0) /\ (y = 0xffffffff -> (x == 1)%Q)).
Proof. intros HW Hg. split; [by apply reals_exact|by apply real1_closed]. Qed.

Lemma genrand_reals_witness :
  let x1 := (genrand_real1 32 static_generator).1 in
  let x2 := (genrand_real2 32 static_generator).1 in
  (val x1 <= 1)%Q /\ (0 <= val x2 /\ val x2 < 1)%Q.
Proof.
  destruct (genrand_reals 32 static_generator ltac:(lia) static_ok) as [H [[_ H1] _]].
  split; [exact H1|]. destruct (genrand_int32 32 static_generator) as [y g1].
  destruct (genrand_int32 32 g1) as [y' g2].
  destruct H as (_ & _ & _ & (_ & H) & _). exact H.
Defined.
