(* ===== verification/ProduceConsume.v ===== *)
(** * produce_consume.c: a bounded stack shared by two threads

    [concurrency/concurrency1/produce_consume.c]: the buffer and its [push]
    and [pop], the random numbers, and the threads [produce] and [consume] as
    a step relation with one step per access to shared state: a thread that
    waits for the mutex has no step until the mutex is free.  [history] records
    the pushes and pops in the order in which they happen, [out] what the
    program prints; they are observations and no step reads them.

    What the program takes from the machine is a parameter: the [ecx] that
    [cpuid] returns, the register and carry flag that each [rdrand] returns,
    and the value of [abs (INT_MIN)], which C leaves undefined. *)

From S2P Require Import Prelude Mt19937.

(** ** The program *)

Definition BUFFSIZE : nat := 32.

Record buffer_entry : Type := { num : Z; work_time : Z }.

#[export] Instance buffer_entry_inhabited : Inhabited buffer_entry :=
  populate {| num := 0; work_time := 0 |}.

#[export] Instance buffer_entry_eq_dec : EqDecision buffer_entry.
Proof. solve_decision. Defined.

Inductive thread : Type := Producer | Consumer.

#[export] Instance thread_eq_dec : EqDecision thread.
Proof. solve_decision. Defined.

(** [stop] is the holder of the mutex. *)
Record buffer_arr : Type := {
  entries : list buffer_entry;
  size : Z;
  stop : option thread
}.

(** What the program prints. *)
Inductive message : Type :=
| start_line
| produced_number (num wait : Z)
| consumed_number (work_time num : Z)
| stack_full
| cannot_pop.

(** [b->entries[i] = e] and the read [b->entries[i]]; an index outside the
    array is undefined behaviour. *)
Definition set_entry (b : buffer_arr) (i : Z) (e : buffer_entry) : res (list buffer_entry) :=
  if (0 <=? i) && (i <? Z.of_nat (length (entries b)))
  then Ok (<[Z.to_nat i := e]> (entries b)) else Fault.

Definition get_entry (b : buffer_arr) (i : Z) : res buffer_entry :=
  if 0 <=? i then
    match entries b !! Z.to_nat i with Some e => Ok e | None => Fault end
  else Fault.

Definition push (b : buffer_arr) (e : buffer_entry) : res (buffer_arr * list message) :=
  if size b <? Z.of_nat BUFFSIZE then
    let! es := set_entry b (size b) e in
    Ok ({| entries := es; size := size b + 1; stop := stop b |}, [])
  else Ok (b, [stack_full]).

Definition pop (b : buffer_arr) : res (buffer_entry * buffer_arr * list message) :=
  if 0 <? size b then
    let b := {| entries := entries b; size := size b - 1; stop := stop b |} in
    let! e := get_entry b (size b) in
    Ok (e, b, [])
  else
    let! e := get_entry b (size b) in
    Ok (e, b, [cannot_pop]).

Section Defs.
Context (W : Z) (ecx : Z) (abs_int_min : Z).

Definition INT_MIN : Z := - 2 ^ 31.

(** [rdrand] leaves a register value and a carry flag; the caller of
    [asm_rand] ignores the flag that it returns. *)
Definition asm_rand (rd : Z * bool) : Z * Z := (rd.1, if rd.2 then 1 else 0).

Definition abs (x : Z) : Z := if x =? INT_MIN then abs_int_min else Z.abs x.

(** [a % b] on [int]. *)
Definition int_rem (a b : Z) : res Z :=
  if b =? 0 then Fault
  else if (b =? -1) && (a =? INT_MIN) then Fault
  else Ok (Z.rem a b).

Definition random_num (rd : Z * bool) (g : generator) (min max : Z) : res (Z * generator) :=
  let flag_RDRAND := Z.shiftl 1 30 in
  let '(tmp, g) :=
    if negb (Z.land ecx flag_RDRAND =? 0) then ((asm_rand rd).1, g)
    else let '(y, g) := genrand_int32 W g in (wrap_s 32 y, g) in
  let tmp := abs tmp in
  let! tmp := int_rem tmp (max - min) in
  Ok (if tmp <? min then min else tmp, g).

(** ** The threads *)

(** Where [produce] is: at the top of its loop, in [sleep (wait)], waiting for
    the mutex with a new entry, holding it, about to release it. *)
Inductive producer_pc : Type :=
| p_top
| p_sleep (wait : Z)
| p_lock (wait : Z) (e : buffer_entry)
| p_locked (wait : Z) (e : buffer_entry)
| p_unlock.

(** Where [consume] is: waiting for the mutex, holding it, in
    [sleep (e.work_time)] with the mutex held, about to release it. *)
Inductive consumer_pc : Type :=
| c_lock
| c_locked
| c_sleep (e : buffer_entry)
| c_unlock.

Inductive op : Type := Push (e : buffer_entry) | Pop (e : buffer_entry).

Record program : Type := {
  buf : buffer_arr;
  gen : generator;
  producer : producer_pc;
  consumer : consumer_pc;
  history : list op;
  out : list message
}.

Definition with_stop (b : buffer_arr) (o : option thread) : buffer_arr :=
  {| entries := entries b; size := size b; stop := o |}.

Inductive step : program -> program -> Prop :=
(* wait = random_num(3, 7); *)
| produce_wait b g c h o rd wait g' :
    in_s 32 rd.1 ->
    random_num rd g 3 7 = Ok (wait, g') ->
    step {| buf := b; gen := g; producer := p_top; consumer := c; history := h; out := o |}
         {| buf := b; gen := g'; producer := p_sleep wait; consumer := c; history := h; out := o |}
(* sleep(wait); e.work_time = random_num(2, 9); e.num = random_num(0, 10); *)
| produce_entry b g c h o wait rd1 rd2 w g1 n g2 :
    in_s 32 rd1.1 -> in_s 32 rd2.1 ->
    random_num rd1 g 2 9 = Ok (w, g1) ->
    random_num rd2 g1 0 10 = Ok (n, g2) ->
    step {| buf := b; gen := g; producer := p_sleep wait; consumer := c; history := h; out := o |}
         {| buf := b; gen := g2; producer := p_lock wait {| num := n; work_time := w |};
            consumer := c; history := h; out := o |}
(* pthread_mutex_lock(&b->stop); *)
| produce_lock b g c h o wait e :
    stop b = None ->
    step {| buf := b; gen := g; producer := p_lock wait e; consumer := c; history := h; out := o |}
         {| buf := with_stop b (Some Producer); gen := g; producer := p_locked wait e;
            consumer := c; history := h; out := o |}
(* if (b->size < BUFFSIZE) { push(b, e); printf(...); } *)
| produce_push b g c h o wait e b' m :
    size b < Z.of_nat BUFFSIZE ->
    push b e = Ok (b', m) ->
    step {| buf := b; gen := g; producer := p_locked wait e; consumer := c; history := h; out := o |}
         {| buf := b'; gen := g; producer := p_unlock; consumer := c; history := h ++ [Push e];
            out := o ++ m ++ [produced_number (num e) wait] |}
| produce_full b g c h o wait e :
    Z.of_nat BUFFSIZE <= size b ->
    step {| buf := b; gen := g; producer := p_locked wait e; consumer := c; history := h; out := o |}
         {| buf := b; gen := g; producer := p_unlock; consumer := c; history := h; out := o |}
(* pthread_mutex_unlock(&b->stop); *)
| produce_unlock b g c h o :
    step {| buf := b; gen := g; producer := p_unlock; consumer := c; history := h; out := o |}
         {| buf := with_stop b None; gen := g; producer := p_top; consumer := c;
            history := h; out := o |}
(* pthread_mutex_lock(&b->stop); *)
| consume_lock b g p h o :
    stop b = None ->
    step {| buf := b; gen := g; producer := p; consumer := c_lock; history := h; out := o |}
         {| buf := with_stop b (Some Consumer); gen := g; producer := p; consumer := c_locked;
            history := h; out := o |}
(* if (b->size > 0) { buffer_entry e = pop(b); *)
| consume_pop b g p h o e b' m :
    0 < size b ->
    pop b = Ok (e, b', m) ->
    step {| buf := b; gen := g; producer := p; consumer := c_locked; history := h; out := o |}
         {| buf := b'; gen := g; producer := p; consumer := c_sleep e; history := h ++ [Pop e];
            out := o ++ m |}
| consume_empty b g p h o :
    size b <= 0 ->
    step {| buf := b; gen := g; producer := p; consumer := c_locked; history := h; out := o |}
         {| buf := b; gen := g; producer := p; consumer := c_unlock; history := h; out := o |}
(* sleep(e.work_time); printf(...); *)
| consume_print b g p h o e :
    step {| buf := b; gen := g; producer := p; consumer := c_sleep e; history := h; out := o |}
         {| buf := b; gen := g; producer := p; consumer := c_unlock; history := h;
            out := o ++ [consumed_number (work_time e) (num e)] |}
(* pthread_mutex_unlock(&b->stop); *)
| consume_unlock b g p h o :
    step {| buf := b; gen := g; producer := p; consumer := c_unlock; history := h; out := o |}
         {| buf := with_stop b None; gen := g; producer := p; consumer := c_lock;
            history := h; out := o |}.

(** [main]: the entries are not initialised. *)
Definition main_state (garbage : list buffer_entry) (g : generator) : program :=
  {| buf := {| entries := garbage; size := 0; stop := None |}; gen := g;
     producer := p_top; consumer := c_lock; history := []; out := [start_line] |}.

Definition reachable (s : program) : Prop :=
  exists garbage, length garbage = BUFFSIZE /\ rtc step (main_state garbage static_generator) s.

End Defs.

(** ** Specification: a stack of at most 32 entries *)

(** The contents, top first. *)
Definition contents (b : buffer_arr) : list buffer_entry :=
  reverse (take (Z.to_nat (size b)) (entries b)).

(** A sequence of pushes and pops run on a stack: [None] if a push finds the
    stack full or a pop does not return the top. *)
Fixpoint run_stack (h : list op) (s : list buffer_entry) : option (list buffer_entry) :=
  match h with
  | [] => Some s
  | Push e :: h => if decide (length s < BUFFSIZE)%nat then run_stack h (e :: s) else None
  | Pop e :: h =>
    match s with
    | x :: s => if decide (x = e) then run_stack h s else None
    | [] => None
    end
  end.

Definition buffer_ok (b : buffer_arr) : Prop :=
  length (entries b) = BUFFSIZE /\ 0 <= size b <= Z.of_nat BUFFSIZE.

Definition producer_holds (p : producer_pc) : bool :=
  match p with p_locked _ _ | p_unlock => true | _ => false end.

Definition consumer_holds (c : consumer_pc) : bool :=
  match c with c_lock => false | _ => true end.

(** Who holds the mutex, read off from where the threads are. *)
Definition holder (p : producer_pc) (c : consumer_pc) : option thread :=
  if producer_holds p then Some Producer else if consumer_holds c then Some Consumer else None.

(** The ranges that the calls of [random_num] give. *)
Definition entry_ok (e : buffer_entry) : Prop := 2 <= work_time e <= 6 /\ 0 <= num e <= 9.

Definition message_ok (m : message) : Prop :=
  match m with
  | produced_number n wait => 0 <= n <= 9 /\ wait = 3
  | consumed_number w n => 2 <= w <= 6 /\ 0 <= n <= 9
  | start_line => True
  | stack_full | cannot_pop => False
  end.

(** The line printed for an operation: the producer's wait is always 3. *)
Definition line_of (x : op) : message :=
  match x with
  | Push e => produced_number (num e) 3
  | Pop e => consumed_number (work_time e) (num e)
  end.

(** What the consumer has popped and not printed yet. *)
Definition unprinted (c : consumer_pc) : list message :=
  match c with c_sleep e => [line_of (Pop e)] | _ => [] end.

Definition producer_ok (p : producer_pc) : Prop :=
  match p with
  | p_sleep wait => wait = 3
  | p_lock wait e | p_locked wait e => wait = 3 /\ entry_ok e
  | _ => True
  end.

Definition consumer_ok (c : consumer_pc) : Prop :=
  match c with c_sleep e => entry_ok e | _ => True end.

Record program_ok (s : program) : Prop := {
  po_buf : buffer_ok (buf s);
  po_gen : gen_ok (gen s);
  po_stop : stop (buf s) = holder (producer s) (consumer s);
  po_excl : producer_holds (producer s) && consumer_holds (consumer s) = false;
  po_history : run_stack (history s) [] = Some (contents (buf s));
  po_entries : Forall entry_ok (contents (buf s));
  po_producer : producer_ok (producer s);
  po_consumer : consumer_ok (consumer s);
  po_lines : out s ++ unprinted (consumer s) = start_line :: map line_of (history s);
  po_out : Forall message_ok (out s)
}.

(** ** push and pop *)

Lemma contents_length b : buffer_ok b -> length (contents b) = Z.to_nat (size b).
Proof.
  intros [Hl Hs]. unfold contents. rewrite length_reverse, length_take. lia.
Qed.

Lemma push_ok b e :
  buffer_ok b -> size b < Z.of_nat BUFFSIZE ->
  exists b', push b e = Ok (b', []) /\ buffer_ok b' /\ contents b' = e :: contents b /\
    stop b' = stop b.
Proof.
  intros [Hl Hs] Hlt. unfold push, set_entry. destruct (Z.ltb_spec (size b) (Z.of_nat BUFFSIZE)); [|lia].
  destruct (Z.leb_spec 0 (size b)); [|lia].
  destruct (Z.ltb_spec (size b) (Z.of_nat (length (entries b)))); [|lia]. cbn [andb res_bind].
  eexists. split; [reflexivity|]. split; [|split; [|done]].
  - split; cbn [entries size]; [by rewrite length_insert|lia].
  - unfold contents. cbn [entries size]. rewrite Z2Nat.inj_add by lia.
    replace (Z.to_nat (size b) + Z.to_nat 1)%nat with (S (Z.to_nat (size b))) by lia.
    rewrite (take_S_r _ _ e) by (apply list_lookup_insert_eq; lia).
    by rewrite take_insert_ge, reverse_snoc by lia.
Qed.

Lemma pop_ok b :
  buffer_ok b -> 0 < size b ->
  exists e b', pop b = Ok (e, b', []) /\ buffer_ok b' /\ contents b = e :: contents b' /\
    stop b' = stop b.
Proof.
  intros [Hl Hs] Hlt. unfold pop, get_entry. destruct (Z.ltb_spec 0 (size b)); [|lia].
  cbn [entries size]. destruct (Z.leb_spec 0 (size b - 1)); [|lia].
  destruct (lookup_lt_is_Some_2 (entries b) (Z.to_nat (size b - 1))) as [e He]; [lia|].
  rewrite He. cbn [res_bind]. eexists _, _. split; [reflexivity|].
  split; [|split; [|done]].
  - split; cbn [entries size]; [done|lia].
  - unfold contents. cbn [entries size].
    replace (Z.to_nat (size b)) with (S (Z.to_nat (size b - 1))) by lia.
    by rewrite (take_S_r _ _ e), reverse_snoc.
Qed.

(** On a well-formed buffer [push] and [pop] are the operations of a
    stack of at most 32 entries: [push] puts the entry on top, or prints an
    error and changes nothing when the stack is full; [pop] takes the entry on
    top, or prints an error and returns the (stale) entry at index 0 when the
    stack is empty; neither accesses the array out of bounds, and popping what
    was just pushed gives it back. *)
Theorem push_pop_stack b e :
  buffer_ok b ->
  (if size b <? Z.of_nat BUFFSIZE
   then exists b' b'', push b e = Ok (b', []) /\ contents b' = e :: contents b /\ buffer_ok b' /\
          pop b' = Ok (e, b'', []) /\ contents b'' = contents b
   else push b e = Ok (b, [stack_full])) /\
  match contents b with
  | x :: r => exists b', pop b = Ok (x, b', []) /\ contents b' = r /\ buffer_ok b'
  | [] => exists x, entries b !! 0%nat = Some x /\ pop b = Ok (x, b, [cannot_pop])
  end.
Proof.
  intros Hb. pose proof Hb as [Hl Hs]. split.
  - destruct (Z.ltb_spec (size b) (Z.of_nat BUFFSIZE)) as [H|H].
    + destruct (push_ok b e Hb H) as (b' & E1 & Hb' & Hc & _).
      destruct (pop_ok b' Hb') as (x & b'' & E2 & _ & Hc' & _).
      { apply contents_length in Hb'. rewrite Hc in Hb'. cbn [length] in Hb'. lia. }
      rewrite Hc in Hc'. injection Hc' as <- Hc''. eauto 10.
    + unfold push. by destruct (Z.ltb_spec (size b) (Z.of_nat BUFFSIZE)); [lia|].
  - pose proof (contents_length b Hb) as Hn. destruct (contents b) as [|x r] eqn:E; cbn [length] in Hn.
    + assert (size b = 0) as E0 by lia. unfold pop, get_entry. rewrite E0.
      destruct (lookup_lt_is_Some_2 (entries b) 0) as [y Hy]; [rewrite Hl; unfold BUFFSIZE; lia|].
      exists y. split; [done|]. change (Z.to_nat 0) with 0%nat. cbn. by rewrite Hy.
    + destruct (pop_ok b Hb ltac:(lia)) as (y & b' & E2 & Hb' & Hc & _).
      rewrite E in Hc. injection Hc as -> ->. eauto.
Qed.

Lemma push_pop_stack_witness :
  let b := {| entries := replicate BUFFSIZE {| num := 7; work_time := 7 |};
              size := 0; stop := None |} in
  pop b = Ok ({| num := 7; work_time := 7 |}, b, [cannot_pop]).
Proof.
  intros b. destruct (push_pop_stack b {| num := 1; work_time := 2 |}) as [_ H].
  - split; [apply length_replicate|]. cbn. lia.
  - destruct H as (x & H1 & H2). rewrite H2. cbn in H1. by injection H1 as <-.
Defined.

(** ** random_num *)

Section Random.
Context (W : Z) (ecx : Z) (abs_int_min : Z).
Hypothesis W_range : 32 <= W.

Lemma random_num_ok rd g min max :
  gen_ok g -> min < max -> exists t g',
    random_num W ecx abs_int_min rd g min max = Ok (Z.max min (Z.rem t (max - min)), g') /\ gen_ok g'.
Proof.
  intros Hg Hmm. unfold random_num, int_rem.
  destruct (if negb _ then _ else _) as [tmp g1] eqn:E.
  assert (gen_ok g1) as Hg1.
  { destruct (negb _); [by injection E as _ <-|].
    pose proof (genrand_int32_ok W g W_range Hg) as [_ H]. destruct (genrand_int32 W g) as [y g2].
    by injection E as _ <-. }
  destruct (Z.eqb_spec (max - min) 0); [lia|]. destruct (Z.eqb_spec (max - min) (-1)); [lia|].
  cbn [andb res_bind]. exists (abs abs_int_min tmp), g1. split; [|done].
  do 2 f_equal. destruct (Z.ltb_spec (Z.rem (abs abs_int_min tmp) (max - min)) min); lia.
Qed.

Lemma rem_bound t d : 0 < d -> Z.rem t d <= d - 1.
Proof. intros Hd. pose proof (Z.rem_bound_abs t d). lia. Qed.

Lemma random_num_range rd g min max :
  gen_ok g -> min < max -> exists r g',
    random_num W ecx abs_int_min rd g min max = Ok (r, g') /\ gen_ok g' /\
    min <= r <= Z.max min (max - min - 1).
Proof.
  intros Hg Hmm. destruct (random_num_ok rd g min max Hg Hmm) as (t & g' & E & Hg').
  eexists _, _. split; [done|]. split; [done|]. pose proof (rem_bound t (max - min)). lia.
Qed.

(** C29: whatever the processor's random source returns (with [rdrand] or with
    the Mersenne Twister in any valid state), [random_num (3, 7)] is
    3 (the producer's "random" wait never varies), [random_num (2, 9)] is
    between 2 and 6 and [random_num (0, 10)] between 0 and 9: the upper bounds
    7, 9 and 10 are never reached, because the remainder by [max - min] is not
    shifted by [min]. *)
Theorem random_num_calls rd g :
  gen_ok g ->
  (exists g', random_num W ecx abs_int_min rd g 3 7 = Ok (3, g')) /\
  (exists w g', random_num W ecx abs_int_min rd g 2 9 = Ok (w, g') /\ 2 <= w <= 6) /\
  (exists n g', random_num W ecx abs_int_min rd g 0 10 = Ok (n, g') /\ 0 <= n <= 9).
Proof.
  intros Hg.
  destruct (random_num_range rd g 3 7 Hg) as (r & g1 & E1 & _ & H1); [lia|].
  destruct (random_num_range rd g 2 9 Hg) as (w & g2 & E2 & _ & H2); [lia|].
  destruct (random_num_range rd g 0 10 Hg) as (n & g3 & E3 & _ & H3); [lia|].
  split; [|split].
  - exists g1. rewrite E1. do 2 f_equal. lia.
  - exists w, g2. split; [done|lia].
  - exists n, g3. split; [done|lia].
Qed.

End Random.

(** With [rdrand] every value of the ranges occurs, 0 for the number included. *)
Lemma random_num_calls_witness :
  (exists g', random_num 64 (Z.shiftl 1 30) 0 (6, true) static_generator 3 7 = Ok (3, g')) /\
  map (fun v => match random_num 64 (Z.shiftl 1 30) 0 (v, true) static_generator 0 10 with
                | Ok (n, _) => n | _ => -1 end) [0; 1; 2; 3; 4; 5; 6; 7; 8; 9; 10]
  = [0; 1; 2; 3; 4; 5; 6; 7; 8; 9; 0].
Proof.
  split.
  - apply (random_num_calls 64 (Z.shiftl 1 30) 0); [lia|apply static_ok].
  - vm_compute. reflexivity.
Defined.

(** ** Every interleaving *)

Lemma run_stack_app h h' s t :
  run_stack h s = Some t -> run_stack (h ++ h') s = run_stack h' t.
Proof.
  revert s. induction h as [|[e|e] h IH]; intros s H; cbn [run_stack app] in *.
  - by injection H as ->.
  - destruct (decide _); [by apply IH|done].
  - destruct s as [|x s]; [done|]. destruct (decide _); [by apply IH|done].
Qed.

Section Theory.
Context (W : Z) (ecx : Z) (abs_int_min : Z).
Hypothesis W_range : 32 <= W.

Abbreviation step := (step W ecx abs_int_min).
Abbreviation reachable := (reachable W ecx abs_int_min).

Lemma start_ok garbage : length garbage = BUFFSIZE -> program_ok (main_state garbage static_generator).
Proof.
  intros Hl. split; cbn; try done; [apply static_ok|]. by repeat constructor.
Qed.

Lemma produce_random_ok rd g min max r g' :
  gen_ok g -> min < max -> random_num W ecx abs_int_min rd g min max = Ok (r, g') ->
  gen_ok g' /\ min <= r <= Z.max min (max - min - 1).
Proof.
  intros Hg Hm E. destruct (random_num_range W ecx abs_int_min W_range rd g min max Hg Hm)
    as (r1 & g1 & E1 & H1 & H2). rewrite E in E1. by injection E1 as <- <-.
Qed.

Lemma pc_step_ok s t : program_ok s -> step s t -> program_ok t.
Proof.
  intros [Hb Hg Hst Hex Hh He Hp Hc Hl Ho] Hstep.
  destruct Hstep as [b g c h o rd wait g' Hrd E|b g c h o wait rd1 rd2 w g1 n g2 _ _ E1 E2
    |b g c h o wait e Hn|b g c h o wait e b' m Hlt E|b g c h o wait e Hge|b g c h o
    |b g p h o Hn|b g p h o e b' m Hlt E|b g p h o Hle|b g p h o e|b g p h o];
    cbn [buf gen producer consumer history out] in *.
  - apply produce_random_ok in E as [? ?]; [|done|lia].
    split; try done; cbn [producer_ok producer]. lia.
  - apply produce_random_ok in E1 as [? ?]; [|done|lia].
    apply produce_random_ok in E2 as [? ?]; [|done|lia].
    by split.
  - destruct c; [|by rewrite Hn in Hst..]. by split.
  - destruct (push_ok b e Hb Hlt) as (b1 & E1 & Hb1 & Hc1 & Hs1). rewrite E in E1.
    injection E1 as -> ->. destruct Hp as [-> Hen].
    split; cbn [buf gen producer consumer history out]; try done.
    + by rewrite Hs1.
    + rewrite (run_stack_app _ _ _ _ Hh). cbn [run_stack].
      rewrite decide_True; [by rewrite Hc1|]. rewrite contents_length by done. destruct Hb. lia.
    + rewrite Hc1. by constructor.
    + destruct c; [|done..]. cbn [unprinted] in *. rewrite app_nil_r in *. by rewrite map_app, app_comm_cons, <- Hl.
    + apply Forall_app. split; [done|]. apply Forall_singleton. split; [apply Hen|done].
  - by split.
  - destruct c; [|done..]. by split.
  - destruct p; try (by rewrite Hn in Hst); by split.
  - destruct (pop_ok b Hb Hlt) as (e1 & b1 & E1 & Hb1 & Hc1 & Hs1). rewrite E in E1.
    injection E1 as -> -> ->. rewrite Hc1 in He. apply Forall_cons in He as [Hen He].
    split; cbn [buf gen producer consumer history out]; try done.
    + by rewrite Hs1.
    + rewrite (run_stack_app _ _ _ _ Hh). cbn [run_stack]. rewrite Hc1. by rewrite decide_True.
    + cbn [unprinted] in *. rewrite !app_nil_r in *. by rewrite map_app, app_comm_cons, <- Hl.
    + by rewrite app_nil_r.
  - by split.
  - split; try done; cbn [out consumer history unprinted].
    + by rewrite app_nil_r.
    + apply Forall_app. split; [done|]. by apply Forall_singleton.
  - destruct p; try done; by split.
Qed.

Lemma pc_reachable_ok s : reachable s -> program_ok s.
Proof.
  intros (garbage & Hl & Hr).
  by apply (rtc_invariant step program_ok pc_step_ok _ _ Hr), start_ok.
Qed.

(** C11: the shared buffer is a stack, and the output tells its story.  In every
    interleaving of the two threads the pushes and pops that have happened, run
    in their order on an abstract stack of at most 32 entries, all succeed,
    every pop returns the top, and the stack that results is what the buffer
    holds: nothing is lost, duplicated or made up between [produce] and
    [consume].  The printed lines are "start" and one per operation, in the same order, but
    for the pop whose entry the consumer is still working on. *)
Theorem pc_history_is_stack s :
  reachable s ->
  run_stack (history s) [] = Some (contents (buf s)) /\ 0 <= size (buf s) <= Z.of_nat BUFFSIZE /\
  out s ++ unprinted (consumer s) = start_line :: map line_of (history s).
Proof.
  intros Hr%pc_reachable_ok. split; [apply Hr|]. split; [|apply Hr]. by destruct (po_buf _ Hr).
Qed.

Lemma pc_mutual_exclusion s :
  reachable s ->
  ~ (producer_holds (producer s) = true /\ consumer_holds (consumer s) = true) /\
  (producer_holds (producer s) = true -> stop (buf s) = Some Producer) /\
  (consumer_holds (consumer s) = true -> stop (buf s) = Some Consumer).
Proof.
  intros Hr%pc_reachable_ok. pose proof (po_excl _ Hr) as He. rewrite (po_stop _ Hr). unfold holder.
  destruct (producer_holds (producer s)), (consumer_holds (consumer s)); try done; naive_solver.
Qed.

(** The program never prints an error of [push] or [pop], all entries it
    ever prints have a number between 0 and 9 and a work time between 2 and 6,
    and every wait it prints is 3. *)
Theorem pc_output_range s : reachable s -> Forall message_ok (out s).
Proof. intros Hr%pc_reachable_ok. apply Hr. Qed.

Lemma steps_ok s t : program_ok s -> rtc step s t -> program_ok t.
Proof. intros Hs Hr. by apply (rtc_invariant step program_ok pc_step_ok s t Hr). Qed.

(** The holder of the mutex runs to its [pthread_mutex_unlock]. *)
Lemma consumer_releases s :
  program_ok s -> consumer_holds (consumer s) = true ->
  exists t, rtc step s t /\ consumer t = c_lock /\ producer t = producer s.
Proof.
  intros Hs Hc. destruct s as [b g p c h o]. cbn [consumer producer] in *.
  assert (forall b o h, exists t, rtc step {| buf := b; gen := g; producer := p;
    consumer := c_unlock; history := h; out := o |} t /\ consumer t = c_lock /\ producer t = p) as Hu.
  { intros. eexists. split; [apply rtc_once, consume_unlock|done]. }
  assert (forall b e o h, exists t, rtc step {| buf := b; gen := g; producer := p;
    consumer := c_sleep e; history := h; out := o |} t /\ consumer t = c_lock /\ producer t = p) as Hsl.
  { intros b1 e o1 h1. destruct (Hu b1 (o1 ++ [consumed_number (work_time e) (num e)]) h1)
      as (t & Ht & H). exists t. split; [|done]. eapply rtc_l; [apply consume_print|done]. }
  destruct c as [| |e|]; [done| |apply Hsl|apply Hu].
  destruct (Z.lt_ge_cases 0 (size b)) as [Hb|Hb].
  - destruct (pop_ok b (po_buf _ Hs) Hb) as (e & b' & E & _).
    destruct (Hsl b' e (o ++ []) (h ++ [Pop e])) as (t & Ht & H). exists t. split; [|done].
    eapply rtc_l; [by eapply consume_pop|done].
  - destruct (Hu b o h) as (t & Ht & H). exists t. split; [|done].
    eapply rtc_l; [by apply consume_empty|done].
Qed.

Lemma producer_releases s :
  program_ok s -> producer_holds (producer s) = true ->
  exists t, rtc step s t /\ producer t = p_top /\ consumer t = consumer s.
Proof.
  intros Hs Hp. destruct s as [b g p c h o]. cbn [consumer producer] in *.
  assert (forall b o h, exists t, rtc step {| buf := b; gen := g; producer := p_unlock;
    consumer := c; history := h; out := o |} t /\ producer t = p_top /\ consumer t = c) as Hu.
  { intros. eexists. split; [apply rtc_once, produce_unlock|done]. }
  destruct p as [| | |wait e|]; try done.
  destruct (Z.lt_ge_cases (size b) (Z.of_nat BUFFSIZE)) as [Hb|Hb].
  - destruct (push_ok b e (po_buf _ Hs) Hb) as (b' & E & _).
    destruct (Hu b' (o ++ [] ++ [produced_number (num e) wait]) (h ++ [Push e])) as (t & Ht & H).
    exists t. split; [|done]. eapply rtc_l; [by apply produce_push|done].
  - destruct (Hu b o h) as (t & Ht & H). exists t. split; [|done].
    eapply rtc_l; [by apply produce_full|done].
Qed.

(** With the mutex free, the producer reaches [p_locked] or the top of its loop. *)
Lemma producer_enters s :
  program_ok s -> stop (buf s) = None ->
  exists t, rtc step s t /\ consumer t = consumer s /\
    (producer t = p_top \/ producer_holds (producer t) = true).
Proof.
  intros Hs Hn. destruct s as [b g p c h o]. cbn [consumer producer buf] in *.
  destruct p as [|wait|wait e|wait e|]; try (eexists; split; [apply rtc_refl|]; split; [done|];
    by (left + right)).
  - destruct (random_num_range W ecx abs_int_min W_range (0, true) g 2 9 (po_gen _ Hs))
      as (w & g1 & E1 & Hg1 & _); [lia|].
    destruct (random_num_range W ecx abs_int_min W_range (0, true) g1 0 10 Hg1)
      as (n & g2 & E2 & _); [lia|].
    eexists. split; [|split].
    + eapply rtc_l; [by eapply (produce_entry _ _ _ _ _ _ _ _ _ (0, true) (0, true))|].
      apply rtc_once. by apply produce_lock.
    + done.
    + by right.
  - eexists. split; [apply rtc_once; by apply produce_lock|]. split; [done|by right].
Qed.

Lemma mutex_freed s :
  program_ok s -> exists t, rtc step s t /\ program_ok t /\ stop (buf t) = None.
Proof.
  intros Hs. pose proof (po_excl _ Hs) as He.
  destruct (producer_holds (producer s)) eqn:Hp; [|destruct (consumer_holds (consumer s)) eqn:Hc].
  - destruct (producer_releases s Hs Hp) as (t & Ht & H1 & H2). exists t.
    pose proof (steps_ok _ _ Hs Ht) as Hok. split; [done|]. split; [done|].
    rewrite (po_stop _ Hok), H1, H2. unfold holder. cbn [producer_holds]. cbn [andb] in He. by rewrite He.
  - destruct (consumer_releases s Hs Hc) as (t & Ht & H1 & H2). exists t.
    pose proof (steps_ok _ _ Hs Ht) as Hok. split; [done|]. split; [done|].
    rewrite (po_stop _ Hok), H1, H2. unfold holder. by rewrite Hp.
  - exists s. split; [done|]. split; [done|]. rewrite (po_stop _ Hs). unfold holder. by rewrite Hp, Hc.
Qed.

Lemma mutex_returns s :
  reachable s ->
  exists t u, rtc step s t /\ stop (buf t) = None /\
    rtc step t u /\ producer u = p_top /\ stop (buf u) = None.
Proof.
  intros Hs%pc_reachable_ok. destruct (mutex_freed s Hs) as (t & Ht & Hok & Hn). exists t.
  destruct (producer_enters t Hok Hn) as (u & Hu & Hcu & Hpu). pose proof (steps_ok _ _ Hok Hu) as Hok'.
  assert (consumer u = c_lock) as Hc.
  { rewrite Hcu. rewrite (po_stop _ Hok) in Hn. unfold holder in Hn.
    destruct (producer_holds (producer t)); [done|]. by destruct (consumer t). }
  destruct Hpu as [Hpu|Hpu].
  - exists u. rewrite (po_stop _ Hok'), Hpu, Hc. done.
  - destruct (producer_releases u Hok' Hpu) as (v & Hv & H1 & H2). exists v.
    pose proof (steps_ok _ _ Hok' Hv) as Hokv. split; [done|]. split; [done|].
    split; [by etrans|]. split; [done|]. rewrite (po_stop _ Hokv), H1, H2, Hc. done.
Qed.

(** With the mutex free the consumer can empty the buffer. *)
Lemma consumer_drains s :
  program_ok s -> stop (buf s) = None ->
  exists t, rtc step s t /\ contents (buf t) = [] /\ stop (buf t) = None /\
    history t = history s ++ map Pop (contents (buf s)).
Proof.
  remember (length (contents (buf s))) as n eqn:En. revert s En.
  induction n as [|n IH]; intros s En Hs Hn.
  - destruct (contents (buf s)) eqn:Ec; [|done]. exists s. by rewrite app_nil_r.
  - pose proof (contents_length _ (po_buf _ Hs)) as Hl.
    destruct (pop_ok (with_stop (buf s) (Some Consumer)) (po_buf _ Hs)) as (e & b' & E & _ & Hc & _);
      [cbn; lia|]. change (contents (with_stop (buf s) (Some Consumer))) with (contents (buf s)) in Hc.
    assert (consumer s = c_lock) as Hcs.
    { pose proof (po_stop _ Hs) as Hst. rewrite Hn in Hst. unfold holder in Hst.
      destruct (producer_holds _), (consumer s); done. }
    destruct s as [b g p c h o]. cbn [consumer buf history] in *. subst c.
    set (t := {| buf := with_stop b' None; gen := g; producer := p; consumer := c_lock;
                 history := h ++ [Pop e];
                 out := (o ++ []) ++ [consumed_number (work_time e) (num e)] |}).
    assert (rtc step {| buf := b; gen := g; producer := p; consumer := c_lock; history := h; out := o |} t) as Ht.
    { eapply rtc_l; [by apply consume_lock|]. eapply rtc_l; [eapply consume_pop; [cbn; lia|exact E]|].
      eapply rtc_l; [apply consume_print|]. apply rtc_once, consume_unlock. }
    destruct (IH t) as (u & Hu & H1 & H2 & H3).
    + rewrite Hc in En. by injection En.
    + by apply (steps_ok _ _ Hs).
    + done.
    + exists u. split; [by etrans|]. split; [done|]. split; [done|]. rewrite H3, Hc. cbn.
      by rewrite <- app_assoc.
Qed.

Lemma drained s :
  program_ok s ->
  exists t h, rtc step s t /\ contents (buf t) = [] /\ stop (buf t) = None /\
    history t = history s ++ h /\ out t = start_line :: map line_of (history t).
Proof.
  intros Hs. destruct (mutex_freed s Hs) as (t & Ht & Hok & Hn).
  destruct (consumer_drains t Hok Hn) as (u & Hu & H1 & H2 & H3).
  assert (exists h, history t = history s ++ h) as [h Hh].
  { clear -Ht. induction Ht as [s|s s1 t Hst _ [h IH]]; [exists []; by rewrite app_nil_r|].
    destruct Hst; cbn [history] in *; rewrite IH, <- ?app_assoc; eauto. }
  exists u, (h ++ map Pop (contents (buf t))). split; [by etrans|]. split; [done|]. split; [done|].
  split; [by rewrite H3, Hh, app_assoc|]. assert (program_ok u) as Hu'.
  { apply (steps_ok t); [done|]. exact Hu. }
  pose proof (po_lines _ Hu') as Hl. pose proof (po_stop _ Hu') as Hst. rewrite H2 in Hst.
  unfold holder in Hst. destruct (producer_holds _); [done|]. destruct (consumer u); try done.
  by rewrite app_nil_r in Hl.
Qed.

(** C28: the mutex works, and no entry is stuck.  The two threads are never
    inside their critical sections at the same time, and whichever is inside
    one holds it.  The threads cannot deadlock: from every reachable state the
    thread that holds the mutex, if any, can run to the point where it has
    released it; from there the producer can finish its iteration, so that it
    is at the top of its loop and the mutex is free again.  Every entry can
    still be consumed: from every reachable state the program can get to one
    where the buffer is empty and all that was pushed has been popped and
    printed. *)
Theorem pc_mutex s :
  reachable s ->
  (~ (producer_holds (producer s) = true /\ consumer_holds (consumer s) = true) /\
   (producer_holds (producer s) = true -> stop (buf s) = Some Producer) /\
   (consumer_holds (consumer s) = true -> stop (buf s) = Some Consumer)) /\
  (exists t u, rtc step s t /\ stop (buf t) = None /\
     rtc step t u /\ producer u = p_top /\ stop (buf u) = None) /\
  (exists t h, rtc step s t /\ contents (buf t) = [] /\ stop (buf t) = None /\
     history t = history s ++ h /\ out t = start_line :: map line_of (history t)).
Proof.
  intros Hr. split; [by apply pc_mutual_exclusion|]. split; [by apply mutex_returns|].
  by apply drained, pc_reachable_ok.
Qed.

End Theory.

(** ** A concrete run *)

Definition garbage0 : list buffer_entry := replicate BUFFSIZE {| num := 7; work_time := 7 |}.

Definition entry0 : buffer_entry := {| num := 5; work_time := 4 |}.

(** One entry is produced; the consumer has popped it and sleeps. *)
Definition run0 : program :=
  {| buf := {| entries := <[0%nat := entry0]> garbage0; size := 0; stop := Some Consumer |};
     gen := static_generator; producer := p_top; consumer := c_sleep entry0;
     history := [Push entry0; Pop entry0]; out := [start_line; produced_number 5 3] |}.

Lemma run0_reachable : reachable 64 (Z.shiftl 1 30) 0 run0.
Proof.
  exists garbage0. split; [done|]. unfold main_state.
  eapply rtc_l; [apply (produce_wait _ _ _ _ _ _ _ _ (17, true) 3 static_generator)|].
  { by split; vm_compute. } { vm_compute. reflexivity. }
  eapply rtc_l; [apply (produce_entry _ _ _ _ _ _ _ _ _ (4, true) (25, true) 4 static_generator
                          5 static_generator)|].
  { by split; vm_compute. } { by split; vm_compute. } { vm_compute. reflexivity. }
  { vm_compute. reflexivity. }
  eapply rtc_l; [by apply produce_lock|].
  eapply rtc_l; [eapply produce_push; [by vm_compute|reflexivity]|].
  eapply rtc_l; [apply produce_unlock|].
  eapply rtc_l; [by apply consume_lock|].
  eapply rtc_l; [eapply consume_pop; [by vm_compute|reflexivity]|].
  apply rtc_refl.
Qed.

Lemma pc_history_is_stack_witness :
  run_stack (history run0) [] = Some (contents (buf run0)) /\
  out run0 ++ [consumed_number 4 5] = start_line :: map line_of [Push entry0; Pop entry0].
Proof.
  destruct (pc_history_is_stack 64 (Z.shiftl 1 30) 0 ltac:(lia) run0 run0_reachable) as (H1 & _ & H2).
  split; [exact H1|exact H2].
Defined.

Lemma pc_output_range_witness : Forall message_ok (out run0).
Proof. apply (pc_output_range 64 (Z.shiftl 1 30) 0 ltac:(lia) run0 run0_reachable). Defined.

Lemma pc_mutex_witness :
  stop (buf run0) = Some Consumer /\
  exists t u, rtc (step 64 (Z.shiftl 1 30) 0) run0 t /\ stop (buf t) = None /\
    rtc (step 64 (Z.shiftl 1 30) 0) t u /\ producer u = p_top /\ stop (buf u) = None.
Proof.
  destruct (pc_mutex 64 (Z.shiftl 1 30) 0 ltac:(lia) run0 run0_reachable) as [(_ & _ & H1) [H2 _]].
  split; [by apply H1|exact H2].
Defined.
