(* ===== verification/KList.v ===== *)
(** * linux/list.h: circular doubly linked lists

    [sstf-iosched.c] keeps its requests on a list of [linux/list.h] and also
    follows the [next] and [prev] fields itself.  The memory of the links is a
    function from node addresses to the two fields; the functions of list.h,
    which are not part of the repository, are the class [ListH], with their
    documented behaviour as laws on [dll], the predicate "the nodes [l] are
    linked in this order in the circle of [h]".  [Pointers] is a concrete
    instance. *)

From S2P Require Import Prelude.

(** The fields of [struct list_head] of every node. *)
Record list_head : Type := { next : Z; prev : Z }.

Definition links : Type := Z -> list_head.

(** [a] is followed by the nodes of [l], one after the other. *)
Fixpoint linked (m : links) (a : Z) (l : list Z) : Prop :=
  match l with
  | [] => True
  | b :: r => next (m a) = b /\ prev (m b) = a /\ linked m b r
  end.

(** The circular list with head [h] and entries [l]. *)
Definition dll (m : links) (h : Z) (l : list Z) : Prop :=
  linked m h (l ++ [h]) /\ NoDup (h :: l).

Class ListH := {
  INIT_LIST_HEAD : links -> Z -> links;
  list_empty : links -> Z -> bool;
  list_add : links -> Z -> Z -> links;
  list_del_init : links -> Z -> links
}.

Class ListHLaws (L : ListH) : Prop := {
  INIT_LIST_HEAD_dll m h : dll (INIT_LIST_HEAD m h) h [];
  (** "tests whether a list is empty" *)
  list_empty_dll m h l : dll m h l -> list_empty m h = bool_decide (l = []);
  (** "Insert a new entry after the specified head"; any node of the circle
      can be the head of the insertion. *)
  list_add_dll m h l1 l2 x p :
    dll m h (l1 ++ l2) -> x ∉ h :: l1 ++ l2 -> last (h :: l1) = Some p ->
    dll (list_add m x p) h (l1 ++ x :: l2);
  (** "deletes entry from list and reinitialize it" *)
  list_del_init_dll m h l1 x l2 :
    dll m h (l1 ++ x :: l2) -> dll (list_del_init m x) h (l1 ++ l2) /\ dll (list_del_init m x) x []
}.

(** ** Lemmas *)

Lemma linked_app m a l1 l2 :
  linked m a (l1 ++ l2) <-> linked m a l1 /\ linked m (default a (last l1)) l2.
Proof.
  revert a. induction l1 as [|b l1 IH]; intros a; cbn [app linked]; [cbn; tauto|].
  rewrite IH, last_cons. destruct (last l1); cbn [default]; tauto.
Qed.

(** Only the [next] fields of the sources and the [prev] fields of the targets
    of the links matter. *)
Lemma linked_ext m m' a l b :
  (forall x, x ∈ a :: l -> next (m' x) = next (m x)) ->
  (forall x, x ∈ l ++ [b] -> prev (m' x) = prev (m x)) ->
  linked m a (l ++ [b]) -> linked m' a (l ++ [b]).
Proof.
  revert a. induction l as [|c l IH]; intros a Hn Hp; cbn [app linked]; intros (H1 & H2 & H3).
  - by rewrite Hn, Hp by set_solver.
  - rewrite Hn, Hp by set_solver. split; [done|]. split; [done|].
    apply IH; [set_solver..|done].
Qed.

(** The first and the last entry, as the fields of the head give them. *)
Lemma dll_first m h x l : dll m h (x :: l) -> next (m h) = x.
Proof. by intros [(H & _) _]. Qed.

Lemma dll_last m h l x : dll m h (l ++ [x]) -> prev (m h) = x.
Proof.
  intros [H _]. apply linked_app in H as [_ H]. rewrite last_snoc in H. by destruct H as (_ & H & _).
Qed.

(** The neighbours of an entry. *)
Lemma dll_next m h l1 x l2 : dll m h (l1 ++ x :: l2) -> next (m x) = default h (head l2).
Proof.
  intros [H _]. rewrite <- app_assoc in H. apply linked_app in H as [_ H].
  cbn [app linked] in H. destruct H as (_ & _ & H).
  destruct l2 as [|y l2]; cbn [app linked head default] in *; by destruct H.
Qed.

Lemma dll_prev m h l1 x l2 : dll m h (l1 ++ x :: l2) -> prev (m x) = default h (last l1).
Proof.
  intros [H _]. rewrite <- app_assoc in H. apply linked_app in H as [_ H].
  cbn [app linked] in H. by destruct H as (_ & H & _).
Qed.

(** [dll] determines the list. *)
Lemma linked_unique m h l l' a :
  linked m a (l ++ [h]) -> linked m a (l' ++ [h]) -> h ∉ l -> h ∉ l' -> l = l'.
Proof.
  revert l' a. induction l as [|x l IH]; intros [|y l'] a; cbn [app linked]; intros (H1 & _ & H2)
    (H3 & _ & H4) Hl Hl'; [done|set_solver..|].
  assert (x = y) as <- by congruence. f_equal. apply (IH l' x); [done|done|set_solver..].
Qed.

Lemma dll_unique m h l l' : dll m h l -> dll m h l' -> l = l'.
Proof.
  intros [H1 [Hn1 _]%NoDup_cons] [H2 [Hn2 _]%NoDup_cons]. by eapply linked_unique.
Qed.

(** The neighbours, [None] at the ends. *)
Lemma dll_former m h l1 x l2 :
  dll m h (l1 ++ x :: l2) -> (if prev (m x) =? h then None else Some (prev (m x))) = last l1.
Proof.
  intros Hd. rewrite (dll_prev _ _ _ _ _ Hd). destruct Hd as [_ [Hh _]%NoDup_cons].
  destruct (last l1) as [y|] eqn:E; cbn [default from_option id]; [|by rewrite Z.eqb_refl].
  apply last_Some_elem_of in E. destruct (Z.eqb_spec y h); [set_solver|done].
Qed.

Lemma dll_latter m h l1 x l2 :
  dll m h (l1 ++ x :: l2) -> (if next (m x) =? h then None else Some (next (m x))) = head l2.
Proof.
  intros Hd. rewrite (dll_next _ _ _ _ _ Hd). destruct Hd as [_ [Hh _]%NoDup_cons].
  destruct l2 as [|y l2]; cbn [head default from_option id]; [by rewrite Z.eqb_refl|].
  destruct (Z.eqb_spec y h); [set_solver|done].
Qed.

Lemma middle_perm (h x : Z) l1 l2 : h :: l1 ++ x :: l2 ≡ₚ x :: h :: l1 ++ l2.
Proof. rewrite <- Permutation_middle. apply Permutation_swap. Qed.

(** ** A concrete instance: the pointer assignments *)

Module Pointers.

Definition set_next (m : links) (a b : Z) : links :=
  fun x => if x =? a then {| next := b; prev := prev (m x) |} else m x.

Definition set_prev (m : links) (a b : Z) : links :=
  fun x => if x =? a then {| next := next (m x); prev := b |} else m x.

#[export] Instance list_h : ListH := {
  INIT_LIST_HEAD m h := fun x => if x =? h then {| next := h; prev := h |} else m x;
  list_empty m h := next (m h) =? h;
  list_add m x p :=
    let n := next (m p) in
    set_next (set_prev (set_next (set_prev m n x) x n) x p) p x;
  list_del_init m x :=
    let n := next (m x) in
    let p := prev (m x) in
    fun y => if y =? x then {| next := x; prev := x |}
             else set_next (set_prev m n p) p n y
}.

Ltac node_cases :=
  repeat match goal with
  | |- context [if ?a =? ?b then _ else _] => destruct (Z.eqb_spec a b)
  end; cbn [next prev]; try subst.

Lemma dll_empty m h : next (m h) = h -> prev (m h) = h -> dll m h [].
Proof. intros H1 H2. split; [done|]. apply NoDup_singleton. Qed.

(** [m'] differs from [m] only in the links of [x], the [next] field of [p] and
    the [prev] field of [n]. *)
Definition keeps (m m' : links) (p n x : Z) : Prop :=
  forall y, y <> x ->
    (y <> p -> next (m' y) = next (m y)) /\ (y <> n -> prev (m' y) = prev (m y)).

Lemma keep_left m m' p n x h l :
  keeps m m' p n x -> NoDup (h :: l) -> p = default h (last l) -> n ∉ l -> x ∉ h :: l ->
  linked m h l -> linked m' h l.
Proof.
  intros Hk Hd Hp Hn Hx Hl. destruct (snoc_cases l) as [->|(l' & q & ->)]; [done|].
  rewrite last_snoc in Hp. change (p = q) in Hp. subst q.
  rewrite app_comm_cons in Hd. apply NoDup_app in Hd as (_ & Hd & _).
  apply (linked_ext m); [| |done]; intros y Hy; apply Hk; set_solver.
Qed.

Lemma keep_right m m' p n x h r :
  keeps m m' p n x -> NoDup (n :: r ++ [h]) -> p ∉ n :: r -> x ∉ n :: r ++ [h] ->
  linked m n (r ++ [h]) -> linked m' n (r ++ [h]).
Proof.
  intros Hk Hd Hp Hx Hl. apply NoDup_cons in Hd as [Hd _].
  apply (linked_ext m); [| |done]; intros y Hy; apply Hk; set_solver.
Qed.

(** The list from [n], the node after the insertion or deletion point. *)
Lemma keep_tail m m' p n x h l2 :
  keeps m m' p n x -> NoDup (l2 ++ [h]) -> p ∉ l2 -> x ∉ h :: l2 -> n = default h (head l2) ->
  linked m n (tail (l2 ++ [h])) -> linked m' n (tail (l2 ++ [h])).
Proof.
  intros Hk Hd Hp Hx -> Hl. destruct l2 as [|y l2]; [done|]. cbn [app tail head default] in *.
  eapply keep_right; [done|done|done|set_solver|done].
Qed.

Lemma split_tail m a l h :
  linked m a (l ++ [h]) <->
  next (m a) = default h (head l) /\ prev (m (default h (head l))) = a /\
  linked m (default h (head l)) (tail (l ++ [h])).
Proof. destruct l; cbn [app linked head tail default]; tauto. Qed.

Lemma circle_nodup (h : Z) l1 l2 :
  NoDup (h :: l1 ++ l2) ->
  NoDup (h :: l1) /\ NoDup (l2 ++ [h]) /\
  ((default h (head l2)) ∉ l1) /\ ((default h (last l1)) ∉ l2).
Proof.
  intros Hd. pose proof Hd as Hd'. rewrite app_comm_cons in Hd.
  apply NoDup_app in Hd as (H1 & H2 & H3). split; [done|]. split; [|split].
  - apply NoDup_app. split; [done|]. split; [set_solver|apply NoDup_singleton].
  - destruct l2 as [|y l2]; cbn [head default]; [by apply NoDup_cons in H1 as [? _]|].
    intros Hin. apply (H2 y); set_solver.
  - apply H2. destruct (snoc_cases l1) as [->|(l & q & ->)]; [set_solver|].
    rewrite last_snoc. set_solver.
Qed.

(** The neighbours of an insertion or deletion point are nodes of the circle. *)
Lemma not_neighbour (h x : Z) l1 l2 :
  x ∉ h :: l1 ++ l2 -> x <> default h (last l1) /\ x <> default h (head l2).
Proof.
  intros Hx. split.
  - destruct (last l1) as [y|] eqn:E; [|set_solver]. apply last_Some_elem_of in E.
    change (default h (Some y)) with y. set_solver.
  - destruct l2 as [|y l2]; set_solver.
Qed.

Lemma add_dll m h l1 l2 x p :
  dll m h (l1 ++ l2) -> x ∉ h :: l1 ++ l2 -> last (h :: l1) = Some p ->
  dll (list_add m x p) h (l1 ++ x :: l2).
Proof.
  intros [Hl Hd] Hx Hp. destruct (circle_nodup h l1 l2 Hd) as (Hd1 & Hd2 & Hn & Hpl).
  assert (p = default h (last l1)) as Ep.
  { rewrite last_cons in Hp. by destruct (last l1); injection Hp as ->. }
  split; [|by rewrite middle_perm; constructor].
  rewrite <- app_assoc in Hl. apply linked_app in Hl as [Hl1 Hl2]. rewrite <- Ep in Hl2.
  apply split_tail in Hl2 as (E1 & E2 & Hl2). set (n := default h (head l2)) in *.
  destruct (not_neighbour h x l1 l2 Hx) as [Hxp Hxn]. rewrite <- Ep in Hxp. fold n in Hxn.
  assert (keeps m (list_add m x p) p n x) as Hk.
  { intros y Hy. cbn. rewrite E1. unfold set_next, set_prev. split; intros; node_cases; congruence. }
  rewrite <- app_assoc. apply linked_app. rewrite <- Ep. split.
  - eapply keep_left; try done. set_solver.
  - cbn [app linked]. split; [cbn; rewrite E1; unfold set_next, set_prev; node_cases; congruence|].
    split; [cbn; rewrite E1; unfold set_next, set_prev; node_cases; congruence|].
    apply split_tail. fold n. split; [|split].
    + cbn. rewrite E1. unfold set_next, set_prev. node_cases; congruence.
    + cbn. rewrite E1. unfold set_next, set_prev. node_cases; congruence.
    + eapply keep_tail; try done; [by rewrite Ep|set_solver].
Qed.

Lemma del_dll m h l1 x l2 : dll m h (l1 ++ x :: l2) -> dll (list_del_init m x) h (l1 ++ l2).
Proof.
  intros Hdll. pose proof (dll_next _ _ _ _ _ Hdll) as En. pose proof (dll_prev _ _ _ _ _ Hdll) as Ep.
  destruct Hdll as [Hl Hd].
  assert (NoDup (h :: l1 ++ l2) /\ x ∉ h :: l1 ++ l2) as [Hd' Hx].
  { rewrite middle_perm in Hd. by apply NoDup_cons in Hd as [? ?]. }
  destruct (circle_nodup h l1 l2 Hd') as (Hd1 & Hd2 & Hn & Hpl).
  split; [|done]. rewrite <- app_assoc in Hl. apply linked_app in Hl as [Hl1 Hl2].
  cbn [app linked] in Hl2. destruct Hl2 as (E1 & E2 & Hl2). apply split_tail in Hl2 as (_ & E4 & Hl2).
  set (n := default h (head l2)) in *. set (p := default h (last l1)) in *.
  destruct (not_neighbour h x l1 l2 Hx) as [Hxp Hxn]. fold p in Hxp. fold n in Hxn.
  assert (keeps m (list_del_init m x) p n x) as Hk.
  { intros y Hy. cbn. rewrite En, Ep. unfold set_next, set_prev. split; intros; node_cases; congruence. }
  rewrite <- app_assoc. apply linked_app. fold p. split.
  - eapply keep_left; try done. set_solver.
  - apply split_tail. fold n. split; [|split].
    + cbn. rewrite En, Ep. unfold set_next, set_prev. node_cases; congruence.
    + cbn. rewrite En, Ep. unfold set_next, set_prev. node_cases; congruence.
    + eapply keep_tail; try done. set_solver.
Qed.

#[export] Instance laws : ListHLaws list_h.
Proof.
  split.
  - intros m h. apply dll_empty; cbn; by rewrite Z.eqb_refl.
  - intros m h l [Hl Hn]. cbn. destruct l as [|x l]; cbn [app linked] in Hl.
    + destruct Hl as [-> _]. by rewrite Z.eqb_refl.
    + destruct Hl as [-> _]. rewrite bool_decide_eq_false_2 by done.
      apply NoDup_cons in Hn as [Hn _]. apply Z.eqb_neq. set_solver.
  - apply add_dll.
  - intros m h l1 x l2 Hdll. split; [by apply del_dll|]. apply dll_empty; cbn; by rewrite Z.eqb_refl.
Qed.

End Pointers.
