(* ===== verification/Sstf.v ===== *)
(** * sstf-iosched.c: the I/O scheduler

    [kernel/project2/code/sstf-iosched.c]: the queue of requests of a block
    device and the operations of the elevator, on the pointers of the list
    [nd->queue].  A request is named by the address of its [queuelist] node;
    [pos] is [blk_rq_pos] of the request at a node.  The code also applies
    [blk_rq_pos] to the list head, which is no request: [pos] of the head is
    then whatever the memory beyond [struct sstf_data] holds.

    [place] is what [add_req] does on the list of requests; the theorems show
    that the pointer code implements it, when it hangs, and when the queue is
    kept in the order of the sectors. *)

From S2P Require Import Prelude KList.

(** ** The program *)

(** [queue] is the address of the list head; [head_sector] is the field [head]. *)
Record sstf_data : Type := { queue : Z; dir : Z; head_sector : Z }.

(** [struct request_queue] with its elevator, and what the code passes to the
    rest of the kernel: [kobject_put], [kfree] and [elv_dispatch_sort]. *)
Record request_queue : Type := {
  elevator : option Z;
  elevator_data : sstf_data;
  nodes : links;
  dispatched : list Z;
  puts : list Z;
  frees : list Z
}.

Definition set_nodes (q : request_queue) (m : links) : request_queue :=
  {| elevator := elevator q; elevator_data := elevator_data q; nodes := m;
     dispatched := dispatched q; puts := puts q; frees := frees q |}.

Section Defs.
Context `{L : ListH} (ENOMEM : Z) (pos : Z -> Z).

(** [elevque] and [data] are the results of [elevator_alloc] and of
    [kmalloc_node]; [garbage] is what the new memory holds: [dir] is not
    initialised. *)
Definition init_sstf (q : request_queue) (elevque data : option Z) (garbage : Z)
  : Z * request_queue :=
  match elevque with
  | None => (- ENOMEM, q)
  | Some elevque =>
    match data with
    | None =>
      (- ENOMEM, {| elevator := elevator q; elevator_data := elevator_data q; nodes := nodes q;
                    dispatched := dispatched q; puts := elevque :: puts q; frees := frees q |})
    | Some data =>
      (0, {| elevator := Some elevque;
             elevator_data := {| queue := data; dir := garbage; head_sector := 0 |};
             nodes := INIT_LIST_HEAD (nodes q) data;
             dispatched := dispatched q; puts := puts q; frees := frees q |})
    end
  end.

(** The first [while] of [add_req]: the final [prev]. *)
Fixpoint walk_up (fuel : nat) (m : links) (req prev next : Z) : res Z :=
  match fuel with
  | O => Fuel
  | S fuel =>
    if pos next <? pos req then walk_up fuel m req next (KList.next (m next))
    else Ok prev
  end.

(** The second [while] of [add_req]: the final [next]. *)
Fixpoint walk_down (fuel : nat) (m : links) (req prev next : Z) : res Z :=
  match fuel with
  | O => Fuel
  | S fuel =>
    if pos prev <? pos req then walk_down fuel m req (KList.prev (m prev)) prev
    else Ok next
  end.

(** [list_for_each_entry (iter, &nd->queue, queuelist) printk (...)]: the
    positions printed. *)
Fixpoint print_entries (fuel : nat) (m : links) (h iter : Z) : res (list Z) :=
  match fuel with
  | O => Fuel
  | S fuel =>
    if iter =? h then Ok []
    else let! l := print_entries fuel m h (KList.next (m iter)) in Ok (pos iter :: l)
  end.

Definition add_req (fuel : nat) (q : request_queue) (req : Z) : res (request_queue * list Z) :=
  let nd := elevator_data q in
  let m := nodes q in
  if list_empty m (queue nd) then Ok (set_nodes q (list_add m req (queue nd)), [])
  else
    let next := KList.next (m (queue nd)) in
    let prev := KList.prev (m (queue nd)) in
    let! p :=
      if pos next <? pos req then walk_up fuel m req prev next
      else walk_down fuel m req prev next in
    let m := list_add m req p in
    let! l := print_entries fuel m (queue nd) (KList.next (m (queue nd))) in
    Ok (set_nodes q m, l).

Definition former_req (q : request_queue) (req : Z) : option Z :=
  let data := elevator_data q in
  if KList.prev (nodes q req) =? queue data then None else Some (KList.prev (nodes q req)).

Definition latter_req (q : request_queue) (req : Z) : option Z :=
  let data := elevator_data q in
  if KList.next (nodes q req) =? queue data then None else Some (KList.next (nodes q req)).

Definition merge_req (q : request_queue) (req next : Z) : request_queue :=
  set_nodes q (list_del_init (nodes q) next).

Definition dispatch_req (q : request_queue) (force : Z) : Z * request_queue :=
  let nd := elevator_data q in
  if negb (list_empty (nodes q) (queue nd)) then
    let req := KList.next (nodes q (queue nd)) in
    (1, {| elevator := elevator q; elevator_data := nd; nodes := list_del_init (nodes q) req;
           dispatched := dispatched q ++ [req]; puts := puts q; frees := frees q |})
  else (0, q).

Definition exit_sstf (q : request_queue) : res request_queue :=
  let data := elevator_data q in
  if negb (list_empty (nodes q) (queue data)) then Bug
  else Ok {| elevator := elevator q; elevator_data := data; nodes := nodes q;
             dispatched := dispatched q; puts := puts q; frees := queue data :: frees q |}.

(** The table of operations that [elev_init] registers (under the name LOOK). *)
Record elevator_type : Type := {
  elevator_init_fn : request_queue -> option Z -> option Z -> Z -> Z * request_queue;
  elevator_add_req_fn : nat -> request_queue -> Z -> res (request_queue * list Z);
  elevator_former_req_fn : request_queue -> Z -> option Z;
  elevator_latter_req_fn : request_queue -> Z -> option Z;
  elevator_merge_req_fn : request_queue -> Z -> Z -> request_queue;
  elevator_dispatch_fn : request_queue -> Z -> Z * request_queue;
  elevator_exit_fn : request_queue -> res request_queue
}.

Definition elevator_sstf : elevator_type :=
  {| elevator_init_fn := init_sstf;
     elevator_add_req_fn := add_req;
     elevator_former_req_fn := former_req;
     elevator_latter_req_fn := latter_req;
     elevator_merge_req_fn := merge_req;
     elevator_dispatch_fn := dispatch_req;
     elevator_exit_fn := exit_sstf |}.

(** The module: [elv_register] and [elv_unregister] are the kernel's, on its
    list [K] of schedulers. *)
Definition elev_init {K : Type} (elv_register : elevator_type -> K -> Z * K) (k : K) : Z * K :=
  elv_register elevator_sstf k.

Definition elev_exit {K : Type} (elv_unregister : elevator_type -> K -> K) (k : K) : K :=
  elv_unregister elevator_sstf k.

(** ** Specification *)

(** The longest prefix of [l] with positions below [x]'s, and the rest. *)
Fixpoint below (x : Z) (l : list Z) : list Z * list Z :=
  match l with
  | [] => ([], [])
  | y :: r => if pos y <? pos x then let '(a, b) := below x r in (y :: a, b) else ([], l)
  end.

(** Where [add_req] puts the request [x] in the list [l] when the memory after
    the list head reads as position [g]; [None] if it never returns. *)
Definition place (g : Z) (x : Z) (l : list Z) : option (list Z) :=
  match l with
  | [] => Some [x]
  | f :: r =>
    if pos f <? pos x then
      match below x l with
      | (_, []) => if g <? pos x then None else Some (l ++ [x])
      | (l1, l2) => Some (l1 ++ x :: l2)
      end
    else
      match below x (reverse l) with
      | ([], _) => Some (f :: x :: r)
      | (r1, r2) =>
        match reverse r1 with
        | y :: s => Some (reverse r2 ++ y :: x :: s)
        | [] => Some l
        end
      end
  end.

Definition by_pos (x y : Z) : Prop := pos x <= pos y.

(** The queue of [q] holds the requests [l]. *)
Definition holds (q : request_queue) (l : list Z) : Prop :=
  dll (nodes q) (queue (elevator_data q)) l.

End Defs.

Section Theory.
Context `{L : ListH} {LL : ListHLaws L} (ENOMEM : Z) (pos : Z -> Z).

Abbreviation walk_up := (walk_up pos).
Abbreviation walk_down := (walk_down pos).
Abbreviation print_entries := (print_entries pos).
Abbreviation below := (below pos).
Abbreviation place := (place pos).
Abbreviation add_req := (add_req pos).

Lemma below_spec x l a b :
  below x l = (a, b) ->
  l = a ++ b /\ Forall (fun y => pos y < pos x) a /\
  (forall y, head b = Some y -> pos x <= pos y).
Proof.
  revert a b. induction l as [|y l IH]; intros a b; cbn [Sstf.below].
  - injection 1 as <- <-. done.
  - destruct (Z.ltb_spec (pos y) (pos x)).
    + destruct (below x l) as [a' b'] eqn:E. injection 1 as <- <-.
      destruct (IH _ _ eq_refl) as (-> & Ha & Hb). auto.
    + injection 1 as <- <-. split; [done|]. split; [constructor|]. by intros ? [= <-].
Qed.

(** ** The two loops of add_req *)

Lemma walk_up_advance m h x l2 l1 a b fuel p :
  dll m h (l1 ++ l2) -> below x l2 = (a, b) ->
  walk_up (length a + fuel) m x p (default h (head l2))
  = walk_up fuel m x (default p (last a)) (default h (head b)).
Proof.
  revert l1 a b p. induction l2 as [|y l2 IH]; intros l1 a b p Hd; cbn [Sstf.below].
  - injection 1 as <- <-. done.
  - destruct (Z.ltb_spec (pos y) (pos x)) as [Hlt|Hge]; [|by injection 1 as <- <-].
    destruct (below x l2) as [a' b'] eqn:E. injection 1 as <- <-.
    cbn [length Nat.add Sstf.walk_up head default from_option id].
    destruct (Z.ltb_spec (pos y) (pos x)); [|lia].
    rewrite (dll_next m h l1 y l2 Hd). rewrite (IH (l1 ++ [y]) a' b' y); [|by rewrite <- app_assoc|done].
    by rewrite last_cons; destruct (last a').
Qed.

Lemma walk_up_found m h x l a b fuel p :
  dll m h l -> below x l = (a, b) -> (b = [] -> pos x <= pos h) -> (length a < fuel)%nat ->
  walk_up fuel m x p (default h (head l)) = Ok (default p (last a)).
Proof.
  intros Hd E Hb Hf. replace fuel with (length a + S (fuel - S (length a)))%nat by lia.
  rewrite (walk_up_advance m h x l [] a b) by done. cbn [Sstf.walk_up].
  destruct (below_spec x l a b E) as (_ & _ & Hy). destruct b as [|y b]; cbn [head default from_option id].
  - specialize (Hb eq_refl). by destruct (Z.ltb_spec (pos h) (pos x)); [lia|].
  - specialize (Hy y eq_refl). by destruct (Z.ltb_spec (pos y) (pos x)); [lia|].
Qed.

(** Nothing on the circle stops the loop. *)
Lemma walk_up_hangs m h x l fuel p n :
  dll m h l -> (forall y, y ∈ h :: l -> pos y < pos x) -> n ∈ h :: l ->
  walk_up fuel m x p n = Fuel.
Proof.
  intros Hd Hall. revert p n. induction fuel as [|fuel IH]; intros p n Hn; [done|].
  cbn [Sstf.walk_up]. destruct (Z.ltb_spec (pos n) (pos x)) as [_|?]; [|specialize (Hall n Hn); lia].
  apply IH. apply elem_of_cons in Hn as [->|Hn].
  - destruct l as [|y l]; [destruct Hd as [[-> _] _]; set_solver|].
    rewrite (dll_first _ _ _ _ Hd). set_solver.
  - apply list_elem_of_split in Hn as (l1 & l2 & ->). rewrite (dll_next _ _ _ _ _ Hd).
    destruct l2; set_solver.
Qed.

Lemma walk_down_advance m h x r l2 a b fuel n :
  dll m h (reverse r ++ l2) -> below x r = (a, b) ->
  walk_down (length a + fuel) m x (default h (head r)) n
  = walk_down fuel m x (default h (head b)) (default n (last a)).
Proof.
  revert l2 a b n. induction r as [|y r IH]; intros l2 a b n Hd; cbn [Sstf.below].
  - injection 1 as <- <-. done.
  - destruct (Z.ltb_spec (pos y) (pos x)) as [Hlt|Hge]; [|by injection 1 as <- <-].
    destruct (below x r) as [a' b'] eqn:E. injection 1 as <- <-.
    cbn [length Nat.add Sstf.walk_down head default from_option id].
    destruct (Z.ltb_spec (pos y) (pos x)); [|lia].
    rewrite reverse_cons, <- app_assoc in Hd. cbn [app] in Hd.
    rewrite (dll_prev m h (reverse r) y l2 Hd).
    rewrite last_reverse, (IH (y :: l2) a' b' y) by done.
    by rewrite last_cons; destruct (last a').
Qed.

Lemma walk_down_found m h x l a y b fuel n :
  dll m h l -> below x (reverse l) = (a, y :: b) -> (length a < fuel)%nat ->
  walk_down fuel m x (default h (last l)) n = Ok (default n (last a)).
Proof.
  intros Hd E Hf. replace fuel with (length a + S (fuel - S (length a)))%nat by lia.
  rewrite <- head_reverse. rewrite (walk_down_advance m h x (reverse l) [] a (y :: b)); [|..].
  - cbn [Sstf.walk_down head default from_option id]. destruct (below_spec x _ _ _ E) as (_ & _ & Hy).
    specialize (Hy y eq_refl). by destruct (Z.ltb_spec (pos y) (pos x)); [lia|].
  - by rewrite reverse_involutive, app_nil_r.
  - done.
Qed.

Lemma print_entries_ok m h l2 l1 fuel :
  dll m h (l1 ++ l2) -> (length l2 < fuel)%nat ->
  print_entries fuel m h (default h (head l2)) = Ok (map pos l2).
Proof.
  revert l1 fuel. induction l2 as [|y l2 IH]; intros l1 fuel Hd Hf;
    (destruct fuel as [|fuel]; [cbn in Hf; lia|]); cbn [Sstf.print_entries head default from_option id].
  - by rewrite Z.eqb_refl.
  - destruct (Z.eqb_spec y h) as [->|Hne].
    { destruct Hd as [_ Hd]. apply NoDup_cons in Hd as [Hd _]. set_solver. }
    rewrite (dll_next m h l1 y l2 Hd). rewrite (IH (l1 ++ [y])); [done|by rewrite <- app_assoc|].
    cbn [length] in Hf. lia.
Qed.

Lemma dll_next_head m h l : dll m h l -> next (m h) = default h (head l).
Proof. intros Hd. destruct l; [by destruct Hd as [[-> _] _]|by apply dll_first in Hd]. Qed.

Lemma dll_prev_head m h l : dll m h l -> prev (m h) = default h (last l).
Proof.
  intros Hd. destruct (snoc_cases l) as [->|(l' & y & ->)].
  - by destruct Hd as [(_ & -> & _) _].
  - rewrite last_snoc. by apply dll_last in Hd.
Qed.

(** ** add_req implements [place] *)

(** The walk of [add_req] on the queue [l]. *)
Definition walk (fuel : nat) (q : request_queue) (req : Z) : res Z :=
  let m := nodes q in
  let h := queue (elevator_data q) in
  if pos (next (m h)) <? pos req then walk_up fuel m req (prev (m h)) (next (m h))
  else walk_down fuel m req (prev (m h)) (next (m h)).

Lemma add_req_insert q x l1 l2 p fuel :
  let h := queue (elevator_data q) in
  holds q (l1 ++ l2) -> x ∉ h :: l1 ++ l2 -> l1 ++ l2 <> [] -> last (h :: l1) = Some p ->
  (length (l1 ++ l2) + 2 <= fuel)%nat -> walk fuel q x = Ok p ->
  let q' := set_nodes q (list_add (nodes q) x p) in
  add_req fuel q x = Ok (q', map pos (l1 ++ x :: l2)) /\ holds q' (l1 ++ x :: l2).
Proof.
  intros h Hq Hx Hne Hp Hf Hw q'. pose proof (list_add_dll _ _ _ _ _ _ Hq Hx Hp) as Hd.
  split; [|exact Hd]. unfold Sstf.add_req.
  rewrite (list_empty_dll _ _ _ Hq), bool_decide_eq_false_2 by done.
  fold (walk fuel q x). rewrite Hw. cbn [res_bind]. fold h in Hd |- *.
  rewrite (dll_next_head _ _ _ Hd), (print_entries_ok _ _ _ []); [done|done|].
  rewrite !length_app in *. cbn [length]. lia.
Qed.

(** [l'] is [l] with [x] inserted after the node [p] of the circle. *)
Definition inserted (h x : Z) (l l' : list Z) (p : Z) : Prop :=
  exists l1 l2, l = l1 ++ l2 /\ l' = l1 ++ x :: l2 /\ last (h :: l1) = Some p.

Lemma place_up q x f r l' :
  let h := queue (elevator_data q) in
  holds q (f :: r) -> pos f < pos x -> place (pos h) x (f :: r) = Some l' ->
  exists p, inserted h x (f :: r) l' p /\
    forall fuel, (length r + 3 <= fuel)%nat ->
      walk_up fuel (nodes q) x (prev (nodes q h)) f = Ok p.
Proof.
  intros h Hq Hlt Hp. unfold Sstf.place in Hp. destruct (Z.ltb_spec (pos f) (pos x)); [|lia].
  destruct (below x (f :: r)) as [a b] eqn:E. destruct (below_spec _ _ _ _ E) as (El & _ & _).
  destruct (snoc_cases a) as [->|(a' & p & ->)].
  { cbn [Sstf.below] in E. destruct (Z.ltb_spec (pos f) (pos x)); [|lia]. by destruct (below x r). }
  assert (l' = (a' ++ [p]) ++ x :: b /\ (b = [] -> pos x <= pos h)) as [-> Hb].
  { destruct b as [|y b]; [|by injection Hp as <-]. rewrite app_nil_r in El.
    destruct (Z.ltb_spec (pos h) (pos x)); [done|]. injection Hp as <-. by rewrite <- El. }
  exists p. split; [exists (a' ++ [p]), b; by rewrite app_comm_cons, last_snoc|]. intros fuel Hf.
  change f with (default h (hd_error (f :: r))). change (hd_error (f :: r)) with (head (f :: r)).
  rewrite (walk_up_found _ h _ _ _ _ _ _ Hq E Hb); [by rewrite last_snoc|].
  apply (f_equal length) in El. rewrite length_app in El. cbn [length] in El. lia.
Qed.

Lemma place_down q x f r l' :
  let h := queue (elevator_data q) in
  holds q (f :: r) -> pos x <= pos f -> place (pos h) x (f :: r) = Some l' ->
  exists p, inserted h x (f :: r) l' p /\
    forall fuel, (length r + 3 <= fuel)%nat ->
      walk_down fuel (nodes q) x (prev (nodes q h)) f = Ok p.
Proof.
  intros h Hq Hge Hp. unfold Sstf.place in Hp. destruct (Z.ltb_spec (pos f) (pos x)); [lia|].
  destruct (below x (reverse (f :: r))) as [a b] eqn:E. destruct (below_spec _ _ _ _ E) as (El & Ha & _).
  apply (f_equal reverse) in El. rewrite reverse_involutive, reverse_app in El.
  assert (exists y b', b = y :: b') as (y & b' & ->).
  { destruct b as [|y b']; [|by eauto]. rewrite reverse_nil in El. cbn [app] in El. exfalso.
    assert (f ∈ a) as Hin by (apply elem_of_reverse; rewrite <- El; set_solver).
    rewrite Forall_forall in Ha. specialize (Ha f Hin). lia. }
  rewrite (dll_prev_head _ _ _ Hq : prev (nodes q h) = _).
  assert (forall fuel, (length r + 3 <= fuel)%nat ->
    walk_down fuel (nodes q) x (default h (last (f :: r))) f = Ok (default f (last a))) as Hw.
  { intros fuel Hf. apply (walk_down_found _ h _ _ a y b'); [done|done|].
    apply (f_equal length) in El. rewrite length_app, !length_reverse in El. cbn [length] in El. lia. }
  destruct (snoc_cases a) as [->|(a' & z & ->)].
  - injection Hp as <-. exists f. split; [by exists [f], r|done].
  - rewrite reverse_snoc in El. exists z. rewrite last_snoc in Hw. split; [|done].
    exists (reverse (y :: b') ++ [z]), (reverse a'). rewrite <- !app_assoc. split; [done|].
    split; [|by rewrite app_comm_cons, last_snoc]. rewrite reverse_snoc in Hp.
    destruct (a' ++ [z]) eqn:Ea; [by destruct a'|]. by injection Hp as <-.
Qed.

Lemma place_ok q x l l' :
  let h := queue (elevator_data q) in
  holds q l -> x ∉ h :: l -> place (pos h) x l = Some l' ->
  exists m, holds (set_nodes q m) l' /\
    forall fuel, (length l + 2 <= fuel)%nat ->
      add_req fuel q x = Ok (set_nodes q m, if decide (l = []) then [] else map pos l').
Proof.
  intros h Hq Hx Hp. destruct l as [|f r].
  - injection Hp as <-. exists (list_add (nodes q) x h).
    split; [by apply (list_add_dll _ _ [] [])|]. intros fuel _.
    unfold Sstf.add_req. by rewrite (list_empty_dll _ _ _ Hq), bool_decide_eq_true_2.
  - assert (exists p, inserted h x (f :: r) l' p /\
              forall fuel, (length r + 3 <= fuel)%nat -> walk fuel q x = Ok p)
      as (p & (l1 & l2 & El & -> & Hlast) & Hw).
    { unfold walk. fold h. rewrite (dll_first _ _ _ _ Hq : next (nodes q h) = f).
      destruct (Z.ltb_spec (pos f) (pos x)); [by apply place_up|by apply place_down]. }
    exists (list_add (nodes q) x p). rewrite El in Hq, Hx. split; [by apply (list_add_dll _ _ l1 l2)|].
    intros fuel Hf. rewrite decide_False by done. rewrite El in *.
    apply (add_req_insert q x l1 l2 p fuel); try done; [by rewrite <- El|].
    apply Hw. rewrite <- El in Hf. cbn [length] in Hf. lia.
Qed.

Lemma place_hangs q x l fuel :
  let h := queue (elevator_data q) in
  holds q l -> place (pos h) x l = None -> add_req fuel q x = Fuel.
Proof.
  intros h Hq Hp. destruct l as [|f r]; [done|]. unfold Sstf.place in Hp.
  destruct (Z.ltb_spec (pos f) (pos x)) as [Hlt|].
  - destruct (below x (f :: r)) as [a b] eqn:E. destruct b as [|y b]; [|done].
    destruct (Z.ltb_spec (pos h) (pos x)); [|done].
    destruct (below_spec _ _ _ _ E) as (El & Ha & _). rewrite app_nil_r in El.
    unfold Sstf.add_req. fold h.
    rewrite (list_empty_dll _ _ _ Hq : list_empty (nodes q) h = _), bool_decide_eq_false_2 by done.
    rewrite (dll_first _ _ _ _ Hq : next (nodes q h) = f).
    destruct (Z.ltb_spec (pos f) (pos x)); [|lia].
    rewrite (walk_up_hangs _ h _ (f :: r)); [done|done| |set_solver].
    rewrite El. intros y [->|Hy]%elem_of_cons; [done|]. by rewrite Forall_forall in Ha; apply Ha.
  - destruct (below x (reverse (f :: r))) as [[|y a] b]; [done|]. by destruct (reverse (y :: a)).
Qed.

(** C10: [add_req] on the pointers of the queue does what [place] does on the
    list of its requests: it inserts the request where [place] says, touches
    nothing but links, and prints the positions of the new queue; and where
    [place] has no result, the first loop runs around the circular list
    forever.  The bound on the loops is the length of the queue plus two. *)
Theorem add_req_place q x l :
  let h := queue (elevator_data q) in
  holds q l -> x ∉ h :: l ->
  match place (pos h) x l with
  | Some l' =>
    exists m, holds (set_nodes q m) l' /\
      forall fuel, (length l + 2 <= fuel)%nat ->
        add_req fuel q x = Ok (set_nodes q m, if decide (l = []) then [] else map pos l')
  | None => forall fuel, add_req fuel q x = Fuel
  end.
Proof.
  intros h Hq Hx. destruct (place (pos h) x l) as [l'|] eqn:E.
  - by apply place_ok.
  - intros fuel. by eapply place_hangs.
Qed.

(** ** No request is lost *)

Lemma place_perm g x l l' : place g x l = Some l' -> l' ≡ₚ x :: l.
Proof.
  destruct l as [|f r]; [by injection 1 as <-|]. unfold Sstf.place. destruct (_ <? _).
  - destruct (below x (f :: r)) as [a b] eqn:E. apply below_spec in E as (-> & _ & _).
    destruct b as [|y b]; [destruct (_ <? _); [done|]|]; injection 1 as <-.
    + rewrite app_nil_r. by rewrite Permutation_app_comm.
    + by rewrite Permutation_middle.
  - destruct (below x (reverse (f :: r))) as [a b] eqn:E. apply below_spec in E as (El & _ & _).
    apply (f_equal reverse) in El. rewrite reverse_involutive, reverse_app in El.
    destruct a as [|y a]; [injection 1 as <-; by rewrite Permutation_swap|].
    destruct (reverse (y :: a)) as [|z s] eqn:Er; injection 1 as <-.
    + apply (f_equal length) in Er. by rewrite length_reverse in Er.
    + by rewrite El, (Permutation_swap x z s), Permutation_middle.
Qed.

Lemma holds_unique q l l' : holds q l -> holds q l' -> l = l'.
Proof using Type.
  apply dll_unique.
Qed.

(** [add_req] returns: any larger bound on its loops gives the same result. *)
Definition add_returns (q : request_queue) (x : Z) (q' : request_queue) : Prop :=
  exists n out, forall fuel, (n <= fuel)%nat -> add_req fuel q x = Ok (q', out).

(** The block layer drives the elevator: it adds a request that is not in the
    queue, asks for a request to be dispatched, or merges a request that is in
    the queue into another one.  The state also records the requests added and
    those merged. *)
Inductive sstf_step : request_queue * list Z * list Z -> request_queue * list Z * list Z -> Prop :=
| sstf_add q x q' added merged :
    x <> queue (elevator_data q) -> (forall l, holds q l -> x ∉ l) -> add_returns q x q' ->
    sstf_step (q, added, merged) (q', x :: added, merged)
| sstf_dispatch q force added merged :
    sstf_step (q, added, merged) ((dispatch_req q force).2, added, merged)
| sstf_merge q req x added merged :
    (exists l, holds q l /\ x ∈ l) ->
    sstf_step (q, added, merged) (merge_req q req x, added, x :: merged).

Lemma dispatch_ok q force l :
  holds q l ->
  match l with
  | [] => dispatch_req q force = (0, q)
  | x :: r => exists q', dispatch_req q force = (1, q') /\ holds q' r /\
      dispatched q' = dispatched q ++ [x] /\ elevator_data q' = elevator_data q
  end.
Proof.
  intros Hq. unfold dispatch_req. rewrite (list_empty_dll _ _ _ Hq). destruct l as [|x r]; [done|].
  rewrite bool_decide_eq_false_2 by done. cbn [negb]. rewrite (dll_first _ _ _ _ Hq).
  eexists. split; [reflexivity|]. split; [|done].
  by destruct (list_del_init_dll _ _ [] _ _ Hq) as [H _].
Qed.

Lemma add_returns_place q x l q' :
  holds q l -> x ∉ queue (elevator_data q) :: l -> add_returns q x q' ->
  exists l', place (pos (queue (elevator_data q))) x l = Some l' /\ holds q' l' /\
    q' = set_nodes q (nodes q').
Proof.
  intros Hq Hx (n & out & Hret).
  destruct (place (pos (queue (elevator_data q))) x l) as [l'|] eqn:E.
  - exists l'. split; [done|].
    destruct (place_ok q x l l' Hq Hx E) as (m & Hm & E1).
    specialize (E1 (n + length l + 2)%nat ltac:(lia)). rewrite Hret in E1 by lia.
    by injection E1 as -> _.
  - pose proof (place_hangs q x l n Hq E) as Hh. by rewrite Hret in Hh.
Qed.

Definition accounted (s : request_queue * list Z * list Z) : Prop :=
  let '(q, added, merged) := s in
  exists l, holds q l /\ added ≡ₚ l ++ dispatched q ++ merged.

Lemma sstf_step_accounted s t : accounted s -> sstf_step s t -> accounted t.
Proof.
  intros Hs Hstep. destruct Hstep as [q x q' added merged Hxh Hx Hret|q force added merged
    |q req x added merged (l0 & Hl0 & Hin)]; destruct Hs as (l & Hq & HP); cbn [accounted].
  - destruct (add_returns_place q x l q' Hq) as (l' & Hp & Hq' & Heq); [|done|].
    { apply not_elem_of_cons. auto. }
    exists l'. split; [done|]. rewrite Heq. cbn [dispatched set_nodes].
    by rewrite (place_perm _ _ _ _ Hp), HP.
  - pose proof (dispatch_ok q force l Hq) as Hd. destruct l as [|x r].
    + rewrite Hd. by exists [].
    + destruct Hd as (q' & -> & Hq' & Hd & _). exists r. split; [done|]. cbn [snd].
      rewrite Hd, HP. solve_Permutation.
  - rewrite (holds_unique q l0 l Hl0 Hq) in Hin. apply list_elem_of_split in Hin as (l1 & l2 & ->).
    exists (l1 ++ l2). split; [by destruct (list_del_init_dll _ _ _ _ _ Hq) as [H _]|].
    cbn [merge_req set_nodes dispatched]. rewrite HP. solve_Permutation.
Qed.

Lemma reachable_accounted q0 elevque data garbage s :
  dispatched q0 = [] ->
  rtc sstf_step ((init_sstf ENOMEM q0 (Some elevque) (Some data) garbage).2, [], []) s -> accounted s.
Proof.
  intros Hd Hr. apply (rtc_invariant sstf_step accounted sstf_step_accounted _ _ Hr).
  exists []. cbn [init_sstf snd dispatched]. rewrite Hd. split; [|done]. apply INIT_LIST_HEAD_dll.
Qed.

(** ** Dispatch, neighbours, exit *)

Fixpoint dispatch_all (n : nat) (q : request_queue) : request_queue :=
  match n with
  | O => q
  | S n => dispatch_all n (dispatch_req q 0).2
  end.

(** [dispatch_req] serves the queue from the front: as many calls as there are
    requests pass all of them, in queue order, to [elv_dispatch_sort]; the next
    call returns 0 and [exit_sstf], which stops the kernel while requests are
    queued, frees the scheduler's data. *)
Lemma dispatch_drains q l :
  holds q l ->
  let q' := dispatch_all (length l) q in
  dispatched q' = dispatched q ++ l /\ holds q' [] /\ dispatch_req q' 0 = (0, q') /\
  exit_sstf q = (if decide (l = []) then exit_sstf q' else Bug) /\
  exists q'', exit_sstf q' = Ok q'' /\ frees q'' = queue (elevator_data q) :: frees q'.
Proof.
  intros Hq.
  assert (exit_sstf q = if decide (l = []) then exit_sstf q else Bug) as Hex.
  { case_decide; [done|]. unfold exit_sstf.
    by rewrite (list_empty_dll _ _ _ Hq), bool_decide_eq_false_2. }
  assert (dispatched (dispatch_all (length l) q) = dispatched q ++ l /\
          holds (dispatch_all (length l) q) [] /\
          elevator_data (dispatch_all (length l) q) = elevator_data q) as (H1 & H2 & H3).
  { clear Hex. revert q Hq. induction l as [|x l IH]; intros q Hq; cbn [length dispatch_all].
    - by rewrite app_nil_r.
    - destruct (dispatch_ok q 0 _ Hq) as (q' & -> & Hq' & Hd & He). cbn [snd].
      destruct (IH q' Hq') as (-> & ? & ->). by rewrite Hd, <- app_assoc. }
  cbn zeta. split; [done|]. split; [done|]. split; [apply (dispatch_ok _ 0 [] H2)|].
  split; [destruct l; [done|]; by rewrite Hex|].
  unfold exit_sstf. rewrite (list_empty_dll _ _ _ H2), bool_decide_eq_true_2 by done.
  eexists. split; [reflexivity|]. cbn [frees]. by rewrite H3.
Qed.

(** C24: whatever the block layer does after a successful [init_sstf], no
    request is lost or invented: the requests added so far are, up to order,
    those in the queue, those passed to [elv_dispatch_sort] and those removed by
    a merge.  As many calls of [dispatch_req] as there are requests in the
    queue pass all of them on in queue order, so that every request added has
    been dispatched or merged; the next call returns 0, and [exit_sstf], which
    stops the kernel while requests are queued, frees the scheduler's data. *)
Theorem sstf_no_request_lost q0 elevque data garbage q added merged :
  dispatched q0 = [] ->
  rtc sstf_step ((init_sstf ENOMEM q0 (Some elevque) (Some data) garbage).2, [], [])
    (q, added, merged) ->
  exists l, holds q l /\ added ≡ₚ l ++ dispatched q ++ merged /\
    let q' := dispatch_all (length l) q in
    dispatched q' = dispatched q ++ l /\ added ≡ₚ dispatched q' ++ merged /\
    dispatch_req q' 0 = (0, q') /\ (l <> [] -> exit_sstf q = Bug) /\
    exists q'', exit_sstf q' = Ok q'' /\ frees q'' = queue (elevator_data q) :: frees q'.
Proof.
  intros Hd Hr. destruct (reachable_accounted q0 elevque data garbage _ Hd Hr) as (l & Hq & HP).
  exists l. split; [done|]. split; [done|].
  destruct (dispatch_drains q l Hq) as (H1 & _ & H2 & H3 & H4). cbn zeta.
  split; [done|]. split; [rewrite H1, HP; solve_Permutation|]. split; [done|]. split; [|done].
  intros Hne. by rewrite H3, decide_False.
Qed.

(** [former_req] and [latter_req] give the neighbours of a queued request,
    and NULL at the ends of the queue. *)
Theorem former_latter q l1 x l2 :
  holds q (l1 ++ x :: l2) -> former_req q x = last l1 /\ latter_req q x = head l2.
Proof using Type.
  intros Hq. split; [by eapply dll_former|by eapply dll_latter].
Qed.

(** ** The order of the queue *)

Abbreviation by_pos := (by_pos pos).

Lemma sorted_app_inv l1 l2 : StronglySorted by_pos (l1 ++ l2) ->
  StronglySorted by_pos l1 /\ StronglySorted by_pos l2.
Proof. intros H. split; [by eapply StronglySorted_app_1_l|by eapply StronglySorted_app_1_r]. Qed.

Lemma sorted_insert x a b :
  StronglySorted by_pos (a ++ b) -> Forall (fun y => pos y < pos x) a ->
  (forall y, head b = Some y -> pos x <= pos y) -> StronglySorted by_pos (a ++ x :: b).
Proof.
  intros Hs Ha Hb. induction a as [|y a IH]; cbn [app] in *.
  - constructor; [done|]. destruct b as [|z b]; [constructor|]. specialize (Hb z eq_refl).
    apply StronglySorted_inv in Hs as [_ Hs]. constructor; [done|].
    eapply Forall_impl; [exact Hs|]. intros w Hw. unfold Sstf.by_pos in *. lia.
  - apply StronglySorted_inv in Hs as [Hs Hy]. apply Forall_cons in Ha as [Hyx Ha].
    constructor; [by apply IH|]. apply Forall_app in Hy as [Hy1 Hy2]. apply Forall_app.
    split; [done|]. constructor; [unfold Sstf.by_pos; lia|done].
Qed.

Lemma place_sorted g x f r l' :
  StronglySorted by_pos (f :: r) -> pos f < pos x -> place g x (f :: r) = Some l' ->
  StronglySorted by_pos l'.
Proof.
  intros Hs Hlt Hp. unfold Sstf.place in Hp. destruct (Z.ltb_spec (pos f) (pos x)); [|lia].
  destruct (below x (f :: r)) as [a b] eqn:E. destruct (below_spec _ _ _ _ E) as (El & Ha & Hb).
  rewrite El in Hs.
  assert (l' = a ++ x :: b) as ->; [|by apply sorted_insert].
  destruct b as [|y b]; [|by injection Hp as <-]. rewrite app_nil_r in El.
  destruct (_ <? _); [done|]. injection Hp as <-. by rewrite <- El.
Qed.

Lemma place_front g x f r :
  StronglySorted by_pos (f :: r) -> pos x <= pos f -> place g x (f :: r) = Some (f :: x :: r).
Proof.
  intros Hs Hle. unfold Sstf.place. destruct (Z.ltb_spec (pos f) (pos x)); [lia|].
  assert (exists y t, reverse (f :: r) = y :: t /\ pos f <= pos y) as (y & t & -> & Hy).
  { destruct (snoc_cases (f :: r)) as [?|(l & y & E)]; [done|].
    exists y, (reverse l). rewrite E, reverse_snoc. split; [done|].
    assert (y ∈ f :: r) as Hin by (rewrite E; set_solver).
    apply StronglySorted_inv in Hs as [_ Hs]. rewrite Forall_forall in Hs.
    apply elem_of_cons in Hin as [->|Hin]; [lia|]. by apply Hs. }
  cbn [Sstf.below]. by destruct (Z.ltb_spec (pos y) (pos x)); [lia|].
Qed.

Lemma place_none g x f r :
  place g x (f :: r) = None <-> g < pos x /\ Forall (fun y => pos y < pos x) (f :: r).
Proof.
  unfold Sstf.place. destruct (Z.ltb_spec (pos f) (pos x)) as [Hlt|Hge].
  - destruct (below x (f :: r)) as [a b] eqn:E. destruct (below_spec _ _ _ _ E) as (El & Ha & Hb).
    rewrite El, Forall_app. destruct b as [|y b].
    + destruct (Z.ltb_spec g (pos x)); [|by split; [|lia]]. by split.
    + split; [done|]. intros (_ & _ & [Hy _]%Forall_cons). specialize (Hb y eq_refl). lia.
  - split; [|intros [_ [Hf _]%Forall_cons]; lia].
    destruct (below x (reverse (f :: r))) as [[|y a] b]; [done|]. by destruct (reverse (y :: a)).
Qed.

(** A request beyond the first one of an ordered queue is inserted at its
    place, unless every node of the circle reads as a smaller position. *)
Lemma add_keeps_order q x f r :
  holds q (f :: r) -> x ∉ queue (elevator_data q) :: f :: r ->
  StronglySorted by_pos (f :: r) -> pos f < pos x ->
  (exists y, y ∈ queue (elevator_data q) :: f :: r /\ pos x <= pos y) ->
  exists q' l', add_returns q x q' /\ holds q' l' /\ l' ≡ₚ x :: f :: r /\
    StronglySorted by_pos l'.
Proof.
  intros Hq Hx Hs Hlt (y & Hy & Hle).
  destruct (place (pos (queue (elevator_data q))) x (f :: r)) as [l'|] eqn:E.
  - destruct (place_ok q x _ l' Hq Hx E) as (m & Hq' & Hret). exists (set_nodes q m), l'.
    split; [eexists _, _; exact Hret|]. split; [done|].
    split; [by eapply place_perm|by eapply place_sorted].
  - apply place_none in E as [Hg Hall]. rewrite Forall_forall in Hall.
    apply elem_of_cons in Hy as [->|Hy]; [lia|]. specialize (Hall y Hy). lia.
Qed.

(** If every node does, [add_req] never returns. *)
Lemma add_order_hangs q x f r :
  holds q (f :: r) -> Forall (fun y => pos y < pos x) (queue (elevator_data q) :: f :: r) ->
  forall fuel, add_req fuel q x = Fuel.
Proof.
  intros Hq [Hg Hall]%Forall_cons fuel. eapply place_hangs; [exact Hq|]. by apply place_none.
Qed.

(** A request not beyond the first one of an ordered queue is inserted after
    it. *)
Lemma add_breaks_order q x f r :
  holds q (f :: r) -> x ∉ queue (elevator_data q) :: f :: r ->
  StronglySorted by_pos (f :: r) -> pos x <= pos f ->
  exists q', add_returns q x q' /\ holds q' (f :: x :: r) /\
    (StronglySorted by_pos (f :: x :: r) <-> pos x = pos f) /\
    dispatched (dispatch_req q' 0).2 = dispatched q ++ [f].
Proof.
  intros Hq Hx Hs Hle.
  pose proof (place_front (pos (queue (elevator_data q))) x f r Hs Hle) as Hp.
  destruct (place_ok q x (f :: r) _ Hq Hx Hp) as (m & Hq' & E).
  exists (set_nodes q m). split; [eexists _, _; exact E|]. split; [done|]. split.
  - split.
    + intros [_ Hall]%StronglySorted_inv. apply Forall_cons in Hall as [Hfx _].
      unfold Sstf.by_pos in Hfx. lia.
    + intros Eq. apply StronglySorted_inv in Hs as [Hs Hf].
      assert (Forall (by_pos x) r) as Hxr.
      { eapply Forall_impl; [exact Hf|]. intros w Hw. unfold Sstf.by_pos in *. lia. }
      constructor; [by constructor|]. constructor; [unfold Sstf.by_pos; lia|done].
  - by destruct (dispatch_ok _ 0 _ Hq') as (q2 & -> & _ & Hd & _).
Qed.

(** C25: what [add_req] does to a queue in ascending order of the sectors.  A
    request beyond the first one is inserted at its place, and the queue stays
    in order, provided some queued request, or what the memory after the list
    head reads as, is not below it; otherwise [add_req] never returns.  A
    request at the sector of the first one or before it is inserted after it:
    [add_req] returns, the next [dispatch_req] serves the first request, and
    the queue is in order only if the sectors are equal. *)
Theorem add_req_order q x f r :
  holds q (f :: r) -> x ∉ queue (elevator_data q) :: f :: r -> StronglySorted by_pos (f :: r) ->
  (pos f < pos x -> (exists y, y ∈ queue (elevator_data q) :: f :: r /\ pos x <= pos y) ->
     exists q' l', add_returns q x q' /\ holds q' l' /\ l' ≡ₚ x :: f :: r /\
       StronglySorted by_pos l') /\
  (Forall (fun y => pos y < pos x) (queue (elevator_data q) :: f :: r) ->
     forall fuel, add_req fuel q x = Fuel) /\
  (pos x <= pos f ->
     exists q', add_returns q x q' /\ holds q' (f :: x :: r) /\
       (StronglySorted by_pos (f :: x :: r) <-> pos x = pos f) /\
       dispatched (dispatch_req q' 0).2 = dispatched q ++ [f]).
Proof.
  intros Hq Hx Hs. split; [intros; by apply add_keeps_order|].
  split; [by eapply add_order_hangs|intros; by apply add_breaks_order].
Qed.

(** ** Starvation *)

(** Between the request being served and a request [x] that waits at the end,
    a new request not beyond [x] goes in front of [x]. *)
Lemma place_overtakes g f x y :
  pos f <= pos x -> pos y <= pos x -> place g y [f; x] = Some [f; y; x].
Proof.
  intros Hf Hy. unfold Sstf.place. cbn [reverse rev_append Sstf.below].
  destruct (Z.ltb_spec (pos f) (pos y)), (Z.ltb_spec (pos x) (pos y)); (done || lia).
Qed.

(** One request is added, one dispatched. *)
Lemma overtake_step q f x y added merged :
  holds q [f; x] -> NoDup [queue (elevator_data q); f; x; y] -> pos f <= pos x -> pos y <= pos x ->
  exists q', rtc sstf_step (q, added, merged) (q', y :: added, merged) /\
    holds q' [y; x] /\ elevator_data q' = elevator_data q /\ dispatched q' = dispatched q ++ [f].
Proof.
  intros Hq Hnd Hf Hy. pose proof (place_overtakes (pos (queue (elevator_data q))) f x y Hf Hy) as Hp.
  rewrite !NoDup_cons in Hnd. destruct Hnd as (N1 & N2 & N3 & _).
  assert (y ∉ queue (elevator_data q) :: [f; x]) as Hfresh by set_solver.
  destruct (place_ok q y [f; x] _ Hq Hfresh Hp) as (m & Hm & E).
  destruct (dispatch_ok _ 0 _ Hm) as (q' & Hd & Hq' & Hdis & He). exists q'. split; [|done].
  eapply rtc_l; [apply (sstf_add q y (set_nodes q m))|].
  - set_solver.
  - intros l Hl. rewrite (holds_unique q l [f; x] Hl Hq). set_solver.
  - eexists _, _. exact E.
  - apply rtc_once. replace q' with (dispatch_req (set_nodes q m) 0).2 by (by rewrite Hd).
    apply sstf_dispatch.
Qed.

(** C26: the scheduler starves requests.  Let [x] wait behind the request [f].
    However many requests [ys], at sectors not beyond [x]'s (all at the same
    sector, say), arrive one at a time, one being dispatched after each: every
    one of them is inserted before [x] and served first, although [x] was
    queued before all of them, and [x] is still at the end of the queue. *)
Theorem sstf_starves q f x ys added merged :
  holds q [f; x] -> NoDup (queue (elevator_data q) :: x :: f :: ys) ->
  Forall (fun y => pos y <= pos x) (f :: ys) ->
  exists q' y, rtc sstf_step (q, added, merged) (q', reverse ys ++ added, merged) /\
    holds q' [y; x] /\ dispatched q' ++ [y] = dispatched q ++ f :: ys.
Proof.
  revert q f added. induction ys as [|y ys IH]; intros q f added Hq Hnd Hle; [by exists q, f|].
  apply Forall_cons in Hle as [Hf Hle]. pose proof Hle as [Hy _]%Forall_cons.
  pose proof Hnd as Hnd1. rewrite !NoDup_cons in Hnd1. destruct Hnd1 as (N1 & N2 & N3 & N4 & N5).
  destruct (overtake_step q f x y added merged Hq) as (q1 & Hr & Hq1 & He & Hd); [|done|done|].
  { rewrite !NoDup_cons. repeat split; [set_solver..|constructor]. }
  destruct (IH q1 y (y :: added) Hq1) as (q' & z & Hr' & Hq' & Hd'); [|done|].
  { rewrite He, !NoDup_cons. repeat split; [set_solver..|done]. }
  exists q', z. split; [etrans; [exact Hr|by rewrite reverse_cons, <- app_assoc]|]. split; [done|].
  by rewrite Hd', Hd, <- app_assoc.
Qed.

(** ** Termination of add_req *)

(** C27: [add_req] returns exactly when the queue is empty or some node of the
    circle, the list head included, reads as a position that is not below the
    request's.  A request beyond all queued requests therefore returns only
    thanks to what the memory after the list head happens to hold; when that
    reads as a smaller sector (0, say), [add_req] loops forever. *)
Theorem add_req_returns_iff q x l :
  holds q l -> x ∉ queue (elevator_data q) :: l ->
  (exists q', add_returns q x q') <->
  l = [] \/ exists y, y ∈ queue (elevator_data q) :: l /\ pos x <= pos y.
Proof.
  intros Hq Hx. set (h := queue (elevator_data q)) in *.
  assert ((exists q', add_returns q x q') <-> place (pos h) x l <> None) as ->.
  { destruct (place (pos h) x l) as [l'|] eqn:E.
    - destruct (place_ok q x l l' Hq Hx E) as (m & _ & H). split; [done|]. intros _.
      exists (set_nodes q m). eexists _, _. exact H.
    - split; [|done]. intros (q' & n & out & Hret). specialize (Hret n ltac:(lia)).
      by rewrite (place_hangs q x l n Hq E) in Hret. }
  destruct l as [|f r]; [split; [by left|done]|]. rewrite place_none.
  assert (pos h < pos x /\ Forall (fun y => pos y < pos x) (f :: r) <->
          Forall (fun y => pos y < pos x) (h :: f :: r)) as -> by (by rewrite (Forall_cons _ h)).
  split.
  - intros Hn. right. apply not_Forall_Exists, Exists_exists in Hn as (y & Hy & Hlt); [|apply _].
    exists y. split; [done|]. cbn in Hlt. lia.
  - intros [?|(y & Hy & Hle)] Hall; [done|]. rewrite Forall_forall in Hall. specialize (Hall y Hy). lia.
Qed.

End Theory.

(** ** Concrete queues *)

Module Runs.
Import Pointers.

(** Requests 1, 2, 3, ... at the sectors below; the list head is at 100, and
    what follows it in memory reads as sector [g]. *)
Definition sector (g : Z) (x : Z) : Z :=
  match x with 1 => 10 | 2 => 20 | 3 => 5 | 4 => 15 | 5 => 99 | 100 => g | _ => 0 end.

Definition queue0 : request_queue :=
  (init_sstf 12 {| elevator := None; elevator_data := {| queue := 0; dir := 0; head_sector := 0 |};
     nodes := fun _ => {| next := 0; prev := 0 |}; dispatched := []; puts := []; frees := [] |}
     (Some 50) (Some 100) 0).2.

(** Requests 1 and 2, at sectors 10 and 20, queued in this order. *)
Definition queue12 : request_queue :=
  set_nodes queue0 (list_add (list_add (nodes queue0) 1 100) 2 1).

Lemma queue0_holds : holds queue0 [].
Proof. apply (INIT_LIST_HEAD_dll _ 100). Qed.

Lemma queue12_holds : holds queue12 [1; 2].
Proof.
  split; [by vm_compute|]. apply (bool_decide_unpack _). by vm_compute.
Qed.

Lemma queue12_fresh x : (x =? 100) || (x =? 1) || (x =? 2) = false -> x ∉ [100; 1; 2].
Proof.
  intros H. rewrite !orb_false_iff, !Z.eqb_neq in H. set_solver.
Qed.

Lemma sorted12 g : StronglySorted (by_pos (sector g)) [1; 2].
Proof. repeat constructor; by vm_compute. Qed.

Lemma add_req_place_witness :
  exists m, holds (set_nodes queue12 m) [1; 4; 2] /\
    add_req (sector 0) 4 queue12 4 = Ok (set_nodes queue12 m, [10; 15; 20]).
Proof.
  destruct (add_req_place (sector 0) queue12 4 [1; 2]) as (m & H1 & H2).
  - apply queue12_holds.
  - by apply queue12_fresh.
  - exists m. split; [exact H1|]. exact (H2 4%nat (le_n 4)).
Defined.

Lemma add_req_returns_iff_witness :
  (exists q', add_returns (sector 100) queue12 5 q') /\
  ~ (exists q', add_returns (sector 0) queue12 5 q').
Proof.
  split.
  - apply (add_req_returns_iff (sector 100) queue12 5 [1; 2]).
    + apply queue12_holds.
    + by apply queue12_fresh.
    + right. exists 100. split; [set_solver|by vm_compute].
  - rewrite (add_req_returns_iff (sector 0) queue12 5 [1; 2] queue12_holds)
      by (by apply queue12_fresh).
    intros [?|(y & Hy & Hle)]; [done|].
    rewrite !elem_of_cons, elem_of_nil in Hy. destruct Hy as [->|[->|[->|[]]]]; by vm_compute in Hle.
Defined.

(** A request at sector 15 goes to its place, one at sector 5 does not, and for
    one at sector 99 [add_req] does not return. *)
Lemma add_req_order_witness :
  (exists q' l', add_returns (sector 0) queue12 4 q' /\ holds q' l' /\
    StronglySorted (by_pos (sector 0)) l') /\
  add_req (sector 0) 1000 queue12 5 = Fuel /\
  (exists q', add_returns (sector 0) queue12 3 q' /\ holds q' [1; 3; 2] /\
    dispatched (dispatch_req q' 0).2 = [1]).
Proof.
  split; [|split].
  - destruct (add_req_order (sector 0) queue12 4 1 [2] queue12_holds) as [H _];
      [by apply queue12_fresh|apply sorted12|].
    destruct H as (q' & l' & H1 & H2 & _ & H3); [by vm_compute| |].
    + exists 2. split; [set_solver|by vm_compute].
    + exists q', l'. split; [exact H1|]. split; [exact H2|exact H3].
  - destruct (add_req_order (sector 0) queue12 5 1 [2] queue12_holds) as (_ & H & _);
      [by apply queue12_fresh|apply sorted12|].
    apply H. repeat constructor; by vm_compute.
  - destruct (add_req_order (sector 0) queue12 3 1 [2] queue12_holds) as (_ & _ & H);
      [by apply queue12_fresh|apply sorted12|].
    destruct (H ltac:(by vm_compute)) as (q' & H1 & H2 & _ & H3).
    exists q'. split; [exact H1|]. split; [exact H2|exact H3].
Defined.

Lemma former_latter_witness : former_req queue12 2 = Some 1 /\ latter_req queue12 2 = None.
Proof. apply (former_latter queue12 [1] 2 [] queue12_holds). Defined.

(** Request 1 is added and dispatched. *)
Lemma sstf_no_request_lost_witness :
  exists q l, rtc (sstf_step (sector 0)) (queue0, [], []) (q, [1], []) /\ dispatched q = [1] /\
    holds q l /\ [1] ≡ₚ l ++ dispatched q ++ [] /\ [1] ≡ₚ dispatched (dispatch_all (length l) q) ++ [].
Proof.
  destruct (place_ok (sector 0) queue0 1 [] [1]) as (m & Hm & E);
    [apply queue0_holds|by apply (bool_decide_unpack _)|by vm_compute|].
  pose proof (dispatch_ok (set_nodes queue0 m) 0 [1] Hm) as (q' & Hd & _ & Hq & _).
  assert (rtc (sstf_step (sector 0)) (queue0, [], []) (q', [1], [])) as Hr.
  { eapply rtc_l; [apply (sstf_add _ queue0 1 (set_nodes queue0 m) [] [])|].
    - done.
    - intros l Hl. rewrite (holds_unique _ _ _ Hl queue0_holds). set_solver.
    - eexists _, _. exact E.
    - apply rtc_once. replace q' with (dispatch_req (set_nodes queue0 m) 0).2 by (by rewrite Hd).
      apply sstf_dispatch. }
  destruct (sstf_no_request_lost 12 (sector 0)
    {| elevator := None; elevator_data := {| queue := 0; dir := 0; head_sector := 0 |};
       nodes := fun _ => {| next := 0; prev := 0 |}; dispatched := []; puts := []; frees := [] |}
    50 100 0 q' [1] [] eq_refl Hr) as (l & H1 & H2 & _ & H3 & _).
  exists q', l. split; [exact Hr|]. split; [exact Hq|]. split; [exact H1|]. split; [exact H2|exact H3].
Defined.

(** Requests 6 and 7 overtake request 2. *)
Lemma sstf_starves_witness :
  exists q' y, rtc (sstf_step (sector 0)) (queue12, [2; 1], []) (q', [7; 6; 2; 1], []) /\
    holds q' [y; 2] /\ dispatched q' ++ [y] = [1; 6; 7].
Proof.
  apply (sstf_starves (sector 0) queue12 1 2 [6; 7] [2; 1] [] queue12_holds).
  - apply (bool_decide_unpack _). by vm_compute.
  - repeat constructor; by vm_compute.
Defined.

End Runs.
