(* ===== verification/Con3.v ===== *)
(** * con3.c: searchers, inserters and deleters on a linked list

    [concurrency/concurrency3/con3.c]: nine threads share a singly linked list
    and two mutexes (the third, [delete_lock], is never used).  Each kind of
    thread is a function that makes one step, that is one access to shared
    memory or to a mutex; [step] interleaves the nine threads in any order.
    The fields of one node are read in one step (no thread writes [val] of a node
    that another one can see), and so are the reads and the write that unlink a
    node, which both mutexes protect.  The values of [rand ()] and [malloc ()]
    are inputs of a step.

    The heap maps the address of every allocated node to the node; an access
    to an address that is not in it (freed, or NULL) puts the thread in a crash
    state that says where the access was. *)

From S2P Require Import Prelude.

(** ** The shared state *)

Record linked_list : Type := { next : Z; val : Z }.

Definition NULL : Z := 0.

Inductive tid : Type := Searcher (i : nat) | Inserter (i : nat) | Deleter (i : nat).

#[export] Instance tid_eq_dec : EqDecision tid.
Proof. solve_decision. Defined.

Inductive message : Type :=
| new_item (v : Z)
| value_deleted (v : Z)
| list_is_empty
| searching
| found (v : Z).

Record shared : Type := {
  heap : gmap Z linked_list;
  head : Z;
  search_lock : option tid;
  insert_lock : option tid;
  printed : list message
}.

Definition set_heap (s : shared) (h : gmap Z linked_list) : shared :=
  {| heap := h; head := head s; search_lock := search_lock s; insert_lock := insert_lock s;
     printed := printed s |}.

Definition set_head (s : shared) (a : Z) : shared :=
  {| heap := heap s; head := a; search_lock := search_lock s; insert_lock := insert_lock s;
     printed := printed s |}.

Definition set_search_lock (s : shared) (o : option tid) : shared :=
  {| heap := heap s; head := head s; search_lock := o; insert_lock := insert_lock s;
     printed := printed s |}.

Definition set_insert_lock (s : shared) (o : option tid) : shared :=
  {| heap := heap s; head := head s; search_lock := search_lock s; insert_lock := o;
     printed := printed s |}.

Definition print (s : shared) (m : message) : shared :=
  {| heap := heap s; head := head s; search_lock := search_lock s; insert_lock := insert_lock s;
     printed := printed s ++ [m] |}.

(** Where an invalid access happens. *)
Inductive access : Type := in_linked_list_size | after_failed_malloc | with_lock_held.

(** ** linked_list_size *)

(** The traversal is at [cur] and has counted [i] nodes. *)
Inductive size_result : Type := size_more (cur : Z) (i : Z) | size_is (i : Z) | size_crash.

Definition linked_list_size_step (s : shared) (cur i : Z) : size_result :=
  if cur =? NULL then size_is i
  else match heap s !! cur with
       | Some n => size_more (next n) (i + 1)
       | None => size_crash
       end.

(** The whole traversal, when no other thread runs. *)
Fixpoint linked_list_size (fuel : nat) (s : shared) (cur i : Z) : res Z :=
  match fuel with
  | O => Fuel
  | S fuel =>
    match linked_list_size_step s cur i with
    | size_more cur i => linked_list_size fuel s cur i
    | size_is i => Ok i
    | size_crash => Fault
    end
  end.

(** ** search *)

Inductive search_pc : Type :=
| s_try                      (* pthread_mutex_trylock (&search_lock) *)
| s_head                     (* search_list = head *)
| s_walk (search_list : Z)   (* while (search_list != NULL) *)
| s_unlock
| s_crash (w : access).

Definition search_step (t : nat) (s : shared) (pc : search_pc) : shared * search_pc :=
  match pc with
  | s_try =>
    match search_lock s with
    | None => (set_search_lock s (Some (Searcher t)), s_head)
    | Some _ => (s, s_try)
    end
  | s_head =>
    if head s =? NULL then (print s list_is_empty, s_try)     (* continue *)
    else (print s searching, s_walk (head s))
  | s_walk c =>
    if c =? NULL then (s, s_unlock)
    else match heap s !! c with
         | Some n => (print s (found (val n)), s_walk (next n))
         | None => (s, s_crash with_lock_held)
         end
  | s_unlock => (set_search_lock s None, s_try)
  | s_crash w => (s, s_crash w)
  end.

(** ** insert *)

(** [end] is [&head] or the address of the [next] field of a node. *)
Inductive pointer : Type := addr_head | addr_next (a : Z).

Definition read (s : shared) (e : pointer) : option Z :=
  match e with
  | addr_head => Some (head s)
  | addr_next a => match heap s !! a with Some n => Some (next n) | None => None end
  end.

Definition write (s : shared) (e : pointer) (v : Z) : option shared :=
  match e with
  | addr_head => Some (set_head s v)
  | addr_next a =>
    match heap s !! a with
    | Some n => Some (set_heap s (<[a := {| next := v; val := val n |}]> (heap s)))
    | None => None
    end
  end.

Inductive insert_pc : Type :=
| i_start                                 (* linked_list_size () *)
| i_size (cur i : Z)
| i_try                                   (* pthread_mutex_trylock (&insert_lock) *)
| i_alloc                                 (* rand () % 10, malloc, the fields *)
| i_check (insert_list : Z)               (* if (head == NULL) *)
| i_walk (insert_list : Z) (e : pointer)  (* while ( *end != NULL) *)
| i_link (insert_list : Z) (e : pointer)  (* *end = insert_list *)
| i_unlock
| i_crash (w : access).

Definition insert_step (t : nat) (rand malloc : Z) (s : shared) (pc : insert_pc)
  : shared * insert_pc :=
  match pc with
  | i_start => (s, i_size (head s) 0)
  | i_size cur i =>
    match linked_list_size_step s cur i with
    | size_more cur i => (s, i_size cur i)
    | size_is i => (s, if i <? 25 then i_try else i_start)
    | size_crash => (s, i_crash in_linked_list_size)
    end
  | i_try =>
    match insert_lock s with
    | None => (set_insert_lock s (Some (Inserter t)), i_alloc)
    | Some _ => (s, i_start)
    end
  | i_alloc =>
    let rand_num := Z.rem rand 10 in
    let s := print s (new_item rand_num) in
    if malloc =? NULL then (s, i_crash after_failed_malloc)
    else (set_heap s (<[malloc := {| next := NULL; val := rand_num |}]> (heap s)), i_check malloc)
  | i_check a =>
    (* head == insert_list; has no effect *)
    if head s =? NULL then (s, i_unlock) else (s, i_walk a addr_head)
  | i_walk a e =>
    match read s e with
    | Some v => if v =? NULL then (s, i_link a e) else (s, i_walk a (addr_next v))
    | None => (s, i_crash with_lock_held)
    end
  | i_link a e =>
    match write s e a with
    | Some s => (s, i_unlock)
    | None => (s, i_crash with_lock_held)
    end
  | i_unlock => (set_insert_lock s None, i_start)
  | i_crash w => (s, i_crash w)
  end.

(** ** delete *)

(** [prev] is not initialised in the source; NULL stands for its first value,
    which no run uses ([delete_ok]: it is used only after a node was passed). *)
Inductive delete_pc : Type :=
| d_start                                      (* linked_list_size () *)
| d_size (cur i : Z)
| d_try_insert                                 (* pthread_mutex_trylock (&insert_lock) *)
| d_try_search                                 (* pthread_mutex_trylock (&search_lock) *)
| d_head                                       (* delete_list = head; rand () % 10 *)
| d_walk (delete_list prev delete_node : Z)    (* while (delete_list != NULL) *)
| d_found (delete_list prev : Z)               (* if (delete_list == head) *)
| d_free (delete_list : Z)                     (* free (delete_list) *)
| d_unlock_search
| d_unlock_insert
| d_crash (w : access).

Definition delete_step (t : nat) (rand : Z) (s : shared) (pc : delete_pc) : shared * delete_pc :=
  match pc with
  | d_start => (s, d_size (head s) 0)
  | d_size cur i =>
    match linked_list_size_step s cur i with
    | size_more cur i => (s, d_size cur i)
    | size_is i => (s, if 1 <? i then d_try_insert else d_start)
    | size_crash => (s, d_crash in_linked_list_size)
    end
  | d_try_insert =>
    match insert_lock s with
    | None => (set_insert_lock s (Some (Deleter t)), d_try_search)
    | Some _ => (s, d_start)
    end
  | d_try_search =>
    match search_lock s with
    | None => (set_search_lock s (Some (Deleter t)), d_head)
    | Some _ => (s, d_unlock_insert)
    end
  | d_head => (s, d_walk (head s) NULL (Z.rem rand 10))
  | d_walk c p r =>
    if c =? NULL then (s, d_unlock_search)
    else match heap s !! c with
         | Some n =>
           if val n =? r then (print s (value_deleted r), d_found c p)
           else (s, d_walk (next n) c r)
         | None => (s, d_crash with_lock_held)
         end
  | d_found c p =>
    match heap s !! c with
    | Some n =>
      if c =? head s then (set_head s (next n), d_free c)
      else match write s (addr_next p) (next n) with
           | Some s => (s, d_free c)
           | None => (s, d_crash with_lock_held)
           end
    | None => (s, d_crash with_lock_held)
    end
  | d_free c => (set_heap s (delete c (heap s)), d_unlock_search)
  | d_unlock_search => (set_search_lock s None, d_unlock_insert)
  | d_unlock_insert => (set_insert_lock s None, d_start)
  | d_crash w => (s, d_crash w)
  end.

(** ** The program *)

Record program : Type := {
  sh : shared;
  searchers : nat -> search_pc;
  inserters : nat -> insert_pc;
  deleters : nat -> delete_pc
}.

Definition upd {A : Type} (f : nat -> A) (i : nat) (x : A) : nat -> A :=
  fun j => if decide (j = i) then x else f j.

(** [malloc] returns NULL or the address of new memory. *)
Definition malloc_ok (s : shared) (a : Z) : Prop := a = NULL \/ heap s !! a = None.

Inductive choice : Type :=
| run_searcher (i : nat)
| run_inserter (i : nat) (rand malloc : Z)
| run_deleter (i : nat) (rand : Z).

Definition do_step (p : program) (c : choice) : program :=
  match c with
  | run_searcher i =>
    let '(s, pc) := search_step i (sh p) (searchers p i) in
    {| sh := s; searchers := upd (searchers p) i pc; inserters := inserters p;
       deleters := deleters p |}
  | run_inserter i r a =>
    let '(s, pc) := insert_step i r a (sh p) (inserters p i) in
    {| sh := s; searchers := searchers p; inserters := upd (inserters p) i pc;
       deleters := deleters p |}
  | run_deleter i r =>
    let '(s, pc) := delete_step i r (sh p) (deleters p i) in
    {| sh := s; searchers := searchers p; inserters := inserters p;
       deleters := upd (deleters p) i pc |}
  end.

Definition choice_ok (p : program) (c : choice) : Prop :=
  match c with
  | run_searcher i => (i < 3)%nat
  | run_inserter i r a => (i < 3)%nat /\ 0 <= r /\ malloc_ok (sh p) a
  | run_deleter i r => (i < 3)%nat /\ 0 <= r
  end.

Inductive step (p : program) : program -> Prop :=
| step_choice c : choice_ok p c -> step p (do_step p c).

(** [main] after its [malloc] gave the node at [a], before the first thread
    runs. *)
Definition main_state (a v : Z) : program :=
  {| sh := {| heap := {[ a := {| next := NULL; val := v |} ]}; head := a;
              search_lock := None; insert_lock := None; printed := [] |};
     searchers := fun _ => s_try; inserters := fun _ => i_start; deleters := fun _ => d_start |}.

Definition reachable (p : program) : Prop :=
  exists a v, a <> NULL /\ rtc step (main_state a v) p.

(** ** Specification *)

(** From [a] the nodes [l] are linked, up to NULL. *)
Fixpoint chain (h : gmap Z linked_list) (a : Z) (l : list Z) : Prop :=
  match l with
  | [] => a = NULL
  | x :: r => a = x /\ x <> NULL /\ exists n, h !! x = Some n /\ chain h (next n) r
  end.

(** The shared list holds the nodes [l]. *)
Definition list_is (s : shared) (l : list Z) : Prop := chain (heap s) (head s) l /\ NoDup l.

(** A node that is not in the list yet. *)
Definition pending (s : shared) (l : list Z) (a : Z) : Prop :=
  a <> NULL /\ (a ∉ l) /\ exists v, heap s !! a = Some {| next := NULL; val := v |}.

(** What is known where each thread is. *)
Definition search_ok (s : shared) (l : list Z) (i : nat) (pc : search_pc) : Prop :=
  match pc with
  | s_try => True
  | s_head | s_unlock => search_lock s = Some (Searcher i)
  | s_walk c => search_lock s = Some (Searcher i) /\ (c = NULL \/ c ∈ l)
  | s_crash _ => False
  end.

Definition insert_ok (s : shared) (l : list Z) (i : nat) (pc : insert_pc) : Prop :=
  match pc with
  | i_start | i_size _ _ | i_try => True
  | i_alloc | i_unlock => insert_lock s = Some (Inserter i)
  | i_check a => insert_lock s = Some (Inserter i) /\ pending s l a
  | i_walk a e =>
    insert_lock s = Some (Inserter i) /\ pending s l a /\ l <> [] /\
    match e with addr_head => True | addr_next x => x ∈ l end
  | i_link a e =>
    insert_lock s = Some (Inserter i) /\ pending s l a /\
    exists x, e = addr_next x /\ last l = Some x
  | i_crash w => w <> with_lock_held
  end.

Definition delete_ok (s : shared) (l : list Z) (i : nat) (pc : delete_pc) : Prop :=
  match pc with
  | d_start | d_size _ _ | d_try_insert => True
  | d_try_search | d_unlock_insert => insert_lock s = Some (Deleter i)
  | d_head | d_unlock_search =>
    insert_lock s = Some (Deleter i) /\ search_lock s = Some (Deleter i)
  | d_walk c p _ =>
    insert_lock s = Some (Deleter i) /\ search_lock s = Some (Deleter i) /\
    exists l1 l2, l = l1 ++ l2 /\ c = default NULL (hd_error l2) /\ (l1 = [] \/ last l1 = Some p)
  | d_found c p =>
    insert_lock s = Some (Deleter i) /\ search_lock s = Some (Deleter i) /\
    exists l1 l2, l = l1 ++ c :: l2 /\ (l1 = [] \/ last l1 = Some p)
  | d_free c =>
    insert_lock s = Some (Deleter i) /\ search_lock s = Some (Deleter i) /\ c ∉ l
  | d_crash w => w = in_linked_list_size
  end.

Record program_ok (p : program) (l : list Z) : Prop := {
  ok_list : list_is (sh p) l;
  ok_search : forall i, search_ok (sh p) l i (searchers p i);
  ok_insert : forall i, insert_ok (sh p) l i (inserters p i);
  ok_delete : forall i, delete_ok (sh p) l i (deleters p i)
}.

(** ** Chains of nodes *)

Lemma chain_ext h h' a l : (forall x, x ∈ l -> h' !! x = h !! x) -> chain h a l -> chain h' a l.
Proof.
  revert a. induction l as [|x l IH]; intros a He; [done|]. intros (H1 & H2 & n & H3 & H4).
  split; [done|]. split; [done|]. exists n. split; [rewrite He; [done|set_solver]|].
  apply IH; [set_solver|done].
Qed.

Lemma chain_first h a l : chain h a l -> a = default NULL (hd_error l).
Proof. destruct l; [done|]. by intros (-> & _). Qed.

Lemma chain_elem h a l x : chain h a l -> x ∈ l -> x <> NULL /\ exists n, h !! x = Some n.
Proof.
  revert a. induction l as [|y l IH]; intros a Hc Hx; [set_solver|].
  destruct Hc as (-> & H2 & n & H3 & H4). apply elem_of_cons in Hx as [->|Hx]; eauto.
Qed.

Lemma chain_next h a l1 x l2 n :
  chain h a (l1 ++ x :: l2) -> h !! x = Some n ->
  next n = default NULL (hd_error l2) /\ chain h (next n) l2.
Proof.
  revert a. induction l1 as [|y l1 IH]; intros a (_ & _ & n' & H3 & H4) Hn; [|by eapply IH].
  cbn [app] in *. assert (n' = n) as -> by congruence. split; [by eapply chain_first|done].
Qed.

Lemma chain_next_in h a l x n :
  chain h a l -> x ∈ l -> h !! x = Some n -> next n = NULL \/ next n ∈ l.
Proof.
  intros Hc (l1 & l2 & ->)%list_elem_of_split Hn. destruct (chain_next _ _ _ _ _ _ Hc Hn) as [-> _].
  destruct l2 as [|y l2]; [by left|right]. change (y ∈ l1 ++ x :: y :: l2). set_solver.
Qed.

Lemma chain_next_last h a l x n :
  chain h a l -> NoDup l -> x ∈ l -> h !! x = Some n -> next n = NULL -> last l = Some x.
Proof.
  intros Hc Hd (l1 & l2 & ->)%list_elem_of_split Hn Hz.
  destruct (chain_next _ _ _ _ _ _ Hc Hn) as [E Hc2]. destruct l2 as [|y l2]; [by rewrite last_snoc|].
  destruct Hc2 as (? & Hy & _). congruence.
Qed.

(** Redirect the [next] field of a node of the list. *)
Lemma chain_redirect h a l1 p r b r' n :
  chain h a (l1 ++ p :: r) -> NoDup (l1 ++ [p]) -> h !! p = Some n ->
  chain h b r' -> p ∉ r' ->
  chain (<[p := {| next := b; val := val n |}]> h) a (l1 ++ p :: r').
Proof.
  intros Hc Hd Hn Hr Hp. revert a Hc. induction l1 as [|x l1 IH]; cbn [app]; intros a (-> & Hx & m & Hm & Hc).
  - split; [done|]. split; [done|]. eexists. split; [apply lookup_insert_eq|]. cbn [next].
    apply (chain_ext h); [|done]. intros y Hy. apply lookup_insert_ne. set_solver.
  - cbn [app] in Hd. apply NoDup_cons in Hd as [Hxp Hd]. split; [done|]. split; [done|].
    exists m. split; [rewrite lookup_insert_ne; [done|set_solver]|]. by apply IH.
Qed.

Lemma list_append s l a x n :
  list_is s l -> pending s l a -> last l = Some x -> heap s !! x = Some n ->
  list_is (set_heap s (<[x := {| next := a; val := val n |}]> (heap s))) (l ++ [a]).
Proof.
  intros [Hc Hd] (Ha & Hal & v & Hv) Hx Hn. apply last_Some in Hx as [l' ->]. split.
  - cbn [heap head set_heap]. rewrite <- app_assoc. cbn [app].
    apply (chain_redirect _ _ l' x []); [done|done|done| |set_solver].
    split; [done|]. split; [done|]. eexists. by split.
  - apply NoDup_app. split; [done|]. split; [set_solver|apply NoDup_singleton].
Qed.

(** Unlink the node [c]. *)
Lemma list_unlink_head s c l n :
  list_is s (c :: l) -> heap s !! c = Some n -> list_is (set_head s (next n)) l /\ c ∉ l.
Proof.
  intros [Hc [Hd1 Hd2]%NoDup_cons] Hn. destruct (chain_next _ _ [] _ _ _ Hc Hn) as [_ H]. done.
Qed.

Lemma list_unlink_middle s c p l1 l2 n m :
  list_is s (l1 ++ c :: l2) -> last l1 = Some p -> heap s !! c = Some n -> heap s !! p = Some m ->
  list_is (set_heap s (<[p := {| next := next n; val := val m |}]> (heap s))) (l1 ++ l2) /\
  c ∉ l1 ++ l2.
Proof.
  intros [Hc Hd] [l' ->]%last_Some Hn Hm. rewrite <- Permutation_middle in Hd.
  apply NoDup_cons in Hd as [Hcl Hd]. split; [|done]. split; [|done]. cbn [heap head set_heap].
  destruct (chain_next _ _ _ _ _ _ Hc Hn) as [_ Hc2]. rewrite <- app_assoc in *. cbn [app] in *.
  eapply chain_redirect; [done| |done|done|].
  - rewrite cons_middle, app_assoc in Hd. by apply NoDup_app in Hd as [? _].
  - apply NoDup_app in Hd as (_ & _ & [? _]%NoDup_cons). done.
Qed.

Lemma last_elem (l : list Z) x : last l = Some x -> x ∈ l.
Proof. intros [l' ->]%last_Some. set_solver. Qed.

(** ** Every step keeps the invariant *)

(** The assertion of a thread that the step does not run. *)
Ltac others :=
  repeat match goal with
  | H : _ /\ _ |- _ => destruct H
  | |- _ /\ _ => split
  end; try done; try congruence; eauto.

Lemma upd_ok {A : Type} (P : nat -> A -> Prop) f i x :
  P i x -> (forall j, j <> i -> P j (f j)) -> forall j, P j (upd f i x j).
Proof. intros Hx Hf j. unfold upd. case_decide as E; [by rewrite E|auto]. Qed.

Definition search_post (s : shared) (l : list Z) (i : nat) (s' : shared) (pc' : search_pc) : Prop :=
  heap s' = heap s /\ head s' = head s /\ insert_lock s' = insert_lock s /\
  search_ok s' l i pc' /\
  (search_lock s' = search_lock s \/ search_lock s = None \/ search_lock s = Some (Searcher i)).

Lemma search_own_ok s l i pc :
  list_is s l -> search_ok s l i pc ->
  search_post s l i (search_step i s pc).1 (search_step i s pc).2.
Proof.
  intros [Hch _] Hpc. unfold search_post.
  destruct pc as [| |c| |w]; cbn [search_step search_ok] in *.
  - destruct (search_lock s) eqn:El; cbn; auto 10.
  - destruct (_ =? _) eqn:Ez; cbn; [auto 10|].
    split; [done|]. split; [done|]. split; [done|]. split; [|by left]. split; [done|].
    destruct l as [|x l]; [by left|right]. destruct Hch as (-> & _). set_solver.
  - destruct Hpc as [Hlk Hc]. destruct (Z.eqb_spec c NULL) as [->|Hne]; [cbn; auto 10|].
    destruct Hc as [?|Hc]; [done|]. destruct (chain_elem _ _ _ _ Hch Hc) as (_ & n & Hn).
    rewrite Hn. cbn. pose proof (chain_next_in _ _ _ _ _ Hch Hc Hn). auto 10.
  - cbn. auto 10.
  - done.
Qed.

Lemma search_step_ok p l i :
  program_ok p l -> program_ok (do_step p (run_searcher i)) l.
Proof.
  intros [Hl Hs Hi Hd]. unfold do_step.
  destruct (search_own_ok _ _ _ _ Hl (Hs i)) as (Eh & Ehd & Ei & Hok & Hlk).
  destruct (search_step i (sh p) (searchers p i)) as [s' pc']. cbn [fst snd] in *.
  split; cbn [sh searchers inserters deleters].
  - unfold list_is. by rewrite Eh, Ehd.
  - apply (upd_ok (search_ok s' l)); [done|]. intros j Hj. specialize (Hs j).
    destruct (searchers p j); cbn in *; others; destruct Hlk as [->|[?|?]]; congruence.
  - intros j. specialize (Hi j). destruct (inserters p j); cbn in *; unfold pending in *;
      rewrite ?Eh, ?Ei; done.
  - intros j. specialize (Hd j). destruct (deleters p j); cbn in *; rewrite ?Ei; others;
      destruct Hlk as [->|[?|?]]; congruence.
Qed.

(** The thread that makes the step: what it guarantees to the others is that it
    changes nothing without the mutex that protects it. *)
Definition insert_post (s : shared) (l : list Z) (i : nat) (s' : shared) (pc' : insert_pc) : Prop :=
  exists l', list_is s' l' /\ insert_ok s' l' i pc' /\ search_lock s' = search_lock s /\
    (forall x, x ∈ l -> x ∈ l') /\ (l = [] -> l' = []) /\
    (s' = s /\ l' = l \/ insert_lock s = None \/ insert_lock s = Some (Inserter i)).

Lemma insert_alloc_ok s l i r a :
  list_is s l -> insert_lock s = Some (Inserter i) -> malloc_ok s a ->
  insert_post s l i (insert_step i r a s i_alloc).1 (insert_step i r a s i_alloc).2.
Proof.
  intros Hl Hpc Ha. exists l. cbn [insert_step]. destruct (Z.eqb_spec a NULL); cbn; [auto 10|].
  destruct Ha as [?|Ha]; [done|]. destruct Hl as [Hc Hdup].
  assert (a ∉ l) as Hal.
  { intros Hin. destruct (chain_elem _ _ _ _ Hc Hin) as (_ & n0 & Hn). congruence. }
  split; [split; [|done]|].
  - cbn. apply (chain_ext (heap s)); [|done]. intros x Hx. apply lookup_insert_ne. set_solver.
  - split; [|auto 10]. split; [done|]. split; [done|]. split; [done|].
    eexists. cbn. apply lookup_insert_eq.
Qed.

Lemma insert_walk_ok s l i r a b e :
  list_is s l -> insert_ok s l i (i_walk b e) ->
  insert_post s l i (insert_step i r a s (i_walk b e)).1 (insert_step i r a s (i_walk b e)).2.
Proof.
  intros Hl (Hlk & Hp & Hne & He). exists l. pose proof Hl as [Hc Hdup]. cbn [insert_step].
  destruct e as [|x]; cbn [read].
  - destruct (Z.eqb_spec (head s) NULL) as [Ez|Ez].
    + exfalso. destruct l as [|y l]; [done|]. destruct Hc as (Hy & Hy0 & _). congruence.
    + cbn. split; [done|]. split; [|auto 10]. split; [done|]. split; [done|]. split; [done|].
      destruct l as [|y l]; [done|]. destruct Hc as (-> & _). set_solver.
  - destruct (chain_elem _ _ _ _ Hc He) as (_ & n & Hn). rewrite Hn.
    destruct (Z.eqb_spec (next n) NULL) as [Ez|Ez]; cbn; (split; [done|]);
      (split; [|auto 10]); (split; [done|]); (split; [done|]).
    + exists x. split; [done|]. by eapply chain_next_last.
    + split; [done|]. by destruct (chain_next_in _ _ _ _ _ Hc He Hn).
Qed.

Lemma insert_own_ok p l i r a s' pc' :
  program_ok p l -> malloc_ok (sh p) a -> insert_step i r a (sh p) (inserters p i) = (s', pc') ->
  insert_post (sh p) l i s' pc'.
Proof.
  intros [Hl Hs Hi Hd] Ha E. pose proof (Hi i) as Hpc. unfold insert_post.
  destruct (inserters p i) as [|c n| | |b|b e|b e| |w];
    [..|pose proof (insert_walk_ok _ _ _ r a _ _ Hl Hpc) as H; by rewrite E in H| | |];
    [..|pose proof (insert_alloc_ok _ _ _ r a Hl Hpc Ha) as H; by rewrite E in H| | | |];
    cbn [insert_step insert_ok] in *.
  - injection E as <- <-. exists l. cbn. auto 10.
  - unfold linked_list_size_step in E. destruct (_ =? _); [|destruct (heap (sh p) !! c)];
      injection E as <- <-; exists l; cbn; [destruct (_ <? _)|..]; auto 10.
  - destruct (insert_lock (sh p)) eqn:El; injection E as <- <-; exists l; cbn; auto 10.
  - destruct Hpc as [Hlk Hp]. exists l. destruct (Z.eqb_spec (head (sh p)) NULL) as [Ez|Ez];
      injection E as <- <-; cbn; [auto 10|]. split; [done|]. split; [|auto 10]. split; [done|].
    split; [done|]. split; [|done]. intros ->. by destruct Hl as [Hc _].
  - destruct Hpc as (Hlk & Hp & x & -> & Hx). pose proof Hl as [Hc _].
    destruct (chain_elem _ _ _ _ Hc (last_elem _ _ Hx)) as (_ & n & Hn). cbn [write] in E.
    rewrite Hn in E. injection E as <- <-. exists (l ++ [b]).
    split; [by apply list_append|]. cbn. split; [done|]. split; [done|].
    split; [set_solver|]. split; [by intros ->|auto].
  - injection E as <- <-. exists l. cbn. auto 10.
  - injection E as <- <-. exists l. cbn. auto 10.
Qed.

Lemma insert_step_ok p l i r a :
  program_ok p l -> malloc_ok (sh p) a ->
  exists l', program_ok (do_step p (run_inserter i r a)) l' /\ (l = [] -> l' = []).
Proof.
  intros Hp Ha. unfold do_step. destruct (insert_step i r a (sh p) (inserters p i)) as [s' pc'] eqn:E.
  destruct (insert_own_ok p l i r a s' pc' Hp Ha E) as (l' & Hl' & Hok & Es & Hin & Hnil & Hlk).
  exists l'. split; [|done]. destruct Hp as [Hl Hs Hi Hd].
  split; cbn [sh searchers inserters deleters]; [done|..].
  - intros j. specialize (Hs j). destruct (searchers p j); cbn in *; rewrite ?Es; others.
    naive_solver.
  - apply (upd_ok (insert_ok s' l')); [done|]. intros j Hj. specialize (Hi j).
    destruct Hlk as [[-> ->]|Hlk]; [done|].
    destruct (inserters p j); cbn in *; others; destruct Hlk; congruence.
  - intros j. specialize (Hd j). destruct Hlk as [[-> ->]|Hlk]; [done|].
    destruct (deleters p j); cbn in *; others; destruct Hlk; congruence.
Qed.

Definition delete_post (s : shared) (l : list Z) (i : nat) (s' : shared) (pc' : delete_pc) : Prop :=
  exists l', list_is s' l' /\ delete_ok s' l' i pc' /\
    (search_lock s' = search_lock s /\ l' = l \/
     search_lock s = None \/ search_lock s = Some (Deleter i)) /\
    (l = [] -> l' = []) /\
    (s' = s /\ l' = l \/ insert_lock s = None \/ insert_lock s = Some (Deleter i)).

Lemma delete_walk_ok s l i r c q v :
  list_is s l -> delete_ok s l i (d_walk c q v) ->
  delete_post s l i (delete_step i r s (d_walk c q v)).1 (delete_step i r s (d_walk c q v)).2.
Proof.
  intros Hl (H1 & H2 & l1 & l2 & -> & -> & Hq). pose proof Hl as [Hc Hdup]. cbn [delete_step].
  destruct l2 as [|c l2]; cbn [hd_error default from_option id].
  - rewrite Z.eqb_refl. exists (l1 ++ []). cbn. auto 10.
  - assert (c ∈ l1 ++ c :: l2) as Hin by set_solver.
    destruct (chain_elem _ _ _ _ Hc Hin) as (Hc0 & n & Hn). rewrite Hn.
    destruct (Z.eqb_spec c NULL); [done|]. exists (l1 ++ c :: l2).
    destruct (_ =? _); cbn; (split; [done|]); (split; [|auto 10]);
      (split; [done|]); (split; [done|]).
    + eauto.
    + exists (l1 ++ [c]), l2. rewrite <- app_assoc. split; [done|]. rewrite last_snoc.
      split; [|by right]. by destruct (chain_next _ _ _ _ _ _ Hc Hn) as [-> _].
Qed.

Lemma delete_found_ok s l i r c q :
  list_is s l -> delete_ok s l i (d_found c q) ->
  delete_post s l i (delete_step i r s (d_found c q)).1 (delete_step i r s (d_found c q)).2.
Proof.
  intros Hl (H1 & H2 & l1 & l2 & -> & Hq). pose proof Hl as [Hc Hdup]. cbn [delete_step].
  assert (c ∈ l1 ++ c :: l2) as Hin by set_solver.
  destruct (chain_elem _ _ _ _ Hc Hin) as (Hc0 & n & Hn). rewrite Hn. destruct l1 as [|y l1].
  - destruct Hc as (Hh & _). rewrite Hh, Z.eqb_refl. exists l2.
    destruct (list_unlink_head _ _ _ _ Hl Hn) as [H3 H4]. split; [done|].
    split; [cbn; auto|]. split; [auto|]. split; [done|auto].
  - destruct Hq as [?|Hq]; [done|]. destruct (Z.eqb_spec c (head s)) as [Ec|_].
    { exfalso. destruct Hc as (Hh & _). cbn [app] in Hdup. apply NoDup_cons in Hdup as [Hy _].
      apply Hy. set_solver. }
    destruct (chain_elem _ _ _ q Hc) as (_ & m & Hm).
    { apply elem_of_app. left. by apply last_elem. }
    cbn [write]. rewrite Hm. exists ((y :: l1) ++ l2).
    destruct (list_unlink_middle _ _ _ _ _ _ _ Hl Hq Hn Hm) as [H3 H4]. split; [done|].
    split; [cbn; auto|]. split; [auto|]. split; [done|auto].
Qed.

Lemma delete_own_ok p l i r s' pc' :
  program_ok p l -> delete_step i r (sh p) (deleters p i) = (s', pc') ->
  delete_post (sh p) l i s' pc'.
Proof.
  intros [Hl Hs Hi Hd] E. pose proof (Hd i) as Hpc. pose proof Hl as [Hc Hdup].
  unfold delete_post. destruct (deleters p i) as [|c n| | | |c q v|c q|c| | |w];
    [..|pose proof (delete_found_ok _ _ _ r _ _ Hl Hpc) as H; by rewrite E in H| | | |];
    [..|pose proof (delete_walk_ok _ _ _ r _ _ _ Hl Hpc) as H; by rewrite E in H| | | |];
    cbn [delete_step delete_ok] in *.
  - injection E as <- <-. exists l. cbn. auto 10.
  - unfold linked_list_size_step in E. destruct (_ =? _); [|destruct (heap (sh p) !! c)];
      injection E as <- <-; exists l; cbn; [destruct (_ <? _)|..]; auto 10.
  - destruct (insert_lock (sh p)) eqn:El; injection E as <- <-; exists l; cbn; auto 10.
  - destruct (search_lock (sh p)) eqn:El; injection E as <- <-; exists l; cbn; auto 10.
  - injection E as <- <-. exists l. cbn. destruct Hpc as [H1 H2]. split; [done|]. split; [|auto 10].
    split; [done|]. split; [done|]. exists [], l. split; [done|]. split; [by eapply chain_first|by left].
  - injection E as <- <-. destruct Hpc as (H1 & H2 & Hcl). exists l. cbn.
    split; [|auto 10]. split; [|done]. cbn. apply (chain_ext (heap (sh p))); [|done].
    intros x Hx. apply lookup_delete_ne. set_solver.
  - injection E as <- <-. exists l. cbn. destruct Hpc. auto 10.
  - injection E as <- <-. exists l. cbn. auto 10.
  - injection E as <- <-. exists l. cbn. auto 10.
Qed.

Lemma delete_step_ok p l i r :
  program_ok p l ->
  exists l', program_ok (do_step p (run_deleter i r)) l' /\ (l = [] -> l' = []).
Proof.
  intros Hp. unfold do_step. destruct (delete_step i r (sh p) (deleters p i)) as [s' pc'] eqn:E.
  destruct (delete_own_ok p l i r s' pc' Hp E) as (l' & Hl' & Hok & Hsl & Hnil & Hlk).
  exists l'. split; [|done]. destruct Hp as [Hl Hs Hi Hd].
  split; cbn [sh searchers inserters deleters]; [done|..].
  - intros j. specialize (Hs j). destruct Hsl as [[Es ->]|Hsl].
    + destruct (searchers p j); cbn in *; rewrite ?Es; done.
    + destruct (searchers p j); cbn in *; others; destruct Hsl; congruence.
  - intros j. specialize (Hi j). destruct Hlk as [[-> ->]|Hlk]; [done|].
    destruct (inserters p j); cbn in *; others; destruct Hlk; congruence.
  - apply (upd_ok (delete_ok s' l')); [done|]. intros j Hj. specialize (Hd j).
    destruct Hlk as [[-> ->]|Hlk]; [done|].
    destruct (deleters p j); cbn in *; others; destruct Hlk; congruence.
Qed.

Lemma con3_step_ok p l q :
  program_ok p l -> step p q -> exists l', program_ok q l' /\ (l = [] -> l' = []).
Proof.
  intros Hp [c Hc]. destruct c as [i|i r a|i r]; cbn [choice_ok] in Hc.
  - exists l. split; [by apply search_step_ok|done].
  - apply insert_step_ok; [done|apply Hc].
  - by apply delete_step_ok.
Qed.

Lemma main_ok a v : a <> NULL -> program_ok (main_state a v) [a].
Proof.
  intros Ha. split; try done. split; [|apply NoDup_singleton]. split; [done|]. split; [done|].
  eexists. split; [apply lookup_insert_eq|done].
Qed.

Lemma con3_reachable_ok p : reachable p -> exists l, program_ok p l.
Proof.
  intros (a & v & Ha & Hr). apply (rtc_invariant step (fun p => exists l, program_ok p l)) in Hr; [done| |].
  - intros s t [l Hl] Hst. destruct (con3_step_ok s l t Hl Hst) as (l' & ? & _). eauto.
  - eexists. by apply main_ok.
Qed.

(** ** What the locks achieve *)

Definition is_searching (pc : search_pc) : bool :=
  match pc with s_head | s_walk _ | s_unlock => true | _ => false end.


Definition is_deleting (pc : delete_pc) : bool :=
  match pc with
  | d_head | d_walk _ _ _ | d_found _ _ | d_free _ | d_unlock_search => true
  | _ => false
  end.

Lemma searching_lock s l i pc : search_ok s l i pc -> is_searching pc = true ->
  search_lock s = Some (Searcher i).
Proof. destruct pc; try done; cbn; tauto. Qed.


Lemma deleting_lock s l i pc : delete_ok s l i pc -> is_deleting pc = true ->
  insert_lock s = Some (Deleter i) /\ search_lock s = Some (Deleter i).
Proof. destruct pc; try done; cbn; tauto. Qed.



(** [insert] compares where it should assign ([head == insert_list]), so no
    thread puts a node into an empty list. *)
Lemma empty_forever p q :
  reachable p -> head (sh p) = NULL -> rtc step p q -> head (sh q) = NULL.
Proof.
  intros [l Hp]%con3_reachable_ok Hh Hr.
  assert (program_ok p []) as Hp0.
  { destruct l as [|x l]; [done|]. destruct Hp as [[(Hx & Hx0 & _) _] _ _ _]. congruence. }
  apply (rtc_invariant step (fun p => program_ok p [])) in Hr; [|..|done].
  - by destruct Hr as [[? _] _ _ _].
  - intros s t Hs Hst. destruct (con3_step_ok s [] t Hs Hst) as (l' & Hl' & Hnil).
    by rewrite (Hnil eq_refl) in Hl'.
Qed.

(** A searcher that found the list empty and went back to its [trylock]. *)
Definition jammed (p : program) (i : nat) : Prop :=
  search_lock (sh p) = Some (Searcher i) /\ searchers p i = s_try.

Lemma step_jammed p l q i : program_ok p l -> jammed p i -> step p q -> jammed q i.
Proof.
  intros Hp [Hlk Hpc] [c Hc]. pose proof Hp as [Hl Hs _ _]. unfold do_step.
  destruct c as [j|j r a|j r]; cbn [choice_ok] in Hc.
  - destruct (search_own_ok _ _ _ _ Hl (Hs j)) as (_ & _ & _ & _ & Hsl).
    destruct (search_step j (sh p) (searchers p j)) as [s' pc'] eqn:E. cbn [fst] in Hsl.
    unfold jammed, upd. cbn [sh searchers]. destruct (decide (i = j)) as [<-|Hne].
    + rewrite Hpc in E. cbn [search_step] in E. rewrite Hlk in E. by injection E as <- <-.
    + destruct Hsl as [->|[?|?]]; [done|congruence..].
  - destruct (insert_step j r a (sh p) (inserters p j)) as [s' pc'] eqn:E.
    destruct (insert_own_ok p l j r a s' pc' Hp (proj2 (proj2 Hc)) E) as (l' & _ & _ & Es & _).
    unfold jammed. cbn [sh searchers]. by rewrite Es.
  - destruct (delete_step j r (sh p) (deleters p j)) as [s' pc'] eqn:E.
    destruct (delete_own_ok p l j r s' pc' Hp E) as (l' & _ & _ & Hsl & _).
    unfold jammed. cbn [sh searchers]. destruct Hsl as [[-> _]|[?|?]]; [done|congruence..].
Qed.

(** A searcher that finds the list empty continues its loop without releasing
    [search_lock]. *)
Lemma search_lock_jams p q i :
  reachable p -> searchers p i = s_head -> head (sh p) = NULL -> (i < 3)%nat ->
  rtc step (do_step p (run_searcher i)) q ->
  search_lock (sh q) = Some (Searcher i) /\
  forall j, is_searching (searchers q j) = false /\ is_deleting (deleters q j) = false.
Proof.
  intros [l Hp]%con3_reachable_ok Hpc Hh Hi Hr. pose proof (ok_search _ _ Hp i) as Hlk.
  rewrite Hpc in Hlk. cbn [search_ok] in Hlk.
  apply (rtc_invariant step (fun p => exists l, program_ok p l /\ jammed p i)) in Hr.
  - destruct Hr as (l' & [_ Hs _ Hd] & Hlq & Hpq). split; [done|]. intros j.
    split; apply not_true_is_false; intros H.
    + pose proof (searching_lock _ _ _ _ (Hs j) H) as H1. assert (j = i) as -> by congruence.
      by rewrite Hpq in H.
    + destruct (deleting_lock _ _ _ _ (Hd j) H) as [_ H1]. congruence.
  - intros s t (l1 & Hl1 & Hj) Hst. destruct (con3_step_ok _ _ _ Hl1 Hst) as (l2 & Hl2 & _).
    exists l2. split; [done|]. exact (step_jammed s l1 t i Hl1 Hj Hst).
  - exists l. split; [by apply search_step_ok|]. unfold do_step, jammed, upd. rewrite Hpc.
    cbn [search_step]. rewrite Hh. cbn. rewrite decide_True by done. done.
Qed.

(** ** Runs *)

(** The step of a choice is allowed: a computable [choice_ok]. *)
Definition choice_okb (p : program) (c : choice) : bool :=
  match c with
  | run_searcher i => (i <? 3)%nat
  | run_inserter i r a =>
    (i <? 3)%nat && (0 <=? r) &&
    ((a =? NULL) || match heap (sh p) !! a with None => true | Some _ => false end)
  | run_deleter i r => (i <? 3)%nat && (0 <=? r)
  end.

Fixpoint run (p : program) (l : list choice) : option program :=
  match l with
  | [] => Some p
  | c :: l => if choice_okb p c then run (do_step p c) l else None
  end.

Lemma choice_okb_ok p c : choice_okb p c = true -> choice_ok p c.
Proof.
  destruct c as [i|i r a|i r]; cbn [choice_okb choice_ok]; intros H; bool_hyps;
    rewrite <- ?Nat.ltb_lt; try done.
  split; [done|]. split; [done|].
  match goal with H : (_ || _)%bool = true |- _ => apply orb_true_iff in H as [H|H] end.
  - left. by apply Z.eqb_eq.
  - right. by destruct (heap (sh p) !! a).
Qed.

Lemma run_steps p l q : run p l = Some q -> rtc step p q.
Proof.
  revert p. induction l as [|c l IH]; intros p; cbn [run]; [by injection 1 as <-|].
  destruct (choice_okb p c) eqn:E; [|done]. intros H. eapply rtc_l; [|by apply IH].
  apply step_choice. by apply choice_okb_ok.
Qed.

Lemma run_reachable l q : run (main_state 100 4) l = Some q -> reachable q.
Proof. intros H. exists 100, 4. split; [done|]. by eapply run_steps. Qed.

(** A run whose final state passes the test [f]. *)
Lemma run_test l (f : program -> bool) :
  match run (main_state 100 4) l with Some q => f q | None => false end = true ->
  exists q, reachable q /\ f q = true.
Proof.
  destruct (run (main_state 100 4) l) as [q|] eqn:E; [|done]. intros H. exists q.
  split; [by eapply run_reachable|done].
Qed.

Definition search (i n : nat) : list choice := repeat (run_searcher i) n.
Definition insert (i n : nat) : list choice := repeat (run_inserter i 0 NULL) n.
Definition alloc (i : nat) (r a : Z) : list choice := [run_inserter i r a].
Definition del (i n : nat) (r : Z) : list choice := repeat (run_deleter i r) n.

(** Inserter [i] inserts the node [a] at the end of a list of [n] nodes. *)
Definition insertion (i n : nat) (r a : Z) : list choice :=
  insert i (n + 3) ++ alloc i r a ++ insert i (n + 4).

(** One node 100 with value 4; a node 200 with value 7 is added; two deleters
    both see two nodes and delete one each. *)
Definition two_deletes : list choice :=
  insertion 0 1 7 200 ++ del 0 4 0 ++ del 1 4 0 ++ del 0 8 4 ++ del 1 8 7.

(** When no other thread runs, [linked_list_size] returns the number of
    nodes of the list. *)
Theorem con3_linked_list_size p :
  reachable p ->
  exists l, list_is (sh p) l /\
    forall fuel, (length l < fuel)%nat ->
      linked_list_size fuel (sh p) (head (sh p)) 0 = Ok (Z.of_nat (length l)).
Proof.
  intros [l [Hl _ _ _]]%con3_reachable_ok. exists l. split; [done|].
  destruct Hl as [Hc _]. change (Z.of_nat (length l)) with (0 + Z.of_nat (length l)).
  generalize 0 as i. revert Hc. generalize (head (sh p)) as a.
  induction l as [|x l IH]; intros a Hc i fuel Hf; (destruct fuel as [|fuel]; [cbn in Hf; lia|]);
    cbn [linked_list_size]; unfold linked_list_size_step.
  - cbn in Hc. subst a. cbn. by rewrite Z.add_0_r.
  - destruct Hc as (-> & Hx & n & Hn & Hc). destruct (Z.eqb_spec x NULL); [done|]. rewrite Hn.
    cbn [length] in *. rewrite (IH _ Hc) by lia. f_equal. lia.
Qed.

(** The list can become empty and the program jam: [linked_list_size () > 1]
    is tested before the mutexes are taken, so two deleters that both saw two
    nodes delete both; the next searcher keeps [search_lock] forever. *)
Lemma con3_can_jam :
  exists p, reachable p /\ head (sh p) = NULL /\ jammed p 0.
Proof.
  destruct (run_test (two_deletes ++ search 0 2) (fun q => (head (sh q) =? NULL) &&
    bool_decide (search_lock (sh q) = Some (Searcher 0)) &&
    match searchers q 0%nat with s_try => true | _ => false end)) as (q & Hq & H).
  - by vm_compute.
  - exists q. split; [done|]. bool_hyps. apply bool_decide_eq_true in H1. split; [done|].
    split; [done|]. by destruct (searchers q 0%nat).
Qed.

(** [linked_list_size] runs without a lock, so it can follow a pointer to a
    node that a deleter has freed: a reachable state in which an inserter has
    made such an access. *)
Lemma con3_size_use_after_free :
  exists p, reachable p /\ inserters p 1%nat = i_crash in_linked_list_size.
Proof.
  destruct (run_test (insertion 0 1 7 200 ++ insert 1 1 ++ del 0 12 4 ++ insert 1 1)
    (fun q => match inserters q 1%nat with i_crash in_linked_list_size => true | _ => false end))
    as (q & Hq & H); [by vm_compute|].
  exists q. split; [done|]. by destruct (inserters q 1%nat) as [| | | | | | | |[]].
Qed.

(** 23 insertions make a list of 24 nodes; then all three inserters see 24
    nodes before any of them inserts. *)
Definition overfill : list choice :=
  concat (map (fun k => insertion 0 k 5 (200 + Z.of_nat k)) (seq 1 23)) ++
  insert 0 26 ++ insert 1 26 ++ insert 2 26 ++
  insert 0 1 ++ alloc 0 5 301 ++ insert 0 28 ++
  insert 1 1 ++ alloc 1 5 302 ++ insert 1 29 ++
  insert 2 1 ++ alloc 2 5 303 ++ insert 2 30.

(** The limit of 25 nodes is not kept: the size is tested before
    [insert_lock] is taken, and the list can grow to 27 even if nothing is ever
    deleted. *)
Lemma con3_size_exceeds_limit :
  exists p, reachable p /\ linked_list_size 100 (sh p) (head (sh p)) 0 = Ok 27.
Proof.
  destruct (run_test overfill (fun q =>
    match linked_list_size 100 (sh q) (head (sh q)) 0 with Ok n => n =? 27 | _ => false end))
    as (q & Hq & H); [by vm_compute|].
  exists q. split; [done|]. destruct (linked_list_size _ _ _ _); try done. bool_hyps. by subst.
Qed.

(** A searcher is walking, an inserter holds its lock. *)
Definition busy : list choice := search 0 2 ++ insert 0 4 ++ alloc 0 5 200.

Lemma busy_run : exists q, reachable q /\ searchers q 0%nat = s_walk 100 /\
  inserters q 0%nat = i_check 200 /\ head (sh q) = 100.
Proof.
  destruct (run_test busy (fun q => (head (sh q) =? 100) &&
    match searchers q 0%nat, inserters q 0%nat with
    | s_walk c, i_check a => (c =? 100) && (a =? 200) | _, _ => false end)) as (q & Hq & H).
  - by vm_compute.
  - exists q. split; [done|]. destruct (searchers q 0%nat), (inserters q 0%nat); bool_hyps; try done.
    by subst.
Qed.


Lemma con3_linked_list_size_witness :
  exists p l, reachable p /\ list_is (sh p) l /\
    linked_list_size (S (length l)) (sh p) (head (sh p)) 0 = Ok (Z.of_nat (length l)).
Proof.
  destruct busy_run as (q & Hq & _). destruct (con3_linked_list_size q Hq) as (l & H1 & H2).
  exists q, l. split; [exact Hq|]. split; [exact H1|]. apply H2. apply le_n.
Defined.
