(* ===== verification/Con3Races.v ===== *)
(** * con3.c: how the program breaks

    [linked_list_size] is called without a lock, [insert] never links a node
    into an empty list, and [search] does not release its mutex when the list
    is empty.  [con3_races_and_jam] collects what follows.  The limit of 25
    nodes is no limit at all: [grow_round] is a schedule of one deletion and
    two insertions that lengthens any list by one, because a node that is freed
    and allocated again cuts short the count of an inserter that stands on it. *)

From S2P Require Import Prelude Con3.

(** ** Runs of one thread *)

Definition istep (i : nat) (x y : shared * insert_pc) : Prop :=
  exists r a, 0 <= r /\ malloc_ok x.1 a /\ insert_step i r a x.1 x.2 = y.

Definition dstep (i : nat) (x y : shared * delete_pc) : Prop :=
  exists r, 0 <= r /\ delete_step i r x.1 x.2 = y.

Lemma upd_eq {A : Type} (f : nat -> A) i x : upd f i x i = x.
Proof. unfold upd. by rewrite decide_True. Qed.

Lemma upd_ne {A : Type} (f : nat -> A) i j x : j <> i -> upd f i x j = f j.
Proof. intros H. unfold upd. by rewrite decide_False. Qed.

(** A run of an inserter is a run of the program. *)
Lemma lift_insert p i s' pc' :
  (i < 3)%nat -> rtc (istep i) (sh p, inserters p i) (s', pc') ->
  exists q, rtc step p q /\ sh q = s' /\ inserters q i = pc' /\
    (forall j, j <> i -> inserters q j = inserters p j) /\ deleters q = deleters p.
Proof.
  intros Hi Hr. remember (sh p, inserters p i) as x eqn:Ex. remember (s', pc') as y eqn:Ey.
  revert p Ex. induction Hr as [x|x z y (r & a & H1 & H2 & E) _ IH]; intros p ->.
  - injection Ey as <- <-. by exists p.
  - cbn [fst snd] in *. specialize (IH Ey (do_step p (run_inserter i r a))).
    destruct z as [s1 pc1]. unfold do_step in IH. rewrite E in IH. cbn [sh inserters deleters] in IH.
    rewrite upd_eq in IH. destruct (IH eq_refl) as (q & Hq & Q1 & Q2 & Q3 & Q4). exists q.
    split; [|split; [done|split; [done|split; [|done]]]].
    + eapply rtc_l; [apply (step_choice p (run_inserter i r a)); by split|].
      unfold do_step. by rewrite E.
    + intros j Hj. by rewrite Q3, upd_ne.
Qed.

Lemma lift_delete p i s' pc' :
  (i < 3)%nat -> rtc (dstep i) (sh p, deleters p i) (s', pc') ->
  exists q, rtc step p q /\ sh q = s' /\ deleters q i = pc' /\ inserters q = inserters p.
Proof.
  intros Hi Hr. remember (sh p, deleters p i) as x eqn:Ex. remember (s', pc') as y eqn:Ey.
  revert p Ex. induction Hr as [x|x z y (r & H1 & E) _ IH]; intros p ->.
  - injection Ey as <- <-. by exists p.
  - cbn [fst snd] in *. specialize (IH Ey (do_step p (run_deleter i r))).
    destruct z as [s1 pc1]. unfold do_step in IH. rewrite E in IH. cbn [sh inserters deleters] in IH.
    rewrite upd_eq in IH. destruct (IH eq_refl) as (q & Hq & Q1 & Q2 & Q3). exists q.
    split; [|by split]. eapply rtc_l; [apply (step_choice p (run_deleter i r)); by split|].
    unfold do_step. by rewrite E.
Qed.

(** One step that needs no input. *)
Lemma istep_any i s pc y : insert_step i 0 NULL s pc = y -> istep i (s, pc) y.
Proof. intros E. exists 0, NULL. split; [done|]. split; [by left|done]. Qed.

Lemma dstep_any i s pc y : delete_step i 0 s pc = y -> dstep i (s, pc) y.
Proof. intros E. by exists 0. Qed.

(** ** One insertion *)

(** The values of the nodes of the list, all possible results of
    [rand () % 10]. *)
Definition digits (s : shared) (l : list Z) : Prop :=
  Forall (fun x => exists n, heap s !! x = Some n /\ 0 <= val n < 10) l.

Lemma walk_to_end i s a e cur l :
  read s e = Some cur -> chain (heap s) cur l ->
  rtc (istep i) (s, i_walk a e)
    (s, i_link a (match last l with Some x => addr_next x | None => e end)).
Proof.
  revert e cur. induction l as [|x l IH]; intros e cur He Hc; cbn [chain] in Hc.
  - subst cur. apply rtc_once, istep_any. cbn [insert_step]. by rewrite He.
  - destruct Hc as (-> & Hx & n & Hn & Hc). eapply rtc_l.
    + apply istep_any. cbn [insert_step]. rewrite He.
      rewrite (proj2 (Z.eqb_neq x NULL)) by done. reflexivity.
    + assert (read s (addr_next x) = Some (next n)) as Hr by (cbn; by rewrite Hn).
      specialize (IH _ _ Hr Hc). rewrite last_cons. by destruct (last l).
Qed.

(** An inserter that has passed the size test appends the node [a]. *)
Lemma insert_appends i s l a :
  list_is s l -> l <> [] -> insert_lock s = None -> a <> NULL -> heap s !! a = None -> digits s l ->
  exists s', rtc (istep i) (s, i_try) (s', i_start) /\ list_is s' (l ++ [a]) /\
    insert_lock s' = None /\ search_lock s' = search_lock s /\ digits s' (l ++ [a]) /\
    heap s' !! a = Some {| next := NULL; val := 0 |}.
Proof.
  intros Hl Hne Hlk Ha Hfr Hdg.
  set (s1 := print (set_insert_lock s (Some (Inserter i))) (new_item 0)).
  set (s2 := set_heap s1 (<[a := {| next := NULL; val := 0 |}]> (heap s))).
  assert (list_is s2 l /\ pending s2 l a) as [Hl2 Hpend].
  { destruct Hl as [Hc Hd]. assert (a ∉ l) as Hal.
    { intros Hin. destruct (chain_elem _ _ _ _ Hc Hin) as (_ & n & Hn). congruence. }
    split; [split; [|done]|].
    - cbn. apply (chain_ext (heap s)); [|done]. intros x Hx. apply lookup_insert_ne. set_solver.
    - split; [done|]. split; [done|]. eexists. cbn. apply lookup_insert_eq. }
  destruct (last l) as [x|] eqn:Ex; [|by apply last_None in Ex].
  destruct (chain_elem _ _ _ x (proj1 Hl2)) as (_ & n & Hn); [by apply last_elem|].
  pose proof (list_append s2 l a x n Hl2 Hpend Ex Hn) as Hl3.
  set (s3 := set_heap s2 (<[x := {| next := a; val := val n |}]> (heap s2))) in *.
  assert (x <> a) as Hxa by (intros ->; by apply Hpend, last_elem).
  exists (set_insert_lock s3 None). split; [|split; [done|split; [done|split; [done|split]]]].
  - eapply rtc_l; [apply istep_any; cbn [insert_step]; rewrite Hlk; reflexivity|].
    eapply rtc_l; [exists 0, a; split; [done|]; split; [by right|]; cbn [fst snd insert_step];
      rewrite (proj2 (Z.eqb_neq a NULL)) by done; reflexivity|].
    change (Z.rem 0 10) with 0. fold s1. change (heap s1) with (heap s). fold s2.
    assert (head s2 <> NULL) as Hh.
    { destruct l as [|y l]; [done|]. destruct Hl2 as [(-> & Hy & _) _]. done. }
    eapply rtc_l; [apply istep_any; cbn [insert_step]; rewrite (proj2 (Z.eqb_neq (head s2) NULL)) by done;
      reflexivity|].
    etrans; [apply (walk_to_end i s2 a addr_head (head s2) l); [done|apply Hl2]|].
    rewrite Ex. eapply rtc_l; [apply istep_any; cbn [insert_step write]; rewrite Hn; reflexivity|].
    fold s3. by apply rtc_once, istep_any.
  - apply Forall_app. split; [|apply Forall_singleton].
    + apply Forall_forall. intros y Hy. destruct (proj1 (Forall_forall _ _) Hdg y Hy) as (m & Hm & Hv).
      assert (y <> a) by congruence. cbn. destruct (decide (y = x)) as [->|].
      * cbn in Hn. rewrite lookup_insert_ne in Hn by done. exists {| next := a; val := val n |}.
        split; [apply lookup_insert_eq|]. assert (m = n) as -> by congruence. done.
      * exists m. by rewrite !lookup_insert_ne by done.
    + exists {| next := NULL; val := 0 |}. split; [|done]. cbn. rewrite lookup_insert_ne by done.
      apply lookup_insert_eq.
  - cbn. rewrite lookup_insert_ne by done. apply lookup_insert_eq.
Qed.

(** An inserter that counts from a node without successor passes the test. *)
Lemma size_fooled i s x v :
  x <> NULL -> heap s !! x = Some {| next := NULL; val := v |} ->
  rtc (istep i) (s, i_size x 0) (s, i_try).
Proof.
  intros Hx Hn. eapply rtc_l.
  - apply istep_any. cbn [insert_step]. unfold linked_list_size_step.
    rewrite (proj2 (Z.eqb_neq x NULL)), Hn by done. reflexivity.
  - by apply rtc_once, istep_any.
Qed.

(** ** One deletion *)

Lemma delete_counts i s cur k l :
  chain (heap s) cur l ->
  rtc (dstep i) (s, d_size cur k)
    (s, if 1 <? k + Z.of_nat (length l) then d_try_insert else d_start).
Proof.
  revert cur k. induction l as [|x l IH]; intros cur k Hc; cbn [chain] in Hc.
  - subst cur. apply rtc_once, dstep_any. cbn. by rewrite Z.add_0_r.
  - destruct Hc as (-> & Hx & n & Hn & Hc). eapply rtc_l.
    + apply dstep_any. cbn [delete_step]. unfold linked_list_size_step.
      rewrite (proj2 (Z.eqb_neq x NULL)), Hn by done. reflexivity.
    + specialize (IH _ (k + 1) Hc). cbn [length].
      replace (k + Z.of_nat (S (length l))) with (k + 1 + Z.of_nat (length l)) by lia. exact IH.
Qed.

(** A deleter that draws the value of the first node removes it. *)
Lemma delete_first i s x l :
  list_is s (x :: l) -> l <> [] -> insert_lock s = None -> search_lock s = None -> digits s (x :: l) ->
  exists s', rtc (dstep i) (s, d_start) (s', d_start) /\ list_is s' l /\
    insert_lock s' = None /\ search_lock s' = None /\ digits s' l /\ heap s' !! x = None.
Proof.
  intros Hl Hne Hi Hs [(n & Hn & Hv) Hdg]%Forall_cons.
  destruct (list_unlink_head s x l n Hl Hn) as [[Hc Hd] Hx]. pose proof Hl as [Hc0 _].
  assert (x <> NULL /\ head s = x) as [Hx0 Hh] by (destruct Hc0 as (? & ? & _); done).
  set (s1 := set_search_lock (set_insert_lock s (Some (Deleter i))) (Some (Deleter i))).
  set (s2 := set_head (print s1 (value_deleted (val n))) (next n)).
  set (s3 := set_heap s2 (delete x (heap s))).
  exists (set_insert_lock (set_search_lock s3 None) None).
  split; [|split; [|split; [done|split; [done|split]]]].
  - eapply rtc_l; [by apply dstep_any|]. etrans; [by apply (delete_counts i s (head s) 0 (x :: l))|].
    destruct l as [|y l]; [done|]. rewrite (proj2 (Z.ltb_lt 1 _)) by (cbn [length]; lia).
    eapply rtc_l; [apply dstep_any; cbn [delete_step]; rewrite Hi; reflexivity|].
    eapply rtc_l; [apply dstep_any; cbn [delete_step search_lock set_insert_lock]; rewrite Hs; reflexivity|].
    fold s1. eapply rtc_l; [exists (val n); split; [lia|reflexivity]|]. cbn [fst snd delete_step].
    rewrite Z.rem_small by lia. change (head s1) with (head s). rewrite Hh.
    eapply rtc_l; [apply dstep_any; cbn [delete_step];
      rewrite (proj2 (Z.eqb_neq x NULL)) by done; change (heap s1) with (heap s); rewrite Hn, Z.eqb_refl;
      reflexivity|].
    eapply rtc_l; [apply dstep_any; cbn [delete_step]; change (heap (print _ _)) with (heap s); rewrite Hn;
      change (head (print _ _)) with (head s); rewrite Hh, Z.eqb_refl; reflexivity|].
    fold s2. eapply rtc_l; [by apply dstep_any|]. change (heap s2) with (heap s). fold s3.
    eapply rtc_l; [by apply dstep_any|]. by apply rtc_once, dstep_any.
  - split; [|done]. cbn. apply (chain_ext (heap s)); [|done].
    intros y Hy. apply lookup_delete_ne. set_solver.
  - apply Forall_forall. intros y Hy.
    destruct (proj1 (Forall_forall _ _) Hdg y Hy) as (m & Hm & Hb). exists m. split; [|done].
    cbn. rewrite lookup_delete_ne; [done|set_solver].
  - cbn. apply lookup_delete_eq.
Qed.

(** ** The list grows without bound *)

(** Inserter [c] has passed the size test, everybody else is at the start. *)
Record growing (p : program) (l : list Z) (c : nat) : Prop := {
  gr_list : list_is (sh p) l;
  gr_two : (2 <= length l)%nat;
  gr_digits : digits (sh p) l;
  gr_locks : insert_lock (sh p) = None /\ search_lock (sh p) = None;
  gr_passed : (c < 3)%nat /\ inserters p c = i_try;
  gr_others : forall j, (j < 3)%nat -> j <> c -> inserters p j = i_start;
  gr_deleter : deleters p 0%nat = d_start
}.

(** Two inserters [a] and [b] begin to count at the first node; a deleter frees
    it, and [c] gets its memory for the node that it appends: the counts end
    there, at one.  Then [a] appends another node, and [b] has passed the test. *)
Lemma grow_round p l c :
  growing p l c -> exists q l' b, rtc step p q /\ growing q l' b /\ length l' = S (length l).
Proof.
  intros [Hl H2 Hdg [Hi Hs] [Hc Hpc] Hoth Hd].
  assert (exists a b, (a < 3)%nat /\ (b < 3)%nat /\ a <> b /\ a <> c /\ b <> c /\
    forall j, (j < 3)%nat -> j <> b -> j = a \/ j = c) as (a & b & Ha & Hb & Hab & Hac & Hbc & Hj3).
  { destruct c as [|[|[|c]]]; [exists 1%nat, 2%nat|exists 0%nat, 2%nat|exists 0%nat, 1%nat|lia];
      repeat split; try lia; intros; lia. }
  destruct l as [|x l]; [cbn in H2; lia|]. assert (l <> []) as Hne by (destruct l; [cbn in H2; lia|done]).
  assert (x <> NULL /\ head (sh p) = x) as [Hx Hh] by (destruct Hl as [(? & ? & _) _]; done).
  (* [a] and [b] begin to count *)
  destruct (lift_insert p a (sh p) (i_size x 0) Ha) as (p1 & R1 & S1 & A1 & O1 & D1).
  { rewrite (Hoth a) by done. apply rtc_once, istep_any. cbn. by rewrite Hh. }
  destruct (lift_insert p1 b (sh p) (i_size x 0) Hb) as (p2 & R2 & S2 & B2 & O2 & D2).
  { rewrite S1, O1, (Hoth b) by done. apply rtc_once, istep_any. cbn. by rewrite Hh. }
  (* the first node is deleted *)
  destruct (delete_first 0 (sh p) x l Hl Hne Hi Hs Hdg) as (s3 & R3 & Hl3 & Hi3 & Hs3 & Hdg3 & Hx3).
  destruct (lift_delete p2 0 s3 d_start) as (p3 & R3' & S3 & D3 & O3); [lia|by rewrite S2, D2, D1, Hd|].
  (* [c] appends it again *)
  destruct (insert_appends c s3 l x Hl3 Hne Hi3 Hx Hx3 Hdg3) as (s4 & R4 & Hl4 & Hi4 & Hs4 & Hdg4 & Hx4).
  destruct (lift_insert p3 c s4 i_start Hc) as (p4 & R4' & S4 & C4 & O4 & D4).
  { by rewrite S3, O3, O2, O1, Hpc. }
  (* [a] and [b] pass the test *)
  destruct (lift_insert p4 a s4 i_try Ha) as (p5 & R5 & S5 & A5 & O5 & D5).
  { rewrite S4, O4, O3, O2, A1 by done. by eapply size_fooled. }
  destruct (lift_insert p5 b s4 i_try Hb) as (p6 & R6 & S6 & B6 & O6 & D6).
  { rewrite S5, O5, O4, O3, B2 by done. by eapply size_fooled. }
  (* [a] appends a new node *)
  set (f := fresh ({[NULL]} ∪ dom (heap s4))).
  assert (f <> NULL /\ heap s4 !! f = None) as [Hf Hff].
  { pose proof (is_fresh ({[NULL]} ∪ dom (heap s4))) as H. fold f in H.
    split; [set_solver|]. apply not_elem_of_dom. set_solver. }
  destruct (insert_appends a s4 (l ++ [x]) f Hl4) as (s7 & R7 & Hl7 & Hi7 & Hs7 & Hdg7 & _);
    [by destruct l|done..|].
  destruct (lift_insert p6 a s7 i_start Ha) as (p7 & R7' & S7 & A7 & O7 & D7).
  { by rewrite S6, O6, A5 by done. }
  exists p7, ((l ++ [x]) ++ [f]), b.
  split; [do 6 (etrans; [eassumption|]); done|]. split; [|rewrite !length_app; cbn; lia].
  split; rewrite ?S7; try done.
  - rewrite !length_app. cbn in *. lia.
  - split; [done|]. by rewrite Hs7, Hs4.
  - split; [done|]. by rewrite O7, B6.
  - intros j Hj Hjb. destruct (Hj3 j Hj Hjb) as [->| ->]; [done|].
    by rewrite O7, O6, O5, C4 by done.
  - by rewrite D7, D6, D5, D4, D3.
Qed.

(** A list of two nodes, and inserter 1 has passed the test. *)
Definition start_test (q : program) : bool :=
  (head (sh q) =? 100) &&
  match heap (sh q) !! 100 with Some n => (next n =? 200) && (val n =? 4) | None => false end &&
  match heap (sh q) !! 200 with Some n => (next n =? NULL) && (val n =? 7) | None => false end &&
  match insert_lock (sh q), search_lock (sh q) with None, None => true | _, _ => false end &&
  match inserters q 0%nat, inserters q 1%nat, inserters q 2%nat, deleters q 0%nat with
  | i_start, i_try, i_start, d_start => true
  | _, _, _, _ => false
  end.

Lemma growing_start : exists p l c, reachable p /\ growing p l c /\ length l = 2%nat.
Proof.
  destruct (run_test (insertion 0 1 7 200 ++ insert 1 4) start_test) as (q & Hq & H).
  { vm_compute. reflexivity. }
  exists q, [100; 200], 1%nat. split; [done|]. split; [|done]. unfold start_test in H.
  destruct (heap (sh q) !! 100) as [n1|] eqn:E1; [|by rewrite andb_false_r in H].
  destruct (heap (sh q) !! 200) as [n2|] eqn:E2; [|by rewrite andb_false_r in H].
  bool_hyps.
  destruct (insert_lock (sh q)) eqn:Ei; [done|]. destruct (search_lock (sh q)) eqn:Es; [done|].
  destruct (inserters q 0%nat) eqn:E3; try done. destruct (inserters q 1%nat) eqn:E4; try done.
  destruct (inserters q 2%nat) eqn:E5; try done. destruct (deleters q 0%nat) eqn:E6; try done.
  split; try done.
  - split; [|apply NoDup_cons; split; [set_solver|apply NoDup_singleton]]. cbn [chain].
    split; [done|]. split; [done|]. exists n1. split; [done|]. split; [done|]. split; [done|].
    exists n2. done.
  - apply Forall_cons. split; [exists n1; split; [done|lia]|]. apply Forall_singleton. exists n2.
    split; [done|lia].
  - split; [lia|done].
  - intros j Hj Hj1. by destruct j as [|[|[|j]]]; [| | |lia].
Qed.

Lemma con3_grows n : exists p l, reachable p /\ list_is (sh p) l /\ (n <= length l)%nat.
Proof.
  assert (exists p l c, reachable p /\ growing p l c /\ length l = (n + 2)%nat) as (p & l & c & Hr & Hg & Hn).
  { induction n as [|n (p & l & c & (a & v & Ha & Hr) & Hg & Hn)]; [apply growing_start|].
    destruct (grow_round p l c Hg) as (q & l' & b & Hq & Hg' & Hn'). exists q, l', b.
    split; [exists a, v; split; [done|]; by etrans|]. split; [done|lia]. }
  exists p, l. split; [done|]. split; [apply Hg|lia].
Qed.

(** ** What goes wrong *)

(** C36: how the program breaks.
    The tests of [linked_list_size] are made without a lock, so two deleters
    that both saw two nodes delete both; an inserter follows a pointer to a
    freed node; and the limit of 25 nodes does not hold: for every [n] the list
    can come to have [n] nodes.
    An empty list is the end of the program's work: it stays empty forever,
    because [insert] compares where it should assign; and a searcher that looks
    at it continues its loop without releasing [search_lock], which is then held
    forever: in every later state no thread is searching and none is deleting. *)
Theorem con3_races_and_jam :
  (exists p, reachable p /\ head (sh p) = NULL /\ jammed p 0) /\
  (exists p, reachable p /\ inserters p 1%nat = i_crash in_linked_list_size) /\
  (forall n, exists p l, reachable p /\ list_is (sh p) l /\ (n <= length l)%nat) /\
  forall p, reachable p -> head (sh p) = NULL ->
    (forall q, rtc step p q -> head (sh q) = NULL) /\
    (forall i q, (i < 3)%nat -> searchers p i = s_head ->
       rtc step (do_step p (run_searcher i)) q ->
       search_lock (sh q) = Some (Searcher i) /\
       forall j, is_searching (searchers q j) = false /\ is_deleting (deleters q j) = false).
Proof.
  split; [apply con3_can_jam|]. split; [apply con3_size_use_after_free|].
  split; [apply con3_grows|]. intros p Hp Hh. split; [|intros i q Hi Hpc Hr].
  - intros q Hr. by eapply empty_forever.
  - by eapply search_lock_jams.
Qed.
