(* ===== verification/Con3Spec.v ===== *)
(** * con3.c: the list that the threads implement

    What the nine threads of [Con3.v] do to the values of the list, as a
    history of two operations on a plain list: append a value to a list that is
    not empty, and remove the first occurrence of a value.
    [con3_history] shows that in every interleaving the shared list is what the
    history makes of the first value, and how the history relates to what the
    threads print; [con3_search_output] that a search prints the list. *)

From S2P Require Import Prelude Con3.

(** ** Operations on a list of values *)

Inductive op : Type := append (v : Z) | remove (v : Z).

(** The list without the first [v]; [None] if there is none. *)
Fixpoint remove_first (v : Z) (vs : list Z) : option (list Z) :=
  match vs with
  | [] => None
  | x :: vs =>
    if decide (x = v) then Some vs
    else match remove_first v vs with Some r => Some (x :: r) | None => None end
  end.

Definition apply_op (vs : list Z) (o : op) : option (list Z) :=
  match o with
  | append v => match vs with [] => None | _ => Some (vs ++ [v]) end
  | remove v => remove_first v vs
  end.

Fixpoint replay (vs : list Z) (hist : list op) : option (list Z) :=
  match hist with
  | [] => Some vs
  | o :: hist => match apply_op vs o with Some vs => replay vs hist | None => None end
  end.

Definition appended (hist : list op) : list Z :=
  omap (fun o => match o with append v => Some v | remove _ => None end) hist.

Definition removed (hist : list op) : list Z :=
  omap (fun o => match o with remove v => Some v | append _ => None end) hist.

(** ** What the threads print *)

Definition insertions (pr : list message) : list Z :=
  omap (fun m => match m with new_item v => Some v | _ => None end) pr.

Definition deletions (pr : list message) : list Z :=
  omap (fun m => match m with value_deleted v => Some v | _ => None end) pr.

Definition found_step (acc : list Z) (m : message) : list Z :=
  match m with searching => [] | found v => acc ++ [v] | _ => acc end.

(** The values printed since the last "Searching through the list". *)
Definition found_now (pr : list message) : list Z := fold_left found_step pr [].

#[global] Arguments found_now : simpl never.
#[global] Arguments insertions : simpl never.
#[global] Arguments deletions : simpl never.
#[global] Arguments appended : simpl never.
#[global] Arguments removed : simpl never.

(** ** The values of the shared list *)

Definition value (h : gmap Z linked_list) (a : Z) : Z :=
  match h !! a with Some n => val n | None => 0 end.

Definition values (h : gmap Z linked_list) (l : list Z) : list Z := map (value h) l.

(** The history [hist] of the program, which began with the value [v]. *)
Definition history (v : Z) (p : program) (hist : list op) : Prop :=
  (exists l, list_is (sh p) l /\ replay [v] hist = Some (values (heap (sh p)) l)) /\
  appended hist `sublist_of` insertions (printed (sh p)) /\
  (deletions (printed (sh p)) = removed hist \/
   exists i c q, deleters p i = d_found c q /\
     deletions (printed (sh p)) = removed hist ++ [value (heap (sh p)) c]).

(** ** The invariant *)

(** The searcher at [c] has printed the nodes before [c]. *)
Definition search_hist (h : gmap Z linked_list) (pr : list message) (l : list Z) (pc : search_pc) : Prop :=
  match pc with
  | s_walk c => exists l1 l2, l = l1 ++ l2 /\ found_now pr = values h l1 /\
      (c = NULL \/ c = default NULL (hd_error l2))
  | _ => True
  end.

(** The value of a node that is not linked yet has been printed, after those
    that are linked. *)
Definition insert_hist (h : gmap Z linked_list) (pr : list message) (hist : list op) (pc : insert_pc) : Prop :=
  match pc with
  | i_check a | i_walk a _ | i_link a _ => appended hist ++ [value h a] `sublist_of` insertions pr
  | _ => True
  end.

(** The deleter has passed nodes with other values only. *)
Definition delete_hist (h : gmap Z linked_list) (pr : list message) (l : list Z) (hist : list op)
    (pc : delete_pc) : Prop :=
  match pc with
  | d_walk c _ r => exists l1 l2, l = l1 ++ l2 /\ c = default NULL (hd_error l2) /\ r ∉ values h l1
  | d_found c _ =>
    deletions pr = removed hist ++ [value h c] /\
    exists l1 l2, l = l1 ++ c :: l2 /\ value h c ∉ values h l1
  | _ => True
  end.

Record hist_ok (v : Z) (p : program) (l : list Z) (hist : list op) : Prop := {
  h_ok : program_ok p l;
  h_replay : replay [v] hist = Some (values (heap (sh p)) l);
  h_appended : appended hist `sublist_of` insertions (printed (sh p));
  h_removed : deletions (printed (sh p)) = removed hist \/ exists i c q, deleters p i = d_found c q;
  h_search : forall i, search_hist (heap (sh p)) (printed (sh p)) l (searchers p i);
  h_insert : forall i, insert_hist (heap (sh p)) (printed (sh p)) hist (inserters p i);
  h_delete : forall i, delete_hist (heap (sh p)) (printed (sh p)) l hist (deleters p i)
}.

Lemma hist_ok_history v p l hist : hist_ok v p l hist -> history v p hist.
Proof.
  intros [Hok Hr Ha Hd _ _ Hdel]. split; [exists l; split; [apply Hok|done]|]. split; [done|].
  destruct Hd as [?|(i & c & q & E)]; [by left|right]. exists i, c, q. split; [done|].
  specialize (Hdel i). rewrite E in Hdel. apply Hdel.
Qed.

(** ** Lists of operations and messages *)

Lemma replay_snoc vs hist o vs' :
  replay vs hist = Some vs' -> replay vs (hist ++ [o]) = apply_op vs' o.
Proof.
  revert vs. induction hist as [|x hist IH]; intros vs; cbn [replay app].
  - intros [= ->]. by destruct (apply_op vs' o).
  - destruct (apply_op vs x); [apply IH|done].
Qed.

Lemma remove_first_app v l1 l2 : v ∉ l1 -> remove_first v (l1 ++ v :: l2) = Some (l1 ++ l2).
Proof.
  induction l1 as [|x l1 IH]; intros Hv; cbn [remove_first app].
  - by rewrite decide_True.
  - rewrite decide_False by set_solver. rewrite IH by set_solver. done.
Qed.

Lemma appended_snoc hist o :
  appended (hist ++ [o]) = appended hist ++ match o with append v => [v] | remove _ => [] end.
Proof. unfold appended. rewrite omap_app. by destruct o. Qed.

Lemma removed_snoc hist o :
  removed (hist ++ [o]) = removed hist ++ match o with remove v => [v] | append _ => [] end.
Proof. unfold removed. rewrite omap_app. by destruct o. Qed.

Lemma insertions_snoc pr m :
  insertions (pr ++ [m]) = insertions pr ++ match m with new_item v => [v] | _ => [] end.
Proof. unfold insertions. rewrite omap_app. by destruct m. Qed.

Lemma deletions_snoc pr m :
  deletions (pr ++ [m]) = deletions pr ++ match m with value_deleted v => [v] | _ => [] end.
Proof. unfold deletions. rewrite omap_app. by destruct m. Qed.

Lemma found_now_snoc pr m : found_now (pr ++ [m]) = found_step (found_now pr) m.
Proof. unfold found_now. by rewrite fold_left_app. Qed.

(** ** The list of nodes *)

Lemma chain_unique h a l l' : chain h a l -> chain h a l' -> l = l'.
Proof.
  revert a l'. induction l as [|x l IH]; intros a [|y l']; cbn; [done|naive_solver..|].
  intros (-> & _ & n & Hn & Hc) (<- & _ & n' & Hn' & Hc'). f_equal.
  assert (n' = n) as -> by congruence. by eapply IH.
Qed.

(** A step that leaves the nodes [l'] leaves the program well formed on them. *)
Lemma step_list p l q l' : program_ok p l -> step p q -> list_is (sh q) l' -> program_ok q l'.
Proof.
  intros Hp Hst [Hc _]. destruct (con3_step_ok p l q Hp Hst) as (l1 & Hq & _).
  pose proof (ok_list _ _ Hq) as [Hc1 _]. by rewrite (chain_unique _ _ _ _ Hc Hc1).
Qed.

Lemma values_ext h h' l : (forall x, x ∈ l -> value h' x = value h x) -> values h' l = values h l.
Proof. intros H. apply map_ext_in. intros x Hx%list_elem_of_In. by apply H. Qed.

Lemma values_app h l1 l2 : values h (l1 ++ l2) = values h l1 ++ values h l2.
Proof. apply map_app. Qed.

(** Redirecting a node keeps its value. *)
Lemma value_redirect h x n b y :
  h !! x = Some n -> value (<[x := {| next := b; val := val n |}]> h) y = value h y.
Proof.
  intros Hn. unfold value. destruct (decide (y = x)) as [->|Hne].
  - by rewrite lookup_insert_eq, Hn.
  - by rewrite lookup_insert_ne.
Qed.

(** ** Every step keeps the invariant *)

Definition search_message (m : message) : bool :=
  match m with list_is_empty | searching | found _ => true | _ => false end.

Lemma search_hist_print h pr l m pc :
  search_message m = false -> search_hist h pr l pc -> search_hist h (pr ++ [m]) l pc.
Proof.
  intros Hm. destruct pc; try done. intros (l1 & l2 & H1 & H2 & H3). exists l1, l2.
  split; [done|]. split; [|done]. rewrite found_now_snoc, <- H2. by destruct m.
Qed.

Lemma insert_hist_print h pr hist m pc : insert_hist h pr hist pc -> insert_hist h (pr ++ [m]) hist pc.
Proof. rewrite <- (right_id_L [] (++) (pr ++ [m])). destruct pc; cbn; try done;
  rewrite app_nil_r, insertions_snoc; intros H; by apply sublist_inserts_r. Qed.

Lemma delete_hist_print h pr l hist m pc :
  match m with value_deleted _ => False | _ => True end ->
  delete_hist h pr l hist pc -> delete_hist h (pr ++ [m]) l hist pc.
Proof.
  intros Hm. destruct pc; try done. cbn. rewrite deletions_snoc. intros [H1 H2].
  split; [|done]. by destruct m; rewrite ?app_nil_r.
Qed.

(** The searcher. *)
Lemma search_own_hist s l i pc :
  list_is s l -> search_ok s l i pc -> search_hist (heap s) (printed s) l pc ->
  let '(s', pc') := search_step i s pc in
  search_hist (heap s) (printed s') l pc' /\
  (printed s' = printed s \/
   search_lock s = Some (Searcher i) /\ exists m, printed s' = printed s ++ [m] /\ search_message m = true).
Proof.
  intros [Hch _] Hok Hh. destruct pc as [| |c| |w]; cbn [search_step search_ok] in *.
  - destruct (search_lock s); cbn; auto.
  - destruct (_ =? _); cbn; (split; [|right; eauto]); [done|]. exists [], l.
    rewrite found_now_snoc. split; [done|]. split; [done|right]. by eapply chain_first.
  - destruct Hok as [Hlk Hc]. destruct (Z.eqb_spec c NULL) as [->|Hne]; [cbn; auto|].
    destruct Hh as (l1 & l2 & -> & Hf & Hc'). destruct Hc' as [?|Hc']; [done|].
    destruct l2 as [|x l2]; cbn in Hc'; [done|]. subst x.
    destruct (chain_elem _ _ _ c Hch) as (_ & n & Hn); [set_solver|]. rewrite Hn. cbn.
    destruct (chain_next _ _ _ _ _ _ Hch Hn) as [E _]. split; [|right; eauto].
    exists (l1 ++ [c]), l2. rewrite <- app_assoc, found_now_snoc, values_app, Hf.
    split; [done|]. split; [|by right]. cbn. unfold value. by rewrite Hn.
  - cbn. auto.
  - done.
Qed.

Lemma search_step_hist v p l hist i :
  hist_ok v p l hist -> hist_ok v (do_step p (run_searcher i)) l hist.
Proof.
  intros [Hok Hr Ha Hd Hs Hi Hdel]. pose proof (search_step_ok p l i Hok) as Hok'.
  pose proof Hok as [Hl Hsl Hil Hdl]. unfold do_step in *.
  destruct (search_own_ok _ _ _ _ Hl (Hsl i)) as (Eh & _).
  pose proof (search_own_hist _ _ _ _ Hl (Hsl i) (Hs i)) as Hown.
  destruct (search_step i (sh p) (searchers p i)) as [s' pc']. destruct Hown as [Hpc Hpr]. cbn [fst] in Eh.
  rewrite <- Eh in *. destruct Hpr as [Epr|(Hlk & m & Epr & Hm)];
    (split; cbn [sh searchers inserters deleters]; rewrite ?Epr in *; try done).
  - by apply (upd_ok (fun _ => search_hist _ _ _)).
  - rewrite insertions_snoc. by apply sublist_inserts_r.
  - rewrite deletions_snoc. by destruct m; rewrite ?app_nil_r.
  - apply (upd_ok (fun _ => search_hist _ _ _)); [done|]. intros j Hj.
    specialize (Hsl j). destruct (searchers p j); try done. destruct Hsl. congruence.
  - intros j. by apply insert_hist_print.
  - intros j. apply delete_hist_print; [by destruct m|done].
Qed.

(** The inserter: what its step does to the values, and to the other threads. *)
Definition one_op (hist hist' : list op) : Prop := hist' = hist \/ exists o, hist' = hist ++ [o].

Definition insert_effect (v : Z) (p : program) (l : list Z) (hist : list op) (i : nat) (s' : shared)
    (pc' : insert_pc) : Prop :=
  exists l' hist',
    list_is s' l' /\ replay [v] hist' = Some (values (heap s') l') /\
    appended hist' `sublist_of` insertions (printed s') /\
    insert_hist (heap s') (printed s') hist' pc' /\
    removed hist' = removed hist /\ deletions (printed s') = deletions (printed (sh p)) /\
    (forall j, search_hist (heap s') (printed s') l' (searchers p j)) /\ one_op hist hist' /\
    (s' = sh p /\ l' = l /\ hist' = hist \/
     insert_lock (sh p) = None \/ insert_lock (sh p) = Some (Inserter i)).

(** A step that changes at most the mutex. *)
Lemma insert_quiet v p l hist i s' pc' :
  hist_ok v p l hist -> heap s' = heap (sh p) -> head s' = head (sh p) -> printed s' = printed (sh p) ->
  insert_hist (heap (sh p)) (printed (sh p)) hist pc' ->
  (s' = sh p \/ insert_lock (sh p) = None \/ insert_lock (sh p) = Some (Inserter i)) ->
  insert_effect v p l hist i s' pc'.
Proof.
  intros [Hok Hr Ha Hd Hs Hi Hdel] Eh Ehd Ep Hpc Hlk. exists l, hist. unfold list_is.
  rewrite Eh, Ehd, Ep. split; [apply Hok|]. do 6 (split; [done|]). split; [by left|].
  destruct Hlk as [->|?]; [by left|by right].
Qed.

(** A new node, whose value has been printed. *)
Lemma insert_alloc_effect v p l hist i r a :
  hist_ok v p l hist -> inserters p i = i_alloc -> malloc_ok (sh p) a ->
  let '(s', pc') := insert_step i r a (sh p) i_alloc in insert_effect v p l hist i s' pc'.
Proof.
  intros [Hok Hr Ha Hd Hs Hi Hdel] Epc Hm. pose proof Hok as [[Hc Hdup] Hsl Hil Hdl].
  pose proof (Hil i) as Hlk. rewrite Epc in Hlk. cbn [insert_ok insert_step] in *.
  assert (forall j h, search_hist h (printed (sh p)) l (searchers p j) ->
            search_hist h (printed (sh p) ++ [new_item (Z.rem r 10)]) l (searchers p j)) as Hpr
    by (intros j h; by apply search_hist_print).
  destruct (Z.eqb_spec a NULL) as [->|Hne]; (exists l, hist); cbn [heap head printed print set_heap];
    rewrite ?insertions_snoc, ?deletions_snoc, ?app_nil_r.
  - split; [done|]. split; [done|]. split; [by apply sublist_inserts_r|]. do 3 (split; [done|]).
    split; [intros j; apply Hpr, Hs|]. split; [by left|by right; right].
  - destruct Hm as [?|Hm]; [done|].
    assert (forall x, x ∈ l -> <[a := {| next := NULL; val := Z.rem r 10 |}]> (heap (sh p)) !! x = heap (sh p) !! x) as Hx.
    { intros x Hx. apply lookup_insert_ne. destruct (chain_elem _ _ _ _ Hc Hx) as (_ & n & Hn). congruence. }
    assert (forall l1, (forall x, x ∈ l1 -> x ∈ l) ->
      values (<[a := {| next := NULL; val := Z.rem r 10 |}]> (heap (sh p))) l1 = values (heap (sh p)) l1) as Hv.
    { intros l1 Hl1. apply values_ext. intros x Hx1. unfold value. by rewrite Hx by auto. }
    split; [split; [by apply (chain_ext (heap (sh p)))|done]|]. rewrite Hv by done.
    split; [done|]. split; [by apply sublist_inserts_r|]. split.
    { cbn [insert_hist]. rewrite insertions_snoc. unfold value. rewrite lookup_insert_eq. by apply sublist_app. }
    do 2 (split; [done|]). split; [|split; [by left|by right; right]]. intros j. apply Hpr.
    specialize (Hs j). destruct (searchers p j); try done. destruct Hs as (l1 & l2 & -> & H2 & H3).
    exists l1, l2. rewrite Hv by set_solver. done.
Qed.

(** The node is linked: its value is appended. *)
Lemma insert_link_effect v p l hist i r a b e :
  hist_ok v p l hist -> inserters p i = i_link b e ->
  let '(s', pc') := insert_step i r a (sh p) (i_link b e) in insert_effect v p l hist i s' pc'.
Proof.
  intros [Hok Hr Ha Hd Hs Hi Hdel] Epc. pose proof Hok as [Hl Hsl Hil Hdl]. pose proof Hl as [Hc Hdup].
  specialize (Hi i). pose proof (Hil i) as Hpc. rewrite Epc in Hi, Hpc.
  destruct Hpc as (Hlk & Hp & x & -> & Hx). cbn [insert_hist] in Hi.
  destruct (chain_elem _ _ _ _ Hc (last_elem _ _ Hx)) as (_ & n & Hn). cbn [insert_step write]. rewrite Hn.
  exists (l ++ [b]), (hist ++ [append (value (heap (sh p)) b)]).
  assert (forall l1, values (<[x := {| next := b; val := val n |}]> (heap (sh p))) l1 = values (heap (sh p)) l1) as Hv.
  { intros l1. apply values_ext. intros y _. by apply value_redirect. }
  cbn [heap printed set_heap]. rewrite Hv, values_app, appended_snoc, removed_snoc, app_nil_r.
  split; [by apply list_append|]. split.
  { rewrite (replay_snoc _ _ _ _ Hr). cbn [apply_op]. destruct (values (heap (sh p)) l) eqn:E; [|done].
    by apply map_eq_nil in E as ->. }
  do 4 (split; [done|]). split; [|split; [right; eauto|by right; right]]. intros j. specialize (Hs j).
  destruct (searchers p j) as [| |c| |]; try done. destruct Hs as (l1 & l2 & -> & H2 & H3).
  exists l1, (l2 ++ [b]). rewrite Hv, app_assoc. split; [done|]. split; [done|].
  destruct l2; [left; by destruct H3|exact H3].
Qed.

Lemma insert_own_hist v p l hist i r a :
  hist_ok v p l hist -> malloc_ok (sh p) a ->
  let '(s', pc') := insert_step i r a (sh p) (inserters p i) in insert_effect v p l hist i s' pc'.
Proof.
  intros Hh Ha. pose proof (ok_insert _ _ (h_ok _ _ _ _ Hh) i) as Hpc. pose proof (h_insert _ _ _ _ Hh i) as Hi.
  destruct (inserters p i) as [|c n| | |b|b e|b e| |w] eqn:Epc; [..|by eapply insert_link_effect| |];
    [..|by eapply insert_alloc_effect| | | |]; cbn [insert_step insert_ok insert_hist] in *.
  - by apply insert_quiet; auto.
  - destruct (linked_list_size_step _ _ _); [|destruct (_ <? _)|]; by apply insert_quiet; auto.
  - destruct (insert_lock (sh p)) eqn:El; by apply insert_quiet; auto.
  - destruct Hpc as [Hlk _]. destruct (_ =? _); by apply insert_quiet; auto.
  - destruct Hpc as [Hlk _]. destruct (read _ _) as [x|]; [destruct (_ =? _)|]; by apply insert_quiet; auto.
  - by apply insert_quiet; auto.
  - by apply insert_quiet; auto.
Qed.

Lemma insert_step_hist v p l hist i r a :
  hist_ok v p l hist -> (i < 3)%nat -> 0 <= r -> malloc_ok (sh p) a ->
  exists l' hist', hist_ok v (do_step p (run_inserter i r a)) l' hist' /\ one_op hist hist'.
Proof.
  intros Hh Hi Hr Ha. pose proof Hh as [Hok _ _ Hd _ Hins Hdel]. pose proof Hok as [_ _ Hil Hdl].
  pose proof (step_choice p (run_inserter i r a) (conj Hi (conj Hr Ha))) as Hst.
  pose proof (insert_own_hist v p l hist i r a Hh Ha) as Heff. unfold do_step in *.
  destruct (insert_step i r a (sh p) (inserters p i)) as [s' pc'].
  destruct Heff as (l' & hist' & H1 & H2 & H3 & H4 & H5 & H6 & H7 & H8 & Hlk). exists l', hist'.
  split; [|done]. split; cbn [sh searchers inserters deleters]; try done.
  - eapply step_list; [exact Hok|exact Hst|done].
  - by rewrite H5, H6.
  - apply (upd_ok (fun _ => insert_hist _ _ _)); [done|]. intros j Hj. specialize (Hil j). specialize (Hins j).
    destruct Hlk as [(-> & -> & ->)|Hlk]; [done|].
    destruct (inserters p j); try done; destruct Hil, Hlk; congruence.
  - intros j. specialize (Hdl j). specialize (Hdel j). destruct Hlk as [(-> & -> & ->)|Hlk]; [done|].
    destruct (deleters p j); try done; destruct Hdl, Hlk; congruence.
Qed.

(** The deleter. *)
Definition delete_effect (v : Z) (p : program) (l : list Z) (hist : list op) (i : nat) (s' : shared)
    (pc' : delete_pc) : Prop :=
  exists l' hist',
    list_is s' l' /\ replay [v] hist' = Some (values (heap s') l') /\
    appended hist' `sublist_of` insertions (printed s') /\
    (deletions (printed s') = removed hist' \/ exists j c q, upd (deleters p) i pc' j = d_found c q) /\
    delete_hist (heap s') (printed s') l' hist' pc' /\ one_op hist hist' /\
    (heap s' = heap (sh p) /\ printed s' = printed (sh p) /\ l' = l /\ hist' = hist \/
     insert_lock (sh p) = Some (Deleter i) /\ search_lock (sh p) = Some (Deleter i)).

Lemma delete_quiet v p l hist i s' pc' :
  hist_ok v p l hist -> (forall c q, deleters p i <> d_found c q) ->
  heap s' = heap (sh p) -> head s' = head (sh p) -> printed s' = printed (sh p) ->
  delete_hist (heap (sh p)) (printed (sh p)) l hist pc' -> delete_effect v p l hist i s' pc'.
Proof.
  intros [Hok Hr Ha Hd Hs Hi Hdel] Hnf Eh Ehd Ep Hpc. exists l, hist. unfold list_is. rewrite Eh, Ehd, Ep.
  split; [apply Hok|]. do 2 (split; [done|]). split.
  { destruct Hd as [?|(j & c & q & E)]; [by left|right]. exists j, c, q. unfold upd.
    rewrite decide_False; [done|]. intros ->. by apply (Hnf c q). }
  split; [done|]. split; [by left|]. by left.
Qed.

(** No deletion is announced and not done, but by the deleter itself. *)
Lemma none_in_flight v p l hist i :
  hist_ok v p l hist -> insert_lock (sh p) = Some (Deleter i) -> (forall c q, deleters p i <> d_found c q) ->
  deletions (printed (sh p)) = removed hist.
Proof.
  intros [Hok _ _ [Hd|(j & c & q & E)] _ _ _] Hlk Hnf; [done|]. pose proof (ok_delete _ _ Hok j) as Hj.
  rewrite E in Hj. destruct Hj as [Hj _]. assert (j = i) as -> by congruence. by destruct (Hnf c q).
Qed.

Lemma delete_walk_effect v p l hist i r c q w :
  hist_ok v p l hist -> deleters p i = d_walk c q w ->
  let '(s', pc') := delete_step i r (sh p) (d_walk c q w) in delete_effect v p l hist i s' pc'.
Proof.
  intros Hh Epc. pose proof Hh as [Hok Hr Ha _ Hs Hi Hdel]. pose proof (ok_list _ _ Hok) as Hl.
  pose proof Hl as [Hc Hdup]. specialize (Hdel i). pose proof (ok_delete _ _ Hok i) as Hpc.
  rewrite Epc in Hdel, Hpc. destruct Hpc as (Hlk & Hsl & _). cbn [delete_step].
  assert (forall c' q', deleters p i <> d_found c' q') as Hnf by (intros c' q'; congruence).
  destruct Hdel as (l1 & l2 & El & -> & Hw). destruct l2 as [|x l2]; cbn [hd_error default from_option id].
  { rewrite Z.eqb_refl. by apply delete_quiet. }
  destruct (chain_elem _ _ _ x Hc) as (Hx0 & n & Hn); [set_solver|].
  rewrite Hn, (proj2 (Z.eqb_neq _ _) Hx0). rewrite El in Hc. destruct (Z.eqb_spec (val n) w) as [Ew|Ew].
  - exists l, hist. cbn [heap printed print]. rewrite insertions_snoc, app_nil_r. do 3 (split; [done|]).
    split; [right; exists i, x, q; unfold upd; by rewrite decide_True|]. split; [|split; [by left|by right]].
    assert (value (heap (sh p)) x = w) as Ex by (unfold value; by rewrite Hn). split.
    + rewrite deletions_snoc, Ex. f_equal. by eapply none_in_flight.
    + exists l1, l2. by rewrite Ex.
  - apply delete_quiet; try done. exists (l1 ++ [x]), l2. rewrite El, <- app_assoc, values_app.
    split; [done|]. split; [by destruct (chain_next _ _ _ _ _ _ Hc Hn) as [-> _]|].
    rewrite not_elem_of_app. split; [done|]. cbn. unfold value. rewrite Hn. set_solver.
Qed.

(** The node is unlinked: the first occurrence of its value is removed. *)
Lemma delete_found_effect v p l hist i r c q :
  hist_ok v p l hist -> deleters p i = d_found c q ->
  let '(s', pc') := delete_step i r (sh p) (d_found c q) in delete_effect v p l hist i s' pc'.
Proof.
  intros [Hok Hr Ha _ Hs Hi Hdel] Epc. pose proof (ok_list _ _ Hok) as Hl.
  pose proof Hl as [Hc Hdup]. specialize (Hdel i). pose proof (ok_delete _ _ Hok i) as Hpc.
  rewrite Epc in Hdel, Hpc. destruct Hpc as (Hlk & Hsl & l1 & l2 & -> & Hq).
  destruct Hdel as (Edel & k1 & k2 & El & Hv).
  assert (forall j1 j2, l1 ++ c :: l2 = j1 ++ c :: j2 -> c ∉ j1) as Hnd.
  { intros j1 j2 E H. rewrite E in Hdup. apply NoDup_app in Hdup as (_ & Hd & _). apply (Hd c H). set_solver. }
  apply not_elem_of_app_cons_inv_l in El as (<- & _ & <-); [|by eapply Hnd|by eapply Hnd].
  destruct (chain_elem _ _ _ c Hc) as (Hc0 & n & Hn); [set_solver|]. cbn [delete_step]. rewrite Hn.
  assert (forall s' pc', list_is s' (l1 ++ l2) -> printed s' = printed (sh p) ->
            (forall x, value (heap s') x = value (heap (sh p)) x) -> pc' = d_free c ->
            delete_effect v p (l1 ++ c :: l2) hist i s' pc') as Heff.
  { intros s' pc' Hl' Ep Hx ->. exists (l1 ++ l2), (hist ++ [remove (value (heap (sh p)) c)]).
    rewrite Ep, appended_snoc, removed_snoc, app_nil_r. split; [done|]. split.
    { rewrite (replay_snoc _ _ _ _ Hr). cbn [apply_op]. rewrite values_app.
      change (values (heap (sh p)) (c :: l2)) with (value (heap (sh p)) c :: values (heap (sh p)) l2).
      rewrite remove_first_app by done. f_equal. rewrite <- values_app. symmetry. by apply values_ext. }
    split; [done|]. split; [by left|]. split; [done|]. split; [right; eauto|by right]. }
  destruct l1 as [|y l1].
  - destruct (list_unlink_head _ _ _ _ Hl Hn) as [Hl' _]. destruct Hc as (Hh & _).
    rewrite Hh, Z.eqb_refl. by apply Heff.
  - destruct Hq as [?|Hq]; [done|]. destruct (chain_elem _ _ _ q Hc) as (_ & m & Hm).
    { apply elem_of_app. left. by apply last_elem. }
    destruct (list_unlink_middle _ _ _ _ _ _ _ Hl Hq Hn Hm) as [Hl' _].
    destruct (Z.eqb_spec c (head (sh p))) as [Ec|_].
    { exfalso. destruct Hc as (Hh & _). apply (Hnd (y :: l1) l2 eq_refl). set_solver. }
    cbn [write]. rewrite Hm. apply Heff; [done|done| |done]. intros x. by apply value_redirect.
Qed.

Lemma delete_free_effect v p l hist i r c :
  hist_ok v p l hist -> deleters p i = d_free c ->
  let '(s', pc') := delete_step i r (sh p) (d_free c) in delete_effect v p l hist i s' pc'.
Proof.
  intros Hh Epc. pose proof Hh as [Hok Hr Ha _ _ _ _]. pose proof (ok_delete _ _ Hok i) as Hpc.
  pose proof (ok_list _ _ Hok) as [Hc Hdup]. rewrite Epc in Hpc. destruct Hpc as (Hlk & Hsl & Hcl).
  assert (forall x, x ∈ l -> delete c (heap (sh p)) !! x = heap (sh p) !! x) as Hx.
  { intros x Hx. apply lookup_delete_ne. congruence. }
  cbn [delete_step]. exists l, hist. cbn [heap printed set_heap]. split; [split; [by eapply chain_ext|done]|].
  rewrite (values_ext (heap (sh p))); [|intros x Hin; unfold value; by rewrite Hx].
  do 2 (split; [done|]). split; [|split; [done|split; [by left|by right]]]. left.
  apply (none_in_flight v p l hist i Hh Hlk). intros c' q'. congruence.
Qed.

Lemma delete_own_hist v p l hist i r :
  hist_ok v p l hist ->
  let '(s', pc') := delete_step i r (sh p) (deleters p i) in delete_effect v p l hist i s' pc'.
Proof.
  intros Hh. pose proof (ok_list _ _ (h_ok _ _ _ _ Hh)) as [Hc _].
  destruct (deleters p i) as [|c n| | | |c q w|c q|c| | |w] eqn:Epc; [..|by eapply delete_free_effect| | |];
    [..|by eapply delete_found_effect| | |]; [..|by eapply delete_walk_effect| | |]; cbn [delete_step].
  all: assert (forall c' q', deleters p i <> d_found c' q') as Hnf by (intros c' q'; congruence).
  - by apply delete_quiet.
  - destruct (linked_list_size_step _ _ _); [|destruct (_ <? _)|]; by apply delete_quiet.
  - destruct (insert_lock (sh p)); by apply delete_quiet.
  - destruct (search_lock (sh p)); by apply delete_quiet.
  - apply delete_quiet; try done. exists [], l. split; [done|]. split; [by eapply chain_first|cbn; set_solver].
  - by apply delete_quiet.
  - by apply delete_quiet.
  - by apply delete_quiet.
Qed.

Lemma delete_step_hist v p l hist i r :
  hist_ok v p l hist -> (i < 3)%nat -> 0 <= r ->
  exists l' hist', hist_ok v (do_step p (run_deleter i r)) l' hist' /\ one_op hist hist'.
Proof.
  intros Hh Hi Hr. pose proof Hh as [Hok _ _ _ Hs Hins Hdel]. pose proof Hok as [_ Hsl Hil Hdl].
  pose proof (step_choice p (run_deleter i r) (conj Hi Hr)) as Hst.
  pose proof (delete_own_hist v p l hist i r Hh) as Heff. unfold do_step in *.
  destruct (delete_step i r (sh p) (deleters p i)) as [s' pc'].
  destruct Heff as (l' & hist' & H1 & H2 & H3 & H4 & H5 & H6 & Hlk). exists l', hist'.
  split; [|done]. split; cbn [sh searchers inserters deleters]; try done.
  - eapply step_list; [exact Hok|exact Hst|done].
  - intros j. destruct Hlk as [(-> & -> & -> & ->)|[_ Hlk]]; [done|]. specialize (Hsl j).
    destruct (searchers p j); try done. destruct Hsl. congruence.
  - intros j. destruct Hlk as [(-> & -> & -> & ->)|[Hlk _]]; [done|]. specialize (Hil j).
    destruct (inserters p j); try done; destruct Hil; congruence.
  - apply (upd_ok (fun _ => delete_hist _ _ _ _)); [done|]. intros j Hj.
    destruct Hlk as [(-> & -> & -> & ->)|[Hlk _]]; [done|]. specialize (Hdl j).
    destruct (deleters p j); try done; destruct Hdl; congruence.
Qed.

(** ** Every run *)

Lemma hist_step v p l hist q :
  hist_ok v p l hist -> step p q -> exists l' hist', hist_ok v q l' hist' /\ one_op hist hist'.
Proof.
  intros Hh [c Hc]. destruct c as [i|i r a|i r]; cbn [choice_ok] in Hc.
  - exists l, hist. split; [by apply search_step_hist|by left].
  - eapply insert_step_hist; [done|apply Hc..].
  - eapply delete_step_hist; [done|apply Hc..].
Qed.

Lemma main_hist a v : a <> NULL -> hist_ok v (main_state a v) [a] [].
Proof.
  intros Ha. split; try done; [by apply main_ok| |by left].
  cbn [replay sh main_state heap values map]. unfold value. by rewrite lookup_singleton_eq.
Qed.

Lemma run_hist a v p : a <> NULL -> rtc step (main_state a v) p -> exists l hist, hist_ok v p l hist.
Proof.
  intros Ha Hr. apply (rtc_invariant step (fun p => exists l hist, hist_ok v p l hist)) in Hr; [done| |].
  - intros s t (l & hist & Hh) Hst. destruct (hist_step _ _ _ _ _ Hh Hst) as (l' & hist' & H & _). eauto.
  - do 2 eexists. by apply main_hist.
Qed.

(** C7: the nine threads implement a list of values.  In every interleaving
    there is a history of appends (to a list that is not empty) and removals of
    a first occurrence that makes the values of the shared list out of the
    value that [main] put there; every step of a thread adds at most one
    operation to it.  The values removed are those that the deleters print, in
    the same order, up to one deletion that is printed and not yet done; the
    values appended are among those that the inserters print, in the same
    order. *)
Theorem con3_history a v p :
  a <> NULL -> rtc step (main_state a v) p ->
  exists hist, history v p hist /\
    forall q, step p q -> exists hist', history v q hist' /\ one_op hist hist'.
Proof.
  intros Ha Hr. destruct (run_hist a v p Ha Hr) as (l & hist & Hh). exists hist.
  split; [by eapply hist_ok_history|]. intros q Hst.
  destruct (hist_step _ _ _ _ _ Hh Hst) as (l' & hist' & Hh' & Hone). exists hist'.
  split; [by eapply hist_ok_history|done].
Qed.

(** C19: what a search prints is the list.  While a searcher is at a node, the
    values printed since it began are those of the nodes before it, from the
    first one on, however many nodes the inserters append meanwhile; and when
    it reads the end of the list it has printed, at that moment, the value of
    every node. *)
Theorem con3_search_output p i c :
  reachable p -> searchers p i = s_walk c -> c <> NULL ->
  exists l1 l2 n, list_is (sh p) (l1 ++ c :: l2) /\ heap (sh p) !! c = Some n /\
    found_now (printed (sh p)) = values (heap (sh p)) l1 /\
    let s' := (search_step i (sh p) (s_walk c)).1 in
    list_is s' (l1 ++ c :: l2) /\
    found_now (printed s') = values (heap s') (l1 ++ [c]) /\
    (next n = NULL -> found_now (printed s') = values (heap s') (l1 ++ c :: l2)).
Proof.
  intros (a & v & Ha & Hr) Epc Hc0. destruct (run_hist a v p Ha Hr) as (l & hist & Hh).
  pose proof (ok_list _ _ (h_ok _ _ _ _ Hh)) as Hl. pose proof Hl as [Hc _].
  pose proof (h_search _ _ _ _ Hh i) as Hs. rewrite Epc in Hs.
  destruct Hs as (l1 & [|x l2] & -> & Hf & [?|Hcn]); try done. cbn in Hcn. subst x.
  destruct (chain_elem _ _ _ c Hc) as (_ & n & Hn); [set_solver|]. exists l1, l2, n.
  assert (found_now (printed (search_step i (sh p) (s_walk c)).1) = values (heap (sh p)) (l1 ++ [c])) as E.
  { cbn [search_step]. rewrite (proj2 (Z.eqb_neq _ _) Hc0), Hn. cbn [fst printed print].
    rewrite found_now_snoc, values_app, Hf. cbn. unfold value. by rewrite Hn. }
  assert (heap (search_step i (sh p) (s_walk c)).1 = heap (sh p) /\
          list_is (search_step i (sh p) (s_walk c)).1 (l1 ++ c :: l2)) as [Eh Hl'].
  { cbn [search_step]. by rewrite (proj2 (Z.eqb_neq _ _) Hc0), Hn. }
  do 3 (split; [done|]). cbn zeta. rewrite Eh. do 2 (split; [done|]). intros Hz. rewrite E.
  destruct (chain_next _ _ _ _ _ _ Hc Hn) as [En Hc2]. destruct l2 as [|y l2]; [done|].
  destruct Hc2 as (? & ? & _). congruence.
Qed.

(** ** Runs *)

(** One deleter has announced its deletion and not done it. *)
Lemma delete_run : exists q, rtc step (main_state 100 4) q /\ exists p, deleters q 0%nat = d_found 100 p.
Proof.
  assert (match run (main_state 100 4) (insertion 0 1 7 200 ++ del 0 8 4) with
          | Some q => match deleters q 0%nat with d_found c _ => c =? 100 | _ => false end
          | None => false end = true) as Ht by (by vm_compute).
  destruct (run (main_state 100 4) _) as [q|] eqn:E; [|discriminate Ht]. exists q.
  apply run_steps in E. split; [exact E|].
  destruct (deleters q 0%nat) as [| | | | | |c p| | | |]; try discriminate Ht. apply Z.eqb_eq in Ht. subst. eauto.
Qed.

Lemma con3_history_witness :
  exists q hist, rtc step (main_state 100 4) q /\ history 4 q hist /\
    (exists hist', history 4 (do_step q (run_deleter 0 0)) hist' /\ one_op hist hist').
Proof.
  destruct delete_run as (q & Hq & _). destruct (con3_history 100 4 q ltac:(discriminate) Hq) as (hist & H1 & H2).
  exists q, hist. split; [exact Hq|]. split; [exact H1|]. apply H2. constructor. split; lia.
Defined.

Lemma con3_search_output_witness :
  exists q l1 l2, reachable q /\ searchers q 0%nat = s_walk 100 /\ list_is (sh q) (l1 ++ 100 :: l2) /\
    found_now (printed (sh q)) = values (heap (sh q)) l1.
Proof.
  destruct busy_run as (q & Hq & H1 & _).
  destruct (con3_search_output q 0 100 Hq H1) as (l1 & l2 & n & H2 & _ & H3 & _); [discriminate|].
  exists q, l1, l2. split; [exact Hq|]. split; [exact H1|]. split; [exact H2|exact H3].
Defined.
