(* ===== verification/Sbd.v ===== *)
(** * sbd.c: the encrypted block device

    [kernel/project3/code/sbd.c]: the transfer of a request (with the cipher
    of the kernel's crypto layer applied block by block), the request function
    of the queue, the geometry, and the acquisition and release of resources
    in the init and exit functions.

    [Cipher] is what the code uses of [linux/crypto.h]: setting the key, and
    encryption and decryption of one block under the key that was set.
    [CipherLaws] says what its documentation says: they are inverse on whole
    blocks.  Every accepted transfer sets the key from the module parameters
    [crypt_key] and [crypt_keylen], which can be written at run time: the values
    that the [i]-th call of [sbd_crypt_transfer] finds are [params i].
    [unsigned long] is [W] bits wide and [sector_t] [SW] bits, and [mapped] says
    which addresses the kernel can read. *)

From S2P Require Import Prelude Mem.

(** ** The crypto layer *)

(** The module parameters [crypt_key] (its bytes) and [crypt_keylen]. *)
Record key_param : Type := { crypt_key : list Z; crypt_keylen : Z }.

Class Cipher := {
  (** The key that a [struct crypto_cipher] holds. *)
  key : Type;
  (** [crypto_cipher_setkey]: the key held after the call, whose result the code
      ignores, on a cipher that held some key before. *)
  crypto_cipher_setkey : key -> key_param -> key;
  (** [crypto_cipher_blocksize] *)
  blocksize : nat;
  encrypt_one : key -> list Z -> list Z;
  decrypt_one : key -> list Z -> list Z
}.

Definition bytes_ok (l : list Z) : Prop := Forall (in_u 8) l.

Class CipherLaws (C : Cipher) : Prop := {
  blocksize_pos : (0 < blocksize)%nat;
  encrypt_block k b :
    length b = blocksize -> bytes_ok b ->
    length (encrypt_one k b) = blocksize /\ bytes_ok (encrypt_one k b);
  decrypt_block k b :
    length b = blocksize -> bytes_ok b ->
    length (decrypt_one k b) = blocksize /\ bytes_ok (decrypt_one k b);
  decrypt_encrypt k b :
    length b = blocksize -> bytes_ok b -> decrypt_one k (encrypt_one k b) = b
}.

(** ** The program *)

Definition KERNEL_SECTOR_SIZE : Z := 512.

(** [struct sbd_device]: [data] is the address of the data array. *)
Record sbd_device : Type := { size : Z; data : Z }.

(** [struct hd_geometry] of [linux/hdreg.h] *)
Record hd_geometry : Type := { cylinders : Z; heads : Z; sectors : Z; start : Z }.

(** ** The block layer

    What the request function uses of [linux/blkdev.h].  [todo q r] are the
    transfers that remain when [r] is the request being served: the chunks of
    [r] and of all the requests that wait in [q]. *)

Record chunk : Type := { c_sector : Z; c_nsect : Z; c_buffer : Z; c_write : bool }.

Class BlkApi := {
  request_queue : Type;
  request : Type;
  blk_fetch_request : request_queue -> option request * request_queue;
  is_fs : request_queue -> request -> bool;           (* cmd_type == REQ_TYPE_FS *)
  blk_cur : request_queue -> request -> chunk;        (* blk_rq_pos, ..., rq_data_dir *)
  blk_end_request_cur : request_queue -> request -> bool * request_queue;
  blk_end_request_all : request_queue -> request -> request_queue;
  todo : request_queue -> option request -> list chunk;
  all_fs : request_queue -> Prop;
  serving : request_queue -> request -> bool          (* fetched and not ended *)
}.

Class BlkLaws (B : BlkApi) : Prop := {
  fetch_todo q r q' : blk_fetch_request q = (r, q') -> todo q' r = todo q None;
  fetch_none q q' : blk_fetch_request q = (None, q') -> todo q' None = [];
  fetch_some q r q' : blk_fetch_request q = (Some r, q') -> serving q' r = true;
  fetch_fs q r q' : all_fs q -> blk_fetch_request q = (Some r, q') -> is_fs q' r = true /\ all_fs q';
  cur_todo q r : serving q r = true -> exists l, todo q (Some r) = blk_cur q r :: l;
  (** "Return: false - we are done with this request; true - still buffers
      pending for this request" *)
  end_cur_more q r q' c l :
    serving q r = true -> blk_end_request_cur q r = (true, q') -> todo q (Some r) = c :: l ->
    serving q' r = true /\ is_fs q' r = is_fs q r /\ todo q' (Some r) = l;
  end_cur_done q r q' c l :
    serving q r = true -> blk_end_request_cur q r = (false, q') -> todo q (Some r) = c :: l ->
    todo q' None = l;
  end_cur_fs q r b q' : blk_end_request_cur q r = (b, q') -> all_fs q -> all_fs q';
  (** "Completely finish rq": the request goes back to the block layer. *)
  end_all_ends q r : serving (blk_end_request_all q r) r = false
}.

(** [n] bytes of memory from address [a], and writing bytes there. *)
Definition read_bytes (m : mem) (a : Z) (n : nat) : list Z :=
  map (fun i => m (a + Z.of_nat i) mod 256) (seq 0 n).

Fixpoint write_bytes (m : mem) (a : Z) (l : list Z) : mem :=
  match l with
  | [] => m
  | b :: l => write_bytes (store 1 m a b) (a + 1) l
  end.

Section Defs.
Context `{C : Cipher} (W SW : Z) (logical_block_size : Z).

Definition ul (x : Z) : Z := wrap_u W x.

(** [u8 *sourc, dest;]: [dest] is a [u8], so the address assigned to it is cut
    to its low byte, and [print_data (dest, 15)] reads from that address.
    [mapped] says which addresses the kernel can read. *)
Definition print_data (mapped : Z -> bool) (m : mem) (tmp : Z) (length : nat) : res (list Z) :=
  if forallb (fun i => mapped (tmp + Z.of_nat i)) (seq 0 length)
  then Ok (read_bytes m tmp length) else Fault.

(** The two loops, [for (i = 0; i < nbytes; i += blocksize)]: [f] is applied to
    the block at [src + i] and the result stored at [dst + i].  [i] is an
    [int] and the comparison is on [unsigned long]. *)
Fixpoint crypt_loop (fuel : nat) (f : list Z -> list Z) (m : mem) (dst src i nbytes : Z)
  : res mem :=
  match fuel with
  | O => Fuel
  | S fuel =>
    if ul i <? nbytes then
      let m := write_bytes m (ul (dst + i)) (f (read_bytes m (ul (src + i)) blocksize)) in
      crypt_loop fuel f m dst src (wrap_s 32 (i + Z.of_nat blocksize)) nbytes
    else Ok m
  end.

(** The part of [sbd_crypt_transfer] before the print-outs at its end: [None]
    when the request is beyond the end of the device, else the memory and the
    key that is now set. *)
Definition transfer_data (m : mem) (k : key) (p : key_param) (dev : sbd_device)
    (sector nsect buffer : Z) (write : bool) : res (option (mem * key)) :=
  let offset := ul (wrap_u SW (sector * logical_block_size)) in
  let nbytes := ul (nsect * logical_block_size) in
  if size dev <? ul (offset + nbytes) then Ok None
  else
    let k := crypto_cipher_setkey k p in
    let fuel := S (Z.to_nat nbytes) in
    let! m :=
      if write then crypt_loop fuel (encrypt_one k) m (data dev + offset) buffer 0 nbytes
      else crypt_loop fuel (decrypt_one k) m buffer (data dev + offset) 0 nbytes in
    Ok (Some (m, k)).

Definition sbd_crypt_transfer (mapped : Z -> bool) (m : mem) (k : key) (p : key_param)
    (dev : sbd_device) (sector nsect buffer : Z) (write : bool)
  : res (mem * key * list (list Z)) :=
  let offset := ul (wrap_u SW (sector * logical_block_size)) in
  let! r := transfer_data m k p dev sector nsect buffer write in
  match r with
  | None => Ok (m, k, [])
  | Some (m, k) =>
    let dest := wrap_u 8 (data dev + offset) in
    let! p1 := print_data mapped m buffer 15 in
    let! p2 := print_data mapped m dest 15 in
    Ok (m, k, [p1; p2])
  end.

(** The loop of [sbd_crypt_request].  The memory, the key of the cipher and the
    queue change; the requests transfer to and from memory.  [i] counts the
    calls of [sbd_crypt_transfer].  Using a request that is not being served
    (any more) is a use of memory that was given back. *)
Fixpoint request_loop `{B : BlkApi} (fuel : nat) (mapped : Z -> bool) (params : nat -> key_param)
    (i : nat) (k : key) (dev : sbd_device) (m : mem) (q : request_queue) (req : option request)
  : res (mem * key * request_queue) :=
  match fuel with
  | O => Fuel
  | S fuel =>
    match req with
    | None => Ok (m, k, q)
    | Some r =>
      if negb (serving q r) then Fault                   (* req->cmd_type *)
      else if negb (is_fs q r) then
        let q := blk_end_request_all q r in
        request_loop fuel mapped params i k dev m q (Some r)      (* continue *)
      else
        let c := blk_cur q r in
        let! (mk, _) := sbd_crypt_transfer mapped m k (params i) dev (c_sector c) (c_nsect c)
                          (c_buffer c) (c_write c) in
        let '(m, k) := mk in
        let '(more, q) := blk_end_request_cur q r in
        if more then request_loop fuel mapped params (S i) k dev m q (Some r)
        else let '(req, q) := blk_fetch_request q in
             request_loop fuel mapped params (S i) k dev m q req
    end
  end.

Definition sbd_crypt_request `{B : BlkApi} (fuel : nat) (mapped : Z -> bool)
    (params : nat -> key_param) (k : key) (dev : sbd_device) (m : mem) (q : request_queue)
  : res (mem * key * request_queue) :=
  let '(req, q) := blk_fetch_request q in request_loop fuel mapped params 0 k dev m q req.

(** ** Geometry, init and exit *)

(** The fields of [geo] are an unsigned short, two unsigned chars and an
    unsigned long. *)
Definition sbd_crypt_getgeo (dev : sbd_device) : hd_geometry :=
  let sz := wrap_s W (ul (size dev * Z.quot logical_block_size KERNEL_SECTOR_SIZE)) in
  {| cylinders := wrap_u 16 (Z.shiftr (Z.land sz (Z.lnot 0x3f)) 6);
     heads := 4; sectors := 16; start := 0 |}.

(** The resources that [sbd_crypt_init] acquires. *)
Inductive resource : Type := Data | Queue | Blkdev (major : Z) | CryptCipher | Disk.

#[export] Instance resource_eq_dec : EqDecision resource.
Proof using Type. solve_decision. Defined.

(** What [crypto_alloc_cipher] returns. *)
Inductive handle : Type := null_handle | error_handle | valid_handle.

(** The outcomes of the calls of [sbd_crypt_init]; [out_register] is what
    [register_blkdev] returns. *)
Record outcomes : Type := {
  out_vmalloc : bool;
  out_queue : bool;
  out_register : Z;
  out_cipher : handle;
  out_disk : bool
}.

(** The state of the module: the major number, the device size, the major and
    capacity given to the disk, and the resources held. *)
Record module_state : Type := {
  major_num : Z;
  device_size : Z;
  gd_major : Z;
  gd_capacity : Z;
  held : list resource
}.

Definition release (r : resource) (l : list resource) : list resource :=
  filter (fun x => x <> r) l.

Definition set_held (s : module_state) (l : list resource) : module_state :=
  {| major_num := major_num s; device_size := device_size s; gd_major := gd_major s;
     gd_capacity := gd_capacity s; held := l |}.

(** [out: vfree (Device.data); return -ENOMEM;] *)
Definition init_out (ENOMEM : Z) (s : module_state) : res (Z * module_state) :=
  Ok (- ENOMEM, set_held s (release Data (held s))).

Definition sbd_crypt_init (ENOMEM nsectors : Z) (o : outcomes) (s : module_state)
  : res (Z * module_state) :=
  let s := {| major_num := major_num s;
              device_size := ul (wrap_s 32 (nsectors * logical_block_size));
              gd_major := gd_major s; gd_capacity := gd_capacity s; held := held s |} in
  if negb (out_vmalloc o) then Ok (- ENOMEM, s)
  else
    let s := set_held s (Data :: held s) in
    if negb (out_queue o) then init_out ENOMEM s
    else
      let s := set_held s (Queue :: held s) in
      let asked := major_num s in
      let s := {| major_num := out_register o; device_size := device_size s;
                  gd_major := gd_major s; gd_capacity := gd_capacity s; held := held s |} in
      if major_num s <? 0 then init_out ENOMEM s
      else
        let s := set_held s (Blkdev (if asked =? 0 then out_register o else asked) :: held s) in
        match out_cipher o with
        | null_handle => init_out ENOMEM s
        | error_handle => Fault                (* crypto_cipher_setkey on an ERR_PTR *)
        | valid_handle =>
          let s := set_held s (CryptCipher :: held s) in
          if negb (out_disk o) then
            init_out ENOMEM (set_held s (release (Blkdev (major_num s)) (held s)))
          else
            Ok (0, {| major_num := major_num s; device_size := device_size s;
                      gd_major := major_num s; gd_capacity := nsectors;
                      held := Disk :: held s |})
        end.

Definition sbd_crypt_exit (s : module_state) : module_state :=
  let s := set_held s (release CryptCipher (held s)) in
  let s := set_held s (release Disk (held s)) in
  let s := set_held s (release (Blkdev (major_num s)) (held s)) in
  set_held s (release Queue (held s)).

(** ** Specification *)

(** [f] on each of the [n] blocks of [l]. *)
Fixpoint map_blocks (f : list Z -> list Z) (n : nat) (l : list Z) : list Z :=
  match n with
  | O => []
  | S n => f (take blocksize l) ++ map_blocks f n (drop blocksize l)
  end.

(** A device and a transfer for which no product or sum wraps around. *)
Record transfer_ok (dev : sbd_device) (sector nsect buffer : Z) : Prop := {
  to_block : (Z.of_nat blocksize | logical_block_size);
  to_lbs : 0 < logical_block_size;
  to_dev : 0 <= data dev /\ 0 <= size dev /\ data dev + size dev <= 2 ^ W;
  to_sector : 0 <= sector /\ 0 <= nsect;
  to_wrap : (sector + nsect) * logical_block_size < 2 ^ W /\ sector * logical_block_size < 2 ^ SW;
  to_int : nsect * logical_block_size + Z.of_nat blocksize < 2 ^ 31;
  to_buffer : 0 <= buffer /\ buffer + nsect * logical_block_size <= 2 ^ W;
  to_apart : buffer + nsect * logical_block_size <= data dev \/ data dev + size dev <= buffer
}.

(** The transfer is inside the device: the bounds check lets it through. *)
Definition in_range (dev : sbd_device) (c : chunk) : bool :=
  (c_sector c + c_nsect c) * logical_block_size <=? size dev.

(** The addresses from which the print-outs read are mapped: 15 bytes from the
    buffer, and 15 from the low byte of the address in the array. *)
Definition prints_mapped (mapped : Z -> bool) (dev : sbd_device) (c : chunk) : bool :=
  forallb (fun i => mapped (c_buffer c + Z.of_nat i)) (seq 0 15) &&
  forallb (fun i => mapped (wrap_u 8 (data dev + c_sector c * logical_block_size) + Z.of_nat i))
    (seq 0 15).

(** The transfer does not fault. *)
Definition passes (mapped : Z -> bool) (dev : sbd_device) (c : chunk) : bool :=
  negb (in_range dev c) || prints_mapped mapped dev c.

(** Whatever key is set, and in whichever call, the parameters set [k]. *)
Definition sets_key (params : nat -> key_param) (k : key) : Prop :=
  forall k' i, crypto_cipher_setkey k' (params i) = k.

(** The transfers [l] one after the other. *)
Fixpoint serve (mapped : Z -> bool) (params : nat -> key_param) (i : nat) (k : key)
    (dev : sbd_device) (m : mem) (l : list chunk) : res (mem * key) :=
  match l with
  | [] => Ok (m, k)
  | c :: l =>
    let! (mk, _) := sbd_crypt_transfer mapped m k (params i) dev (c_sector c) (c_nsect c)
                      (c_buffer c) (c_write c) in
    let '(m, k) := mk in
    serve mapped params (S i) k dev m l
  end.

End Defs.

(** ** Bytes in memory *)

Lemma read_bytes_length m a n : length (read_bytes m a n) = n.
Proof. unfold read_bytes. by rewrite length_map, length_seq. Qed.

Lemma read_bytes_ok m a n : bytes_ok (read_bytes m a n).
Proof.
  apply Forall_forall. intros x. unfold read_bytes. rewrite list_elem_of_fmap.
  intros (i & -> & _). unfold in_u. change (2 ^ 8) with 256. apply Z.mod_pos_bound. lia.
Qed.

Lemma read_bytes_agree m m' a n :
  (forall x, a <= x < a + Z.of_nat n -> m' x = m x) -> read_bytes m' a n = read_bytes m a n.
Proof.
  intros H. unfold read_bytes. apply map_ext_in. intros i Hi. apply in_seq in Hi.
  by rewrite H by lia.
Qed.

Lemma read_bytes_S m a n : read_bytes m a (S n) = m a mod 256 :: read_bytes m (a + 1) n.
Proof.
  unfold read_bytes. cbn [seq map]. rewrite Z.add_0_r. f_equal.
  rewrite <- seq_shift, map_map. apply map_ext. intros i. do 2 f_equal. lia.
Qed.

Lemma read_bytes_app m a n1 n2 :
  read_bytes m a (n1 + n2) = read_bytes m a n1 ++ read_bytes m (a + Z.of_nat n1) n2.
Proof.
  revert a. induction n1 as [|n1 IH]; intros a.
  - cbn. by rewrite Z.add_0_r.
  - cbn [Nat.add]. rewrite !read_bytes_S, IH. cbn [app]. do 3 f_equal. lia.
Qed.

Lemma write_bytes_out l m a x :
  x < a \/ a + Z.of_nat (length l) <= x -> write_bytes m a l x = m x.
Proof.
  revert m a. induction l as [|b l IH]; intros m a Hx; [done|]. cbn [write_bytes length] in *.
  rewrite IH by lia. apply store_out. lia.
Qed.

Lemma read_write_bytes l m a :
  bytes_ok l -> read_bytes (write_bytes m a l) a (length l) = l.
Proof.
  revert m a. induction l as [|b l IH]; intros m a Hl; [done|].
  apply Forall_cons in Hl as [Hb Hl]. cbn [write_bytes length]. rewrite read_bytes_S, IH by done.
  f_equal. rewrite write_bytes_out by lia. rewrite store_in by lia.
  rewrite Z.sub_diag, Z.pow_0_r, Z.div_1_r, Z.mod_mod by lia. apply Z.mod_small.
  unfold in_u in Hb. by change 256 with (2 ^ 8).
Qed.

(** ** The loop over the blocks *)

Section Theory.
Context `{C : Cipher} {CL : CipherLaws C} (W SW : Z) (logical_block_size : Z).
Hypothesis W_range : 32 <= W.
Hypothesis SW_range : 32 <= SW.

Abbreviation bs := (Z.of_nat blocksize).

(** A function that maps blocks to blocks. *)
Definition block_fun (f : list Z -> list Z) : Prop :=
  forall b, length b = blocksize -> bytes_ok b -> length (f b) = blocksize /\ bytes_ok (f b).

Lemma ul_id x : 0 <= x < 2 ^ W -> ul W x = x.
Proof using Type. intros H. by apply wrap_u_small. Qed.

Lemma pow31_W : 2 ^ 31 <= 2 ^ (W - 1) /\ 2 ^ W = 2 * 2 ^ (W - 1).
Proof using W_range. split; [apply Z.pow_le_mono_r; lia|apply pow2_half; lia]. Qed.

Lemma crypt_loop_ok f n fuel m dst src i nbytes :
  block_fun f -> 0 <= i -> nbytes = i + Z.of_nat n * bs -> nbytes + bs < 2 ^ 31 ->
  0 <= dst -> dst + nbytes <= 2 ^ W -> 0 <= src -> src + nbytes <= 2 ^ W ->
  dst + nbytes <= src \/ src + nbytes <= dst -> (n < fuel)%nat ->
  exists m', crypt_loop W fuel f m dst src i nbytes = Ok m' /\
    (forall x, x < dst + i \/ dst + nbytes <= x -> m' x = m x) /\
    read_bytes m' (dst + i) (n * blocksize) = map_blocks f n (read_bytes m (src + i) (n * blocksize)).
Proof using CL W_range.
  intros Hf Hi Hn Hint Hd0 Hd Hs0 Hs Hap. pose proof blocksize_pos as Hbs. pose proof pow31_W.
  revert m i fuel Hi Hn. induction n as [|n IH]; intros m i fuel Hi Hn Hfuel;
    (destruct fuel as [|fuel]; [lia|]); cbn [crypt_loop].
  - rewrite ul_id by lia. destruct (Z.ltb_spec i nbytes); [lia|].
    exists m. split; [done|]. by split.
  - rewrite !ul_id by lia. destruct (Z.ltb_spec i nbytes); [|lia].
    rewrite wrap_s_small by (unfold in_s; lia).
    set (b := read_bytes m (src + i) blocksize).
    destruct (Hf b) as [Hlen Hby]; [apply read_bytes_length|apply read_bytes_ok|].
    set (m1 := write_bytes m (dst + i) (f b)).
    destruct (IH m1 (i + bs) fuel) as (m' & E & Hout & Hread); [lia..|].
    exists m'. split; [done|]. split.
    + intros x Hx. rewrite Hout by lia. apply write_bytes_out. lia.
    + cbn [Nat.mul map_blocks]. rewrite !read_bytes_app. rewrite !Z.add_assoc in Hread.
      rewrite take_app_length', drop_app_length' by (by rewrite read_bytes_length). f_equal.
      * rewrite (read_bytes_agree m1) by (intros x Hx; apply Hout; lia).
        rewrite <- Hlen at 1. by apply read_write_bytes.
      * rewrite Hread. f_equal. apply read_bytes_agree. intros x Hx. apply write_bytes_out. lia.
Qed.

Lemma map_blocks_inverse f g n l :
  (forall b, length b = blocksize -> bytes_ok b -> g (f b) = b) -> block_fun f ->
  length l = (n * blocksize)%nat -> bytes_ok l -> map_blocks g n (map_blocks f n l) = l.
Proof using Type.
  intros Hgf Hf. revert l. induction n as [|n IH]; intros l Hl Hb; cbn [map_blocks Nat.mul] in *.
  - by apply nil_length_inv in Hl.
  - assert (length (take blocksize l) = blocksize) as Ht by (rewrite length_take; lia).
    assert (bytes_ok (take blocksize l) /\ bytes_ok (drop blocksize l)) as [Hb1 Hb2].
    { rewrite <- (take_drop blocksize l) in Hb. by apply Forall_app. }
    destruct (Hf _ Ht Hb1) as [Hl1 _].
    rewrite take_app_length', drop_app_length' by done. rewrite Hgf by done.
    rewrite IH; [apply take_drop|rewrite length_drop; lia|done].
Qed.

(** ** Transfers *)

Abbreviation transfer_ok := (transfer_ok W SW logical_block_size).
Abbreviation transfer_data := (transfer_data W SW logical_block_size).
Abbreviation sbd_crypt_transfer := (sbd_crypt_transfer W SW logical_block_size).

(** Offset and length of a transfer, in bytes. *)
Definition off (sector : Z) : Z := sector * logical_block_size.
Definition len (nsect : Z) : Z := nsect * logical_block_size.

Lemma transfer_sizes dev sector nsect buffer :
  transfer_ok dev sector nsect buffer ->
  ul W (wrap_u SW (sector * logical_block_size)) = off sector /\
  ul W (nsect * logical_block_size) = len nsect /\ ul W (off sector + len nsect) = off sector + len nsect /\
  exists n, len nsect = Z.of_nat n * bs /\ (n <= Z.to_nat (len nsect))%nat.
Proof using CL W_range SW_range.
  intros [Hb Hl Hd Hs [Hw1 Hw2] Hi Hbuf Hap]. unfold off, len. pose proof blocksize_pos as Hbs.
  assert (0 <= sector * logical_block_size) by nia. assert (0 <= nsect * logical_block_size) by nia.
  rewrite (wrap_u_small SW) by (split; lia).
  rewrite !ul_id by lia. split; [done|]. split; [done|]. split; [done|].
  destruct Hb as [q ->]. assert (0 < q) by nia. exists (Z.to_nat (nsect * q)).
  rewrite Z2Nat.id by nia. split; [lia|]. apply Z2Nat.inj_le; nia.
Qed.

Definition chunk_of (m : mem) (a nsect : Z) : list Z := read_bytes m a (Z.to_nat (len nsect)).

(** The outcome of a transfer. *)
Definition transferred (m : mem) (k : key) (dev : sbd_device) (sector nsect buffer : Z)
    (write : bool) (m' : mem) : Prop :=
  let dst := if write then data dev + off sector else buffer in
  let src := if write then buffer else data dev + off sector in
  let f := if write then encrypt_one k else decrypt_one k in
  (forall x, x < dst \/ dst + len nsect <= x -> m' x = m x) /\
  exists n, len nsect = Z.of_nat n * bs /\
    chunk_of m' dst nsect = map_blocks f n (chunk_of m src nsect).

Lemma transfer_data_ok m k0 p dev sector nsect buffer write :
  transfer_ok dev sector nsect buffer ->
  if size dev <? (sector + nsect) * logical_block_size
  then transfer_data m k0 p dev sector nsect buffer write = Ok None
  else let k := crypto_cipher_setkey k0 p in
       exists m', transfer_data m k0 p dev sector nsect buffer write = Ok (Some (m', k)) /\
         transferred m k dev sector nsect buffer write m'.
Proof using CL W_range SW_range.
  intros Hok. set (k := crypto_cipher_setkey k0 p). destruct (transfer_sizes _ _ _ _ Hok) as (E1 & E2 & E3 & n & En & Hn).
  destruct Hok as [Hb Hl Hd Hs [Hw1 Hw2] Hi Hbuf Hap].
  unfold Sbd.transfer_data. fold k. rewrite E1, E2, E3.
  replace ((sector + nsect) * logical_block_size) with (off sector + len nsect) by (unfold off, len; lia).
  destruct (Z.ltb_spec (size dev) (off sector + len nsect)) as [|Hin]; [done|].
  assert (0 <= off sector) by (unfold off; nia). fold (len nsect) in *.
  assert (Z.to_nat (len nsect) = (n * blocksize)%nat) as Hnat by lia.
  assert (block_fun (if write then encrypt_one k else decrypt_one k)) as Hf.
  { destruct write; intros b; [apply encrypt_block|apply decrypt_block]. }
  unfold transferred, chunk_of. rewrite Hnat. cbn zeta.
  set (dst := if write then _ else buffer). set (src := if write then buffer else _).
  destruct (crypt_loop_ok (if write then encrypt_one k else decrypt_one k) n
              (S (n * blocksize)) m dst src 0 (len nsect)) as (m' & E & Hout & Hr);
    [done|lia|lia|lia|unfold dst, src; destruct write; lia..|lia|].
  exists m'. split; [|split].
  - unfold dst, src in E. destruct write; by rewrite E.
  - intros x Hx. apply Hout. lia.
  - exists n. split; [done|]. by rewrite !Z.add_0_r in Hr.
Qed.

Lemma forallb_head {A : Type} (p : A -> bool) x l : p x = false -> forallb p (x :: l) = false.
Proof using Type. intros H. cbn. by rewrite H. Qed.

Lemma print_data_ok mapped m a n :
  print_data mapped m a n
  = if forallb (fun i => mapped (a + Z.of_nat i)) (seq 0 n) then Ok (read_bytes m a n) else Fault.
Proof using Type. done. Qed.

(** What a transfer comes to: nothing when it is beyond the end of the device;
    else the data is moved, and then the print-outs fault unless the addresses
    that they read are mapped. *)
Lemma transfer_outcome mapped m k0 p dev c :
  transfer_ok dev (c_sector c) (c_nsect c) (c_buffer c) ->
  let r := sbd_crypt_transfer mapped m k0 p dev (c_sector c) (c_nsect c) (c_buffer c) (c_write c) in
  if in_range logical_block_size dev c then
    let k := crypto_cipher_setkey k0 p in
    exists m', transfer_data m k0 p dev (c_sector c) (c_nsect c) (c_buffer c) (c_write c)
               = Ok (Some (m', k)) /\
      transferred m k dev (c_sector c) (c_nsect c) (c_buffer c) (c_write c) m' /\
      if prints_mapped logical_block_size mapped dev c then exists pr, r = Ok (m', k, pr) else r = Fault
  else r = Ok (m, k0, []).
Proof using CL W_range SW_range.
  intros Hok r. pose proof (transfer_data_ok m k0 p dev _ _ _ (c_write c) Hok) as Ht.
  destruct (transfer_sizes _ _ _ _ Hok) as (E1 & _). unfold off in E1. unfold in_range, prints_mapped.
  rewrite Z.leb_antisym. unfold r, Sbd.sbd_crypt_transfer. rewrite E1.
  destruct (size dev <? _); cbn [negb]; [by rewrite Ht|].
  destruct Ht as (m' & Et & Htr). exists m'. split; [done|]. split; [done|]. rewrite Et.
  cbn [res_bind]. rewrite !print_data_ok.
  destruct (forallb _ _); cbn [res_bind andb]; [|done].
  destruct (forallb _ _); cbn [res_bind]; [by eexists|done].
Qed.

(** [dest] is declared as a byte, not as a pointer, so the print-out at the end
    of every transfer inside the device reads from an address below 256. *)
Lemma prints_low mapped dev c :
  (forall a, 0 <= a < 256 -> mapped a = false) -> prints_mapped logical_block_size mapped dev c = false.
Proof using Type.
  intros Hmap. unfold prints_mapped. apply andb_false_intro2. cbn [seq]. apply forallb_head, Hmap.
  pose proof (wrap_u_range 8 (data dev + c_sector c * logical_block_size) ltac:(lia)) as Hd.
  unfold in_u in Hd. change (2 ^ 8) with 256 in Hd. lia.
Qed.

(** ** The request function *)

Abbreviation request_loop := (request_loop W SW logical_block_size).
Abbreviation serve := (serve W SW logical_block_size).

(** If all requests are file-system requests, every chunk is served once, in the
    order of the queue, and the function ends as the last of these transfers
    does. *)
Lemma request_serves `{B : BlkApi} {BL : BlkLaws B} mapped params k dev m q fuel :
  all_fs q -> (length (todo q None) < fuel)%nat ->
  let r := sbd_crypt_request W SW logical_block_size fuel mapped params k dev m q in
  match serve mapped params 0 k dev m (todo q None) with
  | Ok mk => exists q', r = Ok (mk, q') /\ todo q' None = []
  | Fault => r = Fault
  | Bug => r = Bug
  | Fuel => r = Fuel
  end.
Proof using Type.
  intros Hfs Hlen r. unfold r, sbd_crypt_request. clear r. generalize 0%nat as i.
  destruct (blk_fetch_request q) as [r q1] eqn:E. pose proof (fetch_todo _ _ _ E) as Ht.
  rewrite <- Ht in *.
  assert (all_fs q1 \/ r = None) as Hfs1.
  { destruct r as [r|]; [left|by right]. by destruct (fetch_fs _ _ _ Hfs E). }
  assert (forall x, r = Some x -> is_fs q1 x = true /\ serving q1 x = true) as Hx.
  { intros x ->. split; [by destruct (fetch_fs _ _ _ Hfs E)|by eapply fetch_some]. }
  assert (r = None -> todo q1 None = []) as Hn by (intros ->; by eapply fetch_none).
  clear q Hfs E Ht. revert m k q1 r Hlen Hfs1 Hx Hn.
  induction fuel as [|fuel IH]; intros m k q r Hlen Hfs Hx Hn i; [lia|]. cbn [Sbd.request_loop].
  destruct r as [r|].
  - destruct (Hx r eq_refl) as [Hr Hsv]. rewrite Hr, Hsv. cbn [negb]. destruct Hfs as [Hfs|?]; [|done].
    destruct (cur_todo q r Hsv) as [l El]. rewrite El in *. cbn [Sbd.serve length] in *.
    destruct (Sbd.sbd_crypt_transfer _ _ _ _ _ _ _ _ _ _ _ _) as [[[m1 k1] p1]| | |]; [|done..].
    cbn [res_bind]. destruct (blk_end_request_cur q r) as [[] q1] eqn:Ec;
      pose proof (end_cur_fs _ _ _ _ Ec Hfs) as Hfs1.
    + destruct (end_cur_more _ _ _ _ _ Hsv Ec El) as (Hsv1 & Hr1 & El1). rewrite <- El1 in *.
      apply IH; [lia|by left| |done]. intros x [= <-]. by rewrite Hr1.
    + pose proof (end_cur_done _ _ _ _ _ Hsv Ec El) as Hd.
      destruct (blk_fetch_request q1) as [r2 q2] eqn:Ef. pose proof (fetch_todo _ _ _ Ef) as Hf.
      rewrite <- Hd, <- Hf in *. apply IH; [lia| | |].
      * destruct r2 as [r2|]; [left|by right]. by destruct (fetch_fs _ _ _ Hfs1 Ef).
      * intros x ->. split; [by destruct (fetch_fs _ _ _ Hfs1 Ef)|by eapply fetch_some].
      * intros ->. by eapply fetch_none.
  - rewrite (Hn eq_refl). cbn [Sbd.serve]. eauto.
Qed.

(** A request that is not a file-system request is ended and used again. *)
Lemma request_reuses `{B : BlkApi} {BL : BlkLaws B} mapped params k dev m q r q' fuel :
  blk_fetch_request q = (Some r, q') -> is_fs q' r = false -> (1 < fuel)%nat ->
  sbd_crypt_request W SW logical_block_size fuel mapped params k dev m q = Fault.
Proof using Type.
  intros Hf Hr Hfuel. unfold sbd_crypt_request. rewrite Hf.
  destruct fuel as [|[|fuel]]; [lia..|]. cbn [Sbd.request_loop].
  by rewrite (fetch_some _ _ _ Hf), Hr, end_all_ends.
Qed.

(** Where no address below 256 can be read, the first transfer inside the
    device is the last. *)
Lemma serve_unmapped mapped params i k dev m l :
  Forall (fun c => transfer_ok dev (c_sector c) (c_nsect c) (c_buffer c)) l ->
  (forall a, 0 <= a < 256 -> mapped a = false) ->
  serve mapped params i k dev m l
  = if existsb (in_range logical_block_size dev) l then Fault else Ok (m, k).
Proof using CL W_range SW_range.
  intros Hl Hmap. revert i. induction Hl as [|c l Hc Hl IH]; intros i; [done|]. cbn [Sbd.serve existsb].
  pose proof (transfer_outcome mapped m k (params i) dev c Hc) as Ht. cbn zeta in Ht.
  rewrite prints_low in Ht by done.
  destruct (in_range logical_block_size dev c); cbn [orb]; [|by rewrite Ht; apply IH].
  by destruct Ht as (m' & _ & _ & ->).
Qed.

(** C33: how [sbd_crypt_request] fails.  A first request that is not a
    file-system request is ended, and the loop goes on with the same request,
    which the block layer has back: it is used after it has been given up.
    And where the kernel maps no address below 256 (it does not map its first
    page), the device is of no use: [dest] is declared as a byte, not as a
    pointer, so the second print-out of every transfer inside the device reads
    from an address below 256 and faults.  Whatever file-system requests are
    queued (transfers of whole cipher blocks, whose arithmetic does not wrap
    around and whose buffers are apart from the array), the function
    returns if all of them are beyond the end of the device, and then it has
    done nothing; otherwise it faults. *)
Theorem sbd_request_function `{B : BlkApi} {BL : BlkLaws B} mapped params k dev m q fuel :
  (forall r q', blk_fetch_request q = (Some r, q') -> is_fs q' r = false -> (1 < fuel)%nat ->
     sbd_crypt_request W SW logical_block_size fuel mapped params k dev m q = Fault) /\
  (all_fs q -> (length (todo q None) < fuel)%nat ->
   Forall (fun c => transfer_ok dev (c_sector c) (c_nsect c) (c_buffer c)) (todo q None) ->
   (forall a, 0 <= a < 256 -> mapped a = false) ->
   if existsb (in_range logical_block_size dev) (todo q None)
   then sbd_crypt_request W SW logical_block_size fuel mapped params k dev m q = Fault
   else exists q', sbd_crypt_request W SW logical_block_size fuel mapped params k dev m q
                   = Ok (m, k, q') /\ todo q' None = []).
Proof.
  split; [intros; by eapply request_reuses|]. intros Hfs Hf Hok Hmap.
  pose proof (request_serves mapped params k dev m q fuel Hfs Hf) as H. cbn zeta in H.
  rewrite serve_unmapped in H by done. by destruct (existsb _ _).
Qed.

(** The sum in the bounds check is not protected from overflow: a request
    that ends exactly at 2^W, far beyond the device, is accepted. *)
Theorem sbd_bounds_check_wraps m k p dev sector nsect buffer write :
  0 <= size dev -> 0 <= sector -> 0 < nsect -> 0 < logical_block_size ->
  (sector + nsect) * logical_block_size = 2 ^ W -> sector * logical_block_size < 2 ^ SW ->
  transfer_data m k p dev sector nsect buffer write <> Ok None.
Proof using W_range SW_range.
  intros Hd Hs Hn Hl Hw Hsw. pose proof pow31_W. unfold Sbd.transfer_data.
  rewrite (wrap_u_small SW) by (split; nia).
  replace (ul W (ul W (sector * logical_block_size) + ul W (nsect * logical_block_size))) with 0.
  - destruct (Z.ltb_spec (size dev) 0); [lia|].
    destruct (if write then _ else _); cbn [res_bind]; congruence.
  - unfold ul, wrap_u. rewrite <- Zplus_mod, <- Z.mul_add_distr_r, Hw. by rewrite Z_mod_same_full.
Qed.

End Theory.

(** ** Geometry *)

(** [Device.size] is a number of bytes, although its comment says sectors
    and [sbd_crypt_getgeo] uses it so: with sectors of 512 bytes, the geometry
    it reports (cylinders times heads times sectors) has as many sectors as the
    device has bytes. *)
Theorem sbd_geometry_counts_bytes W n a :
  32 <= W -> 0 <= n -> 8 * n < 2 ^ 16 ->
  let g := sbd_crypt_getgeo W 512 {| size := n * 512; data := a |} in
  cylinders g * heads g * sectors g = n * 512.
Proof.
  intros HW Hn Hb. unfold sbd_crypt_getgeo, KERNEL_SECTOR_SIZE. cbn [cylinders heads sectors size].
  change (Z.quot 512 512) with 1. rewrite Z.mul_1_r. destruct (pow31_W W HW) as [H1 H2].
  change (2 ^ 31) with 2147483648 in H1. change (2 ^ 16) with 65536 in Hb.
  rewrite (ul_id W) by lia. rewrite wrap_s_small by (unfold in_s; lia).
  replace (Z.land (n * 512) (Z.lnot 0x3f)) with (n * 512).
  - rewrite Z.shiftr_div_pow2 by lia. replace (n * 512) with (8 * n * 2 ^ 6) by lia.
    rewrite Z.div_mul by lia. rewrite wrap_u_small by (unfold in_u; lia). lia.
  - apply Z.bits_inj'. intros i Hi. rewrite Z.land_spec, Z.lnot_spec by lia.
    change 0x3f with (Z.ones 6). destruct (Z.lt_ge_cases i 6).
    + rewrite Z.ones_spec_low by lia. replace (n * 512) with (n * 8 * 2 ^ 6) by lia.
      by rewrite Z.mul_pow2_bits_low by lia.
    + rewrite Z.ones_spec_high by lia. by rewrite andb_true_r.
Qed.

(** ** Init and exit *)

Section Module.
Context (W : Z) (logical_block_size ENOMEM nsectors : Z).

(** What an [init] that failed leaves behind, and what a loaded module holds. *)
Definition left_by (o : outcomes) : list resource :=
  if negb (out_vmalloc o) then []
  else if negb (out_queue o) then []
  else if out_register o <? 0 then [Queue]
  else match out_cipher o with
       | null_handle => [Blkdev (out_register o); Queue]
       | error_handle => []
       | valid_handle =>
         if negb (out_disk o) then [CryptCipher; Queue]
         else [Disk; CryptCipher; Blkdev (out_register o); Queue; Data]
       end.

Definition all_ok (o : outcomes) : bool :=
  out_vmalloc o && out_queue o && (0 <=? out_register o) &&
  match out_cipher o with valid_handle => out_disk o | _ => false end.

Lemma release_same x l : release x (x :: l) = release x l.
Proof. unfold release. rewrite filter_cons_False; [done|]. intros H. by apply H. Qed.

Lemma release_other x y l : x <> y -> release x (y :: l) = y :: release x l.
Proof. intros Hne. unfold release. by rewrite filter_cons_True. Qed.

Ltac releases := repeat (rewrite release_same || rewrite release_other by done).

Lemma exit_held s :
  held s = [Disk; CryptCipher; Blkdev (major_num s); Queue; Data] ->
  held (sbd_crypt_exit s) = [Data].
Proof.
  intros H. unfold sbd_crypt_exit. cbn [held set_held major_num]. rewrite H.
  by releases.
Qed.

(** C35: with [major_num] left at 0, [sbd_crypt_init] returns 0 exactly when
    every call succeeds; on its error paths it returns [-ENOMEM] and leaks what
    it acquired except the data array: the request queue always, and the block
    device number or the cipher; an error pointer from [crypto_alloc_cipher]
    is not recognised and used.  [sbd_crypt_exit] of a loaded module releases
    everything but the data array. *)
Theorem sbd_init_exit_leaks o dsz gm gc :
  let s := {| major_num := 0; device_size := dsz; gd_major := gm; gd_capacity := gc; held := [] |} in
  match sbd_crypt_init W logical_block_size ENOMEM nsectors o s with
  | Ok (r, s') =>
    held s' = left_by o /\ (r = if all_ok o then 0 else - ENOMEM) /\
    (all_ok o = true -> held (sbd_crypt_exit s') = [Data])
  | Fault => out_vmalloc o = true /\ out_queue o = true /\ out_cipher o = error_handle
  | _ => False
  end.
Proof.
  destruct o as [vm qu reg ci di]. unfold sbd_crypt_init, init_out, left_by, all_ok.
  cbn [out_vmalloc out_queue out_register out_cipher out_disk held major_num set_held].
  rewrite Z.eqb_refl. destruct vm; cbn [negb andb]; [|done].
  destruct qu; cbn [negb andb]; [|by releases].
  rewrite (Z.leb_antisym reg 0). destruct (reg <? 0); cbn [negb andb held set_held major_num].
  { by releases. }
  destruct ci; cbn [negb andb held set_held major_num]; [by releases|done|].
  destruct di; cbn [negb andb held set_held major_num].
  - split; [done|]. split; [done|]. intros _. by apply exit_held.
  - by releases.
Qed.

(** Loading the module with a fixed major number ([major_num=M] with
    M > 0) does not work: [register_blkdev] then returns 0 on success, which the
    code stores as the major number; the disk gets major 0 and [sbd_crypt_exit]
    leaves the number M registered. *)
Theorem sbd_fixed_major o M dsz gm gc :
  0 < M -> all_ok o = true -> out_register o = 0 ->
  let s := {| major_num := M; device_size := dsz; gd_major := gm; gd_capacity := gc; held := [] |} in
  exists s', sbd_crypt_init W logical_block_size ENOMEM nsectors o s = Ok (0, s') /\
    gd_major s' = 0 /\ Blkdev M ∈ held (sbd_crypt_exit s').
Proof.
  intros HM Hall Hreg. destruct o as [vm qu reg ci di]. unfold all_ok in Hall.
  cbn [out_vmalloc out_queue out_register out_cipher out_disk] in *. subst reg.
  destruct vm, qu, ci, di; try discriminate Hall. clear Hall.
  unfold sbd_crypt_init, set_held.
  cbn [out_vmalloc out_queue out_register out_cipher out_disk held major_num negb].
  destruct (Z.ltb_spec 0 0); [lia|]. destruct (Z.eqb_spec M 0); [lia|].
  eexists. split; [reflexivity|]. split; [done|]. unfold sbd_crypt_exit, release.
  cbn [held set_held major_num]. rewrite !list_elem_of_filter.
  assert (Blkdev M <> Blkdev 0) by (intros E; injection E; lia).
  repeat (split; [done|]). set_solver.
Qed.

End Module.

(** ** Concrete instances *)

Module Xor.

(** A cipher: the exclusive or of each byte with a key byte, blocks of 16; keys
    of another length than 16 are refused. *)
#[export] Instance cipher : Cipher := {
  key := Z;
  crypto_cipher_setkey k p :=
    if crypt_keylen p =? 16 then foldr Z.lxor 0 (crypt_key p) else k;
  blocksize := 16;
  encrypt_one k := map (fun x => Z.lxor x (k mod 256));
  decrypt_one k := map (fun x => Z.lxor x (k mod 256))
}.

Lemma lxor_byte x k : in_u 8 x -> in_u 8 (Z.lxor x (k mod 256)).
Proof.
  intros Hx. assert (in_u 8 (k mod 256)) as Hk by (apply Z.mod_pos_bound; lia). unfold in_u in *.
  split; [apply Z.lxor_nonneg; lia|].
  destruct (Z.eq_dec (Z.lxor x (k mod 256)) 0) as [->|Hne]; [done|].
  apply Z.log2_lt_pow2; [pose proof (Z.lxor_nonneg x (k mod 256)); lia|].
  pose proof (Z.log2_lxor x (k mod 256) ltac:(lia) ltac:(lia)).
  assert (Z.log2 x < 8) by (destruct (Z.eq_dec x 0) as [->|]; [done|apply Z.log2_lt_pow2; lia]).
  assert (Z.log2 (k mod 256) < 8)
    by (destruct (Z.eq_dec (k mod 256) 0) as [->|]; [done|apply Z.log2_lt_pow2; lia]).
  lia.
Qed.

#[export] Instance laws : CipherLaws cipher.
Proof.
  assert (forall k b, length b = blocksize -> bytes_ok b ->
    length (encrypt_one k b) = blocksize /\ bytes_ok (encrypt_one k b)) as H.
  { intros k b Hl Hb. split; [by rewrite <- Hl; apply length_map|].
    apply Forall_map. eapply Forall_impl; [exact Hb|]. intros x Hx. by apply lxor_byte. }
  split; [cbn; lia|exact H|exact H|]. intros k b _ _. cbn. rewrite map_map.
  rewrite <- (map_id b) at 2. apply map_ext. intros x.
  by rewrite Z.lxor_assoc, Z.lxor_nilpotent, Z.lxor_0_r.
Qed.

(** A block layer: the chunks that remain of the request being served, and the
    requests that wait, each a nonempty list of chunks; the request is whether
    it is a file-system request. *)
#[export] Instance blk : BlkApi := {
  request_queue := list chunk * list (bool * chunk * list chunk);
  request := bool;
  blk_fetch_request q :=
    match q.2 with [] => (None, q) | (fs, c, l) :: r => (Some fs, (c :: l, r)) end;
  is_fs q r := r;
  blk_cur q r := match q.1 with
                 | c :: _ => c
                 | [] => {| c_sector := 0; c_nsect := 0; c_buffer := 0; c_write := false |}
                 end;
  blk_end_request_cur q r :=
    match q.1 with _ :: (d :: l) => (true, (d :: l, q.2)) | _ => (false, ([], q.2)) end;
  blk_end_request_all q r := ([], q.2);
  todo q r := match r with Some _ => q.1 | None => [] end ++ concat (map (fun x => x.1.2 :: x.2) q.2);
  all_fs q := Forall (fun x => x.1.1 = true) q.2;
  serving q r := match q.1 with [] => false | _ => true end
}.

#[export] Instance blk_laws : BlkLaws blk.
Proof.
  split; cbn.
  - intros [cur [|[[fs c] l] w]] r q'; cbn; by injection 1 as <- <-.
  - intros [cur [|[[fs c] l] w]] q'; cbn; [by injection 1 as <-|done].
  - intros [cur [|[[fs c] l] w]] r q'; cbn; [done|]. by injection 1 as <- <-.
  - intros [cur [|[[fs c] l] w]] r q' H; cbn in *; [done|]. injection 1 as <- <-.
    by apply Forall_cons in H.
  - intros [[|c l] w] r H; cbn in *; [done|eauto].
  - intros [[|c [|d l]] w] r q' c' l' H; cbn in *; try done. injection 1 as <-. by injection 1 as <- <-.
  - intros [[|c [|d l]] w] r q' c' l' H; cbn in *; try done. injection 1 as <-. by injection 1 as <- <-.
  - intros [[|c [|d l]] w] r b q'; cbn; by injection 1 as <- <-.
  - done.
Qed.

(** A device of 1024 bytes at address 8192 with sectors of 512 bytes, and
    memory that holds the low byte of each address. *)
Definition dev0 : sbd_device := {| size := 1024; data := 8192 |}.
Definition m0 : mem := fun a => a mod 256.
Definition k0 : key := 7.

(** The parameters never change, and set the key [k0]. *)
Definition params0 : nat -> key_param := fun _ => {| crypt_key := [7]; crypt_keylen := 16 |}.

Lemma params0_set : sets_key params0 k0.
Proof. done. Qed.

Lemma transfer0_ok b : (0 <=? b) && (b <? 7000) = true -> transfer_ok 32 64 512 dev0 1 1 b.
Proof.
  intros H. bool_hyps. split; cbn [size data dev0 blocksize cipher]; try lia.
  by exists 32.
Qed.

Lemma sbd_bounds_check_wraps_witness :
  transfer_data 32 64 512 m0 k0 (params0 0) dev0 8388607 1 4096 false <> Ok None.
Proof.
  apply (sbd_bounds_check_wraps 32 64 512 ltac:(lia) ltac:(lia)); cbn [size dev0]; lia.
Defined.

Definition chunk0 : chunk := {| c_sector := 1; c_nsect := 1; c_buffer := 4096; c_write := true |}.
Definition chunk1 : chunk := {| c_sector := 5; c_nsect := 1; c_buffer := 4096; c_write := true |}.

Definition queue_far : @request_queue blk := ([], [(true, chunk1, [chunk1])]).
Definition queue_near : @request_queue blk := ([], [(true, chunk1, [chunk0])]).

(** A request that is not a file-system request is used after it was ended;
    where the first page is not mapped, a queue with a transfer inside the
    device behind one beyond it faults, and two transfers beyond the device are
    both refused. *)
Lemma sbd_request_function_witness :
  sbd_crypt_request 32 64 512 100 (fun _ => true) params0 k0 dev0 m0 ([], [(false, chunk0, [])]) = Fault /\
  sbd_crypt_request 32 64 512 100 (fun a => 4096 <=? a) params0 k0 dev0 m0 queue_near = Fault /\
  (exists q', sbd_crypt_request 32 64 512 3 (fun a => 4096 <=? a) params0 k0 dev0 m0 queue_far
              = Ok (m0, k0, q') /\ todo q' None = []).
Proof.
  assert (forall a, 0 <= a < 256 -> (4096 <=? a) = false) as Hmap by (intros a Ha; apply Z.leb_gt; lia).
  split; [|split].
  - eapply (sbd_request_function 32 64 512 ltac:(lia) ltac:(lia)); [reflexivity|reflexivity|lia].
  - apply (sbd_request_function 32 64 512 ltac:(lia) ltac:(lia) (fun a => 4096 <=? a) params0 k0 dev0 m0 queue_near 100); [by repeat constructor|cbn; lia| |exact Hmap].
    repeat constructor; cbn; try lia; by exists 32.
  - apply (sbd_request_function 32 64 512 ltac:(lia) ltac:(lia) (fun a => 4096 <=? a) params0 k0 dev0 m0 queue_far 3); [by repeat constructor|cbn; lia| |exact Hmap].
    repeat constructor; cbn; try lia; by exists 32.
Defined.

Lemma sbd_geometry_counts_bytes_witness :
  let g := sbd_crypt_getgeo 32 512 {| size := 1024 * 512; data := 8192 |} in
  cylinders g * heads g * sectors g = 1024 * 512.
Proof. apply (sbd_geometry_counts_bytes 32 1024 8192); lia. Defined.

Definition good : outcomes :=
  {| out_vmalloc := true; out_queue := true; out_register := 0; out_cipher := valid_handle;
     out_disk := true |}.

Lemma sbd_fixed_major_witness :
  exists s', sbd_crypt_init 32 512 12 1024 good
    {| major_num := 240; device_size := 0; gd_major := 0; gd_capacity := 0; held := [] |} = Ok (0, s') /\
    gd_major s' = 0 /\ Blkdev 240 ∈ held (sbd_crypt_exit s').
Proof. apply (sbd_fixed_major 32 512 12 1024 good 240 0 0 0); [lia|reflexivity|reflexivity]. Defined.

End Xor.
