(* ===== verification/SbdDisk.v ===== *)
(** * sbd.c: the disk that the device implements

    [disk] is a disk without a cipher: the plain contents of its sectors, and
    the memory around it.  [disk_transfer] is what one transfer does to it.
    [sbd_refines_disk] shows that the device of [Sbd.v], which keeps only
    encrypted blocks, serves every queue of file-system requests as this disk
    would, as long as the key stays the same and the print-outs read mapped
    addresses; [sbd_reads_last_write] that a read gives what was last written. *)

From S2P Require Import Prelude Mem Sbd.

(** ** The abstract disk *)

Record disk : Type := { contents : list Z; ram : mem }.

Section Defs.
Context (logical_block_size : Z).

(** First byte and number of bytes of a transfer. *)
Definition c_off (c : chunk) : nat := Z.to_nat (c_sector c * logical_block_size).
Definition c_len (c : chunk) : nat := Z.to_nat (c_nsect c * logical_block_size).

(** The list [l] with the bytes from [o] on replaced by [new]. *)
Definition splice (o : nat) (new l : list Z) : list Z :=
  take o l ++ new ++ drop (o + length new) l.

Definition disk_transfer (d : disk) (c : chunk) : disk :=
  if (length (contents d) <? c_off c + c_len c)%nat then d
  else if c_write c then
    {| contents := splice (c_off c) (read_bytes (ram d) (c_buffer c) (c_len c)) (contents d);
       ram := ram d |}
  else
    {| contents := contents d;
       ram := write_bytes (ram d) (c_buffer c) (take (c_len c) (drop (c_off c) (contents d))) |}.

(** The abstraction: the blocks of the data array, decrypted, and the memory
    outside the array, byte for byte. *)
Record decrypts `{C : Cipher} (k : key) (dev : sbd_device) (m : mem) (d : disk) : Prop := {
  dc_contents : contents d = map_blocks (decrypt_one k) (Z.to_nat (size dev) / blocksize)
                  (read_bytes m (data dev) (Z.to_nat (size dev)));
  dc_ram : forall x, x < data dev \/ data dev + size dev <= x -> ram d x mod 256 = m x mod 256
}.

(** The disk that a memory holds. *)
Definition disk_of `{C : Cipher} (k : key) (dev : sbd_device) (m : mem) : disk :=
  {| contents := map_blocks (decrypt_one k) (Z.to_nat (size dev) / blocksize)
                   (read_bytes m (data dev) (Z.to_nat (size dev)));
     ram := m |}.

(** The transfer does not write to the sectors of [w]. *)
Definition spares (w c : chunk) : Prop :=
  c_write c = false \/ c_sector c + c_nsect c <= c_sector w \/ c_sector w + c_nsect w <= c_sector c.

End Defs.

(** ** Bytes and blocks *)

Lemma read_bytes_eq m m' a n :
  (forall x, a <= x < a + Z.of_nat n -> m' x mod 256 = m x mod 256) <->
  read_bytes m' a n = read_bytes m a n.
Proof.
  split.
  - intros H. unfold read_bytes. apply map_ext_in. intros i Hi%in_seq. by rewrite H by lia.
  - revert a. induction n as [|n IH]; intros a; [lia|]. rewrite !read_bytes_S.
    intros [= H1 H2] x Hx. destruct (Z.eq_dec x a) as [->|Hne]; [done|]. apply (IH _ H2). lia.
Qed.

Section Blocks.
Context `{C : Cipher}.

Lemma map_blocks_app f a b l1 l2 :
  length l1 = (a * blocksize)%nat ->
  map_blocks f (a + b) (l1 ++ l2) = map_blocks f a l1 ++ map_blocks f b l2.
Proof.
  revert l1. induction a as [|a IH]; intros l1 Hl; cbn [map_blocks Nat.add Nat.mul] in *.
  - by apply nil_length_inv in Hl as ->.
  - rewrite <- (take_drop blocksize l1) at 1 2. rewrite <- !app_assoc.
    assert (length (take blocksize l1) = blocksize) as Ht by (rewrite length_take; lia).
    rewrite take_app_length', drop_app_length' by done. rewrite IH by (rewrite length_drop; lia).
    done.
Qed.

Lemma map_blocks_ok f n l :
  block_fun f -> length l = (n * blocksize)%nat -> bytes_ok l ->
  length (map_blocks f n l) = (n * blocksize)%nat /\ bytes_ok (map_blocks f n l).
Proof.
  intros Hf. revert l. induction n as [|n IH]; intros l Hl Hb; cbn [map_blocks Nat.mul] in *.
  { split; [done|constructor]. }
  assert (length (take blocksize l) = blocksize) as Ht by (rewrite length_take; lia).
  assert (bytes_ok (take blocksize l) /\ bytes_ok (drop blocksize l)) as [Hb1 Hb2].
  { rewrite <- (take_drop blocksize l) in Hb. by apply Forall_app. }
  destruct (Hf _ Ht Hb1) as [Hl1 Ho1].
  destruct (IH (drop blocksize l)) as [Hl2 Ho2]; [rewrite length_drop; lia|done|].
  rewrite length_app. split; [lia|by apply Forall_app].
Qed.

End Blocks.

Lemma splice_parts o new l1 l2 l3 :
  length l1 = o -> length l2 = length new -> splice o new (l1 ++ l2 ++ l3) = l1 ++ new ++ l3.
Proof.
  intros H1 H2. unfold splice. rewrite take_app_length' by done. do 2 f_equal.
  rewrite app_assoc, drop_app_length'; [done|]. rewrite length_app. lia.
Qed.

(** ** The device implements the disk *)

Section Theory.
Context `{C : Cipher} {CL : CipherLaws C} (W SW : Z) (logical_block_size : Z).
Hypothesis W_range : 32 <= W.
Hypothesis SW_range : 32 <= SW.
Context (k : key) (dev : sbd_device).

Abbreviation bs := (Z.of_nat blocksize).
Abbreviation c_off := (c_off logical_block_size).
Abbreviation c_len := (c_len logical_block_size).
Abbreviation disk_transfer := (disk_transfer logical_block_size).
Abbreviation decrypts := (decrypts k dev).

Hypothesis size_blocks : (bs | size dev).

(** No arithmetic of the transfer wraps around, and the buffer is not the
    device. *)
Definition chunk_ok (c : chunk) : Prop :=
  transfer_ok W SW logical_block_size dev (c_sector c) (c_nsect c) (c_buffer c).

Lemma decrypt_fun : block_fun (decrypt_one k).
Proof using All. intros b. apply decrypt_block. Qed.

(** The device has the bytes [data dev + o, data dev + o + n) in whole blocks. *)
Record parts (o n : nat) (x y z : nat) : Prop := {
  pt_off : o = (x * blocksize)%nat;
  pt_len : n = (y * blocksize)%nat;
  pt_size : Z.to_nat (size dev) = ((x + y + z) * blocksize)%nat
}.

Lemma chunk_parts c :
  chunk_ok c -> (c_off c + c_len c <= Z.to_nat (size dev))%nat ->
  exists x y z, parts (c_off c) (c_len c) x y z /\
    off logical_block_size (c_sector c) = Z.of_nat (c_off c) /\
    len logical_block_size (c_nsect c) = Z.of_nat (c_len c) /\ 0 <= size dev.
Proof using All.
  intros [[q Hq] Hl Hd [Hs Hn] _ _ _ _] Hin. pose proof blocksize_pos as Hbs.
  unfold SbdDisk.c_off, SbdDisk.c_len in *. destruct size_blocks as [t Ht].
  assert (0 < q) by nia. assert (0 <= t) by nia.
  exists (Z.to_nat (c_sector c * q)), (Z.to_nat (c_nsect c * q)),
    (Z.to_nat t - Z.to_nat (c_sector c * q) - Z.to_nat (c_nsect c * q))%nat.
  rewrite Hq in *. rewrite Ht in *. rewrite !Z.mul_assoc in *.
  assert (forall v, 0 <= v -> Z.to_nat (v * bs) = (Z.to_nat v * blocksize)%nat) as E.
  { intros v Hv. rewrite Z2Nat.inj_mul by lia. by rewrite Nat2Z.id. }
  rewrite !E in Hin by nia. split; [split|].
  - by rewrite E by nia.
  - by rewrite E by nia.
  - rewrite Ht, E by lia. nia.
  - unfold off, len. rewrite !Z.mul_assoc, !Z2Nat.id by nia. split; [done|]. split; [done|nia].
Qed.

(** The contents, cut at the ends of a transfer. *)
Lemma contents_parts m d o n x y z :
  decrypts m d -> parts o n x y z ->
  let piece i j := map_blocks (decrypt_one k) j (read_bytes m (data dev + Z.of_nat (i * blocksize)) (j * blocksize)) in
  contents d = piece O x ++ piece x y ++ piece (x + y)%nat z /\
  length (piece O x) = o /\ length (piece x y) = n.
Proof using All.
  intros [Hc _] [Ho Hn Hs] piece. pose proof blocksize_pos as Hbs.
  assert (forall i j, length (piece i j) = (j * blocksize)%nat) as Hlen.
  { intros i j. apply map_blocks_ok; [apply decrypt_fun|apply read_bytes_length|apply read_bytes_ok]. }
  split; [|by rewrite !Hlen]. rewrite Hc, Hs. rewrite Nat.div_mul by lia.
  rewrite <- Nat.add_assoc, !Nat.mul_add_distr_r, !read_bytes_app.
  rewrite !map_blocks_app by apply read_bytes_length. unfold piece. cbn [Nat.mul].
  rewrite Z.add_0_r. do 4 f_equal. lia.
Qed.

(** The bytes that only a transfer beyond its part would change. *)
Lemma decrypts_same m m' d :
  decrypts m d -> (forall x, data dev <= x < data dev + size dev -> m' x = m x) -> 0 <= size dev ->
  contents d = map_blocks (decrypt_one k) (Z.to_nat (size dev) / blocksize)
                 (read_bytes m' (data dev) (Z.to_nat (size dev))).
Proof using All.
  intros [Hc _] Hm Hs. rewrite Hc. f_equal. symmetry. apply read_bytes_agree. intros x Hx. apply Hm. lia.
Qed.

(** A write of the device is a write of the disk. *)
Lemma write_decrypts m m' d c :
  chunk_ok c -> c_write c = true -> (c_off c + c_len c <= Z.to_nat (size dev))%nat -> decrypts m d ->
  transferred logical_block_size m k dev (c_sector c) (c_nsect c) (c_buffer c) true m' ->
  decrypts m' {| contents := splice (c_off c) (read_bytes (ram d) (c_buffer c) (c_len c)) (contents d);
                 ram := ram d |}.
Proof using All.
  intros Hok Hw Hin Hd [Hout (n & En & Hr)]. pose proof blocksize_pos as Hbs.
  destruct (chunk_parts c Hok Hin) as (x & y & z & Hp & Eo & El & Hsz).
  destruct (contents_parts m d _ _ _ _ _ Hd Hp) as (Hc & L1 & L2). pose proof Hp as [Ho Hn Hs].
  rewrite Eo, El in *. unfold chunk_of in Hr. rewrite El, Nat2Z.id in Hr.
  assert (n = y) as -> by nia. split; cbn [contents ram].
  - rewrite Hc, splice_parts by (rewrite ?read_bytes_length; congruence).
    rewrite Hs, Nat.div_mul by lia. rewrite <- Nat.add_assoc, !Nat.mul_add_distr_r, !read_bytes_app.
    rewrite !map_blocks_app by apply read_bytes_length. f_equal; [|f_equal].
    + f_equal. cbn [Nat.mul]. rewrite Z.add_0_r. symmetry. apply read_bytes_agree.
      intros a Ha. apply Hout. lia.
    + rewrite <- Ho, <- Hn, Hr, map_blocks_inverse; [| |intros b; apply encrypt_block| |].
      * apply read_bytes_eq. intros a Ha. apply Hd.
        destruct Hok as [_ _ _ _ _ _ _ Hap]. unfold len in El. lia.
      * intros b Hb Hy. by apply decrypt_encrypt.
      * by rewrite read_bytes_length.
      * apply read_bytes_ok.
    + rewrite <- Z.add_assoc, <- Nat2Z.inj_add, <- Nat.mul_add_distr_r. f_equal. symmetry.
      apply read_bytes_agree. intros a Ha. apply Hout. lia.
  - intros a Ha. rewrite Hout by lia. by apply Hd.
Qed.

(** A read of the device is a read of the disk. *)
Lemma read_decrypts m m' d c :
  chunk_ok c -> c_write c = false -> (c_off c + c_len c <= Z.to_nat (size dev))%nat -> decrypts m d ->
  transferred logical_block_size m k dev (c_sector c) (c_nsect c) (c_buffer c) false m' ->
  decrypts m' {| contents := contents d;
                 ram := write_bytes (ram d) (c_buffer c) (take (c_len c) (drop (c_off c) (contents d))) |}.
Proof using All.
  intros Hok Hw Hin Hd [Hout (n & En & Hr)]. pose proof blocksize_pos as Hbs.
  destruct (chunk_parts c Hok Hin) as (x & y & z & Hp & Eo & El & Hsz).
  destruct (contents_parts m d _ _ _ _ _ Hd Hp) as (Hc & L1 & L2). pose proof Hp as [Ho Hn Hs].
  rewrite Eo, El in *. unfold chunk_of in Hr. rewrite El, Nat2Z.id in Hr. assert (n = y) as -> by nia.
  pose proof (to_apart _ _ _ _ _ _ _ Hok) as Hap. fold (len logical_block_size (c_nsect c)) in Hap.
  rewrite El in Hap. split; cbn [contents ram].
  - eapply decrypts_same; [done| |done]. intros a Ha. apply Hout. lia.
  - rewrite Hc, drop_app_length', take_app_length' by done. rewrite <- Ho, <- Hn, <- Hr.
    set (l := read_bytes m' (c_buffer c) (c_len c)).
    assert (length l = c_len c) as Hl by apply read_bytes_length. intros a Ha.
    destruct (decide (c_buffer c <= a < c_buffer c + Z.of_nat (c_len c))) as [Hin'|Hno].
    + revert a Hin' Ha. enough (read_bytes (write_bytes (ram d) (c_buffer c) l) (c_buffer c) (c_len c) = l) as E.
      { intros a Hin' _. by apply (proj2 (read_bytes_eq m' _ _ _) E). }
      rewrite <- Hl. apply read_write_bytes. apply read_bytes_ok.
    + rewrite write_bytes_out by lia. rewrite Hout by lia. by apply Hd.
Qed.

Lemma decrypts_length m d :
  0 <= size dev -> decrypts m d -> length (contents d) = Z.to_nat (size dev).
Proof using All.
  intros Hsz Hd. pose proof blocksize_pos. rewrite (dc_contents _ _ _ _ Hd). destruct size_blocks as [t Et].
  assert (Z.to_nat (size dev) = (Z.to_nat (size dev) / blocksize * blocksize)%nat) as E.
  { rewrite Et, Z2Nat.inj_mul, Nat2Z.id, Nat.div_mul by nia. done. }
  rewrite E at 3. apply map_blocks_ok; [apply decrypt_fun| |apply read_bytes_ok].
  by rewrite read_bytes_length.
Qed.

(** The bounds check of the disk is that of the device. *)
Lemma in_range_disk m d c :
  chunk_ok c -> decrypts m d ->
  in_range logical_block_size dev c = negb (length (contents d) <? c_off c + c_len c)%nat.
Proof using All.
  intros Hok Hd. assert (0 <= size dev) as Hsz by apply Hok. unfold in_range.
  rewrite (decrypts_length m d Hsz Hd). unfold SbdDisk.c_off, SbdDisk.c_len.
  destruct Hok as [_ Hl _ [H1 H2] _ _ _ _].
  assert (0 <= c_sector c * logical_block_size /\ 0 <= c_nsect c * logical_block_size) by nia.
  rewrite Z.leb_antisym. f_equal. rewrite Z.mul_add_distr_r.
  destruct (Z.ltb_spec (size dev) (c_sector c * logical_block_size + c_nsect c * logical_block_size));
    symmetry; [apply Nat.ltb_lt|apply Nat.ltb_ge]; lia.
Qed.

(** One transfer: as on the disk, or a fault of the print-outs. *)
Lemma transfer_decrypts mapped m k0 p d c :
  chunk_ok c -> crypto_cipher_setkey k0 p = k -> decrypts m d ->
  let r := sbd_crypt_transfer W SW logical_block_size mapped m k0 p dev
             (c_sector c) (c_nsect c) (c_buffer c) (c_write c) in
  if passes logical_block_size mapped dev c
  then exists m' k' pr, r = Ok (m', k', pr) /\ decrypts m' (disk_transfer d c)
  else r = Fault.
Proof using All.
  intros Hok Hk Hd r.
  pose proof (transfer_outcome W SW logical_block_size W_range SW_range mapped m k0 p dev c Hok) as Ht.
  cbn zeta in Ht. fold r in Ht. rewrite Hk in Ht. pose proof (in_range_disk m d c Hok Hd) as Er.
  assert (0 <= size dev) as Hsz by apply Hok. pose proof (decrypts_length m d Hsz Hd) as Hlen.
  unfold passes, SbdDisk.disk_transfer. rewrite Er in Ht |- *.
  destruct (Nat.ltb_spec (length (contents d)) (c_off c + c_len c)) as [Hlt|Hge]; cbn [negb orb] in *.
  { by exists m, k0, []. }
  destruct Ht as (m' & _ & Htr & Hr).
  destruct (prints_mapped _ _ _ _); [|done]. destruct Hr as [pr ->]. rewrite Hlen in Hge.
  exists m', k, pr. split; [done|].
  destruct (c_write c) eqn:Ew; [by eapply write_decrypts|by eapply read_decrypts].
Qed.

Lemma serve_decrypts mapped params i k0 m d l :
  Forall chunk_ok l -> sets_key params k -> decrypts m d ->
  if forallb (passes logical_block_size mapped dev) l
  then exists m' k', serve W SW logical_block_size mapped params i k0 dev m l = Ok (m', k') /\
         decrypts m' (fold_left disk_transfer l d)
  else serve W SW logical_block_size mapped params i k0 dev m l = Fault.
Proof using All.
  intros Hl Hk. revert i k0 m d. induction Hl as [|c l Hc Hl IH]; intros i k0 m d Hd; [by exists m, k0|].
  pose proof (transfer_decrypts mapped m k0 (params i) d c Hc (Hk k0 i) Hd) as Ht. cbn zeta in Ht.
  cbn [forallb serve fold_left]. destruct (passes _ _ _ c); cbn [andb]; [|by rewrite Ht].
  destruct Ht as (m1 & k1 & pr & -> & Hd1). cbn [res_bind]. by apply IH.
Qed.

(** Every memory holds some disk. *)
Lemma disk_of_decrypts m : decrypts m (disk_of k dev m).
Proof using All. by split. Qed.

Lemma request_refines `{B : BlkApi} {BL : BlkLaws B} mapped params k0 m d q fuel :
  all_fs q -> Forall chunk_ok (todo q None) -> (length (todo q None) < fuel)%nat ->
  sets_key params k -> decrypts m d ->
  if forallb (passes logical_block_size mapped dev) (todo q None)
  then exists m' k' q',
    sbd_crypt_request W SW logical_block_size fuel mapped params k0 dev m q = Ok (m', k', q') /\
    todo q' None = [] /\ decrypts m' (fold_left disk_transfer (todo q None) d)
  else sbd_crypt_request W SW logical_block_size fuel mapped params k0 dev m q = Fault.
Proof using All.
  intros Hfs Hok Hf Hk Hd. pose proof (serve_decrypts mapped params 0 k0 m d _ Hok Hk Hd) as Hs.
  pose proof (request_serves W SW logical_block_size mapped params k0 dev m q fuel Hfs Hf) as Hr.
  cbn zeta in Hr. destruct (forallb _ _); [|by rewrite Hs in Hr].
  destruct Hs as (m' & k' & E & Hd'). rewrite E in Hr. destruct Hr as (q' & Eq & Hq).
  by exists m', k', q'.
Qed.

(** C9: the encrypted device implements a plain disk, or faults in a print-out.
    Let the queue hold any file-system requests (in range or not, reads and
    writes, overlapping or not) whose arithmetic does not wrap around and whose
    buffers are apart from the data array ([chunk_ok]), let the cipher's blocks
    divide the sectors and the device, and let the parameters [crypt_key] and
    [crypt_keylen] set the same key [k] in every transfer.  If every chunk is
    beyond the device or its print-outs read mapped addresses (15 bytes from the
    buffer, and 15 from the low byte of the address in the array, [dest]), then
    [sbd_crypt_request] returns, has served the queue to its end, and leaves the
    contents of the disk, seen through the decryption of the data array, and the
    bytes of the client's memory as the plain transfers, one after the other,
    leave them; otherwise it faults. *)
Theorem sbd_refines_disk `{B : BlkApi} {BL : BlkLaws B} mapped params k0 m d q fuel :
  all_fs q -> Forall chunk_ok (todo q None) -> (length (todo q None) < fuel)%nat ->
  sets_key params k -> decrypts m d ->
  if forallb (passes logical_block_size mapped dev) (todo q None)
  then exists m' k' q',
    sbd_crypt_request W SW logical_block_size fuel mapped params k0 dev m q = Ok (m', k', q') /\
    todo q' None = [] /\ decrypts m' (fold_left disk_transfer (todo q None) d)
  else sbd_crypt_request W SW logical_block_size fuel mapped params k0 dev m q = Fault.
Proof using All.
  intros. by apply request_refines.
Qed.

(** ** Reading back *)

Lemma splice_lookup o new l i :
  (o + length new <= length l)%nat ->
  splice o new l !! i =
  if decide (i < o)%nat then l !! i
  else if decide (i < o + length new)%nat then new !! (i - o)%nat else l !! i.
Proof using All.
  intros Hl. unfold splice. assert (length (take o l) = o) as Ht by (rewrite length_take; lia).
  case_decide; [by rewrite lookup_app_l, lookup_take_lt by lia|].
  rewrite lookup_app_r, Ht by lia. case_decide; [by rewrite lookup_app_l by lia|].
  rewrite lookup_app_r by lia. rewrite lookup_drop. f_equal. lia.
Qed.

Lemma splice_length o new l : (o + length new <= length l)%nat -> length (splice o new l) = length l.
Proof using All. intros H. unfold splice. rewrite !length_app, length_take, length_drop. lia. Qed.

(** The bytes of the sectors of [w]. *)
Definition slice (d : disk) (w : chunk) : list Z := take (c_len w) (drop (c_off w) (contents d)).

Lemma slice_lookup d w i :
  slice d w !! i = if decide (i < c_len w)%nat then contents d !! (c_off w + i)%nat else None.
Proof using All.
  unfold slice. case_decide; [by rewrite lookup_take_lt, lookup_drop by lia|].
  by rewrite lookup_take_ge by lia.
Qed.

Lemma transfer_length d c : length (contents (disk_transfer d c)) = length (contents d).
Proof using All.
  unfold SbdDisk.disk_transfer. destruct (Nat.ltb_spec (length (contents d)) (c_off c + c_len c)); [done|].
  destruct (c_write c); [|done]. cbn. rewrite splice_length; [done|]. rewrite read_bytes_length. lia.
Qed.

Lemma transfers_length d l :
  length (contents (fold_left disk_transfer l d)) = length (contents d).
Proof using All.
  revert d. induction l as [|c l IH]; intros d; [done|]. cbn [fold_left]. by rewrite IH, transfer_length.
Qed.

(** A transfer that does not write to the sectors of [w] keeps them. *)
Lemma slice_spares d w c :
  chunk_ok w -> chunk_ok c -> spares w c -> slice (disk_transfer d c) w = slice d w.
Proof using All.
  intros [_ Hl _ [Hs1 Hn1] _ _ _ _] [_ _ _ [Hs2 Hn2] _ _ _ _] Hsp. unfold SbdDisk.disk_transfer.
  destruct (Nat.ltb_spec (length (contents d)) (c_off c + c_len c)); [done|].
  destruct (c_write c) eqn:Ew; [|done]. destruct Hsp as [?|Hsp]; [congruence|].
  apply list_eq. intros i. rewrite !slice_lookup. case_decide; [|done]. cbn [contents].
  rewrite splice_lookup by (rewrite read_bytes_length; lia). rewrite read_bytes_length.
  assert (c_off w + i < c_off c \/ c_off c + c_len c <= c_off w + i)%nat as Hap.
  { unfold SbdDisk.c_off, SbdDisk.c_len in *.
    destruct Hsp as [Hsp|Hsp]; apply (Z.mul_le_mono_nonneg_r _ _ logical_block_size) in Hsp; nia. }
  repeat case_decide; (done || lia).
Qed.

Lemma slice_spares_all d w l :
  chunk_ok w -> Forall chunk_ok l -> Forall (spares w) l -> slice (fold_left disk_transfer l d) w = slice d w.
Proof using All.
  intros Hw Hl. revert d. induction Hl as [|c l Hc Hl IH]; intros d Hsp; [done|].
  apply Forall_cons in Hsp as [H1 H2]. cbn [fold_left]. rewrite IH by done. by apply slice_spares.
Qed.

(** A write in range puts the bytes there. *)
Lemma slice_write d w :
  c_write w = true -> (c_off w + c_len w <= length (contents d))%nat ->
  slice (disk_transfer d w) w = read_bytes (ram d) (c_buffer w) (c_len w).
Proof using All.
  intros Hw Hin. unfold SbdDisk.disk_transfer. rewrite Hw.
  destruct (Nat.ltb_spec (length (contents d)) (c_off w + c_len w)); [lia|].
  apply list_eq. intros i. rewrite slice_lookup. cbn [contents]. case_decide as Hi.
  - rewrite splice_lookup, read_bytes_length by (rewrite read_bytes_length; lia).
    repeat case_decide; try lia. f_equal. lia.
  - symmetry. apply lookup_ge_None. rewrite read_bytes_length. lia.
Qed.

(** A read in range fetches them. *)
Lemma read_slice d r :
  c_write r = false -> (c_off r + c_len r <= length (contents d))%nat -> bytes_ok (slice d r) ->
  read_bytes (ram (disk_transfer d r)) (c_buffer r) (c_len r) = slice d r.
Proof using All.
  intros Hr Hin Hb. unfold SbdDisk.disk_transfer. rewrite Hr.
  destruct (Nat.ltb_spec (length (contents d)) (c_off r + c_len r)); [lia|]. cbn [ram].
  fold (slice d r). assert (length (slice d r) = c_len r) as Hl
    by (unfold slice; rewrite length_take, length_drop; lia).
  rewrite <- Hl at 1. by apply read_write_bytes.
Qed.

(** C23: a read gives what was last written, provided the parameters set the
    same key in every transfer, no transfer wraps around or has its buffer in the
    data array, the cipher's blocks divide the sectors and the device, and the
    addresses that the print-outs read are mapped: after a
    write of sectors in range, any transfers that do not write to these sectors
    (reads of them, transfers beyond the device, any other buffers) and a read of
    the sectors into some buffer, the buffer holds the bytes that were written. *)
Theorem sbd_reads_last_write mapped params k0 m w l r :
  Forall chunk_ok (w :: l ++ [r]) -> sets_key params k ->
  forallb (passes logical_block_size mapped dev) (w :: l ++ [r]) = true ->
  c_write w = true -> c_write r = false ->
  c_sector r = c_sector w -> c_nsect r = c_nsect w ->
  (c_sector w + c_nsect w) * logical_block_size <= size dev -> Forall (spares w) l ->
  exists m' k', serve W SW logical_block_size mapped params 0 k0 dev m (w :: l ++ [r]) = Ok (m', k') /\
    read_bytes m' (c_buffer r) (c_len r) = read_bytes m (c_buffer w) (c_len w).
Proof using All.
  intros Hok Hk Hp Hw Hr Es En Hin Hsp.
  pose proof (serve_decrypts mapped params 0 k0 m (disk_of k dev m) _ Hok Hk (disk_of_decrypts m)) as Hs.
  rewrite Hp in Hs. destruct Hs as (m' & k' & E & Hd).
  exists m', k'. split; [done|].
  apply Forall_cons in Hok as [Hw' [Hl' Hr']%Forall_app]. rewrite Forall_singleton in Hr'.
  cbn [fold_left] in Hd. rewrite fold_left_app in Hd. cbn [fold_left] in Hd.
  set (d0 := disk_of k dev m) in *. set (d1 := disk_transfer d0 w) in *.
  set (d2 := fold_left disk_transfer l d1) in *.
  assert (c_off r = c_off w /\ c_len r = c_len w) as [Eo El].
  { unfold SbdDisk.c_off, SbdDisk.c_len. by rewrite Es, En. }
  assert (0 <= size dev) as Hsz by apply Hw'.
  assert (c_off w + c_len w <= Z.to_nat (size dev))%nat as Hin'.
  { unfold SbdDisk.c_off, SbdDisk.c_len. destruct Hw' as [_ Hlb _ [? ?] _ _ _ _]. nia. }
  assert (length (contents d0) = Z.to_nat (size dev)) as L0
    by (apply (decrypts_length m); [done|apply disk_of_decrypts]).
  assert (length (contents d2) = Z.to_nat (size dev)) as L2.
  { unfold d2, d1. by rewrite transfers_length, transfer_length. }
  assert (slice d2 r = read_bytes m (c_buffer w) (c_len w)) as E2.
  { unfold slice. rewrite Eo, El. change (slice d2 w = read_bytes (ram d0) (c_buffer w) (c_len w)).
    unfold d2. rewrite slice_spares_all by done. apply slice_write; [done|]. by rewrite L0. }
  rewrite <- E2, <- read_slice; [|done|by rewrite L2, Eo, El|by rewrite E2; apply read_bytes_ok].
  apply read_bytes_eq. intros x Hx. symmetry. apply Hd.
  pose proof (to_apart _ _ _ _ _ _ _ Hr') as Hap. unfold SbdDisk.c_len in Hx.
  destruct Hr' as [_ Hlb _ [? ?] _ _ _ _]. rewrite Z2Nat.id in Hx by nia. lia.
Qed.

End Theory.

(** ** A run *)

Module Runs.
Import Xor.

(** A write of sector 1, a read of sector 0, a write beyond the device and a
    read of sector 1 into another buffer. *)
Definition w1 : chunk := {| c_sector := 1; c_nsect := 1; c_buffer := 4096; c_write := true |}.
Definition r0 : chunk := {| c_sector := 0; c_nsect := 1; c_buffer := 4096; c_write := false |}.
Definition w5 : chunk := {| c_sector := 5; c_nsect := 1; c_buffer := 4096; c_write := true |}.
Definition r1 : chunk := {| c_sector := 1; c_nsect := 1; c_buffer := 1024; c_write := false |}.

Definition queue0 : @request_queue blk := ([], [(true, w1, [r0]); (true, w5, []); (true, r1, [])]).

Lemma chunks_ok : Forall (chunk_ok 32 64 512 dev0) [w1; r0; w5; r1].
Proof.
  repeat constructor; cbn [size data dev0 blocksize cipher c_sector c_nsect c_buffer w1 r0 w5 r1];
    try lia; by exists 32.
Qed.

Lemma dev0_blocks : (Z.of_nat blocksize | size dev0).
Proof. by exists 64. Qed.

(** The low byte of 8192 and of 8704 is 0: the print-outs read from 0 to 14. *)
Definition page0_mapped : Z -> bool := fun a => (a <? 15) || (1024 <=? a).

(** With these addresses mapped the queue is served, without them it faults. *)
Lemma sbd_refines_disk_witness :
  (exists m' k' q',
    sbd_crypt_request 32 64 512 5 page0_mapped params0 3 dev0 m0 queue0 = Ok (m', k', q') /\
    todo q' None = [] /\
    decrypts k0 dev0 m' (fold_left (disk_transfer 512) [w1; r0; w5; r1] (disk_of k0 dev0 m0))) /\
  sbd_crypt_request 32 64 512 5 (fun a => 1024 <=? a) params0 3 dev0 m0 queue0 = Fault.
Proof.
  split.
  - apply (sbd_refines_disk 32 64 512 ltac:(lia) ltac:(lia) k0 dev0 dev0_blocks page0_mapped params0 3
             m0 _ queue0 5).
    + by repeat constructor.
    + exact chunks_ok.
    + cbn. lia.
    + exact params0_set.
    + by split.
  - apply (sbd_refines_disk 32 64 512 ltac:(lia) ltac:(lia) k0 dev0 dev0_blocks (fun a => 1024 <=? a)
             params0 3 m0 (disk_of k0 dev0 m0) queue0 5).
    + by repeat constructor.
    + exact chunks_ok.
    + cbn. lia.
    + exact params0_set.
    + by split.
Defined.

Lemma sbd_reads_last_write_witness :
  exists m' k', serve 32 64 512 page0_mapped params0 0 3 dev0 m0 [w1; r0; w5; r1] = Ok (m', k') /\
    read_bytes m' 1024 512 = read_bytes m0 4096 512.
Proof.
  apply (sbd_reads_last_write 32 64 512 ltac:(lia) ltac:(lia) k0 dev0 dev0_blocks page0_mapped params0 3
           m0 w1 [r0; w5] r1).
  - exact chunks_ok.
  - exact params0_set.
  - reflexivity.
  - reflexivity.
  - reflexivity.
  - reflexivity.
  - reflexivity.
  - cbn. lia.
  - constructor; [by left|]. constructor; [|constructor]. right. right. cbn. lia.
Defined.

End Runs.
