(* ===== verification/SbdModule.v ===== *)
(** * sbd.c: the loaded module

    The parameters of the module with their defaults, the table of operations
    given to the disk, and the composition of [sbd_crypt_init] with the request
    function: once the module is loaded, the kernel sends requests for sectors
    of [KERNEL_SECTOR_SIZE] bytes below the capacity that [set_capacity] has
    announced.  [sbd_loaded_disk] shows that with blocks of that size all these
    sectors work as a disk, as long as the print-outs read mapped addresses;
    [sbd_sector_units] what happens with larger blocks. *)

From stdpp Require Import strings.
From S2P Require Import Prelude Mem Sbd SbdDisk.

(** ** The module *)

(** [module_param]. *)
Record module_params : Type := {
  p_major_num : Z;
  p_logical_block_size : Z;
  p_nsectors : Z;
  p_crypt_key : string;
  p_crypt_keylen : Z
}.

Definition default_params : module_params :=
  {| p_major_num := 0;
     p_logical_block_size := 512;
     p_nsectors := 1024;
     p_crypt_key := "passwordpassword";
     p_crypt_keylen := 16 |}.

(** The key that the parameters give, the bytes of [crypt_key]. *)
Definition key_of (p : module_params) : key_param :=
  {| crypt_key := map (fun c => Z.of_N (Ascii.N_of_ascii c)) (String.list_ascii_of_string (p_crypt_key p));
     crypt_keylen := p_crypt_keylen p |}.

(** [struct block_device_operations] of [linux/blkdev.h], as far as it is set. *)
Record block_device_operations : Type := { getgeo : sbd_device -> hd_geometry }.

Section Defs.
Context (W : Z) (ENOMEM : Z).

Definition sbd_crypt_ops (p : module_params) : block_device_operations :=
  {| getgeo := sbd_crypt_getgeo W (p_logical_block_size p) |}.

(** [module_init (sbd_crypt_init)] with the parameters [p]: the variables of the
    module start at 0. *)
Definition module_init (p : module_params) (o : outcomes) : res (Z * module_state) :=
  sbd_crypt_init W (p_logical_block_size p) ENOMEM (p_nsectors p) o
    {| major_num := p_major_num p; device_size := 0; gd_major := 0; gd_capacity := 0; held := [] |}.

(** The device of a loaded module, with the array that [vmalloc] returned. *)
Definition Device (s : module_state) (array : Z) : sbd_device :=
  {| size := device_size s; data := array |}.

(** A transfer that the kernel can ask for: sectors below the capacity, and a
    buffer of that many sectors of memory outside the array. *)
Record kernel_chunk (s : module_state) (array : Z) (c : chunk) : Prop := {
  kc_sector : 0 <= c_sector c /\ 0 <= c_nsect c;
  kc_capacity : c_sector c + c_nsect c <= gd_capacity s;
  kc_buffer : 0 <= c_buffer c /\ c_buffer c + c_nsect c * KERNEL_SECTOR_SIZE <= 2 ^ W;
  kc_apart : c_buffer c + c_nsect c * KERNEL_SECTOR_SIZE <= array \/
             array + device_size s <= c_buffer c
}.

End Defs.

(** ** Loading *)

Section Theory.
Context `{C : Cipher} {CL : CipherLaws C} (W SW : Z) (ENOMEM : Z).
Hypothesis W_range : 32 <= W.
Hypothesis SW_range : 32 <= SW.
Hypothesis ENOMEM_pos : 0 < ENOMEM.
Context (p : module_params) (o : outcomes) (s : module_state) (array : Z).

Abbreviation lbs := (p_logical_block_size p).
Abbreviation bs := (Z.of_nat blocksize).
Abbreviation dev := (Device s array).

(** The module is loaded; the product of the two parameters fits an [int], and
    the array lies in memory. *)
Hypothesis loaded : module_init W ENOMEM p o = Ok (0, s).
Hypothesis lbs_blocks : (bs | lbs).
Hypothesis lbs_pos : 0 < lbs.
Hypothesis nsectors_pos : 0 <= p_nsectors p.
Hypothesis size_int : p_nsectors p * lbs + bs < 2 ^ 31.
Hypothesis array_fits : 0 <= array /\ array + p_nsectors p * lbs <= 2 ^ W.

Lemma loaded_size : device_size s = p_nsectors p * lbs /\ gd_capacity s = p_nsectors p.
Proof using All.
  pose proof loaded as E. unfold module_init, sbd_crypt_init, init_out in E.
  pose proof (pow31_W W W_range) as [H1 H2].
  assert (ul W (wrap_s 32 (p_nsectors p * lbs)) = p_nsectors p * lbs) as Eu.
  { rewrite wrap_s_small by (unfold in_s; change (2 ^ (32 - 1)) with (2 ^ 31); nia).
    apply ul_id. nia. }
  rewrite Eu in E. clear Eu H1 H2.
  repeat match type of E with
  | context [match ?x with _ => _ end] => destruct x; try discriminate E
  end; cbn in E; injection E; intros; subst; cbn; try done; lia.
Qed.

Lemma dev_size : size dev = p_nsectors p * lbs.
Proof using All. apply loaded_size. Qed.

Lemma dev_blocks : (bs | size dev).
Proof using All. rewrite dev_size. by apply Z.divide_mul_r. Qed.

(** A transfer below the capacity, when the memory that it touches is apart from
    the array. *)
Lemma capacity_chunk_ok c :
  kernel_chunk W s array c ->
  c_buffer c + c_nsect c * lbs <= 2 ^ W ->
  c_buffer c + c_nsect c * lbs <= array \/ array + size dev <= c_buffer c ->
  chunk_ok W SW lbs dev c /\ (c_sector c + c_nsect c) * lbs <= size dev.
Proof using All.
  intros [[Hs Hn] Hc [Hb _] _] Hb' Ha. destruct loaded_size as [E1 E2]. rewrite E2 in Hc.
  pose proof dev_size as Ed. pose proof (pow31_W W W_range) as [H1 H2].
  assert (2 ^ 32 <= 2 ^ SW) as H3 by (apply Z.pow_le_mono_r; lia).
  change (2 ^ 32) with (2 * 2 ^ 31) in H3. pose proof blocksize_pos.
  assert ((c_sector c + c_nsect c) * lbs <= p_nsectors p * lbs) as Hin by nia.
  split; [|lia]. split; try done.
  - cbn [Device data size] in *. rewrite E1. lia.
  - nia.
  - nia.
Qed.

(** C22: the module, loaded with blocks of the kernel's sector size, is the disk
    that it announces, as far as its print-outs let it.  Its contents are
    [gd_capacity] sectors; every transfer below the capacity is inside the
    device, so the bounds check refuses none.  (The cipher's blocks divide the
    block size, the size of the device and one cipher block together fit an
    [int], and the array lies in memory.)  Let the queue hold file-system
    requests for sectors below the capacity, with buffers in memory apart from
    the data array, and let the key of the module parameters, unchanged since
    the module was loaded, be one that the cipher accepts (it always sets [k]).
    If the print-outs of every transfer read mapped addresses (15 bytes from the
    buffer, and 15 from the low byte of the address in the array), the request
    function returns and has served the queue as a plain disk with these
    contents would; otherwise it faults. *)
Theorem sbd_loaded_disk `{B : BlkApi} {BL : BlkLaws B} mapped k0 k m d q fuel :
  lbs = KERNEL_SECTOR_SIZE ->
  all_fs q -> Forall (kernel_chunk W s array) (todo q None) -> (length (todo q None) < fuel)%nat ->
  (forall k', crypto_cipher_setkey k' (key_of p) = k) -> decrypts k dev m d ->
  Z.of_nat (length (contents d)) = gd_capacity s * KERNEL_SECTOR_SIZE /\
  Forall (fun c => (c_off lbs c + c_len lbs c <= length (contents d))%nat) (todo q None) /\
  if forallb (prints_mapped lbs mapped dev) (todo q None)
  then exists m' k' q',
    sbd_crypt_request W SW lbs fuel mapped (fun _ => key_of p) k0 dev m q = Ok (m', k', q') /\
    todo q' None = [] /\ decrypts k dev m' (fold_left (disk_transfer lbs) (todo q None) d)
  else sbd_crypt_request W SW lbs fuel mapped (fun _ => key_of p) k0 dev m q = Fault.
Proof using All.
  intros El Hfs Hch Hf Hk Hd. destruct loaded_size as [E1 E2].
  assert (0 <= size dev) as Hsz by (rewrite dev_size; nia).
  pose proof (decrypts_length W SW lbs W_range SW_range k dev dev_blocks m d Hsz Hd) as Hlen.
  assert (Forall (fun c => chunk_ok W SW lbs dev c /\ (c_sector c + c_nsect c) * lbs <= size dev)
            (todo q None)) as Hok.
  { eapply Forall_impl; [exact Hch|]. intros c Hc. pose proof Hc as [_ _ [_ Hb] Ha].
    rewrite <- El in Hb, Ha. by apply capacity_chunk_ok. }
  split; [|split].
  - rewrite Hlen, Z2Nat.id by done. by rewrite dev_size, E2, El.
  - rewrite Hlen. eapply Forall_impl; [exact Hok|]. intros c [Hc Hin].
    destruct Hc as [_ _ _ [H1 H2] _ _ _ _]. unfold c_off, c_len. nia.
  - assert (forallb (prints_mapped lbs mapped dev) (todo q None)
            = forallb (passes lbs mapped dev) (todo q None)) as ->.
    { clear -Hok. induction Hok as [|c l [_ Hc] _ IH]; [done|]. cbn [forallb]. rewrite IH. f_equal.
      unfold passes, in_range. by rewrite (proj2 (Z.leb_le _ _) Hc). }
    apply request_refines; try done; [by apply dev_blocks| |by intros k1 _].
    eapply Forall_impl; [exact Hok|]. by intros c [Hc _].
Qed.

(** C34: the code takes the kernel's sectors for blocks.  With a block size above
    512 a transfer of the kernel's sectors moves more bytes than the kernel's
    buffer has: a read overwrites the memory behind the buffer with bytes of the
    device, and a write stores the memory behind the buffer in the device
    (although a comment says that the kernel always talks of small sectors). *)
Theorem sbd_sector_units k0 kp m c :
  KERNEL_SECTOR_SIZE < lbs -> kernel_chunk W s array c -> 0 < c_nsect c ->
  c_buffer c + c_nsect c * lbs <= 2 ^ W ->
  c_buffer c + c_nsect c * lbs <= array \/ array + size dev <= c_buffer c ->
  let n := Z.to_nat (c_nsect c * KERNEL_SECTOR_SIZE) in
  let more := Z.to_nat (c_nsect c * (lbs - KERNEL_SECTOR_SIZE)) in
  let k := crypto_cipher_setkey k0 kp in
  (0 < more)%nat /\
  exists m' k' prints,
    sbd_crypt_transfer W SW lbs (fun _ => true) m k0 kp dev (c_sector c) (c_nsect c) (c_buffer c) (c_write c)
    = Ok (m', k', prints) /\
    if c_write c
    then drop n (slice lbs (disk_of k dev m') c) = read_bytes m (c_buffer c + Z.of_nat n) more
    else read_bytes m' (c_buffer c + Z.of_nat n) more = drop n (slice lbs (disk_of k dev m) c).
Proof using All.
  intros Hl Hc Hn Hb Ha n more k. unfold KERNEL_SECTOR_SIZE in *.
  destruct (capacity_chunk_ok c Hc Hb Ha) as [Hok Hin]. pose proof dev_blocks as Hbl.
  assert (0 <= size dev) as Hsz by (rewrite dev_size; nia).
  pose proof (transfer_decrypts W SW lbs W_range SW_range k dev Hbl (fun _ => true) m k0 kp
    (disk_of k dev m) c Hok eq_refl (disk_of_decrypts W SW lbs W_range SW_range k dev Hbl m)) as Ht.
  unfold passes, prints_mapped in Ht. cbn [forallb seq andb] in Ht. rewrite orb_true_r in Ht.
  destruct Ht as (m' & k' & pr & E & Hd).
  assert (c_len lbs c = (n + more)%nat) as Elen.
  { unfold c_len, n, more. rewrite <- Z2Nat.inj_add by nia. f_equal. lia. }
  assert (length (contents (disk_of k dev m)) = Z.to_nat (size dev)) as L0
    by (apply (decrypts_length W SW lbs W_range SW_range k dev Hbl m); [done|by apply (disk_of_decrypts W SW lbs W_range SW_range k dev Hbl)]).
  assert (c_off lbs c + c_len lbs c <= length (contents (disk_of k dev m)))%nat as Hin'.
  { rewrite L0. destruct Hok as [_ _ _ [H1 H2] _ _ _ _]. unfold c_off, c_len. nia. }
  split; [unfold more; nia|]. exists m', k', pr. split; [exact E|]. destruct (c_write c) eqn:Ew.
  - assert (contents (disk_of k dev m') = contents (disk_transfer lbs (disk_of k dev m) c)) as Ec.
    { symmetry. apply Hd. }
    unfold slice. rewrite Ec. fold (slice lbs (disk_transfer lbs (disk_of k dev m) c) c).
    rewrite (slice_write W SW lbs W_range SW_range k dev Hbl) by done. cbn [ram disk_of]. rewrite Elen, read_bytes_app.
    by rewrite drop_app_length' by (by rewrite read_bytes_length).
  - assert (bytes_ok (slice lbs (disk_of k dev m) c)) as Hby.
    { unfold slice, bytes_ok. apply Forall_take, Forall_drop. cbn [contents disk_of].
      apply (map_blocks_ok _ _ _ (decrypt_fun W SW lbs W_range SW_range k dev Hbl)); [|apply read_bytes_ok].
      rewrite read_bytes_length. destruct Hbl as [t Et]. pose proof blocksize_pos.
      rewrite Et, Z2Nat.inj_mul, Nat2Z.id, Nat.div_mul by nia. done. }
    pose proof (read_slice W SW lbs W_range SW_range k dev Hbl _ c Ew Hin' Hby) as Er.
    assert (read_bytes m' (c_buffer c) (c_len lbs c)
            = read_bytes (ram (disk_transfer lbs (disk_of k dev m) c)) (c_buffer c) (c_len lbs c)) as Em.
    { apply read_bytes_eq. intros x Hx. symmetry. apply Hd. unfold c_len in Hx.
      rewrite Z2Nat.id in Hx by nia. cbn [Device data] in *. lia. }
    rewrite Er, Elen, read_bytes_app in Em.
    rewrite <- Em. by rewrite drop_app_length' by (by rewrite read_bytes_length).
Qed.

End Theory.

(** ** Concrete modules *)

Module Runs.
Import Xor SbdDisk.Runs.

(** Every call of [sbd_crypt_init] succeeds; the kernel chooses major 253. *)
Definition loads : outcomes :=
  {| out_vmalloc := true; out_queue := true; out_register := 253; out_cipher := valid_handle;
     out_disk := true |}.

Definition array0 : Z := 2 ^ 20.

(** The module with its default parameters, and with blocks of 1024 bytes. *)
Definition loaded0 : module_state :=
  {| major_num := 253; device_size := 524288; gd_major := 253; gd_capacity := 1024;
     held := [Disk; CryptCipher; Blkdev 253; Queue; Data] |}.

Definition wide_params : module_params :=
  {| p_major_num := 0; p_logical_block_size := 1024; p_nsectors := 4;
     p_crypt_key := "passwordpassword"; p_crypt_keylen := 16 |}.

Definition wide0 : module_state :=
  {| major_num := 253; device_size := 4096; gd_major := 253; gd_capacity := 4;
     held := [Disk; CryptCipher; Blkdev 253; Queue; Data] |}.

(** A write of the last sector, a read of sector 0 and of the last one. *)
Definition w_last : chunk := {| c_sector := 1023; c_nsect := 1; c_buffer := 4096; c_write := true |}.
Definition r_last : chunk := {| c_sector := 1023; c_nsect := 1; c_buffer := 1024; c_write := false |}.

Definition queue1 : @request_queue blk := ([], [(true, w_last, [r0]); (true, r_last, [])]).

Lemma kernel_chunks : Forall (kernel_chunk 32 loaded0 array0) [w_last; r0; r_last].
Proof.
  repeat constructor; cbn; unfold array0, KERNEL_SECTOR_SIZE; lia.
Qed.

(** The key byte of the default parameters. *)
Definition k_default : @key cipher := foldr Z.lxor 0 (crypt_key (key_of default_params)).

(** The print-outs read the buffers and the addresses 0 to 14. *)
Lemma sbd_loaded_disk_witness :
  (exists m' k' q',
    sbd_crypt_request 32 64 512 4 page0_mapped (fun _ => key_of default_params) k0
      (Device loaded0 array0) m0 queue1 = Ok (m', k', q') /\
    todo q' None = [] /\
    decrypts k_default (Device loaded0 array0) m'
      (fold_left (disk_transfer 512) [w_last; r0; r_last]
         (disk_of k_default (Device loaded0 array0) m0))) /\
  sbd_crypt_request 32 64 512 4 (fun a => 1024 <=? a) (fun _ => key_of default_params) k0
    (Device loaded0 array0) m0 queue1 = Fault.
Proof.
  assert (array0_ok : 0 <= array0 /\ array0 + p_nsectors default_params * 512 <= 2 ^ 32)
    by (unfold array0; cbn; lia).
  split.
  - apply (sbd_loaded_disk 32 64 12 ltac:(lia) ltac:(lia) ltac:(lia) default_params loads loaded0 array0
           eq_refl ltac:(by exists 32) ltac:(cbn; lia) ltac:(cbn; lia) ltac:(cbn; lia)
           array0_ok page0_mapped k0 k_default m0 (disk_of k_default (Device loaded0 array0) m0) queue1 4).
    + reflexivity.
    + by repeat constructor.
    + exact kernel_chunks.
    + cbn. lia.
    + reflexivity.
    + by split.
  - apply (sbd_loaded_disk 32 64 12 ltac:(lia) ltac:(lia) ltac:(lia) default_params loads loaded0 array0
           eq_refl ltac:(by exists 32) ltac:(cbn; lia) ltac:(cbn; lia) ltac:(cbn; lia)
           array0_ok (fun a => 1024 <=? a) k0 k_default m0 (disk_of k_default (Device loaded0 array0) m0)
           queue1 4).
    + reflexivity.
    + by repeat constructor.
    + exact kernel_chunks.
    + cbn. lia.
    + reflexivity.
    + by split.
Defined.

(** One sector is read into the 512 bytes at 4096; the byte behind them
    changes. *)
Definition r_one : chunk := {| c_sector := 1; c_nsect := 1; c_buffer := 4096; c_write := false |}.

Lemma sbd_sector_units_witness :
  exists m' k' prints,
    sbd_crypt_transfer 32 64 1024 (fun _ => true) m0 3 (params0 0) (Device wide0 array0) 1 1 4096 false
    = Ok (m', k', prints) /\
    take 3 (read_bytes m' (4096 + 512) 512) = [7; 6; 5] /\ read_bytes m0 (4096 + 512) 3 = [0; 1; 2].
Proof.
  destruct (sbd_sector_units 32 64 12 ltac:(lia) ltac:(lia) ltac:(lia) wide_params loads wide0 array0
           eq_refl ltac:(by exists 64) ltac:(cbn; lia) ltac:(cbn; lia) ltac:(cbn; lia)
           ltac:(unfold array0; cbn; lia) 3 (params0 0) m0 r_one) as (_ & m' & k' & prints & E & H).
  - reflexivity.
  - constructor; cbn; unfold array0, KERNEL_SECTOR_SIZE; lia.
  - cbn. lia.
  - cbn. lia.
  - left. cbn. unfold array0. lia.
  - exists m', k', prints. split; [exact E|]. split; [|vm_compute; reflexivity].
    transitivity (take 3 (drop 512 (slice 1024 (disk_of k0 (Device wide0 array0) m0) r_one))).
    + f_equal. exact H.
    + vm_compute. reflexivity.
Defined.

End Runs.
