(* ===== verification/Philosophers.v ===== *)
(** * philosophers.java: five dining philosophers

    [concurrency/concurrency2/philosophers.java]: the chopsticks as Java
    monitors with a semaphore each, the philosophers as threads that make one
    access to a shared object, or print one line, at a time.  A philosopher is
    named by its number in [philo_names], [Thread.sleep] takes any time, and
    [out] is what the program prints.  Nothing interrupts the threads, so the
    [InterruptedException] handlers do not run.

    The invariant [table_ok] says for each chopstick what the philosophers know
    about it ([knows]) and who stands behind its state ([backed]: whoever holds
    its permit, is inside its monitor, or has cleaned it and will dirty it
    again).  From it follow the exclusion of neighbours and the exact list of
    the deadlocks. *)

From S2P Require Import Prelude.
From stdpp Require Import functions.
#[local] Open Scope nat_scope.

(** ** The program *)

(** [class Chopstick]; [monitor] is the thread inside a synchronized method. *)
Record chopstick : Type := {
  mainuser : nat;
  sem : nat;
  clean : bool;
  monitor : option nat
}.

(** [rightChopstick] and [leftChopstick]. *)
Inductive side : Type := R | L.

Definition stick (i : nat) (d : side) : nat :=
  match d with R => i | L => (i + 1) mod 5 end.

(** The lines that the program prints. *)
Inductive message : Type :=
| holds_chopstick (user c : nat)
| thinking (i : nat)
| finished_thinking (i : nat)
| receives (user c from : nat)
| attempt_failed (from user : nat)
| eating (i : nat)
| finished_eating (i : nat).

(** Where a philosopher is in [run]. *)
Inductive think_pc : Type :=
| t_start          (* prints "thinking..." *)
| t_sleep.         (* Thread.sleep, prints "finished thinking" *)

Inductive grab_pc : Type :=
| g_enter          (* enters grabChopstick *)
| g_test           (* while (this.mainuser != user), if (!clean) *)
| g_acquire        (* sem.acquire () *)
| g_take           (* clean = true; println; mainuser = user *)
| g_release        (* finally sem.release () *)
| g_waiting        (* in wait () *)
| g_woken.         (* notified, waits for the monitor *)

Inductive eat_pc : Type :=
| e_acq_right
| e_acq_left
| e_eating         (* prints "eating..." *)
| e_sleep          (* Thread.sleep, rightChopstick.rel () *)
| e_rel_left
| e_done.          (* prints "finished eating" *)

Inductive set_pc : Type := s_enter | s_body.

Inductive pc : Type :=
| Think (p : think_pc)
| Grab (d : side) (p : grab_pc)
| Eat (p : eat_pc)
| SetStick (d : side) (p : set_pc).

Record table : Type := {
  chopsticks : nat -> chopstick;
  philos : nat -> pc;
  out : list message
}.

Definition set_sem (c : chopstick) (n : nat) : chopstick :=
  {| mainuser := mainuser c; sem := n; clean := clean c; monitor := monitor c |}.
Definition set_monitor (c : chopstick) (m : option nat) : chopstick :=
  {| mainuser := mainuser c; sem := sem c; clean := clean c; monitor := m |}.
Definition set_user (c : chopstick) (i : nat) : chopstick :=
  {| mainuser := i; sem := sem c; clean := true; monitor := monitor c |}.
Definition set_dirty (c : chopstick) : chopstick :=
  {| mainuser := mainuser c; sem := sem c; clean := false; monitor := monitor c |}.

(** Philosopher [i] changes the chopstick [c] and goes to [p]. *)
Definition move (w : table) (i c : nat) (k : chopstick) (p : pc) : table :=
  {| chopsticks := <[c := k]> (chopsticks w); philos := <[i := p]> (philos w); out := out w |}.

Definition goto (w : table) (i : nat) (p : pc) : table :=
  {| chopsticks := chopsticks w; philos := <[i := p]> (philos w); out := out w |}.

(** [System.out.println]. *)
Definition println (w : table) (m : message) : table :=
  {| chopsticks := chopsticks w; philos := philos w; out := out w ++ [m] |}.

(** [sem.acquire ()] blocks at zero; entering a monitor blocks when it is held. *)
Definition acquire (w : table) (i c : nat) (p : pc) : option table :=
  match sem (chopsticks w c) with
  | O => None
  | S n => Some (move w i c (set_sem (chopsticks w c) n) p)
  end.

Definition release (w : table) (i c : nat) (p : pc) : option table :=
  Some (move w i c (set_sem (chopsticks w c) (S (sem (chopsticks w c)))) p).

Definition enter (w : table) (i c : nat) (p : pc) : option table :=
  match monitor (chopsticks w c) with
  | None => Some (move w i c (set_monitor (chopsticks w c) (Some i)) p)
  | Some _ => None
  end.

Definition leave (w : table) (i c : nat) (p : pc) : option table :=
  Some (move w i c (set_monitor (chopsticks w c) None) p).

(** [notifyAll ()] on the chopstick [c]. *)
Definition wake (c i : nat) (p : pc) : pc :=
  match p with
  | Grab d g_waiting => if decide (stick i d = c) then Grab d g_woken else p
  | _ => p
  end.

(** [think]. *)
Definition think_step (w : table) (i : nat) (p : think_pc) : option table :=
  match p with
  | t_start => Some (goto (println w (thinking i)) i (Think t_sleep))
  | t_sleep => Some (goto (println w (finished_thinking i)) i (Grab R g_enter))
  end.

(** [grabChopstick]. *)
Definition grab_step (w : table) (i : nat) (d : side) (p : grab_pc) : option table :=
  let c := stick i d in
  let k := chopsticks w c in
  match p with
  | g_enter | g_woken => enter w i c (Grab d g_test)
  | g_test =>
    if decide (mainuser k = i) then
      leave w i c (match d with R => Grab L g_enter | L => Eat e_acq_right end)
    else if clean k then leave (println w (attempt_failed (mainuser k) i)) i c (Grab d g_waiting)
    else Some (goto w i (Grab d g_acquire))
  | g_acquire => acquire w i c (Grab d g_take)
  | g_take => Some (move (println w (receives i c (mainuser k))) i c (set_user k i) (Grab d g_release))
  | g_release => release w i c (Grab d g_test)
  | g_waiting => None
  end.

(** [eat]. *)
Definition eat_step (w : table) (i : nat) (p : eat_pc) : option table :=
  match p with
  | e_acq_right => acquire w i (stick i R) (Eat e_acq_left)
  | e_acq_left => acquire w i (stick i L) (Eat e_eating)
  | e_eating => Some (goto (println w (eating i)) i (Eat e_sleep))
  | e_sleep => release w i (stick i R) (Eat e_rel_left)
  | e_rel_left => release w i (stick i L) (Eat e_done)
  | e_done => Some (goto (println w (finished_eating i)) i (SetStick R s_enter))
  end.

(** [setChopstick]. *)
Definition set_step (w : table) (i : nat) (d : side) (p : set_pc) : option table :=
  let c := stick i d in
  match p with
  | s_enter => enter w i c (SetStick d s_body)
  | s_body =>
    Some {| chopsticks := <[c := set_monitor (set_dirty (chopsticks w c)) None]> (chopsticks w);
            philos := <[i := match d with R => SetStick L s_enter | L => Think t_start end]>
                        (fun j => wake c j (philos w j));
            out := out w |}
  end.

(** [run]; [None] when the philosopher is blocked. *)
Definition philo_step (w : table) (i : nat) : option table :=
  match philos w i with
  | Think p => think_step w i p
  | Grab d p => grab_step w i d p
  | Eat p => eat_step w i p
  | SetStick d p => set_step w i d p
  end.

Inductive step : table -> table -> Prop :=
| step_philo w i w' : i < 5 -> philo_step w i = Some w' -> step w w'
(** Java allows [wait ()] to return without a notification. *)
| step_spurious w i d :
    i < 5 -> philos w i = Grab d g_waiting -> step w (goto w i (Grab d g_woken)).

(** The constructor [philosophers ()]: chopstick [i] belongs to the smaller of
    [i] and [(i + 4) mod 5]. *)
Definition first_user (i : nat) : nat :=
  let setChopstick := (i + 4) mod 5 in
  if i <? setChopstick then i else setChopstick.

Definition start : table := {|
  chopsticks := fun i => {| mainuser := first_user i; sem := 1; clean := false; monitor := None |};
  philos := fun _ => Think t_start;
  out := map (fun i => holds_chopstick (first_user i) i) [0; 1; 2; 3; 4]
|}.

Definition reachable (w : table) : Prop := rtc step start w.

(** ** The invariant *)

(** The philosopher at [p] holds the permit of the chopstick [c]. *)
Definition holds (i : nat) (p : pc) (c : nat) : Prop :=
  match p with
  | Grab d g_take | Grab d g_release => c = stick i d
  | Eat e_acq_left => c = stick i R
  | Eat (e_eating | e_sleep) => c = stick i R \/ c = stick i L
  | Eat e_rel_left => c = stick i L
  | _ => False
  end.

(** It is inside a synchronized method of [c]. *)
Definition inside (i : nat) (p : pc) (c : nat) : Prop :=
  match p with
  | Grab d (g_test | g_acquire | g_take | g_release) | SetStick d s_body => c = stick i d
  | _ => False
  end.

(** It waits for a notification of [c]. *)
Definition waits (i : nat) (p : pc) (c : nat) : Prop :=
  match p with Grab d g_waiting => c = stick i d | _ => False end.

(** It is about to take [c]. *)
Definition takes (i : nat) (p : pc) (c : nat) : Prop :=
  match p with Grab d (g_acquire | g_take) => c = stick i d | _ => False end.

(** It is between taking [c] and its [setChopstick] of [c]. *)
Definition uses (i : nat) (p : pc) (c : nat) : Prop :=
  match p with
  | Grab R (g_release | g_test) => c = stick i R
  | Grab L (g_release | g_test) | Eat _ | SetStick R _ => c = stick i R \/ c = stick i L
  | Grab L _ => c = stick i R
  | SetStick L _ => c = stick i L
  | _ => False
  end.

(** What philosopher [i] at [p] knows of the chopstick [c], whose state is [k]. *)
Record knows (i : nat) (p : pc) (c : nat) (k : chopstick) : Prop := {
  kn_sem : holds i p c -> sem k = 0;
  kn_mon : inside i p c -> monitor k = Some i;
  kn_wait : waits i p c -> clean k = true /\ mainuser k <> i;
  kn_take : takes i p c -> clean k = false /\ mainuser k <> i
}.

(** The state [k] of the chopstick [c] is the work of some philosopher. *)
Record backed (ps : nat -> pc) (c : nat) (k : chopstick) : Prop := {
  bk_binary : sem k <= 1;
  bk_sem : sem k = 0 -> exists i, i < 5 /\ holds i (ps i) c;
  bk_mon : forall i, monitor k = Some i -> i < 5 /\ inside i (ps i) c;
  bk_user : mainuser k < 5 /\ exists d, stick (mainuser k) d = c;
  bk_clean : clean k = true -> uses (mainuser k) (ps (mainuser k)) c
}.

Record table_ok (w : table) : Prop := {
  tk_knows : forall i c, knows i (philos w i) c (chopsticks w c);
  tk_backed : forall c, c < 5 -> backed (philos w) c (chopsticks w c);
  tk_unique : forall i j c, holds i (philos w i) c -> holds j (philos w j) c -> i = j
}.

(** ** Every step keeps the invariant *)

Lemma stick_ne i : stick i L <> stick i R.
Proof.
  unfold stick. intros E. pose proof (Nat.mod_upper_bound (i + 1) 5).
  do 5 (destruct i as [|i]; [done|]). lia.
Qed.

Lemma stick_lt i d : i < 5 -> stick i d < 5.
Proof. intros Hi. destruct d; [done|]. apply Nat.mod_upper_bound. lia. Qed.

(** The chopstick [c] is still backed after philosopher [i] turned [k] into
    [k']. *)
Lemma backed_update ps ps' i c k k' :
  backed ps c k -> i < 5 -> (forall j, j <> i -> ps' j = ps j) -> sem k' <= 1 ->
  (sem k' = 0 -> holds i (ps' i) c \/ sem k = 0 /\ (holds i (ps i) c -> holds i (ps' i) c)) ->
  (forall j, monitor k' = Some j ->
     j = i /\ inside i (ps' i) c \/ monitor k = Some j /\ (inside i (ps i) c -> inside i (ps' i) c)) ->
  (mainuser k' = mainuser k \/ mainuser k' = i /\ exists d, stick i d = c) ->
  (clean k' = true ->
     mainuser k' = i /\ uses i (ps' i) c \/
     mainuser k' = mainuser k /\ clean k = true /\
     (mainuser k = i -> uses i (ps i) c -> uses i (ps' i) c)) ->
  backed ps' c k'.
Proof.
  intros [B1 B2 B3 B4 B5] Hi Hps Hb Hs Hm Hu Hc. split; [done|..].
  - intros E. destruct (Hs E) as [H|[E0 H]]; [by exists i|].
    destruct (B2 E0) as (j & Hj & Hh). exists j. split; [done|].
    destruct (decide (j = i)) as [->|Hne]; [by apply H|by rewrite Hps].
  - intros j E. destruct (Hm j E) as [[-> H]|[E0 H]]; [done|].
    destruct (B3 j E0) as [Hj Hin]. split; [done|].
    destruct (decide (j = i)) as [->|Hne]; [by apply H|by rewrite Hps].
  - destruct Hu as [->|[-> Hd]]; [done|]. by split.
  - intros E. destruct (Hc E) as [[-> H]|(-> & E0 & H)]; [done|].
    specialize (B5 E0). destruct (decide (mainuser k = i)) as [Ei|Hne].
    + rewrite Ei in *. by apply H.
    + by rewrite Hps.
Qed.

(** Going from [p] to [p'] changes what philosopher [i] does with no chopstick
    but [c]. *)
Definition only (i : nat) (p p' : pc) (c : nat) : Prop :=
  forall c', c' <> c ->
    (holds i p c' <-> holds i p' c') /\ (inside i p c' <-> inside i p' c') /\
    (uses i p c' -> uses i p' c') /\ (waits i p' c' -> waits i p c') /\ (takes i p' c' -> takes i p c').

(** Philosopher [i] makes a step that changes no chopstick but [c]. *)
Lemma update_ok w w' i c :
  table_ok w -> i < 5 ->
  (forall j, j <> i -> philos w' j = philos w j) ->
  (forall c', c' <> c -> chopsticks w' c' = chopsticks w c') ->
  only i (philos w i) (philos w' i) c ->
  (forall j, j <> i -> knows j (philos w j) c (chopsticks w' c)) ->
  knows i (philos w' i) c (chopsticks w' c) ->
  (backed (philos w) c (chopsticks w c) -> backed (philos w') c (chopsticks w' c)) ->
  (holds i (philos w' i) c ->
     holds i (philos w i) c \/ forall j, j <> i -> ~ holds j (philos w j) c) ->
  table_ok w'.
Proof.
  intros [Hk Hb Hu] Hi Hps Hcs Hkeep Hko Hki Hbc Hnew. split.
  - intros j c'. destruct (decide (c' = c)) as [->|Hc]; destruct (decide (j = i)) as [->|Hj]; auto.
    + rewrite Hps by done. auto.
    + rewrite Hcs by done. destruct (Hkeep c' Hc) as (H1 & H2 & _ & H4 & H5).
      destruct (Hk i c') as [K1 K2 K3 K4]. split; naive_solver.
    + rewrite Hcs, Hps by done. auto.
  - intros c' Hc'. destruct (decide (c' = c)) as [->|Hc]; [auto|]. rewrite Hcs by done.
    destruct (Hkeep c' Hc) as (H1 & H2 & H3 & _).
    apply (backed_update (philos w) _ i _ (chopsticks w c')); auto.
    + by destruct (Hb c' Hc').
    + intros E. right. split; [done|]. apply H1.
    + intros j E. right. split; [done|]. apply H2.
  - assert (forall j c', j <> i -> holds i (philos w' i) c' -> holds j (philos w j) c' -> False) as Hx.
    { intros j c' Hj H1 H2. destruct (decide (c' = c)) as [->|Hc].
      - destruct (Hnew H1) as [H|H]; [|by eapply H]. by apply Hj, (Hu j i c).
      - apply (Hkeep c' Hc) in H1. by apply Hj, (Hu j i c'). }
    intros j1 j2 c' H1 H2.
    destruct (decide (j1 = i)) as [->|N1], (decide (j2 = i)) as [->|N2]; [done|..].
    + rewrite (Hps j2) in H2 by done. by destruct (Hx j2 c' N2 H1 H2).
    + rewrite (Hps j1) in H1 by done. by destruct (Hx j1 c' N1 H2 H1).
    + rewrite Hps in H1, H2 by done. by apply (Hu j1 j2 c').
Qed.

(** The lookups of an update of the two maps. *)
Ltac look := cbn [move goto println chopsticks philos out]; rewrite ?fn_lookup_insert;
  rewrite ?fn_lookup_insert_ne by done.

(** [sem.acquire ()] that does not block. *)
Lemma acquire_ok w i c p w' :
  table_ok w -> i < 5 -> c < 5 -> acquire w i c p = Some w' ->
  only i (philos w i) p c -> holds i p c -> (inside i p c <-> inside i (philos w i) c) ->
  (uses i (philos w i) c -> uses i p c) -> ~ waits i p c ->
  (takes i p c -> takes i (philos w i) c) -> table_ok w'.
Proof.
  intros Hok Hi Hc E Ho Hh Hin Hus Hw Ht. pose proof (tk_knows w Hok) as Hk. unfold acquire in E.
  destruct (sem (chopsticks w c)) as [|n] eqn:Es; [done|]. injection E as <-.
  assert (forall j, ~ holds j (philos w j) c) as Hno.
  { intros j H. apply (kn_sem _ _ _ _ (Hk j c)) in H. congruence. }
  pose proof (bk_binary _ _ _ (tk_backed w Hok c Hc)) as Hb. assert (n = 0) as -> by lia.
  apply (update_ok w _ i c Hok Hi); look; [intros; by look|intros; by look|done|..].
  - intros j Hj. destruct (Hk j c). split; cbn; auto.
  - destruct (Hk i c). split; cbn; naive_solver.
  - intros B. pose proof (bk_binary _ _ _ B).
    apply (backed_update (philos w) _ i _ (chopsticks w c) _ B Hi); look; cbn; auto;
      [intros; by look|..]; naive_solver lia.
  - auto.
Qed.

Lemma release_ok w i c p w' :
  table_ok w -> i < 5 -> c < 5 -> release w i c p = Some w' ->
  only i (philos w i) p c -> holds i (philos w i) c -> ~ holds i p c ->
  (inside i p c <-> inside i (philos w i) c) ->
  (uses i (philos w i) c -> uses i p c) -> ~ waits i p c -> ~ takes i p c -> table_ok w'.
Proof.
  intros Hok Hi Hc E Ho Hh Hh' Hin Hus Hw Ht. pose proof (tk_knows w Hok) as Hk. injection E as <-.
  assert (sem (chopsticks w c) = 0) as Es by (by apply (kn_sem _ _ _ _ (Hk i c))).
  apply (update_ok w _ i c Hok Hi); look; [intros; by look|intros; by look|done|..].
  - intros j Hj. destruct (Hk j c). split; cbn; auto.
    intros H. destruct Hj. by apply (tk_unique w Hok j i c).
  - destruct (Hk i c). split; cbn; naive_solver.
  - intros B. pose proof (bk_binary _ _ _ B).
    apply (backed_update (philos w) _ i _ (chopsticks w c) _ B Hi); look; cbn; auto;
      [intros; by look|..]; naive_solver lia.
  - done.
Qed.

Lemma enter_ok w i c p w' :
  table_ok w -> i < 5 -> c < 5 -> enter w i c p = Some w' ->
  only i (philos w i) p c -> inside i p c -> (holds i p c <-> holds i (philos w i) c) ->
  (uses i (philos w i) c -> uses i p c) -> ~ waits i p c -> ~ takes i p c -> table_ok w'.
Proof.
  intros Hok Hi Hc E Ho Hin Hh Hus Hw Ht. pose proof (tk_knows w Hok) as Hk. unfold enter in E.
  destruct (monitor (chopsticks w c)) eqn:Em; [done|]. injection E as <-.
  apply (update_ok w _ i c Hok Hi); look; [intros; by look|intros; by look|done|..].
  - intros j Hj. destruct (Hk j c) as [K1 K2 K3 K4]. split; cbn; auto. intros H%K2. congruence.
  - destruct (Hk i c). split; cbn; naive_solver.
  - intros B. pose proof (bk_binary _ _ _ B).
    apply (backed_update (philos w) _ i _ (chopsticks w c) _ B Hi); look; cbn; auto;
      [intros; by look|..]; naive_solver lia.
  - rewrite Hh. auto.
Qed.

(** Leaving the monitor: a chopstick that [i] owns stays in its use, and if it
    waits then for a clean one. *)
Lemma leave_ok w i c p w' :
  table_ok w -> i < 5 -> c < 5 -> leave w i c p = Some w' ->
  only i (philos w i) p c -> inside i (philos w i) c -> ~ inside i p c ->
  (holds i p c <-> holds i (philos w i) c) ->
  (mainuser (chopsticks w c) = i -> uses i (philos w i) c -> uses i p c) ->
  (waits i p c -> clean (chopsticks w c) = true /\ mainuser (chopsticks w c) <> i) ->
  ~ takes i p c -> table_ok w'.
Proof.
  intros Hok Hi Hc E Ho Hin Hin' Hh Hus Hw Ht. pose proof (tk_knows w Hok) as Hk. injection E as <-.
  assert (monitor (chopsticks w c) = Some i) as Em by (by apply (kn_mon _ _ _ _ (Hk i c))).
  apply (update_ok w _ i c Hok Hi); look; [intros; by look|intros; by look|done|..].
  - intros j Hj. destruct (Hk j c) as [K1 K2 K3 K4]. split; cbn; auto. intros H%K2. congruence.
  - destruct (Hk i c). split; cbn; naive_solver.
  - intros B. pose proof (bk_binary _ _ _ B).
    apply (backed_update (philos w) _ i _ (chopsticks w c) _ B Hi); look; cbn; auto;
      [intros; by look|..]; naive_solver lia.
  - rewrite Hh. auto.
Qed.

(** A step that changes no chopstick. *)
Lemma stay_ok w i c p m :
  table_ok w -> i < 5 ->
  only i (philos w i) p c -> (holds i p c <-> holds i (philos w i) c) ->
  (inside i p c <-> inside i (philos w i) c) ->
  (mainuser (chopsticks w c) = i -> uses i (philos w i) c -> uses i p c) ->
  (waits i p c -> waits i (philos w i) c) ->
  (takes i p c -> clean (chopsticks w c) = false /\ mainuser (chopsticks w c) <> i) ->
  table_ok {| chopsticks := chopsticks w; philos := <[i := p]> (philos w); out := m |}.
Proof.
  intros Hok Hi Ho Hh Hin Hus Hw Ht. pose proof (tk_knows w Hok) as Hk.
  apply (update_ok w _ i c Hok Hi); look; [intros; by look|done|done|..].
  - intros j Hj. apply Hk.
  - destruct (Hk i c). split; naive_solver.
  - intros B. pose proof (bk_binary _ _ _ B).
    apply (backed_update (philos w) _ i _ (chopsticks w c) _ B Hi); look; cbn; auto;
      [intros; by look|..]; naive_solver lia.
  - rewrite Hh. auto.
Qed.

(** Facts about one philosopher, whose place before the step is [Hp]. *)
Ltac places Hp :=
  unfold only; rewrite ?Hp; cbn [holds inside waits takes uses];
  try match goal with i : nat |- _ => pose proof (stick_ne i) end; naive_solver.

Lemma think_step_ok w i p w' :
  table_ok w -> i < 5 -> philos w i = Think p -> think_step w i p = Some w' -> table_ok w'.
Proof.
  intros Hok Hi Hp E. destruct p; injection E as <-; apply (stay_ok w i i); try done; places Hp.
Qed.

Lemma println_ok w m : table_ok w -> table_ok (println w m).
Proof. intros [H1 H2 H3]. by split. Qed.

Lemma grab_step_ok w i d p w' :
  table_ok w -> i < 5 -> philos w i = Grab d p -> grab_step w i d p = Some w' -> table_ok w'.
Proof.
  intros Hok Hi Hp E. pose proof (stick_lt i d Hi) as Hc. pose proof (tk_knows w Hok) as Hk.
  set (c := stick i d) in *. destruct p; cbn [grab_step] in E; fold c in E.
  - apply (enter_ok w i c _ _ Hok Hi Hc E); unfold c; destruct d; places Hp.
  - destruct (decide _) as [Hu|Hu].
    { apply (leave_ok w i c _ _ Hok Hi Hc E); unfold c; destruct d; places Hp. }
    destruct (clean _) eqn:Ec.
    { apply (leave_ok _ i c _ _ (println_ok w _ Hok) Hi Hc E); cbn [println philos chopsticks];
        unfold c in *; destruct d; places Hp. }
    injection E as <-. apply (stay_ok w i c _ _ Hok Hi); unfold c in *; destruct d; places Hp.
  - apply (acquire_ok w i c _ _ Hok Hi Hc E); unfold c; destruct d; places Hp.
  - injection E as <-. destruct (kn_take _ _ _ _ (Hk i c)) as [Ed Hu]; [unfold c; places Hp|].
    assert (forall j, j <> i -> ~ inside j (philos w j) c) as Hno.
    { intros j Hj H%(kn_mon _ _ _ _ (Hk j c)). assert (inside i (philos w i) c) as Hin by (unfold c; places Hp).
      apply (kn_mon _ _ _ _ (Hk i c)) in Hin. congruence. }
    apply (update_ok w _ i c Hok Hi); look; [intros; by look|intros; by look|..].
    + unfold c. destruct d; places Hp.
    + intros j Hj. destruct (Hk j c) as [K1 K2 K3 K4]. specialize (Hno j Hj).
      split; cbn; [done|done| |].
      * intros H%K3. destruct H. congruence.
      * intros H. destruct Hno. destruct (philos w j) as [|? []| |]; done.
    + destruct (Hk i c) as [K1 K2 _ _]. rewrite Hp in K1, K2. by split.
    + intros B. apply (backed_update (philos w) _ i _ (chopsticks w c) _ B Hi); look; cbn.
      * intros; by look.
      * apply B.
      * auto.
      * auto.
      * right. split; [done|]. by exists d.
      * left. split; [done|]. unfold c. destruct d; auto.
    + rewrite Hp. auto.
  - apply (release_ok w i c _ _ Hok Hi Hc E); unfold c; destruct d; places Hp.
  - done.
  - apply (enter_ok w i c _ _ Hok Hi Hc E); unfold c; destruct d; places Hp.
Qed.

Lemma eat_step_ok w i p w' :
  table_ok w -> i < 5 -> philos w i = Eat p -> eat_step w i p = Some w' -> table_ok w'.
Proof.
  intros Hok Hi Hp E. pose proof (stick_lt i R Hi). pose proof (stick_lt i L Hi).
  destruct p; cbn [eat_step] in E;
    [eapply (acquire_ok w i (stick i R))|eapply (acquire_ok w i (stick i L))
    |injection E as <-; apply (stay_ok w i (stick i R))
    |eapply (release_ok w i (stick i R))|eapply (release_ok w i (stick i L))
    |injection E as <-; apply (stay_ok w i (stick i R))]; try done; places Hp.
Qed.

(** [notifyAll]: waiting philosophers become woken ones. *)
Lemma wake_places c i p c' :
  (holds i (wake c i p) c' <-> holds i p c') /\ (inside i (wake c i p) c' <-> inside i p c') /\
  (uses i (wake c i p) c' <-> uses i p c') /\ (takes i (wake c i p) c' <-> takes i p c') /\
  (waits i (wake c i p) c' <-> waits i p c' /\ c' <> c).
Proof.
  destruct p as [|d []| |]; cbn; try naive_solver. destruct (decide _), d; cbn; naive_solver.
Qed.

Lemma set_step_ok w i d p w' :
  table_ok w -> i < 5 -> philos w i = SetStick d p -> set_step w i d p = Some w' -> table_ok w'.
Proof.
  intros Hok Hi Hp E. pose proof (stick_lt i d Hi) as Hc. set (c := stick i d) in *.
  destruct p; cbn [set_step] in E; fold c in E.
  { apply (enter_ok w i c _ _ Hok Hi Hc E); unfold c; destruct d; places Hp. }
  injection E as <-.
  set (w1 := {| chopsticks := chopsticks w; philos := fun j => wake c j (philos w j); out := out w |}).
  assert (table_ok w1) as Hok1.
  { destruct Hok as [H1 H2 H3]. split; cbn.
    - intros j c'. destruct (wake_places c j (philos w j) c') as (A1 & A2 & A3 & A4 & A5).
      destruct (H1 j c'). split; naive_solver.
    - intros c' Hc'. destruct (H2 c' Hc') as [B1 B2 B3 B4 B5]. split; [done|..|done|].
      + intros E. destruct (B2 E) as (j & Hj & H). exists j. split; [done|]. by apply wake_places.
      + intros j E. destruct (B3 j E) as [Hj H]. split; [done|]. by apply wake_places.
      + intros E. apply wake_places. auto.
    - intros j1 j2 c' A B. apply wake_places in A, B. by apply (H3 j1 j2 c'). }
  pose proof (tk_knows w1 Hok1) as Hk.
  assert (philos w1 i = SetStick d s_body) as Hp1 by (cbn; by rewrite Hp).
  assert (monitor (chopsticks w c) = Some i) as Em.
  { apply (kn_mon _ _ _ _ (Hk i c)). unfold c. places Hp1. }
  apply (update_ok w1 _ i c Hok1 Hi); look; [intros; by look|intros; by look|..].
  - rewrite Hp1. unfold c. destruct d; places Hp1.
  - intros j Hj. destruct (Hk j c) as [K1 K2 K3 K4]. split; cbn; [done| | |].
    + intros H%K2. cbn in H. congruence.
    + intros H. apply wake_places in H as [_ H]. done.
    + intros H. destruct (K4 H) as [_ Hu]. done.
  - split; cbn; destruct d; done.
  - intros B. apply (backed_update (philos w1) _ i _ (chopsticks w c) _ B Hi); look; cbn; auto.
    + intros; by look.
    + apply B.
    + intros E. right. split; [done|]. by rewrite Hp.
    + done.
    + done.
  - by destruct d.
Qed.

Lemma step_ok w w' : table_ok w -> step w w' -> table_ok w'.
Proof.
  intros Hok Hs. destruct Hs as [w0 i w1 Hi E|w0 i d Hi Hp]; [unfold philo_step in E|].
  - destruct (philos w0 i) as [p|d p|p|d p] eqn:Hp.
    + by eapply think_step_ok.
    + by eapply grab_step_ok.
    + by eapply eat_step_ok.
    + by eapply set_step_ok.
  - apply (stay_ok w0 i (stick i d) _ _ Hok Hi); destruct d; places Hp.
Qed.

Lemma table_start_ok : table_ok start.
Proof.
  split; [intros; split; done| |done]. intros c Hc. split; cbn; try done.
  do 5 (destruct c as [|c]; [vm_compute; split; [lia|]; first [by exists R|by exists L]|]). lia.
Qed.

Lemma reachable_ok w : reachable w -> table_ok w.
Proof. intros H. apply (rtc_invariant step table_ok step_ok _ _ H table_start_ok). Qed.

(** ** Exclusion *)

(** The philosopher has both chopsticks in its hands. *)
Definition eats (p : pc) : Prop := match p with Eat (e_eating | e_sleep) => True | _ => False end.

Lemma eats_holds i p d : eats p -> holds i p (stick i d).
Proof. destruct p as [| |[]|]; try done; destruct d; cbn; auto. Qed.

(** A chopstick changes hands only from a step of its new user that holds its
    permit. *)
Lemma user_changes w i w' c :
  philo_step w i = Some w' -> mainuser (chopsticks w' c) <> mainuser (chopsticks w c) ->
  exists d, philos w i = Grab d g_take /\ c = stick i d.
Proof.
  unfold philo_step. intros E Hc.
  assert (forall c0 k p o, {| chopsticks := <[c0 := k]> (chopsticks w); philos := p; out := o |} = w' ->
    mainuser k = mainuser (chopsticks w c0) -> False) as Hmove.
  { intros c0 k p o <- Hk. apply Hc. cbn. destruct (decide (c = c0)) as [->|]; by look. }
  destruct (philos w i) as [[]|d []|[]|d []] eqn:Hp; cbn [think_step grab_step eat_step set_step] in E;
    unfold acquire, enter, leave, release in E;
    repeat match type of E with context [match ?x with _ => _ end] => destruct x; try done end;
    try discriminate E; injection E as <-; try done;
    try (exfalso; by eapply Hmove).
  exists d. split; [done|]. destruct (decide (c = stick i d)) as [->|Hne]; [done|].
  cbn in Hc. by rewrite fn_lookup_insert_ne in Hc.
Qed.

(** C12: neighbours never eat at the same time: in every reachable state no two
    philosophers that share a chopstick have both chopsticks in their hands, and
    at most one thread is inside the methods of a chopstick.  The user recorded
    in a chopstick is always one of the two philosophers beside it, and changes
    only when nobody is eating with it. *)
Theorem philosophers_exclusive w :
  reachable w ->
  (forall i j, eats (philos w i) -> eats (philos w j) ->
     (stick i R = stick j L \/ stick i L = stick j R) -> i = j) /\
  (forall i j c, inside i (philos w i) c -> inside j (philos w j) c -> i = j) /\
  (forall c, c < 5 -> exists d, stick (mainuser (chopsticks w c)) d = c) /\
  (forall i w' c j, philo_step w i = Some w' ->
     mainuser (chopsticks w' c) <> mainuser (chopsticks w c) ->
     eats (philos w j) -> c <> stick j R /\ c <> stick j L).
Proof.
  intros Hok%reachable_ok. pose proof Hok as [Hk Hb Hu]. split; [|split; [|split]].
  - intros i j Ei Ej E. destruct E as [E|E].
    + apply (Hu i j (stick i R)); [by apply eats_holds|rewrite E; by apply eats_holds].
    + apply (Hu i j (stick i L)); [by apply eats_holds|rewrite E; by apply eats_holds].
  - intros i j c Hi%(kn_mon _ _ _ _ (Hk i c)) Hj%(kn_mon _ _ _ _ (Hk j c)). congruence.
  - intros c Hc. apply (bk_user _ _ _ (Hb c Hc)).
  - intros i w' c j E Hc Ej. destruct (user_changes w i w' c E Hc) as (d & Hp & ->).
    assert (forall d', stick i d = stick j d' -> False) as Hno; [|split; intros E'; by eapply Hno].
    intros d' E'. assert (i = j) as ->; [|by rewrite Hp in Ej].
    apply (Hu i j (stick i d)); [by rewrite Hp|rewrite E'; by apply eats_holds].
Qed.

(** ** The deadlocks *)

(** No philosopher can make a step of its own. *)
Definition blocked (w : table) : Prop := forall i, i < 5 -> philo_step w i = None.

(** Whoever holds a permit while nobody can move waits for its left chopstick. *)
Lemma blocked_holder w c :
  table_ok w -> blocked w -> c < 5 -> sem (chopsticks w c) = 0 -> philos w c = Eat e_acq_left.
Proof.
  intros Hok Hb Hc Es. destruct (bk_sem _ _ _ (tk_backed w Hok c Hc) Es) as (i & Hi & Hh).
  specialize (Hb i Hi). unfold philo_step in Hb.
  destruct (philos w i) as [[]|d []|[]|d []] eqn:Hp; try done. cbn in Hh. by subst c.
Qed.

Lemma blocked_all_left w c :
  table_ok w -> blocked w -> c < 5 -> sem (chopsticks w c) = 0 ->
  forall i, i < 5 -> philos w i = Eat e_acq_left.
Proof.
  intros Hok Hb Hc Es. assert (forall k, k < 5 -> philos w k = Eat e_acq_left ->
    philos w (stick k L) = Eat e_acq_left) as Hnext.
  { intros k Hk Hp. apply blocked_holder; [done..|by apply stick_lt|]. specialize (Hb k Hk).
    unfold philo_step in Hb. rewrite Hp in Hb. cbn [eat_step] in Hb. unfold acquire in Hb.
    by destruct (sem _). }
  pose proof (blocked_holder w c Hok Hb Hc Es) as H0.
  assert (forall n, philos w (Nat.iter n (fun k => stick k L) c) = Eat e_acq_left /\
                    Nat.iter n (fun k => stick k L) c < 5) as Hn.
  { induction n as [|n [IH1 IH2]]; [done|]. rewrite Nat.iter_succ. split; [auto|by apply stick_lt]. }
  intros i Hi. replace i with (Nat.iter (i + 5 - c) (fun k => stick k L) c); [apply Hn|].
  clear - Hc Hi. do 5 (destruct c as [|c]; [do 5 (destruct i as [|i]; [done|]); lia|]). lia.
Qed.

(** Somebody inside a monitor can move, or waits for a permit. *)
Lemma blocked_monitor w c :
  table_ok w -> blocked w -> c < 5 -> monitor (chopsticks w c) <> None -> sem (chopsticks w c) = 0.
Proof.
  intros Hok Hb Hc Hm. destruct (monitor (chopsticks w c)) as [j|] eqn:Em; [|done].
  destruct (bk_mon _ _ _ (tk_backed w Hok c Hc) j Em) as [Hj Hin].
  specialize (Hb j Hj). unfold philo_step in Hb.
  destruct (philos w j) as [[]|d []|[]|d []] eqn:Hp; try done; cbn [grab_step] in Hb.
  - repeat case_match; done.
  - cbn in Hin. subst c. unfold acquire in Hb. by destruct (sem _).
Qed.

Lemma blocked_cases w :
  table_ok w -> blocked w ->
  (forall i, i < 5 -> philos w i = Eat e_acq_left) \/
  (forall i, i < 5 -> exists d, philos w i = Grab d g_waiting).
Proof.
  intros Hok Hb.
  destruct (decide (Exists (fun c => sem (chopsticks w c) = 0) [0; 1; 2; 3; 4])) as [He|Hne].
  - left. apply Exists_exists in He as (c & Hin & Es). apply (blocked_all_left w c); [done..| |done].
    cbn in Hin. lia.
  - assert (forall c, c < 5 -> sem (chopsticks w c) <> 0) as Hs.
    { intros c Hc E. destruct Hne. apply Exists_exists. exists c. split; [cbn; lia|done]. }
    right. intros i Hi. pose proof (Hb i Hi) as E. unfold philo_step in E.
    assert (forall d p, enter w i (stick i d) p = None -> False) as Hent.
    { intros d p En. apply (Hs (stick i d)); [by apply stick_lt|].
      apply blocked_monitor; [done..|by apply stick_lt|]. unfold enter in En. by destruct (monitor _). }
    assert (forall d p, acquire w i (stick i d) p = None -> False) as Hacq.
    { intros d p En. apply (Hs (stick i d)); [by apply stick_lt|]. unfold acquire in En. by destruct (sem _). }
    destruct (philos w i) as [[]|d []|[]|d []] eqn:Hp; try done; cbn [grab_step eat_step set_step] in E;
      try (by destruct (Hent _ _ E)); try (by destruct (Hacq _ _ E)); [|by exists d].
    repeat case_match; done.
Qed.

(** Philosophers that all wait wait for their left chopsticks: a clean right
    chopstick of a neighbour is in use by a philosopher that does not wait. *)
Lemma all_wait_left w :
  table_ok w -> (forall i, i < 5 -> exists d, philos w i = Grab d g_waiting) ->
  forall i, i < 5 -> philos w i = Grab L g_waiting /\
    clean (chopsticks w (stick i L)) = true /\ mainuser (chopsticks w (stick i L)) = stick i L.
Proof.
  intros Hok Hall i Hi. destruct (Hall i Hi) as [d Hp]. pose proof (stick_lt i d Hi) as Hc.
  destruct (kn_wait _ _ _ _ (tk_knows w Hok i (stick i d))) as [Ecl Hu]; [by rewrite Hp|].
  destruct (tk_backed w Hok _ Hc) as [_ _ _ [Hm _] Bc]. specialize (Bc Ecl).
  destruct (Hall _ Hm) as [d' Hp']. rewrite Hp' in Bc. destruct d'; [done|]. cbn in Bc.
  destruct d; [|done]. cbn in Bc, Hu. congruence.
Qed.

(** Everybody waits for a left chopstick that its neighbour has cleaned, or has
    been woken and is about to find this out again. *)
Definition jammed (w : table) : Prop :=
  forall i, i < 5 ->
    clean (chopsticks w i) = true /\ mainuser (chopsticks w i) = i /\
    match philos w i with Grab L (g_waiting | g_woken | g_test) => True | _ => False end.

Lemma jammed_step w w' : jammed w -> step w w' -> jammed w'.
Proof.
  intros Hj Hs. assert (forall i c k p o, i < 5 -> clean k = true -> mainuser k = c ->
    match p with Grab L (g_waiting | g_woken | g_test) => True | _ => False end ->
    jammed {| chopsticks := <[c := k]> (chopsticks w); philos := <[i := p]> (philos w); out := o |}) as Hmove.
  { intros i c k p o Hi Hc Hm Hp j Hj'. destruct (Hj j Hj') as (J1 & J2 & J3). cbn [chopsticks philos].
    destruct (decide (j = c)) as [<-|], (decide (j = i)) as [<-|]; look; auto. }
  destruct Hs as [w i w' Hi E|w i d Hi Hp].
  - destruct (Hj i Hi) as (_ & _ & Hp). destruct (Hj (stick i L) (stick_lt i L Hi)) as (J1 & J2 & _).
    unfold philo_step in E. destruct (philos w i) as [|[] []| |]; try done; cbn [grab_step] in E.
    + rewrite decide_False in E by (rewrite J2; apply stick_ne). rewrite J1 in E. injection E as <-.
      by apply Hmove.
    + unfold enter in E. destruct (monitor _); [done|]. injection E as <-. by apply Hmove.
  - destruct (Hj i Hi) as (_ & _ & Hp'). rewrite Hp in Hp'. intros j Hj'.
    destruct (Hj j Hj') as (J1 & J2 & J3). cbn. destruct (decide (j = i)) as [->|]; look; [|done].
    by destruct d.
Qed.

(** Philosopher [i] takes [n] steps. *)
Definition turn (w : table) (x : nat * nat) : table :=
  Nat.iter (snd x) (fun w => match philo_step w (fst x) with Some w' => w' | None => w end) w.

Definition run (l : list (nat * nat)) : table := fold_left turn l start.

Lemma turns_reachable l : Forall (fun x => fst x < 5) l -> reachable (run l).
Proof.
  unfold run, reachable. induction l as [|x l IH] using rev_ind; [done|].
  intros [Hl Hx]%Forall_app. apply (proj1 (Forall_singleton _ _)) in Hx. specialize (IH Hl).
  rewrite fold_left_app. cbn [fold_left]. revert IH. generalize (fold_left turn l start).
  intros w Hw. unfold turn. induction (snd x) as [|n IHn]; [exact Hw|]. rewrite Nat.iter_succ.
  destruct (philo_step _ (fst x)) as [w'|] eqn:E; [|exact IHn].
  exact (rtc_r _ _ _ IHn (step_philo _ _ _ Hx E)).
Qed.

(** Philosopher 0 eats, with the chopstick that its neighbour 1 has taken
    over. *)
Definition zero_eats : list (nat * nat) := [(0, 6); (1, 10); (0, 2)].

(** Every philosopher gets through its two calls of [grabChopstick], in the
    order of their numbers, and then acquires its right chopstick. *)
Definition all_grab : list (nat * nat) :=
  [(0, 6); (1, 10); (2, 10); (3, 10); (4, 14); (0, 1); (1, 1); (2, 1); (3, 1); (4, 1)].

(** Philosopher 0 stops between its two calls of [grabChopstick] while the
    others eat, and then eats itself: every chopstick then belongs to the
    philosopher on whose left it is.  All take their right chopsticks, and then
    wait for their left ones. *)
Definition all_wait : list (nat * nat) :=
  [(1, 20); (0, 4); (4, 24); (3, 24); (2, 24); (1, 20); (0, 16);
   (0, 8); (1, 8); (2, 8); (3, 8); (4, 8); (0, 2); (1, 2); (2, 2); (3, 2); (4, 2)].

Ltac five i := do 5 (destruct i as [|i]; [by vm_compute|]); lia.

Lemma all_wait_waits i : i < 5 -> philos (run all_wait) i = Grab L g_waiting.
Proof. intros Hi. five i. Qed.

Lemma all_grab_acq i : i < 5 -> philos (run all_grab) i = Eat e_acq_left.
Proof. intros Hi. five i. Qed.

(** C38: the program claims the solution of Chandy and Misra, which is free of
    deadlock, but it has exactly two deadlocks.  In a reachable state no
    philosopher can make a step of its own if and only if all five hold the
    permit of their right chopstick and wait for that of the left one, or all
    five are in [wait ()] for their left chopstick; both happen ([all_grab],
    [all_wait]), because [grabChopstick] of a chopstick that already belongs to
    the caller leaves it dirty, so that a neighbour can take it from a
    philosopher that is about to eat.  The first admits no step at all; out of
    the second even the wake-ups without notification that Java allows do not
    lead: nobody ever gets beyond [grabChopstick] again. *)
Theorem philosophers_deadlock w :
  reachable w ->
  (blocked w <->
     (forall i, i < 5 -> philos w i = Eat e_acq_left) \/
     (forall i, i < 5 -> philos w i = Grab L g_waiting)) /\
  ((forall i, i < 5 -> philos w i = Eat e_acq_left) -> forall w', ~ step w w') /\
  ((forall i, i < 5 -> philos w i = Grab L g_waiting) ->
     forall w', rtc step w w' -> forall i, i < 5 -> exists p, philos w' i = Grab L p) /\
  (reachable (run all_grab) /\ forall i, i < 5 -> philos (run all_grab) i = Eat e_acq_left) /\
  (reachable (run all_wait) /\ forall i, i < 5 -> philos (run all_wait) i = Grab L g_waiting).
Proof.
  intros Hok%reachable_ok.
  assert ((forall i, i < 5 -> philos w i = Eat e_acq_left) -> blocked w) as Hleft.
  { intros Hall i Hi. unfold philo_step. rewrite (Hall i Hi). cbn [eat_step]. unfold acquire.
    rewrite (kn_sem _ _ _ _ (tk_knows w Hok (stick i L) (stick i L))); [done|].
    by rewrite Hall by (by apply stick_lt). }
  split; [split|split; [|split; [|split]]].
  - intros Hb. destruct (blocked_cases w Hok Hb) as [H|H]; [by left|right].
    intros i Hi. by apply (all_wait_left w Hok H i Hi).
  - intros [H|H]; [by apply Hleft|]. intros i Hi. unfold philo_step. by rewrite (H i Hi).
  - intros Hall w' Hs. destruct Hs as [w i w' Hi E|w i d Hi E].
    + by rewrite (Hleft Hall i Hi) in E.
    + by rewrite (Hall i Hi) in E.
  - intros Hall w' Hr. enough (jammed w') as Hj.
    { intros i Hi. destruct (Hj i Hi) as (_ & _ & Hp). destruct (philos w' i) as [|[] p| |]; try done.
      by exists p. }
    apply (rtc_invariant step jammed jammed_step _ _ Hr). intros c Hc.
    assert (exists i, i < 5 /\ stick i L = c) as (i & Hi & <-).
    { exists ((c + 4) mod 5). split; [apply Nat.mod_upper_bound; lia|]. clear Hok Hleft Hall Hr. five c. }
    destruct (all_wait_left w Hok) with i as (_ & H1 & H2); [naive_solver|done|].
    rewrite (Hall _ Hc). done.
  - split; [apply turns_reachable; repeat constructor; cbn; lia|apply all_grab_acq].
  - split; [apply turns_reachable; repeat constructor; cbn; lia|apply all_wait_waits].
Qed.

Lemma philosophers_deadlock_witness :
  blocked (run all_grab) /\ blocked (run all_wait) /\ (forall w, ~ step (run all_grab) w) /\
  (forall w, rtc step (run all_wait) w -> exists p, philos w 0 = Grab L p).
Proof.
  assert (reachable (run all_grab)) as R1 by (apply turns_reachable; repeat constructor; cbn; lia).
  assert (reachable (run all_wait)) as R2 by (apply turns_reachable; repeat constructor; cbn; lia).
  destruct (philosophers_deadlock _ R1) as (H1 & H2 & _).
  destruct (philosophers_deadlock _ R2) as (H3 & _ & H4 & _).
  split; [apply H1; left; apply all_grab_acq|]. split; [apply H3; right; apply all_wait_waits|].
  split; [apply H2, all_grab_acq|]. intros w Hw. apply (H4 all_wait_waits w Hw). lia.
Defined.

Lemma philosophers_exclusive_witness :
  eats (philos (run zero_eats) 0) /\ ~ eats (philos (run zero_eats) 1) /\
  mainuser (chopsticks (run zero_eats) 1) = 1 /\
  exists d, stick (mainuser (chopsticks (run zero_eats) 1)) d = 1.
Proof.
  assert (reachable (run zero_eats)) as Hr by (apply turns_reachable; repeat constructor; cbn; lia).
  destruct (philosophers_exclusive _ Hr) as (H1 & _ & H3 & _).
  assert (eats (philos (run zero_eats) 0)) as E0 by (by vm_compute).
  split; [exact E0|]. split; [|split; [by vm_compute|apply H3; lia]].
  intros E1. discriminate (H1 0 1 E0 E1 (or_intror eq_refl)).
Defined.

(** ** What the program prints *)

(** The last line that a philosopher printed about itself: [said_done] for
    "finished eating", and for nothing yet. *)
Inductive last_said : Type := said_done | said_thinking | said_thought | said_eating.

#[export] Instance last_said_eq_dec : EqDecision last_said.
Proof. solve_decision. Defined.

(** What a reader of the lines keeps: the user last named for each chopstick,
    and the last line of each philosopher about itself. *)
Record reader : Type := { recorded : nat -> option nat; last_line : nat -> last_said }.

Definition blank : reader := {| recorded := fun _ => None; last_line := fun _ => said_done |}.

Definition see (s : reader) (i : nat) (p p' : last_said) : option reader :=
  if decide (last_line s i = p) then Some {| recorded := recorded s; last_line := <[i := p']> (last_line s) |} else None.

(** [None] if the line contradicts what was printed before. *)
Definition read_line (s : reader) (m : message) : option reader :=
  match m with
  | holds_chopstick u c =>
    if decide (recorded s c = None) then Some {| recorded := <[c := Some u]> (recorded s); last_line := last_line s |}
    else None
  | receives u c from =>
    if decide (recorded s c = Some from /\ u <> from /\ last_line s u = said_thought)
    then Some {| recorded := <[c := Some u]> (recorded s); last_line := last_line s |} else None
  | attempt_failed from u => if decide (from <> u /\ last_line s u = said_thought) then Some s else None
  | thinking i => see s i said_done said_thinking
  | finished_thinking i => see s i said_thinking said_thought
  | eating i => see s i said_thought said_eating
  | finished_eating i => see s i said_eating said_done
  end.

Fixpoint read_lines (s : reader) (l : list message) : option reader :=
  match l with
  | [] => Some s
  | m :: l => match read_line s m with Some s => read_lines s l | None => None end
  end.

(** The last line of a philosopher at [p]. *)
Definition last_line_of (p : pc) : last_said :=
  match p with
  | Think t_start => said_done
  | Think t_sleep => said_thinking
  | Grab _ _ | Eat (e_acq_right | e_acq_left | e_eating) => said_thought
  | Eat (e_sleep | e_rel_left | e_done) => said_eating
  | SetStick _ _ => said_done
  end.

(** The reader's notes agree with the state of the program. *)
Record right (w : table) (s : reader) : Prop := {
  rt_recorded : forall c, c < 5 -> recorded s c = Some (mainuser (chopsticks w c));
  rt_last_line : forall i, i < 5 -> last_line s i = last_line_of (philos w i)
}.

Lemma read_lines_snoc s l m t :
  read_lines s l = Some t -> read_lines s (l ++ [m]) = read_line t m.
Proof.
  revert s. induction l as [|x l IH]; intros s; cbn [read_lines app].
  - intros [= ->]. by destruct (read_line t m).
  - destruct (read_line s x); [apply IH|done].
Qed.

(** A step that prints nothing changes no [mainuser] and no last line. *)
Lemma right_quiet w w' s :
  right w s ->
  (forall c, c < 5 -> mainuser (chopsticks w' c) = mainuser (chopsticks w c)) ->
  (forall i, i < 5 -> last_line_of (philos w' i) = last_line_of (philos w i)) -> right w' s.
Proof. intros [R1 R2] H1 H2. split; intros; [rewrite H1|rewrite H2]; auto. Qed.

Lemma right_see w s i p p' m :
  right w s -> i < 5 -> last_line_of (philos w i) = p ->
  exists s', see s i p (last_line_of p') = Some s' /\
    right {| chopsticks := chopsticks w; philos := <[i := p']> (philos w); out := m |} s'.
Proof.
  intros [R1 R2] Hi Hp. unfold see. rewrite decide_True by (rewrite R2; done).
  eexists. split; [reflexivity|]. split; cbn; [done|]. intros j Hj.
  destruct (decide (j = i)) as [->|]; look; auto.
Qed.

Lemma last_line_wake c i p : last_line_of (wake c i p) = last_line_of p.
Proof. destruct p as [|d []| |]; try done. cbn. by destruct (decide _). Qed.

Definition log_ok (w : table) : Prop :=
  table_ok w /\ exists s, read_lines blank (out w) = Some s /\ right w s.

(** A step that prints one line. *)
Lemma log_says w w' m s s' :
  table_ok w' -> read_lines blank (out w) = Some s -> out w' = out w ++ [m] ->
  read_line s m = Some s' -> right w' s' -> log_ok w'.
Proof.
  intros Hok E Eo Em Hr. split; [done|]. exists s'. split; [|done].
  by rewrite Eo, (read_lines_snoc _ _ _ _ E).
Qed.

Lemma log_quiet w w' s :
  table_ok w' -> read_lines blank (out w) = Some s -> right w s -> out w' = out w ->
  (forall c, c < 5 -> mainuser (chopsticks w' c) = mainuser (chopsticks w c)) ->
  (forall i, i < 5 -> last_line_of (philos w' i) = last_line_of (philos w i)) -> log_ok w'.
Proof.
  intros Hok E Hr Eo H1 H2. split; [done|]. exists s. rewrite Eo. split; [done|]. by eapply right_quiet.
Qed.

Lemma user_same w i w' c :
  philo_step w i = Some w' -> (forall d, philos w i <> Grab d g_take) ->
  mainuser (chopsticks w' c) = mainuser (chopsticks w c).
Proof.
  intros E Hp. destruct (decide (mainuser (chopsticks w' c) = mainuser (chopsticks w c))) as [|Hne]; [done|].
  destruct (user_changes w i w' c E Hne) as (d & H & _). by destruct (Hp d).
Qed.

(** The steps of a philosopher that print nothing. *)
Lemma quiet_step w i w' :
  philo_step w i = Some w' -> out w' = out w ->
  (forall d, philos w i <> Grab d g_take) /\
  forall j, last_line_of (philos w' j) = last_line_of (philos w j).
Proof.
  intros E Eo. assert (forall m : message, out w <> out w ++ [m]) as Hne.
  { intros m H. apply (f_equal length) in H. rewrite length_app in H. cbn in H. lia. }
  assert (forall p f, last_line_of p = last_line_of (philos w i) ->
    (forall j, last_line_of (f j) = last_line_of (philos w j)) ->
    forall j, last_line_of (<[i := p]> f j) = last_line_of (philos w j)) as Hup.
  { intros p f Hp Hf j. destruct (decide (j = i)) as [->|]; look; auto. }
  unfold philo_step in E.
  destruct (philos w i) as [[]|d []|[]|d []] eqn:Hp; cbn [think_step grab_step eat_step set_step] in E;
    unfold acquire, enter, leave, release in E;
    repeat match type of E with context [match ?x with _ => _ end] => destruct x; try done end;
    try discriminate E; injection E as <-; cbn [out move goto println] in Eo;
    try (by destruct (Hne _ (eq_sym Eo)));
    (split; [intros ?; congruence|]); cbn [philos move goto println]; apply Hup; rewrite ?Hp; try done;
    intros j; by rewrite last_line_wake.
Qed.

(** The steps that print a line. *)
Lemma loud_step w i w' s :
  table_ok w -> i < 5 -> philo_step w i = Some w' -> out w' <> out w -> right w s ->
  exists m s', out w' = out w ++ [m] /\ read_line s m = Some s' /\ right w' s'.
Proof.
  intros Hok Hi E Hout Hr. pose proof (tk_knows w Hok i) as Hk.
  assert (forall p p', philos w i = p -> exists s', see s i (last_line_of p) (last_line_of p') = Some s' /\
    forall m, right {| chopsticks := chopsticks w; philos := <[i := p']> (philos w); out := m |} s') as Hsee.
  { intros p p' Hp. destruct (right_see w s i (last_line_of p) p' [] Hr Hi) as (s' & H & R); [by rewrite Hp|].
    exists s'. split; [done|]. intros m. by destruct R. }
  unfold philo_step in E.
  destruct (philos w i) as [[]|d []|[]|d []] eqn:Hp; cbn [think_step grab_step eat_step set_step] in E;
    unfold acquire, enter, leave, release in E;
    repeat match type of E with context [match ?x with _ => _ end] =>
      let Ex := fresh "Ex" in destruct x eqn:Ex; try done end;
    try discriminate E; injection E as <-; cbn [out move goto println] in *; try done.
  - destruct (Hsee _ (Think t_sleep) eq_refl) as (s' & E' & R'). exists (thinking i), s'.
    split; [done|]. split; [exact E'|apply R'].
  - destruct (Hsee _ (Grab R g_enter) eq_refl) as (s' & E' & R'). exists (finished_thinking i), s'.
    split; [done|]. split; [exact E'|apply R'].
  - exists (attempt_failed (mainuser (chopsticks w (stick i d))) i), s. split; [done|].
    destruct Hr as [R1 R2]. cbn [read_line]. rewrite decide_True by (rewrite R2, Hp; done).
    split; [done|]. split; cbn; intros j Hj.
    + rewrite R1 by done. destruct (decide (j = stick i d)) as [->|]; by look.
    + rewrite R2 by done. destruct (decide (j = i)) as [->|]; look; by rewrite ?Hp.
  - destruct (kn_take _ _ _ _ (Hk (stick i d))) as [_ Hu]; [done|]. destruct Hr as [R1 R2].
    eexists _, _. split; [done|]. cbn [read_line].
    rewrite decide_True by (rewrite R1, R2, Hp by (done || by apply stick_lt); auto).
    split; [done|]. split; cbn; intros j Hj.
    + destruct (decide (j = stick i d)) as [->|]; look; auto.
    + rewrite R2 by done. destruct (decide (j = i)) as [->|]; look; by rewrite ?Hp.
  - destruct (Hsee _ (Eat e_sleep) eq_refl) as (s' & E' & R'). exists (eating i), s'.
    split; [done|]. split; [exact E'|apply R'].
  - destruct (Hsee _ (SetStick R s_enter) eq_refl) as (s' & E' & R'). exists (finished_eating i), s'.
    split; [done|]. split; [exact E'|apply R'].
Qed.

#[export] Instance message_eq_dec : EqDecision message.
Proof. solve_decision. Defined.

Lemma log_step w w' : log_ok w -> step w w' -> log_ok w'.
Proof.
  intros [Hok (s & Es & Hr)] Hs. pose proof (step_ok w w' Hok Hs) as Hok'.
  destruct Hs as [w i w' Hi E|w i d Hi Hp].
  - destruct (decide (out w' = out w)) as [Eo|Hne].
    + destruct (quiet_step w i w' E Eo) as [H1 H2].
      apply (log_quiet w _ s); try done. intros c _. by apply (user_same w i).
    + destruct (loud_step w i w' s Hok Hi E Hne Hr) as (m & s' & Eo & Em & R). by eapply log_says.
  - apply (log_quiet w _ s); try done. intros j Hj. cbn.
    destruct (decide (j = i)) as [->|]; look; by rewrite ?Hp.
Qed.

Lemma log_start : log_ok start.
Proof.
  split; [apply table_start_ok|]. eexists. split; [reflexivity|]. split; cbn; [|done].
  intros c Hc. five c.
Qed.

(** "finished eating" is printed after the chopsticks are put down: a
    neighbour's "eating..." can come first. *)
Definition late_line : list (nat * nat) := [(0, 6); (1, 10); (0, 5); (1, 3)].

Lemma late_line_reachable : reachable (run late_line).
Proof. apply turns_reachable. repeat constructor; cbn; lia. Qed.

(** C39: the printed lines agree with each other and with the state.  Read from
    the beginning, a "receives" line names as giver the user that the lines
    before recorded for the chopstick, and as receiver another philosopher whose
    last own line is "finished thinking"; the own lines of each philosopher
    repeat thinking, finished thinking, eating, finished eating.  At any time the
    user recorded last for a chopstick is its [mainuser] (not necessarily the
    one that holds its permit), and the last own line of each philosopher tells
    between which two of its [println] calls it is.  The lines run behind the
    meals: one who eats (holds the permits of both chopsticks) has last printed
    "finished thinking" or "eating", but one whose last line is "eating" eats or
    has already put down its right, or both, chopsticks.  So two neighbours can
    both have "eating" as their last line (after the turns [late_line]), though
    they never eat at the same time. *)
Theorem philosophers_output w :
  reachable w ->
  (exists s, read_lines blank (out w) = Some s /\
    (forall c, c < 5 -> recorded s c = Some (mainuser (chopsticks w c))) /\
    (forall i, i < 5 -> last_line s i = last_line_of (philos w i)) /\
    (forall i, i < 5 -> eats (philos w i) -> last_line s i = said_thought \/ last_line s i = said_eating) /\
    (forall i, i < 5 -> last_line s i = said_eating ->
       eats (philos w i) \/ philos w i = Eat e_rel_left \/ philos w i = Eat e_done)) /\
  (exists s, reachable (run late_line) /\ read_lines blank (out (run late_line)) = Some s /\
    last_line s 0 = said_eating /\ last_line s 1 = said_eating).
Proof.
  intros H. split.
  - destruct (rtc_invariant step log_ok log_step _ _ H log_start) as [_ (s & Es & [R1 R2])].
    exists s. split; [done|]. split; [done|]. split; [done|].
    split; intros i Hi; rewrite (R2 i Hi); destruct (philos w i) as [[]|d []|[]|d []]; cbn;
      naive_solver.
  - eexists. split; [apply late_line_reachable|]. by vm_compute.
Qed.

Lemma philosophers_output_witness :
  out (run late_line)
  = [holds_chopstick 0 0; holds_chopstick 0 1; holds_chopstick 1 2; holds_chopstick 2 3;
     holds_chopstick 3 4; thinking 0; finished_thinking 0; thinking 1; finished_thinking 1;
     receives 1 1 0; eating 0; eating 1] /\
  exists s, read_lines blank (out (run late_line)) = Some s /\
    recorded s 1 = Some 1 /\ last_line s 0 = said_eating /\ last_line s 1 = said_eating.
Proof.
  split; [vm_compute; reflexivity|].
  destruct (philosophers_output _ late_line_reachable) as [(s & Es & H1 & H2 & _) _].
  exists s. split; [exact Es|].
  split; [|split]; [rewrite (H1 1)|rewrite (H2 0)|rewrite (H2 1)]; try lia; vm_compute; reflexivity.
Defined.
